(* ===== verification/_CoqProject ===== *)
-Q . S2P
Prelude.v
Sums.v
Core.v
State.v
Serialize.v
StateProps.v
PebbleFiles.v
Operators.v
WindowStore.v
Window.v
WindowRun.v
Oracle.v
WindowOracle.v
Streams.v
Gate.v
GateSpec.v
Writer.v
SourceTask.v
SourceTaskSpec.v
Generator.v
Nexmark.v
NexmarkSpec.v
Transform.v
MaxBid.v
HotItems.v
NexmarkOracle.v
MaxBidOracle.v
Pipeline.v
HotItemsSpec.v
Q5.v
OracleReads.v
QueriesSpec.v
Strconv.v
GoStrings.v
Float64.v
Crc32.v
CheckpointFormat.v
Storage.v
StorageSpec.v
Coordinator.v
CoordinatorSpec.v
CoordinatorLive.v
Transactional.v
TransactionalSpec.v
ExactlyOnce.v
Subtask.v
Stages.v
SubtaskSink.v
SourceSubtask.v
OperatorTask.v
OperatorTaskSpec.v
OperatorRecovery.v
JobStages.v
Job.v
JobOutput.v
JobSample.v
JobQueries.v
Graph.v
GraphSpec.v
GraphLine.v
Executor.v
RunErrors.v
RunSubtask.v
RunSubtaskSpec.v
BenchWorkload.v
BenchSpec.v
BenchFingerprint.v
BenchFingerprintSpec.v
BenchMain.v
BenchMainSpec.v
CountingState.v
MeterRace.v
BenchState.v
BenchStateSpec.v
BenchRecovery.v
BenchRecoverySpec.v
BenchCommand.v
Worker.v
ChaosSchedule.v
ChaosInjector.v
