(* ===== verification/Prelude.v ===== *)
(** * Tidemark: a verification of the stream processor under [src/]

    Tidemark runs a job, a directed acyclic graph of sources, operators and
    sinks, as parallel subtasks joined by channels, with event-time watermarks,
    aligned checkpoint barriers (Chandy and Lamport), recovery from the last
    complete checkpoint and a transactional sink. The promise is: the output of
    a job that is killed at any point and resumed is the output of a job that is
    not, each record once. This library models the program that carries that
    promise and proves what each part contributes to it, up to the promise
    itself for whole jobs ([JobQueries]).

    ** The parts, and how they interact

    The executor ([runtime/executor.go]) orders the job graph ([graph/]), joins
    the subtasks by channels and starts each as [runSubtask]
    ([runtime/subtask.go]). A source subtask ([runtime/source_task.go]) reads its
    contiguous range of the offsets of a source ([sources/]), and sends records,
    watermarks and numbered barriers through a writer ([transport/writer.go]),
    which partitions records by the hash of their key and broadcasts the rest.
    Every other subtask reads its inputs through a gate ([runtime/gate.go]),
    which aligns barriers, takes the minimum of the watermarks and ends when all
    inputs do. An operator ([operators/]) folds records into keyed state
    ([state/]). At a barrier each subtask hands a snapshot ([state/serialize.go])
    to the coordinator ([checkpoint/coordinator.go]), which writes it
    ([checkpoint/storage.go]) and completes the checkpoint when the last one has
    arrived. The sink ([sinks/transactional.go]) stages an epoch at each barrier
    and commits it when its checkpoint completes, or on recovery.

    ** Files

    Shared:
    - [Prelude]: results and errors, the state monad [M E S], integers at their
      width ([i64], [u64] and the like), byte strings, tactics and hints;
      [Sums]: sums over lists. [Streams]: what is said of streams everywhere (the
      records up to the k-th barrier, interleavings, timeliness).
    - [Strconv], [GoStrings], [Crc32], [Float64]: the parts of Go's library the
      code uses.

    State and operators:
    - [Core]: stream elements ([core/element.go]).
    - [State], [Serialize], [StateProps], [PebbleFiles]: [KeyedState] as a class
      with laws, the in-process map and the Pebble wrapper as instances over a
      parameter for the Pebble library, the ordered encoding, the snapshot
      format, and the directory of a database ([state/]).
    - [Operators]: the monad an operator runs in (its state, what it emits,
      [core.Context]), the interface [core.Operator] as the record [Operator]
      with the class [OperatorLaws], and the arithmetic of windows.
      [WindowStore], [WindowRun]: an operator that aggregates by key and window,
      as an abstract store of aggregates and timers, and what a run of one emits.
      [Window]: the window counts ([operators/window.go]). [Transform], [MaxBid],
      [HotItems]: the other operators ([operators/transform.go], [nexmark.go]).
    - [Oracle], [NexmarkOracle]: the brute-force batch oracles ([test/oracle/]).
      [WindowOracle], [MaxBidOracle], [HotItemsSpec], [QueriesSpec]: each operator
      against its oracle. [Pipeline], [Q5]: operators in a row, and q5 as it is
      composed. [OracleReads]: the oracles that read their source themselves.

    Between the subtasks:
    - [Gate], [GateSpec]: the gate and the faults a subtask consults.
    - [Writer]: hash, writer, outputs and channels ([transport/]).
    - [SourceTask], [SourceTaskSpec]: the source loop over any source that keeps
      the contract of [core.Source] (the classes [Source] and [SourceLaws]);
      [Generator], [Nexmark], [NexmarkSpec]: the two sources, instances of that
      contract.

    Checkpoints and output:
    - [CheckpointFormat], [Storage], [StorageSpec]: the two files of a checkpoint
      and the writes, over a disk that keeps only what was synced.
    - [Coordinator], [CoordinatorSpec], [CoordinatorLive]: the coordinator's
      methods as operations on the state its mutex guards; the order in which
      Go ranges over a map is an argument.
    - [Transactional], [TransactionalSpec], [ExactlyOnce]: the sink, over a file
      system whose every call may fail, and its reader.

    Subtasks and jobs:
    - [Subtask]: a subtask's half of the checkpoint protocol (the classes
      [Checkpoints] and [CheckpointsLaws], with the coordinator as an instance),
      the interface of a sink and the sink's loop ([sinks/memory.go] too).
      [SubtaskSink]: the sink subtask. [SourceSubtask]: the source subtask.
      [OperatorTask], [OperatorTaskSpec], [OperatorRecovery]: the operator
      subtask. [Stages]: from one subtask to the next.
    - [JobStages], [Job], [JobOutput], [JobSample], [JobQueries]: a whole job,
      killed and resumed any number of times, and what it commits.
    - [Graph], [GraphSpec], [GraphLine]: the job graph.
    - [Executor], [RunErrors], [RunSubtask], [RunSubtaskSpec]: the wiring, the
      restore point and the end of a run; the goroutines that report and cancel;
      one subtask from its vertex to the end of its outputs.

    Commands and test drivers:
    - [BenchWorkload], [BenchFingerprint], [BenchMain], [BenchState],
      [BenchRecovery], each with its [Spec], [BenchCommand], [CountingState] and
      [MeterRace]: the benchmark ([cmd/bench]). [Worker]: the worker
      ([cmd/worker]).
    - [ChaosSchedule], [ChaosInjector]: fault schedules, the injector and the
      census ([test/chaos]).

    Names follow the Go names; a method [m] of a type [T] is [m], or [T_m] where
    two types of a file have one.

    ** How the code is modelled

    A method that changes its receiver is a function in [M E S A], that is
    [S -> result E A * S]: the state it leaves is there on an error too. Errors
    are values, one constructor for each wrapped or returned error. An [int64]
    is a [Z], and arithmetic wraps where the code's does. Interfaces are
    classes, and what a client relies on is a class of laws which the instances
    discharge. A loop that is bounded by data is a [Fixpoint] on that data; the
    gate's, the source's and the oracles' loops take fuel, and theorems say what
    fuel is enough ([gate_terminates]: the elements its inputs still hold; a
    source's, [run_closes_channels], and an oracle's, [nexmark_oracles_read]: one
    turn for each record and one for the end). Goroutines appear as
    interleavings: the gate's forwarders as the merges of its inputs, the calls
    on the coordinator as any sequence of calls, a run's goroutines and the
    meter's atomic operations as step relations. A crash is a system call that
    does not return, or a disk that loses what was not synced.

    ** What is shown

    - The promise: [job_exactly_once] and [max_bid_job_exactly_once], for jobs of
      sources, an operator that aggregates by window and a sink, killed anywhere
      any number of times: what they commit is the batch answer, once. The parts:
      [sink_task_exactly_once], [window_task_recovers], [operator_recovers],
      [source_task_recovers], [gate_consistent_cut], [marker_means_recoverable],
      [completed_survives], [completes_exactly_when] and [run_resumes].
    - Event time: [window_count_matches_oracle], [max_bid_matches_oracle],
      [q5_matches_oracle], [stateless_queries_match]: the operators against the
      oracles, for streams in time, which [source_watermarks_safe],
      [generator_never_late] and [gate_keeps_records_on_time] provide.
    - Routing, ranges and graphs: [writer_routes], [source_ranges_partition],
      [source_injects_budget], [validate_accepts_executable],
      [topo_order_topological], [wire_connects].
    - Resuming a source: [source_resume_continues], the same records and barriers,
      and which watermarks: those of the records read since the barrier, which
      may be behind the full run's ([resumed_watermarks_behind]).
    - Runs: [run_reports_cause], the error a run reports is a cause;
      [run_closes_channels], every subtask returns and every channel is closed.
    - Formats: round trips ([snapshot_round_trip], [records_round_trip],
      [nexmark_layouts]), and that damaged input is refused
      ([corrupted_byte_refused]); [nexmark_events_agree], every field of an event
      in its range.
    - Progress: [gate_terminates], [gate_end_of_stream], [no_lost_wakeup].
    - The commands: [bench_job_executable], [recovery_measures_restored],
      [meter_peak_bound]; [identityGraph_ok], [worker_outcomes].
    - The chaos suite: [schedule_lands], [faults_fire_once], [census_adds_up].
    - [completed_may_be_lost] shows a weakness: the checkpoint root is never
      synced, so a crash may lose a checkpoint that was reported complete.

    ** Bounds

    Theorems about ranges and budgets ask that parallelism times the count of a
    source fits an [int64] ([settings_ok]): the code multiplies the two. The
    theorems on what is counted ask that the count fits where the code stores it.

    ** Not modelled

    The Pebble library, the operating system, the flag and JSON libraries and the
    clock are parameters. Imports, accessors and [osFS], which only forward, have
    no counterpart. [Gate.Wait] joins goroutines and changes nothing. How the
    steps of two subtasks of a job interleave is an argument of [Executor]; that
    what a job commits does not depend on it is what [Job] shows, for jobs of the
    shape above. In [test/chaos] the test functions, which run attempts and
    compare files, the timing decorators with their bands and the Nexmark suite
    are test code and left out. *)
From Stdlib Require Export ZArith Lia.
From Stdlib Require Import Strings.Byte.
From Stdlib Require Strings.String.
From stdpp Require Export base tactics decidable countable list numbers option sorting fin_maps gmap.

#[export] Set Default Goal Selector "!".
#[export] Set Warnings "-clear-no-such-hyp,-level-tolerance".
Open Scope Z_scope.

(** * Errors as values *)

(** A Go function returning [(T, error)]: either the value or the error. *)
Inductive result (E A : Type) : Type :=
| Ok (a : A)
| Err (e : E).
Arguments Ok {E A} a.
Arguments Err {E A} e.

#[export] Instance result_ret {E} : MRet (result E) := fun A a => Ok a.
#[export] Instance result_bind {E} : MBind (result E) :=
  fun A B f m => match m with Ok a => f a | Err e => Err e end.
#[export] Instance result_fmap {E} : FMap (result E) :=
  fun A B f m => match m with Ok a => Ok (f a) | Err e => Err e end.

(** [fmt.Errorf("...: %w", err)]: the error is wrapped, the value kept. *)
Definition wrap_err {E F A} (w : E -> F) (r : result E A) : result F A :=
  match r with Ok a => Ok a | Err e => Err (w e) end.

Definition is_ok {E A} (r : result E A) : bool :=
  match r with Ok _ => true | Err _ => false end.

(** * Bytes *)

Abbreviation byte := Byte.byte.
Abbreviation bytes := (list Byte.byte).

#[export] Instance byte_eq_dec : EqDecision byte := Byte.byte_eq_dec.
#[export] Program Instance byte_countable : Countable byte :=
  inj_countable Byte.to_N Byte.of_N _.
Next Obligation. apply Byte.of_to_N. Qed.

Definition byte_to_Z (b : byte) : Z := Z.of_N (Byte.to_N b).

(** Go's conversion [byte(z)]: the low eight bits. *)
Definition byte_of_Z (z : Z) : byte :=
  match Byte.of_N (Z.to_N (z mod 256)) with
  | Some b => b
  | None => Byte.x00
  end.

Lemma byte_to_Z_range b : 0 <= byte_to_Z b < 256.
Proof. unfold byte_to_Z. pose proof (Byte.to_N_bounded b). lia. Qed.

Lemma byte_to_of_Z z : byte_to_Z (byte_of_Z z) = z mod 256.
Proof.
  unfold byte_to_Z, byte_of_Z.
  pose proof (Z.mod_pos_bound z 256 ltac:(lia)) as Hr.
  destruct (Byte.of_N (Z.to_N (z mod 256))) as [b|] eqn:E.
  - apply Byte.to_of_N in E. lia.
  - apply Byte.of_N_None_iff in E. lia.
Qed.

Lemma byte_to_Z_inj b c : byte_to_Z b = byte_to_Z c -> b = c.
Proof.
  unfold byte_to_Z. intros H%N2Z.inj.
  pose proof (Byte.of_to_N b). pose proof (Byte.of_to_N c). congruence.
Qed.

Lemma byte_of_to_Z b : byte_of_Z (byte_to_Z b) = b.
Proof.
  apply byte_to_Z_inj. rewrite byte_to_of_Z.
  apply Z.mod_small, byte_to_Z_range.
Qed.

(** A string literal of the source, as the bytes Go stores. *)
Definition str (s : String.string) : bytes := String.list_byte_of_string s.
Arguments str s%_string_scope.
Export String.StringSyntax.

(** * Machine integers

    An integer of the source is a [Z] together with the wrap-around of its
    width. [int] is the 64-bit one. *)

Definition min_int64 : Z := -2 ^ 63.
Definition max_int64 : Z := 2 ^ 63 - 1.

Definition is_i64 (z : Z) : Prop := min_int64 <= z <= max_int64.
Definition is_u64 (z : Z) : Prop := 0 <= z < 2 ^ 64.
Definition is_u32 (z : Z) : Prop := 0 <= z < 2 ^ 32.
Definition is_u16 (z : Z) : Prop := 0 <= z < 2 ^ 16.

(** Go's conversions [int64(z)], [uint64(z)], [uint32(z)] and [uint16(z)]. *)
Definition i64 (z : Z) : Z := (z + 2 ^ 63) mod 2 ^ 64 - 2 ^ 63.
Definition u64 (z : Z) : Z := z mod 2 ^ 64.
Definition u32 (z : Z) : Z := z mod 2 ^ 32.
Definition u16 (z : Z) : Z := z mod 2 ^ 16.

(** Go's [+], [-] and [*] at [int64]. *)
Definition add64 (a b : Z) : Z := i64 (a + b).
Definition sub64 (a b : Z) : Z := i64 (a - b).
Definition mul64 (a b : Z) : Z := i64 (a * b).

Ltac unfold_ints :=
  unfold is_i64, is_u64, is_u32, is_u16, add64, sub64, mul64,
    i64, u64, u32, u16, min_int64, max_int64 in *.

#[export] Instance is_i64_dec z : Decision (is_i64 z) := and_dec _ _.
#[export] Instance is_u64_dec z : Decision (is_u64 z) := and_dec _ _.

Lemma i64_id z : is_i64 z -> i64 z = z.
Proof. unfold_ints. intros. rewrite Z.mod_small; lia. Qed.

Lemma u64_id z : is_u64 z -> u64 z = z.
Proof. apply Z.mod_small. Qed.

Lemma i64_range z : is_i64 (i64 z).
Proof. unfold_ints. pose proof (Z.mod_pos_bound (z + 2 ^ 63) (2 ^ 64)). lia. Qed.

Lemma u64_range z : is_u64 (u64 z).
Proof. unfold_ints. apply Z.mod_pos_bound. lia. Qed.

Lemma i64_u64 z : i64 (u64 z) = i64 z.
Proof. unfold i64, u64. rewrite Zplus_mod_idemp_l. done. Qed.

Lemma u64_i64 z : u64 (i64 z) = u64 z.
Proof.
  unfold i64, u64. rewrite Zminus_mod_idemp_l. f_equal. lia.
Qed.

Lemma add64_id a b : is_i64 (a + b) -> add64 a b = a + b.
Proof. apply i64_id. Qed.
Lemma sub64_id a b : is_i64 (a - b) -> sub64 a b = a - b.
Proof. apply i64_id. Qed.
Lemma mul64_id a b : is_i64 (a * b) -> mul64 a b = a * b.
Proof. apply i64_id. Qed.

(** Overflow of a sum of two [int64]s is off by exactly [2^64]. *)
Lemma add64_cases a b :
  is_i64 a -> is_i64 b ->
  (is_i64 (a + b) /\ add64 a b = a + b) \/
  (max_int64 < a + b /\ add64 a b = a + b - 2 ^ 64) \/
  (a + b < min_int64 /\ add64 a b = a + b + 2 ^ 64).
Proof.
  unfold_ints. intros Ha Hb.
  assert (-2 ^ 64 <= a + b < 2 ^ 64) as Hs by lia.
  generalize dependent (a + b). intros s Hs. clear -Hs.
  pose proof (Z.div_mod (s + 2 ^ 63) (2 ^ 64) ltac:(lia)).
  pose proof (Z.mod_pos_bound (s + 2 ^ 63) (2 ^ 64) ltac:(lia)).
  set (q := (s + 2 ^ 63) / 2 ^ 64) in *. lia.
Qed.

Lemma sub64_add64 a b : sub64 a b = add64 a (-b).
Proof. done. Qed.

(** * Big-endian encodings: [encoding/binary.BigEndian] *)

(** The low [n] bytes of [z], most significant first. *)
Fixpoint be_bytes (n : nat) (z : Z) : bytes :=
  match n with
  | O => []
  | S n => byte_of_Z (Z.shiftr z (8 * Z.of_nat n)) :: be_bytes n z
  end.

(** The unsigned number a byte string spells. *)
Fixpoint be_Z (l : bytes) : Z :=
  match l with
  | [] => 0
  | b :: l => byte_to_Z b * 256 ^ Z.of_nat (length l) + be_Z l
  end.

Definition put_uint64 (z : Z) : bytes := be_bytes 8 z.
Definition put_uint32 (z : Z) : bytes := be_bytes 4 z.
Definition put_uint16 (z : Z) : bytes := be_bytes 2 z.

(** [binary.BigEndian.Uint64(b)]: the first eight bytes of [b]. Every call of
    the source is under a length check; a shorter slice panics there. *)
Definition uint64 (b : bytes) : Z := be_Z (take 8 b).
Definition uint32 (b : bytes) : Z := be_Z (take 4 b).
Definition uint16 (b : bytes) : Z := be_Z (take 2 b).
Arguments put_uint64 : simpl never.
Arguments put_uint32 : simpl never.
Arguments put_uint16 : simpl never.
Arguments uint64 : simpl never.
Arguments uint32 : simpl never.
Arguments uint16 : simpl never.
Arguments str : simpl never.

Lemma length_be_bytes n z : length (be_bytes n z) = n.
Proof. induction n; simpl; congruence. Qed.

Lemma be_Z_range l : 0 <= be_Z l < 256 ^ Z.of_nat (length l).
Proof.
  induction l as [|b l IH]; [simpl; lia|].
  cbn [be_Z length]. rewrite Nat2Z.inj_succ, Z.pow_succ_r by lia.
  pose proof (byte_to_Z_range b). nia.
Qed.

Lemma be_Z_be_bytes n z : be_Z (be_bytes n z) = z mod 256 ^ Z.of_nat n.
Proof.
  induction n as [|n IH]; [simpl; by rewrite Z.mod_1_r|].
  cbn [be_bytes be_Z]. rewrite IH, length_be_bytes, byte_to_of_Z.
  rewrite Nat2Z.inj_succ, Z.pow_succ_r by lia.
  rewrite Z.shiftr_div_pow2 by lia.
  replace (2 ^ (8 * Z.of_nat n)) with (256 ^ Z.of_nat n)
    by (rewrite Z.pow_mul_r by lia; done).
  rewrite (Z.mul_comm 256), (Z.rem_mul_r z) by lia. lia.
Qed.

Lemma be_bytes_mod n k z :
  (n <= k)%nat -> be_bytes n (z mod 256 ^ Z.of_nat k) = be_bytes n z.
Proof.
  induction n as [|n IH]; intros Hn; [done|].
  cbn [be_bytes]. rewrite IH by lia. f_equal. apply byte_to_Z_inj.
  rewrite !byte_to_of_Z, !Z.shiftr_div_pow2 by lia.
  replace (2 ^ (8 * Z.of_nat n)) with (256 ^ Z.of_nat n)
    by (rewrite Z.pow_mul_r by lia; done).
  replace (256 ^ Z.of_nat k) with
    (256 ^ Z.of_nat n * (256 * 256 ^ (Z.of_nat k - Z.of_nat n - 1))).
  2:{ rewrite <- Z.pow_succ_r, <- Z.pow_add_r by lia. f_equal. lia. }
  set (p := 256 ^ Z.of_nat n). set (q := 256 ^ (Z.of_nat k - Z.of_nat n - 1)).
  assert (0 < p) by (unfold p; lia). assert (0 < q) by (unfold q; apply Z.pow_pos_nonneg; lia).
  rewrite (Z.rem_mul_r z p) by lia.
  rewrite (Z.mul_comm p), Z.div_add, (Z.div_small (z mod p)) by (try lia; apply Z.mod_pos_bound; lia).
  rewrite Z.add_0_l, (Z.rem_mul_r (z / p) 256) by lia.
  rewrite (Z.mul_comm 256), Z.mod_add by lia. apply Z.mod_mod. lia.
Qed.

Lemma be_bytes_be_Z l : be_bytes (length l) (be_Z l) = l.
Proof.
  induction l as [|b l IH]; [done|].
  cbn [length be_bytes be_Z].
  pose proof (be_Z_range l) as Hr. pose proof (byte_to_Z_range b) as Hb.
  assert (0 < 256 ^ Z.of_nat (length l)) by lia.
  f_equal.
  - rewrite Z.shiftr_div_pow2, Z.pow_mul_r by lia. change (2 ^ 8) with 256.
    rewrite Z.div_add_l, Z.div_small, Z.add_0_r by lia. apply byte_of_to_Z.
  - rewrite <- (be_bytes_mod _ (length l)) by lia.
    rewrite Z.add_comm, Z.mod_add, Z.mod_small by lia. done.
Qed.

Lemma be_Z_inj l k : length l = length k -> be_Z l = be_Z k -> l = k.
Proof.
  intros Hl Hz. rewrite <- (be_bytes_be_Z l), <- (be_bytes_be_Z k). congruence.
Qed.

Lemma be_bytes_inj n z w :
  0 <= z < 256 ^ Z.of_nat n -> 0 <= w < 256 ^ Z.of_nat n ->
  be_bytes n z = be_bytes n w -> z = w.
Proof.
  intros Hz Hw E. apply (f_equal be_Z) in E.
  rewrite !be_Z_be_bytes, !Z.mod_small in E; lia.
Qed.

Lemma take_be_bytes n z l : take n (be_bytes n z ++ l) = be_bytes n z.
Proof. apply take_app_length'. by rewrite length_be_bytes. Qed.

Lemma drop_be_bytes n z l : drop n (be_bytes n z ++ l) = l.
Proof. apply drop_app_length'. by rewrite length_be_bytes. Qed.

Lemma length_put_uint64 z : length (put_uint64 z) = 8%nat.
Proof. apply length_be_bytes. Qed.
Lemma length_put_uint32 z : length (put_uint32 z) = 4%nat.
Proof. apply length_be_bytes. Qed.
Lemma length_put_uint16 z : length (put_uint16 z) = 2%nat.
Proof. apply length_be_bytes. Qed.

Lemma uint64_put z l : uint64 (put_uint64 z ++ l) = u64 z.
Proof. unfold uint64, put_uint64. by rewrite take_be_bytes, be_Z_be_bytes. Qed.
Lemma uint32_put z l : uint32 (put_uint32 z ++ l) = u32 z.
Proof. unfold uint32, put_uint32. by rewrite take_be_bytes, be_Z_be_bytes. Qed.
Lemma uint16_put z l : uint16 (put_uint16 z ++ l) = u16 z.
Proof. unfold uint16, put_uint16. by rewrite take_be_bytes, be_Z_be_bytes. Qed.

Lemma uint64_put' z : uint64 (put_uint64 z) = u64 z.
Proof. rewrite <- (app_nil_r (put_uint64 z)). apply uint64_put. Qed.

Lemma uint32_put' z : uint32 (put_uint32 z) = u32 z.
Proof. rewrite <- (app_nil_r (put_uint32 z)). apply uint32_put. Qed.
Lemma uint16_put' z : uint16 (put_uint16 z) = u16 z.
Proof. rewrite <- (app_nil_r (put_uint16 z)). apply uint16_put. Qed.

Lemma uint64_range l : is_u64 (uint64 l).
Proof.
  unfold uint64, is_u64. pose proof (be_Z_range (take 8 l)) as Hr.
  rewrite length_take in Hr.
  assert (256 ^ Z.of_nat (8 `min` length l) <= 256 ^ 8) by (apply Z.pow_le_mono_r; lia).
  change (256 ^ 8) with (2 ^ 64) in *. lia.
Qed.

Lemma put_uint64_u64 z : put_uint64 (u64 z) = put_uint64 z.
Proof. apply (be_bytes_mod 8 8). lia. Qed.

Lemma put_uint64_uint64 l : length l = 8%nat -> put_uint64 (uint64 l) = l.
Proof.
  intros Hl. unfold put_uint64, uint64. rewrite take_ge by lia.
  rewrite <- Hl. apply be_bytes_be_Z.
Qed.

Lemma put_uint64_inj z w : put_uint64 z = put_uint64 w -> u64 z = u64 w.
Proof. intros E. by rewrite <- !uint64_put', E. Qed.

Lemma put_uint64_i64_inj z w :
  is_i64 z -> is_i64 w -> put_uint64 z = put_uint64 w -> z = w.
Proof.
  intros Hz Hw E%put_uint64_inj.
  rewrite <- (i64_id z), <- (i64_id w), <- (i64_u64 z), <- (i64_u64 w) by done.
  congruence.
Qed.

(** * Byte order of keys

    Go compares strings and byte slices bytewise, a proper prefix first. *)

Fixpoint bytes_leb (a b : bytes) : bool :=
  match a, b with
  | [], _ => true
  | _ :: _, [] => false
  | x :: a, y :: b =>
      if byte_to_Z x <? byte_to_Z y then true
      else if byte_to_Z y <? byte_to_Z x then false
      else bytes_leb a b
  end.

Definition bytes_le (a b : bytes) : Prop := bytes_leb a b = true.
Definition bytes_lt (a b : bytes) : Prop := bytes_le a b /\ a <> b.

#[export] Instance bytes_le_dec : RelDecision bytes_le.
Proof. intros a b. unfold bytes_le. apply _. Defined.

Lemma bytes_leb_cons x a y b :
  bytes_leb (x :: a) (y :: b) = true <->
  byte_to_Z x < byte_to_Z y \/ (x = y /\ bytes_leb a b = true).
Proof.
  simpl. destruct (Z.ltb_spec (byte_to_Z x) (byte_to_Z y)).
  { split; auto. }
  destruct (Z.ltb_spec (byte_to_Z y) (byte_to_Z x)).
  - split; [done|]. intros [?|[-> ?]]; lia.
  - assert (x = y) as -> by (apply byte_to_Z_inj; lia).
    split; [auto|]. intros [?|[_ ?]]; [lia|done].
Qed.

#[export] Instance bytes_le_refl : Reflexive bytes_le.
Proof.
  intros a. unfold bytes_le. induction a as [|x a IH]; [done|].
  apply bytes_leb_cons. auto.
Qed.

#[export] Instance bytes_le_trans : Transitive bytes_le.
Proof.
  intros a b c. unfold bytes_le. revert b c.
  induction a as [|x a IH]; intros [|y b] [|z c]; try done.
  rewrite !bytes_leb_cons. intros [?|[-> ?]] [?|[-> ?]]; eauto with lia.
Qed.

#[export] Instance bytes_le_antisymm : AntiSymm (=) bytes_le.
Proof.
  intros a b. unfold bytes_le. revert b.
  induction a as [|x a IH]; intros [|y b]; try done.
  rewrite !bytes_leb_cons. intros [?|[-> ?]] [?|[? ?]]; subst; try lia.
  f_equal. auto.
Qed.

#[export] Instance bytes_le_total : Total bytes_le.
Proof.
  intros a b. unfold bytes_le. revert b.
  induction a as [|x a IH]; intros [|y b]; [by left|by left|by right|].
  rewrite !bytes_leb_cons.
  destruct (Z.lt_trichotomy (byte_to_Z x) (byte_to_Z y)) as [?|[?%byte_to_Z_inj|?]]; auto.
  destruct (IH b); auto.
Qed.

(** Two byte strings with a common prefix compare as what follows it. *)
Lemma bytes_le_app_l p a b : bytes_le (p ++ a) (p ++ b) <-> bytes_le a b.
Proof.
  unfold bytes_le. induction p as [|x p IH]; [done|].
  simpl app. rewrite bytes_leb_cons, IH. split; [|auto].
  intros [?|[_ ?]]; [lia|done].
Qed.

(** Big-endian strings of one width, whatever follows them, sort as numbers. *)
Lemma bytes_le_be_Z a b s t :
  length a = length b ->
  bytes_le (a ++ s) (b ++ t) <-> be_Z a < be_Z b \/ (a = b /\ bytes_le s t).
Proof.
  unfold bytes_le. revert b. induction a as [|x a IH]; intros [|y b] Hl; try done.
  { simpl. split; [auto|]. intros [?|[_ ?]]; [lia|done]. }
  injection Hl as Hl. simpl app. rewrite bytes_leb_cons, (IH b) by done.
  cbn [be_Z]. rewrite Hl.
  pose proof (be_Z_range a) as Ha. pose proof (be_Z_range b) as Hb.
  rewrite Hl in Ha. set (p := 256 ^ Z.of_nat (length b)) in *.
  split.
  - intros [?|[-> [?|[-> ?]]]]; [left; nia|left; nia|auto].
  - intros [Hlt|[[= -> ->] ?]]; [|auto 6].
    destruct (Z.lt_trichotomy (byte_to_Z x) (byte_to_Z y)) as [?|[?%byte_to_Z_inj|?]];
      [by left| |nia].
    subst. right. split; [done|]. left. nia.
Qed.

(** * Sorted key lists *)

Definition sorted_keys {A} (m : gmap bytes A) : list bytes :=
  merge_sort bytes_le (map_to_list m).*1.

Lemma sorted_keys_perm {A} (m : gmap bytes A) :
  sorted_keys m ≡ₚ (map_to_list m).*1.
Proof. apply merge_sort_Permutation. Qed.

Lemma elem_of_sorted_keys {A} (m : gmap bytes A) k :
  k ∈ sorted_keys m <-> is_Some (m !! k).
Proof.
  rewrite sorted_keys_perm, list_elem_of_fmap. split.
  - intros [[k' v] [-> Hin%elem_of_map_to_list]]. eauto.
  - intros [v Hv]. exists (k, v). by rewrite elem_of_map_to_list.
Qed.

Lemma NoDup_sorted_keys {A} (m : gmap bytes A) : NoDup (sorted_keys m).
Proof. rewrite sorted_keys_perm. apply NoDup_fst_map_to_list. Qed.

Lemma sorted_keys_sorted {A} (m : gmap bytes A) :
  StronglySorted bytes_le (sorted_keys m).
Proof. apply (StronglySorted_merge_sort bytes_le). Qed.

(** The sorted enumeration of a key set is unique: it depends on the set
    alone. *)
Lemma sorted_keys_unique {A} (m : gmap bytes A) l :
  StronglySorted bytes_le l -> NoDup l -> (forall k, k ∈ l <-> is_Some (m !! k)) ->
  l = sorted_keys m.
Proof.
  intros Hs Hnd Hin.
  apply (StronglySorted_unique bytes_le); [done|apply sorted_keys_sorted|].
  apply NoDup_Permutation; [done|apply NoDup_sorted_keys|].
  intros k. by rewrite Hin, elem_of_sorted_keys.
Qed.

(** The entries of a map in ascending byte order of their keys. *)
Definition sorted_entries {A} (m : gmap bytes A) : list (bytes * A) :=
  omap (fun k => (fun v => (k, v)) <$> m !! k) (sorted_keys m).

(** * A state and error monad

    A Go method on a receiver: it may return an error, and what it did to the
    receiver before that stays done. *)

Definition M (E S A : Type) : Type := S -> result E A * S.

#[export] Instance M_ret {E S} : MRet (M E S) := fun A a s => (Ok a, s).
#[export] Instance M_bind {E S} : MBind (M E S) := fun A B f m s =>
  match m s with
  | (Ok a, s') => f a s'
  | (Err e, s') => (Err e, s')
  end.

Definition fail {E S A} (e : E) : M E S A := fun s => (Err e, s).
Definition get_st {E S} : M E S S := fun s => (Ok s, s).
Definition modify {E S} (f : S -> S) : M E S unit := fun s => (Ok tt, f s).

(** Lifting a pure computation that may fail. *)
Definition lift {E S A} (r : result E A) : M E S A := fun s => (r, s).

(** [for _, x := range l { if err := f(x); err != nil { return err } }] *)
Fixpoint for_each {E S A} (f : A -> M E S unit) (l : list A) : M E S unit :=
  match l with
  | [] => mret tt
  | x :: l => _ ← f x; for_each f l
  end.

Lemma bind_run {E S A B} (m : M E S A) (f : A -> M E S B) s a s1 :
  m s = (Ok a, s1) -> (m ≫= f) s = f a s1.
Proof. intros Hm. unfold mbind, M_bind. by rewrite Hm. Qed.

Lemma bind_ok {E S A B} (m : M E S A) (f : A -> M E S B) s b s' :
  (m ≫= f) s = (Ok b, s') -> exists a s1, m s = (Ok a, s1) /\ f a s1 = (Ok b, s').
Proof. unfold mbind, M_bind. destruct (m s) as [[a|e] s1]; [eauto|done]. Qed.

Lemma bind_any {E S A B} (m : M E S A) (f : A -> M E S B) s r s' :
  (m ≫= f) s = (r, s') ->
  (exists e, m s = (Err e, s') /\ r = Err e) \/ (exists a s1, m s = (Ok a, s1) /\ f a s1 = (r, s')).
Proof. unfold mbind, M_bind. destruct (m s) as [[a|e] s1]; [eauto|intros [= <- <-]; eauto]. Qed.

Lemma bind_assoc {E S A B D} (m : M E S A) (f : A -> M E S B) (g : B -> M E S D) s :
  ((m ≫= f) ≫= g) s = (m ≫= fun a => f a ≫= g) s.
Proof. unfold mbind, M_bind. by destruct (m s) as [[a|e] s1]. Qed.

Lemma bind_ext {E S A B} (m : M E S A) (f g : A -> M E S B) s :
  (forall a s, f a s = g a s) -> (m ≫= f) s = (m ≫= g) s.
Proof. intros Hf. unfold mbind, M_bind. destruct (m s) as [[a|e] s1]; [apply Hf|done]. Qed.

Lemma for_each_cons {E S A} (f : A -> M E S unit) x l s :
  for_each f (x :: l) s =
  match f x s with
  | (Ok _, s') => for_each f l s'
  | (Err e, s') => (Err e, s')
  end.
Proof. done. Qed.

Lemma for_each_app {E S A} (f : A -> M E S unit) l k s :
  for_each f (l ++ k) s =
  match for_each f l s with
  | (Ok _, s') => for_each f k s'
  | (Err e, s') => (Err e, s')
  end.
Proof.
  revert s. induction l as [|x l IH]; intros s; [done|].
  simpl app. rewrite !for_each_cons. destruct (f x s) as [[u|e] s']; auto.
Qed.

(** An invariant of the body is an invariant of the loop, errors included. *)
Lemma for_each_inv {E S A} (f : A -> M E S unit) (P : S -> Prop) l s :
  (forall x s, x ∈ l -> P s -> P (f x s).2) -> P s -> P (for_each f l s).2.
Proof.
  revert s. induction l as [|x l IH]; intros s Hf Hs; [done|].
  rewrite for_each_cons. specialize (Hf x) as Hx.
  destruct (f x s) as [[u|e] s'] eqn:Ex.
  - apply IH; [intros; apply Hf; [by right|done]|].
    change s' with (Ok u : result E unit, s').2. rewrite <- Ex. apply Hx; [by left|done].
  - change (P (Err e : result E unit, s').2). rewrite <- Ex. apply Hx; [by left|done].
Qed.

(** ** Programs that keep an invariant, on errors as well *)

Definition maintains {E S A} (P : S -> Prop) (m : M E S A) : Prop := forall s, P s -> P (m s).2.

Lemma maintains_ret {E S A} (P : S -> Prop) (a : A) : maintains P (mret a : M E S A).
Proof. by intros s. Qed.

Lemma maintains_lift {E S A} (P : S -> Prop) (r : result E A) : maintains P (lift r).
Proof. by intros s. Qed.

Lemma maintains_fail {E S A} (P : S -> Prop) (e : E) : maintains P (fail e : M E S A).
Proof. by intros s. Qed.

Lemma maintains_bind {E S A B} (P : S -> Prop) (m : M E S A) (f : A -> M E S B) :
  maintains P m -> (forall a, maintains P (f a)) -> maintains P (m ≫= f).
Proof.
  intros Hm Hf s Hs. unfold mbind, M_bind. specialize (Hm s Hs). destruct (m s) as [[a|e] s']; [by apply Hf|done].
Qed.

Lemma maintains_for_each {E S A} (P : S -> Prop) (f : A -> M E S unit) l : (forall a, maintains P (f a)) -> maintains P (for_each f l).
Proof. intros Hf s. apply for_each_inv. intros x t _. apply Hf. Qed.

(** A body that never fails makes a loop that never fails. *)
Lemma for_each_ok {E S A} (f : A -> M E S unit) (P : S -> Prop) l s :
  (forall x s, x ∈ l -> P s -> is_ok (f x s).1 = true /\ P (f x s).2) ->
  P s -> is_ok (for_each f l s).1 = true /\ P (for_each f l s).2.
Proof.
  revert s. induction l as [|x l IH]; intros s Hf Hs; [done|].
  rewrite for_each_cons. destruct (Hf x s) as [Hok HP]; [by left|done|].
  destruct (f x s) as [[u|e] s'] eqn:Ex; [|done].
  apply IH; [|done]. intros y t Hy. apply Hf. by right.
Qed.

(** The last [n] elements of a list. *)
Definition last_n {A} (n : nat) (l : list A) : list A := drop (length l - n) l.

Lemma last_n_app {A} (l k : list A) : last_n (length k) (l ++ k) = k.
Proof. unfold last_n. rewrite length_app. apply drop_app_length'. lia. Qed.

(** [for i := 0; i < n; i++ { if err := m(); err != nil { return err } }], by
    recursion on the binary form of [n]: an error stops it at once, so that a
    count read from a corrupt stream does not have to be counted down. *)
Fixpoint repeat_pos {E S} (p : positive) (m : M E S unit) : M E S unit :=
  match p with
  | xH => m
  | xO p => _ ← repeat_pos p m; repeat_pos p m
  | xI p => _ ← m; _ ← repeat_pos p m; repeat_pos p m
  end.

Definition repeat_Z {E S} (n : Z) (m : M E S unit) : M E S unit :=
  match n with Zpos p => repeat_pos p m | _ => mret tt end.

Fixpoint repeat_nat {E S} (n : nat) (m : M E S unit) : M E S unit :=
  match n with O => mret tt | S n => _ ← m; repeat_nat n m end.

Lemma repeat_nat_add {E S} n k (m : M E S unit) s :
  repeat_nat (n + k) m s =
  match repeat_nat n m s with
  | (Ok _, s') => repeat_nat k m s'
  | (Err e, s') => (Err e, s')
  end.
Proof.
  revert s. induction n as [|n IH]; intros s; [done|].
  cbn. unfold mbind, M_bind. destruct (m s) as [[u|e] s']; auto.
Qed.

Lemma repeat_pos_nat {E S} p (m : M E S unit) s :
  repeat_pos p m s = repeat_nat (Pos.to_nat p) m s.
Proof.
  revert s. induction p as [p IH|p IH|]; intros s; cbn [repeat_pos].
  - rewrite Pos2Nat.inj_xI. cbn [repeat_nat]. unfold mbind, M_bind.
    destruct (m s) as [[u|e] s']; [|done].
    replace (2 * Pos.to_nat p)%nat with (Pos.to_nat p + Pos.to_nat p)%nat by lia.
    rewrite repeat_nat_add, IH. destruct (repeat_nat _ m s') as [[u'|e] s'']; auto.
  - rewrite Pos2Nat.inj_xO. unfold mbind, M_bind.
    replace (2 * Pos.to_nat p)%nat with (Pos.to_nat p + Pos.to_nat p)%nat by lia.
    rewrite repeat_nat_add, IH. destruct (repeat_nat _ m s) as [[u|e] s']; auto.
  - change (Pos.to_nat 1) with 1%nat. cbn [repeat_nat]. unfold mbind, M_bind.
    destruct (m s) as [[[]|e] s']; reflexivity.
Qed.

Lemma repeat_Z_nat {E S} n (m : M E S unit) s :
  repeat_Z n m s = repeat_nat (Z.to_nat n) m s.
Proof. destruct n as [|p|p]; [done|apply repeat_pos_nat|done]. Qed.

(** ** Entries of a map *)

Lemma sorted_entries_fst {A} (m : gmap bytes A) :
  (sorted_entries m).*1 = sorted_keys m.
Proof.
  unfold sorted_entries.
  pose proof (fun k => proj1 (elem_of_sorted_keys m k)) as Hs.
  induction (sorted_keys m) as [|k l IH]; [done|].
  destruct (Hs k) as [v Hv]; [by left|]. cbn. rewrite Hv. cbn.
  f_equal. apply IH. intros k' Hk'. apply Hs. by right.
Qed.

Lemma elem_of_sorted_entries {A} (m : gmap bytes A) k v :
  (k, v) ∈ sorted_entries m <-> m !! k = Some v.
Proof.
  unfold sorted_entries. rewrite list_elem_of_omap. split.
  - intros (k' & _ & He). destruct (m !! k') as [v'|] eqn:E; naive_solver.
  - intros Hv. exists k. rewrite elem_of_sorted_keys, Hv. eauto.
Qed.

Lemma length_sorted_entries {A} (m : gmap bytes A) :
  length (sorted_entries m) = size m.
Proof.
  rewrite <- (length_fmap fst), sorted_entries_fst, sorted_keys_perm.
  by rewrite length_fmap, length_map_to_list.
Qed.

Lemma list_to_map_sorted_entries {A} (m : gmap bytes A) :
  list_to_map (sorted_entries m) = m.
Proof.
  apply map_eq. intros k. apply option_eq. intros v.
  rewrite <- (elem_of_sorted_entries m). symmetry. apply elem_of_list_to_map.
  rewrite sorted_entries_fst. apply NoDup_sorted_keys.
Qed.

Lemma foldl_insert_entries {A} (l : list (bytes * A)) (m : gmap bytes A) :
  NoDup l.*1 ->
  foldl (fun m kv => <[kv.1 := kv.2]> m) m l = list_to_map l ∪ m.
Proof.
  revert m. induction l as [|[k v] l IH]; intros m Hnd; cbn.
  { by rewrite map_empty_union. }
  apply NoDup_cons in Hnd as [Hk Hnd]. cbn in *. rewrite IH by done.
  rewrite <- insert_union_l. rewrite insert_union_r; [done|].
  by apply not_elem_of_list_to_map_1.
Qed.

Lemma sorted_entries_empty {A} : sorted_entries (∅ : gmap bytes A) = [].
Proof. reflexivity. Qed.

(** ** Sorted lists *)

Lemma StronglySorted_filter {A} (R : relation A) (P : A -> Prop) `{forall x, Decision (P x)} (l : list A) :
  StronglySorted R l -> StronglySorted R (filter P l).
Proof.
  induction 1 as [|x l Hl IH Hx]; [constructor|].
  rewrite filter_cons. case_decide; [|done]. constructor; [done|].
  rewrite Forall_forall in *. intros y [_ Hy]%list_elem_of_filter. auto.
Qed.

Lemma StronglySorted_fmap_iff {A B} (R : relation B) (f : A -> B) l :
  StronglySorted R (f <$> l) <-> StronglySorted (fun x y => R (f x) (f y)) l.
Proof.
  induction l as [|x l IH]; [split; constructor|].
  cbn. rewrite !StronglySorted_cons, IH, Forall_fmap. done.
Qed.

Lemma filter_none {A} (P : A -> Prop) `{forall x, Decision (P x)} (l : list A) :
  (forall x, x ∈ l -> ~ P x) -> filter P l = [].
Proof.
  induction l as [|x l IH]; intros Hl; [done|].
  rewrite filter_cons_False by (apply Hl; by left). apply IH. intros y Hy. apply Hl. by right.
Qed.

Lemma filter_all {A} (P : A -> Prop) `{forall x, Decision (P x)} (l : list A) :
  (forall x, x ∈ l -> P x) -> filter P l = l.
Proof.
  induction l as [|x l IH]; intros Hl; [done|].
  rewrite filter_cons_True by (apply Hl; by left). f_equal.
  apply IH. intros y Hy. apply Hl. by right.
Qed.

Lemma omap_none {A B} (f : A -> option B) l : Forall (fun x => f x = None) l -> omap f l = [].
Proof. induction 1 as [|x l E _ IH]; [done|]. cbn. by rewrite E. Qed.

Lemma NoDup_omap_inj {A B} (f : A -> option B) l :
  (forall x y z, x ∈ l -> y ∈ l -> f x = Some z -> f y = Some z -> x = y) -> NoDup l -> NoDup (omap f l).
Proof.
  intros Hf Hl. induction Hl as [|x l Hx Hl IH]; [constructor|]. cbn.
  assert (NoDup (omap f l)) as IH' by (apply IH; intros y y' z ? ?; apply Hf; by right).
  destruct (f x) as [z|] eqn:Ex; [|done]. constructor; [|done]. intros (y & Hy & Ey)%list_elem_of_omap.
  rewrite (Hf x y z) in Hx by first [by left|by right|done]. done.
Qed.
