(* ===== verification/Sums.v ===== *)
(** Sums over lists, and the members of a list updated at an index. *)
From S2P Require Import Prelude.

(** * Sums *)

Fixpoint sum {A} (f : A -> Z) (l : list A) : Z := match l with [] => 0 | x :: l => f x + sum f l end.

Lemma sum_insert {A} (f : A -> Z) (l : list A) i x y : l !! i = Some x -> sum f (<[i := y]> l) = sum f l - f x + f y.
Proof.
  revert i. induction l as [|z l IH]; intros [|i]; simpl; [done|done|intros [= ->]; lia|]. intros Hl. rewrite (IH i Hl). lia.
Qed.

Lemma sum_bounds {A} (f : A -> Z) (l : list A) : (forall x, 0 <= f x <= 1) -> 0 <= sum f l <= Z.of_nat (length l).
Proof. intros H. induction l as [|x l IH]; cbn; [lia|]. specialize (H x). lia. Qed.

(** All of them, if the sum is as large as it can be. *)
Lemma sum_full {A} (f : A -> Z) (l : list A) x : (forall x, 0 <= f x <= 1) -> sum f l = Z.of_nat (length l) -> x ∈ l -> f x = 1.
Proof.
  intros H. induction l as [|y l IH]; [by intros _ ?%elem_of_nil|]. cbn. pose proof (sum_bounds f l H). pose proof (H y).
  intros E [->|Hin]%elem_of_cons; [lia|]. apply IH; [lia|done].
Qed.

Lemma sum_zero {A} (f : A -> Z) (l : list A) : (forall x, x ∈ l -> f x = 0) -> sum f l = 0.
Proof.
  induction l as [|x l IH]; intros H; cbn; [done|]. rewrite (H x) by by left. rewrite IH; [done|].
  intros y Hy. apply H. by right.
Qed.

Lemma sum_not_full {A} (f : A -> Z) (l : list A) x : (forall x, 0 <= f x <= 1) -> x ∈ l -> f x = 0 -> sum f l <= Z.of_nat (length l) - 1.
Proof.
  intros H Hin Hx. pose proof (sum_bounds f l H). destruct (Z.eq_dec (sum f l) (Z.of_nat (length l))) as [E|]; [|lia].
  pose proof (sum_full f l x H E Hin). lia.
Qed.

Lemma sum_app {A} (f : A -> Z) (l k : list A) : sum f (l ++ k) = sum f l + sum f k.
Proof. induction l as [|x l IH]; cbn; lia. Qed.

Lemma sum_fmap {A B} (f : B -> Z) (g : A -> B) (l : list A) : sum f (g <$> l) = sum (fun x => f (g x)) l.
Proof. induction l as [|x l IH]; [done|]. rewrite fmap_cons. cbn. by rewrite IH. Qed.

Lemma sum_perm {A} (f : A -> Z) (l k : list A) : l ≡ₚ k -> sum f l = sum f k.
Proof. induction 1; cbn; lia. Qed.

Lemma sum_ext {A} (f g : A -> Z) (l : list A) : (forall x, x ∈ l -> f x = g x) -> sum f l = sum g l.
Proof.
  induction l as [|x l IH]; intros H; cbn; [done|]. rewrite (H x) by by left. rewrite IH; [done|]. intros y Hy. apply H. by right.
Qed.

(** * The members of an updated list *)

Lemma in_insert {A} (l : list A) i x y : x ∈ <[i := y]> l -> x = y \/ x ∈ l.
Proof.
  intros [j Hj]%list_elem_of_lookup. apply list_lookup_insert_Some in Hj as [(_ & <- & _)|[_ Hj]]; [by left|].
  right. by eapply list_elem_of_lookup_2.
Qed.

Lemma insert_new {A} (l : list A) i x y : l !! i = Some x -> y ∈ <[i := y]> l.
Proof.
  intros Hl. apply (list_elem_of_lookup_2 _ i). apply list_lookup_insert_eq. by eapply lookup_lt_Some.
Qed.

Lemma insert_old {A} (l : list A) i x y z : l !! i = Some x -> z ∈ l -> z = x \/ z ∈ <[i := y]> l.
Proof.
  intros Hl [j Hj]%list_elem_of_lookup. destruct (decide (i = j)) as [->|Hne]; [left; congruence|].
  right. apply (list_elem_of_lookup_2 _ j). by rewrite list_lookup_insert_ne.
Qed.
