(* ===== verification/Core.v ===== *)
(** The element types of [pkg/core]: records, barriers and the stream elements
    that carry them on every channel. *)
From S2P Require Import Prelude.

(** The kind of an element, a [uint8] in the source. *)
Inductive ElementKind := KindRecord | KindWatermark | KindBarrier | KindEndOfStream.

#[export] Instance ElementKind_eq_dec : EqDecision ElementKind.
Proof. solve_decision. Defined.

(** [ElementKind.String], on the [uint8] it is defined on. *)
Definition ElementKind_String (k : Z) : bytes :=
  if k =? 0 then str "Record"
  else if k =? 1 then str "Watermark"
  else if k =? 2 then str "Barrier"
  else if k =? 3 then str "EndOfStream"
  else str "Unknown".

Record Record_ := NewRecord {
  Key : bytes;
  Value : bytes;
  EventTime : Z;
}.

Record Barrier := NewBarrier {
  CheckpointID : Z;
  Timestamp : Z;
}.

(** [StreamElement]: a kind together with the one field the kind names. *)
Inductive StreamElement :=
| NewRecordElement (rec : Record_)
| NewWatermarkElement (wm : Z)
| NewBarrierElement (b : Barrier)
| NewEndOfStreamElement.

Definition Kind (e : StreamElement) : ElementKind :=
  match e with
  | NewRecordElement _ => KindRecord
  | NewWatermarkElement _ => KindWatermark
  | NewBarrierElement _ => KindBarrier
  | NewEndOfStreamElement => KindEndOfStream
  end.

#[export] Instance Record_eq_dec : EqDecision Record_.
Proof. solve_decision. Defined.
#[export] Instance Barrier_eq_dec : EqDecision Barrier.
Proof. solve_decision. Defined.
#[export] Instance StreamElement_eq_dec : EqDecision StreamElement.
Proof. solve_decision. Defined.
