(* ===== verification/State.v ===== *)
(** Keyed state ([pkg/state]): the interface every operator is written against
    as a type class with its laws, the in-process backend [Memory], the on-disk
    backend [Pebble] over an abstract database, and the order-preserving
    encoding of [int64]. *)
From S2P Require Import Prelude.

(** * Order-preserving encoding of [int64] (encoding.go) *)

Definition OrderedInt64Bytes : nat := 8.
Definition signBit : Z := 2 ^ 63.

Definition EncodeOrderedInt64 (v : Z) : bytes :=
  put_uint64 (Z.lxor (u64 v) signBit).

Definition DecodeOrderedInt64 (b : bytes) : Z :=
  i64 (Z.lxor (uint64 b) signBit).

Arguments EncodeOrderedInt64 : simpl never.
Arguments DecodeOrderedInt64 : simpl never.

(** * The interface (state.go) *)

(** [KeyedState]: the five methods. [Iterate]'s callback sees the entry and
    threads an accumulator (the variables the Go closure captures) and the
    store (which the closure may write to); its boolean says whether to go
    on. *)
Class KeyedState (S E : Type) := {
  ks_get : bytes -> S -> option bytes * S;
  ks_put : bytes -> bytes -> S -> S;
  ks_delete : bytes -> S -> S;
  ks_iterate : forall {A : Type},
    (bytes -> bytes -> A -> S -> bool * (A * S)) -> A -> S -> A * S;
  ks_err : S -> option E;
}.
#[global] Hint Mode KeyedState ! - : typeclass_instances.

(** What a callback that respects the contract of [Iterate] may decide about
    the entry it is given: the new accumulator, whether to delete that entry,
    whether to go on. *)
Record visit (A : Type) := Visit {
  v_acc : A;
  v_delete : bool;
  v_go : bool;
}.
Arguments Visit {A}.
Arguments v_acc {A}.
Arguments v_delete {A}.
Arguments v_go {A}.

(** The callback such a decision amounts to. *)
Definition contract_cb {S E A} `{KeyedState S E}
    (f : bytes -> bytes -> A -> visit A) (k v : bytes) (a : A) (s : S)
    : bool * (A * S) :=
  let r := f k v a in
  (v_go r, (v_acc r, if v_delete r then ks_delete k s else s)).

(** The reference scan: the decisions taken over a list of entries in order. *)
Fixpoint scan {A} (f : bytes -> bytes -> A -> visit A)
    (l : list (bytes * bytes)) (a : A) (m : gmap bytes bytes)
    : A * gmap bytes bytes :=
  match l with
  | [] => (a, m)
  | (k, v) :: l =>
      let r := f k v a in
      let m := if v_delete r then delete k m else m in
      if v_go r then scan f l (v_acc r) m else (v_acc r, m)
  end.

(** The laws: as long as the stashed error stays nil a backend behaves as the
    finite map [ks_view], and once it is not nil it never changes. *)
Class KeyedStateLaws (S E : Type) `{KeyedState S E} := {
  ks_view : S -> gmap bytes bytes;
  ks_get_ok k (s : S) :
    ks_err (ks_get k s).2 = None ->
    (ks_get k s).1 = ks_view s !! k /\ ks_view (ks_get k s).2 = ks_view s;
  ks_put_ok k v (s : S) :
    ks_err (ks_put k v s) = None ->
    ks_view (ks_put k v s) = <[k := v]> (ks_view s);
  ks_delete_ok k (s : S) :
    ks_err (ks_delete k s) = None ->
    ks_view (ks_delete k s) = delete k (ks_view s);
  ks_iterate_ok {A} (fn : bytes -> bytes -> A -> S -> bool * (A * S)) f a (s : S) :
    (forall k v a s, fn k v a s = contract_cb f k v a s) ->
    ks_err (ks_iterate fn a s).2 = None ->
    let out := scan f (sorted_entries (ks_view s)) a (ks_view s) in
    (ks_iterate fn a s).1 = out.1 /\ ks_view (ks_iterate fn a s).2 = out.2;
  ks_get_sticky k (s : S) (e : E) : ks_err s = Some e -> ks_err (ks_get k s).2 = Some e;
  ks_put_sticky k v (s : S) (e : E) : ks_err s = Some e -> ks_err (ks_put k v s) = Some e;
  ks_delete_sticky k (s : S) (e : E) : ks_err s = Some e -> ks_err (ks_delete k s) = Some e;
  ks_iterate_sticky {A} (fn : bytes -> bytes -> A -> S -> bool * (A * S)) f a (s : S) (e : E) :
    (forall k v a s, fn k v a s = contract_cb f k v a s) ->
    ks_err s = Some e -> ks_err (ks_iterate fn a s).2 = Some e;
}.

(** The reserved key prefixes. *)
Definition PrefixUserState : byte := Byte.x00.
Definition PrefixTimer : byte := Byte.x01.
Definition PrefixOperatorState : byte := Byte.x02.

(** * Memory (state.go) *)

Record Memory := { entries : gmap bytes bytes }.

Definition NewMemory : Memory := {| entries := ∅ |}.

Definition Memory_Get (key : bytes) (m : Memory) : option bytes :=
  entries m !! key.

Definition Memory_Put (key value : bytes) (m : Memory) : Memory :=
  {| entries := <[key := value]> (entries m) |}.

Definition Memory_Delete (key : bytes) (m : Memory) : Memory :=
  {| entries := delete key (entries m) |}.

(** The loop of [Iterate] over the key snapshot, looking each key up again. *)
Fixpoint Memory_visit {A} (fn : bytes -> bytes -> A -> Memory -> bool * (A * Memory))
    (keys : list bytes) (a : A) (m : Memory) : A * Memory :=
  match keys with
  | [] => (a, m)
  | k :: keys =>
      match entries m !! k with
      | None => Memory_visit fn keys a m
      | Some v =>
          let '(go, (a', m')) := fn k v a m in
          if go : bool then Memory_visit fn keys a' m' else (a', m')
      end
  end.

Definition Memory_Iterate {A} (fn : bytes -> bytes -> A -> Memory -> bool * (A * Memory))
    (a : A) (m : Memory) : A * Memory :=
  Memory_visit fn (sorted_keys (entries m)) a m.

(** [Memory.Err] is always nil: its error type is empty. *)
Definition Memory_Err (m : Memory) : option Empty_set := None.

Definition Memory_Len (m : Memory) : Z := Z.of_nat (size (entries m)).

#[export] Instance Memory_KeyedState : KeyedState Memory Empty_set := {|
  ks_get k m := (Memory_Get k m, m);
  ks_put := Memory_Put;
  ks_delete := Memory_Delete;
  ks_iterate := @Memory_Iterate;
  ks_err := Memory_Err;
|}.

(** * Pebble (pebble.go)

    The database is third-party code: a class of the operations the source
    calls, with the behaviour it relies on as laws. *)

(** What an iterator over the database yields: the entries it visits in order,
    and, for a scan that stopped after [n] of them, what [iter.Error] and
    [iter.Close] then return. *)
Record iterator (E : Type) := Iterator {
  it_entries : list (bytes * bytes);
  it_error : nat -> option E;
  it_close : option E;
}.
Arguments Iterator {E}.
Arguments it_entries {E}.
Arguments it_error {E}.
Arguments it_close {E}.

(** [pebble.DB]: [db_get] returns [Ok None] where the library returns
    [ErrNotFound]; [db_release] is the close of the read handle. *)
Class PebbleDB (DB E : Type) := {
  db_get : bytes -> DB -> result E (option bytes);
  db_release : bytes -> DB -> option E;
  db_set : bytes -> bytes -> DB -> result E DB;
  db_delete : bytes -> DB -> result E DB;
  db_iter : DB -> result E (iterator E);
}.
#[global] Hint Mode PebbleDB ! - : typeclass_instances.

(** The documented behaviour: a key-value store in byte order, with an
    iterator fixed when it is made. *)
Class PebbleDBLaws (DB E : Type) `{PebbleDB DB E} := {
  db_contents : DB -> gmap bytes bytes;
  db_get_ok k (d : DB) v : db_get k d = Ok v -> v = db_contents d !! k;
  db_set_ok k v (d d' : DB) :
    db_set k v d = Ok d' -> db_contents d' = <[k := v]> (db_contents d);
  db_delete_ok k (d d' : DB) :
    db_delete k d = Ok d' -> db_contents d' = delete k (db_contents d);
  db_iter_ok (d : DB) it :
    db_iter d = Ok it ->
    exists rest, it_entries it ++ rest = sorted_entries (db_contents d) /\
      (it_error it (length (it_entries it)) = None -> rest = []);
}.

(** The errors the wrapper stashes, by the call that met them. *)
Inductive pebble_error (E : Type) :=
| errClosed
| ErrGet (e : E)
| ErrRelease (e : E)
| ErrPut (e : E)
| ErrDelete (e : E)
| ErrIterate (e : E)
| ErrIterateClose (e : E).
Arguments errClosed {E}.
Arguments ErrGet {E}.
Arguments ErrRelease {E}.
Arguments ErrPut {E}.
Arguments ErrDelete {E}.
Arguments ErrIterate {E}.
Arguments ErrIterateClose {E}.

(** [db] is [None] once closed. *)
Record Pebble (DB E : Type) := MkPebble {
  p_db : option DB;
  p_err : option (pebble_error E);
}.
Arguments MkPebble {DB E}.
Arguments p_db {DB E}.
Arguments p_err {DB E}.

Section Pebble.
Context {DB E : Type} `{PebbleDB DB E}.

(** [fail] keeps the first error. *)
Definition Pebble_fail (e : pebble_error E) (p : Pebble DB E) : Pebble DB E :=
  match p_err p with
  | None => MkPebble (p_db p) (Some e)
  | Some _ => p
  end.

Definition Pebble_fail_opt (w : E -> pebble_error E) (o : option E)
    (p : Pebble DB E) : Pebble DB E :=
  match o with Some e => Pebble_fail (w e) p | None => p end.

(** [closed]: the database to use, or nothing when the call is to be ignored;
    a use after close is recorded. *)
Definition Pebble_closed (p : Pebble DB E) : option DB * Pebble DB E :=
  match p_err p, p_db p with
  | Some _, _ => (None, p)
  | None, None => (None, Pebble_fail errClosed p)
  | None, Some d => (Some d, p)
  end.

Definition Pebble_Get (key : bytes) (p : Pebble DB E) : option bytes * Pebble DB E :=
  match Pebble_closed p with
  | (None, p) => (None, p)
  | (Some d, p) =>
      match db_get key d with
      | Err e => (None, Pebble_fail (ErrGet e) p)
      | Ok None => (None, p)
      | Ok (Some v) =>
          match db_release key d with
          | Some e => (None, Pebble_fail (ErrRelease e) p)
          | None => (Some v, p)
          end
      end
  end.

Definition Pebble_Put (key value : bytes) (p : Pebble DB E) : Pebble DB E :=
  match Pebble_closed p with
  | (None, p) => p
  | (Some d, p) =>
      match db_set key value d with
      | Err e => Pebble_fail (ErrPut e) p
      | Ok d => MkPebble (Some d) (p_err p)
      end
  end.

Definition Pebble_Delete (key : bytes) (p : Pebble DB E) : Pebble DB E :=
  match Pebble_closed p with
  | (None, p) => p
  | (Some d, p) =>
      match db_delete key d with
      | Err e => Pebble_fail (ErrDelete e) p
      | Ok d => MkPebble (Some d) (p_err p)
      end
  end.

(** The scan loop, counting the entries visited. *)
Fixpoint Pebble_visit {A}
    (fn : bytes -> bytes -> A -> Pebble DB E -> bool * (A * Pebble DB E))
    (l : list (bytes * bytes)) (n : nat) (a : A) (p : Pebble DB E)
    : nat * (A * Pebble DB E) :=
  match l with
  | [] => (n, (a, p))
  | (k, v) :: l =>
      let '(go, (a, p)) := fn k v a p in
      if go : bool then Pebble_visit fn l (S n) a p else (S n, (a, p))
  end.

Definition Pebble_Iterate {A}
    (fn : bytes -> bytes -> A -> Pebble DB E -> bool * (A * Pebble DB E))
    (a : A) (p : Pebble DB E) : A * Pebble DB E :=
  match Pebble_closed p with
  | (None, p) => (a, p)
  | (Some d, p) =>
      match db_iter d with
      | Err e => (a, Pebble_fail (ErrIterate e) p)
      | Ok it =>
          let '(n, (a, p)) := Pebble_visit fn (it_entries it) 0 a p in
          let p := Pebble_fail_opt ErrIterate (it_error it n) p in
          (a, Pebble_fail_opt ErrIterateClose (it_close it) p)
      end
  end.

#[export] Instance Pebble_KeyedState : KeyedState (Pebble DB E) (pebble_error E) := {|
  ks_get := Pebble_Get;
  ks_put := Pebble_Put;
  ks_delete := Pebble_Delete;
  ks_iterate := @Pebble_Iterate;
  ks_err := p_err;
|}.
End Pebble.

(** * Properties of the encoding *)

Lemma lxor_signBit v : is_u64 v -> Z.lxor v signBit = (v + 2 ^ 63) mod 2 ^ 64.
Proof.
  unfold signBit. unfold_ints. intros Hv.
  destruct (Z.ltb_spec v (2 ^ 63)) as [Hlt|Hge].
  - rewrite Z.mod_small by lia. rewrite Z.add_nocarry_lxor; [done|].
    apply Z.bits_inj'. intros n Hn. rewrite Z.land_spec, Z.bits_0.
    destruct (decide (n = 63)) as [->|].
    + rewrite <- (Z.mod_small v (2 ^ 63)) by lia.
      by rewrite Z.mod_pow2_bits_high by lia.
    + rewrite Z.pow2_bits_false by lia. apply andb_false_r.
  - replace v with (Z.lxor (v - 2 ^ 63) (2 ^ 63)) at 1.
    { rewrite Z.lxor_assoc, Z.lxor_nilpotent, Z.lxor_0_r.
      replace (v + 2 ^ 63) with (v - 2 ^ 63 + 1 * 2 ^ 64) by lia.
      rewrite Z.mod_add, Z.mod_small; lia. }
    rewrite <- Z.add_nocarry_lxor; [lia|].
    apply Z.bits_inj'. intros n Hn. rewrite Z.land_spec, Z.bits_0.
    destruct (decide (n = 63)) as [->|].
    + rewrite <- (Z.mod_small (v - 2 ^ 63) (2 ^ 63)) by lia.
      by rewrite Z.mod_pow2_bits_high by lia.
    + rewrite Z.pow2_bits_false by lia. apply andb_false_r.
Qed.

(** The ordered form of [v] is the big-endian form of [v + 2^63]. *)
Lemma EncodeOrderedInt64_shift v :
  is_i64 v -> EncodeOrderedInt64 v = put_uint64 (v + 2 ^ 63).
Proof.
  intros Hv. unfold EncodeOrderedInt64. rewrite lxor_signBit by apply u64_range.
  rewrite <- (put_uint64_u64 (v + 2 ^ 63)). f_equal. unfold u64.
  by rewrite Zplus_mod_idemp_l.
Qed.

Lemma length_EncodeOrderedInt64 v : length (EncodeOrderedInt64 v) = OrderedInt64Bytes.
Proof. apply length_put_uint64. Qed.

Lemma DecodeOrderedInt64_Encode v t :
  is_i64 v -> DecodeOrderedInt64 (EncodeOrderedInt64 v ++ t) = v.
Proof.
  intros Hv. unfold DecodeOrderedInt64. rewrite EncodeOrderedInt64_shift, uint64_put by done.
  rewrite lxor_signBit by apply u64_range. unfold i64, u64.
  rewrite Zplus_mod_idemp_l, <- Z.add_assoc, Zplus_mod_idemp_l.
  replace (v + 2 ^ 63 + (2 ^ 63 + 2 ^ 63)) with (v + 2 ^ 63 + 1 * 2 ^ 64) by lia.
  rewrite Z.mod_add by lia. revert Hv. unfold_ints. intros. rewrite Z.mod_small; lia.
Qed.

Lemma EncodeOrderedInt64_le a b s t :
  is_i64 a -> is_i64 b ->
  bytes_le (EncodeOrderedInt64 a ++ s) (EncodeOrderedInt64 b ++ t) <->
  a < b \/ (a = b /\ bytes_le s t).
Proof.
  intros Ha Hb. rewrite bytes_le_be_Z by by rewrite !length_EncodeOrderedInt64.
  rewrite !EncodeOrderedInt64_shift by done. unfold put_uint64.
  rewrite !be_Z_be_bytes. revert Ha Hb. unfold_ints. intros.
  change (256 ^ Z.of_nat 8) with (2 ^ 64). rewrite !Z.mod_small by lia.
  split.
  - intros [?|[E ?]]; [left; lia|]. right. split; [|done].
    apply be_bytes_inj in E; [|change (256 ^ Z.of_nat 8) with (2 ^ 64); lia..]. lia.
  - intros [?|[-> ?]]; [left; lia|by right].
Qed.

Lemma DecodeOrderedInt64_range l : is_i64 (DecodeOrderedInt64 l).
Proof. apply i64_range. Qed.

(** * The backends satisfy the interface *)

Lemma Memory_visit_scan {A} (fn : bytes -> bytes -> A -> Memory -> bool * (A * Memory))
    (f : bytes -> bytes -> A -> visit A) (m0 : gmap bytes bytes) keys a (m : Memory) :
  (forall k v a s, fn k v a s = contract_cb f k v a s) ->
  NoDup keys -> (forall k, k ∈ keys -> entries m !! k = m0 !! k) ->
  let l := omap (fun k => (fun v => (k, v)) <$> m0 !! k) keys in
  let out := scan f l a (entries m) in
  (Memory_visit fn keys a m).1 = out.1 /\ entries (Memory_visit fn keys a m).2 = out.2.
Proof.
  intros Hfn. revert a m. induction keys as [|k keys IH]; intros a m Hnd Hm; [done|].
  apply NoDup_cons in Hnd as [Hk Hnd].
  cbn [omap list_omap Memory_visit]. rewrite (Hm k) by (by left).
  destruct (m0 !! k) as [v|] eqn:Hv; cbn [fmap option_fmap option_map].
  - rewrite Hfn. unfold contract_cb. cbn [scan]. set (r := f k v a).
    assert (entries (if v_delete r then ks_delete k m else m) =
      if v_delete r then delete k (entries m) else entries m) as Hd
      by (by destruct (v_delete r)).
    destruct (v_go r); [|done].
    rewrite <- Hd. apply IH; [done|]. intros k' Hk'. rewrite Hd.
    destruct (v_delete r); [|apply Hm; by right].
    rewrite lookup_delete_ne by (intros ->; done). apply Hm. by right.
  - apply IH; [done|]. intros k' Hk'. apply Hm. by right.
Qed.

#[export] Program Instance Memory_KeyedStateLaws : KeyedStateLaws Memory Empty_set := {|
  ks_view := entries;
|}.
Next Obligation. done. Qed.
Next Obligation. done. Qed.
Next Obligation. done. Qed.
Next Obligation.
  intros A fn f a s Hfn _. by apply Memory_visit_scan; [|apply NoDup_sorted_keys|].
Qed.
Next Obligation. done. Qed.
Next Obligation. done. Qed.
Next Obligation. done. Qed.
Next Obligation. done. Qed.

Section PebbleLaws.
Context {DB E : Type} `{PebbleDBLaws DB E}.

Definition Pebble_view (p : Pebble DB E) : gmap bytes bytes :=
  match p_db p with Some d => db_contents d | None => ∅ end.

Lemma Pebble_fail_err (e : pebble_error E) (p : Pebble DB E) :
  p_err (Pebble_fail e p) <> None.
Proof. unfold Pebble_fail. destruct p as [d [e'|]]; done. Qed.

Lemma Pebble_fail_sticky (e e' : pebble_error E) (p : Pebble DB E) :
  p_err p = Some e -> p_err (Pebble_fail e' p) = Some e.
Proof. unfold Pebble_fail. intros He. by rewrite He. Qed.

Lemma Pebble_closed_sticky (p : Pebble DB E) e :
  p_err p = Some e -> Pebble_closed p = (None, p).
Proof. unfold Pebble_closed. intros He. by rewrite He. Qed.

(** A wrapper with no error at the end of a call had an open database at its
    start. *)
Lemma Pebble_closed_open (p : Pebble DB E) :
  (Pebble_closed p).1 = None /\ p_err (Pebble_closed p).2 <> (None : option (pebble_error E)) \/
  exists d, p = MkPebble (Some d) None /\ Pebble_closed p = (Some d, p).
Proof.
  unfold Pebble_closed. destruct p as [[d|] [e|]]; cbn; eauto.
Qed.

Ltac pebble_open p d :=
  let Hc := fresh "Hc" in
  destruct (Pebble_closed_open p) as [[? ?]|(d & -> & Hc)];
  [destruct (Pebble_closed p) as [[?|] ?]; simplify_eq/=; try done|rewrite Hc in *].

Lemma contract_cb_sticky {A} (f : bytes -> bytes -> A -> visit A) k v a (p : Pebble DB E) e :
  p_err p = Some e -> (contract_cb f k v a p).2.2 = p.
Proof.
  intros He. cbn. destruct (v_delete _); [|done].
  unfold Pebble_Delete. by rewrite (Pebble_closed_sticky _ e).
Qed.

Lemma Pebble_visit_sticky {A} fn (f : bytes -> bytes -> A -> visit A) l n a (p : Pebble DB E) e :
  (forall k v a s, fn k v a s = contract_cb f k v a s) ->
  p_err p = Some e -> (Pebble_visit fn l n a p).2.2 = p.
Proof.
  intros Hfn He. revert n a. induction l as [|[k v] l IH]; intros n a; [done|].
  cbn [Pebble_visit]. rewrite Hfn.
  pose proof (contract_cb_sticky f k v a p e He) as Hp.
  destruct (contract_cb f k v a p) as [go [a' p']]. cbn in Hp. subst p'.
  destruct go; auto.
Qed.

Lemma Pebble_Delete_view k d (p : Pebble DB E) :
  p = MkPebble (Some d) None -> p_err (Pebble_Delete k p) = None ->
  exists d', Pebble_Delete k p = MkPebble (Some d') None /\
    db_contents d' = delete k (db_contents d).
Proof.
  intros ->. unfold Pebble_Delete. cbn. destruct (db_delete k d) eqn:Ed; [|done].
  intros _. eexists. split; [done|]. by apply db_delete_ok.
Qed.

(** The loop over a prefix of the sorted entries agrees with the reference
    scan of all of them, provided the prefix is everything or the loop stopped
    before its end. *)
Lemma Pebble_visit_scan {A} fn (f : bytes -> bytes -> A -> visit A) l rest n a (p : Pebble DB E) d :
  (forall k v a s, fn k v a s = contract_cb f k v a s) ->
  p = MkPebble (Some d) None ->
  let v := Pebble_visit fn l n a p in
  p_err v.2.2 = None ->
  (v.1 = (n + length l)%nat -> rest = []) ->
  let out := scan f (l ++ rest) a (db_contents d) in
  v.2.1 = out.1 /\ Pebble_view v.2.2 = out.2.
Proof.
  intros Hfn. revert n a p d.
  induction l as [|[k v] l IH]; intros n a p d ->; cbn [Pebble_visit app scan].
  { cbn. intros _ Hr. rewrite Hr by lia. done. }
  rewrite Hfn. unfold contract_cb. cbv zeta. set (r := f k v a).
  destruct (v_delete r) eqn:Hdel; cbn [ks_delete Pebble_KeyedState].
  - remember (Pebble_Delete k _) as p' eqn:Ep'. intros He Hr.
    assert (p_err p' = None) as Hp'.
    { destruct (p_err p') as [e|] eqn:Ee; [|done]. exfalso.
      destruct (v_go r); cbn in He; [|congruence].
      rewrite (Pebble_visit_sticky _ f _ _ _ _ e) in He by done. congruence. }
    rewrite Ep' in Hp'.
    destruct (Pebble_Delete_view k d _ eq_refl Hp') as (d' & Ep & Ed).
    rewrite Ep in Ep'. subst p'.
    rewrite <- Ed. destruct (v_go r); [|done].
    apply (IH (S n) _ _ d'); [done|done|]. intros Hn. apply Hr. cbn in *. lia.
  - intros He Hr. destruct (v_go r); [|done].
    apply (IH (S n) _ _ d); [done|done|]. intros Hn. apply Hr. cbn in *. lia.
Qed.

Lemma Pebble_fail_opt_None (w : E -> pebble_error E) o (p : Pebble DB E) :
  p_err (Pebble_fail_opt w o p) = None -> o = None /\ Pebble_fail_opt w o p = p.
Proof.
  destruct o as [e|]; [|done]. cbn. intros He. by apply Pebble_fail_err in He.
Qed.

Lemma Pebble_fail_opt_sticky (w : E -> pebble_error E) o (p : Pebble DB E) e :
  p_err p = Some e -> p_err (Pebble_fail_opt w o p) = Some e.
Proof. destruct o; [|done]. apply Pebble_fail_sticky. Qed.

Lemma Pebble_Get_ok k (p : Pebble DB E) :
  p_err (Pebble_Get k p).2 = None ->
  (Pebble_Get k p).1 = Pebble_view p !! k /\ Pebble_view (Pebble_Get k p).2 = Pebble_view p.
Proof.
  unfold Pebble_Get. pebble_open p d.
  destruct (db_get k d) as [[v|]|e] eqn:Eg; cbn; [|intros _|intros He; done].
  - destruct (db_release k d); cbn; [done|]. intros _. by apply db_get_ok in Eg.
  - by apply db_get_ok in Eg.
Qed.

Lemma Pebble_Put_ok k v (p : Pebble DB E) :
  p_err (Pebble_Put k v p) = None ->
  Pebble_view (Pebble_Put k v p) = <[k := v]> (Pebble_view p).
Proof.
  unfold Pebble_Put. pebble_open p d.
  destruct (db_set k v d) as [d'|e] eqn:Eg; [|done].
  intros _. by apply db_set_ok in Eg.
Qed.

Lemma Pebble_Delete_ok k (p : Pebble DB E) :
  p_err (Pebble_Delete k p) = None ->
  Pebble_view (Pebble_Delete k p) = delete k (Pebble_view p).
Proof.
  unfold Pebble_Delete. pebble_open p d.
  destruct (db_delete k d) as [d'|e] eqn:Eg; [|done].
  intros _. by apply db_delete_ok in Eg.
Qed.

Lemma Pebble_Iterate_ok {A} fn (f : bytes -> bytes -> A -> visit A) a (p : Pebble DB E) :
  (forall k v a s, fn k v a s = contract_cb f k v a s) ->
  p_err (Pebble_Iterate fn a p).2 = None ->
  let out := scan f (sorted_entries (Pebble_view p)) a (Pebble_view p) in
  (Pebble_Iterate fn a p).1 = out.1 /\ Pebble_view (Pebble_Iterate fn a p).2 = out.2.
Proof.
  intros Hfn. unfold Pebble_Iterate. pebble_open p d.
  destruct (db_iter d) as [it|e] eqn:Ei; [|done].
  apply db_iter_ok in Ei as (rest & Hl & Hend).
  pose proof (fun H1 => Pebble_visit_scan fn f (it_entries it) rest 0 a _ d Hfn eq_refl H1) as Hv.
  destruct (Pebble_visit fn (it_entries it) 0 a _) as [n [a' p']]. cbn in Hv |- *.
  intros He1. pose proof He1 as [_ Hp2]%Pebble_fail_opt_None.
  rewrite Hp2 in He1 |- *. pose proof He1 as [Hn Hp1]%Pebble_fail_opt_None.
  rewrite Hp1 in He1 |- *. rewrite <- Hl. apply Hv; [done|].
  intros ->. by apply Hend.
Qed.

Lemma Pebble_Iterate_sticky {A}
    (fn : bytes -> bytes -> A -> Pebble DB E -> bool * (A * Pebble DB E)) a (p : Pebble DB E) e :
  p_err p = Some e -> p_err (Pebble_Iterate fn a p).2 = Some e.
Proof.
  intros He. unfold Pebble_Iterate. by rewrite (Pebble_closed_sticky p e).
Qed.

#[export] Instance Pebble_KeyedStateLaws : KeyedStateLaws (Pebble DB E) (pebble_error E).
Proof.
  refine {| ks_view := Pebble_view : Pebble DB E -> _ |}.
  - apply Pebble_Get_ok.
  - apply Pebble_Put_ok.
  - apply Pebble_Delete_ok.
  - intros A fn f a s Hfn. by apply Pebble_Iterate_ok.
  - intros k s e He. cbn. unfold Pebble_Get. by rewrite (Pebble_closed_sticky s e).
  - intros k v s e He. cbn. unfold Pebble_Put. by rewrite (Pebble_closed_sticky s e).
  - intros k s e He. cbn. unfold Pebble_Delete. by rewrite (Pebble_closed_sticky s e).
  - intros A fn f a s e _ He. by apply Pebble_Iterate_sticky.
Defined.
End PebbleLaws.

(** * What a client may use *)

Section Client.
Context {S E : Type} `{KeyedStateLaws S E}.

Lemma ks_get_err k (s : S) : ks_err (ks_get k s).2 = None -> ks_err s = None.
Proof.
  destruct (ks_err s) as [e|] eqn:Ee; [|done].
  by rewrite (ks_get_sticky k s e).
Qed.

Lemma ks_put_err k v (s : S) : ks_err (ks_put k v s) = None -> ks_err s = None.
Proof.
  destruct (ks_err s) as [e|] eqn:Ee; [|done].
  by rewrite (ks_put_sticky k v s e).
Qed.

Lemma ks_delete_err k (s : S) : ks_err (ks_delete k s) = None -> ks_err s = None.
Proof.
  destruct (ks_err s) as [e|] eqn:Ee; [|done].
  by rewrite (ks_delete_sticky k s e).
Qed.

Lemma ks_iterate_err {A} (fn : bytes -> bytes -> A -> S -> bool * (A * S))
    (f : bytes -> bytes -> A -> visit A) a (s : S) :
  (forall k v a s, fn k v a s = contract_cb f k v a s) ->
  ks_err (ks_iterate fn a s).2 = None -> ks_err s = None.
Proof.
  intros Hfn. destruct (ks_err s) as [e|] eqn:Ee; [|done].
  by rewrite (ks_iterate_sticky fn f a s e).
Qed.

(** A run of puts. *)
Lemma ks_puts_view (l : list (bytes * bytes)) (s : S) :
  ks_err (foldl (fun s kv => ks_put kv.1 kv.2 s) s l) = None ->
  ks_err s = None /\
  ks_view (foldl (fun s kv => ks_put kv.1 kv.2 s) s l) =
    foldl (fun m kv => <[kv.1 := kv.2]> m) (ks_view s) l.
Proof.
  revert s. induction l as [|[k v] l IH]; intros s He; [done|].
  cbn in He |- *. apply IH in He as [He ->].
  split; [by eapply ks_put_err|]. by rewrite ks_put_ok.
Qed.
End Client.

(** A scan that deletes nothing leaves the map alone. *)
Lemma scan_keep {A} (f : bytes -> bytes -> A -> visit A) l a m :
  (forall k v a, v_delete (f k v a) = false) -> (scan f l a m).2 = m.
Proof.
  intros Hf. revert a. induction l as [|[k v] l IH]; intros a; [done|].
  cbn [scan]. rewrite Hf. destruct (v_go _); [apply IH|done].
Qed.
