(* ===== verification/Serialize.v ===== *)
(** The snapshot wire format of a subtask's state ([pkg/state/serialize.go]):
    writing the entries of any backend in key order, and reading them back into
    any empty backend. *)
From S2P Require Import Prelude State.

(** ** The standard library's readers and writers *)

(** [io.Writer], as one subtask uses it. *)
Class Writer (W WE : Type) := w_write : bytes -> W -> option WE * W.
#[global] Hint Mode Writer ! - : typeclass_instances.

(** [bytes.Buffer]: a write never fails. *)
Record Buffer := MkBuffer { buf_bytes : bytes }.
#[export] Instance Buffer_Writer : Writer Buffer Empty_set := fun p b =>
  (None, MkBuffer (buf_bytes b ++ p)).

(** The errors of this file. [SE] is the backend's error type and [WE] the
    writer's. *)
Inductive ser_error (SE WE : Type) :=
| ErrState (e : SE)
| ErrWriter (e : WE)
| ErrEntryTooLong
| ErrStateChanged
| errStateNotEmpty
| errNegativeLength
| ErrEOF
| ErrUnexpectedEOF.
Arguments ErrState {SE WE}.
Arguments ErrWriter {SE WE}.
Arguments ErrEntryTooLong {SE WE}.
Arguments ErrStateChanged {SE WE}.
Arguments errStateNotEmpty {SE WE}.
Arguments errNegativeLength {SE WE}.
Arguments ErrEOF {SE WE}.
Arguments ErrUnexpectedEOF {SE WE}.

(** [io.ReadFull(r, buf)] on a [bytes.Reader], whose state is what remains. *)
Definition ReadFull {SE WE} (n : Z) (r : bytes) : result (ser_error SE WE) bytes * bytes :=
  if n =? 0 then (Ok [], r)
  else match r with
  | [] => (Err ErrEOF, [])
  | _ => if Z.of_nat (length r) <? n then (Err ErrUnexpectedEOF, [])
         else (Ok (take (Z.to_nat n) r), drop (Z.to_nat n) r)
  end.

Section WriteTo.
Context {S SE W WE : Type} `{KeyedState S SE} `{Writer W WE}.
Local Abbreviation error := (ser_error SE WE).

(** The loop body over [[][]byte{key, value}]: a length and the bytes. *)
Definition writeBytes (b : bytes) (w : W) : option error * W :=
  if 2 ^ 32 - 1 <? Z.of_nat (length b) then (Some ErrEntryTooLong, w)
  else match w_write (put_uint32 (Z.of_nat (length b))) w with
  | (Some e, w) => (Some (ErrWriter e), w)
  | (None, w) =>
      match w_write b w with
      | (Some e, w) => (Some (ErrWriter e), w)
      | (None, w) => (None, w)
      end
  end.

(** The second pass's closure: how many entries it wrote, the error it met and
    the writer. *)
Definition writeEntry (key value : bytes) (a : Z * option error * W) (s : S)
    : bool * ((Z * option error * W) * S) :=
  let '(written, werr, w) := a in
  match writeBytes key w with
  | (Some e, w) => (false, ((written, Some e, w), s))
  | (None, w) =>
      match writeBytes value w with
      | (Some e, w) => (false, ((written, Some e, w), s))
      | (None, w) => (true, ((u64 (written + 1), werr, w), s))
      end
  end.

(** [WriteTo]: count, header, entries, and the check that the two passes
    agreed. *)
Definition WriteTo (s : S) (w : W) : option error * (S * W) :=
  let '(entries, s) := ks_iterate (fun _ _ n s => (true, (u64 (n + 1), s))) 0 s in
  match ks_err s with
  | Some e => (Some (ErrState e), (s, w))
  | None =>
      match w_write (put_uint64 entries) w with
      | (Some e, w) => (Some (ErrWriter e), (s, w))
      | (None, w) =>
          let '((written, werr, w), s) := ks_iterate writeEntry (0, None, w) s in
          match werr with
          | Some e => (Some e, (s, w))
          | None =>
              match ks_err s with
              | Some e => (Some (ErrState e), (s, w))
              | None =>
                  if written =? entries then (None, (s, w))
                  else (Some ErrStateChanged, (s, w))
              end
          end
      end
  end.
End WriteTo.

Section ReadFrom.
Context {S SE : Type} `{KeyedState S SE}.
Local Abbreviation error := (ser_error SE Empty_set).
Local Abbreviation RM := (M error (S * bytes)).

(** [io.ReadFull] inside the restore. *)
Definition readFull (n : Z) : RM bytes := fun '(s, r) =>
  let '(res, r) := ReadFull n r in (res, (s, r)).

Definition readBytes : RM bytes :=
  lenBuf ← readFull 4;
  let n := uint32 lenBuf in
  if max_int64 <? n then fail errNegativeLength
  else if n =? 0 then mret []
  else readFull n.

(** One turn of the restore loop. *)
Definition readEntry : RM unit :=
  key ← readBytes;
  value ← readBytes;
  modify (fun '(s, r) => (ks_put key value s, r)).

(** [if err := s.Err(); err != nil { return err }] *)
Definition checkErr : RM unit := fun '(s, r) =>
  match ks_err s with
  | Some e => (Err (ErrState e), (s, r))
  | None => (Ok tt, (s, r))
  end.

(** The emptiness check: a scan that stops on the first entry. *)
Definition isEmpty : RM bool := fun '(s, r) =>
  let '(empty, s) := ks_iterate (fun _ _ _ s => (false, (false, s))) true s in
  (Ok empty, (s, r)).

Definition ReadFrom : RM unit :=
  empty ← isEmpty;
  _ ← checkErr;
  if negb empty then fail errStateNotEmpty
  else
    header ← readFull 8;
    _ ← repeat_Z (uint64 header) readEntry;
    checkErr.
End ReadFrom.

(** * The format *)

Definition entry_bytes (kv : bytes * bytes) : bytes :=
  put_uint32 (Z.of_nat (length kv.1)) ++ kv.1 ++
  put_uint32 (Z.of_nat (length kv.2)) ++ kv.2.

Definition snapshot_bytes (m : gmap bytes bytes) : bytes :=
  put_uint64 (Z.of_nat (size m)) ++ concat (entry_bytes <$> sorted_entries m).

(** What the length fields can hold. *)
Definition fits (m : gmap bytes bytes) : Prop :=
  Z.of_nat (size m) < 2 ^ 64 /\
  map_Forall (fun k v => Z.of_nat (length k) < 2 ^ 32 /\ Z.of_nat (length v) < 2 ^ 32) m.

#[export] Instance fits_dec m : Decision (fits m).
Proof. unfold fits. apply _. Defined.

(** * Writing *)

Section WriteFacts.
Context {S SE : Type} `{KeyedStateLaws S SE}.

Lemma count_scan l n m :
  0 <= n -> n + Z.of_nat (length l) < 2 ^ 64 ->
  scan (fun _ _ n => Visit (u64 (n + 1)) false true) l n m =
  (n + Z.of_nat (length l), m).
Proof.
  revert n. induction l as [|[k v] l IH]; intros n Hn Hl; cbn [scan v_delete v_go v_acc].
  { f_equal. cbn. lia. }
  cbn [length] in *. rewrite u64_id by (unfold_ints; lia).
  rewrite IH by lia. f_equal. lia.
Qed.

(** The write pass as a decision on each entry. *)
Definition write_visit (key value : bytes) (a : Z * option (ser_error SE Empty_set) * Buffer)
    : visit (Z * option (ser_error SE Empty_set) * Buffer) :=
  let '(written, werr, w) := a in
  match writeBytes key w with
  | (Some e, w) => Visit (written, Some e, w) false false
  | (None, w) =>
      match writeBytes value w with
      | (Some e, w) => Visit (written, Some e, w) false false
      | (None, w) => Visit (u64 (written + 1), werr, w) false true
      end
  end.

Lemma writeEntry_contract k v a (s : S) :
  writeEntry k v a s = contract_cb write_visit k v a s.
Proof.
  destruct a as [[n we] w]. unfold writeEntry, contract_cb, write_visit.
  by destruct (writeBytes k w) as [[?|] ?]; [|destruct (writeBytes v b) as [[?|] ?]].
Qed.

Lemma writeBytes_Buffer b w :
  Z.of_nat (length b) < 2 ^ 32 ->
  writeBytes (SE := SE) b w =
  (None, MkBuffer (buf_bytes w ++ put_uint32 (Z.of_nat (length b)) ++ b)).
Proof.
  intros Hb. unfold writeBytes. destruct (Z.ltb_spec (2 ^ 32 - 1) (Z.of_nat (length b))); [lia|].
  cbn. by rewrite app_assoc.
Qed.

Lemma write_scan l n w m :
  0 <= n -> n + Z.of_nat (length l) < 2 ^ 64 ->
  (forall k v, (k, v) ∈ l -> Z.of_nat (length k) < 2 ^ 32 /\ Z.of_nat (length v) < 2 ^ 32) ->
  scan write_visit l (n, None, w) m =
  ((n + Z.of_nat (length l), None, MkBuffer (buf_bytes w ++ concat (entry_bytes <$> l))), m).
Proof.
  revert n w. induction l as [|[k v] l IH]; intros n w Hn Hl Hfit.
  { cbn. rewrite app_nil_r, Z.add_0_r. by destruct w. }
  destruct (Hfit k v) as [Hk Hv]; [by left|].
  cbn [scan write_visit]. rewrite !writeBytes_Buffer by done. cbn [v_delete v_go v_acc buf_bytes].
  cbn [length] in Hl. rewrite u64_id by (unfold_ints; lia).
  rewrite IH by (try lia; intros; apply Hfit; by right). cbn [length].
  f_equal. f_equal; [f_equal; lia|]. f_equal. cbn. unfold entry_bytes. cbn.
  by rewrite <- !app_assoc.
Qed.

(** The bytes a snapshot writes are a function of the contents of the state. *)
Lemma WriteTo_bytes (s : S) w :
  fits (ks_view s) ->
  let '(res, (s', w')) := WriteTo s w in
  ks_err s' = None ->
  res = None /\ ks_view s' = ks_view s /\
  buf_bytes w' = buf_bytes w ++ snapshot_bytes (ks_view s).
Proof.
  intros [Hsize Hfit]. unfold WriteTo. set (cnt := fun _ _ n s => _).
  assert (forall k v a s, cnt k v a s =
    contract_cb (fun _ _ n => Visit (u64 (n + 1)) false true) k v a s) as Hcnt by done.
  destruct (ks_iterate cnt 0 s) as [n s1] eqn:E1.
  destruct (ks_err s1) as [e|] eqn:He1; [congruence|].
  destruct (ks_iterate_ok cnt _ 0 s Hcnt) as [Hn Hs1]; [by rewrite E1|].
  rewrite E1, count_scan in Hn, Hs1 by (rewrite ?length_sorted_entries; lia).
  cbn in Hn, Hs1. rewrite length_sorted_entries in Hn. rewrite <- Hs1 in *.
  cbn [w_write Buffer_Writer]. set (w1 := MkBuffer _).
  assert (scan write_visit (sorted_entries (ks_view s1)) (0, None, w1) (ks_view s1) =
    ((Z.of_nat (size (ks_view s1)), None, MkBuffer (buf_bytes w1 ++
      concat (entry_bytes <$> sorted_entries (ks_view s1)))), ks_view s1)) as Hsc.
  { rewrite <- length_sorted_entries. apply write_scan; [done|rewrite length_sorted_entries; lia|].
    intros k v Hin%elem_of_sorted_entries. by apply (Hfit k v). }
  destruct (ks_iterate writeEntry (0, None, w1) s1) as [[[k we] w2] s2] eqn:E2.
  assert (ks_err s2 = None -> (k, we, w2) = (Z.of_nat (size (ks_view s1)), None,
    MkBuffer (buf_bytes w1 ++ concat (entry_bytes <$> sorted_entries (ks_view s1)))) /\
    ks_view s2 = ks_view s1) as Hs2.
  { intros He2. destruct (ks_iterate_ok writeEntry write_visit (0, None, w1) s1
      writeEntry_contract) as [Ha Hs]; [by rewrite E2|].
    rewrite E2, Hsc in Ha, Hs. done. }
  destruct we as [e|].
  { intros He2. by apply Hs2 in He2 as [? _]. }
  destruct (ks_err s2) as [e|] eqn:He2; [congruence|].
  destruct Hs2 as [[= -> ->] Hs2]; [done|]. subst n.
  rewrite Z.eqb_refl. intros _. split_and!; [done|done|].
  cbn. by rewrite <- app_assoc.
Qed.
End WriteFacts.

(** * Reading *)

Section ReadFacts.
Context {S SE : Type} `{KeyedStateLaws S SE}.
Local Abbreviation RM := (M (ser_error SE Empty_set) (S * bytes)).

Lemma readFull_app n b r (s : S) :
  Z.of_nat (length b) = n -> readFull (SE := SE) n (s, b ++ r) = (Ok b, (s, r)).
Proof.
  intros <-. unfold readFull, ReadFull.
  destruct (Z.eqb_spec (Z.of_nat (length b)) 0) as [Hz|Hz].
  { destruct b; [done|cbn in Hz; lia]. }
  destruct (b ++ r) as [|c t] eqn:E; [destruct b; [done|discriminate]|].
  rewrite <- E. destruct (Z.ltb_spec (Z.of_nat (length (b ++ r))) (Z.of_nat (length b))) as [Hl|_].
  { rewrite length_app in Hl. lia. }
  rewrite Nat2Z.id, take_app_length, drop_app_length. done.
Qed.

Lemma readBytes_app b r (s : S) :
  Z.of_nat (length b) < 2 ^ 32 ->
  readBytes (SE := SE) (s, put_uint32 (Z.of_nat (length b)) ++ b ++ r) = (Ok b, (s, r)).
Proof.
  intros Hb. unfold readBytes, mbind, M_bind.
  rewrite readFull_app by by rewrite length_put_uint32.
  rewrite <- (app_nil_r (put_uint32 _)), uint32_put.
  unfold u32. rewrite Z.mod_small by lia.
  destruct (Z.ltb_spec max_int64 (Z.of_nat (length b))) as [Hl|_]; [unfold_ints; lia|].
  destruct (Z.eqb_spec (Z.of_nat (length b)) 0) as [Hz|_]; [|by rewrite readFull_app].
  destruct b; [done|cbn in Hz; lia].
Qed.

Lemma readEntry_app kv r (s : S) :
  Z.of_nat (length kv.1) < 2 ^ 32 -> Z.of_nat (length kv.2) < 2 ^ 32 ->
  readEntry (SE := SE) (s, entry_bytes kv ++ r) = (Ok tt, (ks_put kv.1 kv.2 s, r)).
Proof.
  intros Hk Hv. unfold readEntry, entry_bytes, mbind, M_bind.
  rewrite <- !app_assoc, !readBytes_app by done. done.
Qed.

Lemma readEntries_app l r (s : S) :
  (forall k v, (k, v) ∈ l -> Z.of_nat (length k) < 2 ^ 32 /\ Z.of_nat (length v) < 2 ^ 32) ->
  repeat_nat (length l) (readEntry (SE := SE)) (s, concat (entry_bytes <$> l) ++ r) =
  (Ok tt, (foldl (fun s kv => ks_put kv.1 kv.2 s) s l, r)).
Proof.
  revert s. induction l as [|[k v] l IH]; intros s Hfit; [done|].
  destruct (Hfit k v) as [Hk Hv]; [by left|].
  cbn [length repeat_nat fmap list_fmap concat]. unfold mbind, M_bind.
  rewrite <- app_assoc, readEntry_app by done. apply IH. intros; apply Hfit; by right.
Qed.

(** Reading a snapshot back into an empty state of any backend. *)
Lemma ReadFrom_snapshot m r (s : S) :
  fits m -> ks_err s = None -> ks_view s = ∅ ->
  let '(res, (s', r')) := ReadFrom (s, snapshot_bytes m ++ r) in
  ks_err s' = None -> res = Ok tt /\ r' = r /\ ks_view s' = m.
Proof.
  intros [Hsize Hfit] Herr Hs. unfold ReadFrom, isEmpty, mbind, M_bind.
  set (chk := fun (_ _ : bytes) (_ : bool) (s : S) => (false, (false, s))).
  assert (forall k v a s, chk k v a s =
    contract_cb (fun _ _ _ => Visit false false false) k v a s) as Hchk by done.
  destruct (ks_iterate chk true s) as [empty s1] eqn:E1.
  unfold checkErr at 1. cbv beta iota. destruct (ks_err s1) as [e|] eqn:He1; [congruence|].
  destruct (ks_iterate_ok chk _ true s Hchk) as [Hn Hs1]; [by rewrite E1|].
  rewrite E1, Hs, sorted_entries_empty in Hn, Hs1. cbn in Hn, Hs1. subst empty. cbn [negb].
  unfold snapshot_bytes. rewrite <- app_assoc, readFull_app by by rewrite length_put_uint64.
  rewrite uint64_put', u64_id, repeat_Z_nat, Nat2Z.id by (unfold_ints; lia).
  rewrite <- (length_sorted_entries m), readEntries_app.
  2:{ intros k v Hin%elem_of_sorted_entries. by apply (Hfit k v). }
  unfold checkErr. cbv beta iota. set (s2 := foldl _ _ _).
  destruct (ks_err s2) as [e|] eqn:He2; [congruence|]. intros _.
  split_and!; [done|done|].
  destruct (ks_puts_view (sorted_entries m) s1) as [_ Hv]; [done|].
  unfold s2. rewrite Hv, foldl_insert_entries, Hs1, map_union_empty.
  - apply list_to_map_sorted_entries.
  - rewrite sorted_entries_fst. apply NoDup_sorted_keys.
Qed.

(** ** Reading more input changes nothing that was already read *)

Definition extends {A} (m : RM A) : Prop := forall s r a s' r' ext,
  m (s, r) = (Ok a, (s', r')) -> m (s, r ++ ext) = (Ok a, (s', r' ++ ext)).

Lemma extends_bind {A B} (m : RM A) (f : A -> RM B) :
  extends m -> (forall a, extends (f a)) -> extends (m ≫= f).
Proof.
  intros Hm Hf s r a s' r' ext. unfold mbind, M_bind.
  destruct (m (s, r)) as [[b|e] [s1 r1]] eqn:E; [|done].
  rewrite (Hm _ _ _ _ _ ext E). apply Hf.
Qed.

Lemma extends_readFull n : extends (readFull n).
Proof.
  intros s r a s' r' ext. unfold readFull, ReadFull.
  destruct (n =? 0); [congruence|].
  destruct r as [|c t]; [done|]. cbn [app].
  destruct (Z.ltb_spec (Z.of_nat (length (c :: t))) n) as [Hl|Hl]; [done|].
  destruct (Z.ltb_spec (Z.of_nat (length (c :: t ++ ext))) n) as [Hl'|_].
  { cbn in *. rewrite length_app in Hl'. lia. }
  intros [= <- <- <-]. change (c :: t ++ ext) with ((c :: t) ++ ext).
  rewrite take_app_le, drop_app_le by lia. done.
Qed.

Lemma extends_readBytes : extends readBytes.
Proof.
  apply extends_bind; [apply extends_readFull|]. intros b. cbn.
  destruct (max_int64 <? uint32 b); [by intros ???????|].
  destruct (uint32 b =? 0); [|apply extends_readFull].
  intros s r a s' r' ext. unfold mret, M_ret. congruence.
Qed.

Lemma extends_readEntry : extends readEntry.
Proof.
  apply extends_bind; [apply extends_readBytes|]. intros k.
  apply extends_bind; [apply extends_readBytes|]. intros v s r a s' r' ext.
  cbn. by intros [= <- <- <-].
Qed.

Lemma extends_repeat n (m : RM unit) : extends m -> extends (repeat_Z n m).
Proof.
  intros Hm s r a s' r' ext. rewrite !repeat_Z_nat. revert s r a s' r' ext.
  change (extends (repeat_nat (Z.to_nat n) m)).
  induction (Z.to_nat n) as [|k IH].
  - intros s r a s' r' ext. by intros [= <- <- <-].
  - by apply extends_bind.
Qed.

Lemma extends_checkErr : extends checkErr.
Proof.
  intros s r a s' r' ext. unfold checkErr. cbv beta iota.
  destruct (ks_err s); [done|]. by intros [= <- <- <-].
Qed.

Lemma extends_ReadFrom : extends ReadFrom.
Proof.
  apply extends_bind.
  { intros s r a s' r' ext. unfold isEmpty. destruct (ks_iterate _ true s).
    by intros [= <- <- <-]. }
  intros empty. apply extends_bind; [apply extends_checkErr|]. intros _.
  destruct (negb empty); [by intros ???????|].
  apply extends_bind; [apply extends_readFull|]. intros h.
  apply extends_bind; [apply extends_repeat, extends_readEntry|]. intros _.
  apply extends_checkErr.
Qed.

(** A restore that succeeds leaves no error stashed. *)
Lemma ReadFrom_Ok_err (s : S) r a s' r' :
  ReadFrom (s, r) = (Ok a, (s', r')) -> ks_err s' = None.
Proof.
  unfold ReadFrom, isEmpty, mbind, M_bind. destruct (ks_iterate _ true s) as [empty s1].
  unfold checkErr at 1. cbv beta iota. destruct (ks_err s1) eqn:E1; [done|].
  destruct (negb empty); [done|].
  destruct (readFull 8 (s1, r)) as [[h|] [s2 r2]]; [|done].
  destruct (repeat_Z _ _ _) as [[u|] [s3 r3]]; [|done].
  unfold checkErr. cbv beta iota. destruct (ks_err s3) eqn:E3; [done|]. congruence.
Qed.

Lemma ReadFrom_truncated m p ext (s : S) :
  fits m -> ks_err s = None -> ks_view s = ∅ ->
  snapshot_bytes m = p ++ ext -> ext <> [] ->
  is_ok (ReadFrom (s, p)).1 = false.
Proof.
  intros Hfit He Hs Heq Hext.
  destruct (ReadFrom (s, p)) as [[a|e] [s' r']] eqn:E; [|done]. exfalso.
  pose proof (ReadFrom_Ok_err _ _ _ _ _ E) as He'.
  apply (extends_ReadFrom _ _ _ _ _ ext) in E.
  pose proof (ReadFrom_snapshot m [] s Hfit He Hs) as Hfull.
  rewrite app_nil_r, Heq, E in Hfull.
  destruct (Hfull He') as (_ & Hr & _). apply app_eq_nil in Hr as [_ ?]. done.
Qed.
End ReadFacts.
