(* ===== verification/StateProps.v ===== *)
(** The properties of the keyed state: the ordered encoding, the agreement of
    the two backends, and the snapshot format. *)
From S2P Require Import Prelude State Serialize.

(** * Operations on a backend, as a client issues them *)

(** [SScan f]: an [Iterate] whose callback decides by [f] what to collect,
    which visited entries to delete, and when to stop. *)
Inductive state_op :=
| SGet (k : bytes)
| SPut (k v : bytes)
| SDelete (k : bytes)
| SScan (f : bytes -> bytes -> list (bytes * bytes) -> visit (list (bytes * bytes))).

Inductive observation :=
| OGet (v : option bytes)
| OScan (l : list (bytes * bytes))
| ONone.

Section Run.
Context {S E : Type} `{KeyedState S E}.

Definition run_op (o : state_op) (s : S) : observation * S :=
  match o with
  | SGet k => let '(v, s) := ks_get k s in (OGet v, s)
  | SPut k v => (ONone, ks_put k v s)
  | SDelete k => (ONone, ks_delete k s)
  | SScan f => let '(l, s) := ks_iterate (contract_cb f) [] s in (OScan l, s)
  end.

Fixpoint run_ops (l : list state_op) (s : S) : list observation * S :=
  match l with
  | [] => ([], s)
  | o :: l =>
      let '(x, s) := run_op o s in
      let '(xs, s) := run_ops l s in (x :: xs, s)
  end.
End Run.

(** The same operations on a finite map. *)
Definition map_op (o : state_op) (m : gmap bytes bytes) : observation * gmap bytes bytes :=
  match o with
  | SGet k => (OGet (m !! k), m)
  | SPut k v => (ONone, <[k := v]> m)
  | SDelete k => (ONone, delete k m)
  | SScan f => let '(l, m') := scan f (sorted_entries m) [] m in (OScan l, m')
  end.

Fixpoint map_ops (l : list state_op) (m : gmap bytes bytes) : list observation * gmap bytes bytes :=
  match l with
  | [] => ([], m)
  | o :: l =>
      let '(x, m) := map_op o m in
      let '(xs, m) := map_ops l m in (x :: xs, m)
  end.

Section Agree.
Context {S E : Type} `{KeyedStateLaws S E}.

Lemma run_op_err o (s : S) : ks_err (run_op o s).2 = None -> ks_err s = None.
Proof.
  destruct (ks_err s) as [e|] eqn:He; [|done]. intros Hn. exfalso.
  destruct o as [k|k v|k|f]; cbn in Hn.
  - pose proof (ks_get_sticky k s e He). destruct (ks_get k s). cbn in *. congruence.
  - rewrite (ks_put_sticky k v s e He) in Hn. done.
  - rewrite (ks_delete_sticky k s e He) in Hn. done.
  - pose proof (ks_iterate_sticky (contract_cb f) f [] s e ltac:(done) He).
    destruct (ks_iterate _ _ s). cbn in *. congruence.
Qed.

Lemma run_op_map o (s : S) :
  ks_err (run_op o s).2 = None ->
  (run_op o s).1 = (map_op o (ks_view s)).1 /\
  ks_view (run_op o s).2 = (map_op o (ks_view s)).2.
Proof.
  destruct o as [k|k v|k|f]; cbn; intros He.
  - pose proof (ks_get_ok k s) as Hg. destruct (ks_get k s) as [v s']. cbn in *.
    destruct (Hg He) as [-> ->]. done.
  - by rewrite ks_put_ok.
  - by rewrite ks_delete_ok.
  - pose proof (ks_iterate_ok (contract_cb f) f [] s ltac:(done)) as Hg.
    destruct (ks_iterate _ _ s) as [l s']. cbn in *. destruct (Hg He) as [-> ->].
    by destruct (scan f _ _ _).
Qed.

Lemma run_ops_map l (s : S) :
  ks_err (run_ops l s).2 = None ->
  ks_err s = None /\ (run_ops l s).1 = (map_ops l (ks_view s)).1 /\
  ks_view (run_ops l s).2 = (map_ops l (ks_view s)).2.
Proof.
  revert s. induction l as [|o l IH]; intros s He; [done|].
  cbn [run_ops map_ops] in *. pose proof (run_op_err o s) as Herr.
  pose proof (run_op_map o s) as Hop. destruct (run_op o s) as [x s1].
  specialize (IH s1). destruct (run_ops l s1) as [xs s2]. cbn [fst snd] in *.
  destruct (IH He) as (He1 & E1 & E2). destruct (Hop He1) as [-> Hv].
  split; [by apply Herr|]. rewrite E1, E2, Hv.
  destruct (map_op o (ks_view s)) as [y m]. cbn. by destruct (map_ops l m).
Qed.
End Agree.

(** A database that is a finite map, for the witnesses. *)
Record mapDB := MapDB { db_map : gmap bytes bytes }.

#[export] Instance mapDB_PebbleDB : PebbleDB mapDB Empty_set := {|
  db_get k d := Ok (db_map d !! k);
  db_release _ _ := None;
  db_set k v d := Ok (MapDB (<[k := v]> (db_map d)));
  db_delete k d := Ok (MapDB (delete k (db_map d)));
  db_iter d := Ok (Iterator (sorted_entries (db_map d)) (fun _ => None) None);
|}.

#[export] Program Instance mapDB_PebbleDBLaws : PebbleDBLaws mapDB Empty_set := {|
  db_contents := db_map;
|}.
Next Obligation. intros k d v [= <-]. done. Qed.
Next Obligation. intros k v d d' [= <-]. done. Qed.
Next Obligation. intros k d d' [= <-]. done. Qed.
Next Obligation. intros d it [= <-]. exists []. by rewrite app_nil_r. Qed.

(** * The properties *)

(** C21. The backends agree: any sequence of reads, writes, deletes and scans,
    whatever the scans collect, delete and where they stop, shows a client of a
    Pebble state that reports no error exactly what it shows a client of the
    in-process map, and leaves the same contents. *)
Theorem pebble_agrees_with_memory {DB E} `{PebbleDBLaws DB E} (p : Pebble DB E) (m : Memory) l :
  ks_view p = entries m -> ks_err (run_ops l p).2 = None ->
  (run_ops l p).1 = (run_ops l m).1 /\ ks_view (run_ops l p).2 = entries (run_ops l m).2.
Proof.
  intros Hv He. destruct (run_ops_map l p He) as (_ & -> & ->).
  destruct (run_ops_map l m) as (_ & -> & Hm); [done|].
  change (entries ?x) with (ks_view x). by rewrite Hm, Hv.
Qed.

Definition sample_ops : list state_op :=
  [SPut (str "b") (str "2"); SPut (str "a") (str "1"); SGet (str "b");
   SScan (fun k v l => Visit (l ++ [(k, v)]) (bool_decide (k = str "a")) true);
   SDelete (str "b"); SGet (str "a")].

Lemma pebble_agrees_with_memory_witness :
  let p := MkPebble (Some (MapDB ∅)) None : Pebble mapDB Empty_set in
  (run_ops sample_ops p).1 = (run_ops sample_ops NewMemory).1 /\
  ks_view (run_ops sample_ops p).2 = entries (run_ops sample_ops NewMemory).2.
Proof.
  apply (pebble_agrees_with_memory (MkPebble (Some (MapDB ∅)) None) NewMemory sample_ops).
  - reflexivity.
  - vm_compute. reflexivity.
Defined.

(** The ordered encoding: big-endian with the sign bit flipped sorts
    bytewise exactly as the signed integers do, decodes to what was encoded, and
    has a fixed width, so that what follows it in a key never disturbs the
    order of different times. *)
Theorem ordered_encoding a b s t :
  is_i64 a -> is_i64 b ->
  (bytes_le (EncodeOrderedInt64 a ++ s) (EncodeOrderedInt64 b ++ t) <->
    a < b \/ (a = b /\ bytes_le s t)) /\
  DecodeOrderedInt64 (EncodeOrderedInt64 a ++ s) = a /\
  length (EncodeOrderedInt64 a) = OrderedInt64Bytes.
Proof.
  intros Ha Hb. split_and!.
  - by apply EncodeOrderedInt64_le.
  - by apply DecodeOrderedInt64_Encode.
  - apply length_EncodeOrderedInt64.
Qed.

Lemma ordered_encoding_witness :
  (bytes_le (EncodeOrderedInt64 (-1) ++ [Byte.xff]) (EncodeOrderedInt64 0 ++ []) <->
    -1 < 0 \/ (-1 = 0 /\ bytes_le [Byte.xff] [])) /\
  DecodeOrderedInt64 (EncodeOrderedInt64 (-1) ++ [Byte.xff]) = -1 /\
  length (EncodeOrderedInt64 (-1)) = OrderedInt64Bytes.
Proof. apply (ordered_encoding (-1) 0 [Byte.xff] []); unfold_ints; lia. Defined.

(** C20. A snapshot restores: what [WriteTo] writes of any backend, [ReadFrom]
    reads back into any other empty backend, leaving exactly the entries that
    were there and consuming exactly what was written. *)
Theorem snapshot_round_trip {S1 E1} `{KeyedStateLaws S1 E1} {S2 E2} `{KeyedStateLaws S2 E2}
    (s1 : S1) (s2 : S2) rest :
  fits (ks_view s1) -> ks_err s2 = None -> ks_view s2 = ∅ ->
  let '(res1, (s1', w)) := WriteTo s1 (MkBuffer []) in
  let '(res2, (s2', r)) := ReadFrom (s2, buf_bytes w ++ rest) in
  ks_err s1' = None -> ks_err s2' = None ->
  res1 = None /\ res2 = Ok tt /\ r = rest /\ ks_view s2' = ks_view s1.
Proof.
  intros Hf He Hv. pose proof (WriteTo_bytes s1 (MkBuffer []) Hf) as Hw.
  destruct (WriteTo s1 _) as [res1 [s1' w]].
  pose proof (ReadFrom_snapshot (ks_view s1) rest s2 Hf He Hv) as Hr.
  destruct (ReadFrom (s2, buf_bytes w ++ rest)) as [res2 [s2' r]] eqn:E.
  intros He1 He2. destruct (Hw He1) as (-> & _ & Hb). cbn in Hb. rewrite Hb in E.
  rewrite E in Hr. destruct (Hr He2) as (-> & -> & ->). done.
Qed.

Definition sample_memory : Memory :=
  {| entries := <[str "k" := str "v"]> (<[[Byte.x01] := []]> ∅) |}.

Lemma snapshot_round_trip_witness :
  let '(res1, (s1', w)) := WriteTo sample_memory (MkBuffer []) in
  let '(res2, (s2', r)) := ReadFrom (NewMemory, buf_bytes w ++ [Byte.x07]) in
  ks_err s1' = None -> ks_err s2' = None ->
  res1 = None /\ res2 = Ok tt /\ r = [Byte.x07] /\ ks_view s2' = ks_view sample_memory.
Proof.
  apply (snapshot_round_trip sample_memory NewMemory [Byte.x07]).
  - refine (bool_decide_eq_true_1 _ _). vm_compute. reflexivity.
  - reflexivity.
  - reflexivity.
Defined.

(** A torn snapshot is refused: no proper prefix of a snapshot restores. *)
Theorem truncated_snapshot_refused {S E} `{KeyedStateLaws S E} m p ext (s : S) :
  fits m -> ks_err s = None -> ks_view s = ∅ ->
  snapshot_bytes m = p ++ ext -> ext <> [] ->
  is_ok (ReadFrom (s, p)).1 = false.
Proof. apply ReadFrom_truncated. Qed.

Lemma truncated_snapshot_refused_witness :
  is_ok (ReadFrom (NewMemory, take 20 (snapshot_bytes (entries sample_memory)))).1 = false.
Proof.
  apply (truncated_snapshot_refused (entries sample_memory) _
    (drop 20 (snapshot_bytes (entries sample_memory))) NewMemory).
  - refine (bool_decide_eq_true_1 _ _). vm_compute. reflexivity.
  - reflexivity.
  - reflexivity.
  - by rewrite take_drop.
  - vm_compute. discriminate.
Defined.
