(* ===== verification/PebbleFiles.v ===== *)
(** The directory of a Pebble state ([pkg/state/pebble.go]): how a state is
    opened, where, and what is left when it is closed. The Pebble library and
    package [os] are parameters. *)
From S2P Require Import Prelude State.

(** A state with where it lives, and whether it made that directory itself. *)
Record PebbleFile (DB E : Type) := MkFile {
  pebble : Pebble DB E;
  dir : bytes;
  ownsDir : bool;
}.
Arguments MkFile {DB E}.
Arguments pebble {DB E}.
Arguments dir {DB E}.
Arguments ownsDir {DB E}.

Inductive file_error (E OE : Type) :=
| errOpening (dir : bytes) (e : E)
| errTempDir (e : OE)
| errClosing (e : E + OE).
Arguments errOpening {E OE}.
Arguments errTempDir {E OE}.
Arguments errClosing {E OE}.

(** The calls on the library and on the system, over what is on the disk. *)
Class PebbleOS (W DB E OE : Type) := {
  os_open : bytes -> W -> result E DB * W;
  os_close : DB -> W -> option E * W;
  os_mkdirTemp : bytes -> W -> result OE bytes * W;
  os_removeAll : bytes -> W -> option OE * W;
}.

(** What they are documented to do to the directories there are: a temporary
    directory is a new one with a name, opening makes no other than its own, and
    what was removed without an error is gone, and nothing else. *)
Class PebbleOSLaws (W DB E OE : Type) `{PebbleOS W DB E OE} := {
  os_dirs : W -> gset bytes;
  os_open_dirs d w : os_dirs (os_open d w).2 ⊆ {[d]} ∪ os_dirs w /\ os_dirs w ⊆ os_dirs (os_open d w).2;
  os_close_dirs db w : os_dirs (os_close db w).2 = os_dirs w;
  os_mkdir_ok p w d w' : os_mkdirTemp p w = (Ok d, w') -> d <> [] /\ d ∉ os_dirs w /\ os_dirs w' = {[d]} ∪ os_dirs w;
  os_mkdir_err p w e w' : os_mkdirTemp p w = (Err e, w') -> os_dirs w' = os_dirs w;
  os_remove_ok d w w' : os_removeAll d w = (None, w') -> os_dirs w' = os_dirs w ∖ {[d]};
  os_remove_err d w e w' : os_removeAll d w = (Some e, w') -> os_dirs w ∖ {[d]} ⊆ os_dirs w' ⊆ os_dirs w;
}.

Section Code.
Context {W DB E OE : Type} `{PebbleOS W DB E OE}.
Abbreviation PM := (M (file_error E OE) W).

Definition OpenPebble (d : bytes) : PM (PebbleFile DB E) := fun w =>
  match os_open d w with
  | (Err e, w) => (Err (errOpening d e), w)
  | (Ok db, w) => (Ok (MkFile (MkPebble (Some db) None) d false), w)
  end.

(** The directory of a state that cannot be opened is removed; whether that
    worked is not asked. *)
Definition NewTempPebble : PM (PebbleFile DB E) := fun w =>
  match os_mkdirTemp (str "tidemark-state-") w with
  | (Err e, w) => (Err (errTempDir e), w)
  | (Ok d, w) =>
      match OpenPebble d w with
      | (Err e, w) => (Err e, (os_removeAll d w).2)
      | (Ok p, w) => (Ok (MkFile (pebble p) (dir p) true), w)
      end
  end.

Definition Dir (p : PebbleFile DB E) : bytes := dir p.

(** [Close]: the database, then the directory if it is this state's own; the
    first error is reported. What is left can be closed again. *)
Definition close_db (p : PebbleFile DB E) (w : W) : option (E + OE) * (PebbleFile DB E * W) :=
  match p_db (pebble p) with
  | None => (None, (p, w))
  | Some db =>
      let '(err, w) := os_close db w in
      (inl <$> err, (MkFile (MkPebble None (p_err (pebble p))) (dir p) (ownsDir p), w))
  end.

Definition remove_dir (err : option (E + OE)) (p : PebbleFile DB E) (w : W) : option (E + OE) * (PebbleFile DB E * W) :=
  if ownsDir p && negb (bool_decide (dir p = [])) then
    let '(rerr, w) := os_removeAll (dir p) w in
    (match err with Some e => Some e | None => inr <$> rerr end, (MkFile (pebble p) [] (ownsDir p), w))
  else (err, (p, w)).

Definition Close : M (file_error E OE) (PebbleFile DB E * W) unit := fun '(p, w) =>
  let '(err, (p, w)) := close_db p w in
  let '(err, (p, w)) := remove_dir err p w in
  (match err with Some e => Err (errClosing e) | None => Ok tt end, (p, w)).
End Code.

Section Facts.
Context {W DB E OE : Type} `{PebbleOSLaws W DB E OE}.

(** A state that has been closed: another close does nothing, and any use is
    recorded as a use after close. *)
Lemma Close_again (p p' : PebbleFile DB E) (w w' : W) r :
  Close (p, w) = (r, (p', w')) ->
  p_db (pebble p') = None /\ p_err (pebble p') = p_err (pebble p) /\ Close (p', w') = (Ok tt, (p', w')).
Proof.
  unfold Close. destruct (close_db p w) as [err [p1 w1]] eqn:E1. destruct (remove_dir err p1 w1) as [err2 [p2 w2]] eqn:E2.
  intros [= _ <- <-].
  assert (p_db (pebble p1) = None /\ p_err (pebble p1) = p_err (pebble p)) as [Hn1 He1].
  { unfold close_db in E1. destruct (p_db (pebble p)) as [db|] eqn:Ed; [|by injection E1 as _ <- _].
    destruct (os_close db w). by injection E1 as _ <- _. }
  assert (pebble p2 = pebble p1 /\ (ownsDir p2 && negb (bool_decide (dir p2 = [])) = false)) as [Hp2 Hd].
  { unfold remove_dir in E2. destruct (ownsDir p1 && _) eqn:Eo; [|by injection E2 as _ <- _].
    destruct (os_removeAll (dir p1) w1). injection E2 as _ <- _. cbn. by rewrite andb_false_r. }
  rewrite Hp2. split; [done|]. split; [done|]. unfold close_db. rewrite Hp2, Hn1. unfold remove_dir. by rewrite Hd.
Qed.

Lemma OpenPebble_spec d (w w' : W) r :
  OpenPebble d w = (r, w') -> os_dirs w ⊆ os_dirs w' ⊆ {[d]} ∪ os_dirs w /\
  match r with Ok p => dir p = d /\ ownsDir p = false /\ p_err (pebble p) = None /\ is_Some (p_db (pebble p)) | Err _ => True end.
Proof.
  unfold OpenPebble. pose proof (os_open_dirs d w) as [H1 H2]. destruct (os_open d w) as [[db|e] w1]; intros [= <- <-]; by eauto 6.
Qed.

(** Whatever happens in between, a temporary state that is closed leaves the
    directories there were, unless its removal is what failed. *)
Theorem temp_pebble_leaves_nothing (p p' : PebbleFile DB E) (w0 w1 w w' : W) :
  NewTempPebble w0 = (Ok p, w1) -> os_dirs w = os_dirs w1 ->
  forall q, dir q = dir p -> ownsDir q = ownsDir p ->
  forall r, Close (q, w) = (r, (p', w')) ->
  dir p ∉ os_dirs w0 /\ os_dirs w0 ⊆ os_dirs w' /\ (os_dirs w' = os_dirs w0 \/ exists e, r = Err (errClosing e)).
Proof.
  unfold NewTempPebble. intros Hnew Hw q Hd Ho r Hc.
  destruct (os_mkdirTemp _ w0) as [[d|e] wa] eqn:Em; [|done]. apply os_mkdir_ok in Em as (Hne & Hfresh & Hda).
  destruct (OpenPebble d wa) as [[p0|e] wb] eqn:Eo; [|done]. injection Hnew as <- <-.
  apply OpenPebble_spec in Eo as ([Hlo Hhi] & Hpd & _). cbn [dir ownsDir] in *. rewrite Hpd in *.
  assert (os_dirs w = {[d]} ∪ os_dirs w0) as Hw'.
  { rewrite Hw. apply set_eq. intros x. specialize (Hlo x). specialize (Hhi x). set_solver. }
  split; [exact Hfresh|]. unfold Close in Hc.
  assert (exists err q1 w2, close_db q w = (err, (q1, w2)) /\ dir q1 = d /\ ownsDir q1 = true /\ os_dirs w2 = os_dirs w) as (err & q1 & w2 & E1 & Hd1 & Ho1 & Hw2).
  { unfold close_db. destruct (p_db (pebble q)) as [db|]; [|by eexists _, _, _].
    pose proof (os_close_dirs db w) as Hcl. destruct (os_close db w) as [er w2]. by eexists _, _, _. }
  rewrite E1 in Hc. unfold remove_dir in Hc. rewrite Ho1, Hd1, bool_decide_false in Hc by done. cbn [andb negb] in Hc.
  destruct (os_removeAll d w2) as [[e|] w3] eqn:Er; injection Hc as <- _ <-.
  - apply os_remove_err in Er as [Hr1 Hr2]. split; [set_solver|]. right. destruct err; by eexists.
  - apply os_remove_ok in Er. rewrite Er, Hw2, Hw'. split; [set_solver|]. left. set_solver.
Qed.

(** A temporary state that cannot be made leaves at most the directory that could
    not be removed. *)
Theorem temp_pebble_failed (w0 w1 : W) e :
  NewTempPebble w0 = (Err e : result _ (PebbleFile DB E), w1) ->
  os_dirs w0 ⊆ os_dirs w1 /\ (os_dirs w1 = os_dirs w0 \/ exists d w er, os_removeAll d w = (Some er, w1)).
Proof.
  unfold NewTempPebble. intros Hnew. destruct (os_mkdirTemp _ w0) as [[d|em] wa] eqn:Em.
  2:{ injection Hnew as _ <-. apply os_mkdir_err in Em. rewrite Em. by split; [|left]. }
  apply os_mkdir_ok in Em as (_ & Hfresh & Hda). destruct (OpenPebble d wa) as [[p0|eo] wb] eqn:Eo; [done|].
  injection Hnew as _ <-. apply OpenPebble_spec in Eo as ([Hlo Hhi] & _).
  destruct (os_removeAll d wb) as [[er|] w2] eqn:Er; cbn [snd].
  - pose proof (os_remove_err _ _ _ _ Er) as [Hr1 Hr2]. split; [set_solver|]. right. by exists d, wb, er.
  - apply os_remove_ok in Er. rewrite Er. split; [set_solver|]. left. set_solver.
Qed.
End Facts.

(** A system that keeps the contract: the disk is the directories on it. *)
#[export] Instance byte_inhabited : Inhabited byte := populate Byte.x00.

#[export] Instance Dirs_OS : PebbleOS (gset bytes) (gmap bytes bytes) Empty_set Empty_set := {|
  os_open d w := (Ok ∅, {[d]} ∪ w);
  os_close _ w := (None, w);
  os_mkdirTemp _ w := let d := Byte.x61 :: fresh (set_map (C := gset bytes) (D := gset bytes) tail w) in (Ok d, {[d]} ∪ w);
  os_removeAll d w := (None, w ∖ {[d]});
|}.

#[export] Program Instance Dirs_OSLaws : PebbleOSLaws (gset bytes) (gmap bytes bytes) Empty_set Empty_set := {|
  os_dirs w := w;
|}.
Next Obligation. intros d w. cbn. set_solver. Qed.
Next Obligation. done. Qed.
Next Obligation.
  intros p w d w' [= <- <-]. split; [done|]. split; [|done]. intros Hin.
  apply (is_fresh (set_map (C := gset bytes) (D := gset bytes) tail w)). apply elem_of_map. eexists. by split; [|exact Hin].
Qed.
Next Obligation. done. Qed.
Next Obligation. by intros d w w' [= <-]. Qed.
Next Obligation. done. Qed.
