(* ===== verification/Operators.v ===== *)
(** What the event-time operators of [pkg/operators] share: saturating window
    arithmetic, the composite keys of the three partitions of a subtask's key
    space, the count encoding, the watermark scalar, the scan for due timers
    and the purge of aggregates. The code is written against the [KeyedState]
    interface; [refines] carries a property of it from the in-process backend
    to every other one. *)
From S2P Require Import Prelude Core State.

(** * Window arithmetic (window.go) *)

Definition floorMod (a b : Z) : Z :=
  let m := Z.rem a b in if m <? 0 then add64 m b else m.

(** Subtraction that saturates at the bottom of [int64]. *)
Definition subFloor (a b : Z) : Z :=
  let d := sub64 a b in if (0 <? b) && (a <? d) then min_int64 else d.

(** Addition that saturates at the top of [int64]. *)
Definition addCeil (a b : Z) : Z :=
  let s := add64 a b in if (0 <? b) && (s <? a) then max_int64 else s.

Definition minWatermark : Z := min_int64.

(** * Composite keys *)

Definition windowStartBytes : nat := 8.
Definition prefixBytes : nat := 1.
Definition timerKeyMinBytes : nat := prefixBytes + OrderedInt64Bytes + windowStartBytes.

Definition watermarkStateKey : bytes := PrefixOperatorState :: str "watermark".

(** The errors of the operators; the messages are left out. *)
Inductive op_error :=
| errCountTooShort
| errStateKeyTooShort
| errTimerKeyTooShort
| ErrZeroLengthKey
| ErrStoredWatermark
| ErrFiredWithNoState
| ErrNoKeyedState
| ErrNotSnapshottable
| ErrValue
| ErrWinningBidLength
| ErrAuctionCountLength
| ErrWindowKeyLength
| ErrHotItemKeyLength
| ErrSizeDisagreement
| ErrUserFunction.

#[export] Instance op_error_eq_dec : EqDecision op_error.
Proof. solve_decision. Defined.

(** [appendStateKey(dst[:0], key, start)] *)
Definition appendStateKey (key : bytes) (windowStart : Z) : bytes :=
  PrefixUserState :: key ++ put_uint64 windowStart.

Definition windowStartOf (stateKey : bytes) : result op_error Z :=
  if (length stateKey <? prefixBytes + windowStartBytes)%nat then Err errStateKeyTooShort
  else Ok (i64 (uint64 (last_n windowStartBytes stateKey))).

(** [appendTimerKey(dst[:0], fireTime, key, start)] *)
Definition appendTimerKey (fireTime : Z) (key : bytes) (windowStart : Z) : bytes :=
  PrefixTimer :: EncodeOrderedInt64 fireTime ++ key ++ put_uint64 windowStart.

Definition parseTimerKey (timerKey : bytes) : result op_error (Z * bytes * Z) :=
  if (length timerKey <? timerKeyMinBytes)%nat then Err errTimerKeyTooShort
  else
    let fireTime := DecodeOrderedInt64 (drop prefixBytes timerKey) in
    let key := drop (prefixBytes + OrderedInt64Bytes)
                 (take (length timerKey - windowStartBytes) timerKey) in
    let windowStart := i64 (uint64 (last_n windowStartBytes timerKey)) in
    Ok (fireTime, key, windowStart).

Definition encodeCount (n : Z) : bytes := put_uint64 n.

Definition DecodeCount (value : bytes) : result op_error Z :=
  if (length value <? 8)%nat then Err errCountTooShort else Ok (i64 (uint64 value)).

(** * The operator and its context

    What one subtask's operator can touch: its keyed state, its two counters
    and, through [ctx.Emit], the records it has emitted, oldest first. *)
Record OpState (S : Type) := MkOp {
  op_state : S;
  op_dropped : Z;
  op_onTime : Z;
  op_out : list Record_;
}.
Arguments MkOp {S}.
Arguments op_state {S}.
Arguments op_dropped {S}.
Arguments op_onTime {S}.
Arguments op_out {S}.

Section Code.
Context {S SE : Type} `{KeyedState S SE}.

Definition Op (A : Type) : Type := M op_error (OpState S) A.
#[local] Instance Op_ret : MRet Op := fun A => M_ret A.
#[local] Instance Op_bind : MBind Op := fun A B => M_bind A B.

Definition set_state (s : S) (o : OpState S) : OpState S :=
  MkOp s (op_dropped o) (op_onTime o) (op_out o).

Definition st_get (key : bytes) : Op (option bytes) := fun o =>
  let '(v, s) := ks_get key (op_state o) in (Ok v, set_state s o).
Definition st_put (key value : bytes) : Op unit := fun o =>
  (Ok tt, set_state (ks_put key value (op_state o)) o).
Definition st_delete (key : bytes) : Op unit := fun o =>
  (Ok tt, set_state (ks_delete key (op_state o)) o).
Definition st_iterate {A} (fn : bytes -> bytes -> A -> S -> bool * (A * S)) (a : A) : Op A :=
  fun o => let '(a, s) := ks_iterate fn a (op_state o) in (Ok a, set_state s o).

(** [ctx.Emit] *)
Definition emit (rec : Record_) : Op unit := fun o =>
  (Ok tt, MkOp (op_state o) (op_dropped o) (op_onTime o) (op_out o ++ [rec])).

Definition incr_dropped : Op unit := fun o =>
  (Ok tt, MkOp (op_state o) (add64 (op_dropped o) 1) (op_onTime o) (op_out o)).
Definition incr_onTime : Op unit := fun o =>
  (Ok tt, MkOp (op_state o) (op_dropped o) (add64 (op_onTime o) 1) (op_out o)).

(** ** The watermark scalar (nexmark.go, and the same code in window.go) *)

Definition loadWatermark : Op Z :=
  v ← st_get watermarkStateKey;
  match v with
  | None => mret minWatermark
  | Some v =>
      if (length v <? OrderedInt64Bytes)%nat then fail ErrStoredWatermark
      else mret (DecodeOrderedInt64 v)
  end.

Definition storeWatermark (wm : Z) : Op unit :=
  st_put watermarkStateKey (EncodeOrderedInt64 wm).

(** ** Due timers *)

Record dueTimer := DueTimer {
  stateKey : bytes;
  key : bytes;
  windowStart : Z;
}.

(** The closure of the timer scan: the timers found so far and the error. *)
Definition due_cb (wm : Z) (k v : bytes) (a : list dueTimer * option op_error) (s : S)
    : bool * ((list dueTimer * option op_error) * S) :=
  let '(due, scanErr) := a in
  match k with
  | [] => (false, ((due, Some ErrZeroLengthKey), s))
  | p :: _ =>
      if byte_to_Z p <? byte_to_Z PrefixTimer then (true, (a, s))
      else if byte_to_Z PrefixTimer <? byte_to_Z p then (false, (a, s))
      else match parseTimerKey k with
      | Err e => (false, ((due, Some e), s))
      | Ok (fireTime, key, start) =>
          if wm <? fireTime then (false, (a, s))
          else (true, ((due ++ [DueTimer k key start], scanErr), s))
      end
  end.

Definition collectDue (wm : Z) : Op (list dueTimer) :=
  a ← st_iterate (due_cb wm) ([], None);
  match a.2 with
  | Some e => fail e
  | None => mret a.1
  end.

(** ** Purging *)

(** The closure of the purge: the error it met. *)
Definition purge_cb (purged : bytes -> result op_error bool) (k v : bytes)
    (a : option op_error) (s : S) : bool * (option op_error * S) :=
  match k with
  | [] => (false, (Some ErrZeroLengthKey, s))
  | p :: _ =>
      if bool_decide (p <> PrefixUserState) then (false, (a, s))
      else match purged k with
      | Err e => (false, (Some e, s))
      | Ok drop => (true, (a, if drop : bool then ks_delete k s else s))
      end
  end.

Definition purgeWindows (purged : bytes -> result op_error bool) : Op unit :=
  err ← st_iterate (purge_cb purged) None;
  match err with
  | Some e => fail e
  | None => mret tt
  end.
End Code.

Arguments Op S A : clear implicits.
Arguments stateKey : simpl never.

(** * Backend independence

    [refines m1 m2]: whatever the code does over any lawful backend while that
    backend reports no error, it does over an in-process map of the same
    contents: the result, the records emitted and the contents it leaves. The
    counters are only written, so nothing else has to agree before. *)

Section Refines.
Context {S SE : Type} `{KeyedStateLaws S SE}.

Definition same_view (o1 : OpState S) (o2 : OpState Memory) : Prop :=
  ks_view (op_state o1) = entries (op_state o2).

Definition op_rel (o1 : OpState S) (o2 : OpState Memory) : Prop :=
  same_view o1 o2 /\
  op_dropped o1 = op_dropped o2 /\ op_onTime o1 = op_onTime o2 /\
  op_out o1 = op_out o2.

Definition op_err (o : OpState S) : option SE := ks_err (op_state o).

(** What two runs did, from [o1] and [o2]. *)
Record op_agree {A} (o1 : OpState S) (o2 : OpState Memory)
    (r1 : result op_error A * OpState S) (r2 : result op_error A * OpState Memory) : Prop := {
  ag_res : r1.1 = r2.1;
  ag_view : same_view r1.2 r2.2;
  ag_out : exists d, op_out r1.2 = op_out o1 ++ d /\ op_out r2.2 = op_out o2 ++ d;
  ag_dropped : op_dropped o1 = op_dropped o2 -> op_dropped r1.2 = op_dropped r2.2;
  ag_onTime : op_onTime o1 = op_onTime o2 -> op_onTime r1.2 = op_onTime r2.2;
}.

Definition refines {A} (m1 : Op S A) (m2 : Op Memory A) : Prop := forall o1 o2,
  op_err (m1 o1).2 = None ->
  op_err o1 = None /\ (same_view o1 o2 -> op_agree o1 o2 (m1 o1) (m2 o2)).

Lemma refines_rel {A} (m1 : Op S A) m2 o1 o2 :
  refines m1 m2 -> op_err (m1 o1).2 = None -> op_rel o1 o2 ->
  (m1 o1).1 = (m2 o2).1 /\ op_rel (m1 o1).2 (m2 o2).2.
Proof.
  intros Hm He (Hv & Hd & Ht & Ho). destruct (Hm o1 o2 He) as [_ [? ? (d & H1 & H2) ? ?]]; [done|].
  rewrite Ho in H1. unfold op_rel. split_and!; [done..|auto|auto|congruence].
Qed.

(** A program that leaves the state alone and appends to the output. *)
Lemma refines_pure {A} (m1 : Op S A) (m2 : Op Memory A) :
  (forall o1 o2, same_view o1 o2 -> op_agree o1 o2 (m1 o1) (m2 o2)) ->
  (forall o1, op_state (m1 o1).2 = op_state o1) ->
  refines m1 m2.
Proof. intros Hr Hs o1 o2 He. unfold op_err in *. rewrite Hs in He. auto. Qed.

Lemma op_agree_intro {A} o1 o2 (r : result op_error A) s1 s2 dropped1 dropped2 onTime1 onTime2 d :
  ks_view s1 = entries s2 ->
  (op_dropped o1 = op_dropped o2 -> dropped1 = dropped2) ->
  (op_onTime o1 = op_onTime o2 -> onTime1 = onTime2) ->
  op_agree o1 o2 (r, MkOp s1 dropped1 onTime1 (op_out o1 ++ d))
    (r, MkOp s2 dropped2 onTime2 (op_out o2 ++ d)).
Proof. intros. split; cbn; eauto. Qed.

Lemma op_agree_state {A} o1 o2 (r : result op_error A) s1 s2 :
  ks_view s1 = entries s2 -> op_agree o1 o2 (r, set_state s1 o1) (r, set_state s2 o2).
Proof.
  intros Hv. pose proof (op_agree_intro o1 o2 r s1 s2 (op_dropped o1) (op_dropped o2)
    (op_onTime o1) (op_onTime o2) [] Hv) as Ha. rewrite !app_nil_r in Ha. by apply Ha.
Qed.

Lemma op_agree_same {A} o1 o2 (r : result op_error A) :
  same_view o1 o2 -> op_agree o1 o2 (r, o1) (r, o2).
Proof. intros Hv. split; cbn; [done..|exists []; by rewrite !app_nil_r|done|done]. Qed.

Lemma refines_ret {A} (a : A) : refines (mret a : Op S A) (mret a : Op Memory A).
Proof. apply refines_pure; [|done]. intros. by apply op_agree_same. Qed.

Lemma refines_fail {A} e : refines (fail e : Op S A) (fail e : Op Memory A).
Proof. apply refines_pure; [|done]. intros. by apply op_agree_same. Qed.

Lemma refines_lift {A} r : refines (lift r : Op S A) (lift r : Op Memory A).
Proof. apply refines_pure; [|done]. intros. by apply op_agree_same. Qed.

Lemma op_agree_trans {A B} o1 o2 (r1 : result op_error A * OpState S) r2
    (q1 : result op_error B * OpState S) q2 :
  op_agree o1 o2 r1 r2 -> op_agree r1.2 r2.2 q1 q2 -> op_agree o1 o2 q1 q2.
Proof.
  intros [? ? (d & E1 & E2) ? ?] [? ? (d' & E1' & E2') ? ?]. split; [done|done| |auto|auto].
  exists (d ++ d'). by rewrite E1', E2', E1, E2, <- !app_assoc.
Qed.

Lemma refines_bind {A B} (m1 : Op S A) m2 (f1 : A -> Op S B) f2 :
  refines m1 m2 -> (forall a, refines (f1 a) (f2 a)) ->
  refines (m1 ≫= f1) (m2 ≫= f2).
Proof.
  intros Hm Hf o1 o2. specialize (Hm o1 o2). unfold mbind, M_bind.
  destruct (m1 o1) as [[a|e] o1'] eqn:E1; destruct (m2 o2) as [r2 o2'] eqn:E2.
  - intros He. destruct (Hf a o1' o2' He) as [He' Hf'].
    destruct (Hm He') as [He'' Hm']. split; [done|]. intros Hr.
    specialize (Hm' Hr). pose proof (ag_res _ _ _ _ Hm') as Hres.
    pose proof (ag_view _ _ _ _ Hm') as Hv. cbn in Hres, Hv. subst r2.
    eapply op_agree_trans; [exact Hm'|]. by apply Hf'.
  - cbn. intros He. destruct (Hm He) as [He'' Hm']. split; [done|]. intros Hr.
    specialize (Hm' Hr). pose proof (ag_res _ _ _ _ Hm') as Hres. cbn in Hres. subst r2.
    by destruct Hm'.
Qed.

Lemma refines_for_each {A} (f1 : A -> Op S unit) f2 l :
  (forall a, refines (f1 a) (f2 a)) -> refines (for_each f1 l) (for_each f2 l).
Proof.
  intros Hf. induction l as [|x l IH]; [apply refines_ret|].
  cbn [for_each]. by apply refines_bind.
Qed.

Lemma refines_get k : refines (st_get k : Op S _) (st_get k).
Proof.
  intros o1 o2. unfold st_get, op_err, same_view. cbn.
  pose proof (ks_get_ok k (op_state o1)). pose proof (ks_get_err k (op_state o1)).
  destruct (ks_get k (op_state o1)) as [v s]. cbn in *.
  intros He. destruct H1 as [-> Hs]; [done|]. split; [auto|].
  intros Hv. rewrite Hv. apply op_agree_state. by rewrite Hs.
Qed.

Lemma refines_put k v : refines (st_put k v : Op S _) (st_put k v).
Proof.
  intros o1 o2. unfold st_put, op_err, same_view. cbn. intros He.
  split; [by eapply ks_put_err|]. intros Hv. apply op_agree_state.
  rewrite ks_put_ok by done. by rewrite Hv.
Qed.

Lemma refines_delete k : refines (st_delete k : Op S _) (st_delete k).
Proof.
  intros o1 o2. unfold st_delete, op_err, same_view. cbn. intros He.
  split; [by eapply ks_delete_err|]. intros Hv. apply op_agree_state.
  rewrite ks_delete_ok by done. by rewrite Hv.
Qed.

Lemma refines_iterate {A} (fn1 : bytes -> bytes -> A -> S -> bool * (A * S))
    (fn2 : bytes -> bytes -> A -> Memory -> bool * (A * Memory))
    (f : bytes -> bytes -> A -> visit A) (a : A) :
  (forall k v a s, fn1 k v a s = contract_cb f k v a s) ->
  (forall k v a s, fn2 k v a s = contract_cb f k v a s) ->
  refines (st_iterate fn1 a) (st_iterate fn2 a).
Proof.
  intros H1 H2 o1 o2. unfold st_iterate, op_err, same_view. cbn.
  pose proof (ks_iterate_ok fn1 f a (op_state o1) H1) as Hok.
  pose proof (ks_iterate_err fn1 f a (op_state o1) H1) as Herr.
  pose proof (ks_iterate_ok fn2 f a (op_state o2) H2 eq_refl) as Hm.
  cbn in Hm. destruct (ks_iterate fn1 a (op_state o1)) as [a1 s1].
  destruct (Memory_Iterate fn2 a (op_state o2)) as [a2 s2]. cbn in *.
  intros He. destruct Hok as [-> Hs1]; [done|]. split; [auto|].
  intros Hv. destruct Hm as [-> Hs2]. rewrite Hv. apply op_agree_state.
  by rewrite Hs1, Hs2, Hv.
Qed.

Lemma refines_emit rec : refines (emit rec : Op S _) (emit rec).
Proof. apply refines_pure; [|done]. intros o1 o2 Hv. by apply op_agree_intro. Qed.

Lemma refines_count (f : Z -> Z) (g : Z -> Z) :
  refines (fun o => (Ok tt, MkOp (op_state o) (f (op_dropped o)) (g (op_onTime o)) (op_out o)) : _ * OpState S)
    (fun o => (Ok tt, MkOp (op_state o) (f (op_dropped o)) (g (op_onTime o)) (op_out o))).
Proof.
  apply refines_pure; [|done]. intros o1 o2 Hv.
  split; cbn; [done..|exists []; by rewrite !app_nil_r|congruence|congruence].
Qed.

Lemma refines_incr_dropped : refines (incr_dropped : Op S _) incr_dropped.
Proof. apply (refines_count (fun n => add64 n 1) (fun n => n)). Qed.

Lemma refines_incr_onTime : refines (incr_onTime : Op S _) incr_onTime.
Proof. apply (refines_count (fun n => n) (fun n => add64 n 1)). Qed.
End Refines.

Create HintDb refines.
#[export] Hint Resolve refines_ret refines_fail refines_lift refines_bind
  refines_for_each refines_get refines_put refines_delete refines_emit
  refines_incr_dropped refines_incr_onTime : refines.

(** Splits a refinement goal along the structure of the code. *)
Ltac refine_step :=
  lazymatch goal with
  | |- refines (_ ≫= _) _ => apply refines_bind; [|intros ?]
  | |- refines (for_each _ _) _ => apply refines_for_each; intros ?
  | |- refines (match ?x with _ => _ end) _ => destruct x
  | _ => auto with refines
  end.
Ltac refine_tac := repeat (progress (repeat refine_step)).

(** The decisions the two closures amount to. *)
Definition due_visit (wm : Z) (k v : bytes) (a : list dueTimer * option op_error)
    : visit (list dueTimer * option op_error) :=
  let '(due, scanErr) := a in
  match k with
  | [] => Visit (due, Some ErrZeroLengthKey) false false
  | p :: _ =>
      if byte_to_Z p <? byte_to_Z PrefixTimer then Visit a false true
      else if byte_to_Z PrefixTimer <? byte_to_Z p then Visit a false false
      else match parseTimerKey k with
      | Err e => Visit (due, Some e) false false
      | Ok (fireTime, key, start) =>
          if wm <? fireTime then Visit a false false
          else Visit (due ++ [DueTimer k key start], scanErr) false true
      end
  end.

Definition purge_visit (purged : bytes -> result op_error bool) (k v : bytes)
    (a : option op_error) : visit (option op_error) :=
  match k with
  | [] => Visit (Some ErrZeroLengthKey) false false
  | p :: _ =>
      if bool_decide (p <> PrefixUserState) then Visit a false false
      else match purged k with
      | Err e => Visit (Some e) false false
      | Ok drop => Visit a drop true
      end
  end.

Lemma due_cb_contract {S SE} `{KeyedState S SE} wm k v a (s : S) :
  due_cb wm k v a s = contract_cb (due_visit wm) k v a s.
Proof.
  destruct a as [due e]. unfold due_cb, contract_cb, due_visit.
  destruct k as [|p k]; [done|]. repeat case_match; done.
Qed.

Lemma purge_cb_contract {S SE} `{KeyedState S SE} purged k v a (s : S) :
  purge_cb purged k v a s = contract_cb (purge_visit purged) k v a s.
Proof.
  unfold purge_cb, contract_cb, purge_visit.
  destruct k as [|p k]; [done|]. repeat case_match; done.
Qed.

Section RefinesShared.
Context {S SE : Type} `{KeyedStateLaws S SE}.

Lemma refines_loadWatermark : refines (loadWatermark : Op S _) loadWatermark.
Proof. unfold loadWatermark. refine_tac. Qed.

Lemma refines_storeWatermark wm : refines (storeWatermark wm : Op S _) (storeWatermark wm).
Proof. unfold storeWatermark. refine_tac. Qed.

Lemma refines_collectDue wm : refines (collectDue wm : Op S _) (collectDue wm).
Proof.
  unfold collectDue. apply refines_bind; [|intros a; refine_tac].
  apply (refines_iterate _ _ (due_visit wm)); intros; apply due_cb_contract.
Qed.

Lemma refines_purgeWindows purged :
  refines (purgeWindows purged : Op S _) (purgeWindows purged).
Proof.
  unfold purgeWindows. apply refines_bind; [|intros a; refine_tac].
  apply (refines_iterate _ _ (purge_visit purged)); intros; apply purge_cb_contract.
Qed.
End RefinesShared.

#[export] Hint Resolve refines_loadWatermark refines_storeWatermark refines_collectDue
  refines_purgeWindows : refines.

(** * Operators (core/operator.go)

    The interface the runtime drives, over whatever backend it hands out.
    [o_Open] is told whether the context has a keyed state. *)
Record Operator := MkOperator {
  o_Open : bool -> result op_error unit;
  o_ProcessElement : forall {S SE} `{KeyedState S SE}, Record_ -> Op S unit;
  o_ProcessWatermark : forall {S SE} `{KeyedState S SE}, Z -> Op S unit;
  o_OnEndOfStream : forall {S SE} `{KeyedState S SE}, Op S unit;
  o_Snapshot : result op_error bytes;
  o_Restore : bytes -> result op_error unit;
  o_Close : result op_error unit;
}.

(** All an operator keeps is in its keyed state, and it reads nothing else. *)
Class OperatorLaws (op : Operator) := {
  ol_element {S SE} `{KeyedStateLaws S SE} rec :
    refines (o_ProcessElement op rec : Op S unit) (o_ProcessElement op rec);
  ol_watermark {S SE} `{KeyedStateLaws S SE} wm :
    refines (o_ProcessWatermark op wm : Op S unit) (o_ProcessWatermark op wm);
  ol_end {S SE} `{KeyedStateLaws S SE} :
    refines (o_OnEndOfStream op : Op S unit) (o_OnEndOfStream op);
}.

(** [Open] of an operator with state. *)
Definition needs_state (hasState : bool) : result op_error unit :=
  if hasState then Ok tt else Err ErrNoKeyedState.
