(* ===== verification/WindowStore.v ===== *)
(** The contents of a window operator's key space, seen abstractly: aggregates
    by (key, window start), the set of pending timers and the watermark. The
    relation [represents] ties it to the bytes the operators store; the lemmas
    give the effect of every access of [Operators] at that level. *)
From S2P Require Import Prelude Core State Operators.

(** * The keys *)

Lemma app_tail_inj (a b x y : bytes) :
  length x = length y -> a ++ x = b ++ y -> a = b /\ x = y.
Proof. intros Hl E. apply app_inj_2 in E; auto. Qed.

Lemma appendStateKey_inj k s k' s' :
  is_i64 s -> is_i64 s' -> appendStateKey k s = appendStateKey k' s' -> k = k' /\ s = s'.
Proof.
  unfold appendStateKey. intros Hs Hs' [_ E]%cons_eq_inj.
  apply app_tail_inj in E as [-> E]; [|by rewrite !length_put_uint64].
  split; [done|]. by apply put_uint64_i64_inj.
Qed.

Lemma appendTimerKey_inj f k s f' k' s' :
  is_i64 s -> is_i64 s' -> appendTimerKey f k s = appendTimerKey f' k' s' -> k = k' /\ s = s'.
Proof.
  unfold appendTimerKey. intros Hs Hs' [_ E]%cons_eq_inj.
  apply app_inj_1 in E as [_ E]; [|by rewrite !length_EncodeOrderedInt64].
  apply app_tail_inj in E as [-> E]; [|by rewrite !length_put_uint64].
  split; [done|]. by apply put_uint64_i64_inj.
Qed.

Lemma last_n_put l s : last_n windowStartBytes (l ++ put_uint64 s) = put_uint64 s.
Proof.
  unfold windowStartBytes. rewrite <- (length_put_uint64 s). apply last_n_app.
Qed.

Lemma i64_uint64_put s : is_i64 s -> i64 (uint64 (put_uint64 s)) = s.
Proof. intros Hs. by rewrite uint64_put', i64_u64, i64_id. Qed.

Lemma windowStartOf_stateKey k s :
  is_i64 s -> windowStartOf (appendStateKey k s) = Ok s.
Proof.
  intros Hs. unfold windowStartOf, appendStateKey.
  destruct (Nat.ltb_spec (length (PrefixUserState :: k ++ put_uint64 s))
    (prefixBytes + windowStartBytes)) as [Hl|_].
  { cbn [length] in Hl. rewrite length_app, length_put_uint64 in Hl.
    unfold prefixBytes, windowStartBytes in Hl. lia. }
  change (PrefixUserState :: k ++ put_uint64 s) with ((PrefixUserState :: k) ++ put_uint64 s).
  by rewrite last_n_put, i64_uint64_put.
Qed.

Lemma length_appendTimerKey f k s :
  length (appendTimerKey f k s) = (timerKeyMinBytes + length k)%nat.
Proof.
  unfold appendTimerKey. cbn [length].
  rewrite !length_app, length_EncodeOrderedInt64, length_put_uint64.
  unfold timerKeyMinBytes, prefixBytes, windowStartBytes, OrderedInt64Bytes. lia.
Qed.

Lemma parseTimerKey_append f k s :
  is_i64 f -> is_i64 s -> parseTimerKey (appendTimerKey f k s) = Ok (f, k, s).
Proof.
  intros Hf Hs. unfold parseTimerKey. rewrite length_appendTimerKey.
  destruct (Nat.ltb_spec (timerKeyMinBytes + length k) timerKeyMinBytes); [lia|].
  unfold appendTimerKey.
  replace (PrefixTimer :: EncodeOrderedInt64 f ++ k ++ put_uint64 s)
    with ((PrefixTimer :: EncodeOrderedInt64 f ++ k) ++ put_uint64 s) at 2 3
    by (cbn; by rewrite <- app_assoc).
  rewrite last_n_put, i64_uint64_put by done.
  rewrite take_app_length'.
  2:{ cbn [length]. rewrite length_app, length_EncodeOrderedInt64.
      unfold timerKeyMinBytes, prefixBytes, windowStartBytes, OrderedInt64Bytes. lia. }
  change (drop (prefixBytes + OrderedInt64Bytes) (PrefixTimer :: EncodeOrderedInt64 f ++ k))
    with (drop OrderedInt64Bytes (EncodeOrderedInt64 f ++ k)).
  rewrite drop_app_length' by by rewrite length_EncodeOrderedInt64.
  change (drop prefixBytes (PrefixTimer :: EncodeOrderedInt64 f ++ k ++ put_uint64 s))
    with (EncodeOrderedInt64 f ++ k ++ put_uint64 s).
  by rewrite DecodeOrderedInt64_Encode.
Qed.

Lemma DecodeCount_encode n : is_i64 n -> DecodeCount (encodeCount n) = Ok n.
Proof.
  intros Hn. unfold DecodeCount, encodeCount. rewrite length_put_uint64. cbn.
  by rewrite i64_uint64_put.
Qed.

(** Timer keys sort by fire time first. *)
Lemma appendTimerKey_le f k s f' k' s' :
  is_i64 f -> is_i64 f' ->
  bytes_le (appendTimerKey f k s) (appendTimerKey f' k' s') <->
  f < f' \/ (f = f' /\ bytes_le (k ++ put_uint64 s) (k' ++ put_uint64 s')).
Proof.
  intros Hf Hf'. unfold appendTimerKey.
  rewrite <- (EncodeOrderedInt64_le f f' (k ++ put_uint64 s) (k' ++ put_uint64 s')) by done.
  apply (bytes_le_app_l [PrefixTimer]).
Qed.

(** * Arithmetic *)

Lemma addCeil_spec a b :
  is_i64 a -> is_i64 b -> 0 <= b -> addCeil a b = Z.min (a + b) max_int64.
Proof.
  intros Ha Hb Hb0. unfold addCeil.
  destruct (add64_cases a b Ha Hb) as [[Hr ->]|[[Hr ->]|[Hr ->]]]; revert Ha Hb Hr;
    unfold_ints; intros Ha Hb Hr.
  - destruct (Z.ltb_spec 0 b), (Z.ltb_spec (a + b) a); cbn; lia.
  - destruct (Z.ltb_spec 0 b), (Z.ltb_spec (a + b - 2 ^ 64) a); cbn; lia.
  - destruct (Z.ltb_spec 0 b), (Z.ltb_spec (a + b + 2 ^ 64) a); cbn; lia.
Qed.

Lemma subFloor_spec a b :
  is_i64 a -> is_i64 b -> 0 <= b -> subFloor a b = Z.max (a - b) min_int64.
Proof.
  intros Ha Hb Hb0. unfold subFloor. rewrite sub64_add64. unfold add64.
  replace (i64 (a + - b)) with (if bool_decide (a - b < min_int64) then a - b + 2 ^ 64 else a - b).
  2:{ case_bool_decide; symmetry; revert Ha Hb H; unfold_ints; intros Ha Hb H.
      - replace (a + - b + 2 ^ 63) with (a - b + 2 ^ 64 + 2 ^ 63 + (-1) * 2 ^ 64) by lia.
        rewrite Z.mod_add, Z.mod_small; lia.
      - rewrite Z.mod_small; lia. }
  case_bool_decide; revert Ha Hb H; unfold_ints; intros Ha Hb H.
  - destruct (Z.ltb_spec 0 b), (Z.ltb_spec a (a - b + 2 ^ 64)); cbn; lia.
  - destruct (Z.ltb_spec 0 b), (Z.ltb_spec a (a - b)); cbn; lia.
Qed.

Lemma addCeil_i64 a b : is_i64 (addCeil a b).
Proof.
  unfold addCeil, add64. case_match; [by unfold_ints|]. apply i64_range.
Qed.

Lemma subFloor_i64 a b : is_i64 (subFloor a b).
Proof.
  unfold subFloor, sub64. case_match; [by unfold_ints|]. apply i64_range.
Qed.

(** [floorMod] is the mathematical modulus for a positive divisor. *)
Lemma floorMod_spec a b : is_i64 a -> is_i64 b -> 0 < b -> floorMod a b = a mod b.
Proof.
  intros Ha Hb Hb0. unfold floorMod.
  pose proof (Z.rem_bound_abs a b ltac:(lia)) as Hr.
  pose proof (Z.quot_rem a b ltac:(lia)) as Hq.
  assert (exists q, a = b * q + (if Z.rem a b <? 0 then Z.rem a b + b else Z.rem a b)) as [q Hq'].
  { destruct (Z.ltb_spec (Z.rem a b) 0).
    - exists (a ÷ b - 1). lia.
    - exists (a ÷ b). lia. }
  destruct (Z.ltb_spec (Z.rem a b) 0).
  - rewrite add64_id by (revert Hb; unfold_ints; lia).
    apply (Z.mod_unique a b q); [left; lia|lia].
  - apply (Z.mod_unique a b q); [left; lia|lia].
Qed.

(** * The abstract store *)

Record store (V : Type) := MkStore {
  agg : gmap (bytes * Z) V;
  timers : gset (bytes * Z);
  mark : option Z;
}.
Arguments MkStore {V}.
Arguments agg {V}.
Arguments timers {V}.
Arguments mark {V}.

Definition empty_store {V} : store V := MkStore ∅ ∅ None.

Definition set_agg {V} k s (v : V) (st : store V) : store V :=
  MkStore (<[(k, s) := v]> (agg st)) (timers st) (mark st).
Definition add_timer {V} k s (st : store V) : store V :=
  MkStore (agg st) ({[(k, s)]} ∪ timers st) (mark st).
Definition del_timer {V} k s (st : store V) : store V :=
  MkStore (agg st) (timers st ∖ {[(k, s)]}) (mark st).
Definition set_mark {V} wm (st : store V) : store V :=
  MkStore (agg st) (timers st) (Some wm).
Definition purge_keys {V} (purged : bytes * Z -> bool) (st : store V) : store V :=
  MkStore (filter (fun kv => purged kv.1 = false) (agg st)) (timers st) (mark st).
Definition purge_agg {V} (purged : Z -> bool) : store V -> store V := purge_keys (fun t => purged t.2).

(** The watermark an operator compares against. *)
Definition watermark {V} (st : store V) : Z := default minWatermark (mark st).

Section Store.
Context (size : Z) {V : Type} (enc : V -> bytes).

(** When a window's timer is due: its last event time. *)
Definition fire_time (start : Z) : Z := addCeil start (size - 1).

Definition timer_key (t : bytes * Z) : bytes :=
  appendTimerKey (fire_time t.2) t.1 t.2.

Record represents (m : gmap bytes bytes) (st : store V) : Prop := {
  rep_agg k s : is_i64 s -> m !! appendStateKey k s = enc <$> agg st !! (k, s);
  rep_timer k s : is_i64 s ->
    m !! timer_key (k, s) = if decide ((k, s) ∈ timers st) then Some [] else None;
  rep_mark : m !! watermarkStateKey = EncodeOrderedInt64 <$> mark st;
  rep_shape K : is_Some (m !! K) ->
    (exists k s, is_i64 s /\ K = appendStateKey k s) \/
    (exists k s, is_i64 s /\ K = timer_key (k, s)) \/ K = watermarkStateKey;
  rep_agg_i64 k s v : agg st !! (k, s) = Some v -> is_i64 s;
  rep_timer_i64 k s : (k, s) ∈ timers st -> is_i64 s;
  rep_mark_i64 wm : mark st = Some wm -> is_i64 wm;
}.

Lemma represents_empty : represents ∅ empty_store.
Proof. split; try done. by intros K [v ?]. Qed.

Lemma timer_key_inj k s k' s' :
  is_i64 s -> is_i64 s' -> timer_key (k, s) = timer_key (k', s') -> k = k' /\ s = s'.
Proof. unfold timer_key. apply appendTimerKey_inj. Qed.

(** Keys of different partitions differ in their first byte. *)
Lemma state_timer_ne k s t : appendStateKey k s <> timer_key t.
Proof. done. Qed.
Lemma state_mark_ne k s : appendStateKey k s <> watermarkStateKey.
Proof. done. Qed.
Lemma timer_mark_ne t : timer_key t <> watermarkStateKey.
Proof. done. Qed.

Lemma represents_set_agg m st k s v :
  is_i64 s -> represents m st ->
  represents (<[appendStateKey k s := enc v]> m) (set_agg k s v st).
Proof.
  intros Hs [Ha Ht Hm Hsh Hai Hti Hmi]. split; cbn.
  - intros k' s' Hs'. destruct (decide ((k', s') = (k, s))) as [[= -> ->]|Hne].
    + rewrite lookup_insert_eq. cbn. by rewrite lookup_insert_eq.
    + rewrite !lookup_insert_ne; [by apply Ha|congruence|].
      intros E. apply appendStateKey_inj in E as [-> ->]; done.
  - intros k' s' Hs'. rewrite lookup_insert_ne by apply state_timer_ne. by apply Ht.
  - by rewrite lookup_insert_ne by apply state_mark_ne.
  - intros K. rewrite lookup_insert. case_decide as HK; [|apply Hsh]. subst. eauto 6.
  - intros k' s' v'. rewrite lookup_insert. case_decide as HK; [|apply Hai]. by simplify_eq.
  - done.
  - done.
Qed.

Lemma represents_add_timer m st k s :
  is_i64 s -> represents m st ->
  represents (<[timer_key (k, s) := []]> m) (add_timer k s st).
Proof.
  intros Hs [Ha Ht Hm Hsh Hai Hti Hmi]. split; cbn.
  - intros k' s' Hs'. rewrite lookup_insert_ne; [by apply Ha|].
    intros E. by apply (state_timer_ne k' s' (k, s)).
  - intros k' s' Hs'. destruct (decide ((k', s') = (k, s))) as [[= -> ->]|Hne].
    + rewrite lookup_insert_eq, decide_True by set_solver. done.
    + rewrite lookup_insert_ne, Ht by (done || (intros E; apply timer_key_inj in E as [-> ->]; done)).
      apply decide_ext. set_solver.
  - rewrite lookup_insert_ne; [done|]. apply timer_mark_ne.
  - intros K. rewrite lookup_insert. case_decide as HK; [|apply Hsh]. subst. eauto 8.
  - done.
  - intros k' s' [[= -> ->]%elem_of_singleton|Hin]%elem_of_union; [done|by eapply Hti].
  - done.
Qed.

Lemma represents_del_timer m st k s :
  is_i64 s -> represents m st ->
  represents (delete (timer_key (k, s)) m) (del_timer k s st).
Proof.
  intros Hs [Ha Ht Hm Hsh Hai Hti Hmi]. split; cbn.
  - intros k' s' Hs'. rewrite lookup_delete_ne; [by apply Ha|].
    intros E. by apply (state_timer_ne k' s' (k, s)).
  - intros k' s' Hs'. destruct (decide ((k', s') = (k, s))) as [[= -> ->]|Hne].
    + rewrite lookup_delete_eq, decide_False by set_solver. done.
    + rewrite lookup_delete_ne, Ht by (done || (intros E; apply timer_key_inj in E as [-> ->]; done)).
      apply decide_ext. set_solver.
  - rewrite lookup_delete_ne; [done|]. apply timer_mark_ne.
  - intros K [v HK%lookup_delete_Some]. apply Hsh. destruct HK. eauto.
  - done.
  - intros k' s' [Hin _]%elem_of_difference. by eapply Hti.
  - done.
Qed.

Lemma represents_set_mark m st wm :
  is_i64 wm -> represents m st ->
  represents (<[watermarkStateKey := EncodeOrderedInt64 wm]> m) (set_mark wm st).
Proof.
  intros Hwm [Ha Ht Hm Hsh Hai Hti Hmi]. split; cbn.
  - intros k' s' Hs'. rewrite lookup_insert_ne; [by apply Ha|done].
  - intros k' s' Hs'. rewrite lookup_insert_ne; [by apply Ht|done].
  - by rewrite lookup_insert_eq.
  - intros K. rewrite lookup_insert. case_decide as HK; [|apply Hsh]. auto.
  - done.
  - done.
  - by intros ? [= <-].
Qed.
End Store.

(** * The timer scan *)

Section Due.
Context (size : Z) {V : Type} (enc : V -> bytes).

Definition timer_le (t1 t2 : bytes * Z) : Prop :=
  bytes_le (timer_key size t1) (timer_key size t2).

#[export] Instance timer_le_dec : RelDecision timer_le.
Proof. intros t1 t2. unfold timer_le. apply _. Defined.
#[export] Instance timer_le_trans : Transitive timer_le.
Proof. intros t1 t2 t3. unfold timer_le. apply transitivity. Qed.
#[export] Instance timer_le_total : Total timer_le.
Proof. intros t1 t2. unfold timer_le. apply total; apply _. Qed.

(** The timers due at a watermark, in firing order. *)
Definition due_timers (st : store V) (wm : Z) : list (bytes * Z) :=
  merge_sort timer_le
    (elements (filter (fun t => fire_time size t.2 <= wm) (timers st))).

Definition due_of (t : bytes * Z) : dueTimer := DueTimer (timer_key size t) t.1 t.2.

Lemma elem_of_due_timers st wm t :
  t ∈ due_timers st wm <-> t ∈ timers st /\ fire_time size t.2 <= wm.
Proof.
  unfold due_timers. rewrite merge_sort_Permutation, elem_of_elements, elem_of_filter.
  tauto.
Qed.

Lemma NoDup_due_timers st wm : NoDup (due_timers st wm).
Proof. unfold due_timers. rewrite merge_sort_Permutation. apply NoDup_elements. Qed.

Lemma due_timers_sorted st wm : StronglySorted timer_le (due_timers st wm).
Proof. apply (StronglySorted_merge_sort timer_le). Qed.

(** Any enumeration in key order is [due_timers]. *)
Lemma due_timers_unique st wm l :
  (forall k s, (k, s) ∈ timers st -> is_i64 s) ->
  StronglySorted timer_le l -> NoDup l ->
  (forall t, t ∈ l <-> t ∈ timers st /\ fire_time size t.2 <= wm) ->
  l = due_timers st wm.
Proof.
  intros Hi Hs Hnd Hin. apply (StronglySorted_unique_strong timer_le).
  - intros [k s] [k' s'] [H1 _]%Hin [H2 _]%elem_of_due_timers Hle Hle'.
    assert (timer_key size (k, s) = timer_key size (k', s')) as E by (by apply bytes_le_antisymm).
    apply timer_key_inj in E as [-> ->]; eauto.
  - done.
  - apply due_timers_sorted.
  - apply NoDup_Permutation; [done|apply NoDup_due_timers|].
    intros t. by rewrite Hin, elem_of_due_timers.
Qed.

(** What the keys of a represented store look like. *)
Definition key_shape (K : bytes) : Prop :=
  (exists k s, is_i64 s /\ K = appendStateKey k s) \/
  (exists k s, is_i64 s /\ K = timer_key size (k, s)) \/ K = watermarkStateKey.

(** A due timer key, and what the scan makes of it. *)
Definition key_due (wm : Z) (K : bytes) : bool :=
  match K with
  | p :: _ => bool_decide (p = PrefixTimer) &&
      match parseTimerKey K with Ok (f, _, _) => f <=? wm | Err _ => false end
  | [] => false
  end.

Definition key_timer (K : bytes) : bytes * Z :=
  match parseTimerKey K with Ok (_, k, s) => (k, s) | Err _ => ([], 0) end.

Lemma fire_time_i64 s : is_i64 (fire_time size s).
Proof. apply addCeil_i64. Qed.

Lemma parseTimerKey_timer_key k s :
  is_i64 s -> parseTimerKey (timer_key size (k, s)) = Ok (fire_time size s, k, s).
Proof.
  intros Hs. unfold timer_key. cbn [fst snd].
  apply parseTimerKey_append; [apply fire_time_i64|done].
Qed.

Lemma key_timer_timer_key k s : is_i64 s -> key_timer (timer_key size (k, s)) = (k, s).
Proof. intros Hs. unfold key_timer. by rewrite parseTimerKey_timer_key. Qed.

Lemma key_due_timer_key wm k s :
  is_i64 s -> key_due wm (timer_key size (k, s)) = (fire_time size s <=? wm).
Proof. intros Hs. unfold key_due. rewrite parseTimerKey_timer_key by done. done. Qed.

(** Once past a key that stops the scan, no later key is due. *)
Lemma key_due_stop wm K K' :
  key_shape K -> key_shape K' -> bytes_le K K' ->
  key_due wm K = false -> (forall k s, K <> appendStateKey k s) -> key_due wm K' = false.
Proof.
  intros [(k & s & Hs & ->)|[(k & s & Hs & ->)| ->]] HK' Hle Hd Hns.
  - by destruct (Hns k s).
  - rewrite key_due_timer_key in Hd by done.
    destruct HK' as [(k' & s' & Hs' & ->)|[(k' & s' & Hs' & ->)| ->]]; [done| |done].
    rewrite key_due_timer_key by done.
    unfold timer_key in Hle. cbn [fst snd] in Hle.
    apply appendTimerKey_le in Hle; [lia|apply fire_time_i64..].
  - destruct HK' as [(k' & s' & Hs' & ->)|[(k' & s' & Hs' & ->)| ->]]; done.
Qed.

Lemma due_scan (wm : Z) (l : list (bytes * bytes)) (due : list dueTimer) (m : gmap bytes bytes) :
  StronglySorted bytes_le l.*1 -> Forall key_shape l.*1 ->
  scan (due_visit wm) l (due, None) m =
  ((due ++ ((fun K => due_of (key_timer K)) <$> filter (fun K => key_due wm K = true) l.*1),
    None), m).
Proof.
  revert due. induction l as [|[K v] l IH]; intros due Hs Hsh.
  { cbn. by rewrite app_nil_r. }
  cbn [fmap list_fmap fst] in Hs, Hsh |- *.
  apply StronglySorted_cons in Hs as [HK Hs]. apply Forall_cons in Hsh as [HKs Hsh].
  assert ((forall k s, K <> appendStateKey k s) -> key_due wm K = false ->
    filter (fun K => key_due wm K = true) (K :: l.*1) = []) as Hstop.
  { intros Hns Hd. apply filter_none. intros K' HK' Hin.
    apply elem_of_cons in HK' as [->|HK']; [congruence|].
    rewrite Forall_forall in HK, Hsh.
    rewrite (key_due_stop wm K) in Hin; [done|auto..]. }
  destruct HKs as [(k & s & Hi & ->)|[(k & s & Hi & ->)| ->]].
  - cbn [scan]. change (due_visit wm (appendStateKey k s) v (due, None))
      with (Visit (due, None : option op_error) false true).
    cbn [v_delete v_go v_acc]. rewrite IH by done.
    by rewrite filter_cons_False by done.
  - assert (due_visit wm (timer_key size (k, s)) v (due, None) =
      if wm <? fire_time size s then Visit (due, None) false false
      else Visit (due ++ [due_of (k, s)], None) false true) as Hv.
    { unfold due_visit. rewrite parseTimerKey_timer_key by done. done. }
    cbn [scan]. rewrite Hv. destruct (Z.ltb_spec wm (fire_time size s)) as [Hf|Hf].
    + cbn [v_delete v_go v_acc]. rewrite Hstop; [by rewrite app_nil_r|done|].
      rewrite key_due_timer_key by done. lia.
    + cbn [v_delete v_go v_acc]. rewrite IH by done.
      rewrite filter_cons_True by (rewrite key_due_timer_key by done; lia).
      cbn [fmap list_fmap]. rewrite key_timer_timer_key, <- app_assoc by done. done.
  - cbn [scan]. change (due_visit wm watermarkStateKey v (due, None))
      with (Visit (due, None : option op_error) false false).
    cbn [v_delete v_go v_acc]. rewrite Hstop; [by rewrite app_nil_r|done|done].
Qed.

Lemma due_scan_represents (wm : Z) m (st : store V) :
  represents size enc m st ->
  scan (due_visit wm) (sorted_entries m) ([], None) m =
  ((due_of <$> due_timers st wm, None), m).
Proof.
  intros Hr. pose proof Hr as [Ha Ht Hm Hsh Hai Hti Hmi].
  rewrite due_scan, sorted_entries_fst.
  2:{ rewrite sorted_entries_fst. apply sorted_keys_sorted. }
  2:{ rewrite sorted_entries_fst, Forall_forall.
      intros K HK%elem_of_sorted_keys. by apply Hsh. }
  set (ks := filter _ _). cbn [app].
  rewrite (list_fmap_compose key_timer due_of). do 3 f_equal.
  assert (forall K, K ∈ ks -> exists k s, is_i64 s /\ K = timer_key size (k, s) /\
    (k, s) ∈ timers st /\ fire_time size s <= wm) as Hks.
  { intros K [Hd HK]%list_elem_of_filter.
    apply elem_of_sorted_keys in HK as HK'.
    destruct (Hsh K HK') as [(k & s & Hi & ->)|[(k & s & Hi & ->)| ->]]; [done| |done].
    rewrite key_due_timer_key in Hd by done. exists k, s. split_and!; [done..| |lia].
    rewrite Ht in HK' by done. case_decide; [done|]. by destruct HK'. }
  assert (timer_key size <$> (key_timer <$> ks) = ks) as Hback.
  { rewrite <- list_fmap_compose. etransitivity; [|apply list_fmap_id].
    apply list_fmap_ext.
    intros i K HK%list_elem_of_lookup_2. apply Hks in HK as (k & s & Hi & -> & _).
    cbn. by rewrite key_timer_timer_key. }
  apply due_timers_unique; [done| | |].
  - apply (StronglySorted_fmap_iff bytes_le (timer_key size)). rewrite Hback.
    apply StronglySorted_filter, sorted_keys_sorted.
  - apply (NoDup_fmap_1 (timer_key size)). rewrite Hback.
    apply NoDup_filter, NoDup_sorted_keys.
  - intros [k s]. rewrite list_elem_of_fmap. split.
    + intros (K & E & HK). apply Hks in HK as (k' & s' & Hi & -> & Hin & Hf).
      rewrite key_timer_timer_key in E by done. by injection E as -> ->.
    + intros [Hin Hf]. exists (timer_key size (k, s)). pose proof (Hti k s Hin) as Hi.
      split; [by rewrite key_timer_timer_key|]. apply list_elem_of_filter.
      split; [rewrite key_due_timer_key by done; cbn in Hf; lia|].
      apply elem_of_sorted_keys. rewrite Ht, decide_True by done. eauto.
Qed.
End Due.

(** * The purge *)

Section Purge.
Context (size : Z) {V : Type} (enc : V -> bytes).
Context (pf : bytes -> result op_error bool) (p : bytes * Z -> bool).

(** What the purge decides about the keys that are there. *)
Definition purges (K : bytes) : Prop :=
  forall k s, is_i64 s -> K = appendStateKey k s -> pf K = Ok (p (k, s)).

Definition key_purged (K : bytes) : bool :=
  match K with
  | b :: _ => bool_decide (b = PrefixUserState) &&
      match pf K with Ok d => d | Err _ => false end
  | [] => false
  end.

Local Arguments key_purged : simpl never.

Lemma key_purged_state k s :
  is_i64 s -> purges (appendStateKey k s) -> key_purged (appendStateKey k s) = p (k, s).
Proof. intros Hs Hp. unfold key_purged. by rewrite (Hp k s). Qed.

(** Past the aggregates nothing is purged. *)
Lemma key_purged_stop K K' :
  key_shape size K -> key_shape size K' -> bytes_le K K' ->
  (forall k s, K <> appendStateKey k s) -> key_purged K' = false.
Proof.
  intros [(k & s & Hs & ->)|[(k & s & Hs & ->)| ->]] HK' Hle Hns;
    [by destruct (Hns k s)| |];
    destruct HK' as [(k' & s' & Hs' & ->)|[(k' & s' & Hs' & ->)| ->]]; done.
Qed.

Lemma purge_scan (l : list (bytes * bytes)) (m : gmap bytes bytes) :
  StronglySorted bytes_le l.*1 -> Forall (key_shape size) l.*1 -> Forall purges l.*1 ->
  let out := scan (purge_visit pf) l None m in
  out.1 = None /\
  forall K, out.2 !! K =
    if decide (K ∈ l.*1 /\ key_purged K = true) then None else m !! K.
Proof.
  revert m. induction l as [|[K v] l IH]; intros m Hs Hsh Hpf.
  { cbn. split; [done|]. intros K. rewrite decide_False; [done|].
    by intros [?%elem_of_nil _]. }
  cbn [fmap list_fmap fst] in Hs, Hsh, Hpf |- *.
  apply StronglySorted_cons in Hs as [HK Hs]. apply Forall_cons in Hsh as [HKs Hsh].
  apply Forall_cons in Hpf as [Hpk Hpf].
  assert ((forall k s, K <> appendStateKey k s) ->
    forall K', ~ (K' ∈ K :: l.*1 /\ key_purged K' = true)) as Hstop.
  { intros Hns K' [HK' Hp]. apply elem_of_cons in HK' as [->|HK'].
    - rewrite (key_purged_stop K K) in Hp; [done|done|done|reflexivity|done].
    - rewrite Forall_forall in HK, Hsh.
      rewrite (key_purged_stop K K') in Hp; [done|auto..]. }
  destruct HKs as [(k & s & Hi & ->)|[(k & s & Hi & ->)| ->]].
  - cbn [scan]. assert (purge_visit pf (appendStateKey k s) v None = Visit None (p (k, s)) true) as ->.
    { unfold purge_visit. by rewrite (Hpk k s). }
    cbn [v_delete v_go v_acc].
    destruct (IH (if p (k, s) then delete (appendStateKey k s) m else m)) as [H1 H2]; [done..|].
    split; [done|]. intros K. rewrite H2.
    destruct (decide (K = appendStateKey k s)) as [->|Hne].
    + rewrite key_purged_state by done. destruct (p (k, s)).
      * rewrite (decide_True (P := _ ∈ _ :: _ /\ _)) by (split; [by left|done]).
        case_decide; [done|]. apply lookup_delete_eq.
      * rewrite !decide_False by (intros [_ ?]; done). done.
    + replace ((if p (k, s) then delete (appendStateKey k s) m else m) !! K) with (m !! K)
        by (destruct (p (k, s)); [by rewrite lookup_delete_ne|done]).
      apply decide_ext. rewrite elem_of_cons. naive_solver.
  - cbn [scan]. change (purge_visit pf (timer_key size (k, s)) v None)
      with (Visit (None : option op_error) false false).
    cbn [v_delete v_go v_acc fst snd]. split; [done|]. intros K.
    by rewrite decide_False by (by apply Hstop).
  - cbn [scan]. change (purge_visit pf watermarkStateKey v None)
      with (Visit (None : option op_error) false false).
    cbn [v_delete v_go v_acc fst snd]. split; [done|]. intros K.
    by rewrite decide_False by (by apply Hstop).
Qed.

Lemma purge_scan_represents m (st : store V) :
  represents size enc m st -> (forall t, is_Some (agg st !! t) -> pf (appendStateKey t.1 t.2) = Ok (p t)) ->
  let out := scan (purge_visit pf) (sorted_entries m) None m in
  out.1 = None /\ represents size enc out.2 (purge_keys p st).
Proof.
  intros Hr Hdec. pose proof Hr as [Ha Ht Hm Hsh Hai Hti Hmi].
  assert (forall K, is_Some (m !! K) -> purges K) as Hpf.
  { intros K HK k s Hs ->. apply (Hdec (k, s)). rewrite Ha in HK by done. by apply fmap_is_Some in HK. }
  destruct (purge_scan (sorted_entries m) m) as [H1 H2].
  { rewrite sorted_entries_fst. apply sorted_keys_sorted. }
  { rewrite sorted_entries_fst, Forall_forall.
    intros K HK%elem_of_sorted_keys. by apply Hsh. }
  { rewrite sorted_entries_fst, Forall_forall. intros K HK%elem_of_sorted_keys. by apply Hpf. }
  rewrite sorted_entries_fst in H2. cbn zeta. split; [done|].
  generalize dependent (scan (purge_visit pf) (sorted_entries m) None m).
  intros [r m'] _ H2. cbn in H2 |- *.
  assert (forall K, key_purged K = false -> m' !! K = m !! K) as Hsame.
  { intros K HK. rewrite H2, decide_False; [done|]. intros [_ ?]. congruence. }
  split; cbn [agg timers mark purge_keys]; try done.
  - intros k s Hs. rewrite H2, map_lookup_filter. pose proof (Ha k s Hs) as HK.
    destruct (agg st !! (k, s)) as [c|] eqn:Ec; cbn [fmap option_fmap option_map mbind option_bind] in HK |- *.
    2:{ by case_decide. }
    rewrite key_purged_state by (try apply Hpf; eauto). cbn. destruct (p (k, s)).
    + rewrite option_guard_False, decide_True by first [done|split; [by apply elem_of_sorted_keys; eauto|done]]. done.
    + rewrite option_guard_True, decide_False by first [done|by intros [_ ?]]. exact HK.
  - intros k s Hs. by rewrite Hsame, Ht.
  - by rewrite Hsame.
  - intros K [v HK]. apply Hsh. rewrite H2 in HK. case_decide; [done|]. eauto.
  - intros k s v [HK _]%map_lookup_filter_Some. by eapply Hai.
Qed.
End Purge.

(** * The accesses, over the in-process backend *)

Section Accesses.
Context (size : Z) {V : Type} (enc : V -> bytes).

(** The operator's state represents a store; its counters and output are
    [same] when only the state changed. *)
Definition rep (o : OpState Memory) (st : store V) : Prop :=
  represents size enc (entries (op_state o)) st.

Definition same_rest (o o' : OpState Memory) : Prop :=
  op_dropped o' = op_dropped o /\ op_onTime o' = op_onTime o /\ op_out o' = op_out o.

#[export] Instance same_rest_refl : Reflexive same_rest.
Proof. by intros o. Qed.
#[export] Instance same_rest_trans : Transitive same_rest.
Proof. intros o1 o2 o3 (? & ? & ?) (? & ? & ?). unfold same_rest. intuition congruence. Qed.

Lemma same_rest_set_state s o : same_rest o (set_state s o).
Proof. done. Qed.

Lemma set_state_id (o : OpState Memory) : set_state (op_state o) o = o.
Proof. by destruct o. Qed.

Lemma st_get_mem k (o : OpState Memory) : st_get k o = (Ok (entries (op_state o) !! k), o).
Proof. unfold st_get. cbn. by rewrite set_state_id. Qed.

Lemma st_iterate_mem {A} (fn : bytes -> bytes -> A -> Memory -> bool * (A * Memory))
    (f : bytes -> bytes -> A -> visit A) a (o : OpState Memory) :
  (forall k v a s, fn k v a s = contract_cb f k v a s) ->
  let m := entries (op_state o) in
  st_iterate fn a o =
  (Ok (scan f (sorted_entries m) a m).1,
   set_state {| entries := (scan f (sorted_entries m) a m).2 |} o).
Proof.
  intros Hfn. unfold st_iterate. cbn [ks_iterate Memory_KeyedState].
  destruct (ks_iterate_ok fn f a (op_state o) Hfn eq_refl) as [H1 H2].
  cbn in H1, H2. destruct (Memory_Iterate fn a (op_state o)) as [r [m']].
  cbn in H1, H2. by subst.
Qed.

Lemma loadWatermark_rep o st : rep o st -> loadWatermark o = (Ok (watermark st), o).
Proof.
  intros Hr. unfold loadWatermark, mbind, Op_bind, M_bind. rewrite st_get_mem.
  rewrite (rep_mark _ _ _ _ Hr). unfold watermark.
  pose proof (rep_mark_i64 _ _ _ _ Hr) as Hi.
  destruct (mark st) as [wm|]; [|done]. cbn [fmap option_fmap option_map default].
  rewrite length_EncodeOrderedInt64. rewrite Nat.ltb_irrefl.
  rewrite <- (app_nil_r (EncodeOrderedInt64 wm)), DecodeOrderedInt64_Encode by auto.
  done.
Qed.

Lemma storeWatermark_rep wm o st :
  is_i64 wm -> rep o st ->
  exists o', storeWatermark wm o = (Ok tt, o') /\ rep o' (set_mark wm st) /\ same_rest o o'.
Proof. intros Hwm Hr. eexists. split; [done|]. split; [by apply represents_set_mark|done]. Qed.

Lemma get_agg_rep k s o st :
  is_i64 s -> rep o st -> st_get (appendStateKey k s) o = (Ok (enc <$> agg st !! (k, s)), o).
Proof. intros Hs Hr. by rewrite st_get_mem, (rep_agg _ _ _ _ Hr). Qed.

Lemma put_agg_rep k s v o st :
  is_i64 s -> rep o st ->
  exists o', st_put (appendStateKey k s) (enc v) o = (Ok tt, o') /\
    rep o' (set_agg k s v st) /\ same_rest o o'.
Proof. intros Hs Hr. eexists. split; [done|]. split; [by apply represents_set_agg|done]. Qed.

Lemma put_timer_rep k s o st :
  is_i64 s -> rep o st ->
  exists o', st_put (appendTimerKey (fire_time size s) k s) [] o = (Ok tt, o') /\
    rep o' (add_timer k s st) /\ same_rest o o'.
Proof. intros Hs Hr. eexists. split; [done|]. split; [by apply (represents_add_timer size)|done]. Qed.

Lemma delete_timer_rep k s o st :
  is_i64 s -> rep o st ->
  exists o', st_delete (timer_key size (k, s)) o = (Ok tt, o') /\
    rep o' (del_timer k s st) /\ same_rest o o'.
Proof. intros Hs Hr. eexists. split; [done|]. split; [by apply represents_del_timer|done]. Qed.

Lemma collectDue_rep wm o st :
  rep o st -> collectDue wm o = (Ok (due_of size <$> due_timers size st wm), o).
Proof.
  intros Hr. unfold collectDue, mbind, Op_bind, M_bind.
  rewrite (st_iterate_mem _ (due_visit wm)) by (intros; apply due_cb_contract).
  rewrite (due_scan_represents _ _ _ _ _ Hr). cbn.
  replace {| entries := entries (op_state o) |} with (op_state o) by (by destruct (op_state o)).
  by rewrite set_state_id.
Qed.

Lemma purgeWindows_rep pf p o st :
  (forall t, is_Some (agg st !! t) -> pf (appendStateKey t.1 t.2) = Ok (p t)) -> rep o st ->
  exists o', purgeWindows pf o = (Ok tt, o') /\ rep o' (purge_keys p st) /\ same_rest o o'.
Proof.
  intros Hpf Hr. unfold purgeWindows, mbind, Op_bind, M_bind.
  rewrite (st_iterate_mem _ (purge_visit pf)) by (intros; apply purge_cb_contract).
  destruct (purge_scan_represents size enc pf p _ _ Hr Hpf) as [-> Hr'].
  eexists. split; [done|]. done.
Qed.
End Accesses.
