(* ===== verification/Window.v ===== *)
(** The event-time window count ([pkg/operators/window.go]), over any keyed
    state. *)
From S2P Require Import Prelude Core State Operators WindowStore.

(** * The operator *)

Record WindowCount := NewWindowCount {
  size : Z;
  slide : Z;
  allowedLateness : Z;
}.

(** The constructors; a bad specification panics. *)
Definition NewSlidingCount (size slide allowedLateness : Z) : option WindowCount :=
  if size <=? 0 then None
  else if slide <=? 0 then None
  else if negb (Z.rem size slide =? 0) then None
  else if allowedLateness <? 0 then None
  else Some (NewWindowCount size slide allowedLateness).

Definition NewTumblingCount (size allowedLateness : Z) : option WindowCount :=
  NewSlidingCount size size allowedLateness.

Section Code.
Context (w : WindowCount).

Definition fireTimeOf (start : Z) : Z := addCeil start (size w - 1).

(** [for n := size / slide; n > 0; n--], stopping where subtraction has
    saturated. *)
Fixpoint windows_loop (n : nat) (start : Z) : list Z :=
  match n with
  | O => []
  | S n =>
      let next := subFloor start (slide w) in
      start :: (if next =? start then [] else windows_loop n next)
  end.

Definition windowsFor (eventTime : Z) : list Z :=
  let start := subFloor eventTime (floorMod eventTime (slide w)) in
  windows_loop (Z.to_nat (Z.quot (size w) (slide w))) start.

Definition isPurged (watermark start : Z) : bool :=
  addCeil (addCeil start (size w)) (allowedLateness w) <? watermark.

Context {S SE : Type} `{KeyedState S SE}.

Definition currentWatermark : Op S Z :=
  v ← st_get watermarkStateKey;
  match v with
  | None => mret minWatermark
  | Some v =>
      if (length v <? OrderedInt64Bytes)%nat then fail ErrStoredWatermark
      else mret (DecodeOrderedInt64 v)
  end.

Definition setWatermark (wm : Z) : Op S unit :=
  st_put watermarkStateKey (EncodeOrderedInt64 wm).

Definition currentCount (stateKey : bytes) : Op S Z :=
  v ← st_get stateKey;
  match v with
  | None => mret 0
  | Some v => lift (DecodeCount v)
  end.

(** The body of the loop over the windows of a record. *)
Definition processWindow (watermark : Z) (rec : Record_) (start : Z) : Op S unit :=
  if isPurged watermark start then incr_dropped
  else
    let keyBuf := appendStateKey (Key rec) start in
    count ← currentCount keyBuf;
    _ ← st_put keyBuf (put_uint64 (add64 count 1));
    st_put (appendTimerKey (fireTimeOf start) (Key rec) start) [].

Definition ProcessElement (rec : Record_) : Op S unit :=
  watermark ← currentWatermark;
  for_each (processWindow watermark rec) (windowsFor (EventTime rec)).

(** [fire]: an aggregate that is not there is an error. *)
Definition fire (key : bytes) (start : Z) : Op S unit :=
  value ← st_get (appendStateKey key start);
  match value with
  | None => fail ErrFiredWithNoState
  | Some value =>
      count ← lift (DecodeCount value);
      emit (NewRecord key (encodeCount count) (fireTimeOf start))
  end.

Definition collectDueTimers (wm : Z) : Op S (list dueTimer) :=
  a ← st_iterate (due_cb wm) ([], None);
  match a.2 with
  | Some e => fail e
  | None => mret a.1
  end.

(** What [purge] decides about an aggregate's key. *)
Definition purgedKey (watermark : Z) (stateKey : bytes) : result op_error bool :=
  match windowStartOf stateKey with
  | Err e => Err e
  | Ok start => Ok (isPurged watermark start)
  end.

Definition purge (watermark : Z) : Op S unit :=
  err ← st_iterate (purge_cb (purgedKey watermark)) None;
  match err with
  | Some e => fail e
  | None => mret tt
  end.

Definition ProcessWatermark (wm : Z) : Op S unit :=
  _ ← setWatermark wm;
  due ← collectDueTimers wm;
  _ ← for_each (fun t =>
        _ ← st_delete (stateKey t);
        fire (key t) (windowStart t)) due;
  purge wm.

(** The windows still open at end of input are fired by the final watermark,
    so there is nothing left to do. *)
Definition OnEndOfStream : Op S unit := mret tt.
End Code.

(** The operator. Snapshots go through the keyed state, so it refuses both. *)
Definition WindowCount_Operator (w : WindowCount) : Operator := {|
  o_Open := needs_state;
  o_ProcessElement S SE _ := ProcessElement w;
  o_ProcessWatermark S SE _ := ProcessWatermark w;
  o_OnEndOfStream S SE _ := OnEndOfStream;
  o_Snapshot := Err ErrNotSnapshottable;
  o_Restore _ := Err ErrNotSnapshottable;
  o_Close := Ok tt;
|}.

(** * Backend independence of the operator *)

Section Refines.
Context (w : WindowCount) {S SE : Type} `{KeyedStateLaws S SE}.

Lemma refines_ProcessElement rec :
  refines (ProcessElement w rec : Op S _) (ProcessElement w rec).
Proof.
  unfold ProcessElement, currentWatermark, processWindow, currentCount. refine_tac.
Qed.

Lemma refines_ProcessWatermark wm :
  refines (ProcessWatermark w wm : Op S _) (ProcessWatermark w wm).
Proof.
  unfold ProcessWatermark, setWatermark, fire.
  change (collectDueTimers (S := S)) with (collectDue (S := S)).
  change (collectDueTimers (S := Memory)) with (collectDue (S := Memory)).
  change (purge w (S := S) wm) with (purgeWindows (S := S) (purgedKey w wm)).
  change (purge w (S := Memory) wm) with (purgeWindows (S := Memory) (purgedKey w wm)).
  refine_tac.
Qed.
End Refines.

#[export] Instance WindowCount_OperatorLaws w : OperatorLaws (WindowCount_Operator w).
Proof.
  split; intros; cbn; [apply refines_ProcessElement|apply refines_ProcessWatermark|apply refines_ret].
Qed.
