(* ===== verification/WindowRun.v ===== *)
(** Operators that aggregate by key and window: what they promise, as an
    abstract store of aggregates and pending timers, and what a run of one emits
    over a stream in which no record is behind a watermark. The window counts
    and the maximum bids are instances. *)
From S2P Require Import Prelude Core State Operators WindowStore Window.

(** * Runs *)

(** What a subtask delivers to its operator. *)
Inductive event :=
| EvElement (rec : Record_)
| EvWatermark (wm : Z).

Definition run_event {S SE} `{KeyedState S SE} (op : Operator) (e : event) : Op S unit :=
  match e with
  | EvElement rec => o_ProcessElement op rec
  | EvWatermark wm => o_ProcessWatermark op wm
  end.

Definition run_events {S SE} `{KeyedState S SE} (op : Operator) (l : list event) : Op S unit :=
  for_each (run_event op) l.

(** The operator as [Open] finds it, over a fresh state. *)
Definition fresh_op {S} (s : S) : OpState S := MkOp s 0 0 [].

Definition event_record (e : event) : list Record_ :=
  match e with EvElement rec => [rec] | EvWatermark _ => [] end.

Lemma refines_run_events op `{!OperatorLaws op} {S SE} `{KeyedStateLaws S SE} l :
  refines (run_events op l : Op S _) (run_events op l).
Proof. apply refines_for_each. intros [rec|wm]; [apply ol_element|apply ol_watermark]. Qed.

(** * Specifications of windows *)

(** The specifications the constructor accepts. *)
Record spec_wf (w : WindowCount) : Prop := {
  wf_size : 0 < size w <= max_int64;
  wf_slide : 0 < slide w <= max_int64;
  wf_multiple : (slide w | size w);
  wf_lateness : 0 <= allowedLateness w <= max_int64;
}.

Section Facts.
Context (w : WindowCount) (Hw : spec_wf w).

Lemma fireTimeOf_fire_time s : fireTimeOf w s = fire_time (size w) s.
Proof. done. Qed.

Lemma size_i64 : is_i64 (size w) /\ is_i64 (size w - 1) /\ is_i64 (slide w) /\
  is_i64 (allowedLateness w).
Proof. destruct Hw. unfold_ints. lia. Qed.

Lemma fireTimeOf_spec s :
  is_i64 s -> fireTimeOf w s = Z.min (s + size w - 1) max_int64.
Proof.
  intros Hs. pose proof size_i64. destruct Hw. unfold fireTimeOf.
  rewrite addCeil_spec; [f_equal; lia|tauto..|lia].
Qed.

Lemma isPurged_spec wm s :
  is_i64 s -> isPurged w wm s = true <->
  Z.min (s + size w + allowedLateness w) max_int64 < wm.
Proof.
  intros Hs. pose proof size_i64. destruct Hw. unfold isPurged.
  rewrite (addCeil_spec s) by (tauto || lia).
  rewrite addCeil_spec; [|unfold_ints; lia|tauto|lia].
  rewrite Z.ltb_lt. lia.
Qed.

(** A window whose timer is pending is not purged. *)
Lemma not_due_not_purged wm s :
  is_i64 s -> wm < fireTimeOf w s -> isPurged w wm s = false.
Proof.
  intros Hs Hf. rewrite fireTimeOf_spec in Hf by done.
  destruct (isPurged w wm s) eqn:E; [|done].
  apply isPurged_spec in E; [|done]. destruct Hw. lia.
Qed.

Lemma windows_loop_i64 n s : is_i64 s -> Forall is_i64 (windows_loop w n s).
Proof.
  revert s. induction n as [|n IH]; intros s Hs; [constructor|].
  cbn [windows_loop]. constructor; [done|].
  case_match; [constructor|]. apply IH, subFloor_i64.
Qed.

Lemma windowsFor_i64 t : Forall is_i64 (windowsFor w t).
Proof. apply windows_loop_i64, subFloor_i64. Qed.

(** A time is far enough from the ends of the [int64] range for its windows to
    be representable. *)
Definition time_ok (t : Z) : Prop := min_int64 + size w <= t <= max_int64 - size w.

(** No record is behind a watermark that came before it, [front] being the
    highest so far, and times are away from the ends of the range. Watermarks may
    go back: those of a job that resumed from a checkpoint do. *)
Fixpoint in_time (front : Z) (l : list event) : Prop :=
  match l with
  | [] => True
  | EvElement rec :: l =>
      front < EventTime rec /\ time_ok (EventTime rec) /\ in_time front l
  | EvWatermark wm :: l => is_i64 wm /\ in_time (Z.max front wm) l
  end.

(** The highest watermark of a stream. *)
Definition front_of (front : Z) (l : list event) : Z :=
  foldl (fun a e => match e with EvWatermark wm => Z.max a wm | EvElement _ => a end) front l.

(** Closing a stream with the final watermark. *)
Lemma in_time_close front l : in_time front l -> in_time front (l ++ [EvWatermark max_int64]).
Proof.
  revert front. induction l as [|[rec|wm] l IH]; intros front Hl; cbn in *.
  - split; [unfold_ints; lia|done].
  - destruct Hl as (? & ? & ?). auto.
  - destruct Hl as (? & ?). auto.
Qed.

Lemma front_of_ge front l : front <= front_of front l.
Proof.
  revert front. induction l as [|[rec|wm] l IH]; intros front; cbn; [lia|apply IH|].
  specialize (IH (Z.max front wm)). unfold front_of in *. lia.
Qed.
End Facts.

(** * The abstract operator *)

(** One change to an aggregate, and a whole record's. *)
Definition update (V : Type) : Type := (bytes * Z) * (option V -> V).

Definition apply_update {V} (m : gmap (bytes * Z) V) (u : update V) : gmap (bytes * Z) V :=
  <[u.1 := u.2 (m !! u.1)]> m.

Definition abs_update {V} (st : store V) (u : update V) : store V :=
  add_timer u.1.1 u.1.2 (MkStore (apply_update (agg st) u) (timers st) (mark st)).

(** What a watermark leaves: fired windows stay until they are purged. *)
Definition abs_watermark {V} (w : WindowCount) (wm : Z) (st : store V) : store V :=
  purge_agg (isPurged w wm)
    (MkStore (agg st)
       (filter (fun t => ~ fireTimeOf w t.2 <= wm) (timers st)) (Some wm)).

(** What it emits: the windows due, each with its aggregate. *)
Definition abs_emits {V} (w : WindowCount) (d : V) (row : (bytes * Z) * V -> Record_)
    (wm : Z) (st : store V) : list Record_ :=
  (fun t => row (t, default d (agg st !! t))) <$> due_timers (size w) st wm.

(** Well-formed stores: a pending timer has its aggregate, and aggregates are
    what the encoding can hold. *)
Record store_wf {V} (okv : bytes * Z -> V -> Prop) (st : store V) : Prop := {
  wf_timer_agg t : t ∈ timers st -> is_Some (agg st !! t);
  wf_ok t v : agg st !! t = Some v -> okv t v;
}.

Lemma store_wf_empty {V} (okv : bytes * Z -> V -> Prop) : store_wf okv empty_store.
Proof. split; cbn; [set_solver|]. intros t v. by rewrite lookup_empty. Qed.

Section Store.
Context (w : WindowCount) (Hw : spec_wf w) {V : Type} (okv : bytes * Z -> V -> Prop).
Implicit Types st : store V.

Lemma store_wf_update u st : okv u.1 (u.2 (agg st !! u.1)) -> store_wf okv st -> store_wf okv (abs_update st u).
Proof.
  intros Hok [Hta Hc]. destruct u as [[k s] f]. split; cbn in *.
  - intros t [->%elem_of_singleton|Ht]%elem_of_union.
    + unfold apply_update. rewrite lookup_insert_eq. eauto.
    + unfold apply_update. rewrite lookup_insert. case_decide; eauto.
  - intros t c. unfold apply_update. rewrite lookup_insert. cbn. case_decide; [|eauto]. by intros [= <-]; subst.
Qed.

Lemma store_wf_del k s st : store_wf okv st -> store_wf okv (del_timer k s st).
Proof.
  intros [Hta Hc]. split; cbn; [|done].
  intros t [Ht _]%elem_of_difference. auto.
Qed.

Lemma store_wf_watermark wm st :
  (forall k s, (k, s) ∈ timers st -> is_i64 s) ->
  store_wf okv st -> store_wf okv (abs_watermark w wm st).
Proof.
  intros Hi [Hta Hc]. split; cbn.
  - intros [k s] [Hf Ht]%elem_of_filter. destruct (Hta _ Ht) as [c Hcs].
    exists c. apply map_lookup_filter_Some. split; [done|]. cbn.
    apply not_due_not_purged; [done|by eapply Hi|cbn in Hf; lia].
  - intros t c [Ht _]%map_lookup_filter_Some. eauto.
Qed.
End Store.

(** ** Firing, over the in-process backend *)

Section Fire.
Context (w : WindowCount) (Hw : spec_wf w) {V : Type} (enc : V -> bytes) (d : V).
Context (row : (bytes * Z) * V -> Record_) (okv : bytes * Z -> V -> Prop).
Context (fire : bytes -> Z -> Op Memory unit) (pf : bytes -> result op_error bool) (wm : Z).

Local Abbreviation rep := (rep (size w) enc).
Local Abbreviation store_wf := (store_wf okv).

(** What the operator does for a timer, and what its purge decides. *)
Context (fire_rep : forall k s v o st, is_i64 s -> rep o st -> agg st !! (k, s) = Some v -> okv (k, s) v ->
  fire k s o = (Ok tt, MkOp (op_state o) (op_dropped o) (op_onTime o) (op_out o ++ [row ((k, s), v)]))).
Context (pf_ok : forall k s, is_i64 s -> pf (appendStateKey k s) = Ok (isPurged w wm s)).

Definition fire_one (t : dueTimer) : Op Memory unit :=
  _ ← st_delete (stateKey t); fire (key t) (windowStart t).

(** The whole of a watermark, in the shape every operator of this kind has. *)
Definition fire_due : Op Memory unit :=
  _ ← storeWatermark wm;
  due ← collectDue wm;
  _ ← for_each fire_one due;
  purgeWindows pf.

Lemma fire_one_rep k s o st :
  is_i64 s -> store_wf st -> rep o st -> is_Some (agg st !! (k, s)) ->
  exists o', fire_one (due_of (size w) (k, s)) o = (Ok tt, o') /\
    rep o' (del_timer k s st) /\ op_dropped o' = op_dropped o /\
    op_out o' = op_out o ++ [row ((k, s), default d (agg st !! (k, s)))].
Proof.
  intros Hs Hwf Hr [c Hc]. unfold fire_one, mbind, Op_bind, M_bind.
  destruct (delete_timer_rep _ _ k s _ _ Hs Hr) as (o1 & E1 & Hr1 & Hd1 & _ & Ho1).
  change (stateKey (due_of (size w) (k, s))) with (timer_key (size w) (k, s)). rewrite E1.
  change (key (due_of (size w) (k, s))) with k.
  change (windowStart (due_of (size w) (k, s))) with s.
  rewrite (fire_rep k s c _ _ Hs Hr1) by (done || by eapply wf_ok).
  eexists. split; [done|]. cbn. by rewrite Ho1, Hc.
Qed.

Lemma fire_loop_rep l o st :
  store_wf st -> rep o st ->
  (forall t, t ∈ l -> is_i64 t.2 /\ is_Some (agg st !! t)) ->
  exists o', for_each fire_one (due_of (size w) <$> l) o = (Ok tt, o') /\
    rep o' (MkStore (agg st) (timers st ∖ list_to_set l) (mark st)) /\
    op_dropped o' = op_dropped o /\
    op_out o' = op_out o ++ ((fun t => row (t, default d (agg st !! t))) <$> l).
Proof.
  revert o st. induction l as [|[k s] l IH]; intros o st Hwf Hr Hl.
  { exists o. split_and!; [done| |done|by rewrite app_nil_r].
    replace (timers st ∖ list_to_set []) with (timers st) by set_solver. by destruct st. }
  destruct (Hl (k, s)) as [Hs Hk]; [by left|]. cbn [snd] in Hs.
  destruct (fire_one_rep k s o st Hs Hwf Hr Hk) as (o1 & E1 & Hr1 & Hd1 & Ho1).
  destruct (IH o1 (del_timer k s st)) as (o2 & E2 & Hr2 & Hd2 & Ho2);
    [by apply store_wf_del|done|intros t Ht; apply Hl; by right|].
  exists o2. cbn [fmap list_fmap]. rewrite for_each_cons, E1, E2.
  split_and!; [done| |congruence|].
  - cbn in Hr2. replace (timers st ∖ list_to_set ((k, s) :: l))
      with ((timers st ∖ {[(k, s)]}) ∖ list_to_set l) by set_solver. done.
  - rewrite Ho2, Ho1, <- app_assoc. done.
Qed.

Lemma fire_due_rep o st :
  is_i64 wm -> store_wf st -> rep o st ->
  exists o', fire_due o = (Ok tt, o') /\
    rep o' (abs_watermark w wm st) /\ op_dropped o' = op_dropped o /\
    op_out o' = op_out o ++ abs_emits w d row wm st /\ store_wf (abs_watermark w wm st).
Proof.
  intros Hwm Hwf Hr. unfold fire_due, mbind, Op_bind, M_bind.
  destruct (storeWatermark_rep _ _ wm _ _ Hwm Hr) as (o1 & E1 & Hr1 & Hd1 & _ & Ho1). rewrite E1.
  rewrite (collectDue_rep _ _ wm _ _ Hr1).
  assert (store_wf (set_mark wm st)) as Hwf1 by (by destruct Hwf).
  destruct (fire_loop_rep (due_timers (size w) (set_mark wm st) wm) o1 _ Hwf1 Hr1)
    as (o2 & E2 & Hr2 & Hd2 & Ho2).
  { intros [k s] [Ht _]%elem_of_due_timers. split; [by eapply (rep_timer_i64 _ _ _ _ Hr)|].
    by apply Hwf. }
  rewrite E2.
  assert (forall t, is_Some (agg st !! t) -> pf (appendStateKey t.1 t.2) = Ok (isPurged w wm t.2)) as Hdec.
  { intros [k s] [c Hc]. apply pf_ok. by eapply (rep_agg_i64 _ _ _ _ Hr). }
  destruct ((fun H => purgeWindows_rep _ _ pf (fun t => isPurged w wm t.2) _ _ H Hr2) Hdec)
    as (o3 & E3 & Hr3 & Hd3 & _ & Ho3). exists o3.
  split_and!; [done| |congruence|by rewrite Ho3, Ho2, Ho1|].
  - replace (abs_watermark w wm st) with (purge_agg (isPurged w wm)
      (MkStore (agg st) (timers st ∖ list_to_set (due_timers (size w) (set_mark wm st) wm))
        (Some wm))); [done|].
    unfold abs_watermark. do 2 f_equal. apply set_eq. intros t.
    rewrite elem_of_difference, elem_of_list_to_set, elem_of_due_timers, elem_of_filter.
    cbn. unfold fireTimeOf, fire_time. tauto.
  - apply store_wf_watermark; [done| |done]. apply (rep_timer_i64 _ _ _ _ Hr).
Qed.
End Fire.

(** * The run of an operator that aggregates by window

    [run_inv]: past the highest watermark so far the aggregates are those of the
    whole stream and their timers are pending; the windows up to it have fired,
    and are what has been emitted. *)

Section Inv.
Context (w : WindowCount) (Hw : spec_wf w) {V : Type} (d : V) (row : (bytes * Z) * V -> Record_).

Definition fired (wmk : Z) (kv : (bytes * Z) * V) : Prop := fireTimeOf w kv.1.2 <= wmk.

#[local] Instance fired_dec wmk kv : Decision (fired wmk kv) := Z_le_dec _ _.

Record run_inv (front : Z) (total : gmap (bytes * Z) V) (st : store V) (out : list Record_) : Prop := {
  ri_front : watermark st <= front;
  ri_start t v : total !! t = Some v -> is_i64 t.2;
  ri_agg t : front < fireTimeOf w t.2 -> agg st !! t = total !! t;
  ri_timer t : t ∈ timers st <-> front < fireTimeOf w t.2 /\ is_Some (total !! t);
  ri_out : out ≡ₚ row <$> map_to_list (filter (fired front) total);
}.

Lemma run_inv_empty : run_inv min_int64 ∅ empty_store [].
Proof.
  split; cbn; [done| |done| |].
  - intros t v. by rewrite lookup_empty.
  - intros t. rewrite lookup_empty. split; [set_solver|]. by intros [_ [? ?]].
  - by rewrite map_filter_empty, map_to_list_empty.
Qed.

Lemma run_inv_update front total st out u :
  is_i64 u.1.2 -> front < fireTimeOf w u.1.2 -> run_inv front total st out ->
  run_inv front (apply_update total u) (abs_update st u) out.
Proof.
  intros Hs Hf [Hm Hi Ha Ht Ho].
  destruct u as [t f]. destruct t as [k s] eqn:Et. rewrite <- Et in *. cbn [fst snd] in Hs, Hf.
  unfold apply_update. split; cbn [fst snd]; [done|..].
  - intros t' v [[<- _]|[_ ?]]%lookup_insert_Some; [by subst|by eapply Hi].
  - intros t' Hf'. cbn. unfold apply_update. cbn [fst snd]. rewrite (Ha t) by (by subst).
    destruct (decide (t = t')) as [<-|E]; [by rewrite !lookup_insert_eq|].
    rewrite !lookup_insert_ne by done. by apply Ha.
  - intros t'. cbn. replace (t.1, t.2) with t by (by subst). rewrite elem_of_union, elem_of_singleton, Ht.
    destruct (decide (t = t')) as [<-|E].
    + rewrite lookup_insert_eq. split; [intros _|auto]. subst. split; [done|eauto].
    + rewrite lookup_insert_ne by done. split; [intros [?|?]; [congruence|done]|auto].
  - rewrite map_filter_insert_False; [|unfold fired; subst; cbn in *; lia].
    rewrite map_filter_delete_not; [done|]. intros y _. unfold fired. subst. cbn in *. lia.
Qed.

Lemma run_inv_updates front total st out l :
  Forall (fun u : update V => is_i64 u.1.2 /\ front < fireTimeOf w u.1.2) l -> run_inv front total st out ->
  run_inv front (foldl apply_update total l) (foldl abs_update st l) out.
Proof.
  revert total st. induction l as [|u l IH]; intros total st Hl Hinv; [done|].
  apply Forall_cons in Hl as [[Hs Hf] Hl]. cbn [foldl].
  apply (IH _ (abs_update st u)); [exact Hl|]. by apply run_inv_update.
Qed.

(** What a watermark fires are the aggregates past the highest so far. *)
Lemma emitted_rows front wm total st out :
  run_inv front total st out ->
  map_to_list (filter (fired (Z.max front wm)) total) ≡ₚ
  map_to_list (filter (fired front) total) ++
  ((fun t => (t, default d (agg st !! t))) <$> due_timers (size w) st wm).
Proof.
  intros [_ Hi Ha Ht _]. apply NoDup_Permutation.
  - apply NoDup_map_to_list.
  - apply NoDup_app. split_and!; [apply NoDup_map_to_list| |].
    + intros [[k s] c] Hx Hy. apply elem_of_map_to_list, map_lookup_filter_Some in Hx as [_ Hx].
      apply list_elem_of_fmap in Hy as (t & [= <- _] & [Ht' _]%elem_of_due_timers).
      apply Ht in Ht' as [Hlt _]. unfold fired in Hx. cbn in *. lia.
    + apply NoDup_fmap_2; [|apply NoDup_due_timers]. intros t1 t2 E. by injection E.
  - intros [t c]. rewrite elem_of_app, !elem_of_map_to_list, !map_lookup_filter_Some.
    rewrite list_elem_of_fmap. unfold fired. cbn [fst snd]. split.
    + intros [Hc Hf].
      destruct (Z.le_gt_cases (fireTimeOf w t.2) front) as [?|Hgt]; [by left|right].
      exists t. rewrite Ha by lia. rewrite Hc. split; [done|].
      apply elem_of_due_timers. split; [apply Ht; split; [lia|eauto]|unfold fireTimeOf, fire_time in *; lia].
    + intros [[Hc Hf]|(t' & [= <- ->] & [Hdue Hf]%elem_of_due_timers)]; [split; [done|lia]|].
      apply Ht in Hdue as [Hlt [c Hc]]. rewrite Ha, Hc by lia. split; [done|].
      unfold fireTimeOf, fire_time in *. cbn. lia.
Qed.

Lemma run_inv_watermark front wm total st out :
  run_inv front total st out ->
  run_inv (Z.max front wm) total (abs_watermark w wm st) (out ++ abs_emits w d row wm st).
Proof.
  intros Hinv. pose proof (emitted_rows front wm _ _ _ Hinv) as Hp.
  destruct Hinv as [Hm Hi Ha Ht Ho].
  split; [change (watermark (abs_watermark w wm st)) with wm; lia|done|..].
  - intros t Hf. cbn. rewrite <- (Ha t) by lia. apply option_eq. intros c.
    rewrite map_lookup_filter_Some. cbn. split; [by intros [? _]|].
    intros Hc. split; [done|]. apply not_due_not_purged; [done| |lia].
    rewrite Ha in Hc by lia. by eapply Hi.
  - intros t. cbn. rewrite elem_of_filter, Ht. cbn.
    split; [intros (? & ? & ?)|intros (? & ?)]; split_and?; try done; lia.
  - rewrite Hp, fmap_app, Ho. apply Permutation_app_head.
    unfold abs_emits. by rewrite <- list_fmap_compose.
Qed.

Lemma fired_above (front : Z) (total : gmap (bytes * Z) V) :
  max_int64 <= front -> filter (fired front) total = total.
Proof.
  intros Hf. apply map_filter_id. intros [k s] c _. unfold fired, fireTimeOf. cbn.
  pose proof (addCeil_i64 s (size w - 1)) as [_ Hle]. lia.
Qed.
End Inv.

(** ** The interface *)

(** An operator that aggregates by key and window: what it makes of a record and
    of a watermark, when the windows they belong to are open. *)
Record Windowed (op : Operator) (w : WindowCount) (V : Type) := MkWindowed {
  wd_enc : V -> bytes;
  wd_default : V;
  wd_row : (bytes * Z) * V -> Record_;
  wd_ok : bytes * Z -> V -> Prop;
  wd_valid : Record_ -> Prop;
  wd_updates : Record_ -> list (update V);
  wd_wf : spec_wf w;
  wd_pending rec u : wd_valid rec -> time_ok w (EventTime rec) -> u ∈ wd_updates rec ->
    is_i64 u.1.2 /\ EventTime rec <= fireTimeOf w u.1.2;
  wd_element rec o st : wd_valid rec -> store_wf wd_ok st -> rep (size w) wd_enc o st ->
    Forall (fun u => is_i64 u.1.2 /\ watermark st < fireTimeOf w u.1.2) (wd_updates rec) ->
    let st' := foldl abs_update st (wd_updates rec) in
    exists o', o_ProcessElement op rec o = (Ok tt, o') /\ rep (size w) wd_enc o' st' /\
      op_dropped o' = op_dropped o /\ op_out o' = op_out o /\ store_wf wd_ok st';
  wd_watermark wm o st : is_i64 wm -> store_wf wd_ok st -> rep (size w) wd_enc o st ->
    let st' := abs_watermark w wm st in
    exists o', o_ProcessWatermark op wm o = (Ok tt, o') /\ rep (size w) wd_enc o' st' /\
      op_dropped o' = op_dropped o /\
      op_out o' = op_out o ++ abs_emits w wd_default wd_row wm st /\ store_wf wd_ok st';
  wd_end (o : OpState Memory) : o_OnEndOfStream op o = (Ok tt, o);
  wd_open : o_Open op true = Ok tt;
  wd_close : o_Close op = Ok tt;
}.
Arguments wd_enc {op w V}.
Arguments wd_default {op w V}.
Arguments wd_row {op w V}.
Arguments wd_ok {op w V}.
Arguments wd_valid {op w V}.
Arguments wd_updates {op w V}.
Arguments wd_wf {op w V}.
Arguments wd_pending {op w V}.
Arguments wd_element {op w V}.
Arguments wd_watermark {op w V}.
Arguments wd_end {op w V}.
Arguments wd_open {op w V}.
Arguments wd_close {op w V}.

Section WindowedRun.
Context {op : Operator} {w : WindowCount} {V : Type} (I : Windowed op w V).

(** The aggregates of a whole stream. *)
Definition total (recs : list Record_) (m : gmap (bytes * Z) V) : gmap (bytes * Z) V :=
  foldl (fun m rec => foldl apply_update m (wd_updates I rec)) m recs.

Record described (front : Z) (m : gmap (bytes * Z) V) (o : OpState Memory) (st : store V) : Prop := {
  ds_rep : rep (size w) (wd_enc I) o st;
  ds_wf : store_wf (wd_ok I) st;
  ds_inv : run_inv w (wd_row I) front m st (op_out o);
  ds_dropped : op_dropped o = 0;
}.

Lemma described_fresh : described min_int64 ∅ (fresh_op NewMemory) empty_store.
Proof. split; [apply represents_empty|apply store_wf_empty|apply (run_inv_empty w (wd_wf I))|done]. Qed.

(** The part of a stream that is in time from [front] on. *)
Definition in_time_event (front : Z) (e : event) : Prop :=
  match e with
  | EvElement rec => front < EventTime rec /\ time_ok w (EventTime rec)
  | EvWatermark wm => is_i64 wm
  end.

Lemma in_time_cons front e l : in_time w front (e :: l) <-> in_time_event front e /\ in_time w (front_of front [e]) l.
Proof. destruct e; cbn; tauto. Qed.

(** One event: a record emits nothing, a watermark the windows that are due. *)
Lemma windowed_event e front m o st :
  Forall (wd_valid I) (event_record e) -> in_time_event front e -> described front m o st ->
  exists o' st' emitted, run_event op e o = (Ok tt, o') /\
    described (front_of front [e]) (total (event_record e) m) o' st' /\ op_out o' = op_out o ++ emitted /\
    Forall (fun r => exists t v, r = wd_row I (t, v) /\ front < fireTimeOf w t.2) emitted.
Proof.
  intros Hv Hl [Hr Hwf Hi Hdr]. destruct e as [rec|wm].
  - destruct Hl as (Hlt & Ht). cbn [event_record] in Hv. apply Forall_cons in Hv as [Hve _].
    assert (Forall (fun u => is_i64 u.1.2 /\ front < fireTimeOf w u.1.2) (wd_updates I rec)) as Hu.
    { apply Forall_forall. intros u Hu. destruct (wd_pending I rec u Hve Ht Hu). split; [done|lia]. }
    destruct (wd_element I rec o st Hve Hwf Hr) as (o1 & E & Hr1 & Hd1 & Ho1 & Hwf1).
    { eapply Forall_impl; [exact Hu|]. intros u [? ?]. pose proof (ri_front _ _ _ _ _ _ Hi). split; [done|lia]. }
    exists o1, (foldl abs_update st (wd_updates I rec)), []. split; [done|]. split; [|by rewrite app_nil_r].
    split; [done|done| |congruence]. cbn. rewrite Ho1. by apply run_inv_updates.
  - destruct (wd_watermark I wm o st Hl Hwf Hr) as (o1 & E & Hr1 & Hd1 & Ho1 & Hwf1).
    exists o1, (abs_watermark w wm st), (abs_emits w (wd_default I) (wd_row I) wm st). split; [done|]. split; [|split; [done|]].
    + split; [done|done| |congruence]. rewrite Ho1. apply run_inv_watermark; [apply (wd_wf I)|done].
    + apply Forall_forall. intros r (t & -> & [Hin _]%elem_of_due_timers)%list_elem_of_fmap.
      eexists t, _. split; [done|]. by apply (ri_timer _ _ _ _ _ _ Hi) in Hin as [? _].
Qed.

Lemma total_app l k m : total (l ++ k) m = total k (total l m).
Proof. apply foldl_app. Qed.

Lemma windowed_events l front m o st :
  Forall (wd_valid I) (l ≫= event_record) -> in_time w front l -> described front m o st ->
  exists o' st', run_events op l o = (Ok tt, o') /\
    described (front_of front l) (total (l ≫= event_record) m) o' st'.
Proof.
  revert front m o st. induction l as [|e l IH]; intros front m o st Hv Hl Hd; [by eexists o, st|].
  rewrite bind_cons in Hv. apply Forall_app in Hv as [Hve Hv]. apply in_time_cons in Hl as [Hle Hl].
  destruct (windowed_event e front m o st Hve Hle Hd) as (o1 & st1 & _ & E & Hd1 & _).
  destruct (IH _ _ _ _ Hv Hl Hd1) as (o' & st' & E' & Hd').
  exists o', st'. unfold run_events. rewrite for_each_cons, E. split; [exact E'|]. by rewrite bind_cons, total_app.
Qed.

(** A stream in time, closed by the final watermark, is processed without an
    error and without a dropped record, and every aggregate is emitted once. *)
Lemma windowed_run l :
  Forall (wd_valid I) (l ≫= event_record) -> in_time w min_int64 l ->
  exists o, run_events op (l ++ [EvWatermark max_int64]) (fresh_op NewMemory) = (Ok tt, o) /\
    op_dropped o = 0 /\ op_out o ≡ₚ wd_row I <$> map_to_list (total (l ≫= event_record) ∅).
Proof.
  intros Hv Hl. apply (in_time_close w) in Hl.
  destruct (windowed_events (l ++ [EvWatermark max_int64]) min_int64 ∅ (fresh_op NewMemory) empty_store)
    as (o & st & E & [_ _ Hi Hd]);
    [|exact Hl|exact described_fresh|].
  { by rewrite bind_app, app_nil_r. }
  exists o. split; [done|]. split; [done|]. rewrite (ri_out _ _ _ _ _ _ Hi).
  rewrite fired_above, bind_app, app_nil_r; [done|]. unfold front_of. rewrite foldl_app. cbn. lia.
Qed.

(** The same over any backend that reports no error. *)
Lemma windowed_run_any `{!OperatorLaws op} {S SE} `{KeyedStateLaws S SE} (s : S) l :
  ks_view s = ∅ -> Forall (wd_valid I) (l ≫= event_record) -> in_time w min_int64 l ->
  let out := run_events op (l ++ [EvWatermark max_int64]) (fresh_op s) in
  op_err out.2 = None ->
  out.1 = Ok tt /\ op_dropped out.2 = 0 /\
  op_out out.2 ≡ₚ wd_row I <$> map_to_list (total (l ≫= event_record) ∅).
Proof.
  intros Hs Hv Hl out He. destruct (windowed_run l Hv Hl) as (o & E & Hd & Ho).
  destruct (refines_rel _ _ _ (fresh_op NewMemory) (refines_run_events op _) He) as [H1 (_ & H2 & _ & H3)].
  { by split_and!. }
  rewrite E in *. cbn in H1, H2, H3. subst out. by rewrite H1, H2, H3.
Qed.
End WindowedRun.
