(* ===== verification/Oracle.v ===== *)
(** The batch oracle ([test/oracle/oracle.go]): windowed counts computed by
    brute force, with no watermark, timer or keyed state. *)
From S2P Require Import Prelude Core.

Record Spec := MkSpec {
  Size : Z;
  Slide : Z;
}.

(** One row of the result: a key and a window start. *)
Abbreviation RowKey := (bytes * Z)%type.

Inductive oracle_error := ErrSize | ErrSlide | ErrMultiple.

(** [Spec.check] *)
Definition check (s : Spec) : result oracle_error unit :=
  if Size s <=? 0 then Err ErrSize
  else if Slide s <=? 0 then Err ErrSlide
  else if negb (Z.rem (Size s) (Slide s) =? 0) then Err ErrMultiple
  else Ok tt.

(** This package's own [floorMod]. *)
Definition floorMod (a b : Z) : Z :=
  let m := Z.rem a b in if m <? 0 then add64 m b else m.

(** [counts[Key{...}]++] *)
Definition incr (counts : gmap RowKey Z) (k : RowKey) : gmap RowKey Z :=
  <[k := add64 (default 0 (counts !! k)) 1]> counts.

Fixpoint accumulate_loop (slide : Z) (n : nat) (key : bytes) (start : Z)
    (counts : gmap RowKey Z) : gmap RowKey Z :=
  match n with
  | O => counts
  | S n => accumulate_loop slide n key (sub64 start slide) (incr counts (key, start))
  end.

Definition accumulate (spec : Spec) (counts : gmap RowKey Z) (rec : Record_)
    : gmap RowKey Z :=
  let start := sub64 (EventTime rec) (floorMod (EventTime rec) (Slide spec)) in
  accumulate_loop (Slide spec) (Z.to_nat (Z.quot (Size spec) (Slide spec)))
    (Key rec) start counts.

Definition countRecords (recs : list Record_) (spec : Spec)
    : result oracle_error (gmap RowKey Z) :=
  _ ← check spec;
  Ok (foldl (accumulate spec) ∅ recs).

(** ** Sorted rows *)

Record Triple := MkTriple {
  t_Key : bytes;
  t_WindowStart : Z;
  t_Count : Z;
}.

(** [CompareTriples(a, b) <= 0] *)
Definition triple_leb (a b : Triple) : bool :=
  if negb (bool_decide (t_Key a = t_Key b)) then bytes_leb (t_Key a) (t_Key b)
  else if negb (t_WindowStart a =? t_WindowStart b) then t_WindowStart a <? t_WindowStart b
  else t_Count a <=? t_Count b.

Definition triple_le (a b : Triple) : Prop := triple_leb a b = true.
#[export] Instance triple_le_dec : RelDecision triple_le.
Proof. intros a b. unfold triple_le. apply _. Defined.

Definition Sorted (counts : gmap RowKey Z) : list Triple :=
  merge_sort triple_le
    ((fun kv => MkTriple kv.1.1 kv.1.2 kv.2) <$> map_to_list counts).
