(* ===== verification/WindowOracle.v ===== *)
(** The window counts against the batch oracle: the counting operator keeps the
    interface of [WindowRun], and for a stream in which no record is behind a
    watermark that was already delivered it emits, over any keyed state, exactly
    the rows the oracle computes. *)
From S2P Require Import Prelude Core State Operators WindowStore Window WindowRun Oracle.

(** * The counting operator, abstractly *)

Definition plus_one (o : option Z) : Z := add64 (default 0 o) 1.

(** A record, assignment by assignment: the store and how many were dropped. *)
Fixpoint abs_assigns (w : WindowCount) (k : bytes) (l : list Z) (st : store Z) (d : Z)
    : store Z * Z :=
  match l with
  | [] => (st, d)
  | s :: l =>
      if isPurged w (watermark st) s then abs_assigns w k l st (add64 d 1)
      else abs_assigns w k l (abs_update st ((k, s), plus_one)) d
  end.

Definition count_row (w : WindowCount) (kv : RowKey * Z) : Record_ :=
  NewRecord kv.1.1 (encodeCount kv.2) (fireTimeOf w kv.1.2).

(** Counts are [int64]s. *)
Definition count_ok (t : bytes * Z) (c : Z) : Prop := is_i64 c.

Section Count.
Context (w : WindowCount) (Hw : spec_wf w).

Local Abbreviation rep := (rep (size w) encodeCount).
Local Abbreviation store_wf := (store_wf count_ok).

Lemma count_wf_update k s st : store_wf st -> store_wf (abs_update st ((k, s), plus_one)).
Proof. intros Hwf. apply store_wf_update; [apply i64_range|done]. Qed.

Lemma currentCount_rep k s o st :
  is_i64 s -> store_wf st -> rep o st ->
  currentCount (appendStateKey k s) o = (Ok (default 0 (agg st !! (k, s))), o).
Proof.
  intros Hs Hwf Hr. unfold currentCount, mbind, Op_bind, M_bind.
  rewrite (get_agg_rep _ _ _ _ _ _ Hs Hr).
  destruct (agg st !! (k, s)) as [c|] eqn:E; [|done]. cbn.
  unfold lift. by rewrite DecodeCount_encode by by apply (wf_ok _ _ Hwf _ _ E).
Qed.

Lemma processWindow_rep rec s o st :
  is_i64 s -> store_wf st -> rep o st ->
  exists o', processWindow w (watermark st) rec s o = (Ok tt, o') /\
    (if isPurged w (watermark st) s
     then rep o' st /\ op_dropped o' = add64 (op_dropped o) 1
     else rep o' (abs_update st ((Key rec, s), plus_one)) /\ op_dropped o' = op_dropped o) /\
    op_out o' = op_out o.
Proof.
  intros Hs Hwf Hr. unfold processWindow.
  destruct (isPurged w (watermark st) s); [eexists; done|].
  unfold mbind, Op_bind, M_bind. rewrite (currentCount_rep _ _ _ _ Hs Hwf Hr).
  destruct (put_agg_rep _ _ (Key rec) s (plus_one (agg st !! (Key rec, s))) _ _ Hs Hr)
    as (o1 & E1 & Hr1 & Hd1 & _ & Ho1).
  unfold encodeCount, plus_one in E1. rewrite E1.
  destruct (put_timer_rep _ _ (Key rec) s _ _ Hs Hr1) as (o2 & E2 & Hr2 & Hd2 & _ & Ho2).
  exists o2. rewrite fireTimeOf_fire_time, E2. split; [done|]. split; [|congruence].
  split; [done|congruence].
Qed.

Lemma processWindows_rep rec l o st :
  Forall is_i64 l -> store_wf st -> rep o st ->
  let out := abs_assigns w (Key rec) l st (op_dropped o) in
  exists o', for_each (processWindow w (watermark st) rec) l o = (Ok tt, o') /\
    rep o' out.1 /\ op_dropped o' = out.2 /\ op_out o' = op_out o /\ store_wf out.1.
Proof.
  revert o st. induction l as [|s l IH]; intros o st Hl Hwf Hr; [by exists o|].
  apply Forall_cons in Hl as [Hs Hl].
  destruct (processWindow_rep rec s o st Hs Hwf Hr) as (o1 & E1 & H1 & Ho1).
  cbn [abs_assigns]. rewrite for_each_cons, E1.
  destruct (isPurged w (watermark st) s); destruct H1 as [Hr1 Hd1]; rewrite <- Hd1.
  - destruct (IH o1 st Hl Hwf Hr1) as (o2 & E2 & ? & ? & Ho2 & ?).
    exists o2. rewrite E2. split_and!; [done..|congruence|done].
  - change (watermark st) with (watermark (abs_update st ((Key rec, s), plus_one))).
    destruct (IH o1 (abs_update st ((Key rec, s), plus_one))) as (o2 & E2 & ? & ? & Ho2 & ?);
      [done|by apply count_wf_update|done|].
    exists o2. rewrite E2. split_and!; [done..|congruence|done].
Qed.

(** A record, late or not. *)
Lemma ProcessElement_rep rec o st :
  store_wf st -> rep o st ->
  let out := abs_assigns w (Key rec) (windowsFor w (EventTime rec)) st (op_dropped o) in
  exists o', ProcessElement w rec o = (Ok tt, o') /\
    rep o' out.1 /\ op_dropped o' = out.2 /\ op_out o' = op_out o /\ store_wf out.1.
Proof.
  intros Hwf Hr. unfold ProcessElement, mbind, Op_bind, M_bind.
  change currentWatermark with (loadWatermark (S := Memory)).
  rewrite (loadWatermark_rep _ _ _ _ Hr).
  apply processWindows_rep; [apply windowsFor_i64|done|done].
Qed.

Definition count_updates (rec : Record_) : list (update Z) :=
  (fun s => ((Key rec, s), plus_one)) <$> windowsFor w (EventTime rec).

(** No window is dropped that is still open. *)
Lemma abs_assigns_open k l st d :
  Forall (fun s => is_i64 s /\ watermark st < fireTimeOf w s) l ->
  abs_assigns w k l st d = (foldl abs_update st ((fun s => ((k, s), plus_one)) <$> l), d).
Proof.
  revert st. induction l as [|s l IH]; intros st Hl; [done|].
  apply Forall_cons in Hl as [[Hs Hf] Hl]. cbn [abs_assigns fmap list_fmap foldl].
  rewrite not_due_not_purged by done. by apply IH.
Qed.

Lemma fire_rep k s c o st :
  is_i64 s -> rep o st -> agg st !! (k, s) = Some c -> count_ok (k, s) c ->
  fire w k s o = (Ok tt, MkOp (op_state o) (op_dropped o) (op_onTime o)
    (op_out o ++ [count_row w ((k, s), c)])).
Proof.
  intros Hs Hr Hc Hok. unfold fire, mbind, Op_bind, M_bind.
  rewrite (get_agg_rep _ _ _ _ _ _ Hs Hr), Hc. cbn. unfold lift.
  by rewrite DecodeCount_encode by done.
Qed.

Lemma purgedKey_state wm k s :
  is_i64 s -> purgedKey w wm (appendStateKey k s) = Ok (isPurged w wm s).
Proof. intros Hs. unfold purgedKey. by rewrite windowStartOf_stateKey. Qed.
End Count.

(** * The windows of a record *)

Section Windows.
Context (w : WindowCount) (Hw : spec_wf w).

(** The starts of the windows that hold time [t], latest first. *)
Definition window_starts (t : Z) : list Z :=
  (fun i : nat => t - t mod slide w - Z.of_nat i * slide w)
    <$> seq 0 (Z.to_nat (size w / slide w)).

Lemma windows_loop_exact (n : nat) (s : Z) :
  is_i64 s -> min_int64 <= s - (Z.of_nat n - 1) * slide w ->
  windows_loop w n s = (fun i : nat => s - Z.of_nat i * slide w) <$> seq 0 n.
Proof.
  revert s. induction n as [|n IH]; intros s Hs Hlo; [done|].
  destruct Hw. cbn [windows_loop seq fmap list_fmap].
  f_equal; [lia|]. destruct n as [|n]; [by case_match|].
  assert (min_int64 <= s - slide w) by lia.
  rewrite subFloor_spec by (unfold_ints; lia).
  rewrite Z.max_l by lia. destruct (Z.eqb_spec (s - slide w) s); [lia|].
  rewrite IH by (unfold_ints; lia). rewrite <- (fmap_S_seq 0), <- list_fmap_compose.
  apply list_fmap_ext. intros i x _. unfold compose. lia.
Qed.

Lemma size_slide_quot :
  0 < size w / slide w /\ size w / slide w * slide w = size w /\
  Z.quot (size w) (slide w) = size w / slide w.
Proof.
  destruct Hw as [Hs Hl [q Hq] _]. rewrite Hq, Z.div_mul by lia.
  split_and!; [nia|lia|]. rewrite Z.quot_mul; lia.
Qed.

Lemma windowsFor_exact (t : Z) : time_ok w t -> windowsFor w t = window_starts t.
Proof.
  unfold time_ok. intros Ht. destruct size_slide_quot as (Hq & Hm & Hquot).
  pose proof Hw as [Hs Hl _ _].
  pose proof (Z.mod_pos_bound t (slide w) ltac:(lia)) as Hmod.
  assert (slide w <= size w) by nia.
  unfold windowsFor. rewrite Hquot, floorMod_spec by (unfold_ints; lia).
  rewrite subFloor_spec, Z.max_l by (unfold_ints; lia).
  apply windows_loop_exact; [unfold_ints; lia|]. rewrite Z2Nat.id; lia.
Qed.

(** The starts are exactly the multiples of [slide] whose window
    [[s, s + size)] contains the time. *)
Lemma elem_of_window_starts (t s : Z) :
  s ∈ window_starts t <-> (slide w | s) /\ s <= t < s + size w.
Proof.
  destruct size_slide_quot as (Hq & Hm & _). destruct Hw as [Hs Hl _ _].
  pose proof (Z.mod_pos_bound t (slide w) ltac:(lia)) as Hmod.
  pose proof (Z.div_mod t (slide w) ltac:(lia)) as Hdm.
  unfold window_starts. rewrite list_elem_of_fmap.
  set (a := t / slide w) in *. set (n := size w / slide w) in *.
  set (m := t mod slide w) in *. split.
  - intros (i & -> & [_ Hi]%elem_of_seq). split.
    + exists (a - Z.of_nat i). lia.
    + nia.
  - intros [[q ->] Ht]. exists (Z.to_nat (a - q)). rewrite elem_of_seq.
    assert (0 <= a - q < n) by nia. split; [|lia]. rewrite Z2Nat.id by lia. nia.
Qed.

Lemma NoDup_window_starts (t : Z) : NoDup (window_starts t).
Proof.
  apply NoDup_fmap_2; [|apply NoDup_seq]. destruct Hw. intros i j E. nia.
Qed.

Lemma window_start_i64 (t s : Z) : time_ok w t -> s ∈ window_starts t -> is_i64 s.
Proof.
  unfold time_ok. intros Ht [_ Hs]%elem_of_window_starts. unfold_ints. lia.
Qed.

Lemma window_start_pending (t s : Z) :
  time_ok w t -> s ∈ window_starts t -> t <= fireTimeOf w s.
Proof.
  intros Ht Hs. pose proof (window_start_i64 _ _ Ht Hs) as Hi.
  apply elem_of_window_starts in Hs. rewrite fireTimeOf_spec by done.
  unfold time_ok in Ht. destruct Hw. lia.
Qed.

(** ** The oracle's windows are the operator's *)

Definition oracle_spec : Spec := MkSpec (size w) (slide w).

Lemma check_oracle_spec : check oracle_spec = Ok tt.
Proof.
  destruct Hw as [? ? [q Hq] _]. unfold check, oracle_spec. cbn [Size Slide].
  rewrite !(proj2 (Z.leb_gt _ _)) by lia. rewrite Hq, Z.rem_mul by lia. done.
Qed.

Lemma accumulate_loop_exact (n : nat) (k : bytes) (s : Z) counts :
  is_i64 s -> min_int64 <= s - (Z.of_nat n - 1) * slide w ->
  accumulate_loop (slide w) n k s counts =
  foldl incr counts (pair k <$> ((fun i : nat => s - Z.of_nat i * slide w) <$> seq 0 n)).
Proof.
  revert s counts. induction n as [|n IH]; intros s counts Hs Hlo; [done|].
  destruct Hw. cbn [accumulate_loop seq fmap list_fmap foldl].
  rewrite Z.mul_0_l, Z.sub_0_r. destruct n as [|n]; [done|].
  rewrite sub64_id by (unfold_ints; lia). rewrite IH by (unfold_ints; lia).
  f_equal. rewrite <- (fmap_S_seq 0), <- (list_fmap_compose S).
  f_equal. apply list_fmap_ext. intros i x _. unfold compose. lia.
Qed.

Lemma accumulate_exact (rec : Record_) counts :
  time_ok w (EventTime rec) ->
  accumulate oracle_spec counts rec =
  foldl incr counts (pair (Key rec) <$> window_starts (EventTime rec)).
Proof.
  unfold time_ok. intros Ht. destruct size_slide_quot as (Hq & Hm & Hquot).
  pose proof Hw as [Hs Hl _ _].
  pose proof (Z.mod_pos_bound (EventTime rec) (slide w) ltac:(lia)) as Hmod.
  unfold accumulate. cbn [Size Slide oracle_spec]. rewrite Hquot.
  change (Oracle.floorMod ?a ?b) with (Operators.floorMod a b).
  assert (slide w <= size w) by nia.
  rewrite floorMod_spec by (unfold_ints; lia).
  rewrite sub64_id by (unfold_ints; lia).
  apply accumulate_loop_exact; [unfold_ints; lia|]. rewrite Z2Nat.id; lia.
Qed.
End Windows.

(** ** The interface of [WindowRun] *)

Program Definition count_windowed (w : WindowCount) (Hw : spec_wf w)
    : Windowed (WindowCount_Operator w) w Z := {|
  wd_enc := encodeCount;
  wd_default := 0;
  wd_row := count_row w;
  wd_ok := count_ok;
  wd_valid _ := True;
  wd_updates := count_updates w;
|}.
Next Obligation. done. Qed.
Next Obligation.
  intros w Hw rec u _ Ht. unfold count_updates. rewrite windowsFor_exact by done.
  intros (s & -> & Hs)%list_elem_of_fmap. cbn.
  split; [by eapply window_start_i64|by eapply window_start_pending].
Qed.
Next Obligation.
  intros w Hw rec o st _ Hwf Hr Hu. cbv zeta. cbn [o_ProcessElement WindowCount_Operator].
  destruct (ProcessElement_rep w rec o st Hwf Hr) as (o' & E & H). exists o'. split; [done|].
  unfold count_updates in *. rewrite Forall_fmap in Hu.
  rewrite (abs_assigns_open w Hw) in H by done. exact H.
Qed.
Next Obligation.
  intros w Hw wm o st Hwm Hwf Hr.
  apply (fire_due_rep w Hw encodeCount 0 (count_row w) count_ok (fire w) (purgedKey w wm) wm
    (fire_rep w) (purgedKey_state w wm)); done.
Qed.
Solve Obligations with done.

(** ** The oracle's rows *)

(** What the oracle accumulates is what the operator aggregates. *)
Lemma countRecords_total w (Hw : spec_wf w) recs :
  Forall (fun rec => time_ok w (EventTime rec)) recs ->
  countRecords recs (oracle_spec w) = Ok (total (count_windowed w Hw) recs ∅).
Proof.
  intros Ht. unfold countRecords. rewrite check_oracle_spec by done. cbn. f_equal. unfold total.
  generalize (∅ : gmap RowKey Z). induction Ht as [|rec recs Ht _ IH]; intros m; [done|]. cbn [foldl].
  rewrite accumulate_exact by done. rewrite IH. f_equal. cbn [wd_updates count_windowed].
  unfold count_updates. rewrite windowsFor_exact by done.
  generalize (window_starts w (EventTime rec)). intros l. revert m.
  induction l as [|s l IHl]; intros m; [done|]. cbn. apply IHl.
Qed.

Lemma in_time_times w wmk l :
  in_time w wmk l -> Forall (fun rec => time_ok w (EventTime rec)) (l ≫= event_record).
Proof.
  revert wmk. induction l as [|[rec|wm] l IH]; intros wmk; cbn; [constructor|..].
  - intros (_ & Ht & Hl). constructor; [done|by eapply IH].
  - intros (_ & Hl). by eapply IH.
Qed.

(** * The properties *)

(** The windows a record is assigned to, away from the ends of the
    [int64] range, are exactly the aligned windows that contain its time, each
    once. *)
Theorem windowsFor_membership w t s :
  spec_wf w -> time_ok w t ->
  (s ∈ windowsFor w t <-> (slide w | s) /\ s <= t < s + size w) /\
  NoDup (windowsFor w t).
Proof.
  intros Hw Ht. rewrite windowsFor_exact by done. split.
  - by apply elem_of_window_starts.
  - by apply NoDup_window_starts.
Qed.

Lemma windowsFor_membership_witness :
  (-10 ∈ windowsFor (NewWindowCount 20 10 0) 7 <-> (10 | -10) /\ -10 <= 7 < -10 + 20) /\
  NoDup (windowsFor (NewWindowCount 20 10 0) 7).
Proof.
  apply (windowsFor_membership (NewWindowCount 20 10 0) 7 (-10)).
  - split; cbn; [unfold max_int64; lia..|by exists 2|unfold max_int64; lia].
  - unfold time_ok; cbn; unfold min_int64, max_int64; lia.
Defined.

(** C10. The sliding-window count agrees with the batch oracle: over any keyed
    state that keeps its contract, a stream whose records are never behind a
    delivered watermark, closed by the final watermark, is processed without an
    error and without a dropped record, and what the operator emits is, up to
    order, one record per row of the counts the oracle computes by brute force
    from the same records. *)
Theorem window_count_matches_oracle w {S SE} `{KeyedStateLaws S SE} (s : S) l :
  spec_wf w -> ks_view s = ∅ -> in_time w min_int64 l ->
  let out := run_events (WindowCount_Operator w) (l ++ [EvWatermark max_int64]) (fresh_op s) in
  op_err out.2 = None ->
  out.1 = Ok tt /\ op_dropped out.2 = 0 /\
  exists counts, countRecords (l ≫= event_record) (oracle_spec w) = Ok counts /\
    op_out out.2 ≡ₚ count_row w <$> map_to_list counts.
Proof.
  intros Hw Hs Hl out He.
  destruct (windowed_run_any (count_windowed w Hw) s l Hs) as (E & Hd & Ho);
    [by apply Forall_true|done|done|].
  split; [done|]. split; [done|]. eexists. split; [|exact Ho].
  by apply countRecords_total, in_time_times with (wmk := min_int64).
Qed.

Definition sample_records : list event :=
  [EvElement (NewRecord (str "a") [] 7); EvWatermark 0;
   EvElement (NewRecord (str "b") [] 12); EvElement (NewRecord (str "a") [] 14)].

Lemma window_count_matches_oracle_witness :
  let w := NewWindowCount 20 10 0 in
  let out := run_events (WindowCount_Operator w) (sample_records ++ [EvWatermark max_int64]) (fresh_op NewMemory) in
  out.1 = Ok tt /\ op_dropped out.2 = 0 /\
  exists counts, countRecords (sample_records ≫= event_record) (oracle_spec w) = Ok counts /\
    op_out out.2 ≡ₚ count_row w <$> map_to_list counts.
Proof.
  apply (window_count_matches_oracle (NewWindowCount 20 10 0) NewMemory sample_records).
  - split; cbn; [unfold max_int64; lia..|by exists 2|unfold max_int64; lia].
  - reflexivity.
  - repeat split; cbn; unfold min_int64, max_int64; lia.
  - vm_compute. reflexivity.
Defined.
