(* ===== verification/Streams.v ===== *)
(** Streams of elements: the records, barriers and watermarks of a sequence,
    the prefix a checkpoint covers, and well-formed and timely streams. Shared
    by the theorems of the gate, the subtasks and the sources. *)
From S2P Require Import Prelude Core.

Definition record_of (e : StreamElement) : option Record_ :=
  match e with NewRecordElement r => Some r | _ => None end.
Definition barrier_of (e : StreamElement) : option Barrier :=
  match e with NewBarrierElement b => Some b | _ => None end.
Definition mark_of (e : StreamElement) : option Z :=
  match e with NewWatermarkElement w => Some w | _ => None end.

Definition records (l : list StreamElement) : list Record_ := omap record_of l.
Definition barriers (l : list StreamElement) : list Barrier := omap barrier_of l.
Definition marks (l : list StreamElement) : list Z := omap mark_of l.

(** How many barriers a stream holds. *)
Definition nb (l : list StreamElement) : nat := length (barriers l).

(** The part of a stream the [k]-th checkpoint covers: through the [k]-th
    barrier, or all of it if there are fewer. *)
Fixpoint upto (k : nat) (l : list StreamElement) : list StreamElement :=
  match k, l with
  | O, _ | _, [] => []
  | S k', e :: l =>
      e :: upto (match barrier_of e with Some _ => k' | None => k end) l
  end.

(** Nothing follows the end of a stream. *)
Definition well_ended (l : list StreamElement) : Prop :=
  forall l1 l2, l = l1 ++ NewEndOfStreamElement :: l2 -> l2 = [].

(** No record is at or below a watermark that precedes it. *)
Definition timely (l : list StreamElement) : Prop :=
  forall l1 r l2, l = l1 ++ NewRecordElement r :: l2 ->
  forall w, w ∈ marks l1 -> w < EventTime r.

(** The latest watermark of a stream. *)
Definition last_mark (l : list StreamElement) : Z := default min_int64 (last (marks l)).

Lemma records_app l k : records (l ++ k) = records l ++ records k.
Proof. apply omap_app. Qed.
Lemma barriers_app l k : barriers (l ++ k) = barriers l ++ barriers k.
Proof. apply omap_app. Qed.
Lemma marks_app l k : marks (l ++ k) = marks l ++ marks k.
Proof. apply omap_app. Qed.
Lemma nb_app l k : nb (l ++ k) = (nb l + nb k)%nat.
Proof. unfold nb. by rewrite barriers_app, length_app. Qed.

Lemma nb_cons e l :
  nb (e :: l) = match barrier_of e with Some _ => S (nb l) | None => nb l end.
Proof. by destruct e. Qed.

Lemma elem_of_marks w l : w ∈ marks l <-> NewWatermarkElement w ∈ l.
Proof.
  unfold marks. rewrite list_elem_of_omap. split.
  - intros ([r|v|b|] & Hin & [= <-]). done.
  - intros Hin. by exists (NewWatermarkElement w).
Qed.

Lemma elem_of_records r l : r ∈ records l <-> NewRecordElement r ∈ l.
Proof.
  unfold records. rewrite list_elem_of_omap. split.
  - intros ([v|w|b|] & Hin & [= <-]). done.
  - intros Hin. by exists (NewRecordElement r).
Qed.

Lemma upto_0 l : upto 0 l = [].
Proof. by destruct l. Qed.

Lemma upto_prefix k l : upto k l `prefix_of` l.
Proof.
  revert k. induction l as [|e l IH]; intros [|k]; cbn [upto];
    try (by apply prefix_nil). by apply prefix_cons.
Qed.

Lemma upto_app k l x : (k <= nb l)%nat -> upto k (l ++ x) = upto k l.
Proof.
  revert k. induction l as [|e l IH]; intros [|k] Hk; cbn [upto app];
    [by rewrite upto_0|cbn in Hk; lia|done|].
  f_equal. apply IH. rewrite nb_cons in Hk. destruct (barrier_of e); lia.
Qed.

Lemma upto_all k l : (nb l < k)%nat -> upto k l = l.
Proof.
  revert k. induction l as [|e l IH]; intros [|k] Hk; cbn [upto]; [done..|lia|].
  f_equal. apply IH. rewrite nb_cons in Hk. destruct (barrier_of e); lia.
Qed.

Lemma upto_barrier l b : upto (S (nb l)) (l ++ [NewBarrierElement b]) = l ++ [NewBarrierElement b].
Proof.
  induction l as [|e l IH]; [done|].
  cbn [upto app]. rewrite nb_cons. f_equal. by destruct (barrier_of e).
Qed.

Lemma well_ended_app l k : well_ended (l ++ k) -> NewEndOfStreamElement ∈ l -> k = [].
Proof.
  intros Hw (l1 & l2 & ->)%list_elem_of_split.
  rewrite <- app_assoc in Hw. specialize (Hw l1 (l2 ++ k) eq_refl).
  by apply app_eq_nil in Hw as [_ ->].
Qed.

Lemma well_ended_snoc l : NewEndOfStreamElement ∉ l -> well_ended (l ++ [NewEndOfStreamElement]).
Proof.
  intros Hl l1 l2 E. destruct l2 as [|e l2 _] using rev_ind; [done|].
  rewrite app_comm_cons, app_assoc in E. apply app_inj_tail in E as [-> _].
  exfalso. apply Hl. set_solver.
Qed.

(** A stream that has delivered its first [k] barriers, the [k]-th last, or has
    ended before. *)
Definition settled (k : nat) (l : list StreamElement) : Prop :=
  upto k l = l /\ ((k <= nb l)%nat \/ NewEndOfStreamElement ∈ l).

Lemma settled_prefix k l L :
  settled k l -> l `prefix_of` L -> well_ended L -> upto k L = l.
Proof.
  intros [Hu [Hk|He]] [x ->] Hw.
  - by rewrite upto_app.
  - apply (well_ended_app _ _ Hw) in He as ->. by rewrite app_nil_r.
Qed.

Lemma timely_prefix l k : timely (l ++ k) -> timely l.
Proof.
  intros Ht l1 r l2 -> w Hw. apply (Ht l1 r (l2 ++ k)); [|done].
  by rewrite <- app_assoc.
Qed.

Lemma timely_record l r k :
  timely (l ++ NewRecordElement r :: k) -> forall w, w ∈ marks l -> w < EventTime r.
Proof. intros Ht. by apply (Ht l r k). Qed.

Lemma timely_snoc l e :
  timely l -> (forall r, e = NewRecordElement r -> forall w, w ∈ marks l -> w < EventTime r) ->
  timely (l ++ [e]).
Proof.
  intros Hl He l1 r l2 E w Hw. destruct l2 as [|e2 l2 _] using rev_ind.
  - apply app_inj_tail in E as [-> ->]. by eapply He.
  - rewrite app_comm_cons, app_assoc in E. apply app_inj_tail in E as [-> _].
    by eapply Hl.
Qed.

Lemma timely_app l k :
  timely l -> timely k -> (forall w r, w ∈ marks l -> r ∈ records k -> w < EventTime r) ->
  timely (l ++ k).
Proof.
  intros Hl Hk Hlk l1 r l2 E w Hw. apply app_eq_app in E as [x [(-> & E)|(-> & ->)]].
  - destruct x as [|y x]; cbn in E.
    + rewrite app_nil_r in *. by apply (Hlk w r); [|rewrite <- E; apply elem_of_records; left].
    + injection E as <- _. by apply (Hl l1 r x).
  - rewrite marks_app, elem_of_app in Hw. destruct Hw as [Hw|Hw].
    + apply (Hlk w r); [done|]. apply elem_of_records. set_solver.
    + by apply (Hk x r l2).
Qed.

Lemma timely_nil : timely [].
Proof. intros l1 r l2 E. by destruct l1. Qed.

Lemma StronglySorted_snoc {A} (R : relation A) (l : list A) (x : A) :
  StronglySorted R l -> Forall (fun y => R y x) l -> StronglySorted R (l ++ [x]).
Proof.
  induction 1 as [|y l Hl IH Hy]; intros Hx; cbn; [repeat constructor|].
  apply Forall_cons in Hx as [Hyx Hx]. constructor; [by apply IH|].
  apply Forall_app. split; [done|by constructor].
Qed.
