(* ===== verification/Gate.v ===== *)
(** The gate ([pkg/runtime/gate.go]): the merge of a subtask's inputs into one
    stream, with the watermark minimum and the alignment of barriers, and the
    fault injection a subtask consults ([pkg/runtime/subtask.go]). *)
From S2P Require Import Prelude Core.

(** * Fault injection *)

Record subtaskID := NewSubtaskID {
  vertexID : bytes;
  index : Z;
}.

(** [FaultInjector]: a decision at each of three logical positions. A position
    is offered at most once in a run of a subtask, so that a function of the
    position says all an injector can. *)
Record FaultInjector := NewFaultInjector {
  BeforeElement : bytes -> Z -> Z -> bool;
  AfterBarrierForwarded : bytes -> Z -> Z -> bool;
  DuringAlignment : bytes -> Z -> Z -> Z -> bool;
}.

(** What an abort wraps [ErrFaultInjected] with. *)
Inductive fault_error :=
| FaultAfterElements (n : Z)
| FaultAfterBarrier (checkpointID : Z)
| FaultAligning (checkpointID delivered : Z).

Record faults := NewFaults {
  injector : option FaultInjector;
  faults_id : subtaskID;
}.

Definition beforeElement (f : faults) (n : Z) : result fault_error unit :=
  match injector f with
  | None => Ok tt
  | Some inj =>
      if negb (BeforeElement inj (vertexID (faults_id f)) (index (faults_id f)) n) then Ok tt
      else Err (FaultAfterElements n)
  end.

Definition afterBarrierForwarded (f : faults) (checkpointID : Z) : result fault_error unit :=
  match injector f with
  | None => Ok tt
  | Some inj =>
      if negb (AfterBarrierForwarded inj (vertexID (faults_id f)) (index (faults_id f))
                 checkpointID) then Ok tt
      else Err (FaultAfterBarrier checkpointID)
  end.

Definition duringAlignment (f : faults) (checkpointID delivered : Z) : result fault_error unit :=
  match injector f with
  | None => Ok tt
  | Some inj =>
      if negb (DuringAlignment inj (vertexID (faults_id f)) (index (faults_id f))
                 checkpointID delivered) then Ok tt
      else Err (FaultAligning checkpointID delivered)
  end.

(** * The gate *)

(** An element with the input it arrived on. *)
Record tagged := Tagged {
  input : nat;
  elem : StreamElement;
}.

(** [barrier] is the zero element when nothing is aligning. The merged channel
    is not a field: it is the sequence of elements still to arrive. *)
Record Gate := MkGate {
  endOfStream : list bool;
  remaining : Z;
  closed : bool;
  watermarks : list Z;
  out : Z;
  aligning : bool;
  barrier : option StreamElement;
  alignedFor : list bool;
  buffered : list (list StreamElement);
  replay : list tagged;
  pending : list StreamElement;
  gate_faults : faults;
  err : option fault_error;
}.

(** Assignments to the fields. *)
Definition set_eos (l : list bool) (r : Z) (c : bool) (g : Gate) : Gate :=
  MkGate l r c (watermarks g) (out g) (aligning g) (barrier g)
    (alignedFor g) (buffered g) (replay g) (pending g) (gate_faults g) (err g).
Definition set_watermarks (l : list Z) (g : Gate) : Gate :=
  MkGate (endOfStream g) (remaining g) (closed g) l (out g) (aligning g) (barrier g)
    (alignedFor g) (buffered g) (replay g) (pending g) (gate_faults g) (err g).
Definition set_out (o : Z) (g : Gate) : Gate :=
  MkGate (endOfStream g) (remaining g) (closed g) (watermarks g) o (aligning g) (barrier g)
    (alignedFor g) (buffered g) (replay g) (pending g) (gate_faults g) (err g).
Definition set_aligning (a : bool) (b : option StreamElement) (l : list bool) (g : Gate) : Gate :=
  MkGate (endOfStream g) (remaining g) (closed g) (watermarks g) (out g) a b
    l (buffered g) (replay g) (pending g) (gate_faults g) (err g).
Definition set_buffers (l : list (list StreamElement)) (r : list tagged) (g : Gate) : Gate :=
  MkGate (endOfStream g) (remaining g) (closed g) (watermarks g) (out g) (aligning g) (barrier g)
    (alignedFor g) l r (pending g) (gate_faults g) (err g).
Definition set_replay (r : list tagged) (g : Gate) : Gate := set_buffers (buffered g) r g.
Definition set_pending (p : list StreamElement) (g : Gate) : Gate :=
  MkGate (endOfStream g) (remaining g) (closed g) (watermarks g) (out g) (aligning g) (barrier g)
    (alignedFor g) (buffered g) (replay g) p (gate_faults g) (err g).
Definition set_err (e : option fault_error) (g : Gate) : Gate :=
  MkGate (endOfStream g) (remaining g) (closed g) (watermarks g) (out g) (aligning g) (barrier g)
    (alignedFor g) (buffered g) (replay g) (pending g) (gate_faults g) e.

(** [g.pending = append(g.pending, e)] *)
Definition append_pending (e : StreamElement) (g : Gate) : Gate :=
  set_pending (pending g ++ [e]) g.

Definition NewGate (n : nat) (fs : faults) : Gate := {|
  endOfStream := replicate n false;
  remaining := Z.of_nat n;
  closed := false;
  watermarks := replicate n min_int64;
  out := min_int64;
  aligning := false;
  barrier := None;
  alignedFor := replicate n false;
  buffered := replicate n ([] : list StreamElement);
  replay := [];
  pending := [];
  gate_faults := fs;
  err := None;
|}.

(** Every index the gate uses is the index of an input, so that the total
    lookup is the one of the source. *)
Definition live (g : Gate) (i : nat) : bool := negb (endOfStream g !!! i).

Definition minLive (g : Gate) : Z :=
  foldl (fun min i =>
      let w := watermarks g !!! i in
      if negb (live g i) then min else if w <? min then w else min)
    max_int64 (seq 0 (length (watermarks g))).

Definition advance (g : Gate) : option Z * Gate :=
  let min := minLive g in
  if min <=? out g then (None, g) else (Some min, set_out min g).

(** [if wm, advanced := g.advance(); advanced { append }] *)
Definition push_advance (g : Gate) : Gate :=
  match advance g with
  | (Some wm, g) => append_pending (NewWatermarkElement wm) g
  | (None, g) => g
  end.

Definition awaitingBarrier (g : Gate) : bool :=
  if negb (aligning g) then false
  else existsb (fun i => live g i && negb (alignedFor g !!! i))
         (seq 0 (length (alignedFor g))).

Definition delivered (g : Gate) : Z :=
  foldl (fun n (aligned : bool) => if aligned then n + 1 else n) 0 (alignedFor g).

(** The buffers, in input order, ahead of what is already replayed. *)
Definition drained (l : list (list StreamElement)) : list tagged :=
  concat (imap (fun i buf => Tagged i <$> buf) l).

Definition drainBuffers (g : Gate) : Gate :=
  set_buffers (replicate (length (buffered g)) ([] : list StreamElement)) (drained (buffered g) ++ replay g) g.

Definition completeAlignment (g : Gate) : Gate :=
  if negb (aligning g) || awaitingBarrier g then g
  else
    let g := match barrier g with Some b => append_pending b g | None => g end in
    let g := set_aligning false None (replicate (length (alignedFor g)) false) g in
    drainBuffers g.

Definition onBarrier (t : tagged) (b : Barrier) (g : Gate) : Gate :=
  let g := if negb (aligning g) then set_aligning true (Some (elem t)) (alignedFor g) g else g in
  let g := set_aligning (aligning g) (barrier g) (<[input t := true]> (alignedFor g)) g in
  if awaitingBarrier g then
    match duringAlignment (gate_faults g) (CheckpointID b) (delivered g) with
    | Err e => set_err (Some e) g
    | Ok _ => g
    end
  else completeAlignment g.

Definition onEndOfStream (t : tagged) (g : Gate) : Gate :=
  if (endOfStream g !!! input t : bool) then g
  else
    let g := set_eos (<[input t := true]> (endOfStream g)) (remaining g - 1) (closed g) g in
    let g := push_advance g in
    let g :=
      if (remaining g =? 0) && negb (closed g)
      then append_pending NewEndOfStreamElement (set_eos (endOfStream g) (remaining g) true g)
      else g in
    completeAlignment g.

Definition deliver (t : tagged) (g : Gate) : Gate :=
  match elem t with
  | NewWatermarkElement wm =>
      push_advance (set_watermarks (<[input t := wm]> (watermarks g)) g)
  | NewBarrierElement b => onBarrier t b g
  | NewEndOfStreamElement => onEndOfStream t g
  | NewRecordElement _ => append_pending (elem t) g
  end.

Definition handle (t : tagged) (g : Gate) : Gate :=
  if aligning g && (alignedFor g !!! input t)
  then set_buffers (alter (fun buf => buf ++ [elem t]) (input t) (buffered g)) (replay g) g
  else deliver t g.

(** One turn of the loop of [Recv], over the elements still to come on the
    merged channel: it returns, or goes around. The channel is closed when
    nothing is left. *)
Inductive recv_turn :=
| Return (e : option StreamElement) (g : Gate) (merged : list tagged)
| Continue (g : Gate) (merged : list tagged).

Definition recv_body (g : Gate) (merged : list tagged) : recv_turn :=
  match err g, pending g, replay g, merged with
  | Some _, _, _, _ => Return None g merged
  | None, e :: p, _, _ => Return (Some e) (set_pending p g) merged
  | None, [], t :: r, _ => Continue (handle t (set_replay r g)) merged
  | None, [], [], t :: merged => Continue (handle t g) merged
  | None, [], [], [] => Return None g []
  end.

(** [Recv]; [None] when the fuel is used up. *)
Fixpoint Recv (fuel : nat) (g : Gate) (merged : list tagged)
    : option (option StreamElement * Gate * list tagged) :=
  match fuel with
  | O => None
  | S fuel =>
      match recv_body g merged with
      | Return e g merged => Some (e, g, merged)
      | Continue g merged => Recv fuel g merged
      end
  end.

(** What the gate still has to handle, and the turns that takes at most. *)
Definition work (g : Gate) (merged : list tagged) : nat :=
  length merged + length (replay g) + sum_list (length <$> buffered g).

Definition recv_fuel (g : Gate) (merged : list tagged) : nat :=
  S (work g merged * S (work g merged) + (length merged + length (replay g))).

(** The elements successive calls return, until one reports closure. *)
Fixpoint recv_all (calls : nat) (g : Gate) (merged : list tagged)
    : option (list StreamElement * Gate) :=
  match calls with
  | O => None
  | S calls =>
      match Recv (recv_fuel g merged) g merged with
      | Some (Some e, g, merged) =>
          match recv_all calls g merged with
          | Some (l, g) => Some (e :: l, g)
          | None => None
          end
      | Some (None, g, _) => Some ([], g)
      | None => None
      end
  end.

Definition recv_calls (g : Gate) (merged : list tagged) : nat :=
  S (3 * work g merged + length (pending g)).

Definition run_gate (g : Gate) (merged : list tagged) : option (list StreamElement * Gate) :=
  recv_all (recv_calls g merged) g merged.

(** ** The forwarders

    One goroutine per input puts what it receives on the merged channel: the
    merged sequence is some interleaving of the inputs. *)
Inductive forwarded : list (list StreamElement) -> list tagged -> Prop :=
| forwarded_closed inputs :
    Forall (fun l => l = []) inputs -> forwarded inputs []
| forwarded_step inputs i e l merged :
    inputs !! i = Some (e :: l) -> forwarded (<[i := l]> inputs) merged ->
    forwarded inputs (Tagged i e :: merged).
