(* ===== verification/GateSpec.v ===== *)
(** The theorems of the gate: what it returns over any arrival order, with the
    watermark minimum, barrier alignment and end of stream. *)
From S2P Require Import Prelude Core Streams Gate.

(** What arrived on input [i]. *)
Definition from (i : nat) (arr : list tagged) : list StreamElement :=
  elem <$> filter (fun t => input t = i) arr.

Lemma from_app i a b : from i (a ++ b) = from i a ++ from i b.
Proof. unfold from. by rewrite filter_app, fmap_app. Qed.

Lemma from_cons i t a :
  from i (t :: a) = if decide (input t = i) then elem t :: from i a else from i a.
Proof. unfold from. rewrite filter_cons. by case_decide. Qed.

Lemma from_cons_eq t a : from (input t) (t :: a) = elem t :: from (input t) a.
Proof. rewrite from_cons. by case_decide. Qed.

Lemma from_snoc_eq t a : from (input t) (a ++ [t]) = from (input t) a ++ [elem t].
Proof. by rewrite from_app, from_cons_eq. Qed.

Lemma from_cons_ne i t a : input t <> i -> from i (t :: a) = from i a.
Proof. intros Hi. rewrite from_cons. by case_decide. Qed.

Lemma from_snoc_ne i t a : input t <> i -> from i (a ++ [t]) = from i a.
Proof. intros Hi. rewrite from_app, from_cons_ne by done. apply app_nil_r. Qed.

Lemma from_drained_aux (i k : nat) (l : list (list StreamElement)) :
  from i (concat (imap (fun j buf => Tagged (k + j) <$> buf) l)) =
  if decide (k <= i)%nat then l !!! (i - k)%nat else [].
Proof.
  revert k. induction l as [|buf l IH]; intros k; [by case_decide|].
  cbn [imap concat]. rewrite from_app.
  replace (concat (imap ((fun j buf => Tagged (k + j) <$> buf) ∘ S) l))
    with (concat (imap (fun j buf => Tagged (S k + j) <$> buf) l)).
  2:{ f_equal. apply imap_ext. intros j x _. unfold compose. by replace (S k + j)%nat with (k + S j)%nat by lia. }
  rewrite IH. replace (k + 0)%nat with k by lia.
  assert (from i (Tagged k <$> buf) = if decide (k = i) then buf else []) as ->.
  { clear. induction buf as [|e buf IH]; [by case_decide|].
    cbn [fmap list_fmap]. rewrite from_cons. cbn [input elem].
    change (list_fmap _ _ (Tagged k) buf) with (Tagged k <$> buf). rewrite IH.
    by case_decide. }
  destruct (decide (k = i)) as [->|].
  - rewrite !decide_False by lia. rewrite decide_True by lia.
    rewrite Nat.sub_diag, app_nil_r. done.
  - destruct (decide (k <= i)%nat).
    + rewrite decide_True by lia. destruct (i - k)%nat as [|j] eqn:E; [lia|].
      replace (i - S k)%nat with j by lia. done.
    + by rewrite decide_False by lia.
Qed.

Lemma from_drained i l : from i (drained l) = l !!! i.
Proof.
  unfold drained. pose proof (from_drained_aux i 0 l) as E. cbn [plus] in E.
  rewrite E, decide_True by lia. by rewrite Nat.sub_0_r.
Qed.

Lemma length_drained l : length (drained l) = sum_list (length <$> l).
Proof.
  unfold drained.
  enough (forall f : nat -> list StreamElement -> list tagged,
    (forall j b, length (f j b) = length b) ->
    length (concat (imap f l)) = sum_list (length <$> l)) as H.
  { apply H. intros j b. by rewrite length_fmap. }
  induction l as [|b l IH]; intros f Hf; [done|].
  cbn [imap concat fmap list_fmap sum_list]. rewrite length_app, Hf. f_equal.
  apply IH. intros j c. apply Hf.
Qed.

Lemma lookup_total_replicate_nil (n i : nat) :
  (replicate n ([] : list StreamElement)) !!! i = [].
Proof.
  destruct (decide (i < n)%nat); [by apply lookup_total_replicate_2|].
  rewrite list_lookup_total_alt, lookup_ge_None_2; [done|rewrite length_replicate; lia].
Qed.

(** * Order: nothing is lost, duplicated or reordered within an input *)

(** [arr] is what has arrived, [done] what has been delivered, in that order. *)
Record ordered (n : nat) (arr done : list tagged) (g : Gate) : Prop := {
  or_eos : length (endOfStream g) = n;
  or_marks : length (watermarks g) = n;
  or_aligned : length (alignedFor g) = n;
  or_buffered : length (buffered g) = n;
  or_arr : Forall (fun t => (input t < n)%nat) arr;
  or_replay : Forall (fun t => (input t < n)%nat) (replay g);
  or_from i : from i arr = from i done ++ buffered g !!! i ++ from i (replay g);
  or_held i : buffered g !!! i <> [] -> aligning g = true /\ alignedFor g !!! i = true;
}.

Definition same_shape (g g' : Gate) : Prop :=
  length (endOfStream g') = length (endOfStream g) /\
  length (watermarks g') = length (watermarks g) /\
  length (alignedFor g') = length (alignedFor g) /\
  buffered g' = buffered g /\ replay g' = replay g.

Lemma push_advance_cases g :
  (push_advance g = g /\ minLive g <= out g) \/
  (push_advance g = append_pending (NewWatermarkElement (minLive g)) (set_out (minLive g) g) /\
   out g < minLive g).
Proof.
  unfold push_advance, advance. destruct (Z.leb_spec (minLive g) (out g)); auto.
Qed.

(** Holding an element back. *)
Lemma ordered_hold n arr done g t r :
  ordered n arr done g -> replay g = t :: r ->
  aligning g && (alignedFor g !!! input t) = true ->
  ordered n arr done
    (set_buffers (alter (fun buf => buf ++ [elem t]) (input t) (buffered g)) r g).
Proof.
  intros [? ? ? Hb Ha Hr Hf Hh] Er [Hal Hi]%andb_prop. rewrite Er in *.
  apply Forall_cons in Hr as [Ht Hr].
  split; cbn; [done|done|done|by rewrite length_alter|done|done|..].
  - intros i. rewrite Hf. f_equal. rewrite from_cons. case_decide as Hd.
    + subst i. rewrite list_lookup_total_alter_eq by lia. by rewrite <- app_assoc.
    + by rewrite list_lookup_total_alter_ne.
  - intros i. destruct (decide (input t = i)) as [<-|Hd]; [by split|].
    rewrite list_lookup_total_alter_ne by done. apply Hh.
Qed.

(** * Alignment: every checkpoint is a consistent cut *)

Abbreviation B := NewBarrierElement.
Abbreviation EOS := NewEndOfStreamElement.

(** [reached l z]: [z] is the initial watermark, or a watermark of [l] is at
    least [z]. *)
Definition reached (l : list StreamElement) (z : Z) : Prop :=
  z <= min_int64 \/ exists w, w ∈ marks l /\ z <= w.

Lemma reached_app l k z : reached l z -> reached (l ++ k) z.
Proof.
  intros [?|(w & Hw & ?)]; [by left|right]. exists w. rewrite marks_app, elem_of_app. auto.
Qed.

Lemma reached_last_mark l : reached l (last_mark l).
Proof.
  unfold last_mark, reached. destruct (last (marks l)) as [w|] eqn:E; cbn; [right|left; lia].
  exists w. split; [|lia]. apply last_Some in E as [k ->]. set_solver.
Qed.

(** [T] is everything the gate has decided to return. *)
Record cuts (n : nat) (done : list tagged) (T : list StreamElement) (g : Gate) : Prop := {
  cu_rec : records T = records (elem <$> done);
  cu_eos i : (i < n)%nat -> (endOfStream g !!! i = true <-> EOS ∈ from i done);
  cu_al i : (i < n)%nat -> alignedFor g !!! i = true ->
    aligning g = true /\ endOfStream g !!! i = false /\
    exists l b, from i done = l ++ [B b] /\ nb l = nb T;
  cu_un i : (i < n)%nat -> alignedFor g !!! i = false -> endOfStream g !!! i = false ->
    nb (from i done) = nb T;
  cu_dead i : (i < n)%nat -> endOfStream g !!! i = true -> (nb (from i done) <= nb T)%nat;
  cu_some : aligning g = true -> exists i b l, (i < n)%nat /\ alignedFor g !!! i = true /\
    barrier g = Some (B b) /\ from i done = l ++ [B b];
  cu_cut T1 b T2 : T = T1 ++ B b :: T2 -> exists done1 done2, done = done1 ++ done2 /\
    records T1 = records (elem <$> done1) /\
    (forall i, (i < n)%nat -> settled (S (nb T1)) (from i done1)) /\
    (forall i, (i < n)%nat -> EOS ∈ from i done1 \/ forall w, w ∈ marks T1 -> reached (from i done1) w) /\
    exists i, (i < n)%nat /\ last (from i done1) = Some (B b);
  cu_remaining : remaining g = Z.of_nat (length (filter (fun b => b = false) (endOfStream g)));
  cu_end : if closed g
           then (forall i, (i < n)%nat -> endOfStream g !!! i = true) /\
             exists T', T = T' ++ [EOS] /\ EOS ∉ T'
           else EOS ∉ T;
}.

(** The fields the alignment depends on. *)
Definition same_alignment (g g' : Gate) : Prop :=
  endOfStream g' = endOfStream g /\ remaining g' = remaining g /\ closed g' = closed g /\
  aligning g' = aligning g /\ barrier g' = barrier g /\ alignedFor g' = alignedFor g.

(** A delivery that is neither a barrier nor an end of stream. *)
Definition plain (g : Gate) (t : tagged) : Prop :=
  barrier_of (elem t) = None /\ elem t <> EOS /\ alignedFor g !!! input t = false.

Lemma plain_from g i l :
  Forall (plain g) l ->
  nb (from i l) = 0%nat /\ (EOS ∉ from i l) /\ (alignedFor g !!! i = true -> from i l = []).
Proof.
  induction 1 as [|t l (Hb & He & Ha) _ (IH1 & IH2 & IH3)]; [split_and!; [done|set_solver|done]|].
  rewrite from_cons. case_decide as Hd; [|done]. subst i.
  rewrite nb_cons, Hb, elem_of_cons. split_and!; [done| |congruence].
  intros [E|?]; [by rewrite E in He|done].
Qed.

Lemma split_barrier (T new T1 T2 : list StreamElement) b :
  barriers new = [] -> T ++ new = T1 ++ B b :: T2 -> exists T2', T = T1 ++ B b :: T2'.
Proof.
  intros Hn E. apply app_eq_app in E as [x [(-> & E)|(-> & ->)]].
  - destruct x as [|y x]; cbn in E; [subst; by cbn in Hn|].
    injection E as <- _. by exists x.
  - by rewrite barriers_app in Hn; apply app_eq_nil in Hn as [_ Hn].
Qed.

Lemma cuts_extend n done d T new g g' :
  cuts n done T g -> same_alignment g g' -> Forall (plain g) d ->
  barriers new = [] -> EOS ∉ new -> (new = [] \/ closed g = false) ->
  records new = records (elem <$> d) ->
  cuts n (done ++ d) (T ++ new) g'.
Proof.
  intros [Hr He Ha Hu Hd Hs Hc Hm Hcl] (E1 & E2 & E3 & E4 & E5 & E6) Hp Hb Hne Hn Hrec.
  assert (nb (T ++ new) = nb T) as HT by (rewrite nb_app; unfold nb; rewrite Hb; cbn; lia).
  split; rewrite ?E1, ?E2, ?E3, ?E4, ?E5, ?E6.
  - by rewrite fmap_app, !records_app, Hr, Hrec.
  - intros i Hi. destruct (plain_from g i d Hp) as (_ & Hx & _).
    rewrite He, from_app, elem_of_app by done. naive_solver.
  - intros i Hi Hai. destruct (plain_from g i d Hp) as (_ & _ & Hx).
    rewrite from_app, Hx, app_nil_r, HT by done. by apply Ha.
  - intros i Hi Hai Hei. destruct (plain_from g i d Hp) as (Hx & _ & _).
    rewrite from_app, nb_app, Hx, HT, Nat.add_0_r. by apply Hu.
  - intros i Hi Hei. destruct (plain_from g i d Hp) as (Hx & _ & _).
    rewrite from_app, nb_app, Hx, HT, Nat.add_0_r. by apply Hd.
  - intros (i & b & l & Hi & Hai & Hbr & Hf)%Hs. exists i, b, l.
    destruct (plain_from g i d Hp) as (_ & _ & Hx). by rewrite from_app, Hx, app_nil_r.
  - intros T1 b T2 (T2' & ET)%split_barrier; [|done].
    destruct (Hc _ _ _ ET) as (d1 & d2 & -> & ? & ? & ? & ?). exists d1, (d2 ++ d).
    by rewrite app_assoc.
  - done.
  - destruct (closed g); [|set_solver].
    destruct Hn as [->|?]; [|done]. by rewrite app_nil_r.
Qed.

Lemma cuts_same n done T g g' :
  cuts n done T g -> same_alignment g g' -> cuts n done T g'.
Proof.
  intros Hc Hs. rewrite <- (app_nil_r T), <- (app_nil_r done).
  by eapply cuts_extend; [exact Hc| | | |set_solver|left|].
Qed.

(** A barrier from an input that is live and not held back. *)
Lemma cuts_mark_barrier n done T g t b :
  cuts n done T g -> length (alignedFor g) = n -> (input t < n)%nat -> elem t = B b ->
  endOfStream g !!! input t = false -> alignedFor g !!! input t = false ->
  cuts n (done ++ [t]) T
    (set_aligning true (if aligning g then barrier g else Some (elem t))
       (<[input t := true]> (alignedFor g)) g).
Proof.
  intros [Hr He Ha Hu Hd Hs Hc Hm Hcl] Hl Hi Et Hlive Hun.
  split; cbn [aligning alignedFor endOfStream barrier remaining closed set_aligning].
  - rewrite fmap_app, records_app, <- Hr. cbn. rewrite Et. apply eq_sym, app_nil_r.
  - intros i Hin. rewrite He by done. destruct (decide (input t = i)) as [<-|Hne].
    + rewrite from_snoc_eq, Et. set_solver.
    + by rewrite from_snoc_ne.
  - intros i Hin Hai. destruct (decide (input t = i)) as [<-|Hne].
    + rewrite from_snoc_eq, Et. split; [done|]. split; [done|].
      exists (from (input t) done), b. split; [done|]. by apply Hu.
    + rewrite list_lookup_total_insert_ne in Hai by done. rewrite from_snoc_ne by done.
      destruct (Ha i Hin Hai) as (_ & ? & ?). done.
  - intros i Hin Hai Hei. destruct (decide (input t = i)) as [<-|Hne].
    + rewrite list_lookup_total_insert_eq in Hai by lia. done.
    + rewrite list_lookup_total_insert_ne in Hai by done. rewrite from_snoc_ne by done. by apply Hu.
  - intros i Hin Hei. destruct (decide (input t = i)) as [<-|Hne]; [congruence|].
    rewrite from_snoc_ne by done. by apply Hd.
  - intros _. destruct (aligning g) eqn:Eal.
    + destruct (Hs eq_refl) as (i & b' & l & Hin & Hai & Hbr & Hf). exists i, b', l.
      assert (input t <> i) by congruence.
      by rewrite list_lookup_total_insert_ne, from_snoc_ne by done.
    + exists (input t), b, (from (input t) done).
      rewrite list_lookup_total_insert_eq, from_snoc_eq, Et by lia. done.
  - intros T1 b' T2 (d1 & d2 & -> & ? & ? & ? & ?)%Hc. exists d1, (d2 ++ [t]). by rewrite app_assoc.
  - done.
  - done.
Qed.

Lemma filter_insert_false (l : list bool) (i : nat) :
  (i < length l)%nat -> l !!! i = false ->
  length (filter (fun b => b = false) l) =
  S (length (filter (fun b => b = false) (<[i := true]> l))).
Proof.
  revert i. induction l as [|x l IH]; intros [|i] Hi Hx; [cbn in Hi; lia..| |].
  - change (x = false) in Hx. subst x. change (<[0%nat := true]> (false :: l)) with (true :: l).
    by rewrite filter_cons_True, filter_cons_False.
  - change (<[S i := true]> (x :: l)) with (x :: <[i := true]> l).
    rewrite !filter_cons. cbn in Hi. specialize (IH i ltac:(lia) Hx).
    case_decide; cbn [length]; lia.
Qed.

Lemma cuts_mark_eos n done T g t :
  cuts n done T g -> length (endOfStream g) = n -> (input t < n)%nat -> elem t = EOS ->
  endOfStream g !!! input t = false -> alignedFor g !!! input t = false -> closed g = false ->
  cuts n (done ++ [t]) T
    (set_eos (<[input t := true]> (endOfStream g)) (remaining g - 1) (closed g) g).
Proof.
  intros [Hr He Ha Hu Hd Hs Hc Hm Hcl] Hl Hi Et Hlive Hun Hcls.
  split; cbn [aligning alignedFor endOfStream barrier remaining closed set_eos].
  - rewrite fmap_app, records_app, <- Hr. cbn. rewrite Et. apply eq_sym, app_nil_r.
  - intros i Hin. destruct (decide (input t = i)) as [<-|Hne].
    + rewrite from_snoc_eq, Et, list_lookup_total_insert_eq by lia. set_solver.
    + by rewrite from_snoc_ne, list_lookup_total_insert_ne, He by done.
  - intros i Hin Hai. assert (input t <> i) by congruence.
    rewrite from_snoc_ne, list_lookup_total_insert_ne by done. by apply Ha.
  - intros i Hin Hai. destruct (decide (input t = i)) as [<-|Hne].
    + by rewrite list_lookup_total_insert_eq by lia.
    + rewrite from_snoc_ne, list_lookup_total_insert_ne by done. by apply Hu.
  - intros i Hin. destruct (decide (input t = i)) as [<-|Hne].
    + intros _. rewrite from_snoc_eq, nb_app, Et, Hu by done. cbn. lia.
    + rewrite from_snoc_ne, list_lookup_total_insert_ne by done. by apply Hd.
  - intros (i & b & l & Hin & Hai & Hbr & Hf)%Hs. exists i, b, l.
    by rewrite from_snoc_ne by congruence.
  - intros T1 b' T2 (d1 & d2 & -> & ? & ? & ? & ?)%Hc. exists d1, (d2 ++ [t]). by rewrite app_assoc.
  - rewrite Hm, (filter_insert_false (endOfStream g) (input t)) by (lia || done). lia.
  - by rewrite Hcls in *.
Qed.

(** The last input to end closes the gate: nothing is being aligned then. *)
Lemma cuts_close n done T g :
  cuts n done T g -> (forall i, (i < n)%nat -> endOfStream g !!! i = true) -> closed g = false ->
  cuts n done (T ++ [EOS]) (append_pending EOS (set_eos (endOfStream g) (remaining g) true g)).
Proof.
  intros [Hr He Ha Hu Hd Hs Hc Hm Hcl] Hall Hcls. rewrite Hcls in Hcl.
  assert (nb (T ++ [EOS]) = nb T) as HT by (rewrite nb_app; cbn; lia).
  split; cbn [aligning alignedFor endOfStream barrier remaining closed set_eos append_pending set_pending];
    rewrite ?HT; [|done|done|done|done|done| |done|].
  - rewrite records_app, Hr. apply app_nil_r.
  - intros T1 b T2 (T2' & ET)%split_barrier; [|done]. by eapply Hc.
  - split; [done|]. by exists T.
Qed.

Lemma settled_last l b : settled (S (nb l)) (l ++ [B b]).
Proof. split; [apply upto_barrier|]. left. rewrite nb_app. cbn. lia. Qed.

Lemma existsb_seq_false (f : nat -> bool) k :
  existsb f (seq 0 k) = false -> forall i, (i < k)%nat -> f i = false.
Proof.
  intros E i Hi. destruct (f i) eqn:Ef; [|done].
  enough (existsb f (seq 0 k) = true) by congruence.
  apply existsb_exists. exists i. split; [|done]. apply in_seq. lia.
Qed.

(** Completing an alignment: every live input has delivered its barrier. *)
Lemma cuts_complete n done T g b :
  cuts n done T g -> length (alignedFor g) = n -> aligning g = true ->
  awaitingBarrier g = false -> barrier g = Some (B b) ->
  (forall i w, (i < n)%nat -> live g i = true -> w ∈ marks T -> reached (from i done) w) ->
  cuts n done (T ++ [B b])
    (set_aligning false None (replicate n false) (append_pending (B b) g)).
Proof.
  intros Hcu Hl Hal Haw Hbr Hreach.
  destruct Hcu as [Hr He Ha Hu Hd Hs Hc Hm Hcl].
  assert (forall i, (i < n)%nat -> endOfStream g !!! i = false -> alignedFor g !!! i = true) as Hall.
  { intros i Hi Hlive. unfold awaitingBarrier in Haw. rewrite Hal in Haw. cbn [negb] in Haw.
    rewrite Hl in Haw. apply (existsb_seq_false _ _) with (i := i) in Haw; [|done].
    unfold live in Haw. rewrite Hlive in Haw. cbn in Haw. by destruct (alignedFor g !!! i). }
  destruct (Hs Hal) as (j & b' & l & Hj & Haj & Hbj & Hfj).
  assert (closed g = false) as Hncl.
  { destruct (closed g); [|done]. destruct Hcl as [Hdead _].
    destruct (Ha j Hj Haj) as (_ & Hlj & _). rewrite Hdead in Hlj by done. done. }
  rewrite Hncl in Hcl.
  assert (nb (T ++ [B b]) = S (nb T)) as HT by (rewrite nb_app; cbn; lia).
  split; cbn [aligning alignedFor endOfStream barrier remaining closed set_aligning append_pending set_pending];
    rewrite ?HT; [|done| | | |done| |done|].
  - rewrite records_app, Hr. apply app_nil_r.
  - intros i Hi. by rewrite lookup_total_replicate_2.
  - intros i Hi _ Hlive. destruct (Ha i Hi (Hall i Hi Hlive)) as (_ & _ & l' & b'' & -> & <-).
    rewrite nb_app. cbn. lia.
  - intros i Hi Hdead. specialize (Hd i Hi Hdead). lia.
  - intros T1 b1 T2 E. destruct T2 as [|e T2 _] using rev_ind.
    + apply app_inj_tail in E as [<- [= <-]]. exists done, []. rewrite app_nil_r.
      split_and!; [done|done| | |].
      * intros i Hi. destruct (endOfStream g !!! i) eqn:Ei.
        -- split; [|right; by apply He]. apply upto_all. specialize (Hd i Hi Ei). lia.
        -- destruct (Ha i Hi (Hall i Hi Ei)) as (_ & _ & l' & b'' & -> & <-). apply settled_last.
      * intros i Hi. destruct (endOfStream g !!! i) eqn:Ei; [left; by apply He|right].
        intros w. apply Hreach; [done|]. unfold live. by rewrite Ei.
      * exists j. split; [done|]. rewrite Hfj, last_snoc. congruence.
    + rewrite app_comm_cons, app_assoc in E. apply app_inj_tail in E as [E _]. by eapply Hc.
  - rewrite Hncl. set_solver.
Qed.

(** * Watermarks: the minimum over the live inputs, and it only rises *)

Section Minimum.
Context (g : Gate).

Let step (min : Z) (i : nat) : Z :=
  let w := watermarks g !!! i in
  if negb (live g i) then min else if w <? min then w else min.

Lemma minLive_fold_glb (l : list nat) (m z : Z) :
  z <= foldl step m l <->
  z <= m /\ (forall i, i ∈ l -> live g i = true -> z <= watermarks g !!! i).
Proof.
  revert m. induction l as [|i l IH]; intros m; cbn [foldl].
  { split; [|tauto]. intros ?. split; [done|set_solver]. }
  rewrite IH. unfold step. setoid_rewrite elem_of_cons.
  destruct (live g i) eqn:El; cbn [negb].
  - destruct (Z.ltb_spec (watermarks g !!! i) m).
    + split; [intros [? Hx]|intros [? Hx]]; split; [lia| |by apply Hx; [left|]|naive_solver].
      intros j [->|?]; [done|by apply Hx].
    + split; [intros [? Hx]|intros [? Hx]]; split; [lia| |lia|naive_solver].
      intros j [->|?]; [intros; lia|by apply Hx].
  - split; intros [? Hx]; (split; [done|]); [|naive_solver].
    intros j [->|?]; [congruence|by apply Hx].
Qed.

Lemma minLive_glb (z : Z) :
  z <= minLive g <->
  z <= max_int64 /\
  (forall i, (i < length (watermarks g))%nat -> live g i = true -> z <= watermarks g !!! i).
Proof.
  change (minLive g) with (foldl step max_int64 (seq 0 (length (watermarks g)))).
  rewrite minLive_fold_glb. setoid_rewrite elem_of_seq.
  split; intros [? Hx]; (split; [done|]); intros i Hi; apply Hx; lia.
Qed.

Lemma minLive_le i :
  (i < length (watermarks g))%nat -> live g i = true -> minLive g <= watermarks g !!! i.
Proof. intros Hi Hl. by apply (proj1 (minLive_glb (minLive g)) (Z.le_refl _)). Qed.

Lemma minLive_max : minLive g <= max_int64.
Proof. by apply (proj1 (minLive_glb (minLive g)) (Z.le_refl _)). Qed.

Lemma minLive_none :
  (forall i, (i < length (watermarks g))%nat -> live g i = false) -> minLive g = max_int64.
Proof.
  intros Hn. apply Z.le_antisymm; [apply minLive_max|]. apply minLive_glb.
  split; [done|]. intros i Hi Hl. rewrite Hn in Hl; done.
Qed.
End Minimum.

Lemma last_mark_mark l w : last_mark (l ++ [NewWatermarkElement w]) = w.
Proof.
  unfold last_mark. rewrite marks_app. change (marks [NewWatermarkElement w]) with [w].
  by rewrite last_snoc.
Qed.

Lemma last_mark_other l e : mark_of e = None -> last_mark (l ++ [e]) = last_mark l.
Proof.
  intros He. unfold last_mark. rewrite marks_app. unfold marks at 2. cbn. rewrite He.
  by rewrite app_nil_r.
Qed.

Record marked (n : nat) (done : list tagged) (T : list StreamElement) (g : Gate) : Prop := {
  ma_input i : (i < n)%nat -> watermarks g !!! i = last_mark (from i done);
  ma_out : out g = last_mark T;
  ma_sorted : StronglySorted Z.lt (marks T);
  ma_above w : w ∈ marks T -> min_int64 < w <= Z.min (out g) max_int64;
  ma_reached i : (i < n)%nat -> live g i = true -> reached (from i done) (out g);
  ma_timely : (forall i, (i < n)%nat -> timely (from i done)) -> timely T;
}.

(** The fields the watermark depends on. *)
Definition same_marks (g g' : Gate) : Prop :=
  watermarks g' = watermarks g /\ out g' = out g /\
  forall i, live g' i = true -> live g i = true.

Lemma marked_same n done T g g' :
  marked n done T g -> same_marks g g' -> marked n done T g'.
Proof.
  intros [? ? ? ? Hr ?] (E1 & E2 & E3). split; rewrite ?E1, ?E2; [done..| |done].
  intros i Hi Hl. by apply Hr; [|apply E3].
Qed.

(** Delivering an element that is not a watermark. *)
Lemma marked_deliver n done T g g' t :
  marked n done T g -> same_marks g g' -> mark_of (elem t) = None ->
  marked n (done ++ [t]) T g'.
Proof.
  intros [Hi Ho Hs Ha Hr Ht] (E1 & E2 & Hl) Hm. split; rewrite ?E1, ?E2; [|done|done|done| |].
  - intros i Hin. rewrite Hi by done. destruct (decide (input t = i)) as [<-|].
    + by rewrite from_snoc_eq, last_mark_other.
    + by rewrite from_snoc_ne.
  - intros i Hin Hli. rewrite from_app. apply reached_app. by apply Hr; [|apply Hl].
  - intros Htl. apply Ht. intros i Hin. specialize (Htl i Hin). rewrite from_app in Htl.
    by eapply timely_prefix.
Qed.

(** A watermark from an input. *)
Lemma marked_mark n done T g t w :
  marked n done T g -> length (watermarks g) = n -> (input t < n)%nat ->
  elem t = NewWatermarkElement w ->
  marked n (done ++ [t]) T (set_watermarks (<[input t := w]> (watermarks g)) g).
Proof.
  intros [Hi Ho Hs Ha Hr Ht] Hl Hin Et. split; cbn [watermarks out set_watermarks]; [|done|done|done| |].
  - intros i Hi'. destruct (decide (input t = i)) as [<-|].
    + by rewrite from_snoc_eq, Et, last_mark_mark, list_lookup_total_insert_eq by lia.
    + by rewrite from_snoc_ne, list_lookup_total_insert_ne, Hi by done.
  - intros i Hi' Hli. rewrite from_app. apply reached_app. by apply Hr.
  - intros Htl. apply Ht. intros i Hi'. specialize (Htl i Hi'). rewrite from_app in Htl.
    by eapply timely_prefix.
Qed.

(** Returning a barrier or an end of stream. *)
Lemma marked_return n done T g g' e :
  marked n done T g -> same_marks g g' -> mark_of e = None -> record_of e = None ->
  marked n done (T ++ [e]) g'.
Proof.
  intros [Hi Ho Hs Ha Hr Ht] (E1 & E2 & Hl) Hm Hrec.
  assert (marks (T ++ [e]) = marks T) as HT.
  { rewrite marks_app. unfold marks at 2. cbn. rewrite Hm. apply app_nil_r. }
  split; rewrite ?E1, ?E2, ?HT; [done| |done|done| |].
  - by rewrite last_mark_other.
  - intros i Hin Hli. by apply Hr; [|apply Hl].
  - intros Htl. apply timely_snoc; [by apply Ht|]. by intros r ->.
Qed.

(** Returning a record: its input is live, so that the watermark is at or
    below one that precedes the record there. *)
Lemma marked_record n done T g t r :
  marked n done T g -> (input t < n)%nat -> live g (input t) = true ->
  elem t = NewRecordElement r ->
  marked n (done ++ [t]) (T ++ [elem t]) (append_pending (elem t) g).
Proof.
  intros [Hi Ho Hs Ha Hr Ht] Hin Hli Et. rewrite Et.
  assert (marks (T ++ [NewRecordElement r]) = marks T) as HT by (rewrite marks_app; apply app_nil_r).
  split; cbn [watermarks out append_pending set_pending]; rewrite ?HT; [| |done|done| |].
  - intros i Hi'. rewrite Hi by done. destruct (decide (input t = i)) as [<-|].
    + by rewrite from_snoc_eq, last_mark_other by (by rewrite Et).
    + by rewrite from_snoc_ne.
  - by rewrite last_mark_other.
  - intros i Hi' Hl. rewrite from_app. apply reached_app. by apply Hr.
  - intros Htl. apply timely_snoc.
    + apply Ht. intros i Hi'. specialize (Htl i Hi'). rewrite from_app in Htl. by eapply timely_prefix.
    + intros r' [= <-] w Hw. destruct (Ha w Hw) as [Hlo Hhi].
      destruct (Hr _ Hin Hli) as [?|(v & Hv & Hle)]; [lia|].
      specialize (Htl _ Hin). rewrite from_snoc_eq, Et in Htl.
      pose proof (timely_record _ _ _ Htl v Hv). lia.
Qed.

(** Forwarding the minimum. *)
Lemma marked_advance n done T g :
  marked n done T g -> length (watermarks g) = n -> out g < minLive g ->
  marked n done (T ++ [NewWatermarkElement (minLive g)])
    (append_pending (NewWatermarkElement (minLive g)) (set_out (minLive g) g)).
Proof.
  intros [Hi Ho Hs Ha Hr Ht] Hl Hlt.
  assert (marks (T ++ [NewWatermarkElement (minLive g)]) = marks T ++ [minLive g]) as HT
    by (by rewrite marks_app).
  split; cbn [watermarks out append_pending set_pending set_out]; rewrite ?HT; [done| | | | |].
  - by rewrite last_mark_mark.
  - apply StronglySorted_snoc; [done|]. apply Forall_forall. intros w Hw%Ha. lia.
  - pose proof (minLive_max g).
    intros w [Hw%Ha| ->%list_elem_of_singleton]%elem_of_app; [lia|]. split; [|lia].
    destruct (marks T) as [|x l] eqn:ET; [|specialize (Ha x ltac:(left)); lia].
    unfold last_mark in Ho. rewrite ET in Ho. cbn in Ho. lia.
  - intros i Hin Hli. change (live g i = true) in Hli.
    pose proof (minLive_le g i ltac:(lia) Hli) as Hle. rewrite Hi in Hle by done.
    destruct (reached_last_mark (from i done)) as [?|(w & Hw & ?)]; [left; lia|right].
    exists w. split; [done|lia].
  - intros Htl. apply timely_snoc; [by apply Ht|done].
Qed.

(** * The invariant of the gate *)

Lemma ordered_mono n arr done g g' :
  ordered n arr done g -> same_shape g g' ->
  (forall i, aligning g = true -> alignedFor g !!! i = true ->
     aligning g' = true /\ alignedFor g' !!! i = true) ->
  ordered n arr done g'.
Proof.
  intros [? ? ? ? ? ? ? Hh] (E1 & E2 & E3 & E4 & E5) Hm.
  split; rewrite ?E4, ?E5; [congruence..|done|done|done|].
  intros i [? ?]%Hh. by apply Hm.
Qed.

(** Delivering the next element of an input that is not held back. *)
Lemma ordered_deliver n arr done g t r :
  ordered n arr done g -> replay g = t :: r ->
  aligning g && (alignedFor g !!! input t) = false ->
  ordered n arr (done ++ [t]) (set_replay r g).
Proof.
  intros [? ? ? ? ? Hr Hf Hh] Er Hna. rewrite Er in *. apply Forall_cons in Hr as [Ht Hr].
  split; cbn [endOfStream watermarks alignedFor aligning buffered replay set_replay set_buffers];
    [done|done|done|done|done|done| |done].
  intros i. rewrite Hf, from_app, !from_cons. case_decide as Hd; [|by rewrite app_nil_r].
  subst i. rewrite <- app_assoc. f_equal. destruct (buffered g !!! input t) eqn:Eb; [done|].
  destruct (Hh (input t)) as [Ha1 Ha2]; [by rewrite Eb|]. by rewrite Ha1, Ha2 in Hna.
Qed.

Lemma ordered_drain n arr done g :
  ordered n arr done g ->
  ordered n arr done (drainBuffers (set_aligning false None (replicate n false) g)).
Proof.
  intros [? ? ? ? Ha Hr Hf Hh].
  assert (forall i, from i (drained (buffered g) ++ replay g) =
    buffered g !!! i ++ from i (replay g)) as Hd by (intros i; by rewrite from_app, from_drained).
  split; cbn [endOfStream watermarks alignedFor aligning buffered replay set_buffers
    drainBuffers set_aligning]; [done|done|by rewrite length_replicate|by rewrite length_replicate|done| | |].
  - apply Forall_app. split; [|done]. apply Forall_forall. intros t Ht.
    assert (elem t ∈ from (input t) (drained (buffered g))) as Hin.
    { unfold from. apply list_elem_of_fmap. exists t. split; [done|]. by apply list_elem_of_filter. }
    rewrite from_drained in Hin. destruct (decide (input t < n)%nat); [done|].
    rewrite list_lookup_total_alt, lookup_ge_None_2 in Hin by lia. by apply elem_of_nil in Hin.
  - intros i. rewrite lookup_total_replicate_nil, Hd. apply Hf.
  - intros i. by rewrite lookup_total_replicate_nil.
Qed.

Record weak_inv (n : nat) (arr done : list tagged) (T : list StreamElement) (g : Gate) : Prop := {
  wi_ordered : ordered n arr done g;
  wi_cuts : cuts n done T g;
  wi_marked : marked n done T g;
}.

(** Between two elements nothing is due: an alignment waits for a live input,
    the minimum has been forwarded, and an open gate has a live input. *)
Definition waits (g : Gate) : Prop := aligning g = true -> awaitingBarrier g = true.
Definition forwarded_min (g : Gate) : Prop := minLive g <= out g.
Definition open_live (n : nat) (g : Gate) : Prop :=
  closed g = false -> (0 < n)%nat -> exists i, (i < n)%nat /\ endOfStream g !!! i = false.

Record gate_inv (n : nat) (arr done : list tagged) (T : list StreamElement) (g : Gate) : Prop := {
  gi_weak : weak_inv n arr done T g;
  gi_waits : waits g;
  gi_min : forwarded_min g;
  gi_open : open_live n g;
}.

Lemma weak_push n arr done T g :
  weak_inv n arr done T g -> closed g = false ->
  exists new, pending (push_advance g) = pending g ++ new /\ (length new <= 1)%nat /\
    weak_inv n arr done (T ++ new) (push_advance g) /\
    forwarded_min (push_advance g) /\ same_alignment g (push_advance g).
Proof.
  intros [Ho Hc Hm] Hcl. destruct (push_advance_cases g) as [[-> Hle]|[-> Hlt]].
  - exists []. rewrite !app_nil_r. by split_and!; [done|cbn; lia| | |].
  - exists [NewWatermarkElement (minLive g)].
    split_and!; [done|cbn; lia| |cbn; unfold forwarded_min; cbn; apply Z.le_refl|done].
    split; [by eapply ordered_mono| |apply marked_advance; [done|by apply Ho|done]].
    rewrite <- (app_nil_r done). eapply cuts_extend; [done|done|done|done|set_solver|by right|done].
Qed.

Lemma weak_complete n arr done T g :
  weak_inv n arr done T g -> forwarded_min g ->
  exists new, pending (completeAlignment g) = pending g ++ new /\ (length new <= 1)%nat /\
    weak_inv n arr done (T ++ new) (completeAlignment g) /\ waits (completeAlignment g) /\
    forwarded_min (completeAlignment g) /\
    endOfStream (completeAlignment g) = endOfStream g /\ closed (completeAlignment g) = closed g.
Proof.
  intros [Ho Hc Hm] Hf. unfold completeAlignment.
  destruct (negb (aligning g) || awaitingBarrier g) eqn:E.
  - exists []. rewrite !app_nil_r. split_and!; [done|cbn; lia|done| |done|done|done].
    intros Ha. rewrite Ha in E. done.
  - apply orb_false_elim in E as [Ha%negb_false_iff Hw].
    destruct (cu_some _ _ _ _ Hc Ha) as (i & b & l & _ & _ & Hb & _). rewrite Hb.
    pose proof (or_aligned _ _ _ _ Ho) as Hla.
    change (alignedFor (append_pending (B b) g)) with (alignedFor g). rewrite Hla.
    exists [B b]. split_and!; [done|cbn; lia| |done|done|done|done]. split.
    + apply ordered_drain. by eapply ordered_mono.
    + assert (forall i w, (i < n)%nat -> live g i = true -> w ∈ marks T -> reached (from i done) w) as Hre.
      { intros j v Hj Hlj Hv. pose proof (ma_above _ _ _ _ Hm v Hv).
        destruct (ma_reached _ _ _ _ Hm j Hj Hlj) as [?|(v' & Hv' & ?)]; [left; lia|right].
        exists v'. split; [done|lia]. }
      pose proof (cuts_complete _ _ _ _ _ Hc Hla Ha Hw Hb Hre) as Hc'.
      by eapply cuts_same.
    + eapply marked_return; [done|done|done|done].
Qed.

Lemma open_of_live n done T g i :
  cuts n done T g -> (i < n)%nat -> endOfStream g !!! i = false -> closed g = false.
Proof.
  intros Hc Hi He. pose proof (cu_end _ _ _ _ Hc) as Hcl. destruct (closed g); [|done].
  destruct Hcl as [Hall _]. rewrite Hall in He; done.
Qed.

Lemma onBarrier_mark t b g :
  onBarrier t b g =
  let g := set_aligning true (if aligning g then barrier g else Some (elem t))
             (<[input t := true]> (alignedFor g)) g in
  if awaitingBarrier g then
    match duringAlignment (gate_faults g) (CheckpointID b) (delivered g) with
    | Err e => set_err (Some e) g
    | Ok _ => g
    end
  else completeAlignment g.
Proof. unfold onBarrier. destruct (aligning g) eqn:E; [|done]. cbn [negb]. by rewrite E. Qed.

Lemma filter_false_nil (l : list bool) (i : nat) :
  length (filter (fun b => b = false) l) = 0%nat -> (i < length l)%nat -> l !!! i = true.
Proof.
  intros Hz Hi. destruct (l !!! i) eqn:E; [done|].
  rewrite (filter_insert_false l i Hi E) in Hz. done.
Qed.

Lemma filter_false_some (l : list bool) :
  length (filter (fun b => b = false) l) <> 0%nat ->
  exists i, (i < length l)%nat /\ l !!! i = false.
Proof.
  induction l as [|x l IH]; [done|]. intros Hn. destruct x.
  - rewrite filter_cons_False in Hn by done. destruct (IH Hn) as (i & ? & ?).
    exists (S i). cbn. split; [lia|done].
  - exists 0%nat. cbn. split; [lia|done].
Qed.

Section Deliver.
Context (n : nat) (arr done : list tagged) (T : list StreamElement) (g : Gate) (t : tagged).
Context (Hin : (input t < n)%nat) (Hlive : endOfStream g !!! input t = false).
Context (Hun : alignedFor g !!! input t = false).
(** The gate with [t] taken off the front of the stream. *)
Context (Ho : ordered n arr (done ++ [t]) g) (Hc : cuts n done T g) (Hm : marked n done T g).
Context (Hw : waits g) (Hf : forwarded_min g) (Hop : open_live n g).

Definition delivers (g' : Gate) : Prop :=
  exists new, pending g' = pending g ++ new /\ (length new <= 3)%nat /\
    gate_inv n arr (done ++ [t]) (T ++ new) g'.

Lemma deliver_record r : elem t = NewRecordElement r -> delivers (append_pending (elem t) g).
Proof.
  intros Et. exists [elem t]. split_and!; [done|cbn; lia|]. split; [split|done|done|done].
  - by eapply ordered_mono.
  - eapply cuts_extend; [done|done| | | | |done].
    + constructor; [|done]. unfold plain. by rewrite Et.
    + by rewrite Et.
    + rewrite Et. set_solver.
    + right. by eapply open_of_live.
  - eapply marked_record; [done|done| |done]. unfold live. by rewrite Hlive.
Qed.

Lemma deliver_mark w :
  elem t = NewWatermarkElement w ->
  delivers (push_advance (set_watermarks (<[input t := w]> (watermarks g)) g)).
Proof.
  intros Et. set (g1 := set_watermarks _ g).
  assert (weak_inv n arr (done ++ [t]) T g1) as Hw1.
  { split.
    - destruct Ho. by split; cbn; rewrite ?length_insert.
    - rewrite <- (app_nil_r T). eapply cuts_extend; [done|done| |done|set_solver|by left|].
      + constructor; [|done]. unfold plain. by rewrite Et.
      + cbn. by rewrite Et.
    - apply marked_mark; [done|by apply Ho|done|done]. }
  destruct (weak_push _ _ _ _ _ Hw1) as (new & Hp & Hl & Hwk & Hmin & Ha).
  { change (closed g = false). by eapply open_of_live. }
  exists new. split_and!; [done|lia|]. split; [done| |done|].
  - destruct Ha as (E1 & _ & _ & E4 & _ & E6). intros Hal.
    unfold awaitingBarrier, live in *. rewrite E4 in *. rewrite E1, E6. by apply Hw.
  - destruct Ha as (E1 & _ & E3 & _). unfold open_live. rewrite E1, E3. exact Hop.
Qed.

Lemma deliver_barrier b : elem t = B b -> delivers (onBarrier t b g).
Proof.
  intros Et. rewrite onBarrier_mark. cbn zeta. set (g1 := set_aligning _ _ _ g).
  assert (weak_inv n arr (done ++ [t]) T g1) as Hw1.
  { split.
    - eapply ordered_mono; [done|by split_and!; cbn; rewrite ?length_insert|].
      intros i Ha Hi. cbn. split; [done|]. destruct (decide (input t = i)) as [<-|].
      + destruct Ho. rewrite list_lookup_total_insert_eq; [done|lia].
      + by rewrite list_lookup_total_insert_ne.
    - eapply cuts_mark_barrier; [done|by apply Ho|done..].
    - eapply marked_deliver; [done|done|by rewrite Et]. }
  assert (open_live n g1) as Hop1 by exact Hop.
  destruct (awaitingBarrier g1) eqn:Ew.
  - exists []. rewrite !app_nil_r. split_and!; [by case_match|cbn; lia|].
    assert (waits g1) as Hws1 by (intros ?; exact Ew).
    assert (gate_inv n arr (done ++ [t]) T g1) as Hg by (by split).
    case_match; [done|]. destruct Hg as [[Ho1 Hc1 Hm1] ? ? ?]. split; [split|done|done|done].
    + by eapply ordered_mono.
    + by eapply cuts_same.
    + by eapply marked_same.
  - destruct (weak_complete _ _ _ _ _ Hw1 Hf) as (new & Hp & Hl & Hwk & Hws & Hmin & E1 & E2).
    exists new. split_and!; [done|lia|]. split; [done..|].
    unfold open_live. rewrite E1, E2. exact Hop1.
Qed.

Lemma deliver_eos : elem t = EOS -> delivers (onEndOfStream t g).
Proof.
  intros Et. pose proof (open_of_live _ _ _ _ _ Hc Hin Hlive) as Hcl.
  unfold onEndOfStream. rewrite Hlive. cbn zeta. set (g1 := set_eos _ _ _ g).
  assert (weak_inv n arr (done ++ [t]) T g1) as Hw1.
  { split.
    - destruct Ho. by split; cbn; rewrite ?length_insert.
    - apply cuts_mark_eos; [done|by apply Ho|done..].
    - eapply marked_deliver; [done| |by rewrite Et]. split_and!; [done|done|].
      intros i. unfold live. cbn. destruct (decide (input t = i)) as [<-|].
      + rewrite list_lookup_total_insert_eq; [done|]. destruct Ho. lia.
      + by rewrite list_lookup_total_insert_ne. }
  destruct (weak_push _ _ _ _ _ Hw1 Hcl) as (new1 & Hp1 & Hl1 & Hwk1 & Hmin1 & Ha1).
  set (g2 := push_advance g1) in *. destruct Ha1 as (E1 & E2 & E3 & E4 & E5 & E6).
  set (g3 := if (remaining g2 =? 0) && negb (closed g2) then _ else _).
  assert (exists new2, pending g3 = pending g2 ++ new2 /\ (length new2 <= 1)%nat /\
    weak_inv n arr (done ++ [t]) ((T ++ new1) ++ new2) g3 /\ forwarded_min g3 /\
    open_live n g3) as (new2 & Hp2 & Hl2 & Hwk2 & Hmin2 & Hop2).
  { pose proof (or_eos _ _ _ _ (wi_ordered _ _ _ _ _ Hwk1)) as Hlen.
    pose proof (cu_remaining _ _ _ _ (wi_cuts _ _ _ _ _ Hwk1)) as Hrem.
    unfold g3. rewrite E3 in *. change (closed g1) with (closed g). rewrite Hcl.
    rewrite andb_true_r. destruct (Z.eqb_spec (remaining g2) 0) as [Hz|Hz].
    - exists [EOS]. split_and!; [done|cbn; lia| |done|done].
      destruct Hwk1 as [Ho2 Hc2 Hm2]. split.
      + by eapply ordered_mono.
      + apply cuts_close; [done| |by rewrite E3].
        intros i Hi. apply filter_false_nil; lia.
      + by eapply marked_return.
    - exists []. rewrite !app_nil_r. split_and!; [done|cbn; lia|done|done|].
      intros _ _. destruct (filter_false_some (endOfStream g2)) as (i & Hi & Hf'); [lia|].
      exists i. split; [lia|done]. }
  destruct (weak_complete _ _ _ _ _ Hwk2 Hmin2) as (new3 & Hp3 & Hl3 & Hwk3 & Hws3 & Hmin3 & F1 & F2).
  exists (new1 ++ new2 ++ new3). split_and!.
  - rewrite Hp3, Hp2, Hp1. by rewrite <- !app_assoc.
  - rewrite !length_app. lia.
  - split; [by rewrite !app_assoc|done|done|]. unfold open_live. rewrite F1, F2. exact Hop2.
Qed.

Lemma deliver_inv : delivers (deliver t g).
Proof.
  unfold deliver. destruct (elem t) as [r|w|b|] eqn:Et.
  - rewrite <- Et. by eapply deliver_record.
  - by apply deliver_mark.
  - by apply deliver_barrier.
  - by apply deliver_eos.
Qed.
End Deliver.

Lemma handle_inv n arr done T g t r :
  gate_inv n arr done T g -> replay g = t :: r -> well_ended (from (input t) arr) ->
  exists done' new, pending (handle t (set_replay r g)) = pending g ++ new /\
    gate_inv n arr done' (T ++ new) (handle t (set_replay r g)).
Proof.
  intros [[Ho Hc Hm] Hw Hf Hop] Er Hwe. unfold handle.
  change (aligning (set_replay r g)) with (aligning g).
  change (alignedFor (set_replay r g)) with (alignedFor g).
  pose proof (or_replay _ _ _ _ Ho) as Hr. rewrite Er in Hr. apply Forall_cons in Hr as [Hin _].
  destruct (aligning g && (alignedFor g !!! input t)) eqn:Eh.
  - exists done, []. rewrite !app_nil_r. split; [done|]. split; [split|done|done|done].
    + exact (ordered_hold _ _ _ _ _ _ Ho Er Eh).
    + by eapply cuts_same.
    + by eapply marked_same.
  - assert (endOfStream g !!! input t = false) as Hlive.
    { destruct (endOfStream g !!! input t) eqn:E; [|done].
      apply (cu_eos _ _ _ _ Hc _ Hin) in E. rewrite (or_from _ _ _ _ Ho) in Hwe.
      apply (well_ended_app _ _ Hwe) in E. rewrite Er, from_cons_eq in E.
      by apply app_eq_nil in E as [_ ?]. }
    assert (alignedFor g !!! input t = false) as Hun.
    { destruct (alignedFor g !!! input t) eqn:E; [|done].
      destruct (cu_al _ _ _ _ Hc _ Hin E) as [Ha _]. by rewrite Ha in Eh. }
    pose proof (ordered_deliver _ _ _ _ _ _ Ho Er Eh) as Ho'.
    assert (cuts n done T (set_replay r g)) as Hc' by (by eapply cuts_same).
    assert (marked n done T (set_replay r g)) as Hm' by (by eapply marked_same).
    destruct (deliver_inv n arr done T (set_replay r g) t Hin Hlive Hun Ho' Hc' Hm' Hw Hf Hop)
      as (new & Hp & _ & Hg). by exists (done ++ [t]), new.
Qed.

(** * Runs *)

(** [em] has been returned, and [merged] is still to come of [all]. *)
Definition run_inv (n : nat) (all : list tagged) (em : list StreamElement) (g : Gate)
    (merged : list tagged) : Prop :=
  exists arr done, all = arr ++ merged /\ gate_inv n arr done (em ++ pending g) g.

Definition arrivals_ok (n : nat) (all : list tagged) : Prop :=
  Forall (fun t => (input t < n)%nat) all /\ forall i, (i < n)%nat -> well_ended (from i all).

Lemma well_ended_from_prefix i arr merged :
  well_ended (from i (arr ++ merged)) -> well_ended (from i arr).
Proof.
  rewrite from_app. intros Hw l1 l2 E.
  specialize (Hw l1 (l2 ++ from i merged)). rewrite E, <- app_assoc in Hw.
  specialize (Hw eq_refl). by apply app_eq_nil in Hw as [-> _].
Qed.

Lemma gate_inv_arrive n arr done T g t :
  gate_inv n arr done T g -> replay g = [] -> (input t < n)%nat ->
  gate_inv n (arr ++ [t]) done T (set_replay [t] g).
Proof.
  intros [[Ho Hc Hm] Hw Hf Hop] Er Hin. split; [split|done|done|done].
  - destruct Ho as [? ? ? ? Ha Hr Hfr Hh].
    split; cbn [endOfStream watermarks alignedFor aligning buffered replay set_replay set_buffers];
      [done|done|done|done| |by constructor| |done].
    + apply Forall_app. by split; [|constructor].
    + intros i. rewrite from_app, Hfr, Er. change (from i []) with (@nil StreamElement).
      by rewrite app_nil_r, <- !app_assoc.
  - by eapply cuts_same.
  - by eapply marked_same.
Qed.

Lemma set_replay_id g : set_replay (replay g) g = g.
Proof. by destruct g. Qed.

Lemma recv_body_inv n all em g merged :
  arrivals_ok n all -> run_inv n all em g merged ->
  match recv_body g merged with
  | Return (Some e) g' merged' => run_inv n all (em ++ [e]) g' merged'
  | Return None g' merged' => run_inv n all em g' merged' /\
      (err g' = None -> pending g' = [] /\ replay g' = [] /\ merged' = [])
  | Continue g' merged' => run_inv n all em g' merged'
  end.
Proof.
  intros [Hin Hwe] (arr & done & -> & Hg). unfold recv_body.
  assert (forall t, t ∈ arr ++ merged -> well_ended (from (input t) (arr ++ merged))) as Hwe'.
  { intros t Ht. apply Hwe. by eapply (proj1 (Forall_forall _ _) Hin). }
  destruct (err g) as [e|] eqn:Ee.
  { split; [by exists arr, done|]. congruence. }
  destruct (pending g) as [|e p] eqn:Ep.
  2:{ exists arr, done. split; [done|]. cbn [pending set_pending].
      rewrite <- app_assoc. cbn [app]. destruct Hg as [[Ho Hc Hm] Hw Hf Hop].
      split; [split|done|done|done]; [by eapply ordered_mono|by eapply cuts_same|by eapply marked_same]. }
  destruct (replay g) as [|t r] eqn:Er; [destruct merged as [|t merged]|].
  - split; [exists arr, done; split; [done|by rewrite Ep]|done].
  - apply Forall_app in Hin as [_ [Ht _]%Forall_cons].
    pose proof (gate_inv_arrive _ _ _ _ _ _ Hg Er Ht) as Hg'.
    destruct (handle_inv _ _ _ _ _ _ _ Hg' eq_refl) as (done' & new & Hp & Hi).
    { replace (arr ++ t :: merged) with ((arr ++ [t]) ++ merged) in Hwe' by (by rewrite <- app_assoc).
      eapply well_ended_from_prefix, Hwe'. set_solver. }
    change (set_replay [] (set_replay [t] g)) with (set_replay [] g) in *.
    assert (set_replay [] g = g) as Eg by (rewrite <- Er; apply set_replay_id).
    rewrite Eg in *. exists (arr ++ [t]), done'.
    rewrite <- app_assoc. split; [done|]. rewrite Hp. cbn [pending set_replay set_buffers].
    rewrite app_assoc, Ep. exact Hi.
  - assert (t ∈ arr) as Ht.
    { pose proof (or_from _ _ _ _ (wi_ordered _ _ _ _ _ (gi_weak _ _ _ _ _ Hg)) (input t)) as Hf.
      rewrite Er, from_cons_eq in Hf. assert (elem t ∈ from (input t) arr) as Hx by (rewrite Hf; set_solver).
      unfold from in Hx. apply list_elem_of_fmap in Hx as (t' & E1 & [E2 Ht']%list_elem_of_filter).
      destruct t, t'. cbn in *. congruence. }
    destruct (handle_inv _ _ _ _ _ _ _ Hg Er) as (done' & new & Hp & Hi).
    { eapply well_ended_from_prefix, Hwe'. set_solver. }
    exists arr, done'. split; [done|]. rewrite Hp, app_assoc, Ep. exact Hi.
Qed.

(** ** Termination

    Every turn handles an element, or holds one back that was not held. *)

Definition held (g : Gate) : nat := length (replay g) + sum_list (length <$> buffered g).

Lemma sum_replicate_nil k : sum_list (length <$> replicate k ([] : list StreamElement)) = 0%nat.
Proof. induction k; done. Qed.

Lemma sum_alter_snoc (l : list (list StreamElement)) i e :
  (sum_list (length <$> alter (fun buf => buf ++ [e]) i l) <= S (sum_list (length <$> l)))%nat.
Proof.
  revert i. induction l as [|x l IH]; intros [|i]; cbn; [lia..| |].
  - rewrite length_app. cbn. lia.
  - change (list_alter (fun buf => buf ++ [e]) i l) with (alter (fun buf => buf ++ [e]) i l).
    change (list_fmap _ _ length ?l) with (length <$> l). specialize (IH i). lia.
Qed.

(** The effect of a step on what is held and on what is pending. *)
Definition emits_at_most (k : nat) (g g' : Gate) : Prop :=
  held g' = held g /\ (length (pending g') <= k + length (pending g))%nat.

Lemma emits_push g : emits_at_most 1 g (push_advance g).
Proof.
  destruct (push_advance_cases g) as [[-> _]|[-> _]]; [split; [done|lia]|].
  split; [done|]. cbn. rewrite length_app. cbn. lia.
Qed.

Lemma emits_complete g : emits_at_most 1 g (completeAlignment g).
Proof.
  unfold completeAlignment. case_match; [split; [done|lia]|].
  set (g1 := match barrier g with Some b => append_pending b g | None => g end).
  assert (buffered g1 = buffered g /\ replay g1 = replay g /\
    (length (pending g1) <= 1 + length (pending g))%nat) as (E1 & E2 & E3).
  { unfold g1. case_match; split_and!; try done; cbn; rewrite ?length_app; cbn; lia. }
  split; [|exact E3]. unfold held, drainBuffers. cbn [replay buffered set_buffers set_aligning].
  rewrite E1, E2, sum_replicate_nil, length_app, length_drained. lia.
Qed.

Lemma emits_deliver t g : emits_at_most 3 g (deliver t g).
Proof.
  unfold deliver. destruct (elem t) as [r|w|b|].
  - split; [done|]. cbn. rewrite length_app. cbn. lia.
  - pose proof (emits_push (set_watermarks (<[input t:=w]> (watermarks g)) g)) as [? ?].
    split; [done|]. cbn in *. lia.
  - rewrite onBarrier_mark. cbn zeta. destruct (awaitingBarrier _).
    + destruct (duringAlignment _ _ _); (split; [reflexivity|cbn; lia]).
    + match goal with |- context [completeAlignment ?x] => pose proof (emits_complete x) as [H1 H2] end.
      split; [exact H1|exact H2 || (cbn in H2; lia)].
  - unfold onEndOfStream. destruct (endOfStream g !!! input t); [split; [done|lia]|]. cbn zeta.
    match goal with |- context [push_advance ?x] =>
      pose proof (emits_push x) as [H1 H2]; set (g1 := push_advance x) in * end.
    match goal with |- context [completeAlignment ?x] =>
      pose proof (emits_complete x) as [H3 H4]; set (g2 := x) in * end.
    assert (held g2 = held g1 /\ (length (pending g2) <= 1 + length (pending g1))%nat) as [H5 H6].
    { unfold g2. case_match; split; try done; [|lia]. cbn. rewrite length_app. cbn. lia. }
    split; [exact (eq_trans H3 (eq_trans H5 H1))|]. cbn in H2. lia.
Qed.

Lemma handle_held t g :
  (held (handle t g) <= S (held g) /\ replay (handle t g) = replay g /\
   pending (handle t g) = pending g)%nat \/
  emits_at_most 3 g (handle t g).
Proof.
  unfold handle. case_match; [left|right; apply emits_deliver].
  split_and!; [|done|done]. unfold held. cbn [replay buffered set_buffers].
  pose proof (sum_alter_snoc (buffered g) (input t) (elem t)). lia.
Qed.

Definition turns (g : Gate) (merged : list tagged) : nat :=
  work g merged * S (work g merged) + (length merged + length (replay g)).

Definition potential (g : Gate) (merged : list tagged) : nat :=
  3 * work g merged + length (pending g).

Lemma recv_body_turns g merged :
  match recv_body g merged with
  | Return (Some _) g' merged' => (potential g' merged' < potential g merged)%nat
  | Return None _ _ => True
  | Continue g' merged' => (turns g' merged' < turns g merged)%nat /\
      (potential g' merged' <= potential g merged)%nat
  end.
Proof.
  unfold recv_body. destruct (err g); [done|].
  destruct (pending g) as [|e p] eqn:Ep; [|unfold potential, work; rewrite Ep; cbn; lia].
  assert (forall t g0 merged', pending g0 = [] -> buffered g0 = buffered g ->
    (length merged' + length (replay g0) + 1 = length merged + length (replay g))%nat ->
    (turns (handle t g0) merged' < turns g merged)%nat /\
    (potential (handle t g0) merged' <= potential g merged)%nat) as H.
  { intros t g0 merged' Hp Hb Hlen. unfold turns, potential, work.
    pose proof (handle_held t g0) as [(Hh & Hr & ->)|[Hh Hl]]; unfold held in *; rewrite ?Hb, ?Hp, ?Ep in *; cbn [length] in *.
    - rewrite Hr in *. set (R := length (replay g0)) in *.
      set (S1 := sum_list (length <$> buffered g)) in *.
      set (S2 := sum_list (length <$> buffered (handle t g0))) in *.
      split; [|lia].
      assert (length merged' + R + S2 <= length merged + length (replay g) + S1)%nat as Hle by lia.
      revert Hle. generalize (length merged' + R + S2)%nat (length merged + length (replay g) + S1)%nat.
      intros a b Hle. assert (a * S a <= b * S b)%nat by nia. lia.
    - set (R := length (replay (handle t g0))) in *. set (R0 := length (replay g0)) in *.
      set (S1 := sum_list (length <$> buffered g)) in *.
      set (S2 := sum_list (length <$> buffered (handle t g0))) in *.
      split; [|lia].
      assert (length merged + length (replay g) + S1 = S (length merged' + R + S2))%nat as -> by lia.
      assert (length merged' + R <= length merged' + R + S2)%nat by lia.
      generalize dependent (length merged' + R + S2)%nat. intros a Ha. nia. }
  destruct (replay g) as [|t r] eqn:Er; [destruct merged as [|t merged]; [done|]|];
    apply H; cbn [pending buffered replay set_replay set_buffers length]; rewrite ?Er; done || (cbn; lia).
Qed.

Lemma Recv_total fuel g merged :
  (turns g merged < fuel)%nat ->
  exists e g' merged', Recv fuel g merged = Some (e, g', merged') /\
    (e <> None -> (potential g' merged' < potential g merged)%nat).
Proof.
  revert g merged. induction fuel as [|fuel IH]; intros g merged Hf; [lia|].
  cbn [Recv]. pose proof (recv_body_turns g merged) as Hb.
  destruct (recv_body g merged) as [e g' merged'|g' merged'].
  - exists e, g', merged'. split; [done|]. by destruct e.
  - destruct Hb as [Ht Hp]. destruct (IH g' merged') as (e & g2 & m2 & E & Hx); [lia|].
    exists e, g2, m2. split; [done|]. intros He. specialize (Hx He). lia.
Qed.

Lemma recv_all_total calls g merged :
  (potential g merged < calls)%nat -> is_Some (recv_all calls g merged).
Proof.
  revert g merged. induction calls as [|calls IH]; intros g merged Hc; [lia|].
  cbn [recv_all]. destruct (Recv_total (recv_fuel g merged) g merged) as (e & g' & m' & -> & Hp).
  { unfold recv_fuel, turns. lia. }
  destruct e as [e|]; [|eauto]. destruct (IH g' m') as [[l g2] ->]; [|eauto].
  specialize (Hp ltac:(done)). lia.
Qed.

Lemma run_gate_total g merged : is_Some (run_gate g merged).
Proof. apply recv_all_total. unfold recv_calls, potential. lia. Qed.

Lemma Recv_inv n all fuel em g merged :
  arrivals_ok n all -> run_inv n all em g merged ->
  match Recv fuel g merged with
  | Some (Some e, g', merged') => run_inv n all (em ++ [e]) g' merged'
  | Some (None, g', merged') => run_inv n all em g' merged' /\
      (err g' = None -> pending g' = [] /\ replay g' = [] /\ merged' = [])
  | None => True
  end.
Proof.
  intros Hok. revert g merged. induction fuel as [|fuel IH]; intros g merged Hi; [done|].
  cbn [Recv]. pose proof (recv_body_inv _ _ _ _ _ Hok Hi) as Hb.
  destruct (recv_body g merged) as [[e|] g' merged'|g' merged']; [done..|]. by apply IH.
Qed.

Lemma recv_all_inv n all calls em g merged outs g' :
  arrivals_ok n all -> run_inv n all em g merged -> recv_all calls g merged = Some (outs, g') ->
  exists merged', run_inv n all (em ++ outs) g' merged' /\
    (err g' = None -> pending g' = [] /\ replay g' = [] /\ merged' = []).
Proof.
  intros Hok. revert em g merged outs. induction calls as [|calls IH]; intros em g merged outs Hi; [done|].
  cbn [recv_all]. pose proof (Recv_inv _ _ (recv_fuel g merged) _ _ _ Hok Hi) as Hb.
  destruct (Recv _ g merged) as [[[[e|] g1] m1]|]; [| |done].
  - destruct (recv_all calls g1 m1) as [[l g2]|] eqn:E; [|done]. intros [= <- <-].
    destruct (IH _ _ _ _ Hb E) as (m2 & Hm2 & Ht). exists m2. by rewrite <- app_assoc in Hm2.
  - intros [= <- <-]. exists m1. by rewrite app_nil_r.
Qed.

Lemma NewGate_inv n fs : (0 < n)%nat -> gate_inv n [] [] [] (NewGate n fs).
Proof.
  intros Hn.
  assert (forall i, (i < n)%nat -> replicate n false !!! i = false) as Hf
    by (intros i Hi; by apply lookup_total_replicate_2).
  split; [split| | |].
  - split; cbn; rewrite ?length_replicate; try done;
      intros i; by rewrite lookup_total_replicate_nil.
  - split; cbn; try done.
    + intros i Hi. rewrite Hf by done. split; [done|set_solver].
    + intros i Hi. by rewrite Hf.
    + intros T1 b T2 E. by destruct T1.
    + rewrite filter_all by (intros x Hx; by apply elem_of_replicate_inv in Hx).
      by rewrite length_replicate.
    + set_solver.
  - split; cbn; try done.
    + intros i Hi. by apply lookup_total_replicate_2.
    + constructor.
    + set_solver.
    + intros i _ _. left. unfold last_mark. cbn. lia.
    + intros _. apply timely_nil.
  - done.
  - unfold forwarded_min. etrans; [apply (minLive_le _ 0)|].
    + cbn. by rewrite length_replicate.
    + unfold live. cbn. by rewrite Hf.
    + cbn. by rewrite lookup_total_replicate_2.
  - intros _ _. exists 0%nat. split; [done|]. by apply Hf.
Qed.

(** ** From the inputs to what is returned *)

Lemma forwarded_from inputs merged :
  forwarded inputs merged ->
  Forall (fun t => (input t < length inputs)%nat) merged /\
  forall i, from i merged = default [] (inputs !! i).
Proof.
  induction 1 as [inputs Hn|inputs i e l merged Hi Hf [IH1 IH2]].
  - split; [done|]. intros i. destruct (inputs !! i) as [l|] eqn:E; [|done].
    by rewrite (proj1 (Forall_lookup _ _) Hn _ _ E).
  - rewrite length_insert in IH1. pose proof (lookup_lt_Some _ _ _ Hi) as Hlt. split.
    + by constructor.
    + intros j. rewrite from_cons. cbn [input elem]. rewrite IH2. case_decide as Hd.
      * subst j. by rewrite list_lookup_insert_eq, Hi.
      * by rewrite list_lookup_insert_ne.
Qed.

Lemma forwarded_ok inputs merged :
  forwarded inputs merged -> Forall well_ended inputs -> arrivals_ok (length inputs) merged.
Proof.
  intros Hf Hw. destruct (forwarded_from _ _ Hf) as [Hin Hfr]. split; [done|].
  intros i Hi. rewrite Hfr. destruct (lookup_lt_is_Some_2 inputs i Hi) as [l E]. rewrite E.
  by eapply (proj1 (Forall_lookup _ _) Hw).
Qed.

Lemma run_gate_inv inputs merged fs outs g :
  inputs <> [] -> forwarded inputs merged -> Forall well_ended inputs ->
  run_gate (NewGate (length inputs) fs) merged = Some (outs, g) ->
  exists arr done merged', merged = arr ++ merged' /\
    gate_inv (length inputs) arr done (outs ++ pending g) g /\
    (err g = None -> pending g = [] /\ replay g = [] /\ merged' = []).
Proof.
  intros Hne Hf Hw Hr. pose proof (forwarded_ok _ _ Hf Hw) as Hok.
  assert (run_inv (length inputs) merged [] (NewGate (length inputs) fs) merged) as Hi.
  { exists [], []. split; [done|]. apply NewGate_inv. destruct inputs; [done|cbn; lia]. }
  destruct (recv_all_inv _ _ _ _ _ _ _ _ Hok Hi Hr) as (m' & (arr & d & E & Hg) & Ht).
  by exists arr, d, m'.
Qed.

(** The elements of an arrival order, input by input. *)
Lemma perm_from_aux (l : list tagged) (n : nat) :
  Forall (fun t => (input t < n)%nat) l ->
  elem <$> l ≡ₚ concat ((fun i => from i l) <$> seq 0 n).
Proof.
  intros Hl. induction Hl as [|t l Ht Hl IH].
  { cbn. clear. induction (seq 0 n); done. }
  cbn [fmap list_fmap]. change (list_fmap _ _ elem l) with (elem <$> l). rewrite IH.
  assert (input t ∈ seq 0 n) as (s1 & s2 & E)%list_elem_of_split by (apply elem_of_seq; lia).
  pose proof (NoDup_seq 0 n) as Hnd. rewrite E in *.
  apply NoDup_app in Hnd as (_ & Hnd1 & [Hnd2 _]%NoDup_cons).
  rewrite !fmap_app, !concat_app. cbn [fmap list_fmap concat].
  change (list_fmap nat (list StreamElement) ?f s2) with (f <$> s2).
  rewrite from_cons_eq.
  rewrite (list_fmap_ext (fun i => from i (t :: l)) (fun i => from i l) s1).
  2:{ intros j i Hj%list_elem_of_lookup_2. apply from_cons_ne. intros <-.
      apply (Hnd1 _ Hj), elem_of_cons. by left. }
  rewrite (list_fmap_ext (fun i => from i (t :: l)) (fun i => from i l) s2).
  2:{ intros j i Hj%list_elem_of_lookup_2. apply from_cons_ne. by intros <-. }
  cbn [app]. by rewrite Permutation_middle.
Qed.

Lemma records_perm l k : l ≡ₚ k -> records l ≡ₚ records k.
Proof. intros E. unfold records. by rewrite E. Qed.

Lemma records_concat (l : list (list StreamElement)) :
  records (concat l) = concat (records <$> l).
Proof. induction l as [|x l IH]; [done|]. cbn. by rewrite records_app, IH. Qed.

(** What has been delivered came from the inputs. *)
Lemma done_in n arr done g :
  ordered n arr done g -> Forall (fun t => (input t < n)%nat) done.
Proof.
  intros Ho. apply Forall_forall. intros t Ht.
  assert (elem t ∈ from (input t) arr) as Hx.
  { rewrite (or_from _ _ _ _ Ho), elem_of_app. left. unfold from. apply list_elem_of_fmap.
    exists t. split; [done|]. by apply list_elem_of_filter. }
  unfold from in Hx. apply list_elem_of_fmap in Hx as (t' & _ & [<- Ht']%list_elem_of_filter).
  exact (proj1 (Forall_forall _ _) (or_arr _ _ _ _ Ho) t' Ht').
Qed.

Lemma records_done l n :
  Forall (fun t => (input t < n)%nat) l ->
  records (elem <$> l) ≡ₚ concat ((fun i => records (from i l)) <$> seq 0 n).
Proof.
  intros Hl. rewrite (records_perm _ _ (perm_from_aux l n Hl)), records_concat.
  by rewrite <- list_fmap_compose.
Qed.

Lemma seq_inputs {A} (f : nat -> list A) (h : list StreamElement -> list A)
    (inputs : list (list StreamElement)) :
  (forall i l, inputs !! i = Some l -> f i = h l) ->
  concat (f <$> seq 0 (length inputs)) = concat (h <$> inputs).
Proof.
  revert f. induction inputs as [|l inputs IH]; intros f Hf; [done|].
  cbn [length seq fmap list_fmap concat]. rewrite (Hf 0%nat l) by done. f_equal.
  rewrite <- (fmap_S_seq 0). change (list_fmap nat (list A) f ?x) with (f <$> x).
  rewrite <- list_fmap_compose. apply IH. intros i l' Hi. by apply (Hf (S i)).
Qed.

(** ** Without an injector the gate never aborts *)

Definition no_fault (g : Gate) : Prop := injector (gate_faults g) = None /\ err g = None.

Lemma no_fault_push g : no_fault g -> no_fault (push_advance g).
Proof. by destruct (push_advance_cases g) as [[-> _]|[-> _]]. Qed.

Lemma no_fault_complete g : no_fault g -> no_fault (completeAlignment g).
Proof. intros Hg. unfold completeAlignment. case_match; [done|]. by destruct (barrier g). Qed.

Lemma no_fault_handle t g : no_fault g -> no_fault (handle t g).
Proof.
  intros Hg. unfold handle, deliver. case_match; [done|].
  destruct (elem t) as [r|w|b|]; [done|by apply no_fault_push| |].
  - rewrite onBarrier_mark. cbn zeta. destruct (awaitingBarrier _); [|by apply no_fault_complete].
    unfold duringAlignment. cbn [gate_faults set_aligning]. by rewrite (proj1 Hg).
  - unfold onEndOfStream. destruct (endOfStream g !!! input t); [done|]. cbn zeta.
    apply no_fault_complete.
    match goal with |- context [push_advance ?x] => assert (no_fault (push_advance x)) as Hx
      by (by apply no_fault_push); generalize dependent (push_advance x) end.
    intros g' Hg'. by case_match.
Qed.

Lemma no_fault_Recv fuel g merged e g' merged' :
  no_fault g -> Recv fuel g merged = Some (e, g', merged') -> no_fault g'.
Proof.
  revert g merged. induction fuel as [|fuel IH]; intros g merged Hg; [done|].
  cbn [Recv]. unfold recv_body. rewrite (proj2 Hg). destruct (pending g) as [|x p].
  - destruct (replay g) as [|t r]; [destruct merged as [|t merged]|].
    + by intros [= <- <- <-].
    + by apply IH, no_fault_handle.
    + by apply IH, no_fault_handle.
  - by intros [= <- <- <-].
Qed.

Lemma no_fault_run calls g merged outs g' :
  no_fault g -> recv_all calls g merged = Some (outs, g') -> no_fault g'.
Proof.
  revert g merged outs. induction calls as [|calls IH]; intros g merged outs Hg; [done|].
  cbn [recv_all]. destruct (Recv _ g merged) as [[[[e|] g1] m1]|] eqn:E; [| |done].
  - destruct (recv_all calls g1 m1) as [[l g2]|] eqn:E2; [|done]. intros [= _ <-].
    eapply IH, E2. by eapply no_fault_Recv.
  - intros [= _ <-]. by eapply no_fault_Recv.
Qed.

(** ** The properties, for lemmas elsewhere to use *)

Section RunFacts.
Context (inputs : list (list StreamElement)) (merged : list tagged) (fs : faults).
Context (outs : list StreamElement) (g : Gate).
Context (Hne : inputs <> []) (Hf : forwarded inputs merged) (Hw : Forall well_ended inputs).
Context (Hr : run_gate (NewGate (length inputs) fs) merged = Some (outs, g)).

(** What has been delivered of an input is a prefix of it. *)
Lemma done_prefix arr done merged' i l :
  merged = arr ++ merged' -> ordered (length inputs) arr done g -> inputs !! i = Some l ->
  from i done `prefix_of` l.
Proof.
  intros -> Ho Hi. pose proof (proj2 (forwarded_from _ _ Hf) i) as E. rewrite Hi in E. cbn in E.
  rewrite <- E, from_app, (or_from _ _ _ _ Ho), <- app_assoc. by eexists.
Qed.

Lemma run_gate_cut o1 b o2 :
  outs = o1 ++ B b :: o2 ->
  records o1 ≡ₚ concat ((fun l => records (upto (S (nb o1)) l)) <$> inputs) /\
  (exists l, l ∈ inputs /\ barriers l !! nb o1 = Some b) /\
  Forall (fun l => settled (S (nb o1)) (upto (S (nb o1)) l) /\
    (EOS ∈ upto (S (nb o1)) l \/
     forall w, w ∈ marks o1 -> exists w', w' ∈ marks (upto (S (nb o1)) l) /\ w <= w')) inputs.
Proof.
  intros Eo.
  destruct (run_gate_inv _ _ _ _ _ Hne Hf Hw Hr) as (arr & d & m' & Em & [[Ho Hc Hm] _ _ _] & _).
  destruct (cu_cut _ _ _ _ Hc o1 b (o2 ++ pending g)) as (d1 & d2 & -> & Hrec & Hset & Hre & i & Hi & Hlast).
  { by rewrite Eo, <- app_assoc. }
  assert (forall i l, inputs !! i = Some l -> from i d1 `prefix_of` l) as Hpre.
  { intros j l Hj. etrans; [|by eapply done_prefix]. rewrite from_app. by eexists. }
  assert (forall i l, inputs !! i = Some l -> well_ended l) as Hwe.
  { intros j l. apply (proj1 (Forall_lookup _ _) Hw). }
  split; [|split].
  - rewrite Hrec, (records_done d1 (length inputs)).
    2:{ pose proof (done_in _ _ _ _ Ho) as Hd. by apply Forall_app in Hd as [? _]. }
    rewrite (seq_inputs _ (fun l => records (upto (S (nb o1)) l)) inputs); [done|].
    intros j l Hj. f_equal. symmetry.
    apply settled_prefix; [apply Hset; by eapply lookup_lt_Some|by apply Hpre|by eapply Hwe].
  - destruct (lookup_lt_is_Some_2 inputs i Hi) as [l El].
    exists l. split; [by eapply list_elem_of_lookup_2|].
    apply last_Some in Hlast as [l' El']. specialize (Hset i Hi). rewrite El' in Hset.
    specialize (Hpre i l El). rewrite El' in Hpre. destruct Hpre as [x ->].
    destruct Hset as [Hu Hd].
    assert (nb l' = nb o1) as En.
    { destruct Hd as [Hk|He].
      - rewrite nb_app in Hk. cbn in Hk.
        destruct (decide (nb l' = nb o1)); [done|exfalso].
        rewrite upto_app in Hu by lia. pose proof (upto_prefix (S (nb o1)) l') as [y Hy].
        rewrite Hu in Hy. apply (f_equal length) in Hy. rewrite !length_app in Hy. cbn in Hy. lia.
      - apply elem_of_app in He as [He|He]; [|by apply list_elem_of_singleton in He].
        specialize (Hwe i _ El). rewrite <- app_assoc in Hwe.
        by apply (well_ended_app _ _ Hwe) in He. }
    rewrite !barriers_app, <- app_assoc, <- En. unfold nb. rewrite lookup_app_r by done.
    by rewrite Nat.sub_diag.
  - apply Forall_lookup. intros j l Hj. pose proof (lookup_lt_Some _ _ _ Hj) as Hlt.
    rewrite (settled_prefix _ _ _ (Hset j Hlt) (Hpre j l Hj) (Hwe j l Hj)). split; [by apply Hset|].
    destruct (Hre j Hlt) as [?|Hr']; [by left|right]. intros w Hin.
    destruct (Hr' w Hin) as [Hle|?]; [|done]. exfalso.
    assert (w ∈ marks (outs ++ pending g)) as Hin' by (rewrite Eo, !marks_app; set_solver).
    pose proof (ma_above _ _ _ _ Hm w Hin'). lia.
Qed.

Lemma run_gate_marks_i64 w : w ∈ marks outs -> min_int64 < w <= max_int64.
Proof.
  intros Hin. destruct (run_gate_inv _ _ _ _ _ Hne Hf Hw Hr) as (arr & d & m' & Em & [[_ _ Hm] _ _ _] & _).
  pose proof (ma_above _ _ _ _ Hm w ltac:(rewrite marks_app; set_solver)). lia.
Qed.

Lemma run_gate_well_ended : well_ended outs.
Proof.
  destruct (run_gate_inv _ _ _ _ _ Hne Hf Hw Hr) as (arr & d & m' & Em & [[_ Hc _] _ _ _] & _).
  intros l1 l2 ->. pose proof (cu_end _ _ _ _ Hc) as Hend. destruct (closed g).
  - destruct Hend as (_ & T' & ET & Hno). rewrite <- app_assoc in ET. cbn in ET.
    destruct (pending g) as [|e p _] using rev_ind.
    + rewrite app_nil_r in ET. destruct l2 as [|e l2 _] using rev_ind; [done|].
      rewrite app_comm_cons, app_assoc in ET. apply app_inj_tail in ET as [<- _]. set_solver.
    + rewrite app_assoc, app_comm_cons, app_assoc in ET. apply app_inj_tail in ET as [<- _]. set_solver.
  - exfalso. set_solver.
Qed.

Lemma run_gate_marks :
  StronglySorted Z.lt (marks outs) /\ (Forall timely inputs -> timely outs).
Proof.
  destruct (run_gate_inv _ _ _ _ _ Hne Hf Hw Hr) as (arr & d & m' & Em & [[Ho _ Hm] _ _ _] & _).
  split.
  - pose proof (ma_sorted _ _ _ _ Hm) as Hs. rewrite marks_app in Hs.
    by eapply StronglySorted_app_1_l.
  - intros Ht. eapply timely_prefix, (ma_timely _ _ _ _ Hm). intros i Hi.
    destruct (lookup_lt_is_Some_2 inputs i Hi) as [l El].
    destruct (done_prefix _ _ _ _ _ Em Ho El) as [x Ex].
    pose proof (proj1 (Forall_lookup _ _) Ht _ _ El) as Htl. rewrite Ex in Htl.
    by eapply timely_prefix.
Qed.

Lemma run_gate_complete :
  err g = None -> Forall (fun l => EOS ∈ l) inputs ->
  exists o, outs = o ++ [EOS] /\ (EOS ∉ o) /\ records outs ≡ₚ concat (records <$> inputs) /\
    last (marks outs) = Some max_int64 /\ Forall (fun l => (nb l <= nb outs)%nat) inputs.
Proof.
  intros He Hends.
  destruct (run_gate_inv _ _ _ _ _ Hne Hf Hw Hr)
    as (arr & d & m' & Em & [[Ho Hc Hm] Hws Hmin Hop] & Ht).
  destruct (Ht He) as (Hp & Hrp & ->). rewrite app_nil_r in Em. subst arr.
  rewrite Hp, app_nil_r in *.
  assert (forall i l, inputs !! i = Some l -> l = from i d ++ buffered g !!! i) as Hfrom.
  { intros i l Hi. pose proof (proj2 (forwarded_from _ _ Hf) i) as E. rewrite Hi in E. cbn in E.
    rewrite <- E, (or_from _ _ _ _ Ho), Hrp. change (from i []) with (@nil StreamElement).
    by rewrite app_nil_r. }
  assert (forall i, (i < length inputs)%nat -> alignedFor g !!! i = false \/ aligning g = false ->
    from i d = inputs !!! i) as Hfull.
  { intros i Hi Ha. destruct (lookup_lt_is_Some_2 inputs i Hi) as [l El].
    rewrite (list_lookup_total_correct _ _ _ El), (Hfrom i l El).
    destruct (buffered g !!! i) eqn:Eb; [by rewrite app_nil_r|].
    destruct (or_held _ _ _ _ Ho i) as [? ?]; [by rewrite Eb|]. destruct Ha; congruence. }
  assert (forall i, (i < length inputs)%nat -> EOS ∈ inputs !!! i) as Hends'.
  { intros i Hi. destruct (lookup_lt_is_Some_2 inputs i Hi) as [l El].
    rewrite (list_lookup_total_correct _ _ _ El). by eapply (proj1 (Forall_lookup _ _) Hends). }
  assert (aligning g = false) as Hna.
  { destruct (aligning g) eqn:Ea; [|done]. specialize (Hws Ea). unfold awaitingBarrier in Hws.
    rewrite Ea in Hws. cbn [negb] in Hws. apply existsb_exists in Hws as (i & Hi & Hx).
    apply in_seq in Hi. rewrite (or_aligned _ _ _ _ Ho) in Hi. apply andb_prop in Hx as [Hl Hu].
    unfold live in Hl. apply negb_true_iff in Hl, Hu.
    assert (endOfStream g !!! i = true); [|congruence].
    apply (cu_eos _ _ _ _ Hc i ltac:(lia)). rewrite Hfull by (lia || by left). apply Hends'. lia. }
  assert (forall i, (i < length inputs)%nat -> endOfStream g !!! i = true) as Hdead.
  { intros i Hi. apply (cu_eos _ _ _ _ Hc i Hi). rewrite Hfull by (done || by right). by apply Hends'. }
  assert (closed g = true) as Hcl.
  { destruct (closed g) eqn:E; [done|]. destruct (Hop E) as (i & Hi & Hlv).
    - destruct inputs; [done|cbn; lia].
    - by rewrite Hdead in Hlv. }
  pose proof (cu_end _ _ _ _ Hc) as Hend. rewrite Hcl in Hend.
  destruct Hend as (_ & o & Eo & Hno). exists o. split_and!; [done|done| | |].
  - rewrite (cu_rec _ _ _ _ Hc), (records_done d (length inputs)) by (by eapply done_in).
    rewrite (seq_inputs _ records inputs); [done|]. intros i l El.
    pose proof (lookup_lt_Some _ _ _ El). rewrite Hfull by (done || by right).
    by rewrite (list_lookup_total_correct _ _ _ El).
  - unfold forwarded_min in Hmin. rewrite minLive_none in Hmin.
    2:{ intros i Hi. rewrite (or_marks _ _ _ _ Ho) in Hi. unfold live. by rewrite Hdead. }
    pose proof (ma_out _ _ _ _ Hm) as Hout. unfold last_mark in Hout.
    destruct (last (marks outs)) as [w|] eqn:El; cbn in Hout.
    2:{ exfalso. rewrite Hout in Hmin. clear -Hmin. by unfold min_int64, max_int64 in Hmin. }
    assert (w ∈ marks outs) as Hin by (apply last_Some in El as [k ->]; set_solver).
    pose proof (ma_above _ _ _ _ Hm w Hin). f_equal. lia.
  - apply Forall_lookup. intros i l El. pose proof (lookup_lt_Some _ _ _ El).
    pose proof (cu_dead _ _ _ _ Hc i ltac:(done) (Hdead _ ltac:(done))) as Hd.
    rewrite Hfull in Hd by (done || by right). by rewrite (list_lookup_total_correct _ _ _ El) in Hd.
Qed.
End RunFacts.

(** * The properties *)

(** C28. [Recv] always returns, and a gate whose inputs are finite is read to
    closure in finitely many calls: the fuel of the model is always enough. *)
Theorem gate_terminates g merged : exists outs g', run_gate g merged = Some (outs, g').
Proof. destruct (run_gate_total g merged) as [[outs g'] E]. by exists outs, g'. Qed.

(** C4. Alignment is a consistent cut: whatever the interleaving of the inputs
    and wherever a fault stops the gate, when the [k]-th barrier goes downstream
    the records returned before it are exactly the records each input sent
    before its own [k]-th barrier (all of them, for an input that ended
    earlier), and the barrier is the [k]-th one of some input. *)
Theorem gate_consistent_cut inputs merged fs outs g o1 b o2 :
  inputs <> [] -> forwarded inputs merged -> Forall well_ended inputs ->
  run_gate (NewGate (length inputs) fs) merged = Some (outs, g) ->
  outs = o1 ++ NewBarrierElement b :: o2 ->
  records o1 ≡ₚ concat ((fun l => records (upto (S (nb o1)) l)) <$> inputs) /\
  exists l, l ∈ inputs /\ barriers l !! nb o1 = Some b.
Proof. intros. by edestruct run_gate_cut as (? & ? & _). Qed.

(** C16. Watermarks: what the gate returns rises strictly, and if on no input a
    record is at or below a watermark that precedes it there, then no record the
    gate returns is at or below a watermark it returned before: the minimum over
    the live inputs and in-band order keep every record on time. *)
Theorem gate_keeps_records_on_time inputs merged fs outs g :
  inputs <> [] -> forwarded inputs merged -> Forall well_ended inputs ->
  run_gate (NewGate (length inputs) fs) merged = Some (outs, g) ->
  StronglySorted Z.lt (marks outs) /\ (Forall timely inputs -> timely outs).
Proof. intros. by eapply run_gate_marks. Qed.

(** C27. End of stream: when every input ends and no fault stops the gate, it
    returns exactly one end of stream, last, after every record of every input
    exactly once, after at least as many barriers as any input sent, and with
    the final watermark [math.MaxInt64] as the last of its watermarks. *)
Theorem gate_end_of_stream inputs merged fs outs g :
  inputs <> [] -> forwarded inputs merged -> Forall well_ended inputs ->
  run_gate (NewGate (length inputs) fs) merged = Some (outs, g) ->
  err g = None -> Forall (fun l => NewEndOfStreamElement ∈ l) inputs ->
  exists o, outs = o ++ [NewEndOfStreamElement] /\ (NewEndOfStreamElement ∉ o) /\
    records outs ≡ₚ concat (records <$> inputs) /\
    last (marks outs) = Some max_int64 /\ Forall (fun l => (nb l <= nb outs)%nat) inputs.
Proof. intros. by eapply run_gate_complete. Qed.

(** Two inputs, the first a checkpoint ahead of the second. *)
Definition sample_inputs : list (list StreamElement) :=
  let r k t := NewRecordElement (NewRecord k [] t) in
  let b k := NewBarrierElement (NewBarrier k 0) in
  [[r (str "a") 1; b 1; r (str "b") 2; NewWatermarkElement 5; b 2; NewEndOfStreamElement];
   [r (str "c") 1; NewWatermarkElement 3; b 1; r (str "d") 9; NewEndOfStreamElement]].

Definition sample_merged : list tagged :=
  let l0 := default [] (sample_inputs !! 0%nat) in
  let l1 := default [] (sample_inputs !! 1%nat) in
  (Tagged 0 <$> l0) ++ (Tagged 1 <$> l1).

Definition sample_faults : faults := NewFaults None (NewSubtaskID [] 0).

Definition sample_run : list StreamElement * Gate :=
  default ([], NewGate 0 sample_faults) (run_gate (NewGate 2 sample_faults) sample_merged).

Lemma sample_forwarded : forwarded sample_inputs sample_merged.
Proof.
  unfold sample_merged, sample_inputs. cbn.
  repeat (eapply forwarded_step; [reflexivity|cbn]).
  constructor. repeat constructor.
Qed.

Lemma sample_well_ended : Forall well_ended sample_inputs.
Proof.
  unfold sample_inputs. constructor; [|constructor; [|constructor]].
  - apply (well_ended_snoc [_; _; _; _; _]). set_solver.
  - apply (well_ended_snoc [_; _; _; _]). set_solver.
Qed.

Lemma gate_consistent_cut_witness :
  exists o1 b o2, sample_run.1 = o1 ++ NewBarrierElement b :: o2 /\
  records o1 ≡ₚ concat ((fun l => records (upto (S (nb o1)) l)) <$> sample_inputs) /\
  exists l, l ∈ sample_inputs /\ barriers l !! nb o1 = Some b.
Proof.
  exists (take 2 sample_run.1), (NewBarrier 1 0), (drop 3 sample_run.1).
  split; [vm_compute; reflexivity|].
  apply (gate_consistent_cut sample_inputs sample_merged sample_faults sample_run.1 sample_run.2
    _ _ (drop 3 sample_run.1));
    [discriminate|apply sample_forwarded|apply sample_well_ended|vm_compute; reflexivity..].
Defined.

Lemma gate_keeps_records_on_time_witness :
  StronglySorted Z.lt (marks sample_run.1) /\
  (Forall timely sample_inputs -> timely sample_run.1).
Proof.
  apply (gate_keeps_records_on_time sample_inputs sample_merged sample_faults sample_run.1 sample_run.2);
    [discriminate|apply sample_forwarded|apply sample_well_ended|vm_compute; reflexivity].
Defined.

Lemma gate_end_of_stream_witness :
  exists o, sample_run.1 = o ++ [NewEndOfStreamElement] /\ (NewEndOfStreamElement ∉ o) /\
    records sample_run.1 ≡ₚ concat (records <$> sample_inputs) /\
    last (marks sample_run.1) = Some max_int64 /\
    Forall (fun l => (nb l <= nb sample_run.1)%nat) sample_inputs.
Proof.
  apply (gate_end_of_stream sample_inputs sample_merged sample_faults sample_run.1 sample_run.2);
    [discriminate|apply sample_forwarded|apply sample_well_ended|vm_compute; reflexivity..|].
  repeat constructor; set_solver.
Defined.
