(* ===== verification/Writer.v ===== *)
(** Keyed routing ([pkg/transport]): the hash of a key, the writer that sends a
    record to one output of every downstream group and everything else to all of
    them, and the channels it sends on. *)
From S2P Require Import Prelude Core.

(** * The hash (writer.go) *)

Definition fnvOffset64 : Z := 14695981039346656037.
Definition fnvPrime64 : Z := 1099511628211.

Definition fnv1a (b : bytes) : Z :=
  foldl (fun h c => u64 (Z.lxor h (byte_to_Z c) * fnvPrime64)) fnvOffset64 b.

(** * Outputs (output.go, channel.go) *)

(** [Output]: a send that may fail, when the job is cancelled, and a close. *)
Class Output (C CE : Type) := {
  out_send : StreamElement -> C -> result CE C;
  out_close : C -> C;
}.
#[global] Hint Mode Output ! - : typeclass_instances.

Definition DefaultCapacity : Z := 1024.

(** A channel: what has been put on it, in order, how often it has been closed,
    and whether the context its senders select on is done. A send that blocks
    until there is room is one that has not returned yet. *)
Record Channel := MkChannel {
  capacity : Z;
  elements : list StreamElement;
  closes : nat;
  ctx_done : bool;
}.

Definition NewChannel (cap : Z) : Channel :=
  MkChannel (if cap <? 1 then DefaultCapacity else cap) [] 0 false.

Inductive chan_error := ErrCancelled.

Definition Channel_Send (e : StreamElement) (c : Channel) : result chan_error Channel :=
  if ctx_done c then Err ErrCancelled
  else Ok (MkChannel (capacity c) (elements c ++ [e]) (closes c) (ctx_done c)).

Definition Channel_Close (c : Channel) : Channel :=
  MkChannel (capacity c) (elements c) (S (closes c)) (ctx_done c).

(** [Recv]: the oldest element, and [None] when there is none left. *)
Definition Channel_Recv (c : Channel) : option StreamElement * Channel :=
  match elements c with
  | [] => (None, c)
  | e :: l => (Some e, MkChannel (capacity c) l (closes c) (ctx_done c))
  end.

#[export] Instance Channel_Output : Output Channel chan_error := {|
  out_send := Channel_Send;
  out_close := Channel_Close;
|}.

(** * The writer (writer.go) *)

Inductive write_error (CE : Type) :=
| errEmptyKey (outputs : Z)
| ErrSend (e : CE).
Arguments errEmptyKey {CE}.
Arguments ErrSend {CE}.

Record Writer (C : Type) := MkWriter {
  groups : list (list C);
  outputs : Z;
}.
Arguments MkWriter {C}.
Arguments groups {C}.
Arguments outputs {C}.

Section Writer.
Context {C CE : Type} `{Output C CE}.

(** A group without outputs panics. *)
Definition NewWriter (gs : list (list C)) : option (Writer C) :=
  if existsb (fun group => (length group =? 0)%nat) gs then None
  else Some (MkWriter gs (foldl (fun n group => n + Z.of_nat (length group)) 0 gs)).

(** One [Send], to output [i] of a group. *)
Definition send_nth (e : StreamElement) (i : nat) (group : list C)
    : result (write_error CE) (list C) :=
  match group !! i with
  | None => Ok group
  | Some c =>
      match out_send e c with
      | Ok c => Ok (<[i := c]> group)
      | Err x => Err (ErrSend x)
      end
  end.

(** A loop over the groups that stops at the first error: the groups before it
    have been served. *)
Fixpoint each_group (f : list C -> result (write_error CE) (list C) * list C)
    (gs : list (list C)) : result (write_error CE) unit * list (list C) :=
  match gs with
  | [] => (Ok tt, [])
  | g :: gs =>
      match f g with
      | (Ok g', _) => let '(r, gs') := each_group f gs in (r, g' :: gs')
      | (Err e, g') => (Err e, g' :: gs)
      end
  end.

(** [h % uint64(len(group))] *)
Definition partition (key : bytes) (n : nat) : nat := Z.to_nat (fnv1a key mod Z.of_nat n).

Definition EmitRecord (r : Record_) (w : Writer C) : result (write_error CE) unit * Writer C :=
  match groups w with
  | [] => (Ok tt, w)
  | _ =>
      match Key r with
      | [] => (Err (errEmptyKey (outputs w)), w)
      | _ =>
          let '(res, gs) := each_group
            (fun group => (send_nth (NewRecordElement r) (partition (Key r) (length group)) group,
                           group)) (groups w) in
          (res, MkWriter gs (outputs w))
      end
  end.

(** The inner loop of [Broadcast]. *)
Fixpoint send_all (e : StreamElement) (group : list C)
    : result (write_error CE) (list C) * list C :=
  match group with
  | [] => (Ok [], [])
  | c :: group =>
      match out_send e c with
      | Err x => (Err (ErrSend x), c :: group)
      | Ok c =>
          match send_all e group with
          | (Ok l, _) => (Ok (c :: l), c :: l)
          | (Err x, l) => (Err x, c :: l)
          end
      end
  end.

Definition Broadcast (e : StreamElement) (w : Writer C) : result (write_error CE) unit * Writer C :=
  let '(res, gs) := each_group (send_all e) (groups w) in (res, MkWriter gs (outputs w)).

Definition CloseAll (w : Writer C) : Writer C :=
  MkWriter (fmap (M := list) (fmap (M := list) out_close) (groups w)) (outputs w).
End Writer.

(** * Facts *)

(** The published test vectors of 64-bit FNV-1a. *)
Example fnv1a_empty : fnv1a [] = 0xcbf29ce484222325.
Proof. reflexivity. Qed.
Example fnv1a_a : fnv1a (str "a") = 0xaf63dc4c8601ec8c.
Proof. reflexivity. Qed.
Example fnv1a_foobar : fnv1a (str "foobar") = 0x85944171f73967e8.
Proof. reflexivity. Qed.

Lemma fnv1a_range b : is_u64 (fnv1a b).
Proof.
  unfold fnv1a. destruct b as [|c b _] using rev_ind; [unfold_ints; vm_compute; intuition congruence|].
  rewrite foldl_app. apply u64_range.
Qed.

Lemma partition_lt key n : (0 < n)%nat -> (partition key n < n)%nat.
Proof.
  intros Hn. unfold partition. pose proof (Z.mod_pos_bound (fnv1a key) (Z.of_nat n)). lia.
Qed.

Section Facts.
Context {C CE : Type} `{Output C CE}.

Lemma NewWriter_groups (gs : list (list C)) (w : Writer C) :
  NewWriter gs = Some w -> groups w = gs /\ Forall (fun g => g <> []) gs.
Proof.
  unfold NewWriter. destruct (existsb _ gs) eqn:E; [done|]. intros [= <-].
  split; [done|]. apply Forall_forall. intros g Hg ->.
  enough (existsb (fun group : list C => (length group =? 0)%nat) gs = true) by congruence.
  apply existsb_exists. exists []. split; [by apply list_elem_of_In|done].
Qed.

Lemma send_all_fst e (g : list C) :
  match send_all e g with (Ok l, l') => l = l' | _ => True end.
Proof. induction g as [|c g IH]; [done|]. cbn. destruct (out_send e c); [|done]. by destruct (send_all e g) as [[?|?] ?]. Qed.
End Facts.

(** The context of the job is not cancelled. *)
Definition open_writer (w : Writer Channel) : Prop :=
  Forall (Forall (fun c => ctx_done c = false)) (groups w).

Lemma each_group_fmap (f : list Channel -> list Channel)
    (h : list Channel -> result (write_error chan_error) (list Channel) * list Channel) gs :
  (forall g, g ∈ gs -> (h g).1 = Ok (f g)) -> each_group h gs = (Ok tt, f <$> gs).
Proof.
  induction gs as [|g gs IH]; intros Hh; [done|]. cbn [each_group].
  pose proof (Hh g ltac:(by left)) as Hg. destruct (h g) as [r g']. cbn in Hg. subst r.
  rewrite IH; [done|]. intros g1 Hg1. apply Hh. by right.
Qed.

Definition put (e : StreamElement) (c : Channel) : Channel :=
  MkChannel (capacity c) (elements c ++ [e]) (closes c) (ctx_done c).

Lemma Channel_Send_open e c : ctx_done c = false -> Channel_Send e c = Ok (put e c).
Proof. intros Hc. unfold Channel_Send, put. by rewrite Hc. Qed.

Lemma send_all_open e g :
  Forall (fun c => ctx_done c = false) g -> send_all e g = (Ok (put e <$> g), put e <$> g).
Proof.
  induction 1 as [|c g Hc Hg IH]; [done|]. cbn [send_all out_send Channel_Output].
  by rewrite Channel_Send_open, IH.
Qed.

Lemma EmitRecord_open r w :
  open_writer w -> groups w <> [] -> Key r <> [] -> Forall (fun g => g <> []) (groups w) ->
  EmitRecord r w = (Ok tt, MkWriter
    ((fun g => alter (put (NewRecordElement r)) (partition (Key r) (length g)) g) <$> groups w)
    (outputs w)).
Proof.
  intros Ho Hg Hk Hne. unfold EmitRecord. destruct (groups w) as [|g0 gs0] eqn:E; [done|].
  destruct (Key r) as [|b k] eqn:Ek; [done|]. rewrite <- Ek in *. rewrite <- E in *. clear E Ek.
  rewrite (each_group_fmap (fun g => alter (put (NewRecordElement r)) (partition (Key r) (length g)) g));
    [done|]. intros g Hgin. cbn [fst]. unfold send_nth.
  pose proof (proj1 (Forall_forall _ _) Hne g Hgin) as Hn.
  destruct (lookup_lt_is_Some_2 g (partition (Key r) (length g))) as [c Ec].
  { apply partition_lt. destruct g; [done|cbn; lia]. }
  rewrite Ec. cbn [out_send Channel_Output].
  pose proof (proj1 (Forall_forall _ _) Ho g Hgin) as Hog.
  rewrite Channel_Send_open by exact (proj1 (Forall_lookup _ _) Hog _ _ Ec). f_equal.
  apply list_eq. intros j. destruct (decide (partition (Key r) (length g) = j)) as [<-|Hj].
  - rewrite list_lookup_insert_eq, list_lookup_alter_eq, Ec by (by eapply lookup_lt_Some). done.
  - by rewrite list_lookup_insert_ne, list_lookup_alter_ne.
Qed.

Lemma Broadcast_open e w :
  open_writer w ->
  Broadcast e w = (Ok tt, MkWriter (fmap (M := list) (fmap (M := list) (put e)) (groups w)) (outputs w)).
Proof.
  intros Ho. unfold Broadcast.
  rewrite (each_group_fmap (fmap (M := list) (put e))); [done|].
  intros g Hg. rewrite send_all_open; [done|]. exact (proj1 (Forall_forall _ _) Ho g Hg).
Qed.

(** * Runs of a writer *)

(** What a subtask does to its writer. *)
Inductive emission :=
| Emitted (r : Record_)
| Broadcasted (e : StreamElement).

Fixpoint run_writer {C CE} `{Output C CE} (l : list emission) (w : Writer C)
    : result (write_error CE) unit * Writer C :=
  match l with
  | [] => (Ok tt, w)
  | a :: l =>
      match match a with Emitted r => EmitRecord r w | Broadcasted e => Broadcast e w end with
      | (Ok _, w) => run_writer l w
      | (Err e, w) => (Err e, w)
      end
  end.

Section RunWriter.
Context {C CE : Type} `{Output C CE}.

Lemma run_writer_app l k (w : Writer C) w1 :
  run_writer l w = (Ok tt, w1) -> run_writer (l ++ k) w = run_writer k w1.
Proof.
  revert w. induction l as [|a l IH]; intros w; [by intros [= ->]|]. cbn [app run_writer].
  destruct a; (destruct (EmitRecord _ _) as [[[]|] ?] || destruct (Broadcast _ _) as [[[]|] ?]);
    [apply IH|done|apply IH|done].
Qed.

Lemma run_writer_split l k (w w2 : Writer C) :
  run_writer (l ++ k) w = (Ok tt, w2) ->
  exists w1, run_writer l w = (Ok tt, w1) /\ run_writer k w1 = (Ok tt, w2).
Proof.
  revert w. induction l as [|a l IH]; intros w; [by exists w|]. cbn [app run_writer].
  destruct a; (destruct (EmitRecord _ _) as [[[]|] ?] || destruct (Broadcast _ _) as [[[]|] ?]);
    [apply IH|done|apply IH|done].
Qed.

Lemma run_writer_cons a k (w : Writer C) w1 :
  run_writer [a] w = (Ok tt, w1) -> run_writer (a :: k) w = run_writer k w1.
Proof. apply (run_writer_app [a]). Qed.
End RunWriter.

(** What of it reaches output [j] of a group of [n]. *)
Definition routed (n j : nat) (a : emission) : list StreamElement :=
  match a with
  | Emitted r => if decide (partition (Key r) n = j) then [NewRecordElement r] else []
  | Broadcasted e => [e]
  end.

Definition keyed (a : emission) : Prop :=
  match a with Emitted r => Key r <> [] | Broadcasted _ => True end.

(** A group after the emissions [l]. *)
Definition append_to (els : list StreamElement) (c : Channel) : Channel :=
  MkChannel (capacity c) (elements c ++ els) (closes c) (ctx_done c).

Definition routed_group (l : list emission) (g : list Channel) : list Channel :=
  imap (fun j c => append_to (l ≫= routed (length g) j) c) g.

Lemma append_to_app a b c : append_to b (append_to a c) = append_to (a ++ b) c.
Proof. unfold append_to. cbn. by rewrite app_assoc. Qed.

Lemma routed_group_nil g : routed_group [] g = g.
Proof.
  unfold routed_group. apply list_eq. intros j. rewrite list_lookup_imap.
  destruct (g !! j) as [c|]; [|done]. cbn. unfold append_to. rewrite app_nil_r. by destruct c.
Qed.

Lemma length_routed_group l g : length (routed_group l g) = length g.
Proof. apply length_imap. Qed.

Lemma routed_group_cons a l g :
  routed_group (a :: l) g = routed_group l (routed_group [a] g).
Proof.
  unfold routed_group. apply list_eq. intros j. rewrite !list_lookup_imap, length_imap.
  destruct (g !! j) as [c|]; [|done]. cbn. by rewrite append_to_app, app_nil_r.
Qed.

Lemma routed_group_emit r g :
  routed_group [Emitted r] g = alter (put (NewRecordElement r)) (partition (Key r) (length g)) g.
Proof.
  unfold routed_group. apply list_eq. intros j. rewrite list_lookup_imap. cbn.
  destruct (decide (partition (Key r) (length g) = j)) as [<-|Hj].
  - rewrite list_lookup_alter_eq. by destruct (g !! _).
  - rewrite list_lookup_alter_ne by done. destruct (g !! j) as [c|]; [|done]. cbn.
    unfold append_to. rewrite app_nil_r. by destruct c.
Qed.

Lemma routed_group_broadcast e g : routed_group [Broadcasted e] g = put e <$> g.
Proof.
  unfold routed_group. apply list_eq. intros j. rewrite list_lookup_imap, list_lookup_fmap.
  by destruct (g !! j).
Qed.

Lemma open_routed l g : Forall (fun c => ctx_done c = false) g ->
  Forall (fun c => ctx_done c = false) (routed_group l g).
Proof.
  rewrite !Forall_lookup. intros Hg j c. unfold routed_group. rewrite list_lookup_imap.
  destruct (g !! j) as [c'|] eqn:E; [|done]. intros [= <-]. exact (Hg j c' E).
Qed.

Lemma run_writer_routed l w :
  open_writer w -> Forall (fun g => g <> []) (groups w) -> Forall keyed l ->
  run_writer l w = (Ok tt, MkWriter (routed_group l <$> groups w) (outputs w)).
Proof.
  revert w. induction l as [|a l IH]; intros w Ho Hne Hk.
  { cbn. rewrite (list_fmap_ext _ id); [|intros; apply routed_group_nil]. rewrite list_fmap_id. by destruct w. }
  apply Forall_cons in Hk as [Ha Hl]. cbn [run_writer].
  assert (match a with Emitted r => EmitRecord r w | Broadcasted e => Broadcast e w end =
    (Ok tt, MkWriter (routed_group [a] <$> groups w) (outputs w))) as ->.
  { destruct a as [r|e].
    - destruct (groups w) as [|g gs] eqn:Eg.
      + unfold EmitRecord. rewrite Eg. cbn. destruct w. cbn in *. by subst.
      + rewrite <- Eg in *. rewrite EmitRecord_open by (done || congruence).
        do 2 f_equal. apply list_fmap_ext. intros j x _. by rewrite routed_group_emit.
    - rewrite Broadcast_open by done. do 2 f_equal. apply list_fmap_ext.
      intros j x _. by rewrite routed_group_broadcast. }
  rewrite IH; cbn [groups outputs]; [| | |done].
  - do 2 f_equal. rewrite <- list_fmap_compose. apply list_fmap_ext.
    intros j x _. unfold compose. by rewrite <- routed_group_cons.
  - unfold open_writer. cbn [groups]. apply Forall_fmap. eapply Forall_impl; [exact Ho|].
    intros g. apply open_routed.
  - apply Forall_fmap. eapply Forall_impl; [exact Hne|]. intros g Hg E.
    apply (f_equal length) in E. unfold compose in E. rewrite length_routed_group in E. by destruct g.
Qed.

(** * The properties *)

(** C18. Routing: over a writer whose job is not cancelled, every sequence of
    emissions succeeds, and each output of each downstream group has been sent,
    after what it held, exactly the control elements and the records whose key
    hashes to it, in the order they were emitted. *)
Theorem writer_routes gs w l g j group c :
  NewWriter gs = Some w -> open_writer w -> Forall keyed l ->
  gs !! g = Some group -> group !! j = Some c ->
  (run_writer l w).1 = Ok tt /\
  exists group' c', groups (run_writer l w).2 !! g = Some group' /\ group' !! j = Some c' /\
    elements c' = elements c ++ (l ≫= routed (length group) j).
Proof.
  intros Hw Ho Hk Hg Hc. destruct (NewWriter_groups _ _ Hw) as [Egs Hne].
  rewrite run_writer_routed by (rewrite ?Egs; done). split; [done|].
  exists (routed_group l group), (append_to (l ≫= routed (length group) j) c).
  split_and!; [|unfold routed_group; by rewrite list_lookup_imap, Hc|done].
  cbn. by rewrite list_lookup_fmap, Egs, Hg.
Qed.

Definition sample_group : list Channel := [NewChannel 0; NewChannel 4; NewChannel 1].
Definition sample_emissions : list emission :=
  [Emitted (NewRecord (str "a") [] 1); Broadcasted (NewWatermarkElement 3);
   Emitted (NewRecord (str "b") [] 2); Emitted (NewRecord (str "a") [] 5)].

Lemma writer_routes_witness :
  let w := MkWriter [sample_group] 3 in
  (run_writer sample_emissions w).1 = Ok tt /\
  exists group' c', groups (run_writer sample_emissions w).2 !! 0%nat = Some group' /\
    group' !! 1%nat = Some c' /\
    elements c' = [] ++ (sample_emissions ≫= routed 3 1).
Proof.
  apply (writer_routes [sample_group] (MkWriter [sample_group] 3) sample_emissions 0 1
    sample_group (NewChannel 4)).
  - reflexivity.
  - repeat constructor.
  - repeat constructor; discriminate.
  - reflexivity.
  - reflexivity.
Defined.

(** ** When a send fails *)

Lemma each_group_stops {C CE} `{Output C CE}
    (f : list C -> result (write_error CE) (list C) * list C) pre pre' g post e :
  Forall2 (fun g g' => (f g).1 = Ok g') pre pre' -> (f g).1 = Err e ->
  each_group f (pre ++ g :: post) = (Err e, pre' ++ (f g).2 :: post).
Proof.
  intros Hpre Hg. induction Hpre as [|a a' pre pre' Ha Hpre IH]; cbn.
  - destruct (f g) as [[?|?] ?]; cbn in *; congruence.
  - destruct (f a) as [r0 ?]; cbn in Ha; subst r0. by rewrite IH.
Qed.

(** The error branches of [EmitRecord]: a writer with no group drops the
    record; a record without a key is refused with nothing sent; and when a
    send fails its error is returned with the record sent to the groups before
    it, and the failing group and the groups after it as they were. *)
Theorem emit_error_branches {C CE} `{Output C CE} (w : Writer C) (r : Record_) pre pre' g post e :
  let send group := send_nth (NewRecordElement r) (partition (Key r) (length group)) group in
  (groups w = [] -> EmitRecord r w = (Ok tt, w)) /\
  (groups w <> [] -> Key r = [] -> EmitRecord r w = (Err (errEmptyKey (outputs w)), w)) /\
  (Key r <> [] -> groups w = pre ++ g :: post -> Forall2 (fun a a' => send a = Ok a') pre pre' ->
   send g = Err e -> EmitRecord r w = (Err e, MkWriter (pre' ++ g :: post) (outputs w))).
Proof.
  intros send. unfold EmitRecord. split_and!.
  - by intros ->.
  - intros Hne ->. by destruct (groups w).
  - intros Hk -> Hpre Hg. pose proof (each_group_stops (fun group => (send group, group)) pre pre' g post e Hpre Hg) as E.
    subst send. destruct (Key r) as [|b k]; [done|].
    rewrite E. by destruct pre.
Qed.

(** A cancelled channel in the second of two groups. *)
Lemma emit_error_branches_witness :
  let c := NewChannel 4 in
  let dead := MkChannel 4 [] 0 true in
  let r := NewRecord (str "a") [] 1 in
  EmitRecord r (MkWriter [[c]; [dead]; [c]] 3) =
    (Err (ErrSend ErrCancelled), MkWriter [[MkChannel 4 [NewRecordElement r] 0 false]; [dead]; [c]] 3).
Proof.
  intros c dead r.
  apply (proj2 (proj2 (emit_error_branches (MkWriter [[c]; [dead]; [c]] 3) r [[c]]
    [[MkChannel 4 [NewRecordElement r] 0 false]] [dead] [[c]] (ErrSend ErrCancelled)))).
  - discriminate.
  - reflexivity.
  - repeat constructor.
  - reflexivity.
Defined.
