(* ===== verification/SourceTask.v ===== *)
(** The source task ([pkg/runtime/source_task.go]): the range of offsets a
    subtask of a source vertex reads, the watermarks and barriers it generates
    between records, and resuming from a checkpoint. *)
From S2P Require Import Prelude Core Streams.

(** * Sources (core/io.go) *)

(** [core.Source] with the optional [Count] of a source that can be split. *)
Class Source (S E : Type) := {
  src_next : S -> result E (option Record_) * S;
  src_seek : Z -> S -> result E unit * S;
  src_position : S -> Z;
  src_count : option (S -> Z);
}.
#[global] Hint Mode Source ! - : typeclass_instances.

(** The contract of a source: element [n] is a function of [n] alone. [src_at]
    is that function; a source at or past its end returns nothing. *)
Class SourceLaws (S E : Type) `{Source S E} := {
  src_at : S -> Z -> option Record_;
  src_next_ok (s : S) :
    (src_next s).1 = Ok (src_at s (src_position s)) /\
    src_at (src_next s).2 = src_at s /\
    src_position (src_next s).2 =
      match src_at s (src_position s) with
      | Some _ => src_position s + 1
      | None => src_position s
      end;
  src_seek_ok (s : S) o : 0 <= o ->
    (src_seek o s).1 = Ok tt /\ src_at (src_seek o s).2 = src_at s /\
    src_position (src_seek o s).2 = o;
  src_count_ok count (s : S) : src_count = Some count ->
    0 <= count s <= max_int64 /\
    (forall n, is_Some (src_at s n) <-> 0 <= n < count s) /\
    (forall s' : S, src_at s' = src_at s -> count s' = count s);
}.

(** * Ranges *)

Definition sourceRange (count parallelism index : Z) : Z * Z :=
  (Z.quot (mul64 index count) parallelism,
   Z.quot (mul64 (index + 1) count) parallelism).

(** This file's [subFloor], clamped at both ends. *)
Definition subFloor (a b : Z) : Z :=
  let d := sub64 a b in
  if (b <? 0) && (d <? a) then max_int64
  else if (0 <? b) && (a <? d) then min_int64
  else d.

Definition unboundedBarriers : Z := -1.

Definition maxBarriers (count parallelism intervalElements : Z) (bounded : bool) : Z :=
  if negb bounded then unboundedBarriers
  else if intervalElements <=? 0 then 0
  else Z.quot (Z.quot count parallelism) intervalElements.

(** * Barriers *)

Record barrierGenerator := MkBarriers {
  br_intervalElements : Z;
  br_maxBarriers : Z;
  br_sinceLast : Z;
  br_injected : Z;
}.

Definition newBarrierGenerator (intervalElements maxBarriers : Z) : barrierGenerator :=
  MkBarriers intervalElements maxBarriers 0 0.

(** The checkpoint to inject a barrier for, if one is due. *)
Definition br_onRecord (g : barrierGenerator) : option Z * barrierGenerator :=
  if br_intervalElements g <=? 0 then (None, g)
  else if negb (br_maxBarriers g =? unboundedBarriers) && (br_maxBarriers g <=? br_injected g)
  then (None, g)
  else
    let sinceLast := add64 (br_sinceLast g) 1 in
    if sinceLast <? br_intervalElements g
    then (None, MkBarriers (br_intervalElements g) (br_maxBarriers g) sinceLast (br_injected g))
    else
      let injected := add64 (br_injected g) 1 in
      (Some injected, MkBarriers (br_intervalElements g) (br_maxBarriers g) 0 injected).

(** * Watermarks *)

Record watermarkGenerator := MkMarks {
  wm_intervalElements : Z;
  wm_maxOutOfOrderness : Z;
  wm_sinceLast : Z;
  wm_maxEventTime : Z;
  wm_lastEmitted : Z;
}.

Definition newWatermarkGenerator (intervalElements maxOutOfOrderness : Z) : watermarkGenerator :=
  MkMarks intervalElements maxOutOfOrderness 0 min_int64 min_int64.

Definition wm_onRecord (eventTime : Z) (g : watermarkGenerator) : option Z * watermarkGenerator :=
  let maxEventTime :=
    if wm_maxEventTime g <? eventTime then eventTime else wm_maxEventTime g in
  let set since last :=
    MkMarks (wm_intervalElements g) (wm_maxOutOfOrderness g) since maxEventTime last in
  if wm_intervalElements g <=? 0 then (None, set (wm_sinceLast g) (wm_lastEmitted g))
  else
    let sinceLast := add64 (wm_sinceLast g) 1 in
    if sinceLast <? wm_intervalElements g then (None, set sinceLast (wm_lastEmitted g))
    else
      let candidate := subFloor (subFloor maxEventTime (wm_maxOutOfOrderness g)) 1 in
      if candidate <=? wm_lastEmitted g then (None, set 0 (wm_lastEmitted g))
      else (Some candidate, set 0 candidate).

(** * The loop *)

Inductive loop_error (SE EE CE : Type) :=
| ErrSource (e : SE)
| ErrEmit (e : EE)
| ErrCtx (e : CE)
| ErrNotSplittable (parallelism : Z)
| ErrOutsideRange (position start end_ : Z)
| ErrNegativePosition (position : Z).
Arguments ErrSource {SE EE CE}.
Arguments ErrEmit {SE EE CE}.
Arguments ErrCtx {SE EE CE}.
Arguments ErrNotSplittable {SE EE CE}.
Arguments ErrOutsideRange {SE EE CE}.
Arguments ErrNegativePosition {SE EE CE}.

Record sourceResume := MkResume {
  position : Z;
  barriersInjected : Z;
}.

Section Loop.
Context {S SE : Type} `{Source S SE}.
(** What the emitters act on, the errors they return, and the context. *)
Context {Env EE CE : Type} (ctxErr : Env -> option CE).
Context (emitRecord : Record_ -> M EE Env unit).
Context (emitWatermark : Z -> M EE Env unit).
Context (emitBarrier : Barrier -> Z -> M EE Env unit).

Local Abbreviation error := (loop_error SE EE CE).
Local Abbreviation LM := (M error (S * Env)).

(** Calls on the source and calls of an emitter. *)
Definition on_source {A} (f : S -> result SE A * S) : LM A := fun '(s, env) =>
  let '(r, s) := f s in (wrap_err ErrSource r, (s, env)).
Definition on_env {A} (m : M EE Env A) : LM A := fun '(s, env) =>
  let '(r, env) := m env in (wrap_err ErrEmit r, (s, env)).

Definition seekToRange (parallelism index : Z) : LM (Z * Z * bool * Z) := fun '(s, env) =>
  match src_count with
  | None =>
      if 1 <? parallelism then (Err (ErrNotSplittable parallelism), (s, env))
      else (Ok (0, 0, false, 0), (s, env))
  | Some count =>
      let n := count s in
      let '(start, end_) := sourceRange n parallelism index in
      (_ ← on_source (src_seek start); mret (start, end_, true, n)) (s, env)
  end.

(** [sourceResume.apply] *)
Definition apply_resume (r : sourceResume) (br : barrierGenerator) (start end_ : Z)
    (bounded : bool) : LM barrierGenerator :=
  if bounded && ((position r <? start) || (end_ <? position r))
  then fail (ErrOutsideRange (position r) start end_)
  else if position r <? 0 then fail (ErrNegativePosition (position r))
  else
    _ ← on_source (src_seek (position r));
    mret (MkBarriers (br_intervalElements br) (br_maxBarriers br) 0 (barriersInjected r)).

(** What follows a record: the record, the watermark it makes due, and the
    barrier it makes due, with the position captured at the injection. *)
Definition emit_mark (t : option Z) : LM unit :=
  match t with Some t => on_env (emitWatermark t) | None => mret tt end.

Definition emit_barrier (id : option Z) (timestamp : Z) : LM unit := fun '(s, env) =>
  match id with
  | Some id => on_env (emitBarrier (NewBarrier id timestamp) (src_position s)) (s, env)
  | None => (Ok tt, (s, env))
  end.

Definition on_record (wm : watermarkGenerator) (br : barrierGenerator) (rec : Record_)
    : LM (watermarkGenerator * barrierGenerator) :=
  let t_wm := wm_onRecord (EventTime rec) wm in
  let id_br := br_onRecord br in
  _ ← on_env (emitRecord rec);
  _ ← emit_mark t_wm.1;
  _ ← emit_barrier id_br.1 (wm_lastEmitted t_wm.2);
  mret (t_wm.2, id_br.2).

(** One turn of the loop; [None] when the source is done. *)
Definition source_turn (end_ : Z) (bounded : bool) (wm : watermarkGenerator)
    (br : barrierGenerator) (st : S * Env)
    : result error (option (watermarkGenerator * barrierGenerator)) * (S * Env) :=
  match ctxErr st.2 with
  | Some e => (Err (ErrCtx e), st)
  | None =>
      if bounded && (end_ <=? src_position st.1) then (Ok None, st)
      else
        match on_source src_next st with
        | (Err e, st) => (Err e, st)
        | (Ok None, st) => (Ok None, st)
        | (Ok (Some rec), st) =>
            match on_record wm br rec st with
            | (Err e, st) => (Err e, st)
            | (Ok g, st) => (Ok (Some g), st)
            end
        end
  end.

(** The loop; [None] when the fuel is used up. *)
Fixpoint source_loop (fuel : nat) (end_ : Z) (bounded : bool) (wm : watermarkGenerator)
    (br : barrierGenerator) (st : S * Env) : option (result error unit * (S * Env)) :=
  match fuel with
  | O => None
  | Datatypes.S fuel =>
      match source_turn end_ bounded wm br st with
      | (Err e, st) => Some (Err e, st)
      | (Ok None, st) => Some (Ok tt, st)
      | (Ok (Some (wm, br)), st) => source_loop fuel end_ bounded wm br st
      end
  end.

(** Before the loop: the range, and the state of the barrier generator. *)
Definition source_start (parallelism index barrierIntervalElements : Z)
    (resume : option sourceResume) : LM (Z * bool * barrierGenerator) :=
  r ← seekToRange parallelism index;
  let '(start, end_, bounded, count) := r in
  let br := newBarrierGenerator barrierIntervalElements
              (maxBarriers count parallelism barrierIntervalElements bounded) in
  br ← match resume with
       | Some r => apply_resume r br start end_ bounded
       | None => mret br
       end;
  mret (end_, bounded, br).

Definition sourceLoop (fuel : nat) (parallelism index : Z) (wm : watermarkGenerator)
    (barrierIntervalElements : Z) (resume : option sourceResume) (st : S * Env)
    : option (result error unit * (S * Env)) :=
  match source_start parallelism index barrierIntervalElements resume st with
  | (Err e, st) => Some (Err e, st)
  | (Ok (end_, bounded, br), st) => source_loop fuel end_ bounded wm br st
  end.
End Loop.
