(* ===== verification/SourceTaskSpec.v ===== *)
(** The theorems of the source task: the ranges partition the offsets, every
    subtask injects the same barriers, watermarks keep records on time, and a
    resumed subtask continues where the checkpoint was taken. *)
From S2P Require Import Prelude Core Streams SourceTask.

(** * What a subtask emits *)

Inductive source_event :=
| SRec (r : Record_)
| SMark (t : Z)
| SBarrier (b : Barrier) (position : Z).

Definition event_elem (e : source_event) : StreamElement :=
  match e with
  | SRec r => NewRecordElement r
  | SMark t => NewWatermarkElement t
  | SBarrier b _ => NewBarrierElement b
  end.

Definition srecords (l : list source_event) : list Record_ :=
  omap (fun e => match e with SRec r => Some r | _ => None end) l.

(** The checkpoints and the positions recorded for them. *)
Definition sbarriers (l : list source_event) : list (Z * Z) :=
  omap (fun e => match e with SBarrier b p => Some (CheckpointID b, p) | _ => None end) l.

(** Everything but the watermarks: the records and, between them, the barriers
    with their positions. *)
Definition unmarked (l : list source_event) : list (Record_ + Z * Z) :=
  omap (fun e => match e with
                 | SRec r => Some (inl r)
                 | SMark _ => None
                 | SBarrier b p => Some (inr (CheckpointID b, p))
                 end) l.

(** What follows one record, the next position being [pos]. *)
Definition after_record (t id : option Z) (timestamp pos : Z) : list source_event :=
  option_list (SMark <$> t) ++ option_list ((fun id => SBarrier (NewBarrier id timestamp) pos) <$> id).

(** The events of a list of records read from position [pos]. *)
Fixpoint trace (wm : watermarkGenerator) (br : barrierGenerator) (pos : Z)
    (l : list Record_) : list source_event :=
  match l with
  | [] => []
  | r :: l =>
      let t_wm := wm_onRecord (EventTime r) wm in
      let id_br := br_onRecord br in
      SRec r :: after_record t_wm.1 id_br.1 (wm_lastEmitted t_wm.2) (pos + 1)
        ++ trace t_wm.2 id_br.2 (pos + 1) l
  end.

Lemma srecords_app l k : srecords (l ++ k) = srecords l ++ srecords k.
Proof. apply omap_app. Qed.
Lemma sbarriers_app l k : sbarriers (l ++ k) = sbarriers l ++ sbarriers k.
Proof. apply omap_app. Qed.

Lemma srecords_trace wm br pos l : srecords (trace wm br pos l) = l.
Proof.
  revert wm br pos. induction l as [|r l IH]; intros wm br pos; [done|].
  cbn [trace]. change (srecords (SRec r :: ?x)) with (r :: srecords x).
  rewrite srecords_app, IH. unfold after_record.
  by destruct (wm_onRecord (EventTime r) wm).1, (br_onRecord br).1.
Qed.

(** The barriers do not depend on the watermarks. *)
Lemma sbarriers_trace wm wm' br pos l :
  sbarriers (trace wm br pos l) = sbarriers (trace wm' br pos l).
Proof.
  revert wm wm' br pos. induction l as [|r l IH]; intros wm wm' br pos; [done|].
  cbn [trace]. change (sbarriers (SRec r :: ?x)) with (sbarriers x).
  rewrite !sbarriers_app. rewrite (IH _ (wm_onRecord (EventTime r) wm').2). f_equal.
  unfold after_record.
  by destruct (wm_onRecord (EventTime r) wm).1, (wm_onRecord (EventTime r) wm').1, (br_onRecord br).1.
Qed.

(** Nothing but the watermarks depends on the watermark generator. *)
Lemma unmarked_trace wm wm' br pos l :
  unmarked (trace wm br pos l) = unmarked (trace wm' br pos l).
Proof.
  revert wm wm' br pos. induction l as [|r l IH]; intros wm wm' br pos; [done|].
  cbn [trace]. change (unmarked (SRec r :: ?x)) with (inl r :: unmarked x). f_equal.
  unfold unmarked in *. rewrite !omap_app. rewrite (IH _ (wm_onRecord (EventTime r) wm').2). f_equal.
  unfold after_record.
  by destruct (wm_onRecord (EventTime r) wm).1, (wm_onRecord (EventTime r) wm').1, (br_onRecord br).1.
Qed.

(** After a barrier the generator is where a resumed one starts. *)
Lemma br_onRecord_some br id br' :
  br_onRecord br = (Some id, br') ->
  br' = MkBarriers (br_intervalElements br) (br_maxBarriers br) 0 id.
Proof.
  unfold br_onRecord. case_match; [done|]. case_match; [done|]. case_match; [done|].
  by intros [= <- <-].
Qed.

Lemma br_onRecord_same br :
  br_intervalElements (br_onRecord br).2 = br_intervalElements br /\
  br_maxBarriers (br_onRecord br).2 = br_maxBarriers br.
Proof. unfold br_onRecord. by repeat case_match. Qed.

(** The watermark generator after some records. *)
Definition wm_after (wm : watermarkGenerator) (l : list Record_) : watermarkGenerator :=
  foldl (fun g r => (wm_onRecord (EventTime r) g).2) wm l.

Lemma trace_at_barrier wm br pos l T1 b p T2 :
  trace wm br pos l = T1 ++ SBarrier b p :: T2 ->
  exists l1 l2, l = l1 ++ l2 /\ p = pos + Z.of_nat (length l1) /\
    T2 = trace (wm_after wm l1)
      (MkBarriers (br_intervalElements br) (br_maxBarriers br) 0 (CheckpointID b)) p l2.
Proof.
  revert wm br pos T1. induction l as [|r l IH]; intros wm br pos T1 E; [by destruct T1|].
  cbn [trace] in E. destruct T1 as [|e T1]; [done|]. injection E as _ E.
  set (wm1 := (wm_onRecord (EventTime r) wm).2) in *.
  assert (forall T1', trace wm1 (br_onRecord br).2 (pos + 1) l = T1' ++ SBarrier b p :: T2 ->
    exists l1 l2, r :: l = l1 ++ l2 /\ p = pos + Z.of_nat (length l1) /\
    T2 = trace (wm_after wm l1)
      (MkBarriers (br_intervalElements br) (br_maxBarriers br) 0 (CheckpointID b)) p l2) as Hrest.
  { intros T1' E'. apply IH in E' as (l1 & l2 & -> & -> & ->).
    destruct (br_onRecord_same br) as [-> ->].
    exists (r :: l1), l2. split_and!; [done|cbn; lia|]. f_equal. }
  unfold after_record in E.
  destruct (br_onRecord br) as [[id|] br'] eqn:Ebr; cbn [fst snd] in *;
    destruct (wm_onRecord (EventTime r) wm).1 as [t|]; cbn in E.
  - destruct T1 as [|e1 T1]; [done|]. injection E as _ E.
    destruct T1 as [|e2 T1]; [|injection E as _ E; by eapply Hrest].
    injection E as <- <- <-. exists [r], l. apply br_onRecord_some in Ebr as ->.
    by split_and!; [|cbn; lia|].
  - destruct T1 as [|e2 T1]; [|injection E as _ E; by eapply Hrest].
    injection E as <- <- <-. exists [r], l. apply br_onRecord_some in Ebr as ->.
    by split_and!; [|cbn; lia|].
  - destruct T1 as [|e1 T1]; [done|]. injection E as _ E. by eapply Hrest.
  - by eapply Hrest.
Qed.

(** ** Which barriers *)

Record br_ok (br : barrierGenerator) : Prop := {
  bo_interval : 0 < br_intervalElements br <= max_int64;
  bo_since : 0 <= br_sinceLast br < br_intervalElements br;
  bo_injected : 0 <= br_injected br <= br_maxBarriers br;
  bo_max : br_maxBarriers br <= max_int64;
}.

Lemma br_onRecord_ok br :
  br_ok br ->
  br_ok (br_onRecord br).2 /\
  (br_onRecord br =
    if decide (br_injected br = br_maxBarriers br) then (None, br)
    else if decide (br_sinceLast br + 1 = br_intervalElements br)
    then (Some (br_injected br + 1), MkBarriers (br_intervalElements br) (br_maxBarriers br) 0 (br_injected br + 1))
    else (None, MkBarriers (br_intervalElements br) (br_maxBarriers br) (br_sinceLast br + 1) (br_injected br))).
Proof.
  intros [Hi Hs Hj Hm].
  assert (br_onRecord br =
    if decide (br_injected br = br_maxBarriers br) then (None, br)
    else if decide (br_sinceLast br + 1 = br_intervalElements br)
    then (Some (br_injected br + 1), MkBarriers (br_intervalElements br) (br_maxBarriers br) 0 (br_injected br + 1))
    else (None, MkBarriers (br_intervalElements br) (br_maxBarriers br) (br_sinceLast br + 1) (br_injected br))) as E.
  { unfold br_onRecord. rewrite (proj2 (Z.leb_gt _ _)) by lia.
    rewrite (proj2 (Z.eqb_neq (br_maxBarriers br) unboundedBarriers)) by (unfold unboundedBarriers; lia).
    cbn [negb andb]. case_decide.
    - by rewrite (proj2 (Z.leb_le _ _)) by lia.
    - rewrite (proj2 (Z.leb_gt _ _)) by lia. rewrite !add64_id by (unfold_ints; lia).
      case_decide; [rewrite (proj2 (Z.ltb_ge _ _)) by lia|rewrite (proj2 (Z.ltb_lt _ _)) by lia]; done. }
  split; [|done]. rewrite E. repeat case_decide; cbn; [done|..]; split; cbn; lia.
Qed.

(** The barriers still to come, when [n] records follow. *)
Definition due_barriers (br : barrierGenerator) (pos n : Z) : list (Z * Z) :=
  let k := Z.min (br_maxBarriers br - br_injected br)
                 ((br_sinceLast br + n) / br_intervalElements br) in
  (fun i => (br_injected br + i, pos - br_sinceLast br + i * br_intervalElements br)) <$> seqZ 1 k.

Lemma sbarriers_due wm br pos l :
  br_ok br -> sbarriers (trace wm br pos l) = due_barriers br pos (Z.of_nat (length l)).
Proof.
  revert wm br pos. induction l as [|r l IH]; intros wm br pos Hok.
  { destruct Hok as [Hi Hs Hj Hm]. unfold due_barriers. cbn [length trace].
    rewrite Z.add_0_r, Z.div_small by lia. rewrite Z.min_r by lia. done. }
  cbn [trace]. change (sbarriers (SRec r :: ?x)) with (sbarriers x). rewrite sbarriers_app.
  destruct (br_onRecord_ok br Hok) as [Hok' E].
  rewrite IH by done. rewrite E. clear IH E Hok'. destruct Hok as [Hi Hs Hj Hm].
  assert (forall (t : option Z) id ts, sbarriers (after_record t id ts (pos + 1)) =
    option_list ((fun id => (id, pos + 1)) <$> id)) as ->.
  { intros t id ts. unfold after_record. by destruct t, id. }
  unfold due_barriers. cbn [length]. rewrite Nat2Z.inj_succ.
  set (n := Z.of_nat (length l)). assert (0 <= n) by lia.
  destruct (decide (br_injected br = br_maxBarriers br)) as [Ej|Ej]; cbn.
  { rewrite Ej, Z.sub_diag. rewrite !Z.min_l; [done|..]; apply Z.div_pos; lia. }
  destruct (decide (br_sinceLast br + 1 = br_intervalElements br)) as [Es|Es]; cbn.
  - replace (br_sinceLast br + Z.succ n) with (n + 1 * br_intervalElements br) by lia.
    rewrite Z.div_add by lia. rewrite Z.sub_0_r.
    assert (0 <= n / br_intervalElements br) by (apply Z.div_pos; lia).
    set (q := n / br_intervalElements br) in *.
    replace (br_maxBarriers br - (br_injected br + 1)) with (br_maxBarriers br - br_injected br - 1) by lia.
    assert (0 < br_maxBarriers br - br_injected br) as Hm0 by lia. revert Hm0.
    generalize (br_maxBarriers br - br_injected br). intros m Hm0.
    replace (Z.min m (q + 1)) with (Z.succ (Z.min (m - 1) q)) by lia.
    rewrite (seqZ_cons 1 (Z.succ _)) by lia. cbn. rewrite Z.pred_succ. f_equal; [f_equal; lia|].
    rewrite <- (fmap_add_seqZ 1 1). change (1 + 1) with (Z.succ 1).
    rewrite <- list_fmap_compose. apply list_fmap_ext. intros i x _. unfold compose. f_equal; lia.
  - replace (br_sinceLast br + 1 + n) with (br_sinceLast br + Z.succ n) by lia.
    apply list_fmap_ext. intros i x _. f_equal. lia.
Qed.

(** ** Watermarks *)

(** No record is more than [lag] behind one that precedes it. *)
Definition disordered (lag : Z) (l : list Record_) : Prop :=
  forall l1 r l2, l = l1 ++ r :: l2 ->
  forall r', r' ∈ l1 -> EventTime r' - lag <= EventTime r.

Lemma disordered_cons lag r l :
  disordered lag (r :: l) -> disordered lag l /\ (forall r', r' ∈ l -> EventTime r - lag <= EventTime r').
Proof.
  intros Hd. split.
  - intros l1 r1 l2 -> r' Hr'. apply (Hd (r :: l1) r1 l2); [done|]. by right.
  - intros r' (l1 & l2 & ->)%list_elem_of_split. apply (Hd (r :: l1) r' l2); [done|]. by left.
Qed.

Fixpoint disorderedb (lag : Z) (l : list Record_) : bool :=
  match l with
  | [] => true
  | r :: l => forallb (fun r' => EventTime r - lag <=? EventTime r') l && disorderedb lag l
  end.

Lemma disorderedb_sound lag l : disorderedb lag l = true -> disordered lag l.
Proof.
  induction l as [|r l IH]; intros E l1 r1 l2 El r' Hr'; [by destruct l1|].
  apply andb_prop in E as [Ea Eb]. destruct l1 as [|r0 l1]; [by apply elem_of_nil in Hr'|].
  injection El as <- El. apply elem_of_cons in Hr' as [->|Hr']; [|by apply (IH Eb l1 r1 l2)].
  apply Z.leb_le. apply (proj1 (forallb_forall _ _) Ea). rewrite El. apply in_or_app. right. by left.
Qed.

Lemma source_subFloor_spec a b :
  is_i64 a -> is_i64 b -> 0 <= b -> subFloor a b = Z.max (a - b) min_int64.
Proof.
  intros Ha Hb Hb0. unfold subFloor. rewrite sub64_add64.
  rewrite (proj2 (Z.ltb_ge b 0)) by lia. cbn [andb].
  destruct (decide (min_int64 <= a - b)).
  - rewrite add64_id by (unfold_ints; lia).
    rewrite (proj2 (Z.ltb_ge a _)) by lia. rewrite andb_false_r. lia.
  - assert (add64 a (- b) = a - b + 2 ^ 64) as ->.
    { assert (b <> min_int64) by (unfold_ints; lia).
      destruct (add64_cases a (-b)) as [[Hr _]|[[Hr _]|[_ ->]]]; [done|revert Hb Hb0; unfold_ints; lia|..|lia];
        revert Ha Hb Hr n; unfold_ints; lia. }
    rewrite (proj2 (Z.ltb_lt 0 b)), (proj2 (Z.ltb_lt a _));
      [cbn; lia|revert Hb; unfold_ints; lia|revert Ha n; unfold_ints; lia].
Qed.

Record wm_ok (wm : watermarkGenerator) : Prop := {
  wo_lag : 0 <= wm_maxOutOfOrderness wm <= max_int64;
  wo_max : is_i64 (wm_maxEventTime wm);
  wo_last : min_int64 <= wm_lastEmitted wm;
}.

Lemma wm_onRecord_ok wm t :
  wm_ok wm -> is_i64 t ->
  wm_ok (wm_onRecord t wm).2 /\
  wm_maxOutOfOrderness (wm_onRecord t wm).2 = wm_maxOutOfOrderness wm /\
  wm_maxEventTime (wm_onRecord t wm).2 = Z.max t (wm_maxEventTime wm) /\
  wm_lastEmitted wm <= wm_lastEmitted (wm_onRecord t wm).2 /\
  (forall m, (wm_onRecord t wm).1 = Some m ->
    wm_lastEmitted wm < m /\ wm_lastEmitted (wm_onRecord t wm).2 = m /\
    m = Z.max t (wm_maxEventTime wm) - wm_maxOutOfOrderness wm - 1).
Proof.
  intros [Hlag Hmax Hlast] Ht. unfold wm_onRecord.
  assert ((if wm_maxEventTime wm <? t then t else wm_maxEventTime wm) = Z.max t (wm_maxEventTime wm)) as ->.
  { destruct (Z.ltb_spec (wm_maxEventTime wm) t); lia. }
  set (mx := Z.max t (wm_maxEventTime wm)). assert (is_i64 mx) by (unfold mx; unfold_ints; lia).
  destruct (wm_intervalElements wm <=? 0).
  { cbn. split_and!; [by split|done|done|lia|done]. }
  destruct (add64 (wm_sinceLast wm) 1 <? wm_intervalElements wm).
  { cbn. split_and!; [by split|done|done|lia|done]. }
  rewrite (source_subFloor_spec mx) by (done || (unfold_ints; lia)).
  rewrite source_subFloor_spec; [|unfold_ints; lia|unfold_ints; lia|lia].
  destruct (Z.leb_spec (Z.max (Z.max (mx - wm_maxOutOfOrderness wm) min_int64 - 1) min_int64) (wm_lastEmitted wm)).
  { cbn. split_and!; [by split|done|done|lia|done]. }
  cbn. split_and!; [split; cbn; [done|done|lia]|done|done|lia|].
  intros m [= <-]. split_and!; [lia|done|lia].
Qed.

(** ** The watermarks, from the records alone *)

Section Watermarks.
Context (interval lag : Z).

(** The greatest event time of the records read. *)
Definition latest (l : list Record_) : Z :=
  foldl (fun m r => Z.max (EventTime r) m) min_int64 l.

(** The watermark that holds once a run has read [seen]: it is taken at every
    [interval]-th record. *)
Definition watermark_of (seen : list Record_) : Z :=
  if interval <=? 0 then min_int64
  else
    let taken := Z.of_nat (length seen) / interval * interval in
    Z.max (latest (take (Z.to_nat taken) seen) - lag - 1) min_int64.

(** Events with the watermarks that a run sends when it has read [seen] before
    them: one after each record at which the watermark rises; a barrier carries
    the watermark that holds. *)
Fixpoint remarked (seen : list Record_) (l : list source_event) : list source_event :=
  match l with
  | [] => []
  | SRec r :: l =>
      let now := watermark_of (seen ++ [r]) in
      SRec r :: (if watermark_of seen <? now then [SMark now] else []) ++ remarked (seen ++ [r]) l
  | SMark _ :: l => remarked seen l
  | SBarrier b p :: l => SBarrier (NewBarrier (CheckpointID b) (watermark_of seen)) p :: remarked seen l
  end.

Lemma latest_snoc l r : latest (l ++ [r]) = Z.max (EventTime r) (latest l).
Proof. unfold latest. by rewrite foldl_app. Qed.

Lemma latest_app_le l k : latest l <= latest (l ++ k).
Proof.
  induction k as [|r k IH] using rev_ind; [by rewrite app_nil_r|].
  rewrite app_assoc, latest_snoc. lia.
Qed.

Lemma latest_app_le_r l k : latest k <= latest (l ++ k).
Proof.
  induction k as [|r k IH] using rev_ind; [rewrite app_nil_r|].
  - unfold latest at 1. cbn. induction l as [|r l IH] using rev_ind; [done|]. rewrite latest_snoc. lia.
  - rewrite app_assoc, !latest_snoc. lia.
Qed.

Lemma watermark_of_le seen : watermark_of seen <= Z.max (latest seen - lag - 1) min_int64.
Proof.
  unfold watermark_of. destruct (interval <=? 0); [lia|].
  pose proof (latest_app_le (take (Z.to_nat (Z.of_nat (length seen) / interval * interval)) seen)
    (drop (Z.to_nat (Z.of_nat (length seen) / interval * interval)) seen)) as Hl.
  rewrite take_drop in Hl. cbn zeta. lia.
Qed.

(** A record that is not an [interval]-th one changes nothing. *)
Lemma watermark_of_between seen r :
  0 < interval -> (Z.of_nat (length seen) mod interval) + 1 < interval ->
  watermark_of (seen ++ [r]) = watermark_of seen.
Proof.
  intros Hi Hm. unfold watermark_of. rewrite (proj2 (Z.leb_gt _ _) Hi). rewrite length_app. cbn [length].
  set (n := length seen) in *. pose proof (Z.div_mod (Z.of_nat n) interval ltac:(lia)) as Hd.
  pose proof (Z.mod_pos_bound (Z.of_nat n) interval Hi).
  assert (Z.of_nat (n + 1) / interval = Z.of_nat n / interval) as ->.
  { symmetry. apply Z.div_unique with (Z.of_nat n mod interval + 1); lia. }
  rewrite take_app_le by (unfold n in *; lia). done.
Qed.

(** At an [interval]-th one it is that of all the records. *)
Lemma watermark_of_due seen r :
  0 < interval -> (Z.of_nat (length seen) mod interval) + 1 = interval ->
  watermark_of (seen ++ [r]) = Z.max (latest (seen ++ [r]) - lag - 1) min_int64.
Proof.
  intros Hi Hm. unfold watermark_of. rewrite (proj2 (Z.leb_gt _ _) Hi).
  pose proof (Z.div_mod (Z.of_nat (length seen)) interval ltac:(lia)) as Hd.
  assert (Z.of_nat (length (seen ++ [r])) / interval = Z.of_nat (length seen) / interval + 1) as ->.
  { rewrite length_app. cbn [length]. symmetry. apply Z.div_unique with 0; lia. }
  rewrite take_ge; [done|]. rewrite length_app. cbn [length]. lia.
Qed.

(** The generator of a run that has read [seen]. *)
Record wm_at (seen : list Record_) (wm : watermarkGenerator) : Prop := {
  wa_interval : wm_intervalElements wm = interval;
  wa_lag : wm_maxOutOfOrderness wm = lag;
  wa_max : wm_maxEventTime wm = latest seen;
  wa_last : wm_lastEmitted wm = watermark_of seen;
  wa_since : 0 < interval -> wm_sinceLast wm = Z.of_nat (length seen) mod interval;
}.

Context (Hlag : 0 <= lag <= max_int64).

Lemma wm_at_fresh : wm_at [] (newWatermarkGenerator interval lag).
Proof.
  split; cbn; [done..| |done].
  unfold watermark_of. destruct (interval <=? 0); [done|]. rewrite take_nil. unfold latest. cbn. lia.
Qed.

Lemma latest_i64 l : Forall (fun r => is_i64 (EventTime r)) l -> is_i64 (latest l).
Proof.
  intros Hl. induction l as [|r l IH] using rev_ind; [unfold latest; cbn; unfold_ints; lia|].
  apply Forall_app in Hl as [Hl Hr]. apply Forall_cons in Hr as [Hr _].
  rewrite latest_snoc. specialize (IH Hl). revert IH Hr. unfold_ints. lia.
Qed.

(** The generator keeps to it, and sends the watermark when it rises. *)
Lemma wm_at_onRecord seen wm r :
  wm_at seen wm -> Forall (fun r => is_i64 (EventTime r)) (seen ++ [r]) ->
  Z.of_nat (length (seen ++ [r])) <= max_int64 ->
  wm_at (seen ++ [r]) (wm_onRecord (EventTime r) wm).2 /\
  (wm_onRecord (EventTime r) wm).1 =
    if watermark_of seen <? watermark_of (seen ++ [r]) then Some (watermark_of (seen ++ [r])) else None.
Proof.
  intros [Ei El Em Ew Es] H64 Hn. pose proof (latest_i64 _ H64) as Hl.
  rewrite length_app in Hn. cbn [length] in Hn. unfold wm_onRecord. rewrite Ei, El, Em, Ew.
  assert ((if latest seen <? EventTime r then EventTime r else latest seen) = latest (seen ++ [r])) as ->.
  { rewrite latest_snoc. destruct (Z.ltb_spec (latest seen) (EventTime r)); lia. }
  destruct (Z.leb_spec interval 0) as [Hi|Hi].
  { assert (watermark_of (seen ++ [r]) = watermark_of seen) as E.
    { unfold watermark_of. by rewrite (proj2 (Z.leb_le _ _) Hi). }
    rewrite E, Z.ltb_irrefl. split; [split; cbn; [done..|by rewrite E|lia]|done]. }
  pose proof (Z.mod_pos_bound (Z.of_nat (length seen)) interval Hi) as Hm.
  pose proof (Z.mod_le (Z.of_nat (length seen)) interval ltac:(lia) Hi).
  rewrite (Es Hi), add64_id by (unfold_ints; lia). pose proof (Z.div_mod (Z.of_nat (length seen)) interval ltac:(lia)).
  destruct (Z.ltb_spec (Z.of_nat (length seen) mod interval + 1) interval) as [Hlt|Hge].
  { pose proof (watermark_of_between seen r Hi Hlt) as E. rewrite E, Z.ltb_irrefl.
    split; [split; cbn; [done..|by rewrite E|]|done]. intros _. rewrite length_app. cbn [length].
    apply Z.mod_unique with (Z.of_nat (length seen) / interval); lia. }
  pose proof (watermark_of_due seen r Hi ltac:(lia)) as E. pose proof (watermark_of_le seen) as Hle.
  assert (latest seen <= latest (seen ++ [r])) by (rewrite latest_snoc; lia).
  assert (subFloor (subFloor (latest (seen ++ [r])) lag) 1 = watermark_of (seen ++ [r])) as ->.
  { rewrite (source_subFloor_spec (latest _)) by (done || (unfold_ints; lia)).
    rewrite source_subFloor_spec; unfold_ints; lia. }
  assert (0 = Z.of_nat (length (seen ++ [r])) mod interval) as Ez.
  { rewrite length_app. cbn [length]. apply Z.mod_unique with (Z.of_nat (length seen) / interval + 1); lia. }
  destruct (Z.leb_spec (watermark_of (seen ++ [r])) (watermark_of seen)).
  - rewrite (proj2 (Z.ltb_ge _ _)) by lia. split; [split; cbn; [done..|lia|done]|done].
  - rewrite (proj2 (Z.ltb_lt _ _)) by lia. by split; [split; cbn|].
Qed.

Lemma wm_at_after seen wm l :
  wm_at seen wm -> Forall (fun r => is_i64 (EventTime r)) (seen ++ l) ->
  Z.of_nat (length (seen ++ l)) <= max_int64 -> wm_at (seen ++ l) (wm_after wm l).
Proof.
  revert seen wm. induction l as [|r l IH]; intros seen wm Hw H64 Hn; [by rewrite app_nil_r|].
  rewrite cons_middle, app_assoc in *. cbn. apply IH; [|done..].
  apply Forall_app in H64 as [H64 _]. rewrite length_app in Hn. apply wm_at_onRecord; [done..|lia].
Qed.

(** A run sends the watermarks of its records, whatever run [wm'] its other
    events are taken from. *)
Lemma trace_remarked seen wm wm' br pos l :
  wm_at seen wm -> Forall (fun r => is_i64 (EventTime r)) (seen ++ l) ->
  Z.of_nat (length (seen ++ l)) <= max_int64 ->
  trace wm br pos l = remarked seen (trace wm' br pos l).
Proof.
  revert seen wm wm' br pos. induction l as [|r l IH]; intros seen wm wm' br pos Hw H64 Hn; [done|].
  rewrite cons_middle, app_assoc in H64, Hn.
  destruct (wm_at_onRecord seen wm r) as [Hw' E]; [done|by apply Forall_app in H64 as [? _]|
    rewrite length_app in Hn; lia|].
  cbn [trace remarked]. rewrite E. rewrite (wa_last _ _ Hw'). f_equal.
  rewrite (IH (seen ++ [r]) _ (wm_onRecord (EventTime r) wm').2) by done. unfold after_record.
  destruct (wm_onRecord (EventTime r) wm').1, (br_onRecord br).1, (watermark_of seen <? _); cbn; done.
Qed.

(** A watermark sent is that of the records read before it. *)
Lemma remarked_mark seen l U1 t U2 :
  remarked seen l = U1 ++ SMark t :: U2 -> t = watermark_of (seen ++ srecords U1) /\ min_int64 < t.
Proof.
  assert (forall l, min_int64 <= watermark_of l) as Hmin.
  { intros k. unfold watermark_of. destruct (interval <=? 0); lia. }
  revert seen U1. induction l as [|[r|t'|b p] l IH]; intros seen U1 E; cbn [remarked] in E.
  - by destruct U1.
  - destruct U1 as [|e U1]; [done|]. injection E as <- E.
    change (srecords (SRec r :: U1)) with ([r] ++ srecords U1). rewrite app_assoc.
    destruct (Z.ltb_spec (watermark_of seen) (watermark_of (seen ++ [r]))); [|exact (IH _ _ E)].
    destruct U1 as [|e U1]; injection E as <- E; [|exact (IH _ _ E)].
    rewrite app_nil_r. split; [done|]. specialize (Hmin seen). lia.
  - exact (IH _ _ E).
  - destruct U1 as [|e U1]; [done|]. injection E as <- E. exact (IH _ _ E).
Qed.

End Watermarks.

Lemma trace_timely wm br pos l :
  wm_ok wm -> disordered (wm_maxOutOfOrderness wm) l ->
  (forall r, r ∈ l -> is_i64 (EventTime r) /\
    wm_maxEventTime wm - wm_maxOutOfOrderness wm <= EventTime r) ->
  timely (event_elem <$> trace wm br pos l) /\
  StronglySorted Z.lt (marks (event_elem <$> trace wm br pos l)) /\
  Forall (fun w => wm_lastEmitted wm < w) (marks (event_elem <$> trace wm br pos l)).
Proof.
  revert wm br pos. induction l as [|r l IH]; intros wm br pos Hok Hd Hl.
  { split_and!; [apply timely_nil|constructor|constructor]. }
  destruct (Hl r) as [Hr Hmr]; [by left|].
  destruct (wm_onRecord_ok wm (EventTime r) Hok Hr) as (Hok' & Elag & Emax & Hle & Hm).
  apply disordered_cons in Hd as [Hd Hdr].
  destruct (IH (wm_onRecord (EventTime r) wm).2 (br_onRecord br).2 (pos + 1)) as (IH1 & IH2 & IH3); [done|by rewrite Elag|..].
  { intros r' Hr'. destruct (Hl r') as [? ?]; [by right|]. specialize (Hdr r' Hr').
    split; [done|]. rewrite Elag, Emax. lia. }
  cbn [trace]. rewrite fmap_cons, fmap_app. cbn [event_elem].
  set (rest := event_elem <$> trace _ _ _ l) in *.
  set (mid := event_elem <$> after_record _ _ _ _).
  assert (records mid = [] /\ marks mid = option_list (wm_onRecord (EventTime r) wm).1) as [Er Em].
  { unfold mid, after_record. by destruct (wm_onRecord (EventTime r) wm).1, (br_onRecord br).1. }
  assert (records rest = l) as Erest.
  { rewrite <- (srecords_trace (wm_onRecord (EventTime r) wm).2 (br_onRecord br).2 (pos + 1) l).
    unfold rest. generalize (trace (wm_onRecord (EventTime r) wm).2 (br_onRecord br).2 (pos + 1) l).
    clear. intros l. induction l as [|[]]; cbn; try done. by f_equal. }
  change (marks (NewRecordElement r :: ?x)) with (marks x).
  rewrite marks_app, Em. split_and!.
  - apply (timely_app [_]).
    + apply (timely_snoc []); [apply timely_nil|]. intros ? _ w Hw. by apply elem_of_nil in Hw.
    + apply timely_app; [|done|].
      * intros l1 r1 l2 E. exfalso. assert (r1 ∈ records mid) as Hx.
        { apply elem_of_records. rewrite E. set_solver. }
        rewrite Er in Hx. by apply elem_of_nil in Hx.
      * intros w r' Hw Hr'. rewrite Em in Hw. rewrite Erest in Hr'.
        destruct (wm_onRecord (EventTime r) wm).1 as [m|] eqn:Eo; [|by apply elem_of_nil in Hw].
        apply list_elem_of_singleton in Hw as ->. destruct (Hm m eq_refl) as (_ & _ & ->).
        specialize (Hdr r' Hr'). destruct (Hl r') as [_ ?]; [by right|]. lia.
    + intros w r' Hw. by apply elem_of_nil in Hw.
  - destruct (wm_onRecord (EventTime r) wm).1 as [m|] eqn:Eo; [|done].
    destruct (Hm m eq_refl) as (_ & El & _). rewrite El in IH3. by constructor.
  - apply Forall_app. split.
    + destruct (wm_onRecord (EventTime r) wm).1 as [m|] eqn:Eo; [|constructor].
      constructor; [|constructor]. by destruct (Hm m eq_refl).
    + eapply Forall_impl; [exact IH3|]. intros w Hw. cbn in *. lia.
Qed.

(** * The loop emits the trace of its range *)

(** Emitters that record what they are given and never fail. *)
Definition log_record (r : Record_) : M Empty_set (list source_event) unit := fun l =>
  (Ok tt, l ++ [SRec r]).
Definition log_mark (t : Z) : M Empty_set (list source_event) unit := fun l =>
  (Ok tt, l ++ [SMark t]).
Definition log_barrier (b : Barrier) (p : Z) : M Empty_set (list source_event) unit := fun l =>
  (Ok tt, l ++ [SBarrier b p]).
Definition never (l : list source_event) : option Empty_set := None.

Section LoopFacts.
Context {S SE : Type} `{SourceLaws S SE}.

(** The records of the offsets [a, b). *)
Definition src_range (at_ : Z -> option Record_) (a b : Z) : list Record_ :=
  omap at_ (seqZ a (b - a)).

Lemma src_range_cons at_ a b r :
  a < b -> at_ a = Some r -> src_range at_ a b = r :: src_range at_ (a + 1) b.
Proof.
  intros Hab Ha. unfold src_range. rewrite seqZ_cons by lia. cbn. rewrite Ha.
  do 3 f_equal; lia.
Qed.

Lemma src_range_nil at_ a : src_range at_ a a = [].
Proof. unfold src_range. by rewrite Z.sub_diag. Qed.

Lemma src_range_split at_ a b c :
  a <= b <= c -> src_range at_ a c = src_range at_ a b ++ src_range at_ b c.
Proof.
  intros Hab. unfold src_range. replace (c - a) with ((b - a) + (c - b)) by lia.
  rewrite seqZ_app by lia. rewrite omap_app. do 3 f_equal; lia.
Qed.

Lemma length_src_range at_ a b :
  a <= b -> (forall n, a <= n < b -> is_Some (at_ n)) ->
  Z.of_nat (length (src_range at_ a b)) = b - a.
Proof.
  intros Hab Hs. unfold src_range.
  assert (length (omap at_ (seqZ a (b - a))) = length (seqZ a (b - a))) as ->.
  { assert (forall n, n ∈ seqZ a (b - a) -> is_Some (at_ n)) as Hin
      by (intros n [? ?]%elem_of_seqZ; apply Hs; lia).
    revert Hin. generalize (seqZ a (b - a)). intros l Hin. induction l as [|x l IH]; [done|].
    destruct (Hin x) as [r Hr]; [by left|]. cbn. rewrite Hr. cbn. f_equal. apply IH.
    intros n Hn. apply Hin. by right. }
  rewrite length_seqZ. lia.
Qed.

Lemma on_record_log wm br rec (s : S) env :
  on_record (CE := Empty_set) log_record log_mark log_barrier wm br rec (s, env) =
  (Ok ((wm_onRecord (EventTime rec) wm).2, (br_onRecord br).2),
   (s, env ++ SRec rec :: after_record (wm_onRecord (EventTime rec) wm).1 (br_onRecord br).1
         (wm_lastEmitted (wm_onRecord (EventTime rec) wm).2) (src_position s))).
Proof.
  unfold on_record, emit_mark, emit_barrier, on_env, mbind, M_bind, log_record, log_mark,
    log_barrier, wrap_err, after_record.
  destruct (wm_onRecord (EventTime rec) wm) as [[t|] wm'], (br_onRecord br) as [[id|] br'];
    cbn; by rewrite <- ?app_assoc.
Qed.

Lemma source_loop_trace fuel (end_ : Z) wm br (s : S) env :
  src_position s <= end_ -> (forall n, src_position s <= n < end_ -> is_Some (src_at s n)) ->
  (Z.to_nat (end_ - src_position s) < fuel)%nat ->
  exists s', source_loop never log_record log_mark log_barrier fuel end_ true wm br (s, env) =
    Some (Ok tt, (s', env ++ trace wm br (src_position s) (src_range (src_at s) (src_position s) end_))).
Proof.
  revert wm br s env. induction fuel as [|fuel IH]; intros wm br s env Hp Hs Hf; [lia|].
  cbn [source_loop]. unfold source_turn. cbn [never snd fst andb].
  destruct (Z.leb_spec end_ (src_position s)).
  { exists s. replace end_ with (src_position s) by lia. rewrite src_range_nil. cbn.
    by rewrite app_nil_r. }
  unfold on_source. destruct (src_next_ok s) as (E1 & E2 & E3).
  destruct (src_next s) as [r s1]. cbn [fst snd] in E1, E2, E3. subst r.
  destruct (Hs (src_position s)) as [rec Hrec]; [lia|]. rewrite Hrec in E3. rewrite Hrec. cbn [wrap_err].
  rewrite on_record_log. cbn iota beta.
  destruct (IH (wm_onRecord (EventTime rec) wm).2 (br_onRecord br).2 s1
    (env ++ SRec rec :: after_record (wm_onRecord (EventTime rec) wm).1 (br_onRecord br).1
         (wm_lastEmitted (wm_onRecord (EventTime rec) wm).2) (src_position s1))) as [s' E].
  { lia. }
  { intros n Hn. rewrite E2. apply Hs. lia. }
  { lia. }
  exists s'. rewrite E, E2, E3.
  rewrite (src_range_cons (src_at s) (src_position s) end_ rec) by (done || lia).
  by rewrite <- app_assoc.
Qed.
End LoopFacts.

(** * The ranges *)

Lemma sourceRange_exact count P i :
  0 <= count -> 0 < P -> 0 <= i < P -> P * count <= max_int64 ->
  sourceRange count P i = (i * count / P, (i + 1) * count / P).
Proof.
  intros Hc HP Hi Hb. unfold sourceRange.
  assert (0 <= i * count <= P * count) by nia.
  assert (0 <= (i + 1) * count <= P * count) by nia.
  rewrite !mul64_id by (unfold_ints; lia). rewrite !Z.quot_div_nonneg by lia. done.
Qed.

Lemma range_bounds count P i :
  0 <= count -> 0 < P -> 0 <= i < P ->
  0 <= i * count / P <= (i + 1) * count / P /\ (i + 1) * count / P <= count /\
  count / P <= (i + 1) * count / P - i * count / P <= count / P + 1.
Proof.
  intros Hc HP Hi.
  assert (0 <= i * count / P) by (apply Z.div_pos; nia).
  pose proof (Z.div_mod (i * count) P ltac:(lia)). pose proof (Z.mod_pos_bound (i * count) P ltac:(lia)).
  pose proof (Z.div_mod ((i + 1) * count) P ltac:(lia)).
  pose proof (Z.mod_pos_bound ((i + 1) * count) P ltac:(lia)).
  pose proof (Z.div_mod count P ltac:(lia)). pose proof (Z.mod_pos_bound count P ltac:(lia)).
  set (a := i * count / P) in *. set (b := (i + 1) * count / P) in *. set (c := count / P) in *.
  set (ra := i * count mod P) in *. set (rb := (i + 1) * count mod P) in *. set (rc := count mod P) in *.
  assert (P * (b - a) = P * c + rc + ra - rb) by nia.
  assert (c <= b - a <= c + 1) by nia.
  assert (0 <= c) by (apply Z.div_pos; lia).
  assert (b <= count) by nia. lia.
Qed.

(** * A subtask's whole run *)

(** The settings of a source vertex that is split into [P] subtasks. *)
Record settings := MkSettings {
  st_parallelism : Z;
  st_wmInterval : Z;
  st_lag : Z;
  st_barrierInterval : Z;
}.

Definition range_start (count P i : Z) : Z := i * count / P.

(** Settings under which nothing overflows. *)
Record settings_ok (c : settings) (count : Z) : Prop := {
  so_parallelism : 0 < st_parallelism c;
  so_product : st_parallelism c * count <= max_int64;
  so_lag : 0 <= st_lag c <= max_int64;
  so_interval : st_barrierInterval c <= max_int64;
}.

Section Runs.
Context {S SE : Type} `{SourceLaws S SE} (c : settings).

Definition run_source (fuel : nat) (index : Z) (resume : option sourceResume) (s : S)
    : option (result (loop_error SE Empty_set Empty_set) unit * (S * list source_event)) :=
  sourceLoop never log_record log_mark log_barrier fuel (st_parallelism c) index
    (newWatermarkGenerator (st_wmInterval c) (st_lag c)) (st_barrierInterval c) resume (s, []).

Context (count : S -> Z) (Hcount : src_count = Some count).

Definition budget (n : Z) : Z := maxBarriers n (st_parallelism c) (st_barrierInterval c) true.

(** What the subtask's range holds, from [pos]. *)
Definition range_from (s : S) (index pos : Z) : list Record_ :=
  src_range (src_at s) pos (range_start (count s) (st_parallelism c) (index + 1)).

Definition fresh_marks : watermarkGenerator := newWatermarkGenerator (st_wmInterval c) (st_lag c).

(** ** The start of a run, whatever the emitters act on *)

Definition start_of (s : S) (index : Z) : Z := range_start (count s) (st_parallelism c) index.

Lemma ranges_ok (s : S) index :
  settings_ok c (count s) -> 0 <= index < st_parallelism c ->
  0 <= start_of s index <= start_of s (index + 1) /\ start_of s (index + 1) <= count s /\
  (forall n, start_of s index <= n < start_of s (index + 1) -> is_Some (src_at s n)).
Proof.
  intros [HP _ _ _] Hi. destruct (src_count_ok count s Hcount) as (Hc & Hat & _).
  pose proof (range_bounds (count s) (st_parallelism c) index ltac:(lia) HP Hi) as (Hb1 & Hb2 & _).
  unfold start_of, range_start. split; [done|]. split; [done|]. intros n Hn. apply Hat. lia.
Qed.

Lemma source_start_fresh {Env EE CE} (s : S) (env : Env) index :
  settings_ok c (count s) -> 0 <= index < st_parallelism c ->
  exists s1, source_start (EE := EE) (CE := CE) (st_parallelism c) index (st_barrierInterval c) None (s, env) =
    (Ok (start_of s (index + 1), true, newBarrierGenerator (st_barrierInterval c) (budget (count s))), (s1, env)) /\
    src_at s1 = src_at s /\ src_position s1 = start_of s index.
Proof.
  intros Hok Hi. pose proof (ranges_ok s index Hok Hi) as (Hb & _). destruct Hok as [HP Hprod _ _].
  destruct (src_count_ok count s Hcount) as (Hc & _).
  unfold source_start, seekToRange, mbind, M_bind. rewrite Hcount, sourceRange_exact by lia. unfold on_source.
  destruct (src_seek_ok s (start_of s index)) as (E1 & E2 & E3); [lia|]. unfold start_of, range_start in *.
  destruct (src_seek _ s) as [r s1]. cbn [fst snd] in *. subst r. by exists s1.
Qed.

Lemma source_start_resume {Env EE CE} (s : S) (env : Env) index pos injected :
  settings_ok c (count s) -> 0 <= index < st_parallelism c ->
  start_of s index <= pos <= start_of s (index + 1) ->
  exists s1, source_start (EE := EE) (CE := CE) (st_parallelism c) index (st_barrierInterval c)
      (Some (MkResume pos injected)) (s, env) =
    (Ok (start_of s (index + 1), true, MkBarriers (st_barrierInterval c) (budget (count s)) 0 injected), (s1, env)) /\
    src_at s1 = src_at s /\ src_position s1 = pos.
Proof.
  intros Hok Hi Hpos. pose proof (ranges_ok s index Hok Hi) as (Hb & _). destruct Hok as [HP Hprod _ _].
  destruct (src_count_ok count s Hcount) as (Hc & _).
  unfold source_start, seekToRange, mbind, M_bind. rewrite Hcount, sourceRange_exact by lia. unfold on_source at 1.
  destruct (src_seek_ok s (start_of s index)) as (E1 & E2 & _); [lia|]. unfold start_of, range_start in *.
  destruct (src_seek _ s) as [r s1]. cbn [fst snd] in *. subst r. cbn [wrap_err].
  unfold mret, M_ret, apply_resume. cbn [position barriersInjected].
  rewrite (proj2 (Z.ltb_ge pos _)), (proj2 (Z.ltb_ge _ pos)), (proj2 (Z.ltb_ge pos 0)) by lia.
  cbn [orb andb]. unfold mbind, M_bind, on_source.
  destruct (src_seek_ok s1 pos) as (E4 & E5 & E6); [lia|].
  destruct (src_seek pos s1) as [r s2]. cbn [fst snd] in *. subst r. cbn. exists s2. by rewrite E5, E2.
Qed.

(** The traces of a run from scratch and of a resumed run. *)
Definition full_trace (s : S) (index : Z) : list source_event :=
  trace fresh_marks (newBarrierGenerator (st_barrierInterval c) (budget (count s)))
    (start_of s index) (range_from s index (start_of s index)).

Definition resumed_trace (s : S) (index pos injected : Z) : list source_event :=
  trace fresh_marks (MkBarriers (st_barrierInterval c) (budget (count s)) 0 injected) pos (range_from s index pos).

Lemma run_source_trace fuel index (s : S) :
  settings_ok c (count s) -> 0 <= index < st_parallelism c ->
  (Z.to_nat (count s) < fuel)%nat ->
  exists s', run_source fuel index None s = Some (Ok tt, (s', full_trace s index)).
Proof.
  intros Hok Hi Hf. pose proof (ranges_ok s index Hok Hi) as (Hb & Hb2 & Hat).
  unfold run_source, sourceLoop.
  destruct (source_start_fresh (EE := Empty_set) (CE := Empty_set) s (@nil source_event) index Hok Hi)
    as (s1 & -> & E2 & E3).
  destruct (source_loop_trace fuel (start_of s (index + 1)) fresh_marks
    (newBarrierGenerator (st_barrierInterval c) (budget (count s))) s1 []) as [s' E];
    rewrite ?E2, ?E3; [lia|done|lia|].
  exists s'. rewrite E2, E3 in E. exact E.
Qed.

Lemma run_source_resume fuel index pos injected (s : S) :
  settings_ok c (count s) -> 0 <= index < st_parallelism c ->
  start_of s index <= pos <= start_of s (index + 1) ->
  (Z.to_nat (count s) < fuel)%nat ->
  exists s', run_source fuel index (Some (MkResume pos injected)) s =
    Some (Ok tt, (s', resumed_trace s index pos injected)).
Proof.
  intros Hok Hi Hpos Hf. pose proof (ranges_ok s index Hok Hi) as (Hb & Hb2 & Hat).
  unfold run_source, sourceLoop.
  destruct (source_start_resume (EE := Empty_set) (CE := Empty_set) s (@nil source_event) index pos injected Hok Hi Hpos)
    as (s1 & -> & E2 & E3).
  destruct (source_loop_trace fuel (start_of s (index + 1)) fresh_marks
    (MkBarriers (st_barrierInterval c) (budget (count s)) 0 injected) s1 []) as [s' E];
    rewrite ?E2, ?E3; [lia|intros n Hn; apply Hat; lia|lia|].
  exists s'. rewrite E2, E3 in E. exact E.
Qed.

(** A full run cut at one of its barriers: what comes before it, and that the
    rest is what a run from the barrier's position and identifier emits, but for
    the generator of the watermarks, which has seen the records before it. *)
Lemma full_trace_cut index (s : S) T1 b p T2 :
  settings_ok c (count s) -> 0 <= index < st_parallelism c ->
  full_trace s index = T1 ++ SBarrier b p :: T2 ->
  let br := MkBarriers (st_barrierInterval c) (budget (count s)) 0 (CheckpointID b) in
  start_of s index <= p <= start_of s (index + 1) /\
  srecords T1 = src_range (src_at s) (start_of s index) p /\
  T2 = trace (wm_after fresh_marks (srecords T1)) br p (range_from s index p) /\
  resumed_trace s index p (CheckpointID b) = trace fresh_marks br p (range_from s index p).
Proof.
  intros Hc Hi ET br. pose proof (ranges_ok s index Hc Hi) as (Hb & Hb2 & Hat).
  pose proof (f_equal srecords ET) as Er. unfold full_trace in ET, Er.
  rewrite srecords_trace, srecords_app in Er. change (srecords (SBarrier b p :: T2)) with (srecords T2) in Er.
  destruct (trace_at_barrier _ _ _ _ _ _ _ _ ET) as (l1 & l2 & El & Ep & E2).
  rewrite E2, srecords_trace, El in Er. apply app_inv_tail in Er as Er.
  pose proof (length_src_range (src_at s) (start_of s index) (start_of s (index + 1)) ltac:(lia) Hat) as Hlen.
  unfold range_from in *. fold (start_of s (index + 1)) in *. rewrite El, length_app in Hlen.
  assert (start_of s index <= p <= start_of s (index + 1)) as Hp by lia.
  rewrite (src_range_split _ _ p _ Hp) in El.
  pose proof (length_src_range (src_at s) (start_of s index) p ltac:(lia) ltac:(intros n Hn; apply Hat; lia)).
  apply app_inj_1 in El as [El <-]; [|lia]. rewrite <- Er.
  by split_and!; [lia..|symmetry| |].
Qed.

(** Where a full run has a barrier, a run from its position and identifier has
    the records and barriers that followed. *)
Lemma trace_resumes index (s : S) T1 b p T2 :
  settings_ok c (count s) -> 0 <= index < st_parallelism c ->
  full_trace s index = T1 ++ SBarrier b p :: T2 ->
  let T := resumed_trace s index p (CheckpointID b) in
  (start_of s index <= p <= start_of s (index + 1)) /\
  srecords T = srecords T2 /\ sbarriers T = sbarriers T2.
Proof.
  intros Hc Hi ET. destruct (full_trace_cut index s T1 b p T2 Hc Hi ET) as (Hp & _ & -> & ->).
  split; [done|]. split; [by rewrite !srecords_trace|apply sbarriers_trace].
Qed.

(** Both runs send the watermarks of the records they have read, and those of the
    resumed one are never ahead of what all the records so far allow. *)
Lemma resumed_marks index (s : S) T1 b p T2 :
  settings_ok c (count s) -> 0 <= index < st_parallelism c ->
  Forall (fun r => is_i64 (EventTime r)) (src_range (src_at s) 0 (count s)) ->
  full_trace s index = T1 ++ SBarrier b p :: T2 ->
  let T := resumed_trace s index p (CheckpointID b) in
  T = remarked (st_wmInterval c) (st_lag c) [] T2 /\
  T2 = remarked (st_wmInterval c) (st_lag c) (srecords T1) T2 /\
  (forall U1 t U2, T = U1 ++ SMark t :: U2 -> t <= latest (srecords T1 ++ srecords U1) - st_lag c - 1).
Proof.
  intros Hc Hi H64 ET. destruct (full_trace_cut index s T1 b p T2 Hc Hi ET) as (Hp & E1 & E2 & ->).
  pose proof (ranges_ok s index Hc Hi) as (Hb & Hb2 & Hat). pose proof Hc as [HP Hprod Hlag _].
  unfold range_from in *. fold (start_of s (index + 1)) in *. set (stop := start_of s (index + 1)) in *.
  rewrite (src_range_split _ 0 (start_of s index) (count s)) in H64 by lia. apply Forall_app in H64 as [_ H64].
  rewrite (src_range_split _ (start_of s index) stop (count s)) in H64 by lia. apply Forall_app in H64 as [H64 _].
  pose proof (length_src_range (src_at s) (start_of s index) stop ltac:(lia) Hat) as Hn.
  rewrite (src_range_split _ _ p _ Hp), <- E1 in H64, Hn. set (l2 := src_range (src_at s) p stop) in *.
  assert (Z.of_nat (length (srecords T1 ++ l2)) <= max_int64) as Hn64.
  { rewrite Hn. assert (count s <= st_parallelism c * count s) by nia. lia. }
  assert (Forall (fun r => is_i64 (EventTime r)) l2 /\ Z.of_nat (length l2) <= max_int64) as [H64' Hn64'].
  { apply Forall_app in H64 as [_ H64]. rewrite length_app in Hn64. split; [done|lia]. }
  assert (trace fresh_marks (MkBarriers (st_barrierInterval c) (budget (count s)) 0 (CheckpointID b)) p l2 =
    remarked (st_wmInterval c) (st_lag c) [] T2) as ET'.
  { rewrite E2 at 1. by apply trace_remarked; [|apply wm_at_fresh|..]. }
  split_and!; [done| |].
  - rewrite E2.
    apply trace_remarked; [done| |done..].
    apply (wm_at_after _ _ Hlag []); [by apply wm_at_fresh|..].
    + by apply Forall_app in H64 as [? _].
    + rewrite length_app in Hn64. cbn [app]. lia.
  - intros U1 t U2 EU. rewrite ET' in EU. apply remarked_mark in EU as [-> Hlt]. cbn [app] in Hlt |- *.
    pose proof (watermark_of_le (st_wmInterval c) (st_lag c) (srecords U1)).
    pose proof (latest_app_le_r (srecords T1) (srecords U1)). lia.
Qed.

Lemma budget_ok (s : S) :
  settings_ok c (count s) -> 0 <= budget (count s) <= max_int64 /\
  (0 < st_barrierInterval c ->
   budget (count s) = count s / st_parallelism c / st_barrierInterval c).
Proof.
  intros [HP Hprod _ _]. destruct (src_count_ok count s Hcount) as (Hc & _).
  unfold budget, maxBarriers. cbn [negb]. destruct (Z.leb_spec (st_barrierInterval c) 0).
  { split; [unfold_ints; lia|]. intros ?. exfalso. lia. }
  assert (0 <= count s / st_parallelism c) by (apply Z.div_pos; lia).
  assert (count s / st_parallelism c <= count s) by (apply Z.div_le_upper_bound; nia).
  rewrite (Z.quot_div_nonneg (count s)), Z.quot_div_nonneg by lia.
  assert (0 <= count s / st_parallelism c / st_barrierInterval c) by (apply Z.div_pos; lia).
  assert (count s / st_parallelism c / st_barrierInterval c <= count s / st_parallelism c)
    by (apply Z.div_le_upper_bound; nia).
  split; [lia|done].
Qed.
End Runs.

(** A source over a list of records, for the witnesses. *)
Record list_source := ListSource {
  ls_records : list Record_;
  ls_position : Z;
  ls_small : (Z.of_nat (length ls_records) <=? max_int64) = true;
}.

Definition ls_at (s : list_source) (n : Z) : option Record_ :=
  if n <? 0 then None else ls_records s !! Z.to_nat n.

#[export] Instance list_Source : Source list_source Empty_set := {|
  src_next s :=
    (Ok (ls_at s (ls_position s)),
     match ls_at s (ls_position s) with
     | Some _ => ListSource (ls_records s) (ls_position s + 1) (ls_small s)
     | None => s
     end);
  src_seek o s := (Ok tt, ListSource (ls_records s) o (ls_small s));
  src_position := ls_position;
  src_count := Some (fun s => Z.of_nat (length (ls_records s)));
|}.

#[export] Program Instance list_SourceLaws : SourceLaws list_source Empty_set := {|
  src_at := ls_at;
|}.
Next Obligation. intros s. cbn. by destruct (ls_at s (ls_position s)). Qed.
Next Obligation. done. Qed.
Next Obligation.
  intros count s [= <-]. split_and!.
  - lia.
  - apply Z.leb_le, ls_small.
  - intros n. unfold ls_at. destruct (Z.ltb_spec n 0).
    + split; [by intros [? ?]|lia].
    + rewrite lookup_lt_is_Some. lia.
  - intros s' E.
    assert (forall k, ls_records s' !! k = ls_records s !! k) as Hk.
    { intros k. apply (f_equal (fun f => f (Z.of_nat k))) in E. unfold ls_at in E.
      rewrite !(proj2 (Z.ltb_ge _ _)), !Nat2Z.id in E by lia. done. }
    by rewrite (list_eq _ _ Hk).
Qed.

(** * The properties *)

(** C22. The ranges of a source vertex partition its offsets: they start at
    zero, each ends where the next starts, the last ends at the count, and none
    is negative or more than one record longer than another. *)
Theorem source_ranges_partition count P i :
  0 <= count -> 0 < P -> 0 <= i < P -> P * count <= max_int64 ->
  let '(start, end_) := sourceRange count P i in
  (i = 0 -> start = 0) /\ (i = P - 1 -> end_ = count) /\
  (i < P - 1 -> (sourceRange count P (i + 1)).1 = end_) /\
  0 <= start <= end_ /\ end_ <= count /\
  count / P <= end_ - start <= count / P + 1.
Proof.
  intros Hc HP Hi Hb. rewrite sourceRange_exact by done.
  pose proof (range_bounds count P i Hc HP Hi) as (? & ? & ?).
  split_and!; try lia.
  - intros ->. by rewrite Z.mul_0_l, Z.div_0_l by lia.
  - intros ->. replace (P - 1 + 1) with P by lia. rewrite Z.mul_comm, Z.div_mul; lia.
  - intros Hi'. by rewrite sourceRange_exact by lia.
Qed.

Lemma source_ranges_partition_witness :
  let '(start, end_) := sourceRange 10 4 1 in
  (1 = 0 -> start = 0) /\ (1 = 4 - 1 -> end_ = 10) /\
  (1 < 4 - 1 -> (sourceRange 10 4 (1 + 1)).1 = end_) /\
  0 <= start <= end_ /\ end_ <= 10 /\
  10 / 4 <= end_ - start <= 10 / 4 + 1.
Proof. apply (source_ranges_partition 10 4 1); unfold_ints; lia. Defined.

(** C23. Every subtask injects the same barriers: reading a split source from
    scratch ends without an error, hands on exactly the records of its range, in
    order, and injects one barrier after every interval of its own records, the
    [k]-th with identifier [k] and the position [k] intervals into the range,
    up to a number that is the same for all subtasks of the vertex. *)
Theorem source_injects_budget {S SE} `{SourceLaws S SE} (c : settings) count fuel index (s : S) :
  src_count = Some count -> settings_ok c (count s) -> 0 < st_barrierInterval c ->
  0 <= index < st_parallelism c -> (Z.to_nat (count s) < fuel)%nat ->
  let start := range_start (count s) (st_parallelism c) index in
  exists s' T, run_source c fuel index None s = Some (Ok tt, (s', T)) /\
    srecords T = range_from c count s index start /\
    sbarriers T = (fun k => (k, start + k * st_barrierInterval c))
      <$> seqZ 1 (count s / st_parallelism c / st_barrierInterval c).
Proof.
  intros Hcount Hc Hbi Hi Hf start.
  destruct (run_source_trace c count Hcount fuel index s Hc Hi Hf) as [s' E].
  destruct (budget_ok c count Hcount s Hc) as [Hbo Hbe].
  unfold full_trace, start_of in E. eexists s', _. split; [exact E|]. split; [apply srecords_trace|].
  destruct (src_count_ok count s Hcount) as (Hcn & Hat & _). pose proof Hc as [HP _ _ Hint].
  pose proof (range_bounds (count s) (st_parallelism c) index ltac:(lia) HP Hi) as (Hb1 & Hb2 & Hb3).
  rewrite sbarriers_due by (split; cbn [newBarrierGenerator br_maxBarriers br_injected br_sinceLast
    br_intervalElements]; lia).
  unfold range_from. rewrite length_src_range; fold start; unfold start, range_start in *;
    [|lia|intros n Hn; apply Hat; lia].
  unfold due_barriers. cbn [newBarrierGenerator br_maxBarriers br_injected br_sinceLast br_intervalElements].
  rewrite (Hbe Hbi), !Z.sub_0_r, Z.add_0_l.
  rewrite Z.min_l by (apply Z.div_le_mono; lia).
  done.
Qed.

(** C13. Resuming is continuing: if a full run of a subtask injected a barrier
    with some identifier and position, then a run resumed from that identifier
    and position, on the same data and from wherever the source then stands,
    ends without an error and emits what the full run emitted after the barrier,
    watermarks apart: the same records and, between them, the same barriers with
    the same positions. The watermarks, event times being 64-bit integers, and the
    timestamps the barriers take from them are recomputed from the records read since the barrier: after each
    record at which the watermark of those records rises, where the full run's
    are of all its records; so they may be behind the full run's, and they are
    never ahead of what the records up to there allow, that is the greatest event
    time, before or after the barrier, less the lag and one. *)
Theorem source_resume_continues {S SE} `{SourceLaws S SE} (c : settings) count fuel index (s s0 : S)
    s' T1 b p T2 :
  src_count = Some count -> settings_ok c (count s) -> src_at s0 = src_at s ->
  0 <= index < st_parallelism c -> (Z.to_nat (count s) < fuel)%nat ->
  run_source c fuel index None s = Some (Ok tt, (s', T1 ++ SBarrier b p :: T2)) ->
  exists s0' T, run_source c fuel index (Some (MkResume p (CheckpointID b))) s0 =
      Some (Ok tt, (s0', T)) /\
    unmarked T = unmarked T2 /\ srecords T = srecords T2 /\ sbarriers T = sbarriers T2 /\
    (Forall (fun r => is_i64 (EventTime r)) (src_range (src_at s) 0 (count s)) ->
      T = remarked (st_wmInterval c) (st_lag c) [] T2 /\
      T2 = remarked (st_wmInterval c) (st_lag c) (srecords T1) T2 /\
      (forall U1 t U2, T = U1 ++ SMark t :: U2 ->
        t <= latest (srecords T1 ++ srecords U1) - st_lag c - 1)).
Proof.
  intros Hcount Hc Es Hi Hf Hrun.
  destruct (run_source_trace c count Hcount fuel index s Hc Hi Hf) as [s1 E].
  rewrite E in Hrun. injection Hrun as _ ET.
  destruct (trace_resumes c count Hcount index s _ _ _ _ Hc Hi ET) as (Hp & Hr & Hb).
  destruct (full_trace_cut c count Hcount index s _ _ _ _ Hc Hi ET) as (_ & _ & E2 & Eu).
  destruct (src_count_ok count s Hcount) as (_ & _ & Hsame).
  assert (count s0 = count s) as Ec by (by apply Hsame).
  destruct (run_source_resume c count Hcount fuel index p (CheckpointID b) s0) as [s0' E0];
    [by rewrite Ec|done|by unfold start_of; rewrite Ec|by rewrite Ec|].
  exists s0', (resumed_trace c count s index p (CheckpointID b)). split_and!; [|..|done|done|].
  - unfold resumed_trace, range_from, start_of in *. by rewrite Ec, Es in E0.
  - rewrite Eu, E2 at 1. apply unmarked_trace.
  - intros H64. by apply resumed_marks.
Qed.

Lemma run_source_timely {S SE} `{SourceLaws S SE} (c : settings) count fuel index (s : S) :
  src_count = Some count -> settings_ok c (count s) ->
  0 <= index < st_parallelism c -> (Z.to_nat (count s) < fuel)%nat ->
  disordered (st_lag c) (src_range (src_at s) 0 (count s)) ->
  Forall (fun r => is_i64 (EventTime r)) (src_range (src_at s) 0 (count s)) ->
  exists s' T, run_source c fuel index None s = Some (Ok tt, (s', T)) /\
    srecords T = range_from c count s index (range_start (count s) (st_parallelism c) index) /\
    timely (event_elem <$> T) /\ StronglySorted Z.lt (marks (event_elem <$> T)).
Proof.
  intros Hcount Hc Hi Hf Hd H64.
  destruct (run_source_trace c count Hcount fuel index s Hc Hi Hf) as [s' E].
  unfold full_trace, start_of in E. eexists s', _. split; [exact E|]. split; [apply srecords_trace|].
  destruct (src_count_ok count s Hcount) as (Hcn & Hat & _). pose proof Hc as [HP _ Hlag _].
  pose proof (range_bounds (count s) (st_parallelism c) index ltac:(lia) HP Hi) as (Hb1 & Hb2 & _).
  unfold range_from. set (start := range_start (count s) (st_parallelism c) index) in *.
  set (stop := range_start (count s) (st_parallelism c) (index + 1)) in *.
  assert (0 <= start <= stop /\ stop <= count s) as Hss by (unfold start, stop, range_start; lia).
  rewrite (src_range_split _ 0 start (count s)), (src_range_split _ start stop (count s)) in Hd, H64 by lia.
  apply Forall_app in H64 as [_ [H64 _]%Forall_app].
  edestruct trace_timely as (Ht & Hs & _); [| | |split; [exact Ht|exact Hs]].
  - split; cbn; [lia|unfold_ints; lia|lia].
  - cbn. intros l1 r l2 El r' Hr'.
    apply (Hd (src_range (src_at s) 0 start ++ l1) r (l2 ++ src_range (src_at s) stop (count s))).
    + by rewrite El, <- !app_assoc.
    + set_solver.
  - intros r Hr. pose proof (proj1 (Forall_forall _ _) H64 r Hr) as H1. split; [done|].
    cbn. revert H1. unfold_ints. lia.
Qed.

(** C17. Source watermarks are safe: a split source whose records are never more
    than the configured lag behind an earlier one sends, from each subtask, a
    stream in which no record is at or below a watermark that precedes it, and
    whose watermarks rise strictly. *)
Theorem source_watermarks_safe {S SE} `{SourceLaws S SE} (c : settings) count fuel index (s : S) :
  src_count = Some count -> settings_ok c (count s) ->
  0 <= index < st_parallelism c -> (Z.to_nat (count s) < fuel)%nat ->
  disordered (st_lag c) (src_range (src_at s) 0 (count s)) ->
  Forall (fun r => is_i64 (EventTime r)) (src_range (src_at s) 0 (count s)) ->
  exists s' T, run_source c fuel index None s = Some (Ok tt, (s', T)) /\
    timely (event_elem <$> T) /\ StronglySorted Z.lt (marks (event_elem <$> T)).
Proof.
  intros. edestruct run_source_timely as (s' & T & E & _ & Ht & Hs); [done..|].
  by exists s', T.
Qed.

Definition sample_source : list_source :=
  ListSource [NewRecord (str "a") [] 5; NewRecord (str "b") [] 4; NewRecord (str "c") [] 9;
    NewRecord (str "d") [] 8; NewRecord (str "e") [] 12] 0 eq_refl.
Definition sample_settings : settings := MkSettings 2 1 3 1.

Lemma sample_settings_ok : settings_ok sample_settings 5.
Proof. split; cbn; unfold_ints; lia. Qed.

Lemma source_injects_budget_witness :
  exists s' T, run_source sample_settings 10 1 None sample_source = Some (Ok tt, (s', T)) /\
    srecords T = range_from sample_settings (fun s => Z.of_nat (length (ls_records s))) sample_source 1 2 /\
    sbarriers T = (fun k => (k, 2 + k * 1)) <$> seqZ 1 (5 / 2 / 1).
Proof.
  apply (source_injects_budget sample_settings (fun s => Z.of_nat (length (ls_records s))) 10 1 sample_source);
    [reflexivity|apply sample_settings_ok|cbn; lia..].
Defined.

Lemma source_resume_continues_witness :
  let T1 := [SRec (NewRecord (str "c") [] 9); SMark 5] in
  let T2 := [SRec (NewRecord (str "d") [] 8); SBarrier (NewBarrier 2 5) 4; SRec (NewRecord (str "e") [] 12); SMark 8] in
  exists s0' T, run_source sample_settings 10 1 (Some (MkResume 3 1)) sample_source =
      Some (Ok tt, (s0', T)) /\
    unmarked T = [inl (NewRecord (str "d") [] 8); inr (2, 4); inl (NewRecord (str "e") [] 12)] /\
    srecords T = [NewRecord (str "d") [] 8; NewRecord (str "e") [] 12] /\
    sbarriers T = [(2, 4)] /\
    T = [SRec (NewRecord (str "d") [] 8); SMark 4; SBarrier (NewBarrier 2 4) 4;
         SRec (NewRecord (str "e") [] 12); SMark 8] /\
    T2 = remarked 1 3 (srecords T1) T2 /\
    (forall U1 t U2, T = U1 ++ SMark t :: U2 -> t <= latest (srecords T1 ++ srecords U1) - 3 - 1).
Proof.
  cbn zeta.
  edestruct (source_resume_continues sample_settings (fun s => Z.of_nat (length (ls_records s))) 10 1
    sample_source sample_source (ListSource (ls_records sample_source) 5 eq_refl) [SRec (NewRecord (str "c") [] 9); SMark 5] (NewBarrier 1 5) 3
    [SRec (NewRecord (str "d") [] 8); SBarrier (NewBarrier 2 5) 4; SRec (NewRecord (str "e") [] 12); SMark 8])
    as (s0' & T & E & Hu & Hr & Hb & Hm);
    [reflexivity|apply sample_settings_ok|reflexivity|cbn; lia|cbn; lia|vm_compute; reflexivity|].
  exists s0', T. split; [exact E|]. split; [exact Hu|]. split; [exact Hr|]. split; [exact Hb|].
  destruct Hm as (Hm & Hm2 & Hm3).
  { change (src_range _ 0 _) with (ls_records sample_source). repeat constructor; unfold_ints; cbn; lia. }
  split; [exact Hm|]. split; [exact Hm2|exact Hm3].
Defined.

Lemma source_watermarks_safe_witness :
  exists s' T, run_source sample_settings 10 0 None sample_source = Some (Ok tt, (s', T)) /\
    timely (event_elem <$> T) /\ StronglySorted Z.lt (marks (event_elem <$> T)).
Proof.
  apply (source_watermarks_safe sample_settings (fun s => Z.of_nat (length (ls_records s))) 10 0 sample_source);
    [reflexivity|apply sample_settings_ok|cbn; lia|cbn; lia| |].
  - change (src_range _ 0 _) with (ls_records sample_source). apply disorderedb_sound. reflexivity.
  - change (src_range _ 0 _) with (ls_records sample_source).
    repeat constructor; unfold_ints; cbn; lia.
Defined.
