(* ===== verification/Generator.v ===== *)
(** The deterministic generator ([pkg/sources/generator.go]): splitmix64, the
    fields of element [n] as functions of the seed and [n] alone, the source over
    them, and the proof that it keeps the contract of [core.Source]. *)
From S2P Require Import Prelude Core Streams SourceTask SourceTaskSpec.

(** * The mixer *)

(** Go's [+] and [*] at [uint64]. *)
Definition add_u64 (a b : Z) : Z := u64 (a + b).
Definition mul_u64 (a b : Z) : Z := u64 (a * b).

Definition mix (seed n : Z) : Z :=
  let z := add_u64 seed (mul_u64 (add_u64 n 1) 0x9E3779B97F4A7C15) in
  let z := mul_u64 (Z.lxor z (Z.shiftr z 30)) 0xBF58476D1CE4E5B9 in
  let z := mul_u64 (Z.lxor z (Z.shiftr z 27)) 0x94D049BB133111EB in
  Z.lxor z (Z.shiftr z 31).

(** The published first outputs of splitmix64 seeded with 0 and 1234567. *)
Example mix_0_0 : mix 0 0 = 0xE220A8397B1DCDAF.
Proof. reflexivity. Qed.
Example mix_1234567_0 : mix 1234567 0 = 6457827717110365317.
Proof. reflexivity. Qed.
Example mix_1234567_1 : mix 1234567 1 = 3203168211198807973.
Proof. reflexivity. Qed.

(** * The generator *)

(** [MaxLag], the cardinality and the range bound draws; the rest is what it
    says. The fields are [int64], the seed a [uint64] and the size an [int]. *)
Record GeneratorConfig := MkGeneratorConfig {
  Seed : Z;
  Count : Z;
  KeyCardinality : Z;
  BaseEventTime : Z;
  EventTimeStep : Z;
  MaxLag : Z;
  ValueSize : Z;
  AmountRange : Z;
}.

Definition keySalt : Z := 1.
Definition valueSalt : Z := 2.
Definition timeSalt : Z := 3.
Definition amountSalt : Z := 4.

Record Generator := MkGenerator {
  cfg : GeneratorConfig;
  pos : Z;
}.

Definition NewGenerator (c : GeneratorConfig) : Generator := MkGenerator c 0.

Inductive generator_error :=
| errCount (n : Z)
| errKeyCardinality (n : Z)
| errMaxLag (n : Z)
| errValueSize (n : Z)
| errAmountRange (n : Z)
| errNegativeOffset (offset : Z).

Definition Open (g : Generator) : result generator_error unit :=
  let c := cfg g in
  if Count c <=? 0 then Err (errCount (Count c))
  else if KeyCardinality c <=? 0 then Err (errKeyCardinality (KeyCardinality c))
  else if MaxLag c <? 0 then Err (errMaxLag (MaxLag c))
  else if ValueSize c <? 8 then Err (errValueSize (ValueSize c))
  else if AmountRange c <? 1 then Err (errAmountRange (AmountRange c))
  else Ok tt.

(** The fields of element [n]. A range of 0 is a division by zero in the source;
    [Open] has refused it. *)
Definition keyOf (c : GeneratorConfig) (n : Z) : bytes :=
  put_uint64 (mix (Z.lxor (Seed c) keySalt) (u64 n) mod u64 (KeyCardinality c)).

Definition amountOf (c : GeneratorConfig) (n : Z) : Z :=
  mix (Z.lxor (Seed c) amountSalt) (u64 n) mod u64 (AmountRange c).

(** The loop that fills the value from its ninth byte: the [j]-th group of eight
    bytes, cut to the [n] that are left. *)
Fixpoint padding (fuel n : nat) (base j : Z) : bytes :=
  match fuel with
  | O => []
  | S fuel =>
      if (n =? 0)%nat then []
      else take n (put_uint64 (mix base (u64 j))) ++ padding fuel (n - 8) base (j + 1)
  end.

Definition valueOf (c : GeneratorConfig) (n : Z) : bytes :=
  let rest := Z.to_nat (ValueSize c - 8) in
  put_uint64 (amountOf c n) ++ padding rest rest (mix (Z.lxor (Seed c) valueSalt) (u64 n)) 1.

Definition timeOf (c : GeneratorConfig) (n : Z) : Z :=
  let lag := i64 (mix (Z.lxor (Seed c) timeSalt) (u64 n) mod u64 (add64 (MaxLag c) 1)) in
  sub64 (add64 (BaseEventTime c) (mul64 n (EventTimeStep c))) lag.

Definition element (c : GeneratorConfig) (n : Z) : Record_ :=
  NewRecord (keyOf c n) (valueOf c n) (timeOf c n).

Definition Next (g : Generator) : result generator_error (option Record_) * Generator :=
  if Count (cfg g) <=? pos g then (Ok None, g)
  else
    let n := pos g in
    (Ok (Some (element (cfg g) n)), MkGenerator (cfg g) (add64 (pos g) 1)).

Definition SeekTo (offset : Z) (g : Generator) : result generator_error unit * Generator :=
  if offset <? 0 then (Err (errNegativeOffset offset), g)
  else (Ok tt, MkGenerator (cfg g) offset).

Definition Position (g : Generator) : Z := pos g.

(** * The contract of a source *)

(** A generator the runtime has opened, at an offset it can be sought to. *)
Record usable (g : Generator) : Prop := {
  us_open : Open g = Ok tt;
  us_count : Count (cfg g) <= max_int64;
  us_pos : 0 <= pos g;
}.

Record opened := Opened {
  generator : Generator;
  generator_usable : usable generator;
}.

Lemma Next_usable g : usable g -> usable (Next g).2.
Proof.
  intros [Ho Hc Hp]. unfold Next. destruct (Z.leb_spec (Count (cfg g)) (pos g)); [by split|].
  split; cbn; [exact Ho|exact Hc|]. rewrite add64_id; [lia|unfold_ints; lia].
Qed.

Lemma SeekTo_usable o g : usable g -> usable (SeekTo o g).2.
Proof.
  intros [Ho Hc Hp]. unfold SeekTo. destruct (Z.ltb_spec o 0); [by split|].
  by split; [exact Ho|exact Hc|].
Qed.

#[export] Instance Generator_Source : Source opened generator_error := {|
  src_next o := ((Next (generator o)).1, Opened _ (Next_usable _ (generator_usable o)));
  src_seek offset o := ((SeekTo offset (generator o)).1, Opened _ (SeekTo_usable offset _ (generator_usable o)));
  src_position o := Position (generator o);
  src_count := Some (fun o => Count (cfg (generator o)));
|}.

(** What there is at offset [n]. *)
Definition element_at (c : GeneratorConfig) (n : Z) : option Record_ :=
  if (0 <=? n) && (n <? Count c) then Some (element c n) else None.

Lemma element_at_Some c n : is_Some (element_at c n) <-> 0 <= n < Count c.
Proof.
  unfold element_at. destruct (Z.leb_spec 0 n), (Z.ltb_spec n (Count c)); cbn; rewrite is_Some_alt; lia || (split; [lia|done]).
Qed.

Lemma Open_ok c :
  Open (NewGenerator c) = Ok tt <->
  0 < Count c /\ 0 < KeyCardinality c /\ 0 <= MaxLag c /\ 8 <= ValueSize c /\ 1 <= AmountRange c.
Proof.
  unfold Open. cbn [cfg NewGenerator].
  destruct (Z.leb_spec (Count c) 0); [split; [done|lia]|].
  destruct (Z.leb_spec (KeyCardinality c) 0); [split; [done|lia]|].
  destruct (Z.ltb_spec (MaxLag c) 0); [split; [done|lia]|].
  destruct (Z.ltb_spec (ValueSize c) 8); [split; [done|lia]|].
  destruct (Z.ltb_spec (AmountRange c) 1); [split; [done|lia]|]. split; [lia|done].
Qed.

Lemma usable_iff g : usable g ->
  0 < Count (cfg g) <= max_int64 /\ 0 < KeyCardinality (cfg g) /\ 0 <= MaxLag (cfg g) /\
  8 <= ValueSize (cfg g) /\ 1 <= AmountRange (cfg g) /\ 0 <= pos g.
Proof.
  intros [Ho Hc Hp]. change (Open g) with (Open (NewGenerator (cfg g))) in Ho. apply Open_ok in Ho. lia.
Qed.

#[export] Program Instance Generator_SourceLaws : SourceLaws opened generator_error := {|
  src_at o := element_at (cfg (generator o));
|}.
Next Obligation.
  intros [g Hu]. cbn. pose proof (usable_iff g Hu) as (Hc & _ & _ & _ & _ & Hp).
  unfold Next, Position, element_at.
  destruct (Z.leb_spec (Count (cfg g)) (pos g)) as [Hle|Hlt]; cbn.
  - by rewrite (proj2 (Z.ltb_ge _ _)), andb_false_r by lia.
  - rewrite (proj2 (Z.leb_le _ _)), (proj2 (Z.ltb_lt _ _)) by lia. cbn. split_and!; [done..|].
    apply add64_id. unfold_ints. lia.
Qed.
Next Obligation.
  intros [g Hu] o Ho. cbn. unfold SeekTo. by rewrite (proj2 (Z.ltb_ge o 0)) by lia.
Qed.
Next Obligation.
  intros count [g Hu] [= <-]. cbn. pose proof (usable_iff g Hu) as (Hc & _).
  split_and!; [lia|lia|apply element_at_Some|].
  intros [g' Hu'] E. cbn in *. pose proof (usable_iff g' Hu') as (Hc' & _).
  assert (forall n, 0 <= n < Count (cfg g') <-> 0 <= n < Count (cfg g)) as Hn.
  { intros n. by rewrite <- !element_at_Some, E. }
  pose proof (Hn (Count (cfg g) - 1)). pose proof (Hn (Count (cfg g') - 1)). lia.
Qed.

(** * Facts about the fields *)

Lemma lxor_u64 a b : is_u64 a -> is_u64 b -> is_u64 (Z.lxor a b).
Proof.
  intros Ha Hb. assert (0 <= Z.lxor a b) as H0 by (apply Z.lxor_nonneg; unfold is_u64 in *; lia).
  split; [done|]. destruct (Z.eq_dec (Z.lxor a b) 0) as [->|Hne]; [lia|].
  apply Z.log2_lt_pow2; [lia|]. eapply Z.le_lt_trans; [by apply Z.log2_lxor; unfold is_u64 in *; lia|].
  assert (forall x, is_u64 x -> Z.log2 x < 64) as Hl.
  { intros x [Hx1 Hx2]. destruct (Z.eq_dec x 0) as [->|]; [done|]. apply Z.log2_lt_pow2; lia. }
  apply Z.max_lub_lt; by apply Hl.
Qed.

Lemma shiftr_u64 a k : 0 <= k -> is_u64 a -> is_u64 (Z.shiftr a k).
Proof.
  intros Hk [Ha1 Ha2]. rewrite Z.shiftr_div_pow2 by done. unfold is_u64.
  pose proof (Z.pow_pos_nonneg 2 k ltac:(lia) Hk). split; [apply Z.div_pos; lia|].
  apply Z.div_lt_upper_bound; nia.
Qed.

Lemma mix_range seed n : is_u64 (mix seed n).
Proof. apply lxor_u64; [|apply shiftr_u64; [done|]]; apply u64_range. Qed.

Lemma length_padding fuel n base j : (n <= fuel)%nat -> length (padding fuel n base j) = n.
Proof.
  revert n j. induction fuel as [|fuel IH]; intros n j Hn; cbn [padding]; [cbn; lia|].
  destruct (Nat.eqb_spec n 0) as [->|]; [done|].
  rewrite length_app, length_take, length_put_uint64, IH by lia. lia.
Qed.

(** A shorter padding is the beginning of a longer one. *)
Lemma padding_take fuel fuel' n n' base j :
  (n <= n')%nat -> (n <= fuel)%nat -> (n' <= fuel')%nat ->
  padding fuel n base j = take n (padding fuel' n' base j).
Proof.
  revert fuel' n n' j. induction fuel as [|fuel IH]; intros fuel' n n' j Hn Hf Hf'.
  { assert (n = 0%nat) as -> by lia. done. }
  cbn [padding]. destruct (Nat.eqb_spec n 0) as [->|]; [done|].
  destruct fuel' as [|fuel']; [lia|]. cbn [padding]. destruct (Nat.eqb_spec n' 0); [lia|].
  rewrite take_app, take_take, length_take, length_put_uint64. f_equal; [f_equal; lia|].
  rewrite (IH fuel' (n - 8)%nat (n' - 8)%nat) by lia.
  destruct (decide (n <= 8)%nat); [|f_equal; lia].
  replace (n - 8)%nat with 0%nat by lia. destruct (decide (n' <= 8)%nat).
  - replace (n' - 8)%nat with 0%nat by lia. destruct fuel'; cbn; by rewrite ?take_nil.
  - by replace (n - n' `min` 8)%nat with 0%nat by lia.
Qed.

Lemma amountOf_range c n : 1 <= AmountRange c <= max_int64 -> 0 <= amountOf c n < AmountRange c.
Proof.
  intros Hr. unfold amountOf. rewrite (u64_id (AmountRange c)) by (unfold_ints; lia). apply Z.mod_pos_bound. lia.
Qed.

(** The value a seed and an offset decide, for any size. *)
Definition with_size (c : GeneratorConfig) (size : Z) : GeneratorConfig :=
  MkGeneratorConfig (Seed c) (Count c) (KeyCardinality c) (BaseEventTime c) (EventTimeStep c) (MaxLag c)
    size (AmountRange c).

(** The documented value layout: a record's value has the configured size,
    its first eight bytes are an amount below the range, and the size decides
    only how much of it there is: at another size the same offset has the same
    key, time and amount, and the shorter value begins the longer one. *)
Theorem generator_value_layout g size n :
  usable g -> is_i64 (AmountRange (cfg g)) -> 8 <= size <= ValueSize (cfg g) ->
  let e := element (cfg g) n in
  let e' := element (with_size (cfg g) size) n in
  Z.of_nat (length (Value e)) = ValueSize (cfg g) /\
  uint64 (Value e) = amountOf (cfg g) n /\ 0 <= amountOf (cfg g) n < AmountRange (cfg g) /\
  Key e' = Key e /\ EventTime e' = EventTime e /\
  Value e' = take (Z.to_nat size) (Value e).
Proof.
  intros Hu Hi Hs e e'. pose proof (usable_iff g Hu) as (_ & _ & _ & Hv & Ha & _).
  assert (0 <= amountOf (cfg g) n < AmountRange (cfg g)) as Hr by (apply amountOf_range; unfold_ints; lia).
  subst e e'. cbn [element Value Key EventTime]. unfold valueOf.
  split; [|split; [|split; [exact Hr|split; [done|split; [done|]]]]].
  - rewrite length_app, length_put_uint64, length_padding by lia. lia.
  - rewrite uint64_put, u64_id; [done|]. unfold_ints. lia.
  - change (amountOf (with_size (cfg g) size) n) with (amountOf (cfg g) n).
    cbn [with_size ValueSize Seed]. cbv zeta. rewrite take_app, length_put_uint64.
    rewrite take_ge by (rewrite length_put_uint64; lia). f_equal.
    rewrite (padding_take _ (Z.to_nat (ValueSize (cfg g) - 8)) _ (Z.to_nat (ValueSize (cfg g) - 8))) by lia.
    f_equal. lia.
Qed.

(** Event times that stay in range: the in-order times rise and none of them, nor
    the earliest lag, leaves [int64]. *)
Record times_fit (base step lag count : Z) : Prop := {
  tf_step : 0 <= step;
  tf_first : min_int64 <= base - lag;
  tf_last : base + count * step <= max_int64;
  tf_span : count * step <= max_int64;
  tf_lag : 0 <= lag <= max_int64;
}.

(** An in-order time pulled back by a draw [x] reduced to at most [lag]. *)
Lemma lagged_bounds base step lag count x n :
  times_fit base step lag count -> 0 <= n < count ->
  let t := sub64 (add64 base (mul64 n step)) (i64 (x mod u64 (add64 lag 1))) in
  base + n * step - lag <= t <= base + n * step /\ is_i64 t.
Proof.
  intros [H1 H2 H3 H4 H5] Hn.
  assert (u64 (add64 lag 1) = lag + 1) as ->.
  { unfold add64. rewrite u64_i64. apply u64_id. unfold_ints. lia. }
  pose proof (Z.mod_pos_bound x (lag + 1) ltac:(lia)) as Hm. set (d := x mod _) in *. clearbody d.
  assert (0 <= n * step <= count * step) as Hns by nia.
  unfold mul64. set (t := n * step) in *. clearbody t.
  rewrite (i64_id d), (i64_id t) by (unfold_ints; lia).
  rewrite add64_id by (unfold_ints; lia). rewrite sub64_id by (unfold_ints; lia).
  split; [lia|unfold_ints; lia].
Qed.

(** Elements whose times are such never are more than the lag out of order. *)
Lemma lagged_disordered base step lag count (at_ : Z -> Record_) :
  times_fit base step lag count ->
  (forall n, 0 <= n < count -> base + n * step - lag <= EventTime (at_ n) <= base + n * step) ->
  disordered lag (at_ <$> seqZ 0 count).
Proof.
  intros Ht Hat. assert (forall k r, (at_ <$> seqZ 0 count) !! k = Some r ->
    Z.of_nat k < count /\ r = at_ (Z.of_nat k)) as Hk.
  { intros k r. rewrite list_lookup_fmap. intros (i & E & ->)%fmap_Some. apply lookup_seqZ in E as [-> ?].
    split; [lia|f_equal; lia]. }
  intros l1 r l2 E r' (i & Hi)%list_elem_of_lookup_1. pose proof (lookup_lt_Some _ _ _ Hi).
  destruct (Hk (length l1) r) as [Hr ->]; [by rewrite E, lookup_app_r, Nat.sub_diag|].
  destruct (Hk i r') as [Hr' ->]; [by rewrite E, lookup_app_l|].
  pose proof (Hat (Z.of_nat (length l1)) ltac:(lia)). pose proof (Hat (Z.of_nat i) ltac:(lia)).
  pose proof (tf_step _ _ _ _ Ht). nia.
Qed.

Lemma elements_range c a b :
  0 <= a -> b <= Count c -> src_range (element_at c) a b = element c <$> seqZ a (b - a).
Proof.
  intros Ha Hb. unfold src_range.
  assert (forall x, x ∈ seqZ a (b - a) -> element_at c x = Some (element c x)) as Hx.
  { intros x [? ?]%elem_of_seqZ. unfold element_at. by rewrite (proj2 (Z.leb_le _ _)), (proj2 (Z.ltb_lt _ _)) by lia. }
  revert Hx. generalize (seqZ a (b - a)). induction l as [|x l IH]; intros Hx; [done|].
  cbn. rewrite (Hx x) by by left. cbn. f_equal. apply IH. intros y Hy. apply Hx. by right.
Qed.

Definition config_times_fit (c : GeneratorConfig) : Prop :=
  times_fit (BaseEventTime c) (EventTimeStep c) (MaxLag c) (Count c).

(** The out-of-orderness is bounded by [MaxLag]. *)
Lemma generator_disordered c :
  config_times_fit c -> 0 <= Count c ->
  disordered (MaxLag c) (src_range (element_at c) 0 (Count c)) /\
  Forall (fun r => is_i64 (EventTime r)) (src_range (element_at c) 0 (Count c)).
Proof.
  intros Ht Hc. rewrite elements_range, Z.sub_0_r by lia. split.
  - apply (lagged_disordered _ _ _ _ _ Ht). intros n Hn. by apply (lagged_bounds _ _ _ (Count c)).
  - apply Forall_fmap, Forall_forall. intros n [? ?]%elem_of_seqZ.
    apply (lagged_bounds _ _ _ (Count c)); [done|lia].
Qed.

(** * Seeking and running *)

(** Calling [Next] up to [n] times, until it reports the end. *)
Fixpoint read (n : nat) (g : Generator) : list Record_ :=
  match n with
  | O => []
  | S n =>
      match Next g with
      | (Ok (Some r), g) => r :: read n g
      | _ => []
      end
  end.

Lemma read_spec n g :
  usable g -> read n g = element (cfg g) <$> seqZ (pos g) (Z.min (Z.of_nat n) (Count (cfg g) - pos g)).
Proof.
  revert g. induction n as [|n IH]; intros g Hu; cbn [read].
  { by rewrite (seqZ_nil _ (Z.min _ _)) by lia. }
  pose proof (Next_usable g Hu) as Hu'. pose proof (usable_iff g Hu) as (Hc & _ & _ & _ & _ & Hp).
  unfold Next in *. destruct (Z.leb_spec (Count (cfg g)) (pos g)).
  { by rewrite seqZ_nil by lia. }
  cbn [snd] in Hu'. rewrite IH by done. cbn [cfg pos]. rewrite add64_id by (unfold_ints; lia).
  rewrite (seqZ_cons (pos g)) by lia. cbn [fmap list_fmap]. do 3 f_equal; lia.
Qed.

(** Seeking replays: whatever a generator has produced before, what it
    produces after a seek to an offset is what a fresh one of its configuration
    produces from that offset on, element by element. *)
Theorem generator_seek_replays g k m :
  usable g -> 0 <= k ->
  (SeekTo k g).1 = Ok tt /\
  read m (SeekTo k g).2 = drop (Z.to_nat k) (read (Z.to_nat k + m) (NewGenerator (cfg g))) /\
  Position (SeekTo k g).2 = k.
Proof.
  intros Hu Hk. pose proof (SeekTo_usable k g Hu) as Hu'. pose proof (usable_iff g Hu) as (Hc & _).
  assert (usable (NewGenerator (cfg g))) as H0 by (destruct Hu; by split).
  rewrite !read_spec by done. revert Hu'. unfold SeekTo. rewrite (proj2 (Z.ltb_ge k 0)) by lia.
  intros _. cbn [fst snd cfg pos NewGenerator Position]. split; [done|split; [|done]].
  rewrite <- fmap_drop. f_equal. apply list_eq. intros i. rewrite lookup_drop.
  apply option_eq. intros x. rewrite !lookup_seqZ. lia.
Qed.

(** C24. A job over a generator has no late data: a source vertex whose
    [MaxOutOfOrderness] is the generator's [MaxLag], split over any number of
    subtasks, sends from each of them the elements of its range, in order, with
    watermarks that rise strictly and that no later record is at or below. *)
Theorem generator_never_late (c : settings) fuel index (o : opened) :
  let gc := cfg (generator o) in
  config_times_fit gc -> settings_ok c (Count gc) -> st_lag c = MaxLag gc ->
  0 <= index < st_parallelism c -> (Z.to_nat (Count gc) < fuel)%nat ->
  let start := range_start (Count gc) (st_parallelism c) index in
  let stop := range_start (Count gc) (st_parallelism c) (index + 1) in
  exists o' T, run_source c fuel index None o = Some (Ok tt, (o', T)) /\
    srecords T = element gc <$> seqZ start (stop - start) /\
    timely (event_elem <$> T) /\ StronglySorted Z.lt (marks (event_elem <$> T)).
Proof.
  intros gc Ht Hc Hlag Hi Hf start stop.
  pose proof (usable_iff _ (generator_usable o)) as (Hcount & _).
  destruct (generator_disordered gc Ht ltac:(unfold gc; lia)) as [Hd H64].
  destruct (run_source_timely c (fun o => Count (cfg (generator o))) fuel index o) as (o' & T & E & Er & Hs);
    [reflexivity|exact Hc|exact Hi|exact Hf|by rewrite Hlag|exact H64|].
  exists o', T. split; [exact E|]. split; [|exact Hs]. rewrite Er. unfold range_from.
  pose proof (range_bounds (Count gc) (st_parallelism c) index ltac:(unfold gc; lia) (so_parallelism _ _ Hc) Hi) as (Hb1 & Hb2 & _).
  cbv beta. fold gc. fold start stop. apply elements_range; unfold start, stop, range_start; lia.
Qed.

(** ** A concrete generator *)

Definition sample_config : GeneratorConfig := MkGeneratorConfig 42 6 3 1000 10 25 20 100.

Lemma sample_usable : usable (NewGenerator sample_config).
Proof. split; [reflexivity|cbn; unfold_ints; lia|cbn; lia]. Qed.

Definition sample_opened : opened := Opened _ sample_usable.

Lemma generator_value_layout_witness :
  let e := element sample_config 4 in
  Z.of_nat (length (Value e)) = 20 /\
  Value (element (with_size sample_config 12) 4) = take 12 (Value e).
Proof.
  destruct (generator_value_layout (NewGenerator sample_config) 12 4) as (H1 & _ & _ & _ & _ & H2);
    [exact sample_usable|cbn; unfold_ints; lia|cbn; lia|].
  split; [exact H1|exact H2].
Defined.

Lemma generator_seek_replays_witness :
  read 3 (SeekTo 2 (MkGenerator sample_config 5)).2 = drop 2 (read 5 (NewGenerator sample_config)).
Proof.
  apply (generator_seek_replays (MkGenerator sample_config 5) 2 3);
    [split; [reflexivity|cbn; unfold_ints; lia|cbn; lia]|lia].
Defined.

Lemma generator_never_late_witness :
  exists o' T, run_source (MkSettings 2 1 25 2) 10 1 None sample_opened = Some (Ok tt, (o', T)) /\
    srecords T = element sample_config <$> seqZ 3 3 /\
    timely (event_elem <$> T) /\ StronglySorted Z.lt (marks (event_elem <$> T)).
Proof.
  apply (generator_never_late (MkSettings 2 1 25 2) 10 1 sample_opened);
    [split; cbn; unfold_ints; lia|split; cbn; unfold_ints; lia|reflexivity|cbn; lia|cbn; lia].
Defined.

(** A step that goes back is accepted by [Open], and then the lag does not bound
    the out-of-orderness. *)
Example negative_step_accepted :
  let c := MkGeneratorConfig 0 2 1 100 (-50) 0 8 1 in
  Open (NewGenerator c) = Ok tt /\ disorderedb (MaxLag c) (read 2 (NewGenerator c)) = false.
Proof. split; reflexivity. Qed.
