(* ===== verification/Nexmark.v ===== *)
(** The Nexmark event model and source ([pkg/sources/nexmark.go]): the three
    fixed-width layouts with their checked decoders, the exact event mix, the
    events as functions of the seed and the offset, and the source over them. *)
From S2P Require Import Prelude Core Streams SourceTask SourceTaskSpec Generator.

(** * Event types *)

(** [NexmarkEventType], of which three values are types. *)
Inductive NexmarkEventType := EventPerson | EventAuction | EventBid.

#[export] Instance NexmarkEventType_eq_dec : EqDecision NexmarkEventType.
Proof. solve_decision. Defined.

Definition type_byte (t : NexmarkEventType) : byte :=
  match t with EventPerson => Byte.x01 | EventAuction => Byte.x02 | EventBid => Byte.x03 end.

Definition NexmarkEventType_String (t : Z) : bytes :=
  if t =? 1 then str "Person" else if t =? 2 then str "Auction" else if t =? 3 then str "Bid" else str "Unknown".

Definition nexmarkTypeBytes : nat := 1.
Definition NexmarkFieldBytes : nat := 8.
Definition NexmarkPersonBytes : nat := nexmarkTypeBytes + 5 * NexmarkFieldBytes.
Definition NexmarkAuctionBytes : nat := nexmarkTypeBytes + 7 * NexmarkFieldBytes.
Definition NexmarkBidBytes : nat := nexmarkTypeBytes + 4 * NexmarkFieldBytes.
Definition NexmarkKeyBytes : nat := NexmarkFieldBytes.

Record Person := MkPerson {
  person_ID : Z;
  NameOffset : Z;
  CityOffset : Z;
  StateOffset : Z;
  person_DateTime : Z;
}.

Record Auction := MkAuction {
  auction_ID : Z;
  Seller : Z;
  Category : Z;
  InitialBid : Z;
  Reserve : Z;
  auction_DateTime : Z;
  Expires : Z;
}.

Record Bid := MkBid {
  bid_Auction : Z;
  Bidder : Z;
  Price : Z;
  bid_DateTime : Z;
}.

(** What the layout errors say. *)
Inductive value_error :=
| errKeyLength (n : nat)
| errNoDiscriminator
| errDiscriminator (b : byte)
| errWrongType (got want : NexmarkEventType)
| errWrongSize (want : NexmarkEventType) (n size : nat).

Definition NexmarkKey (id : Z) : bytes := put_uint64 id.

Definition NexmarkKeyID (key : bytes) : result value_error Z :=
  if negb (length key =? NexmarkKeyBytes)%nat then Err (errKeyLength (length key))
  else Ok (uint64 key).

Definition NexmarkTypeOf (value : bytes) : result value_error NexmarkEventType :=
  match value with
  | [] => Err errNoDiscriminator
  | b :: _ =>
      if bool_decide (b = type_byte EventPerson) then Ok EventPerson
      else if bool_decide (b = type_byte EventAuction) then Ok EventAuction
      else if bool_decide (b = type_byte EventBid) then Ok EventBid
      else Err (errDiscriminator b)
  end.

(** * Layout *)

Definition field_offset (i : nat) : nat := nexmarkTypeBytes + i * NexmarkFieldBytes.

Definition field (value : bytes) (i : nat) : Z :=
  uint64 (take NexmarkFieldBytes (drop (field_offset i) value)).

(** The eight bytes at the field's offset are overwritten. *)
Definition putField (i : nat) (v : Z) (value : bytes) : bytes :=
  take (field_offset i) value ++ put_uint64 v ++ drop (field_offset i + NexmarkFieldBytes) value.

Definition checkValue (value : bytes) (want : NexmarkEventType) (size : nat) : result value_error unit :=
  match NexmarkTypeOf value with
  | Err e => Err e
  | Ok got =>
      if negb (bool_decide (got = want)) then Err (errWrongType got want)
      else if negb (length value =? size)%nat then Err (errWrongSize want (length value) size)
      else Ok tt
  end.

(** [make([]byte, size)] with [v[0]] set. *)
Definition blank (t : NexmarkEventType) (size : nat) : bytes := <[0%nat := type_byte t]> (replicate size Byte.x00).

Definition EncodePerson (p : Person) : bytes :=
  putField 4 (u64 (person_DateTime p))
    (putField 3 (StateOffset p)
      (putField 2 (CityOffset p)
        (putField 1 (NameOffset p)
          (putField 0 (person_ID p) (blank EventPerson NexmarkPersonBytes))))).

Definition DecodePerson (value : bytes) : result value_error Person :=
  _ ← checkValue value EventPerson NexmarkPersonBytes;
  mret (MkPerson (field value 0) (field value 1) (field value 2) (field value 3) (i64 (field value 4))).

Definition EncodeAuction (a : Auction) : bytes :=
  putField 6 (u64 (Expires a))
    (putField 5 (u64 (auction_DateTime a))
      (putField 4 (Reserve a)
        (putField 3 (InitialBid a)
          (putField 2 (Category a)
            (putField 1 (Seller a)
              (putField 0 (auction_ID a) (blank EventAuction NexmarkAuctionBytes))))))).

Definition DecodeAuction (value : bytes) : result value_error Auction :=
  _ ← checkValue value EventAuction NexmarkAuctionBytes;
  mret (MkAuction (field value 0) (field value 1) (field value 2) (field value 3) (field value 4)
          (i64 (field value 5)) (i64 (field value 6))).

Definition EncodeBid (b : Bid) : bytes :=
  putField 3 (u64 (bid_DateTime b))
    (putField 2 (Price b)
      (putField 1 (Bidder b)
        (putField 0 (bid_Auction b) (blank EventBid NexmarkBidBytes)))).

Definition DecodeBid (value : bytes) : result value_error Bid :=
  _ ← checkValue value EventBid NexmarkBidBytes;
  mret (MkBid (field value 0) (field value 1) (field value 2) (i64 (field value 3))).

(** * The source *)

Definition nexmarkPersonsPerCycle : Z := 1.
Definition nexmarkAuctionsPerCycle : Z := 3.
Definition nexmarkBidsPerCycle : Z := 46.
Definition nexmarkEventsPerCycle : Z :=
  nexmarkPersonsPerCycle + nexmarkAuctionsPerCycle + nexmarkBidsPerCycle.

Definition nexmarkNameSpace : Z := 1000.
Definition nexmarkCitySpace : Z := 100.
Definition nexmarkStateSpace : Z := 50.

Definition nexmarkTimeSalt : Z := 0x10.
Definition nexmarkPersonIDSalt : Z := 0x11.
Definition nexmarkNameSalt : Z := 0x12.
Definition nexmarkCitySalt : Z := 0x13.
Definition nexmarkStateSalt : Z := 0x14.
Definition nexmarkAuctionIDSalt : Z := 0x15.
Definition nexmarkSellerSalt : Z := 0x16.
Definition nexmarkCategorySalt : Z := 0x17.
Definition nexmarkInitialBidSalt : Z := 0x18.
Definition nexmarkReserveSalt : Z := 0x19.
Definition nexmarkExpiresSalt : Z := 0x1A.
Definition nexmarkBidAuctionSalt : Z := 0x1B.
Definition nexmarkBidderSalt : Z := 0x1C.
Definition nexmarkPriceSalt : Z := 0x1D.

Definition maxNexmarkPriceRange : Z := 2 ^ 62.

Record NexmarkConfig := MkNexmarkConfig {
  Seed : Z;
  Count : Z;
  AuctionCardinality : Z;
  PersonCardinality : Z;
  PriceRange : Z;
  CategoryCount : Z;
  AuctionDuration : Z;
  BaseEventTime : Z;
  EventTimeStep : Z;
  MaxLag : Z;
}.

Record Nexmark := MkNexmark {
  cfg : NexmarkConfig;
  pos : Z;
}.

Definition NewNexmark (c : NexmarkConfig) : Nexmark := MkNexmark c 0.

Inductive nexmark_error :=
| errCount (n : Z)
| errAuctionCardinality (n : Z)
| errPersonCardinality (n : Z)
| errPriceRange (n : Z)
| errPriceRangeTooHigh (n : Z)
| errCategoryCount (n : Z)
| errAuctionDuration (n : Z)
| errMaxLag (n : Z)
| errNegativeOffset (offset : Z).

Definition Open (n : Nexmark) : result nexmark_error unit :=
  let c := cfg n in
  if Count c <=? 0 then Err (errCount (Count c))
  else if AuctionCardinality c <=? 0 then Err (errAuctionCardinality (AuctionCardinality c))
  else if PersonCardinality c <=? 0 then Err (errPersonCardinality (PersonCardinality c))
  else if PriceRange c <? 1 then Err (errPriceRange (PriceRange c))
  else if maxNexmarkPriceRange <? PriceRange c then Err (errPriceRangeTooHigh (PriceRange c))
  else if CategoryCount c <? 1 then Err (errCategoryCount (CategoryCount c))
  else if AuctionDuration c <? 1 then Err (errAuctionDuration (AuctionDuration c))
  else if MaxLag c <? 0 then Err (errMaxLag (MaxLag c))
  else Ok tt.

Definition floorMod64 (a b : Z) : Z :=
  let m := Z.rem a b in if m <? 0 then m + b else m.

Definition addCeil64 (a b : Z) : Z :=
  let s := add64 a b in if (0 <? b) && (s <? a) then max_int64 else s.

Definition TypeAt (i : Z) : NexmarkEventType :=
  let phase := floorMod64 i nexmarkEventsPerCycle in
  if phase <? nexmarkPersonsPerCycle then EventPerson
  else if phase <? nexmarkPersonsPerCycle + nexmarkAuctionsPerCycle then EventAuction
  else EventBid.

Definition draw (c : NexmarkConfig) (salt i space : Z) : Z :=
  mix (Z.lxor (Seed c) salt) (u64 i) mod u64 space.

Definition timeOf (c : NexmarkConfig) (i : Z) : Z :=
  let lag := i64 (mix (Z.lxor (Seed c) nexmarkTimeSalt) (u64 i) mod u64 (add64 (MaxLag c) 1)) in
  sub64 (add64 (BaseEventTime c) (mul64 i (EventTimeStep c))) lag.

Definition person_at (c : NexmarkConfig) (i : Z) : Person :=
  MkPerson (draw c nexmarkPersonIDSalt i (PersonCardinality c)) (draw c nexmarkNameSalt i nexmarkNameSpace)
    (draw c nexmarkCitySalt i nexmarkCitySpace) (draw c nexmarkStateSalt i nexmarkStateSpace) (timeOf c i).

Definition auction_at (c : NexmarkConfig) (i : Z) : Auction :=
  let initial := draw c nexmarkInitialBidSalt i (PriceRange c) in
  MkAuction (draw c nexmarkAuctionIDSalt i (AuctionCardinality c))
    (draw c nexmarkSellerSalt i (PersonCardinality c))
    (draw c nexmarkCategorySalt i (CategoryCount c))
    initial
    (add_u64 initial (draw c nexmarkReserveSalt i (PriceRange c)))
    (timeOf c i)
    (addCeil64 (timeOf c i) (add64 1 (i64 (draw c nexmarkExpiresSalt i (AuctionDuration c))))).

Definition bid_at (c : NexmarkConfig) (i : Z) : Bid :=
  MkBid (draw c nexmarkBidAuctionSalt i (AuctionCardinality c)) (draw c nexmarkBidderSalt i (PersonCardinality c))
    (draw c nexmarkPriceSalt i (PriceRange c)) (timeOf c i).

Definition At (c : NexmarkConfig) (i : Z) : Record_ :=
  match TypeAt i with
  | EventPerson => NewRecord (NexmarkKey (person_ID (person_at c i))) (EncodePerson (person_at c i)) (timeOf c i)
  | EventAuction => NewRecord (NexmarkKey (auction_ID (auction_at c i))) (EncodeAuction (auction_at c i)) (timeOf c i)
  | EventBid => NewRecord (NexmarkKey (bid_Auction (bid_at c i))) (EncodeBid (bid_at c i)) (timeOf c i)
  end.

Definition Next (n : Nexmark) : result nexmark_error (option Record_) * Nexmark :=
  if Count (cfg n) <=? pos n then (Ok None, n)
  else (Ok (Some (At (cfg n) (pos n))), MkNexmark (cfg n) (add64 (pos n) 1)).

Definition SeekTo (offset : Z) (n : Nexmark) : result nexmark_error unit * Nexmark :=
  if offset <? 0 then (Err (errNegativeOffset offset), n) else (Ok tt, MkNexmark (cfg n) offset).

Definition Position (n : Nexmark) : Z := pos n.

(** * The contract of a source *)

(** A source the runtime has opened; [Count] and [AuctionDuration] are [int64]. *)
Record usable (n : Nexmark) : Prop := {
  us_open : Open n = Ok tt;
  us_count : Count (cfg n) <= max_int64;
  us_pos : 0 <= pos n;
}.

Record opened := Opened {
  nexmark : Nexmark;
  nexmark_usable : usable nexmark;
}.

Lemma nexmark_Next_usable n : usable n -> usable (Next n).2.
Proof.
  intros [Ho Hc Hp]. unfold Next. destruct (Z.leb_spec (Count (cfg n)) (pos n)); [by split|].
  split; cbn; [exact Ho|exact Hc|]. rewrite add64_id; [lia|unfold_ints; lia].
Qed.

Lemma nexmark_SeekTo_usable o n : usable n -> usable (SeekTo o n).2.
Proof.
  intros [Ho Hc Hp]. unfold SeekTo. destruct (Z.ltb_spec o 0); [by split|].
  by split; [exact Ho|exact Hc|].
Qed.

#[export] Instance Nexmark_Source : Source opened nexmark_error := {|
  src_next o := ((Next (nexmark o)).1, Opened _ (nexmark_Next_usable _ (nexmark_usable o)));
  src_seek offset o := ((SeekTo offset (nexmark o)).1, Opened _ (nexmark_SeekTo_usable offset _ (nexmark_usable o)));
  src_position o := Position (nexmark o);
  src_count := Some (fun o => Count (cfg (nexmark o)));
|}.

Definition event_at (c : NexmarkConfig) (i : Z) : option Record_ :=
  if (0 <=? i) && (i <? Count c) then Some (At c i) else None.

Lemma event_at_Some c n : is_Some (event_at c n) <-> 0 <= n < Count c.
Proof.
  unfold event_at. destruct (Z.leb_spec 0 n), (Z.ltb_spec n (Count c)); cbn; rewrite is_Some_alt; lia || (split; [lia|done]).
Qed.

(** What [Open] accepts. *)
Record config_ok (c : NexmarkConfig) : Prop := {
  co_count : 0 < Count c;
  co_auctions : 0 < AuctionCardinality c;
  co_persons : 0 < PersonCardinality c;
  co_prices : 1 <= PriceRange c <= maxNexmarkPriceRange;
  co_categories : 1 <= CategoryCount c;
  co_duration : 1 <= AuctionDuration c;
  co_lag : 0 <= MaxLag c;
}.

Lemma nexmark_Open_ok c : Open (NewNexmark c) = Ok tt <-> config_ok c.
Proof.
  unfold Open. cbn [cfg NewNexmark].
  destruct (Z.leb_spec (Count c) 0); [split; [done|intros []; lia]|].
  destruct (Z.leb_spec (AuctionCardinality c) 0); [split; [done|intros []; lia]|].
  destruct (Z.leb_spec (PersonCardinality c) 0); [split; [done|intros []; lia]|].
  destruct (Z.ltb_spec (PriceRange c) 1); [split; [done|intros []; lia]|].
  destruct (Z.ltb_spec maxNexmarkPriceRange (PriceRange c)); [split; [done|intros []; lia]|].
  destruct (Z.ltb_spec (CategoryCount c) 1); [split; [done|intros []; lia]|].
  destruct (Z.ltb_spec (AuctionDuration c) 1); [split; [done|intros []; lia]|].
  destruct (Z.ltb_spec (MaxLag c) 0); [split; [done|intros []; lia]|].
  split; [intros _; split; lia|done].
Qed.

Lemma usable_config n : usable n -> config_ok (cfg n).
Proof. intros [Ho _ _]. by apply nexmark_Open_ok. Qed.

#[export] Program Instance Nexmark_SourceLaws : SourceLaws opened nexmark_error := {|
  src_at o := event_at (cfg (nexmark o));
|}.
Next Obligation.
  intros [n Hu]. cbn. pose proof Hu as [_ Hc Hp].
  unfold Next, Position, event_at.
  destruct (Z.leb_spec (Count (cfg n)) (pos n)) as [Hle|Hlt]; cbn.
  - by rewrite (proj2 (Z.ltb_ge _ _)), andb_false_r by lia.
  - rewrite (proj2 (Z.leb_le _ _)), (proj2 (Z.ltb_lt _ _)) by lia. cbn. split_and!; [done..|].
    apply add64_id. unfold_ints. lia.
Qed.
Next Obligation.
  intros [n Hu] o Ho. cbn. unfold SeekTo. by rewrite (proj2 (Z.ltb_ge o 0)) by lia.
Qed.
Next Obligation.
  intros count [n Hu] [= <-]. cbn. pose proof Hu as [_ Hc Hp]. pose proof (co_count _ (usable_config _ Hu)).
  split_and!; [lia|lia|apply event_at_Some|].
  intros [n' Hu'] E. cbn in *. pose proof (co_count _ (usable_config _ Hu')).
  assert (forall i, 0 <= i < Count (cfg n') <-> 0 <= i < Count (cfg n)) as Hn.
  { intros i. by rewrite <- !event_at_Some, E. }
  pose proof (Hn (Count (cfg n) - 1)). pose proof (Hn (Count (cfg n') - 1)). lia.
Qed.
