(* ===== verification/NexmarkSpec.v ===== *)
(** What the Nexmark source promises ([pkg/sources/nexmark.go]): the layouts read
    back and nothing else decodes, the event mix is exact, every event decodes to
    fields that agree with its record, and a job over it has no late data. *)
From S2P Require Import Prelude Core Streams SourceTask SourceTaskSpec Generator Nexmark.

(** * The layouts *)

(** A discriminator and fields, which is what an encoder builds. *)
Definition layout (t : NexmarkEventType) (fs : list Z) : bytes := type_byte t :: (fs ≫= put_uint64).

Lemma length_layout t fs : length (layout t fs) = (1 + 8 * length fs)%nat.
Proof.
  unfold layout. cbn [length]. f_equal. induction fs as [|f fs IH]; [done|].
  rewrite bind_cons, length_app, length_put_uint64, IH. cbn [length]. lia.
Qed.

Lemma put_layout t done_ i f rest (blank : bytes) :
  length blank = 8%nat -> i = length done_ ->
  putField i f (layout t done_ ++ blank ++ rest) = layout t (done_ ++ [f]) ++ rest.
Proof.
  intros Hb ->. unfold putField, field_offset, nexmarkTypeBytes, NexmarkFieldBytes.
  rewrite take_app_length' by (rewrite length_layout; lia).
  rewrite drop_app, drop_ge by (rewrite length_layout; lia). cbn [app].
  rewrite drop_app_length' by (rewrite length_layout; lia).
  unfold layout. rewrite bind_app, bind_singleton. cbn [app]. by rewrite app_assoc.
Qed.

Lemma field_layout t fs i f :
  fs !! i = Some f -> field (layout t fs) i = u64 f.
Proof.
  intros Hi. unfold field, field_offset, nexmarkTypeBytes, NexmarkFieldBytes, layout.
  assert (fs = take i fs ++ f :: drop (S i) fs) as E by by rewrite take_drop_middle.
  assert (length (take i fs) = i) as Hl by (rewrite length_take; apply lookup_lt_Some in Hi; lia).
  rewrite E, bind_app, bind_cons. cbn [Nat.add drop].
  rewrite drop_app_length'.
  2: { generalize (take i fs) Hl. clear. intros l <-. induction l as [|x l IH]; [done|].
       rewrite bind_cons, length_app, length_put_uint64, <- IH. cbn [length]. lia. }
  rewrite take_app_length' by by rewrite length_put_uint64. apply uint64_put'.
Qed.

Lemma encode_person p :
  EncodePerson p = layout EventPerson
    [person_ID p; NameOffset p; CityOffset p; StateOffset p; u64 (person_DateTime p)].
Proof.
  unfold EncodePerson. set (z := replicate 8 Byte.x00).
  change (blank EventPerson NexmarkPersonBytes) with (layout EventPerson [] ++ z ++ z ++ z ++ z ++ z ++ []).
  rewrite !put_layout by done.
  apply app_nil_r.
Qed.

Lemma encode_auction a :
  EncodeAuction a = layout EventAuction
    [auction_ID a; Seller a; Category a; InitialBid a; Reserve a; u64 (auction_DateTime a); u64 (Expires a)].
Proof.
  unfold EncodeAuction. set (z := replicate 8 Byte.x00).
  change (blank EventAuction NexmarkAuctionBytes)
    with (layout EventAuction [] ++ z ++ z ++ z ++ z ++ z ++ z ++ z ++ []).
  rewrite !put_layout by done.
  apply app_nil_r.
Qed.

Lemma encode_bid b :
  EncodeBid b = layout EventBid [bid_Auction b; Bidder b; Price b; u64 (bid_DateTime b)].
Proof.
  unfold EncodeBid. set (z := replicate 8 Byte.x00).
  change (blank EventBid NexmarkBidBytes) with (layout EventBid [] ++ z ++ z ++ z ++ z ++ []).
  rewrite !put_layout by done.
  apply app_nil_r.
Qed.

Lemma type_of_layout t fs : NexmarkTypeOf (layout t fs) = Ok t.
Proof. by destruct t. Qed.

Definition fields_of (t : NexmarkEventType) : nat :=
  match t with EventPerson => 5 | EventAuction => 7 | EventBid => 4 end.

Lemma checkValue_spec value t :
  checkValue value t (1 + fields_of t * 8) = Ok tt <->
  exists fs, length fs = fields_of t /\ Forall is_u64 fs /\ value = layout t fs.
Proof.
  unfold checkValue. split.
  - destruct (NexmarkTypeOf value) as [got|] eqn:Et; [|done].
    case_bool_decide as Hg; [subst got|done]. cbn [negb].
    destruct (Nat.eqb_spec (length value) (1 + fields_of t * 8)) as [Hl|]; [|done]. intros _.
    destruct value as [|b body]; [done|].
    assert (b = type_byte t) as ->.
    { cbn in Et. repeat case_bool_decide; by simplify_eq. }
    assert (forall n (l : bytes), length l = (n * 8)%nat ->
      exists fs, length fs = n /\ Forall is_u64 fs /\ l = fs ≫= put_uint64) as Hsplit.
    { clear. induction n as [|n IH]; intros l Hl; [by exists []; destruct l|].
      destruct (IH (drop 8 l)) as (fs & Hf & Hu & E); [rewrite length_drop; lia|].
      exists (uint64 (take 8 l) :: fs). split_and!; [cbn; lia|by constructor; [apply uint64_range|]|].
      rewrite bind_cons, <- E, put_uint64_uint64; [by rewrite take_drop|rewrite length_take; lia]. }
    destruct (Hsplit (fields_of t) body) as (fs & Hf & Hu & ->); [cbn in Hl; lia|]. by exists fs.
  - intros (fs & Hf & _ & ->). rewrite type_of_layout, bool_decide_true by done. cbn [negb].
    rewrite length_layout, Hf. by rewrite (proj2 (Nat.eqb_eq _ _)) by lia.
Qed.

(** The fields of a value of type [t], or the layout error. *)
Definition decode_fields (t : NexmarkEventType) (value : bytes) : result value_error (list Z) :=
  _ ← checkValue value t (1 + fields_of t * 8);
  mret (field value <$> seq 0 (fields_of t)).

Lemma fields_layout t fs :
  Forall is_u64 fs -> field (layout t fs) <$> seq 0 (length fs) = fs.
Proof.
  intros Hu. apply list_eq. intros i. rewrite list_lookup_fmap.
  destruct (decide (i < length fs)%nat) as [Hi|Hi].
  - rewrite lookup_seq_lt by done. destruct (lookup_lt_is_Some_2 _ _ Hi) as [f Hf]. rewrite Hf. cbn.
    rewrite (field_layout _ _ _ f) by done. f_equal. apply u64_id. by eapply (Forall_lookup_1 _ _ _ _ Hu).
  - by rewrite lookup_seq_ge, lookup_ge_None_2 by lia.
Qed.

(** Exactly the layouts decode. *)
Lemma decode_fields_ok t value fs :
  decode_fields t value = Ok fs <->
  length fs = fields_of t /\ Forall is_u64 fs /\ value = layout t fs.
Proof.
  unfold decode_fields. split.
  - destruct (checkValue value t _) as [[]|] eqn:Ec; [|done].
    apply checkValue_spec in Ec as (gs & Hl & Hu & ->). cbv beta delta [mbind result_bind mret result_ret] iota.
    rewrite <- Hl, fields_layout by done. by intros [= <-].
  - intros (Hl & Hu & ->). rewrite (proj2 (checkValue_spec (layout t fs) t)) by by exists fs.
    cbv beta delta [mbind result_bind mret result_ret] iota. by rewrite <- Hl, fields_layout.
Qed.

Definition person_of (fs : list Z) : option Person :=
  match fs with [a; b; c; d; t] => Some (MkPerson a b c d (i64 t)) | _ => None end.
Definition auction_of (fs : list Z) : option Auction :=
  match fs with [a; b; c; d; e; t; x] => Some (MkAuction a b c d e (i64 t) (i64 x)) | _ => None end.
Definition bid_of (fs : list Z) : option Bid :=
  match fs with [a; b; c; t] => Some (MkBid a b c (i64 t)) | _ => None end.

Lemma DecodePerson_fields value p :
  DecodePerson value = Ok p <-> exists fs, decode_fields EventPerson value = Ok fs /\ person_of fs = Some p.
Proof.
  unfold DecodePerson, decode_fields. change NexmarkPersonBytes with (1 + fields_of EventPerson * 8)%nat.
  destruct (checkValue value EventPerson _) as [[]|]; cbn -[field]; split; try done.
  - intros [= <-]. by eexists.
  - by intros (fs & [= <-] & [= <-]).
  - by intros (fs & ? & _).
Qed.

Lemma DecodeAuction_fields value p :
  DecodeAuction value = Ok p <-> exists fs, decode_fields EventAuction value = Ok fs /\ auction_of fs = Some p.
Proof.
  unfold DecodeAuction, decode_fields. change NexmarkAuctionBytes with (1 + fields_of EventAuction * 8)%nat.
  destruct (checkValue value EventAuction _) as [[]|]; cbn -[field]; split; try done.
  - intros [= <-]. by eexists.
  - by intros (fs & [= <-] & [= <-]).
  - by intros (fs & ? & _).
Qed.

Lemma DecodeBid_fields value p :
  DecodeBid value = Ok p <-> exists fs, decode_fields EventBid value = Ok fs /\ bid_of fs = Some p.
Proof.
  unfold DecodeBid, decode_fields. change NexmarkBidBytes with (1 + fields_of EventBid * 8)%nat.
  destruct (checkValue value EventBid _) as [[]|]; cbn -[field]; split; try done.
  - intros [= <-]. by eexists.
  - by intros (fs & [= <-] & [= <-]).
  - by intros (fs & ? & _).
Qed.

(** Fields a 64-bit machine holds. *)
Definition person_ok (p : Person) : Prop :=
  Forall is_u64 [person_ID p; NameOffset p; CityOffset p; StateOffset p] /\ is_i64 (person_DateTime p).
Definition auction_ok (a : Auction) : Prop :=
  Forall is_u64 [auction_ID a; Seller a; Category a; InitialBid a; Reserve a] /\
  is_i64 (auction_DateTime a) /\ is_i64 (Expires a).
Definition bid_ok (b : Bid) : Prop :=
  Forall is_u64 [bid_Auction b; Bidder b; Price b] /\ is_i64 (bid_DateTime b).

Lemma i64_of_u64 z : is_i64 z -> i64 (u64 z) = z.
Proof. intros Hz. rewrite i64_u64. by apply i64_id. Qed.

Lemma u64_of_i64 z : is_u64 z -> u64 (i64 z) = z.
Proof. intros Hz. rewrite u64_i64. by apply u64_id. Qed.

Ltac u64_fields :=
  repeat match goal with H : Forall _ (_ :: _) |- _ => apply Forall_cons in H as [? H] end;
  repeat first [apply Forall_nil_2 | apply Forall_cons_2]; try done; try apply u64_range; try apply i64_range.

Lemma decode_person value p : DecodePerson value = Ok p <-> person_ok p /\ value = EncodePerson p.
Proof.
  rewrite DecodePerson_fields. setoid_rewrite decode_fields_ok. rewrite encode_person. split.
  - intros (fs & (Hl & Hu & ->) & Hp). do 6 (destruct fs as [|? fs]; try discriminate).
    injection Hp as <-. u64_fields. unfold person_ok. cbn. rewrite u64_of_i64 by done.
    split; [split; [u64_fields|apply i64_range]|done].
  - intros [[Hu Hi] ->]. eexists. split; [split; [|split; [|reflexivity]]|]; [done|u64_fields|].
    cbn. rewrite i64_of_u64 by done. by destruct p.
Qed.

Lemma decode_auction value a : DecodeAuction value = Ok a <-> auction_ok a /\ value = EncodeAuction a.
Proof.
  rewrite DecodeAuction_fields. setoid_rewrite decode_fields_ok. rewrite encode_auction. split.
  - intros (fs & (Hl & Hu & ->) & Hp). do 8 (destruct fs as [|? fs]; try discriminate).
    injection Hp as <-. u64_fields. unfold auction_ok. cbn. rewrite !u64_of_i64 by done.
    split; [split; [u64_fields|split; apply i64_range]|done].
  - intros [(Hu & Hi & Hx) ->]. eexists. split; [split; [|split; [|reflexivity]]|]; [done|u64_fields|].
    cbn. rewrite !i64_of_u64 by done. by destruct a.
Qed.

Lemma decode_bid value b : DecodeBid value = Ok b <-> bid_ok b /\ value = EncodeBid b.
Proof.
  rewrite DecodeBid_fields. setoid_rewrite decode_fields_ok. rewrite encode_bid. split.
  - intros (fs & (Hl & Hu & ->) & Hp). do 5 (destruct fs as [|? fs]; try discriminate).
    injection Hp as <-. u64_fields. unfold bid_ok. cbn. rewrite u64_of_i64 by done.
    split; [split; [u64_fields|apply i64_range]|done].
  - intros [[Hu Hi] ->]. eexists. split; [split; [|split; [|reflexivity]]|]; [done|u64_fields|].
    cbn. rewrite i64_of_u64 by done. by destruct b.
Qed.

(** C36. The three layouts: a value decodes as an event exactly when it is the
    encoding of that event, so encoding reads back, nothing but an encoding
    decodes, and no value decodes as two types. *)
Theorem nexmark_layouts value :
  (forall p, DecodePerson value = Ok p <-> person_ok p /\ value = EncodePerson p) /\
  (forall a, DecodeAuction value = Ok a <-> auction_ok a /\ value = EncodeAuction a) /\
  (forall b, DecodeBid value = Ok b <-> bid_ok b /\ value = EncodeBid b) /\
  (forall t t', is_ok (decode_fields t value) = true -> is_ok (decode_fields t' value) = true -> t = t').
Proof.
  split; [apply decode_person|]. split; [apply decode_auction|]. split; [apply decode_bid|].
  intros t t'. destruct (decode_fields t value) as [fs|] eqn:E; [|done].
  destruct (decode_fields t' value) as [fs'|] eqn:E'; [|done]. intros _ _.
  apply decode_fields_ok in E as (_ & _ & ->). apply decode_fields_ok in E' as (_ & _ & E').
  apply (f_equal NexmarkTypeOf) in E'. rewrite !type_of_layout in E'. by injection E'.
Qed.

(** * The event mix *)

Definition count_type (t : NexmarkEventType) (l : list Z) : nat := length (filter (fun i => TypeAt i = t) l).

Lemma TypeAt_cycle i : 0 <= i -> TypeAt (i + nexmarkEventsPerCycle) = TypeAt i.
Proof.
  intros Hi. unfold TypeAt, floorMod64. change nexmarkEventsPerCycle with 50.
  rewrite !Z.rem_mod_nonneg by lia. pose proof (Z.mod_add i 1 50 ltac:(lia)) as E.
  rewrite Z.mul_1_l in E. by rewrite E.
Qed.

(** The event mix is exact: any fifty consecutive events, from any offset,
    hold one person, three auctions and forty-six bids. *)
Theorem nexmark_event_mix k :
  0 <= k ->
  let l := seqZ k nexmarkEventsPerCycle in
  count_type EventPerson l = 1%nat /\ count_type EventAuction l = 3%nat /\ count_type EventBid l = 46%nat.
Proof.
  intros Hk. cbv zeta.
  assert (forall t, count_type t (seqZ k nexmarkEventsPerCycle) = count_type t (seqZ 0 nexmarkEventsPerCycle)) as Hs.
  { intros t. revert k Hk. apply natlike_ind; [done|]. intros k Hk <-. unfold count_type.
    rewrite (seqZ_cons k) by done. rewrite <- Z.add_1_r.
    replace nexmarkEventsPerCycle with (Z.pred nexmarkEventsPerCycle + 1) at 1 by done.
    rewrite seqZ_app by done. rewrite (seqZ_cons (k + 1 + _)) by done. rewrite (seqZ_nil (Z.succ _)) by lia.
    rewrite filter_app, !filter_cons, filter_nil, length_app.
    replace (k + 1 + Z.pred nexmarkEventsPerCycle) with (k + nexmarkEventsPerCycle) by lia.
    rewrite (decide_ext _ (TypeAt k = t)) by by rewrite TypeAt_cycle.
    case_decide; cbn [length]; lia. }
  rewrite !Hs. by vm_compute.
Qed.

(** * The events *)

Lemma draw_range c salt i space : 1 <= space <= max_int64 -> 0 <= draw c salt i space < space.
Proof.
  intros Hs. unfold draw. rewrite (u64_id space) by (unfold_ints; lia). apply Z.mod_pos_bound. lia.
Qed.

(** The fields of a configuration are 64-bit integers. *)
Record config_fits (c : NexmarkConfig) : Prop := {
  cf_count : Count c <= max_int64;
  cf_auctions : AuctionCardinality c <= max_int64;
  cf_persons : PersonCardinality c <= max_int64;
  cf_categories : CategoryCount c <= max_int64;
  cf_duration : AuctionDuration c <= max_int64;
}.

Lemma timeOf_i64 c i : is_i64 (timeOf c i).
Proof. apply i64_range. Qed.

Lemma addCeil64_spec a b : is_i64 a -> 0 < b <= max_int64 -> addCeil64 a b = Z.min (a + b) max_int64 /\ is_i64 (addCeil64 a b).
Proof.
  intros Ha Hb. unfold addCeil64. rewrite (proj2 (Z.ltb_lt 0 b)) by lia. cbn [andb].
  destruct (decide (a + b <= max_int64)).
  - rewrite add64_id by (unfold_ints; lia). rewrite (proj2 (Z.ltb_ge _ _)) by lia. unfold_ints. lia.
  - assert (add64 a b = a + b - 2 ^ 64) as ->.
    { unfold add64, i64. unfold is_i64, min_int64, max_int64 in *.
      replace (a + b + 2 ^ 63) with ((a + b - 2 ^ 63) + 1 * 2 ^ 64) by lia.
      rewrite Z.mod_add by lia. rewrite Z.mod_small by lia. lia. }
    rewrite (proj2 (Z.ltb_lt _ _)) by (unfold_ints; lia). unfold_ints. lia.
Qed.

Section Events.
Context (c : NexmarkConfig) (Hc : config_ok c) (Hf : config_fits c).

Ltac ranges :=
  destruct Hc as [? ? ? [? ?] ? ? ?]; destruct Hf as [? ? ? ? ?]; unfold maxNexmarkPriceRange in *;
  repeat match goal with
  | |- context [draw c ?salt ?i ?space] =>
      lazymatch goal with
      | _ : 0 <= draw c salt i space < space |- _ => fail
      | _ => pose proof (draw_range c salt i space ltac:(unfold_ints; unfold nexmarkNameSpace, nexmarkCitySpace, nexmarkStateSpace; lia))
      end
  end.

Lemma person_at_ok i :
  let p := person_at c i in
  person_ok p /\ 0 <= person_ID p < PersonCardinality c /\ 0 <= NameOffset p < nexmarkNameSpace /\
  0 <= CityOffset p < nexmarkCitySpace /\ 0 <= StateOffset p < nexmarkStateSpace.
Proof.
  cbv zeta. split; [split; [|apply timeOf_i64]|]; cbn; ranges; u64_fields;
    unfold nexmarkNameSpace, nexmarkCitySpace, nexmarkStateSpace, is_u64, max_int64 in *; lia.
Qed.

Lemma bid_at_ok i :
  let b := bid_at c i in
  bid_ok b /\ 0 <= bid_Auction b < AuctionCardinality c /\ 0 <= Bidder b < PersonCardinality c /\
  0 <= Price b < PriceRange c.
Proof.
  cbv zeta. split; [split; [|apply timeOf_i64]|]; cbn; ranges; u64_fields; unfold is_u64, max_int64 in *; lia.
Qed.

Lemma auction_at_ok i :
  let a := auction_at c i in
  auction_ok a /\ 0 <= auction_ID a < AuctionCardinality c /\ 0 <= Seller a < PersonCardinality c /\
  0 <= Category a < CategoryCount c /\ 0 <= InitialBid a < PriceRange c /\
  InitialBid a <= Reserve a < InitialBid a + PriceRange c /\
  (exists d, 1 <= d <= AuctionDuration c /\ Expires a = Z.min (auction_DateTime a + d) max_int64) /\
  (auction_DateTime a < Expires a \/ Expires a = max_int64).
Proof.
  cbv zeta. assert (add_u64 (draw c nexmarkInitialBidSalt i (PriceRange c)) (draw c nexmarkReserveSalt i (PriceRange c)) =
    draw c nexmarkInitialBidSalt i (PriceRange c) + draw c nexmarkReserveSalt i (PriceRange c) /\
    0 <= draw c nexmarkInitialBidSalt i (PriceRange c) + draw c nexmarkReserveSalt i (PriceRange c) < 2 ^ 64) as [Er Hr].
  { ranges. unfold add_u64. rewrite u64_id; unfold is_u64; lia. }
  set (d := add64 1 (i64 (draw c nexmarkExpiresSalt i (AuctionDuration c)))).
  assert (1 <= d <= AuctionDuration c /\ AuctionDuration c <= max_int64) as [He Hm].
  { unfold d. ranges. rewrite (i64_id (draw _ _ _ _)) by (unfold_ints; lia). rewrite add64_id by (unfold_ints; lia). lia. }
  destruct (addCeil64_spec (timeOf c i) d (timeOf_i64 c i) ltac:(lia)) as [Ex Hx].
  unfold auction_ok. cbn. fold d. rewrite Er. split.
  - split; [|split; [apply timeOf_i64|exact Hx]].
    ranges; u64_fields; unfold is_u64, max_int64 in *; lia.
  - rewrite Ex. clear Hx. split_and!; solve [by exists d | ranges; lia].
Qed.
End Events.

(** C35. Every event of an opened source decodes, as the type its offset has, to
    fields that agree with the record around it: the key is the identifier the
    queries group by (for a bid, the auction's), and the time is the record's.
    Every other field is in its range: identifiers of persons, sellers and
    bidders in the person space, identifiers of auctions in the auction space,
    categories in theirs, the offsets of name, city and state in theirs, prices
    and initial bids in the price range; a reserve is not below the initial bid
    and less than a price range above it; an auction expires between one and
    [AuctionDuration] milliseconds after it opens, or when the clock runs out. *)
Theorem nexmark_events_agree n i :
  usable n -> config_fits (cfg n) ->
  let c := cfg n in
  let e := At c i in
  match TypeAt i with
  | EventPerson => exists p, DecodePerson (Value e) = Ok p /\ NexmarkKeyID (Key e) = Ok (person_ID p) /\
      person_DateTime p = EventTime e /\ 0 <= person_ID p < PersonCardinality c /\
      0 <= NameOffset p < nexmarkNameSpace /\ 0 <= CityOffset p < nexmarkCitySpace /\
      0 <= StateOffset p < nexmarkStateSpace
  | EventAuction => exists a, DecodeAuction (Value e) = Ok a /\ NexmarkKeyID (Key e) = Ok (auction_ID a) /\
      auction_DateTime a = EventTime e /\ 0 <= auction_ID a < AuctionCardinality c /\
      0 <= Seller a < PersonCardinality c /\ 0 <= Category a < CategoryCount c /\
      0 <= InitialBid a < PriceRange c /\ InitialBid a <= Reserve a < InitialBid a + PriceRange c /\
      (exists d, 1 <= d <= AuctionDuration c /\ Expires a = Z.min (auction_DateTime a + d) max_int64) /\
      (auction_DateTime a < Expires a \/ Expires a = max_int64)
  | EventBid => exists b, DecodeBid (Value e) = Ok b /\ NexmarkKeyID (Key e) = Ok (bid_Auction b) /\
      bid_DateTime b = EventTime e /\ 0 <= bid_Auction b < AuctionCardinality c /\
      0 <= Bidder b < PersonCardinality c /\ 0 <= Price b < PriceRange c
  end.
Proof.
  intros Hu Hf c e. pose proof (usable_config n Hu) as Hc. subst e c. unfold At.
  assert (forall id, is_u64 id -> NexmarkKeyID (NexmarkKey id) = Ok id) as Hk.
  { intros id Hid. unfold NexmarkKeyID, NexmarkKey. rewrite length_put_uint64. cbn [negb Nat.eqb NexmarkKeyBytes NexmarkFieldBytes].
    by rewrite uint64_put', u64_id. }
  destruct (TypeAt i); cbn [Key Value EventTime].
  - destruct (person_at_ok (cfg n) Hc Hf i) as [Hok Hid]. exists (person_at (cfg n) i).
    split; [by apply decode_person|]. split; [|done]. apply Hk. pose proof (cf_persons _ Hf). unfold_ints. lia.
  - destruct (auction_at_ok (cfg n) Hc Hf i) as (Hok & Hid & Hr). exists (auction_at (cfg n) i).
    split; [by apply decode_auction|]. split; [|done]. apply Hk. pose proof (cf_auctions _ Hf). unfold_ints. lia.
  - destruct (bid_at_ok (cfg n) Hc Hf i) as (Hok & Hid & Hr). exists (bid_at (cfg n) i).
    split; [by apply decode_bid|]. split; [|done]. apply Hk. pose proof (cf_auctions _ Hf). unfold_ints. lia.
Qed.

(** * A job over the source *)

Lemma events_range c a b : 0 <= a -> b <= Count c -> src_range (event_at c) a b = At c <$> seqZ a (b - a).
Proof.
  intros Ha Hb. unfold src_range.
  assert (forall x, x ∈ seqZ a (b - a) -> event_at c x = Some (At c x)) as Hx.
  { intros x [? ?]%elem_of_seqZ. unfold event_at. by rewrite (proj2 (Z.leb_le _ _)), (proj2 (Z.ltb_lt _ _)) by lia. }
  revert Hx. generalize (seqZ a (b - a)). induction l as [|x l IH]; intros Hx; [done|].
  cbn. rewrite (Hx x) by by left. cbn. f_equal. apply IH. intros y Hy. apply Hx. by right.
Qed.

Lemma EventTime_At c i : EventTime (At c i) = timeOf c i.
Proof. unfold At. by destruct (TypeAt i). Qed.

Definition config_times_fit (c : NexmarkConfig) : Prop :=
  times_fit (BaseEventTime c) (EventTimeStep c) (MaxLag c) (Count c).

(** A Nexmark job has no late data: split over any number of subtasks with a
    [MaxOutOfOrderness] of [MaxLag], each subtask sends the events of its range,
    in order, with watermarks that rise strictly and that no later event is at or
    below. *)
Theorem nexmark_never_late (c : settings) fuel index (o : opened) :
  let nc := cfg (nexmark o) in
  config_times_fit nc -> settings_ok c (Count nc) -> st_lag c = MaxLag nc ->
  0 <= index < st_parallelism c -> (Z.to_nat (Count nc) < fuel)%nat ->
  let start := range_start (Count nc) (st_parallelism c) index in
  let stop := range_start (Count nc) (st_parallelism c) (index + 1) in
  exists o' T, run_source c fuel index None o = Some (Ok tt, (o', T)) /\
    srecords T = At nc <$> seqZ start (stop - start) /\
    timely (event_elem <$> T) /\ StronglySorted Z.lt (marks (event_elem <$> T)).
Proof.
  intros nc Ht Hc Hlag Hi Hf start stop.
  pose proof (co_count _ (usable_config _ (nexmark_usable o))) as Hcount. fold nc in Hcount.
  destruct (run_source_timely c (fun o => Count (cfg (nexmark o))) fuel index o) as (o' & T & E & Er & Hs);
    [reflexivity|exact Hc|exact Hi|exact Hf| | |].
  - cbn [src_at Nexmark_SourceLaws]. fold nc. rewrite Hlag, events_range, Z.sub_0_r by lia.
    apply (lagged_disordered _ _ _ _ _ Ht). intros n Hn. rewrite EventTime_At. by apply (lagged_bounds _ _ _ (Count nc)).
  - cbn [src_at Nexmark_SourceLaws]. fold nc. rewrite events_range, Z.sub_0_r by lia.
    apply Forall_fmap, Forall_forall. intros n [? ?]%elem_of_seqZ. cbn. rewrite EventTime_At. apply timeOf_i64.
  - exists o', T. split; [exact E|]. split; [|exact Hs]. rewrite Er. unfold range_from.
    pose proof (range_bounds (Count nc) (st_parallelism c) index ltac:(lia) (so_parallelism _ _ Hc) Hi) as (Hb1 & Hb2 & _).
    cbv beta. fold nc. fold start stop. apply events_range; unfold start, stop, range_start; lia.
Qed.

(** ** A concrete source *)

Definition sample_nexmark : NexmarkConfig := MkNexmarkConfig 7 60 4 5 100 2 1000 5000 10 40.

Lemma sample_nexmark_usable : usable (NewNexmark sample_nexmark).
Proof. split; [reflexivity|cbn; unfold_ints; lia|cbn; lia]. Qed.

Lemma sample_nexmark_fits : config_fits sample_nexmark.
Proof. split; cbn; unfold_ints; lia. Qed.

Lemma nexmark_event_mix_witness : count_type EventAuction (seqZ 7 50) = 3%nat.
Proof. apply (nexmark_event_mix 7). lia. Defined.

Lemma nexmark_events_agree_witness :
  exists a, DecodeAuction (Value (At sample_nexmark 52)) = Ok a /\ 0 <= Seller a < 5 /\ 0 <= Category a < 2 /\
    0 <= InitialBid a < 100 /\ InitialBid a <= Reserve a < InitialBid a + 100.
Proof.
  destruct (nexmark_events_agree (NewNexmark sample_nexmark) 52 sample_nexmark_usable sample_nexmark_fits)
    as (a & Ha & _ & _ & _ & Hs & Hc & Hi & Hr & _).
  exists a. split; [exact Ha|]. split; [exact Hs|]. split; [exact Hc|]. split; [exact Hi|exact Hr].
Defined.

Lemma nexmark_never_late_witness :
  exists o' T, run_source (MkSettings 2 4 40 10) 100 1 None (Opened _ sample_nexmark_usable) = Some (Ok tt, (o', T)) /\
    srecords T = At sample_nexmark <$> seqZ 30 30 /\
    timely (event_elem <$> T) /\ StronglySorted Z.lt (marks (event_elem <$> T)).
Proof.
  apply (nexmark_never_late (MkSettings 2 4 40 10) 100 1 (Opened _ sample_nexmark_usable));
    [split; cbn; unfold_ints; lia|split; cbn; unfold_ints; lia|reflexivity|cbn; lia|cbn; lia].
Defined.
