(* ===== verification/Transform.v ===== *)
(** The stateless operators: map and filter ([pkg/operators/transform.go]), and
    the Nexmark queries that are maps ([pkg/operators/nexmark.go]). *)
From S2P Require Import Prelude Core State Operators WindowStore Window Nexmark.

(** * Map and Filter

    A function from a record to a record, none for no output. *)
Record Map := NewMap { fn : Record_ -> result op_error (option Record_) }.
Record Filter := NewFilter { pred : Record_ -> bool }.

Section Code.
Context {S SE : Type} `{KeyedState S SE}.

Definition Map_ProcessElement (m : Map) (rec : Record_) : Op S unit :=
  out ← lift (fn m rec);
  match out with
  | None => mret tt
  | Some out => emit out
  end.

Definition Filter_ProcessElement (f : Filter) (rec : Record_) : Op S unit :=
  if pred f rec then emit rec else mret tt.

(** Watermarks are forwarded by the runtime, and there is nothing to flush. *)
Definition no_output : Op S unit := mret tt.
End Code.

Definition Map_Operator (m : Map) : Operator := {|
  o_Open _ := Ok tt;
  o_ProcessElement S SE _ := Map_ProcessElement m;
  o_ProcessWatermark S SE _ _ := no_output;
  o_OnEndOfStream S SE _ := no_output;
  o_Snapshot := Ok [];
  o_Restore _ := Ok tt;
  o_Close := Ok tt;
|}.

Definition Filter_Operator (f : Filter) : Operator := {|
  o_Open _ := Ok tt;
  o_ProcessElement S SE _ := Filter_ProcessElement f;
  o_ProcessWatermark S SE _ _ := no_output;
  o_OnEndOfStream S SE _ := no_output;
  o_Snapshot := Ok [];
  o_Restore _ := Ok tt;
  o_Close := Ok tt;
|}.

#[export] Instance Map_OperatorLaws m : OperatorLaws (Map_Operator m).
Proof.
  split; intros; cbn; [|apply refines_ret..]. unfold Map_ProcessElement. refine_tac.
Qed.

#[export] Instance Filter_OperatorLaws f : OperatorLaws (Filter_Operator f).
Proof.
  split; intros; cbn; [|apply refines_ret..]. unfold Filter_ProcessElement. refine_tac.
Qed.

(** * The queries that are maps (nexmark.go) *)

Definition Q1Factor : Z := 89.
Definition Q2Divisor : Z := 3.

(** A value that does not decode is an error; one of another type is none. *)
Definition bidOf (rec : Record_) : result op_error (option Bid) :=
  match NexmarkTypeOf (Value rec) with
  | Err _ => Err ErrValue
  | Ok typ =>
      if negb (bool_decide (typ = EventBid)) then Ok None
      else match DecodeBid (Value rec) with
      | Err _ => Err ErrValue
      | Ok bid => Ok (Some bid)
      end
  end.

Definition NewQ0 : Map := NewMap (fun rec => Ok (Some rec)).

Definition NewQ1 (factor : Z) : Map := NewMap (fun rec =>
  bid ← bidOf rec;
  match bid with
  | None => mret None
  | Some bid =>
      let bid := MkBid (bid_Auction bid) (Bidder bid) (u64 (Price bid * factor)) (bid_DateTime bid) in
      mret (Some (NewRecord (Key rec) (EncodeBid bid) (EventTime rec)))
  end).

(** A divisor of zero panics. *)
Definition NewQ2 (divisor : Z) : option Map :=
  if divisor =? 0 then None
  else Some (NewMap (fun rec =>
    bid ← bidOf rec;
    match bid with
    | None => mret None
    | Some bid => mret (if negb (bid_Auction bid mod divisor =? 0) then None else Some rec)
    end)).

(** ** Between the stages of q5 *)

Definition NewBidsOnly : Map := NewMap (fun rec =>
  match NexmarkTypeOf (Value rec) with
  | Err _ => Err ErrValue
  | Ok typ => Ok (if negb (bool_decide (typ = EventBid)) then None else Some rec)
  end).

Definition auctionCountBytes : nat := 16.

Record AuctionCount := MkAuctionCount {
  ac_Auction : Z;
  ac_Count : Z;
}.

Definition EncodeAuctionCount (ac : AuctionCount) : bytes :=
  put_uint64 (ac_Auction ac) ++ put_uint64 (u64 (ac_Count ac)).

Definition DecodeAuctionCount (value : bytes) : result op_error AuctionCount :=
  if negb (length value =? auctionCountBytes)%nat then Err ErrAuctionCountLength
  else Ok (MkAuctionCount (uint64 (take 8 value)) (i64 (uint64 (drop 8 value)))).

Definition WindowKey (windowStart : Z) : bytes := put_uint64 (u64 windowStart).

Definition WindowKeyStart (key : bytes) : result op_error Z :=
  if negb (length key =? 8)%nat then Err ErrWindowKeyLength
  else Ok (i64 (uint64 key)).

(** A size that is not positive panics. *)
Definition NewQ5Rekey (size : Z) : option Map :=
  if size <=? 0 then None
  else Some (NewMap (fun rec =>
    auction ← wrap_err (fun _ => ErrValue) (NexmarkKeyID (Key rec));
    count ← DecodeCount (Value rec);
    mret (Some (NewRecord (WindowKey (subFloor (EventTime rec) (size - 1)))
                  (EncodeAuctionCount (MkAuctionCount auction count)) (EventTime rec))))).
