(* ===== verification/MaxBid.v ===== *)
(** Nexmark q7, the highest bid of each auction and tumbling window
    ([pkg/operators/nexmark.go]): the operator over any keyed state and its
    abstract specification. *)
From S2P Require Import Prelude Core State Operators WindowStore Window Nexmark Transform.

(** * The operator *)

Record MaxBid := MkMaxBid {
  mb_size : Z;
  mb_allowedLateness : Z;
}.

Definition winningBidBytes : nat := 3 * 8.

Record WinningBid := MkWinningBid {
  wb_Price : Z;
  wb_Bidder : Z;
  wb_Auction : Z;
}.

Definition EncodeWinningBid (w : WinningBid) : bytes :=
  put_uint64 (wb_Price w) ++ put_uint64 (wb_Bidder w) ++ put_uint64 (wb_Auction w).

Definition DecodeWinningBid (value : bytes) : result op_error WinningBid :=
  if negb (length value =? winningBidBytes)%nat then Err ErrWinningBidLength
  else Ok (MkWinningBid (uint64 (take 8 value)) (uint64 (take 8 (drop 8 value))) (uint64 (drop 16 value))).

Definition betterBid (a b : WinningBid) : bool :=
  if negb (wb_Price a =? wb_Price b) then wb_Price b <? wb_Price a
  else if negb (wb_Bidder a =? wb_Bidder b) then wb_Bidder a <? wb_Bidder b
  else wb_Auction a <? wb_Auction b.

(** A bad specification panics. *)
Definition NewQ7 (size allowedLateness : Z) : option MaxBid :=
  if size <=? 0 then None
  else if allowedLateness <? 0 then None
  else Some (MkMaxBid size allowedLateness).

Section Code.
Context (m : MaxBid).

Definition windowStartOfTime (t : Z) : Z := subFloor t (floorMod t (mb_size m)).

Definition MaxBid_fireTimeOf (start : Z) : Z := addCeil start (mb_size m - 1).

Definition MaxBid_isPurged (watermark start : Z) : bool :=
  addCeil (addCeil start (mb_size m)) (mb_allowedLateness m) <? watermark.

Context {S SE : Type} `{KeyedState S SE}.

Definition MaxBid_ProcessElement (rec : Record_) : Op S unit :=
  bid ← lift (bidOf rec);
  match bid with
  | None => mret tt
  | Some bid =>
      watermark ← loadWatermark;
      let start := windowStartOfTime (EventTime rec) in
      if MaxBid_isPurged watermark start then incr_dropped
      else
        _ ← incr_onTime;
        let candidate := MkWinningBid (Price bid) (Bidder bid) (bid_Auction bid) in
        let keyBuf := appendStateKey (Key rec) start in
        held ← st_get keyBuf;
        candidate ← match held with
                    | Some held =>
                        current ← lift (DecodeWinningBid held);
                        mret (if negb (betterBid candidate current) then current else candidate)
                    | None => mret candidate
                    end;
        _ ← st_put keyBuf (EncodeWinningBid candidate);
        st_put (appendTimerKey (MaxBid_fireTimeOf start) (Key rec) start) []
  end.

Definition MaxBid_fire (key : bytes) (start : Z) : Op S unit :=
  value ← st_get (appendStateKey key start);
  match value with
  | None => fail ErrFiredWithNoState
  | Some value =>
      winner ← lift (DecodeWinningBid value);
      emit (NewRecord key (EncodeWinningBid winner) (MaxBid_fireTimeOf start))
  end.

(** What the purge decides about an aggregate's key. *)
Definition MaxBid_purged (wm : Z) (stateKey : bytes) : result op_error bool :=
  start ← windowStartOf stateKey;
  mret (MaxBid_isPurged wm start).

Definition MaxBid_ProcessWatermark (wm : Z) : Op S unit :=
  _ ← storeWatermark wm;
  due ← collectDue wm;
  _ ← for_each (fun t =>
        _ ← st_delete (stateKey t);
        MaxBid_fire (key t) (windowStart t)) due;
  purgeWindows (MaxBid_purged wm).
End Code.

(** Without a keyed state there is nothing to count in. *)
Definition MaxBid_Open (hasState : bool) : result op_error unit := needs_state hasState.

Definition MaxBid_Operator (m : MaxBid) : Operator := {|
  o_Open := MaxBid_Open;
  o_ProcessElement S SE _ := MaxBid_ProcessElement m;
  o_ProcessWatermark S SE _ := MaxBid_ProcessWatermark m;
  o_OnEndOfStream S SE _ := mret tt;
  o_Snapshot := Err ErrNotSnapshottable;
  o_Restore _ := Err ErrNotSnapshottable;
  o_Close := Ok tt;
|}.

#[export] Instance MaxBid_OperatorLaws m : OperatorLaws (MaxBid_Operator m).
Proof.
  split; intros; cbn; [| |apply refines_ret].
  - unfold MaxBid_ProcessElement. refine_tac.
  - unfold MaxBid_ProcessWatermark, MaxBid_fire. refine_tac.
Qed.
