(* ===== verification/HotItems.v ===== *)
(** Nexmark q5, second stage: per window, all the auctions with the highest
    count ([pkg/operators/nexmark.go]). *)
From S2P Require Import Prelude Core State Operators WindowStore Window Nexmark Transform.

Record HotItems := MkHotItems {
  hi_size : Z;
  hi_allowedLateness : Z;
}.

Definition hotItemKeyBytes : nat := prefixBytes + 8 + 8.

(** A bad specification panics. *)
Definition NewQ5HotItems (size allowedLateness : Z) : option HotItems :=
  if size <=? 0 then None
  else if allowedLateness <? 0 then None
  else Some (MkHotItems size allowedLateness).

Definition appendHotItemKey (windowKey : bytes) (auction : Z) : bytes :=
  PrefixUserState :: windowKey ++ put_uint64 auction.

Definition parseHotItemKey (stateKey : bytes) : result op_error (bytes * Z) :=
  if negb (length stateKey =? hotItemKeyBytes)%nat then Err ErrHotItemKeyLength
  else Ok (take 8 (drop prefixBytes stateKey), uint64 (drop (prefixBytes + 8) stateKey)).

(** [hotWindow]: a running maximum and the auctions at it. *)
Record hotWindow := MkHotWindow {
  max : Z;
  winners : list Z;
}.

Definition add_count (auction count : Z) (w : hotWindow) : hotWindow :=
  if (length (winners w) =? 0)%nat || (max w <? count) then MkHotWindow count [auction]
  else if count =? max w then MkHotWindow (max w) (winners w ++ [auction])
  else w.

Section Code.
Context (h : HotItems).

Definition HotItems_fireTimeOf (start : Z) : Z := addCeil start (hi_size h - 1).

Definition HotItems_isPurged (watermark start : Z) : bool :=
  addCeil (addCeil start (hi_size h)) (hi_allowedLateness h) <? watermark.

Context {S SE : Type} `{KeyedState S SE}.

Definition HotItems_ProcessElement (rec : Record_) : Op S unit :=
  windowStart ← lift (WindowKeyStart (Key rec));
  if negb (EventTime rec =? HotItems_fireTimeOf windowStart) then fail ErrSizeDisagreement
  else
    ac ← lift (DecodeAuctionCount (Value rec));
    watermark ← loadWatermark;
    if HotItems_isPurged watermark windowStart then incr_dropped
    else
      _ ← incr_onTime;
      _ ← st_put (appendHotItemKey (Key rec) (ac_Auction ac)) (encodeCount (ac_Count ac));
      st_put (appendTimerKey (EventTime rec) (Key rec) windowStart) [].

(** The scan that finds the maxima of the due windows. *)
Definition hot_cb (k v : bytes) (a : gmap bytes hotWindow * option op_error) (s : S)
    : bool * ((gmap bytes hotWindow * option op_error) * S) :=
  let '(windows, scanErr) := a in
  match k with
  | [] => (false, ((windows, Some ErrZeroLengthKey), s))
  | p :: _ =>
      if bool_decide (p <> PrefixUserState) then (false, (a, s))
      else match parseHotItemKey k with
      | Err e => (false, ((windows, Some e), s))
      | Ok (windowKey, auction) =>
          match windows !! windowKey with
          | None => (true, (a, s))
          | Some w =>
              match DecodeCount v with
              | Err e => (false, ((windows, Some e), s))
              | Ok count => (true, ((<[windowKey := add_count auction count w]> windows, scanErr), s))
              end
          end
      end
  end.

Definition HotItems_purged (wm : Z) (stateKey : bytes) : result op_error bool :=
  p ← parseHotItemKey stateKey;
  start ← WindowKeyStart p.1;
  mret (HotItems_isPurged wm start).

Definition HotItems_purge (wm : Z) : Op S unit := purgeWindows (HotItems_purged wm).

(** One due window: its winners, in the order the scan met them. *)
Definition fire_hot (windows : gmap bytes hotWindow) (t : dueTimer) : Op S unit :=
  _ ← st_delete (stateKey t);
  let w := default (MkHotWindow 0 []) (windows !! key t) in
  if (length (winners w) =? 0)%nat then fail ErrFiredWithNoState
  else for_each (fun auction =>
         emit (NewRecord (NexmarkKey auction) (encodeCount (max w)) (HotItems_fireTimeOf (windowStart t))))
         (winners w).

Definition HotItems_ProcessWatermark (wm : Z) : Op S unit :=
  _ ← storeWatermark wm;
  due ← collectDue wm;
  if (length due =? 0)%nat then HotItems_purge wm
  else
    a ← st_iterate hot_cb (list_to_map ((fun t => (key t, MkHotWindow 0 [])) <$> due), None);
    match a.2 with
    | Some e => fail e
    | None => _ ← for_each (fire_hot a.1) due; HotItems_purge wm
    end.
End Code.

(** Without a keyed state there is nothing to count in. *)
Definition HotItems_Open (hasState : bool) : result op_error unit := needs_state hasState.

Definition HotItems_Operator (h : HotItems) : Operator := {|
  o_Open := HotItems_Open;
  o_ProcessElement S SE _ := HotItems_ProcessElement h;
  o_ProcessWatermark S SE _ := HotItems_ProcessWatermark h;
  o_OnEndOfStream S SE _ := mret tt;
  o_Snapshot := Err ErrNotSnapshottable;
  o_Restore _ := Err ErrNotSnapshottable;
  o_Close := Ok tt;
|}.

(** The scan deletes nothing: it is the decisions it takes. *)
Definition hot_visit (k v : bytes) (a : gmap bytes hotWindow * option op_error)
    : visit (gmap bytes hotWindow * option op_error) :=
  let '(windows, scanErr) := a in
  match k with
  | [] => Visit (windows, Some ErrZeroLengthKey) false false
  | p :: _ =>
      if bool_decide (p <> PrefixUserState) then Visit a false false
      else match parseHotItemKey k with
      | Err e => Visit (windows, Some e) false false
      | Ok (windowKey, auction) =>
          match windows !! windowKey with
          | None => Visit a false true
          | Some w =>
              match DecodeCount v with
              | Err e => Visit (windows, Some e) false false
              | Ok count => Visit (<[windowKey := add_count auction count w]> windows, scanErr) false true
              end
          end
      end
  end.

Lemma hot_cb_contract {S SE} `{KeyedState S SE} k v a (s : S) :
  hot_cb k v a s = contract_cb hot_visit k v a s.
Proof.
  destruct a as [ws e]. unfold hot_cb, contract_cb, hot_visit.
  destruct k as [|p k]; [done|]. repeat case_match; done.
Qed.

#[export] Instance HotItems_OperatorLaws h : OperatorLaws (HotItems_Operator h).
Proof.
  split; intros; cbn; [| |apply refines_ret].
  - unfold HotItems_ProcessElement. refine_tac.
  - unfold HotItems_ProcessWatermark, HotItems_purge. apply refines_bind; [auto with refines|intros _].
    apply refines_bind; [auto with refines|intros due]. case_match; [auto with refines|].
    apply refines_bind; [apply (refines_iterate _ _ hot_visit); intros; apply hot_cb_contract|intros a].
    unfold fire_hot. refine_tac.
Qed.
