(* ===== verification/NexmarkOracle.v ===== *)
(** The batch oracles of the Nexmark queries ([test/oracle/nexmark.go]): one
    pass over the events, with no watermark, timer or keyed state. *)
From S2P Require Import Prelude Core Oracle Nexmark.

(** A row of q0, q1 and q2: key, value and event time. *)
Abbreviation NexmarkRow := (bytes * bytes * Z)%type.

Inductive nexmark_oracle_error :=
| OracleSpec (e : oracle_error)
| OracleOpen (e : nexmark_error)
| OracleNext (e : nexmark_error)
| OracleValue (e : value_error)
| OracleDivisor.

Abbreviation answer := (result nexmark_oracle_error).

Definition rowOf (rec : Record_) : NexmarkRow := (Key rec, Value rec, EventTime rec).

(** [m[k]++] *)
Definition bump {K} `{Countable K} (m : gmap K Z) (k : K) : gmap K Z :=
  <[k := add64 (default 0 (m !! k)) 1]> m.

(** * Reading the source *)

Fixpoint read_loop {A} (fuel : nat) (visit : A -> Record_ -> answer A) (n : Nexmark) (a : A) : option (answer A) :=
  match fuel with
  | O => None
  | S fuel =>
      match Next n with
      | (Err e, _) => Some (Err (OracleNext e))
      | (Ok None, _) => Some (Ok a)
      | (Ok (Some rec), n) =>
          match visit a rec with
          | Err e => Some (Err e)
          | Ok a => read_loop fuel visit n a
          end
      end
  end.

(** One turn for each event and one for the end. *)
Definition readNexmark {A} (c : NexmarkConfig) (visit : A -> Record_ -> answer A) (a : A) : option (answer A) :=
  match Open (NewNexmark c) with
  | Err e => Some (Err (OracleOpen e))
  | Ok _ => read_loop (S (Z.to_nat (Count c))) visit (NewNexmark c) a
  end.

(** The same over a list of records. *)
Fixpoint over {A} (visit : A -> Record_ -> answer A) (recs : list Record_) (a : A) : answer A :=
  match recs with
  | [] => Ok a
  | rec :: recs => a ← visit a rec; over visit recs a
  end.

(** * The bids of a stream *)

(** What the accumulators begin with: an error, nothing, or the bid. *)
Definition with_bid {A} (rec : Record_) (a : A) (f : Bid -> answer A) : answer A :=
  match NexmarkTypeOf (Value rec) with
  | Err e => Err (OracleValue e)
  | Ok typ =>
      if negb (bool_decide (typ = EventBid)) then Ok a
      else match DecodeBid (Value rec) with
      | Err e => Err (OracleValue e)
      | Ok bid => f bid
      end
  end.

(** * q0, q1, q2 *)

Definition q0Accumulate (out : gmap NexmarkRow Z) (rec : Record_) : gmap NexmarkRow Z := bump out (rowOf rec).

Definition q1Accumulate (factor : Z) (out : gmap NexmarkRow Z) (rec : Record_) : answer (gmap NexmarkRow Z) :=
  with_bid rec out (fun bid =>
    let bid := MkBid (bid_Auction bid) (Bidder bid) (u64 (Price bid * factor)) (bid_DateTime bid) in
    Ok (bump out (Key rec, EncodeBid bid, EventTime rec))).

Definition q2Accumulate (divisor : Z) (out : gmap NexmarkRow Z) (rec : Record_) : answer (gmap NexmarkRow Z) :=
  with_bid rec out (fun bid =>
    if negb (bid_Auction bid mod divisor =? 0) then Ok out else Ok (bump out (rowOf rec))).

Definition NexmarkQ0 (c : NexmarkConfig) : option (answer (gmap NexmarkRow Z)) :=
  readNexmark c (fun out rec => Ok (q0Accumulate out rec)) ∅.
Definition NexmarkQ1 (c : NexmarkConfig) (factor : Z) : option (answer (gmap NexmarkRow Z)) :=
  readNexmark c (q1Accumulate factor) ∅.
Definition NexmarkQ2 (c : NexmarkConfig) (divisor : Z) : option (answer (gmap NexmarkRow Z)) :=
  if divisor =? 0 then Some (Err OracleDivisor) else readNexmark c (q2Accumulate divisor) ∅.

Definition q0Records (recs : list Record_) : gmap NexmarkRow Z := foldl q0Accumulate ∅ recs.
Definition q1Records (recs : list Record_) (factor : Z) : answer (gmap NexmarkRow Z) :=
  over (q1Accumulate factor) recs ∅.
Definition q2Records (recs : list Record_) (divisor : Z) : answer (gmap NexmarkRow Z) :=
  over (q2Accumulate divisor) recs ∅.

(** * q5: the auctions with the most bids in each window *)

(** A window start and an auction. *)
Abbreviation HotItemKey := (Z * Z)%type.

Record HotItem := MkHotItem {
  hi_WindowStart : Z;
  hi_Auction : Z;
  hi_Count : Z;
}.

Fixpoint q5_loop (slide : Z) (n : nat) (auction start : Z) (counts : gmap HotItemKey Z) : gmap HotItemKey Z :=
  match n with
  | O => counts
  | S n => q5_loop slide n auction (sub64 start slide) (bump counts (start, auction))
  end.

Definition q5Accumulate (spec : Spec) (counts : gmap HotItemKey Z) (rec : Record_) : answer (gmap HotItemKey Z) :=
  with_bid rec counts (fun bid =>
    let start := sub64 (EventTime rec) (floorMod (EventTime rec) (Slide spec)) in
    Ok (q5_loop (Slide spec) (Z.to_nat (Z.quot (Size spec) (Slide spec))) (bid_Auction bid) start counts)).

(** The best count of each window so far. *)
Definition q5_best (best : gmap Z Z) (kn : HotItemKey * Z) : gmap Z Z :=
  match best !! kn.1.1 with
  | Some cur => if cur <? kn.2 then <[kn.1.1 := kn.2]> best else best
  | None => <[kn.1.1 := kn.2]> best
  end.

Definition q5Select (counts : gmap HotItemKey Z) : gmap HotItemKey Z :=
  let best := foldl q5_best ∅ (map_to_list counts) in
  filter (fun kn => kn.2 = default 0 (best !! kn.1.1)) counts.

Definition lift_spec {A} (r : result oracle_error A) : answer A := wrap_err OracleSpec r.

Definition NexmarkQ5 (c : NexmarkConfig) (spec : Spec) : option (answer (gmap HotItemKey Z)) :=
  match check spec with
  | Err e => Some (Err (OracleSpec e))
  | Ok _ =>
      match readNexmark c (q5Accumulate spec) ∅ with
      | Some (Ok counts) => Some (Ok (q5Select counts))
      | r => r
      end
  end.

Definition q5Records (recs : list Record_) (spec : Spec) : answer (gmap HotItemKey Z) :=
  _ ← lift_spec (check spec);
  counts ← over (q5Accumulate spec) recs ∅;
  Ok (q5Select counts).

(** * q7: the highest bid of each window and auction *)

Abbreviation MaxBidKey := (Z * Z)%type.

(** A price and a bidder. *)
Abbreviation MaxBid := (Z * Z)%type.

Record MaxBidRow := MkMaxBidRow {
  mr_WindowStart : Z;
  mr_Auction : Z;
  mr_Price : Z;
  mr_Bidder : Z;
}.

(** This package's own comparison. *)
Definition BetterBid (price bidder auction price2 bidder2 auction2 : Z) : bool :=
  if negb (price =? price2) then price2 <? price
  else if negb (bidder =? bidder2) then bidder <? bidder2
  else auction <? auction2.

Definition q7Accumulate (size : Z) (out : gmap MaxBidKey MaxBid) (rec : Record_) : answer (gmap MaxBidKey MaxBid) :=
  with_bid rec out (fun bid =>
    let k := (sub64 (EventTime rec) (floorMod (EventTime rec) size), bid_Auction bid) in
    let replace :=
      match out !! k with
      | None => true
      | Some cur => BetterBid (Price bid) (Bidder bid) k.2 cur.1 cur.2 k.2
      end in
    Ok (if replace then <[k := (Price bid, Bidder bid)]> out else out)).

Definition NexmarkQ7 (c : NexmarkConfig) (size : Z) : option (answer (gmap MaxBidKey MaxBid)) :=
  match check (MkSpec size size) with
  | Err e => Some (Err (OracleSpec e))
  | Ok _ => readNexmark c (q7Accumulate size) ∅
  end.

Definition q7Records (recs : list Record_) (size : Z) : answer (gmap MaxBidKey MaxBid) :=
  _ ← lift_spec (check (MkSpec size size));
  over (q7Accumulate size) recs ∅.

(** * Sorted rows *)

(** [strings.Compare] *)
Definition compare_bytes (a b : bytes) : comparison :=
  if bool_decide (a = b) then Eq else if bytes_leb a b then Lt else Gt.

Definition then_compare (c d : comparison) : comparison := match c with Eq => d | _ => c end.

Definition CompareNexmarkRows (a b : NexmarkRow) : comparison :=
  then_compare (compare_bytes a.1.1 b.1.1) (then_compare (compare_bytes a.1.2 b.1.2) (Z.compare a.2 b.2)).

Definition CompareHotItems (a b : HotItem) : comparison :=
  then_compare (Z.compare (hi_WindowStart a) (hi_WindowStart b))
    (then_compare (Z.compare (hi_Auction a) (hi_Auction b)) (Z.compare (hi_Count a) (hi_Count b))).

Definition CompareMaxBids (a b : MaxBidRow) : comparison :=
  then_compare (Z.compare (mr_WindowStart a) (mr_WindowStart b))
    (then_compare (Z.compare (mr_Auction a) (mr_Auction b))
      (then_compare (Z.compare (mr_Price a) (mr_Price b)) (Z.compare (mr_Bidder a) (mr_Bidder b)))).

Definition row_le (a b : NexmarkRow) : Prop := CompareNexmarkRows a b <> Gt.
Definition hot_le (a b : HotItem) : Prop := CompareHotItems a b <> Gt.
Definition max_le (a b : MaxBidRow) : Prop := CompareMaxBids a b <> Gt.
#[export] Instance row_le_dec : RelDecision row_le.
Proof. intros a b. unfold row_le. apply _. Defined.
#[export] Instance hot_le_dec : RelDecision hot_le.
Proof. intros a b. unfold hot_le. apply _. Defined.
#[export] Instance max_le_dec : RelDecision max_le.
Proof. intros a b. unfold max_le. apply _. Defined.

Definition SortedNexmarkRows (m : gmap NexmarkRow Z) : list NexmarkRow :=
  merge_sort row_le (map_to_list m ≫= fun rn => replicate (Z.to_nat rn.2) rn.1).

Definition SortedHotItems (m : gmap HotItemKey Z) : list HotItem :=
  merge_sort hot_le ((fun kn => MkHotItem kn.1.1 kn.1.2 kn.2) <$> map_to_list m).

Definition SortedMaxBids (m : gmap MaxBidKey MaxBid) : list MaxBidRow :=
  merge_sort max_le ((fun kv => MkMaxBidRow kv.1.1 kv.1.2 kv.2.1 kv.2.2) <$> map_to_list m).
