(* ===== verification/MaxBidOracle.v ===== *)
(** Nexmark q7 against its batch oracle: the operator keeps the interface of
    [WindowRun], and over a stream in time it emits the oracle's rows. *)
From S2P Require Import Prelude Core State Operators WindowStore Window WindowRun Oracle.
From S2P Require Import Nexmark NexmarkSpec Transform MaxBid NexmarkOracle.
From S2P Require WindowOracle.

(** * Winning bids *)

Definition winning_ok (t : bytes * Z) (v : WinningBid) : Prop :=
  is_u64 (wb_Price v) /\ is_u64 (wb_Bidder v) /\ is_u64 (wb_Auction v).

Lemma DecodeWinningBid_Encode t v : winning_ok t v -> DecodeWinningBid (EncodeWinningBid v) = Ok v.
Proof.
  intros (Hp & Hb & Ha). unfold DecodeWinningBid, EncodeWinningBid.
  rewrite !length_app, !length_put_uint64. cbn [negb Nat.eqb winningBidBytes Nat.mul Nat.add].
  rewrite take_app_length' by by rewrite length_put_uint64.
  rewrite drop_app_length' by by rewrite length_put_uint64.
  rewrite take_app_length' by by rewrite length_put_uint64.
  rewrite app_assoc, drop_app_length' by by rewrite length_app, !length_put_uint64.
  rewrite !uint64_put', !u64_id by done. by destruct v.
Qed.

(** The order is strict and total: of two different bids exactly one is better. *)
Lemma betterBid_total a b : a <> b -> betterBid a b = negb (betterBid b a).
Proof.
  intros Hne. unfold betterBid. rewrite (Z.eqb_sym (wb_Price b)), (Z.eqb_sym (wb_Bidder b)).
  destruct (Z.eqb_spec (wb_Price a) (wb_Price b)); cbn [negb].
  2:{ destruct (Z.ltb_spec (wb_Price b) (wb_Price a)), (Z.ltb_spec (wb_Price a) (wb_Price b)); cbn; lia || done. }
  destruct (Z.eqb_spec (wb_Bidder a) (wb_Bidder b)); cbn [negb].
  2:{ destruct (Z.ltb_spec (wb_Bidder b) (wb_Bidder a)), (Z.ltb_spec (wb_Bidder a) (wb_Bidder b)); cbn; lia || done. }
  destruct (Z.ltb_spec (wb_Auction a) (wb_Auction b)), (Z.ltb_spec (wb_Auction b) (wb_Auction a)); cbn; try done; [lia|].
  destruct a, b; cbn in *. destruct Hne. f_equal; lia.
Qed.

Lemma betterBid_irrefl a : betterBid a a = false.
Proof. unfold betterBid. rewrite !Z.eqb_refl. cbn. apply Z.ltb_irrefl. Qed.

Lemma betterBid_trans a b c : betterBid a b = true -> betterBid b c = true -> betterBid a c = true.
Proof.
  unfold betterBid.
  destruct (Z.eqb_spec (wb_Price a) (wb_Price b)), (Z.eqb_spec (wb_Price b) (wb_Price c)),
    (Z.eqb_spec (wb_Price a) (wb_Price c)); cbn [negb]; rewrite ?Z.ltb_lt; try lia.
  destruct (Z.eqb_spec (wb_Bidder a) (wb_Bidder b)), (Z.eqb_spec (wb_Bidder b) (wb_Bidder c)),
    (Z.eqb_spec (wb_Bidder a) (wb_Bidder c)); cbn [negb]; rewrite ?Z.ltb_lt; lia.
Qed.

(** * The operator, abstractly *)

Definition candidate_of (bid : Bid) : WinningBid := MkWinningBid (Price bid) (Bidder bid) (bid_Auction bid).

Definition keep_better (c : WinningBid) (o : option WinningBid) : WinningBid :=
  match o with
  | Some cur => if negb (betterBid c cur) then cur else c
  | None => c
  end.

(** A record that decodes, and is keyed by its auction if it is a bid. *)
Definition bid_valid (rec : Record_) : Prop :=
  match bidOf rec with
  | Err _ => False
  | Ok None => True
  | Ok (Some bid) => Key rec = NexmarkKey (bid_Auction bid)
  end.

#[export] Instance bid_valid_dec rec : Decision (bid_valid rec).
Proof. unfold bid_valid. destruct (bidOf rec) as [[bid|]|]; apply _. Defined.

Lemma bidOf_ok rec bid : bidOf rec = Ok (Some bid) -> bid_ok bid.
Proof.
  unfold bidOf. destruct (NexmarkTypeOf _) as [t|]; [|done]. destruct (bool_decide _); [|done]. cbn [negb].
  destruct (DecodeBid _) as [b|] eqn:E; [|done]. intros [= <-]. by apply decode_bid in E as [? _].
Qed.

Lemma candidate_winning t bid : bid_ok bid -> winning_ok t (candidate_of bid).
Proof.
  intros [Hu _]. rewrite !Forall_cons in Hu. destruct Hu as (Ha & Hb & Hp & _). by split_and!.
Qed.

(** A tumbling window is a sliding one that slides by its size. *)
Definition tumbling (m : MaxBid.MaxBid) : WindowCount :=
  NewWindowCount (mb_size m) (mb_size m) (mb_allowedLateness m).

Definition max_row (w : WindowCount) (kv : (bytes * Z) * WinningBid) : Record_ :=
  NewRecord kv.1.1 (EncodeWinningBid kv.2) (fireTimeOf w kv.1.2).

Section MaxBid.
Context (m : MaxBid.MaxBid).
Local Abbreviation w := (tumbling m).
Context (Hw : spec_wf w).

Local Abbreviation rep := (rep (size w) EncodeWinningBid).

Definition max_updates (rec : Record_) : list (update WinningBid) :=
  match bidOf rec with
  | Ok (Some bid) => [((Key rec, windowStartOfTime m (EventTime rec)), keep_better (candidate_of bid))]
  | _ => []
  end.

Lemma windowStartOfTime_spec t : time_ok w t -> windowStartOfTime m t = t - t mod size w.
Proof.
  unfold time_ok. intros Ht. destruct Hw as [Hs Hl _ _]. cbn [size slide tumbling] in *.
  pose proof (Z.mod_pos_bound t (mb_size m) ltac:(lia)) as Hmod.
  unfold windowStartOfTime. rewrite floorMod_spec by (unfold_ints; lia).
  rewrite subFloor_spec, Z.max_l by (unfold_ints; lia). done.
Qed.

Lemma windowStart_pending t :
  time_ok w t -> is_i64 (windowStartOfTime m t) /\ t <= fireTimeOf w (windowStartOfTime m t).
Proof.
  intros Ht. rewrite windowStartOfTime_spec by done. pose proof Hw as [Hs Hl _ _].
  pose proof (Z.mod_pos_bound t (size w) ltac:(lia)) as Hmod. unfold time_ok in Ht.
  assert (is_i64 (t - t mod size w)) by (unfold_ints; lia).
  split; [done|]. rewrite fireTimeOf_spec by done. lia.
Qed.

Lemma keep_better_ok t c o :
  winning_ok t c -> (forall cur, o = Some cur -> winning_ok t cur) -> winning_ok t (keep_better c o).
Proof. intros Hc Ho. unfold keep_better. destruct o as [cur|]; [|done]. destruct (negb _); auto. Qed.

Lemma MaxBid_element_rep rec o st :
  bid_valid rec -> store_wf winning_ok st -> rep o st ->
  Forall (fun u => is_i64 u.1.2 /\ watermark st < fireTimeOf w u.1.2) (max_updates rec) ->
  let st' := foldl abs_update st (max_updates rec) in
  exists o', MaxBid_ProcessElement m rec o = (Ok tt, o') /\ rep o' st' /\
    op_dropped o' = op_dropped o /\ op_out o' = op_out o /\ store_wf winning_ok st'.
Proof.
  intros Hv Hwf Hr Hu. unfold MaxBid_ProcessElement, max_updates, bid_valid in *.
  destruct (bidOf rec) as [[bid|]|] eqn:Eb; [|by exists o|done].
  apply Forall_cons in Hu as [[Hs Hf] _]. cbn [fst snd] in Hs, Hf. cbn [foldl].
  set (start := windowStartOfTime m (EventTime rec)) in *.
  set (o0 := MkOp (op_state o) (op_dropped o) (add64 (op_onTime o) 1) (op_out o)).
  assert (rep o0 st) as Hr0 by done.
  pose proof (bidOf_ok _ _ Eb) as Hbid. pose proof (candidate_winning (Key rec, start) _ Hbid) as Hc.
  set (v := keep_better (candidate_of bid) (agg st !! (Key rec, start))).
  assert (winning_ok (Key rec, start) v) as Hok.
  { apply keep_better_ok; [done|]. intros cur Hcur. by apply (wf_ok _ _ Hwf). }
  destruct (put_agg_rep _ _ (Key rec) start v _ _ Hs Hr0) as (o1 & E1 & Hr1 & Hd1 & _ & Ho1).
  destruct (put_timer_rep _ _ (Key rec) start _ _ Hs Hr1) as (o2 & E2 & Hr2 & Hd2 & _ & Ho2).
  change (op_dropped o0) with (op_dropped o) in Hd1. change (op_out o0) with (op_out o) in Ho1.
  exists o2. split; [|split_and!; [done|congruence|congruence|by apply store_wf_update]].
  refine (eq_trans (bind_run _ _ _ _ _ eq_refl) _). cbv beta iota.
  refine (eq_trans (bind_run _ _ _ _ _ (loadWatermark_rep _ _ _ _ Hr)) _). cbv beta zeta. fold start.
  change (MaxBid_isPurged m) with (isPurged w). rewrite (not_due_not_purged w Hw) by done.
  refine (eq_trans (bind_run _ _ _ _ o0 eq_refl) _). cbv beta.
  refine (eq_trans (bind_run _ _ _ _ _ (get_agg_rep _ _ (Key rec) start _ _ Hs Hr0)) _). cbv beta.
  refine (eq_trans (bind_run _ _ _ v o0 _) _).
  2:{ cbv beta. refine (eq_trans (bind_run _ _ _ _ _ E1) _). exact E2. }
  subst v. destruct (agg st !! (Key rec, start)) as [cur|] eqn:Ecur; [|done].
  refine (eq_trans (bind_run _ _ _ cur o0 _) _); [|done].
  cbn. unfold lift. by rewrite (DecodeWinningBid_Encode (Key rec, start) cur) by by apply (wf_ok _ _ Hwf).
Qed.

Lemma MaxBid_fire_rep k s v o st :
  is_i64 s -> rep o st -> agg st !! (k, s) = Some v -> winning_ok (k, s) v ->
  MaxBid_fire m k s o = (Ok tt, MkOp (op_state o) (op_dropped o) (op_onTime o)
    (op_out o ++ [max_row w ((k, s), v)])).
Proof.
  intros Hs Hr Hc Hok. unfold MaxBid_fire, mbind, Op_bind, M_bind.
  rewrite (get_agg_rep _ _ _ _ _ _ Hs Hr), Hc. cbn [fmap option_fmap option_map]. unfold lift.
  by rewrite (DecodeWinningBid_Encode (k, s) v).
Qed.

Lemma MaxBid_purged_state wm k s :
  is_i64 s -> MaxBid_purged m wm (appendStateKey k s) = Ok (isPurged w wm s).
Proof. intros Hs. unfold MaxBid_purged. by rewrite windowStartOf_stateKey. Qed.
End MaxBid.

Program Definition max_windowed (m : MaxBid.MaxBid) (Hw : spec_wf (tumbling m))
    : Windowed (MaxBid_Operator m) (tumbling m) WinningBid := {|
  wd_enc := EncodeWinningBid;
  wd_default := MkWinningBid 0 0 0;
  wd_row := max_row (tumbling m);
  wd_ok := winning_ok;
  wd_valid := bid_valid;
  wd_updates := max_updates m;
|}.
Next Obligation. done. Qed.
Next Obligation.
  intros m Hw rec u Hv Ht. unfold max_updates. destruct (bidOf rec) as [[bid|]|]; [|by intros ?%elem_of_nil..].
  intros ->%list_elem_of_singleton. by apply windowStart_pending.
Qed.
Next Obligation. intros m Hw rec o st Hv Hwf Hr Hu. by apply MaxBid_element_rep. Qed.
Next Obligation.
  intros m Hw wm o st Hwm Hwf Hr.
  apply (fire_due_rep (tumbling m) Hw EncodeWinningBid (MkWinningBid 0 0 0) (max_row (tumbling m)) winning_ok
    (MaxBid_fire m) (MaxBid_purged m wm) wm (MaxBid_fire_rep m) (MaxBid_purged_state m wm)); done.
Qed.
Solve Obligations with done.

(** * The oracle's rows *)

Lemma NexmarkKey_inj a b : is_u64 a -> is_u64 b -> NexmarkKey a = NexmarkKey b -> a = b.
Proof. intros Ha Hb E%put_uint64_inj. by rewrite !u64_id in E. Qed.

Definition max_bid (a : Z) (pb : NexmarkOracle.MaxBid) : WinningBid := MkWinningBid pb.1 pb.2 a.

(** The operators' aggregates and the oracles' are the same: by key and start
    the one, by start and auction the other. *)
Record same_items {A B} (f : Z -> B -> A) (m : gmap (bytes * Z) A) (out : gmap (Z * Z) B) : Prop := {
  si_lookup a s : is_u64 a -> m !! (NexmarkKey a, s) = f a <$> out !! (s, a);
  si_keys k s : is_Some (m !! (k, s)) -> exists a, is_u64 a /\ k = NexmarkKey a;
  si_auctions s a : is_Some (out !! (s, a)) -> is_u64 a;
}.
Abbreviation same_bids := (same_items max_bid).

Section SameItems.
Context {A B : Type} (f : Z -> B -> A).

Lemma same_items_empty : same_items f ∅ ∅.
Proof. split; [done|by intros k s [? ?%lookup_empty_Some]|by intros s a [? ?%lookup_empty_Some]]. Qed.

Lemma same_items_insert m out a s v :
  is_u64 a -> same_items f m out -> same_items f (<[(NexmarkKey a, s) := f a v]> m) (<[(s, a) := v]> out).
Proof.
  intros Ha [Hl Hk Hu]. split.
  - intros a' s' Ha'. destruct (decide ((s, a) = (s', a'))) as [[= -> ->]|Hne].
    + by rewrite !lookup_insert_eq.
    + rewrite !lookup_insert_ne; [by apply Hl|done|].
      intros E. assert (NexmarkKey a = NexmarkKey a') as E1 by exact (f_equal fst E).
      assert (s = s') as E2 by exact (f_equal snd E). apply NexmarkKey_inj in E1; [|done..]. congruence.
  - intros k s'. rewrite lookup_insert. case_decide as E; [|apply Hk]. exists a. split; [done|]. exact (eq_sym (f_equal fst E)).
  - intros s' a'. rewrite lookup_insert. case_decide as E; [|apply Hu]. assert (a = a') as <- by exact (f_equal snd E). done.
Qed.

Lemma same_items_rows m out (row : (bytes * Z) * A -> Record_) :
  same_items f m out ->
  row <$> map_to_list m ≡ₚ (fun kv => row ((NexmarkKey kv.1.2, kv.1.1), f kv.1.2 kv.2)) <$> map_to_list out.
Proof.
  intros [Hl Hk Hu]. set (g := fun kv : (Z * Z) * B => ((NexmarkKey kv.1.2, kv.1.1), f kv.1.2 kv.2)).
  change ((fun kv => row ((NexmarkKey kv.1.2, kv.1.1), f kv.1.2 kv.2)) <$> map_to_list out)
    with (row ∘ g <$> map_to_list out). rewrite list_fmap_compose. apply fmap_Permutation.
  apply NoDup_Permutation; [apply NoDup_map_to_list| |].
  - apply NoDup_fmap_2_strong; [|apply NoDup_map_to_list].
    intros [[s a] v] [[s' a'] v'] H1%elem_of_map_to_list H2%elem_of_map_to_list E.
    pose proof (f_equal (fun x => x.1.1) E) as Ea. pose proof (f_equal (fun x => x.1.2) E) as Es. cbn in Ea, Es. subst s'.
    apply NexmarkKey_inj in Ea; [|by eapply Hu..]. subst a'. congruence.
  - intros [[k s] v]. rewrite elem_of_map_to_list, list_elem_of_fmap. unfold g. split.
    + intros Hm. destruct (Hk k s) as (a & Ha & ->); [by eexists|]. rewrite Hl in Hm by done.
      destruct (out !! (s, a)) as [pb|] eqn:E; [|done]. injection Hm as <-.
      exists ((s, a), pb). split; [done|]. by apply elem_of_map_to_list.
    + intros ([[s' a] pb] & E & Hout%elem_of_map_to_list).
      assert (v = f a pb) as -> by exact (f_equal snd E).
      assert (k = NexmarkKey a) as -> by exact (f_equal (fun x => x.1.1) E).
      assert (s = s') as -> by exact (f_equal (fun x => x.1.2) E).
      rewrite Hl by (apply (Hu s'); by eexists). by rewrite Hout.
Qed.
End SameItems.

Section Oracle.
Context (m : MaxBid.MaxBid) (Hw : spec_wf (tumbling m)).

Lemma with_bid_valid {A} rec (a : A) f :
  bid_valid rec ->
  with_bid rec a f = match bidOf rec with Ok (Some bid) => f bid | _ => Ok a end.
Proof.
  unfold bid_valid, with_bid, bidOf. destruct (NexmarkTypeOf (Value rec)) as [t|]; [|done].
  destruct (bool_decide (t = EventBid)); [|done]. cbn [negb]. by destruct (DecodeBid (Value rec)).
Qed.

Lemma q7_step rec tot out :
  bid_valid rec -> time_ok (tumbling m) (EventTime rec) -> same_bids tot out ->
  exists out', q7Accumulate (mb_size m) out rec = Ok out' /\
    same_bids (foldl apply_update tot (max_updates m rec)) out'.
Proof.
  intros Hv Ht Hs. unfold q7Accumulate. rewrite with_bid_valid by done. unfold max_updates, bid_valid in *.
  destruct (bidOf rec) as [[bid|]|] eqn:Eb; [|by exists out|done]. cbn [foldl]. unfold apply_update.
  cbn [fst snd]. rewrite Hv. pose proof (bidOf_ok _ _ Eb) as [Hu _]. rewrite !Forall_cons in Hu. destruct Hu as (Ha & _).
  assert (sub64 (EventTime rec) (Oracle.floorMod (EventTime rec) (mb_size m)) = windowStartOfTime m (EventTime rec)) as ->.
  { rewrite windowStartOfTime_spec by done. unfold time_ok in Ht. destruct Hw as [Hsz _ _ _]. cbn [size tumbling] in *.
    change (Oracle.floorMod ?a ?b) with (Operators.floorMod a b).
    pose proof (Z.mod_pos_bound (EventTime rec) (mb_size m) ltac:(lia)) as Hmod.
    rewrite floorMod_spec by (unfold_ints; lia). by rewrite sub64_id by (unfold_ints; lia). }
  set (s := windowStartOfTime m (EventTime rec)). eexists. split; [done|]. cbn [fst snd].
  rewrite (si_lookup _ _ _ Hs) by done.
  destruct (out !! (s, bid_Auction bid)) as [[p b]|] eqn:Eo; cbn [fmap option_fmap option_map keep_better];
    [|by apply (same_items_insert max_bid _ _ _ _ (Price bid, Bidder bid))].
  cbn [fst snd].
  assert (BetterBid (Price bid) (Bidder bid) (bid_Auction bid) p b (bid_Auction bid) =
    betterBid (candidate_of bid) (max_bid (bid_Auction bid) (p, b))) as -> by done.
  destruct (betterBid _ _); cbn [negb]; [by apply (same_items_insert max_bid _ _ _ _ (Price bid, Bidder bid))|].
  rewrite insert_id; [done|]. by rewrite (si_lookup _ _ _ Hs), Eo by done.
Qed.

Lemma q7_total recs :
  Forall bid_valid recs -> Forall (fun rec => time_ok (tumbling m) (EventTime rec)) recs ->
  exists out, q7Records recs (mb_size m) = Ok out /\ same_bids (total (max_windowed m Hw) recs ∅) out.
Proof.
  intros Hv Ht. unfold q7Records.
  change (MkSpec (mb_size m) (mb_size m)) with (WindowOracle.oracle_spec (tumbling m)).
  rewrite WindowOracle.check_oracle_spec by done. cbn [lift_spec wrap_err mbind result_bind].
  pose proof (same_items_empty max_bid) as H0.
  unfold total. revert H0. generalize (∅ : gmap MaxBidKey NexmarkOracle.MaxBid), (∅ : gmap (bytes * Z) WinningBid).
  revert Ht. induction Hv as [|rec recs Hv _ IH]; intros Ht out tot H0; [by exists out|].
  apply Forall_cons in Ht as [Ht Hts]. cbn [over foldl].
  destruct (q7_step rec tot out Hv Ht H0) as (out1 & -> & H1). cbn [mbind result_bind]. by apply IH.
Qed.
End Oracle.

(** The row of the oracle as the record q7 emits for it. *)
Definition q7_row (w : WindowCount) (kv : MaxBidKey * NexmarkOracle.MaxBid) : Record_ :=
  NewRecord (NexmarkKey kv.1.2) (EncodeWinningBid (max_bid kv.1.2 kv.2)) (fireTimeOf w kv.1.1).

(** C12. q7 finds the highest bids: over any keyed state that keeps its contract,
    a stream of events of the source's layout, bids, auctions and persons, whose
    bids are never behind a delivered watermark, is processed without an error
    and without a dropped bid, and what is emitted is, up to order, one record
    per row of the oracle, which finds the best bid of each auction and window
    by one pass over the bids, ties going to the lowest bidder. *)
Theorem max_bid_matches_oracle m {S SE} `{KeyedStateLaws S SE} (s : S) l :
  spec_wf (tumbling m) -> ks_view s = ∅ ->
  Forall bid_valid (l ≫= event_record) -> in_time (tumbling m) min_int64 l ->
  let out := run_events (MaxBid_Operator m) (l ++ [EvWatermark max_int64]) (fresh_op s) in
  op_err out.2 = None ->
  out.1 = Ok tt /\ op_dropped out.2 = 0 /\
  exists best, q7Records (l ≫= event_record) (mb_size m) = Ok best /\
    op_out out.2 ≡ₚ q7_row (tumbling m) <$> map_to_list best.
Proof.
  intros Hw Hs Hv Hl out He.
  destruct (windowed_run_any (max_windowed m Hw) s l Hs Hv Hl He) as (E & Hd & Ho).
  destruct (q7_total m Hw (l ≫= event_record) Hv) as (best & Hb & Hsame); [by eapply WindowOracle.in_time_times|].
  split; [done|]. split; [done|]. exists best. split; [done|].
  rewrite (Ho : op_out out.2 ≡ₚ _). exact (same_items_rows max_bid _ _ (max_row (tumbling m)) Hsame).
Qed.

(** Two bids on one auction, one on another, and an auction's own event. *)
Definition sample_bid (auction bidder price t : Z) : event :=
  EvElement (NewRecord (NexmarkKey auction) (EncodeBid (MkBid auction bidder price t)) t).

Definition sample_bids : list event :=
  [sample_bid 7 1 50 3; sample_bid 7 2 90 5; EvWatermark 2;
   EvElement (NewRecord (NexmarkKey 9) (EncodeAuction (MkAuction 9 1 1 1 1 1 1)) 4);
   sample_bid 8 3 10 6; sample_bid 7 4 90 12].

Lemma max_bid_matches_oracle_witness :
  let m := MaxBid.MkMaxBid 10 0 in
  let out := run_events (MaxBid_Operator m) (sample_bids ++ [EvWatermark max_int64]) (fresh_op NewMemory) in
  out.1 = Ok tt /\ op_dropped out.2 = 0 /\
  exists best, q7Records (sample_bids ≫= event_record) (mb_size m) = Ok best /\
    op_out out.2 ≡ₚ q7_row (tumbling m) <$> map_to_list best.
Proof.
  apply (max_bid_matches_oracle (MaxBid.MkMaxBid 10 0) NewMemory sample_bids).
  - split; cbn; [unfold max_int64; lia..|by exists 1|unfold max_int64; lia].
  - reflexivity.
  - refine (bool_decide_eq_true_1 _ _). vm_compute. reflexivity.
  - repeat split; cbn; unfold min_int64, max_int64; lia.
  - vm_compute. reflexivity.
Defined.
