(* ===== verification/Pipeline.v ===== *)
(** Operators one after the other: what one forwards, records and watermarks, is
    what the next is delivered. *)
From S2P Require Import Prelude Core State Operators WindowStore Window WindowRun Transform.

(** * One operator *)

Section Stage.
Context {S SE : Type} `{KeyedState S SE}.

(** What a call has emitted. *)
Definition new_out (o o' : OpState S) : list event := EvElement <$> drop (length (op_out o)) (op_out o').

(** A watermark is sent on after what it made the operator emit. *)
Definition sent_on (e : event) : list event := match e with EvElement _ => [] | EvWatermark _ => [e] end.

Fixpoint stage (op : Operator) (l : list event) (o : OpState S) : result op_error (list event) * OpState S :=
  match l with
  | [] => (Ok [], o)
  | e :: l =>
      match run_event op e o with
      | (Err x, o') => (Err x, o')
      | (Ok _, o') => let '(r, o'') := stage op l o' in (app (new_out o o' ++ sent_on e) <$> r, o'')
      end
  end.

(** Each operator over a state of its own: what the last sends on, and the
    states that are left. *)
Fixpoint chain (ops : list Operator) (s : S) (l : list event) : result op_error (list event) * list (OpState S) :=
  match ops with
  | [] => (Ok l, [])
  | op :: ops =>
      match stage op l (fresh_op s) with
      | (Err x, o) => (Err x, [o])
      | (Ok l', o) => let '(r, os) := chain ops s l' in (r, o :: os)
      end
  end.

Lemma stage_run op l (o : OpState S) :
  run_events op l o = (match (stage op l o).1 with Ok _ => Ok tt | Err x => Err x end, (stage op l o).2).
Proof.
  revert o. induction l as [|e l IH]; intros o; [done|]. unfold run_events. rewrite for_each_cons. cbn [stage].
  destruct (run_event op e o) as [[u|x] o']; [|done]. fold (run_events op l o'). rewrite IH.
  by destruct (stage op l o') as [[l'|x] o''].
Qed.
End Stage.

Lemma refines_run_event op `{!OperatorLaws op} {S SE} `{KeyedStateLaws S SE} e :
  refines (run_event op e : Op S _) (run_event op e).
Proof. destruct e; [apply ol_element|apply ol_watermark]. Qed.

Lemma stage_err op `{!OperatorLaws op} {S SE} `{KeyedStateLaws S SE} l (o : OpState S) :
  op_err (stage op l o).2 = None -> op_err o = None.
Proof.
  intros He. destruct (refines_run_events op l o (fresh_op NewMemory)) as [Hn _]; [|done]. by rewrite stage_run.
Qed.

(** Over any backend that reports no error a stage is what it is over a map. *)
Lemma stage_any op `{!OperatorLaws op} {S SE} `{KeyedStateLaws S SE} l (o : OpState S) om :
  op_err (stage op l o).2 = None -> op_rel o om ->
  (stage op l o).1 = (stage op l om).1 /\ op_rel (stage op l o).2 (stage op l om).2.
Proof.
  revert o om. induction l as [|e l IH]; intros o om He Hrel; [done|]. cbn [stage] in *.
  pose proof (refines_rel _ _ o om (refines_run_event op e)) as Hr. unfold new_out.
  assert (op_out o = op_out om) as Ho by (by destruct Hrel as (_ & _ & _ & ?)).
  destruct (run_event op e o) as [[u|x] o1]; destruct (run_event op e om) as [r om1]; cbn [fst snd] in Hr.
  - specialize (IH o1 om1). pose proof (stage_err op l o1) as Hn. destruct (stage op l o1) as [r1 o2]. cbn [fst snd] in *.
    destruct Hr as [<- Hrel1]; [by apply Hn|done|]. destruct (IH He Hrel1) as [E Hrel2].
    destruct (stage op l om1) as [r2 om2]. cbn [fst snd] in *. split; [|done]. subst r2.
    assert (op_out o1 = op_out om1) as -> by (by destruct Hrel1 as (_ & _ & _ & ?)). by rewrite Ho.
  - by destruct Hr as [<- Hrel1].
Qed.

(** The records sent on are those emitted. *)
Lemma stage_out op `{!OperatorLaws op} l (o : OpState Memory) l' o' :
  stage op l o = (Ok l', o') -> op_out o' = op_out o ++ (l' ≫= event_record).
Proof.
  revert o l'. induction l as [|e l IH]; intros o l' E; [injection E as <- <-; by rewrite app_nil_r|]. cbn [stage] in E.
  destruct (refines_run_event op e o o) as [_ [_ _ (d & Hd & _) _ _]]; [done|done|].
  destruct (run_event op e o) as [[u|x] o1]; [|done]. cbn [snd] in Hd.
  destruct (stage op l o1) as [[l1|x] o2] eqn:E1; [|done]. injection E as <- <-. rewrite (IH _ _ E1), Hd, <- app_assoc.
  f_equal. unfold new_out. rewrite Hd, drop_app_length. rewrite <- app_assoc, bind_app. f_equal.
  - clear. induction d as [|r d IHd]; [done|]. cbn. by f_equal.
  - by destruct e.
Qed.

(** ** A map *)

(** A stream whose records are replaced by those of [g]. *)
Definition ev_map (g : Record_ -> list Record_) (l : list event) : list event :=
  l ≫= fun e => match e with EvElement rec => EvElement <$> g rec | EvWatermark _ => [e] end.

Lemma ev_map_records g l : ev_map g l ≫= event_record = (l ≫= event_record) ≫= g.
Proof.
  unfold ev_map. induction l as [|e l IH]; [done|]. rewrite !bind_cons, !bind_app, IH. f_equal.
  destruct e as [rec|wm]; [|done]. cbn. rewrite app_nil_r. induction (g rec) as [|r k IHk]; [done|]. cbn. by f_equal.
Qed.

Lemma ev_map_app g l k : ev_map g (l ++ k) = ev_map g l ++ ev_map g k.
Proof. apply bind_app. Qed.

Lemma front_of_app front l k : front_of front (l ++ k) = front_of (front_of front l) k.
Proof. apply foldl_app. Qed.

Lemma front_of_elements front (k : list Record_) : front_of front (EvElement <$> k) = front.
Proof. by induction k. Qed.

Lemma ev_map_front g front l : front_of front (ev_map g l) = front_of front l.
Proof.
  revert front. induction l as [|e l IH]; intros front; [done|].
  change (e :: l) with ([e] ++ l). rewrite ev_map_app, !front_of_app, IH. f_equal. destruct e as [rec|wm]; [|done].
  cbn. rewrite app_nil_r. apply front_of_elements.
Qed.

(** The outputs of a map that never fails. *)
Definition outputs (m : Map) (rec : Record_) : list Record_ :=
  match fn m rec with Ok out => option_list out | Err _ => [] end.

Lemma stage_map m {S SE} `{KeyedState S SE} l (o : OpState S) :
  Forall (fun rec => is_ok (fn m rec) = true) (l ≫= event_record) ->
  exists out, stage (Map_Operator m) l o =
    (Ok (ev_map (outputs m) l), MkOp (op_state o) (op_dropped o) (op_onTime o) out).
Proof.
  revert o. induction l as [|e l IH]; intros o Hl; [exists (op_out o); by destruct o|].
  rewrite bind_cons in Hl. apply Forall_app in Hl as [He Hl]. cbn [stage]. unfold ev_map. rewrite bind_cons. fold (ev_map (outputs m) l).
  assert (forall k, new_out o (MkOp (op_state o) (op_dropped o) (op_onTime o) (op_out o ++ k)) = EvElement <$> k) as Hnew.
  { intros k. unfold new_out. cbn [op_out]. by rewrite drop_app_length. }
  assert (new_out o o = []) as Hnil by (unfold new_out; by rewrite drop_all).
  destruct e as [rec|wm]; cbn [run_event o_ProcessElement o_ProcessWatermark Map_Operator].
  - cbn [event_record] in He. apply Forall_cons in He as [Hok _]. unfold Map_ProcessElement, mbind at 1, Op_bind, M_bind, lift, outputs.
    destruct (fn m rec) as [[out|]|]; [| |done]; cbn [option_list].
    + cbn [emit]. rewrite Hnew. destruct (IH (MkOp (op_state o) (op_dropped o) (op_onTime o) (op_out o ++ [out])) Hl) as (k & ->).
      exists k. done.
    + cbv [mret Op_ret M_ret]. rewrite Hnil.
      destruct (IH o Hl) as (k & ->). by exists k.
  - cbv [no_output mret Op_ret M_ret]. rewrite Hnil.
    destruct (IH o Hl) as (k & ->). by exists k.
Qed.

(** * Streams in time *)

(** No record is behind a watermark that came before it. *)
Fixpoint ahead (front : Z) (l : list event) : Prop :=
  match l with
  | [] => True
  | EvElement rec :: l => front < EventTime rec /\ ahead front l
  | EvWatermark wm :: l => is_i64 wm /\ ahead (Z.max front wm) l
  end.

Lemma ahead_elements front (k : list Record_) l :
  ahead front ((EvElement <$> k) ++ l) <-> Forall (fun r => front < EventTime r) k /\ ahead front l.
Proof.
  induction k as [|r k IH]; cbn [fmap list_fmap app ahead]; [split; [by split|by intros [_ ?]]|].
  rewrite IH, Forall_cons. tauto.
Qed.

Lemma ahead_map g front l :
  (forall rec r, r ∈ g rec -> EventTime r = EventTime rec) -> ahead front l -> ahead front (ev_map g l).
Proof.
  intros Hg. revert front. induction l as [|e l IH]; intros front Hl; [done|].
  unfold ev_map. rewrite bind_cons. fold (ev_map g l). destruct e as [rec|wm].
  - destruct Hl as [Ht Hl]. apply ahead_elements. split; [|by apply IH]. apply Forall_forall. intros r ->%Hg. done.
  - destruct Hl as [Hwm Hl]. split; [done|by apply IH].
Qed.

Lemma in_time_sub w g front l :
  (forall rec, g rec = [rec] \/ g rec = []) -> in_time w front l -> in_time w front (ev_map g l).
Proof.
  intros Hg. revert front. induction l as [|e l IH]; intros front Hl; [done|].
  unfold ev_map. rewrite bind_cons. fold (ev_map g l). destruct e as [rec|wm].
  - destruct Hl as (Ht & Hok & Hl). destruct (Hg rec) as [-> | ->]; cbn; auto.
  - destruct Hl as [Hwm Hl]. split; [done|by apply IH].
Qed.

(** ** A windowed operator *)

Section Windowed.
Context {op : Operator} `{!OperatorLaws op} {w : WindowCount} {V : Type} (I : Windowed op w V).
Context (row_time : forall kv, EventTime (wd_row I kv) = fireTimeOf w kv.1.2).

(** What it sends on is in time: a window fires once the watermark reaches its
    last instant, and had not before. *)
Lemma windowed_ahead l front m o st l' o' :
  Forall (wd_valid I) (l ≫= event_record) -> in_time w front l -> described I front m o st ->
  stage op l o = (Ok l', o') -> ahead front l' /\ front_of front l' = front_of front l.
Proof.
  revert front m o st l'. induction l as [|e l IH]; intros front m o st l' Hv Hl Hd E; [by injection E as <- <-|].
  rewrite bind_cons in Hv. apply Forall_app in Hv as [Hve Hv]. apply in_time_cons in Hl as [Hle Hl].
  destruct (windowed_event I e front m o st Hve Hle Hd) as (o1 & st1 & emitted & E1 & Hd1 & Ho1 & Hem).
  cbn [stage] in E. rewrite E1 in E. destruct (stage op l o1) as [[l1|x] o2] eqn:E2; [|done]. injection E as <- <-.
  destruct (IH _ _ _ _ _ Hv Hl Hd1 E2) as [Ha Hf]. unfold new_out. rewrite Ho1, drop_app_length, <- app_assoc.
  assert (Forall (fun r => front < EventTime r) emitted) as Ht.
  { eapply Forall_impl; [exact Hem|]. intros r (t & v & -> & Hlt). rewrite row_time. exact Hlt. }
  rewrite ahead_elements, !front_of_app, front_of_elements.
  destruct e as [rec|wm]; cbn [sent_on app]; (split; [split; [exact Ht|]|]).
  - exact Ha.
  - exact Hf.
  - split; [exact Hle|exact Ha].
  - exact Hf.
Qed.

(** The whole of a stream that is closed by the final watermark. *)
Lemma windowed_stage l :
  Forall (wd_valid I) (l ≫= event_record) -> in_time w min_int64 l ->
  exists l' o, stage op (l ++ [EvWatermark max_int64]) (fresh_op NewMemory) = (Ok l', o) /\ op_dropped o = 0 /\
    l' ≫= event_record ≡ₚ wd_row I <$> map_to_list (total I (l ≫= event_record) ∅) /\
    ahead min_int64 l' /\ max_int64 <= front_of min_int64 l'.
Proof.
  intros Hv Hl. destruct (windowed_run I l Hv Hl) as (o & E & Hd & Ho). rewrite stage_run in E.
  destruct (stage op (l ++ _) _) as [[l'|x] o'] eqn:Es; [|done]. injection E as <-.
  exists l', o'. split; [done|]. split; [done|]. rewrite (stage_out op _ _ _ _ Es) in Ho. split; [exact Ho|].
  destruct (windowed_ahead (l ++ [EvWatermark max_int64]) min_int64 ∅ _ empty_store l' o' ltac:(rewrite bind_app, app_nil_r; exact Hv)
    (in_time_close w _ _ Hl) (described_fresh I) Es) as [Ha Hf].
  split; [exact Ha|]. rewrite Hf, front_of_app. cbn. lia.
Qed.
End Windowed.

(** * Chains over any backend *)

Lemma chain_any ops {S SE} `{KeyedStateLaws S SE} (s : S) l :
  Forall OperatorLaws ops -> ks_view s = ∅ -> Forall (fun o => op_err o = None) (chain ops s l).2 ->
  (chain ops s l).1 = (chain ops NewMemory l).1 /\
  op_dropped <$> (chain ops s l).2 = op_dropped <$> (chain ops NewMemory l).2.
Proof.
  intros Hops Hs. revert l. induction Hops as [|op ops Hop _ IH]; intros l He; [done|]. cbn [chain] in *.
  pose proof (stage_any op l (fresh_op s) (fresh_op NewMemory)) as Hst.
  destruct (stage op l (fresh_op s)) as [[l'|x] o].
  - specialize (IH l'). destruct (chain ops s l') as [r os]. cbn [fst snd] in *.
    apply Forall_cons in He as [He Hes]. destruct Hst as [E (_ & Hd & _)]; [done|by split_and!|].
    destruct (stage op l (fresh_op NewMemory)) as [r' om]. cbn [fst snd] in *. subst r'.
    destruct (IH Hes) as [E1 E2]. destruct (chain ops NewMemory l') as [r' oms]. cbn [fst snd] in *.
    split; [done|]. cbn. congruence.
  - cbn [fst snd] in *. apply Forall_cons in He as [He _]. destruct Hst as [E (_ & Hd & _)]; [done|by split_and!|].
    destruct (stage op l (fresh_op NewMemory)) as [r' om]. cbn [fst snd] in *. subst r'. split; [done|]. cbn. congruence.
Qed.
