(* ===== verification/HotItemsSpec.v ===== *)
(** Nexmark q5's second stage against the oracle's selection: over any keyed
    state, and a stream of counts in time, it emits for each window the auctions
    with the highest count. *)
From S2P Require Import Prelude Core State Operators WindowStore Window WindowRun Nexmark Transform Pipeline HotItems NexmarkOracle.

(** * The running maximum *)

Definition no_winners : hotWindow := MkHotWindow 0 [].

Definition add_all (l : list (Z * Z)) (w : hotWindow) : hotWindow :=
  foldl (fun w ac => add_count ac.1 ac.2 w) w l.

(** The maximum is one of the counts and none is above it; the winners are those
    that have it, in order. *)
Lemma add_all_winners l :
  l <> [] ->
  let w := add_all l no_winners in
  (exists a, (a, max w) ∈ l) /\ (forall ac, ac ∈ l -> ac.2 <= max w) /\
  winners w = (filter (fun ac => ac.2 = max w) l).*1.
Proof.
  induction l as [|[a c] l IH] using rev_ind; [done|]. intros _. cbv zeta.
  unfold add_all in *. rewrite foldl_snoc. cbn [fst snd]. destruct (decide (l = [])) as [->|Hne].
  { cbn. rewrite decide_True by done. split_and!; [exists a; by left|set_solver by lia|done]. }
  destruct (IH Hne) as ((b & Hb) & Hle & Hw). set (w := foldl _ _ l) in *. cbv zeta in *.
  assert ((length (winners w) =? 0)%nat = false) as Hlen.
  { apply Nat.eqb_neq. rewrite Hw, length_fmap. intros E%length_zero_iff_nil.
    assert ((b, max w) ∈ filter (fun ac => ac.2 = max w) l) as Hf by (by apply list_elem_of_filter).
    rewrite E in Hf. by apply elem_of_nil in Hf. }
  unfold add_count. rewrite Hlen. cbn [orb]. destruct (Z.ltb_spec (max w) c) as [Hlt|Hge]; cbn [max winners].
  - split_and!; [exists a; apply elem_of_app; right; by left| |].
    + intros ac [Hin%Hle| ->%list_elem_of_singleton]%elem_of_app; cbn; lia.
    + rewrite filter_app, filter_none; [by rewrite filter_cons_True|].
      intros ac Hin%Hle. lia.
  - destruct (Z.eqb_spec c (max w)) as [->|Hc]; cbn [max winners].
    + split_and!; [exists a; apply elem_of_app; right; by left| |].
      * intros ac [Hin%Hle| ->%list_elem_of_singleton]%elem_of_app; cbn; lia.
      * by rewrite filter_app, fmap_app, filter_cons_True, <- Hw.
    + split_and!; [exists b; apply elem_of_app; by left| |].
      * intros ac [Hin%Hle| ->%list_elem_of_singleton]%elem_of_app; cbn; lia.
      * by rewrite filter_app, fmap_app, filter_cons_False, app_nil_r by done.
Qed.

(** * The oracle's selection *)

Lemma q5_best_spec l s :
  match foldl q5_best ∅ l !! s with
  | Some b => (exists a, ((s, a), b) ∈ l) /\ forall a c, ((s, a), c) ∈ l -> c <= b
  | None => forall a c, ((s, a), c) ∉ l
  end.
Proof.
  induction l as [|[[s' a] c] l IH] using rev_ind.
  { cbn [foldl]. rewrite lookup_empty. intros a c. apply not_elem_of_nil. }
  rewrite foldl_snoc. set (best := foldl q5_best ∅ l) in *. unfold q5_best. cbn [fst snd].
  destruct (decide (s' = s)) as [->|Hne].
  - assert (forall b, b = c \/ (best !! s = Some b /\ c <= b) -> (forall a' c', ((s, a'), c') ∈ l -> c' <= b) ->
      (exists a', ((s, a'), b) ∈ l ++ [((s, a), c)]) /\ forall a' c', ((s, a'), c') ∈ l ++ [((s, a), c)] -> c' <= b) as Hput.
    { intros b Hb Hle. split.
      - destruct Hb as [->|[E _]]; [exists a; apply elem_of_app; right; by left|]. rewrite E in IH.
        destruct IH as [[a' Ha] _]. exists a'. apply elem_of_app. by left.
      - intros a' c' [Hin|Hin]%elem_of_app; [by eapply Hle|]. apply list_elem_of_singleton in Hin.
        injection Hin as _ ->. destruct Hb as [->|[_ ?]]; lia. }
    destruct (best !! s) as [b|] eqn:E.
    + destruct IH as [_ Hle]. destruct (Z.ltb_spec b c).
      * rewrite lookup_insert_eq. apply Hput; [by left|]. intros a' c' Hin%Hle. lia.
      * rewrite E. apply Hput; [by right|done].
    + rewrite lookup_insert_eq. apply Hput; [by left|]. intros a' c' Hin. by destruct (IH a' c').
  - assert ((match best !! s' with
             | Some cur => if cur <? c then <[s':=c]> best else best
             | None => <[s':=c]> best
             end) !! s = best !! s) as ->.
    { destruct (best !! s') as [cur|]; [destruct (cur <? c); [|done]|]; by rewrite lookup_insert_ne. }
    assert (forall a' c', ((s, a'), c') ∈ l ++ [((s', a), c)] <-> ((s, a'), c') ∈ l) as Hin.
    { intros a' c'. rewrite elem_of_app, list_elem_of_singleton. naive_solver. }
    destruct (best !! s); [|intros a' c'; by rewrite Hin].
    destruct IH as [[a' Ha] Hle]. split; [exists a'; by apply Hin|]. intros a'' c' Hc. by apply (Hle a''), Hin.
Qed.

(** Selected are the counts that none of the same window exceeds. *)
Lemma q5Select_spec counts s a c :
  q5Select counts !! (s, a) = Some c <->
  counts !! (s, a) = Some c /\ forall a' c', counts !! (s, a') = Some c' -> c' <= c.
Proof.
  unfold q5Select. rewrite map_lookup_filter_Some. cbn [fst snd].
  pose proof (q5_best_spec (map_to_list counts) s) as Hb.
  split; (intros [Hc Hmax]; split; [done|]).
  - destruct (foldl q5_best ∅ _ !! s) as [b|].
    + cbn in Hmax. subst c. intros a' c' Hc'. by apply (proj2 Hb a'), elem_of_map_to_list.
    + destruct (Hb a c). by apply elem_of_map_to_list.
  - destruct (foldl q5_best ∅ _ !! s) as [b|]; cbn.
    + destruct Hb as [[a' Ha] Hle]. apply elem_of_map_to_list in Ha. apply Hmax in Ha.
      specialize (Hle a c). rewrite elem_of_map_to_list in Hle. specialize (Hle Hc). lia.
    + destruct (Hb a c). by apply elem_of_map_to_list.
Qed.

(** * The keys

    A count is stored as an aggregate of [WindowStore]: under its window's key,
    with the auction where the window counts have the start. *)

Lemma appendHotItemKey_state k a : appendHotItemKey k a = appendStateKey k (i64 a).
Proof.
  unfold appendHotItemKey, appendStateKey. do 2 f_equal. unfold i64.
  rewrite <- (put_uint64_u64 a), <- (put_uint64_u64 (_ - _)). f_equal. unfold u64.
  rewrite Zminus_mod_idemp_l. f_equal. lia.
Qed.

Lemma length_WindowKey s : length (WindowKey s) = 8%nat.
Proof. apply length_put_uint64. Qed.

Lemma WindowKeyStart_key s : is_i64 s -> WindowKeyStart (WindowKey s) = Ok s.
Proof.
  intros Hs. unfold WindowKeyStart. rewrite length_WindowKey. cbn. unfold WindowKey.
  by rewrite put_uint64_u64, i64_uint64_put.
Qed.

Lemma WindowKeyStart_inv k s : WindowKeyStart k = Ok s -> is_i64 s /\ k = WindowKey s.
Proof.
  unfold WindowKeyStart. destruct (Nat.eqb_spec (length k) 8) as [Hl|]; [|done]. intros [= <-].
  split; [apply i64_range|]. unfold WindowKey. rewrite u64_i64.
  by rewrite u64_id, put_uint64_uint64 by (done || apply uint64_range).
Qed.

Lemma WindowKey_inj s s' : is_i64 s -> is_i64 s' -> WindowKey s = WindowKey s' -> s = s'.
Proof. intros Hs Hs' E. apply (f_equal WindowKeyStart) in E. rewrite !WindowKeyStart_key in E by done. by injection E. Qed.

Lemma i64_u64_inj a b : is_u64 a -> is_u64 b -> i64 a = i64 b -> a = b.
Proof. intros Ha Hb E. apply (f_equal u64) in E. by rewrite !u64_i64, !u64_id in E by done. Qed.

Lemma parseHotItemKey_key s a : is_u64 a -> parseHotItemKey (appendHotItemKey (WindowKey s) a) = Ok (WindowKey s, a).
Proof.
  intros Ha. unfold parseHotItemKey.
  assert (length (appendHotItemKey (WindowKey s) a) = hotItemKeyBytes) as ->.
  { unfold appendHotItemKey. cbn [length]. by rewrite length_app, length_WindowKey, length_put_uint64. }
  rewrite Nat.eqb_refl. cbn [negb].
  change (drop prefixBytes (appendHotItemKey (WindowKey s) a)) with (WindowKey s ++ put_uint64 a).
  change (drop (prefixBytes + 8) (appendHotItemKey (WindowKey s) a)) with (drop 8 (WindowKey s ++ put_uint64 a)).
  rewrite take_app_length', drop_app_length' by by rewrite length_WindowKey. by rewrite uint64_put', u64_id.
Qed.

(** * The scan *)

(** What an entry of the key space says: a window's key, an auction, a count. *)
Definition entry_count (e : bytes * bytes) : option (bytes * (Z * Z)) :=
  match e.1 with
  | p :: _ =>
      if bool_decide (p = PrefixUserState) then
        match parseHotItemKey e.1, DecodeCount e.2 with
        | Ok (k, a), Ok c => Some (k, (a, c))
        | _, _ => None
        end
      else None
  | [] => None
  end.

Definition hot_step (windows : gmap bytes hotWindow) (x : bytes * (Z * Z)) : gmap bytes hotWindow :=
  match windows !! x.1 with
  | Some w => <[x.1 := add_count x.2.1 x.2.2 w]> windows
  | None => windows
  end.

(** The counts of one window, in the order of the scan. *)
Definition of_window (k : bytes) (l : list (bytes * (Z * Z))) : list (Z * Z) := (filter (fun x => x.1 = k) l).*2.

Lemma hot_steps_lookup (l : list (bytes * (Z * Z))) (windows : gmap bytes hotWindow) k :
  foldl hot_step windows l !! k = add_all (of_window k l) <$> windows !! k.
Proof.
  revert windows. induction l as [|[k' [a c]] l IH]; intros windows; [cbn; by destruct (windows !! k)|].
  cbn [foldl]. rewrite IH. unfold of_window, hot_step. cbn [fst snd].
  destruct (decide (k' = k)) as [->|Hne].
  - rewrite filter_cons_True by done. destruct (windows !! k) as [w|] eqn:E; [by rewrite lookup_insert_eq|by rewrite E].
  - rewrite filter_cons_False by done. destruct (windows !! k'); [by rewrite lookup_insert_ne|done].
Qed.

(** A key space in which every aggregate is a count of the second stage. *)
Definition hot_entry (e : bytes * bytes) : Prop :=
  exists s a c, is_u64 a /\ is_i64 c /\ e = (appendHotItemKey (WindowKey s) a, encodeCount c).

Lemma entry_count_hot s a c :
  is_u64 a -> is_i64 c ->
  entry_count (appendHotItemKey (WindowKey s) a, encodeCount c) = Some (WindowKey s, (a, c)).
Proof.
  intros Ha Hc. unfold entry_count. cbn [fst snd appendHotItemKey]. fold (appendHotItemKey (WindowKey s) a).
  by rewrite parseHotItemKey_key, DecodeCount_encode.
Qed.

Section Scan.
Context (sz : Z).

(** The aggregates come first. *)
Lemma past_states K K' :
  key_shape sz K -> key_shape sz K' -> bytes_le K K' ->
  (forall k s, K <> appendStateKey k s) -> forall k s, K' <> appendStateKey k s.
Proof.
  intros [(k & s & Hs & ->)|[(k & s & Hs & ->)| ->]] HK' Hle Hns; [by destruct (Hns k s)| |];
    intros k' s' ->; destruct HK' as [(? & ? & _ & E)|[(? & ? & _ & E)|E]]; done.
Qed.

Lemma hot_scan (l : list (bytes * bytes)) (windows : gmap bytes hotWindow) (m : gmap bytes bytes) :
  StronglySorted bytes_le l.*1 -> Forall (key_shape sz) l.*1 ->
  Forall (fun e => (exists k s, e.1 = appendStateKey k s) -> hot_entry e) l ->
  scan hot_visit l (windows, None) m = ((foldl hot_step windows (omap entry_count l), None), m).
Proof.
  revert windows. induction l as [|[K v] l IH]; intros windows Hs Hsh Hhot; [done|].
  cbn [fmap list_fmap fst] in Hs, Hsh. apply StronglySorted_cons in Hs as [HK Hs].
  apply Forall_cons in Hsh as [HKs Hsh]. apply Forall_cons in Hhot as [He Hhot].
  assert ((forall k s, K <> appendStateKey k s) -> omap entry_count l = []) as Hstop.
  { intros Hns. apply omap_none, Forall_forall. intros [K' v'] Hin.
    assert (K' ∈ l.*1) as HK' by (by apply (list_elem_of_fmap_2 fst _ (K', v'))).
    rewrite Forall_forall in HK, Hsh.
    pose proof (past_states K K' HKs (Hsh _ HK') (HK _ HK') Hns) as Hns'.
    destruct (Hsh _ HK') as [(k & s & _ & ->)|[(k & s & _ & ->)| ->]]; [by destruct (Hns' k s)|done..]. }
  destruct HKs as [(k & s & Hi & ->)|[(k & s & Hi & ->)| ->]].
  - destruct He as (s' & a & c & Ha & Hc & E); [by eexists k, s|].
    assert (appendStateKey k s = appendHotItemKey (WindowKey s') a) as -> by exact (f_equal fst E).
    assert (v = encodeCount c) as -> by exact (f_equal snd E).
    cbn [omap list_omap]. rewrite entry_count_hot by done. cbn [foldl scan].
    assert (hot_visit (appendHotItemKey (WindowKey s') a) (encodeCount c) (windows, None) =
      Visit (hot_step windows (WindowKey s', (a, c)), None) false true) as ->.
    { unfold hot_visit, hot_step. cbn [appendHotItemKey]. fold (appendHotItemKey (WindowKey s') a).
      cbn [fst snd]. rewrite parseHotItemKey_key, DecodeCount_encode by done. cbn. by destruct (windows !! WindowKey s'). }
    cbn [v_delete v_go v_acc]. by apply IH.
  - cbn [omap list_omap]. change (entry_count (timer_key sz (k, s), v)) with (None : option (bytes * (Z * Z))).
    cbn [scan]. change (hot_visit (timer_key sz (k, s)) v (windows, None)) with (Visit (windows, None : option op_error) false false).
    cbn [v_delete v_go v_acc]. by rewrite Hstop.
  - cbn [omap list_omap]. change (entry_count (watermarkStateKey, v)) with (None : option (bytes * (Z * Z))).
    cbn [scan]. change (hot_visit watermarkStateKey v (windows, None)) with (Visit (windows, None : option op_error) false false).
    cbn [v_delete v_go v_acc]. by rewrite Hstop.
Qed.
End Scan.

(** * What the key space says *)

(** The windows are those of a tumbling count of the same size. *)
Definition hot_windows (h : HotItems) : WindowCount := NewWindowCount (hi_size h) (hi_size h) (hi_allowedLateness h).

Definition hot_row (w : WindowCount) (kn : HotItemKey * Z) : Record_ :=
  NewRecord (NexmarkKey kn.1.2) (encodeCount kn.2) (fireTimeOf w kn.1.1).

(** The aggregates are counts: of a window, of an auction. *)
Definition hot_store (st : store Z) : Prop := forall k x c, agg st !! (k, x) = Some c ->
  exists s a, is_i64 s /\ is_u64 a /\ is_i64 c /\ k = WindowKey s /\ x = i64 a.

Lemma hot_store_purge p st : hot_store st -> hot_store (purge_keys p st).
Proof. intros Hst k x c [Hc _]%map_lookup_filter_Some. by eapply Hst. Qed.

(** The counts of a window, in the order of the scan, and the best of them. *)
Definition counts_of (m : gmap bytes bytes) (s : Z) : list (Z * Z) :=
  of_window (WindowKey s) (omap entry_count (sorted_entries m)).

Definition best_of (m : gmap bytes bytes) (s : Z) : list (Z * Z) :=
  filter (fun ac => ac.2 = max (add_all (counts_of m s) no_winners)) (counts_of m s).

Section Store.
Context (sz : Z) (m : gmap bytes bytes) (st : store Z).
Context (Hr : represents sz encodeCount m st) (Hst : hot_store st).

Lemma lookup_count k a : m !! appendHotItemKey k a = encodeCount <$> agg st !! (k, i64 a).
Proof using Hr.
  replace (appendHotItemKey k a) with (appendStateKey k (i64 a)) by (symmetry; apply appendHotItemKey_state).
  apply (rep_agg _ _ _ _ Hr), i64_range.
Qed.

Lemma entry_shape e :
  e ∈ sorted_entries m ->
  key_shape sz e.1 /\ ((exists k s, e.1 = appendStateKey k s) -> hot_entry e).
Proof using Hr Hst.
  destruct e as [K v]. intros Hin%elem_of_sorted_entries. assert (key_shape sz K) as Hsh by (eapply rep_shape; eauto).
  split; [done|]. cbn [fst]. intros (k & s & ->). destruct Hsh as [(k' & x & Hx & E)|[(k' & x & _ & E)|E]]; [|done..].
  rewrite E in Hin. rewrite (rep_agg _ _ _ _ Hr) in Hin by done.
  destruct (agg st !! (k', x)) as [c|] eqn:Ec; [|done]. injection Hin as <-.
  destruct (Hst _ _ _ Ec) as (s' & a & _ & Ha & Hc & -> & ->). exists s', a, c. split; [done|]. split; [done|].
  f_equal. rewrite E. symmetry. apply appendHotItemKey_state.
Qed.

Lemma entry_count_inv e k a c :
  e ∈ sorted_entries m -> entry_count e = Some (k, (a, c)) ->
  exists s, k = WindowKey s /\ is_u64 a /\ is_i64 c /\ e = (appendHotItemKey (WindowKey s) a, encodeCount c).
Proof using Hr Hst.
  intros Hin E. destruct (entry_shape e Hin) as [[(k' & x & _ & Ek)|[(k' & x & _ & Ek)|Ek]] Hhot].
  - destruct Hhot as (s & a' & c' & Ha & Hc & ->); [by eexists k', x|]. rewrite entry_count_hot in E by done.
    injection E as <- <- <-. by exists s.
  - unfold entry_count in E. by rewrite Ek in E.
  - unfold entry_count in E. by rewrite Ek in E.
Qed.

Lemma elem_of_counts s a c :
  is_i64 s -> (a, c) ∈ counts_of m s <-> is_u64 a /\ agg st !! (WindowKey s, i64 a) = Some c.
Proof using Hr Hst.
  intros Hs. unfold counts_of, of_window. rewrite list_elem_of_fmap. split.
  - intros ([k [a' c']] & [= <- <-] & [Ek Hin]%list_elem_of_filter). cbn in Ek. subst k.
    apply list_elem_of_omap in Hin as (e & He & E). destruct (entry_count_inv e _ _ _ He E) as (s' & Es & Ha & Hc & ->).
    split; [done|]. rewrite <- Es in He. apply elem_of_sorted_entries in He.
    rewrite lookup_count in He.
    destruct (agg st !! (WindowKey s, i64 a)) as [c0|] eqn:Ec; [|done]. cbn in He.
    destruct (Hst _ _ _ Ec) as (_ & _ & _ & _ & Hc0 & _). f_equal.
    apply put_uint64_i64_inj; [done..|]. exact (Some_inj _ _ He).
  - intros [Ha Hc]. destruct (Hst _ _ _ Hc) as (_ & _ & _ & _ & Hci & _).
    exists (WindowKey s, (a, c)). split; [done|]. apply list_elem_of_filter. split; [done|].
    apply list_elem_of_omap. exists (appendHotItemKey (WindowKey s) a, encodeCount c).
    split; [|by apply entry_count_hot]. apply elem_of_sorted_entries.
    by rewrite lookup_count, Hc.
Qed.

Lemma NoDup_counts s : NoDup (counts_of m s).
Proof using Hr Hst.
  unfold counts_of, of_window. apply NoDup_fmap_2_strong.
  - intros [k x] [k' x'] [E1 _]%list_elem_of_filter [E2 _]%list_elem_of_filter. cbn in *. congruence.
  - apply NoDup_filter, NoDup_omap_inj.
    + intros e e' [k [a c]] He He' E E'. destruct (entry_count_inv _ _ _ _ He E) as (s1 & E1 & _ & _ & ->).
      destruct (entry_count_inv _ _ _ _ He' E') as (s2 & E2 & _ & _ & ->). congruence.
    + apply (NoDup_fmap_1 fst). rewrite sorted_entries_fst. apply NoDup_sorted_keys.
Qed.

Lemma elem_of_best s a c :
  is_i64 s ->
  (a, c) ∈ best_of m s <-> is_u64 a /\ agg st !! (WindowKey s, i64 a) = Some c /\
    forall a' c', is_u64 a' -> agg st !! (WindowKey s, i64 a') = Some c' -> c' <= c.
Proof using Hr Hst.
  intros Hs. unfold best_of. rewrite list_elem_of_filter, elem_of_counts by done. cbn [snd].
  destruct (decide (counts_of m s = [])) as [E|Hne].
  - split; intros H; exfalso; assert ((a, c) ∈ counts_of m s) as Hin by (apply elem_of_counts; tauto);
      rewrite E in Hin; by apply elem_of_nil in Hin.
  - destruct (add_all_winners (counts_of m s) Hne) as ((b & Hb) & Hle & _). split.
    + intros (-> & Ha & Hc). split_and!; [done..|]. intros a' c' Ha' Hc'.
      apply (Hle (a', c')). by apply elem_of_counts.
    + intros (Ha & Hc & Hmax). split_and!; [|done..]. apply elem_of_counts in Hb as [Hub Hb]; [|done].
      apply Hmax in Hb; [|done]. specialize (Hle (a, c)). rewrite elem_of_counts in Hle by done. cbn in Hle.
      assert (c <= max (add_all (counts_of m s) no_winners)) by auto. lia.
Qed.

Lemma NoDup_best s : NoDup (best_of m s).
Proof using Hr Hst. apply NoDup_filter, NoDup_counts. Qed.
End Store.

(** * The operator, over the in-process backend *)

Section Operations.
Context (h : HotItems).
Local Abbreviation w := (hot_windows h).
Local Abbreviation rep := (rep (size w) encodeCount).

(** A count of a window that is still open. *)
Lemma HotItems_element_rep rec s ac o st :
  spec_wf w ->
  WindowKeyStart (Key rec) = Ok s -> DecodeAuctionCount (Value rec) = Ok ac -> EventTime rec = fireTimeOf w s ->
  watermark st < fireTimeOf w s -> rep o st ->
  exists o', HotItems_ProcessElement h rec o = (Ok tt, o') /\
    rep o' (add_timer (WindowKey s) s (set_agg (WindowKey s) (i64 (ac_Auction ac)) (ac_Count ac) st)) /\
    op_dropped o' = op_dropped o /\ op_out o' = op_out o.
Proof.
  intros Hw Hk Hv Ht Hwm Hr. destruct (WindowKeyStart_inv _ _ Hk) as [Hs Ek].
  set (o0 := MkOp (op_state o) (op_dropped o) (add64 (op_onTime o) 1) (op_out o)). assert (rep o0 st) as Hr0 by done.
  destruct (put_agg_rep _ _ (WindowKey s) (i64 (ac_Auction ac)) (ac_Count ac) _ _ (i64_range _) Hr0)
    as (o1 & E1 & Hr1 & Hd1 & _ & Ho1).
  destruct (put_timer_rep _ _ (WindowKey s) s _ _ Hs Hr1) as (o2 & E2 & Hr2 & Hd2 & _ & Ho2).
  exists o2. split; [|split_and!; [done|by rewrite Hd2, Hd1|by rewrite Ho2, Ho1]].
  unfold HotItems_ProcessElement. rewrite Hk, Hv, Ht, Ek.
  change (HotItems_fireTimeOf h s) with (fireTimeOf w s). change (HotItems_isPurged h) with (isPurged w).
  refine (eq_trans (bind_run _ _ _ s o eq_refl) _). rewrite Z.eqb_refl. cbn [negb].
  refine (eq_trans (bind_run _ _ _ ac o eq_refl) _).
  refine (eq_trans (bind_run _ _ _ _ _ (loadWatermark_rep _ _ _ _ Hr)) _). cbv beta.
  rewrite (not_due_not_purged w Hw) by done.
  refine (eq_trans (bind_run _ _ _ _ o0 eq_refl) _). cbv beta.
  replace (appendHotItemKey (WindowKey s) (ac_Auction ac)) with (appendStateKey (WindowKey s) (i64 (ac_Auction ac)))
    by (symmetry; apply appendHotItemKey_state).
  refine (eq_trans (bind_run _ _ _ _ _ E1) _). exact E2.
Qed.

Lemma for_each_emit {A} (f : A -> Record_) l (o : OpState Memory) :
  for_each (fun x => emit (f x)) l o = (Ok tt, MkOp (op_state o) (op_dropped o) (op_onTime o) (op_out o ++ (f <$> l))).
Proof.
  revert o. induction l as [|x l IH]; intros o; [cbn; rewrite app_nil_r; by destruct o|].
  rewrite for_each_cons. cbn [emit]. rewrite IH. cbn. by rewrite <- app_assoc.
Qed.

(** One due window: all its best. *)
Lemma fire_hot_rep windows m s o st :
  is_i64 s -> rep o st -> counts_of m s <> [] ->
  windows !! WindowKey s = Some (add_all (counts_of m s) no_winners) ->
  exists o', fire_hot h windows (due_of (size w) (WindowKey s, s)) o = (Ok tt, o') /\
    rep o' (del_timer (WindowKey s) s st) /\ op_dropped o' = op_dropped o /\
    op_out o' = op_out o ++ ((fun ac => hot_row w ((s, ac.1), ac.2)) <$> best_of m s).
Proof.
  intros Hs Hr Hne Hwin. destruct (delete_timer_rep _ _ (WindowKey s) s _ _ Hs Hr) as (o1 & E1 & Hr1 & Hd1 & _ & Ho1).
  destruct (add_all_winners _ Hne) as ((b & Hb) & _ & Hwn). set (win := add_all (counts_of m s) no_winners) in *.
  unfold fire_hot. change (stateKey (due_of (size w) (WindowKey s, s))) with (timer_key (size w) (WindowKey s, s)).
  change (key (due_of (size w) (WindowKey s, s))) with (WindowKey s).
  change (windowStart (due_of (size w) (WindowKey s, s))) with s.
  rewrite Hwin. cbv zeta. change (default (MkHotWindow 0 []) (Some win)) with win.
  assert ((length (winners win) =? 0)%nat = false) as ->.
  { rewrite Hwn. apply Nat.eqb_neq. rewrite length_fmap. intros E%length_zero_iff_nil.
    assert ((b, max win) ∈ filter (fun ac => ac.2 = max win) (counts_of m s)) as Hf by (by apply list_elem_of_filter).
    rewrite E in Hf. by apply elem_of_nil in Hf. }
  eexists. split; [refine (eq_trans (bind_run _ _ _ _ _ E1) _); apply for_each_emit|].
  split_and!; [done|done|]. cbn [op_out]. rewrite Ho1, Hwn. f_equal. unfold best_of. fold win.
  rewrite <- list_fmap_compose. apply list_fmap_ext. intros i [a c] Hin%list_elem_of_lookup_2.
  apply list_elem_of_filter in Hin as [Hc _]. cbn in Hc. by rewrite Hc.
Qed.

Lemma fire_hots_rep windows m (l : list Z) o st :
  rep o st ->
  Forall (fun s => is_i64 s /\ counts_of m s <> [] /\ windows !! WindowKey s = Some (add_all (counts_of m s) no_winners)) l ->
  exists o', for_each (fire_hot h windows) ((fun s => due_of (size w) (WindowKey s, s)) <$> l) o = (Ok tt, o') /\
    rep o' (MkStore (agg st) (timers st ∖ list_to_set ((fun s => (WindowKey s, s)) <$> l)) (mark st)) /\
    op_dropped o' = op_dropped o /\
    op_out o' = op_out o ++ (l ≫= fun s => (fun ac => hot_row w ((s, ac.1), ac.2)) <$> best_of m s).
Proof.
  intros Hr Hl. revert o st Hr. induction Hl as [|s l (Hs & Hne & Hwin) _ IH]; intros o st Hr.
  { exists o. split_and!; [done| |done|by rewrite app_nil_r].
    replace (timers st ∖ list_to_set ((fun s => (WindowKey s, s)) <$> [])) with (timers st) by set_solver. by destruct st. }
  destruct (fire_hot_rep windows m s o st Hs Hr Hne Hwin) as (o1 & E1 & Hr1 & Hd1 & Ho1).
  destruct (IH o1 _ Hr1) as (o2 & E2 & Hr2 & Hd2 & Ho2). exists o2. cbn [fmap list_fmap].
  rewrite for_each_cons, E1, E2. split_and!; [done| |congruence|].
  - cbn in Hr2. replace (timers st ∖ list_to_set ((WindowKey s, s) :: ((fun s => (WindowKey s, s)) <$> l)))
      with ((timers st ∖ {[(WindowKey s, s)]}) ∖ list_to_set ((fun s => (WindowKey s, s)) <$> l)) by set_solver. done.
  - by rewrite Ho2, Ho1, bind_cons, <- app_assoc.
Qed.
End Operations.

(** ** A watermark *)

Definition hot_purged (w : WindowCount) (wm : Z) (t : bytes * Z) : bool :=
  match WindowKeyStart t.1 with Ok s => isPurged w wm s | Err _ => false end.

(** What it leaves: what has fired stays until it is purged. *)
Definition hot_watermark (w : WindowCount) (wm : Z) (st : store Z) : store Z :=
  purge_keys (hot_purged w wm)
    (MkStore (agg st) (filter (fun t => ~ fireTimeOf w t.2 <= wm) (timers st)) (Some wm)).

(** A pending timer is that of a window, and the window has a count. *)
Definition hot_timers (st : store Z) : Prop := forall k s, (k, s) ∈ timers st ->
  k = WindowKey s /\ is_i64 s /\ exists a, is_u64 a /\ is_Some (agg st !! (WindowKey s, i64 a)).

(** The best counts of each window of a store, each once. *)
Definition bests (st : store Z) (best : Z -> list (Z * Z)) : Prop := forall s, is_i64 s ->
  NoDup (best s) /\
  forall a c, (a, c) ∈ best s <-> is_u64 a /\ agg st !! (WindowKey s, i64 a) = Some c /\
    forall a' c', is_u64 a' -> agg st !! (WindowKey s, i64 a') = Some c' -> c' <= c.

Definition hot_emits (w : WindowCount) (wm : Z) (st : store Z) (best : Z -> list (Z * Z)) : list (HotItemKey * Z) :=
  (due_timers (size w) st wm).*2 ≫= fun s => (fun ac => ((s, ac.1), ac.2)) <$> best s.

Section Watermark.
Context (h : HotItems).
Local Abbreviation w := (hot_windows h).
Local Abbreviation rep := (rep (size w) encodeCount).

Lemma hot_scan_rep windows o st :
  rep o st -> hot_store st ->
  st_iterate hot_cb (windows, None) o =
  (Ok (foldl hot_step windows (omap entry_count (sorted_entries (entries (op_state o)))), None), o).
Proof.
  intros Hr Hst. rewrite (st_iterate_mem _ hot_visit) by (intros; apply hot_cb_contract).
  rewrite (hot_scan (size w)).
  - cbn [fst snd]. replace {| entries := entries (op_state o) |} with (op_state o) by (by destruct (op_state o)).
    by rewrite set_state_id.
  - rewrite sorted_entries_fst. apply sorted_keys_sorted.
  - apply Forall_fmap, Forall_forall. intros e He. by apply (entry_shape _ _ _ Hr Hst).
  - apply Forall_forall. intros e He. by apply (entry_shape _ _ _ Hr Hst).
Qed.

Lemma hot_purge_rep wm o st :
  rep o st -> hot_store st ->
  exists o', HotItems_purge h wm o = (Ok tt, o') /\ rep o' (purge_keys (hot_purged w wm) st) /\ same_rest o o'.
Proof.
  intros Hr Hst. unfold HotItems_purge. apply purgeWindows_rep; [|done]. intros [k x] [c Hc].
  destruct (Hst _ _ _ Hc) as (s & a & Hs & Ha & _ & -> & ->). cbn [fst snd]. unfold HotItems_purged, hot_purged.
  replace (appendStateKey (WindowKey s) (i64 a)) with (appendHotItemKey (WindowKey s) a) by apply appendHotItemKey_state.
  rewrite parseHotItemKey_key by done. cbn [mbind result_bind fst]. by rewrite WindowKeyStart_key.
Qed.

Lemma hot_due_starts st wm :
  hot_timers st ->
  due_of (size w) <$> due_timers (size w) st wm =
  (fun s => due_of (size w) (WindowKey s, s)) <$> (due_timers (size w) st wm).*2.
Proof.
  intros Hti. rewrite <- list_fmap_compose. apply list_fmap_ext. intros i [k s] Hin%list_elem_of_lookup_2.
  apply elem_of_due_timers in Hin as [Hin _]. by destruct (Hti _ _ Hin) as (-> & _).
Qed.

Lemma hot_watermark_rep wm o st :
  is_i64 wm -> rep o st -> hot_store st -> hot_timers st ->
  exists o' best, HotItems_ProcessWatermark h wm o = (Ok tt, o') /\ rep o' (hot_watermark w wm st) /\
    op_dropped o' = op_dropped o /\ bests st best /\
    op_out o' = op_out o ++ (hot_row w <$> hot_emits w wm st best).
Proof.
  intros Hwm Hr Hst Hti. destruct (storeWatermark_rep _ _ wm _ _ Hwm Hr) as (o1 & E1 & Hr1 & Hd1 & _ & Ho1).
  pose proof (collectDue_rep _ _ wm _ _ Hr1) as E2. change (due_timers (size w) (set_mark wm st) wm) with (due_timers (size w) st wm) in E2.
  rewrite hot_due_starts in E2 by done. set (due := (due_timers (size w) st wm).*2) in *.
  set (m := entries (op_state o1)) in *.
  assert (bests st (best_of m)) as Hbest.
  { intros s Hs. split; [by eapply NoDup_best|]. intros a c. by apply (elem_of_best (size w) m (set_mark wm st)). }
  set (windows := list_to_map ((fun t => (key t, MkHotWindow 0 [])) <$> ((fun s => due_of (size w) (WindowKey s, s)) <$> due)) : gmap bytes hotWindow).
  set (found := foldl hot_step windows (omap entry_count (sorted_entries m))).
  assert (Forall (fun s => is_i64 s /\ counts_of m s <> [] /\ found !! WindowKey s = Some (add_all (counts_of m s) no_winners)) due) as Hdue.
  { apply Forall_forall. intros s ([k s'] & -> & Hin)%list_elem_of_fmap. cbn [snd] in *.
    pose proof Hin as [Ht _]%elem_of_due_timers. destruct (Hti _ _ Ht) as (-> & Hs & a & Ha & c & Hc).
    split; [done|]. split.
    - intros E. assert ((a, c) ∈ counts_of m s') as Hac by (by apply (elem_of_counts (size w) m (set_mark wm st))).
      rewrite E in Hac. by apply elem_of_nil in Hac.
    - unfold found. rewrite hot_steps_lookup. unfold windows.
      rewrite (elem_of_list_to_map_1' _ (WindowKey s') no_winners); [done| |].
      + intros y (t & [= _ ->] & _)%list_elem_of_fmap. done.
      + apply list_elem_of_fmap. exists (due_of (size w) (WindowKey s', s')). split; [done|]. apply list_elem_of_fmap.
        exists s'. split; [done|]. apply list_elem_of_fmap. by exists (WindowKey s', s'). }
  destruct (fire_hots_rep h found m due o1 (set_mark wm st) Hr1 Hdue) as (o2 & E3 & Hr2 & Hd2 & Ho2).
  destruct (hot_purge_rep wm o2 _ Hr2) as (o3 & E4 & Hr3 & Hd3 & _ & Ho3); [done|].
  exists o3, (best_of m). split_and!; [| |congruence|done|].
  - unfold HotItems_ProcessWatermark. refine (eq_trans (bind_run _ _ _ _ _ E1) _).
    refine (eq_trans (bind_run _ _ _ _ _ E2) _). destruct (Nat.eqb_spec (length ((fun s => due_of (size w) (WindowKey s, s)) <$> due)) 0) as [E|_].
    + rewrite length_fmap in E. apply length_zero_iff_nil in E. rewrite E in E3. injection E3 as <-. exact E4.
    + refine (eq_trans (bind_run _ _ _ _ _ (hot_scan_rep windows o1 _ Hr1 Hst)) _). cbn [snd fst].
      refine (eq_trans (bind_run _ _ _ _ _ E3) _). exact E4.
  - replace (hot_watermark w wm st) with (purge_keys (hot_purged w wm)
      (MkStore (agg st) (timers st ∖ list_to_set ((fun s => (WindowKey s, s)) <$> due)) (Some wm))); [done|].
    unfold hot_watermark. do 2 f_equal. apply set_eq. intros [k s].
    rewrite elem_of_difference, elem_of_list_to_set, elem_of_filter, list_elem_of_fmap. cbn [snd].
    split; intros [H1 H2].
    + split; [|exact H1]. intros Hf. apply H2. exists s. destruct (Hti _ _ H1) as (-> & _). split; [done|].
      apply list_elem_of_fmap. exists (WindowKey s, s). split; [done|]. by apply elem_of_due_timers.
    + split; [exact H2|]. intros (s' & [= -> ->] & ([k' s''] & -> & [_ Hf]%elem_of_due_timers)%list_elem_of_fmap). by apply H1.
  - rewrite Ho3, Ho2, Ho1. f_equal. unfold hot_emits. fold due. clear. induction due as [|s due IH]; [done|].
    by rewrite !bind_cons, fmap_app, <- IH, <- list_fmap_compose.
Qed.
End Watermark.

(** * Runs *)

(** What a record says: the count of an auction in a window. *)
Definition hot_of (rec : Record_) : option (HotItemKey * Z) :=
  match WindowKeyStart (Key rec), DecodeAuctionCount (Value rec) with
  | Ok s, Ok ac => Some ((s, ac_Auction ac), ac_Count ac)
  | _, _ => None
  end.

(** It carries the time at which its window fires. *)
Definition hot_valid (w : WindowCount) (rec : Record_) : Prop :=
  match hot_of rec with Some kn => EventTime rec = fireTimeOf w kn.1.1 | None => False end.

#[export] Instance hot_valid_dec w rec : Decision (hot_valid w rec).
Proof. unfold hot_valid. destruct (hot_of rec); apply _. Defined.

(** The last count of each auction in each window. *)
Definition hot_total (recs : list Record_) (m : gmap HotItemKey Z) : gmap HotItemKey Z :=
  foldl (fun m rec => match hot_of rec with Some (k, c) => <[k := c]> m | None => m end) m recs.

Definition hot_fired (w : WindowCount) (front : Z) (kn : HotItemKey * Z) : Prop := fireTimeOf w kn.1.1 <= front.
#[export] Instance hot_fired_dec w front kn : Decision (hot_fired w front kn).
Proof. apply Z_le_dec. Defined.

(** The store against the counts of the stream so far: the windows past the
    highest watermark are all there and pending; of the others the best counts
    have been emitted. *)
Record hot_inv (w : WindowCount) (front : Z) (tot : gmap HotItemKey Z) (st : store Z) (out : list Record_) : Prop := {
  hv_front : watermark st <= front;
  hv_keys s a c : tot !! (s, a) = Some c -> is_i64 s /\ is_u64 a /\ is_i64 c;
  hv_store : hot_store st;
  hv_agg s a : is_i64 s -> is_u64 a -> front < fireTimeOf w s -> agg st !! (WindowKey s, i64 a) = tot !! (s, a);
  hv_timer k s : (k, s) ∈ timers st <-> k = WindowKey s /\ front < fireTimeOf w s /\ exists a, is_Some (tot !! (s, a));
  hv_out : out ≡ₚ hot_row w <$> map_to_list (filter (hot_fired w front) (q5Select tot));
}.

Section Inv.
Context (w : WindowCount).

Lemma hot_inv_empty : hot_inv w min_int64 ∅ empty_store [].
Proof.
  split; cbn; [done|by intros s a c ?%lookup_empty_Some|by intros k x c Hc; destruct (lookup_empty_Some _ _ Hc)|done| |].
  - intros k s. split; [set_solver|]. by intros (_ & _ & a & ? & ?%lookup_empty_Some).
  - done.
Qed.

Lemma hot_inv_timers front tot st out : hot_inv w front tot st out -> hot_timers st.
Proof.
  intros [_ Hk _ Ha Ht _] k s Hin. apply Ht in Hin as (-> & Hf & a & c & Hc).
  destruct (Hk _ _ _ Hc) as (Hs & Hu & _). split_and!; [done..|]. exists a. split; [done|]. rewrite Ha by done. by exists c.
Qed.

Lemma hot_inv_put front tot st out s a c :
  is_i64 s -> is_u64 a -> is_i64 c -> front < fireTimeOf w s -> hot_inv w front tot st out ->
  hot_inv w front (<[(s, a) := c]> tot) (add_timer (WindowKey s) s (set_agg (WindowKey s) (i64 a) c st)) out.
Proof.
  intros Hs Hu Hc Hf [Hm Hk Hst Ha Ht Ho]. split; cbn [agg timers mark add_timer set_agg watermark].
  - exact Hm.
  - intros s' a' c' [[[= <- <-] <-]|[_ ?]]%lookup_insert_Some; [done|by eapply Hk].
  - intros k x c' Hx. cbn in Hx. apply lookup_insert_Some in Hx as [[[= <- <-] <-]|[_ ?]]; [by exists s, a|by eapply Hst].
  - intros s' a' Hs' Hu' Hf'. destruct (decide ((s', a') = (s, a))) as [[= -> ->]|Hne]; [by rewrite !lookup_insert_eq|].
    rewrite !lookup_insert_ne; [by apply Ha|done|]. intros E. apply Hne.
    assert (WindowKey s = WindowKey s') as E1 by exact (f_equal fst E). assert (i64 a = i64 a') as E2 by exact (f_equal snd E).
    apply WindowKey_inj in E1; [|done..]. apply i64_u64_inj in E2; [|done..]. congruence.
  - intros k s'. rewrite elem_of_union, elem_of_singleton, Ht. split.
    + intros [[= -> ->]|(-> & Hf' & a' & Ha')].
      * split_and!; [done..|]. exists a. rewrite lookup_insert_eq. by exists c.
      * split_and!; [done..|]. exists a'. rewrite lookup_insert. case_decide; [by exists c|done].
    + intros (-> & Hf' & a' & Ha'). rewrite lookup_insert in Ha'. case_decide as E; [left; congruence|right].
      split_and!; [done..|]. by exists a'.
  - assert (filter (hot_fired w front) (q5Select (<[(s, a):=c]> tot)) = filter (hot_fired w front) (q5Select tot)) as ->; [|exact Ho].
    apply map_eq. intros [s' a']. apply option_eq. intros c'.
    rewrite !map_lookup_filter_Some, !q5Select_spec. unfold hot_fired. cbn [fst].
    split; (intros [[H1 H2] H3]; assert (s <> s') as Hne by (by intros ->; lia); split; [split|done]).
    + by rewrite lookup_insert_ne in H1 by congruence.
    + intros a'' c'' Hc''. apply (H2 a''). by rewrite lookup_insert_ne by congruence.
    + by rewrite lookup_insert_ne by congruence.
    + intros a'' c'' Hc''. rewrite lookup_insert_ne in Hc'' by congruence. by eapply H2.
Qed.

(** What a watermark emits. *)
Lemma hot_emitted front wm tot st out best :
  hot_inv w front tot st out -> bests st best ->
  map_to_list (filter (hot_fired w (Z.max front wm)) (q5Select tot)) ≡ₚ
  map_to_list (filter (hot_fired w front) (q5Select tot)) ++ hot_emits w wm st best.
Proof.
  intros Hinv Hbest. pose proof (hot_inv_timers _ _ _ _ Hinv) as Hti. destruct Hinv as [Hm Hk Hst Ha Ht Ho].
  assert (forall s, s ∈ (due_timers (size w) st wm).*2 <->
    front < fireTimeOf w s <= wm /\ exists a, is_Some (tot !! (s, a))) as Hdue.
  { intros s. rewrite list_elem_of_fmap. split.
    - intros ([k s'] & -> & [Hin Hf]%elem_of_due_timers). apply Ht in Hin as (_ & ? & ?). done.
    - intros ([Hf Hle] & Hex). exists (WindowKey s, s). split; [done|]. apply elem_of_due_timers. split; [by apply Ht|exact Hle]. }
  assert (forall s a c, front < fireTimeOf w s -> is_i64 s -> (a, c) ∈ best s <-> q5Select tot !! (s, a) = Some c) as Hsel.
  { intros s a c Hf Hs. rewrite (proj2 (Hbest s Hs)), q5Select_spec. split.
    - intros (Hu & Hc & Hmax). rewrite Ha in Hc by done. split; [done|]. intros a' c' Hc'.
      apply (Hmax a'); [by apply (Hk s a' c')|]. rewrite Ha by first [done|by apply (Hk s a' c')]. done.
    - intros (Hc & Hmax). pose proof (Hk _ _ _ Hc) as (_ & Hu & _). split_and!; [done|by rewrite Ha|].
      intros a' c' Hu' Hc'. rewrite Ha in Hc' by done. by eapply Hmax. }
  assert (forall s, s ∈ (due_timers (size w) st wm).*2 -> is_i64 s) as Hi.
  { intros s [_ (a & c & Hc)]%Hdue. exact (proj1 (Hk _ _ _ Hc)). }
  apply NoDup_Permutation.
  - apply NoDup_map_to_list.
  - apply NoDup_app. split_and!; [apply NoDup_map_to_list| |].
    + intros [[s a] c] Hx Hy. apply elem_of_map_to_list, map_lookup_filter_Some in Hx as [_ Hx].
      apply list_elem_of_bind in Hy as (s' & Hy & [Hf _]%Hdue). apply list_elem_of_fmap in Hy as (ac & [= <- _ _] & _).
      unfold hot_fired in Hx. cbn in Hx. lia.
    + apply NoDup_bind.
      * by intros s1 s2 y _ _ (? & -> & _)%list_elem_of_fmap (? & [= ->] & _)%list_elem_of_fmap.
      * intros s Hs. apply NoDup_fmap_2; [|by apply Hbest, Hi]. intros [a c] [a' c'] E. cbn in E. congruence.
      * apply NoDup_fmap_2_strong; [|apply NoDup_due_timers].
        intros [k s] [k' s'] [H1 _]%elem_of_due_timers [H2 _]%elem_of_due_timers E. cbn in E. subst s'.
        destruct (Hti _ _ H1) as (-> & _). by destruct (Hti _ _ H2) as (-> & _).
  - intros [[s a] c]. rewrite elem_of_app, !elem_of_map_to_list, !map_lookup_filter_Some. unfold hot_emits.
    rewrite list_elem_of_bind. unfold hot_fired. cbn [fst]. split.
    + intros [Hc Hf]. destruct (Z.le_gt_cases (fireTimeOf w s) front) as [?|Hgt]; [by left|right].
      pose proof Hc as [Hc' _]%q5Select_spec. pose proof (Hk _ _ _ Hc') as (Hs & _). exists s.
      split; [|apply Hdue; split; [lia|by exists a, c]]. apply list_elem_of_fmap. exists (a, c). split; [done|]. by apply Hsel; [lia|..].
    + intros [[Hc Hf]|(s' & ([a' c'] & [= <- <- <-] & Hin)%list_elem_of_fmap & Hs)]; [split; [done|lia]|].
      pose proof (Hi _ Hs) as Hsi. apply Hdue in Hs as [? _]. apply Hsel in Hin; [|lia|done]. split; [done|lia].
Qed.

Lemma hot_inv_watermark front wm tot st out best :
  spec_wf w ->
  hot_inv w front tot st out -> bests st best ->
  hot_inv w (Z.max front wm) tot (hot_watermark w wm st) (out ++ (hot_row w <$> hot_emits w wm st best)).
Proof.
  intros Hw Hinv Hbest. pose proof (hot_emitted front wm _ _ _ _ Hinv Hbest) as Hp.
  destruct Hinv as [Hm Hk Hst Ha Ht Ho]. split; [change (watermark (hot_watermark w wm st)) with wm; lia|done|by apply hot_store_purge|..].
  - intros s a Hs Hu Hf. rewrite <- (Ha s a) by (done || lia). cbn. apply option_eq. intros c.
    rewrite map_lookup_filter_Some. cbn. split; [by intros [? _]|]. intros Hc. split; [done|].
    unfold hot_purged. cbn [fst]. rewrite WindowKeyStart_key by done. apply not_due_not_purged; [done..|lia].
  - intros k s. cbn. rewrite elem_of_filter, Ht. cbn.
    split; [intros (? & ? & ? & ?)|intros (? & ? & ?)]; split_and?; try done; lia.
  - by rewrite Hp, fmap_app, Ho.
Qed.
End Inv.

Lemma hot_of_spec rec s a c :
  hot_of rec = Some ((s, a), c) ->
  WindowKeyStart (Key rec) = Ok s /\ DecodeAuctionCount (Value rec) = Ok (MkAuctionCount a c) /\
  is_i64 s /\ is_u64 a /\ is_i64 c.
Proof.
  unfold hot_of. destruct (WindowKeyStart (Key rec)) as [s'|] eqn:Es; [|done].
  destruct (DecodeAuctionCount (Value rec)) as [ac|] eqn:Ea; [|done]. intros [= <- <- <-].
  apply WindowKeyStart_inv in Es as [Hs _]. assert (is_u64 (ac_Auction ac) /\ is_i64 (ac_Count ac)) as [Hu Hc].
  { unfold DecodeAuctionCount in Ea. case_match; [done|]. injection Ea as <-. cbn. split; [apply uint64_range|apply i64_range]. }
  split_and!; try done. by destruct ac.
Qed.

(** The state of a run: the counts of the stream so far are those of the store. *)
Record hot_described (h : HotItems) (front : Z) (tot : gmap HotItemKey Z) (o : OpState Memory) (st : store Z) : Prop := {
  hd_rep : rep (size (hot_windows h)) encodeCount o st;
  hd_inv : hot_inv (hot_windows h) front tot st (op_out o);
  hd_dropped : op_dropped o = 0;
}.

Lemma hot_events h l front tot o st :
  spec_wf (hot_windows h) -> Forall (hot_valid (hot_windows h)) (l ≫= event_record) -> ahead front l ->
  hot_described h front tot o st ->
  exists o' st', run_events (HotItems_Operator h) l o = (Ok tt, o') /\
    hot_described h (front_of front l) (hot_total (l ≫= event_record) tot) o' st'.
Proof.
  intros Hw. revert front tot o st. induction l as [|e l IH]; intros front tot o st Hv Hl [Hr Hinv Hd]; [by exists o, st|].
  rewrite bind_cons in Hv. apply Forall_app in Hv as [Hve Hv]. unfold run_events. rewrite for_each_cons, bind_cons.
  unfold hot_total. rewrite foldl_app. fold (hot_total (l ≫= event_record)). destruct e as [rec|wm]; cbn [run_event event_record foldl].
  - destruct Hl as [Hlt Hl]. cbn [event_record] in Hve. apply Forall_cons in Hve as [Hve _]. unfold hot_valid in Hve.
    destruct (hot_of rec) as [[[s a] c]|] eqn:E; [|done]. cbn [fst] in Hve.
    apply hot_of_spec in E as (Hk & Ha & Hs & Hu & Hc). rewrite Hve in Hlt. pose proof (hv_front _ _ _ _ _ Hinv) as Hm.
    destruct (HotItems_element_rep h rec s _ o st Hw Hk Ha Hve ltac:(lia) Hr) as (o1 & E1 & Hr1 & Hd1 & Ho1).
    cbn [o_ProcessElement HotItems_Operator]. rewrite E1. eapply (IH front _ o1); [exact Hv|exact Hl|].
    split; [exact Hr1| |congruence].
    rewrite Ho1. by apply hot_inv_put.
  - destruct Hl as [Hwm Hl]. pose proof (hot_inv_timers _ _ _ _ _ Hinv) as Hti.
    destruct (hot_watermark_rep h wm o st Hwm Hr (hv_store _ _ _ _ _ Hinv) Hti) as (o1 & best & E1 & Hr1 & Hd1 & Hb & Ho1).
    cbn [o_ProcessWatermark HotItems_Operator]. rewrite E1. eapply (IH _ _ o1); [exact Hv|exact Hl|].
    split; [exact Hr1| |congruence].
    rewrite Ho1. by apply hot_inv_watermark.
Qed.

(** A stream of counts in time that reaches the final watermark is processed
    without an error and without a dropped count, and the selected counts are
    emitted, each once. *)
Lemma hot_run h l :
  spec_wf (hot_windows h) -> Forall (hot_valid (hot_windows h)) (l ≫= event_record) -> ahead min_int64 l ->
  max_int64 <= front_of min_int64 l ->
  exists o, run_events (HotItems_Operator h) l (fresh_op NewMemory) = (Ok tt, o) /\ op_dropped o = 0 /\
    op_out o ≡ₚ hot_row (hot_windows h) <$> map_to_list (q5Select (hot_total (l ≫= event_record) ∅)).
Proof.
  intros Hw Hv Hl Hf. destruct (hot_events h l min_int64 ∅ (fresh_op NewMemory) empty_store) as (o & st & E & [_ Hi Hd]); [done..| |].
  { split; [apply represents_empty|apply hot_inv_empty|done]. }
  exists o. split; [done|]. split; [done|]. rewrite (hv_out _ _ _ _ _ Hi), map_filter_id; [done|].
  intros [s a] c _. unfold hot_fired, fireTimeOf. cbn [fst].
  pose proof (addCeil_i64 s (size (hot_windows h) - 1)) as [_ Hle]. lia.
Qed.
