(* ===== verification/Q5.v ===== *)
(** Nexmark q5 as it is composed ([pkg/operators/nexmark.go], NewBidsOnly and
    what follows it): bids, sliding counts, the move onto the window, and the
    auctions at the maximum. Against the oracle of [test/oracle/nexmark.go]. *)
From S2P Require Import Prelude Core State Operators WindowStore Window WindowRun Oracle WindowOracle.
From S2P Require Import Nexmark NexmarkSpec Transform Pipeline HotItems NexmarkOracle MaxBidOracle HotItemsSpec.

Lemma eq_perm {A} (l k : list A) : l = k -> l ≡ₚ k.
Proof. by intros ->. Qed.

(** * The stages *)

Section Stages.
Context (w : WindowCount) (Hw : spec_wf w).

(** The bids of a stream of events. *)
Lemma bids_only rec :
  bid_valid rec -> is_ok (fn NewBidsOnly rec) = true /\
  outputs NewBidsOnly rec = match bidOf rec with Ok (Some _) => [rec] | _ => [] end.
Proof using.
  unfold bid_valid, bidOf, outputs. cbn [fn NewBidsOnly]. destruct (NexmarkTypeOf (Value rec)) as [t|]; [|done].
  destruct (bool_decide (t = EventBid)); cbn [negb is_ok option_list]; [|done]. by destruct (DecodeBid (Value rec)).
Qed.

Definition bids (recs : list Record_) : list Record_ := recs ≫= outputs NewBidsOnly.

(** ** The counts *)

Lemma q5_loop_exact (n : nat) (a s : Z) (counts : gmap HotItemKey Z) :
  is_i64 s -> min_int64 <= s - (Z.of_nat n - 1) * slide w ->
  q5_loop (slide w) n a s counts =
  foldl bump counts ((fun s => (s, a)) <$> ((fun i : nat => s - Z.of_nat i * slide w) <$> seq 0 n)).
Proof using Hw.
  revert s counts. induction n as [|n IH]; intros s counts Hs Hlo; [done|].
  destruct Hw. cbn [q5_loop seq fmap list_fmap foldl].
  rewrite Z.mul_0_l, Z.sub_0_r. destruct n as [|n]; [done|].
  rewrite sub64_id by (unfold_ints; lia). rewrite IH by (unfold_ints; lia).
  f_equal. rewrite <- (fmap_S_seq 0), <- (list_fmap_compose S).
  f_equal. apply list_fmap_ext. intros i x _. unfold compose. lia.
Qed.

Lemma q5_exact rec bid counts :
  bid_valid rec -> bidOf rec = Ok (Some bid) -> time_ok w (EventTime rec) ->
  q5Accumulate (oracle_spec w) counts rec =
  Ok (foldl bump counts ((fun s => (s, bid_Auction bid)) <$> window_starts w (EventTime rec))).
Proof using Hw.
  intros Hv Eb Ht. unfold q5Accumulate. rewrite with_bid_valid, Eb by done. unfold time_ok in Ht.
  destruct (size_slide_quot w Hw) as (Hq & Hm & Hquot). pose proof Hw as [Hs Hl _ _].
  pose proof (Z.mod_pos_bound (EventTime rec) (slide w) ltac:(lia)) as Hmod.
  cbn [Size Slide oracle_spec]. rewrite Hquot.
  change (Oracle.floorMod ?a ?b) with (Operators.floorMod a b).
  assert (slide w <= size w) by nia.
  rewrite floorMod_spec by (unfold_ints; lia). rewrite sub64_id by (unfold_ints; lia).
  f_equal. apply q5_loop_exact; [unfold_ints; lia|]. rewrite Z2Nat.id; lia.
Qed.

Local Abbreviation same_counts := (same_items (fun _ (c : Z) => c)).

Lemma same_counts_bumps a l m out :
  is_u64 a -> same_counts m out ->
  same_counts (foldl apply_update m ((fun s => ((NexmarkKey a, s), plus_one)) <$> l)) (foldl bump out ((fun s => (s, a)) <$> l)).
Proof using.
  intros Ha. revert m out. induction l as [|s l IH]; intros m out Hs; [done|]. cbn [fmap list_fmap foldl]. apply IH.
  unfold apply_update, bump, plus_one. cbn [fst snd]. rewrite (si_lookup _ _ _ Hs) by done.
  destruct (out !! (s, a)) as [c|]; cbn [fmap option_fmap option_map default]; by apply (same_items_insert (fun _ (c : Z) => c)).
Qed.

(** The first stage holds, by auction and window, what the oracle counts. *)
Lemma counts_agree recs m out :
  Forall bid_valid recs -> Forall (fun rec => time_ok w (EventTime rec)) recs -> same_counts m out ->
  exists out', over (q5Accumulate (oracle_spec w)) recs out = Ok out' /\
    same_counts (total (count_windowed w Hw) (bids recs) m) out'.
Proof using.
  intros Hv. revert m out. induction Hv as [|rec recs Hv _ IH]; intros m out Ht Hs; [by exists out|].
  apply Forall_cons in Ht as [Ht Hts]. unfold bids. rewrite bind_cons, total_app. cbn [over].
  rewrite (proj2 (bids_only rec Hv)). destruct (bidOf rec) as [[bid|]|] eqn:Eb.
  - rewrite (q5_exact rec bid) by done. cbn [mbind result_bind]. apply IH; [done|].
    unfold total. cbn [foldl wd_updates count_windowed]. unfold count_updates. rewrite windowsFor_exact by done.
    assert (Key rec = NexmarkKey (bid_Auction bid)) as ->.
    { unfold bid_valid in Hv. by rewrite Eb in Hv. }
    apply same_counts_bumps; [|done]. pose proof (bidOf_ok _ _ Eb) as [Hu _]. by apply Forall_cons in Hu as [Hu _].
  - assert (q5Accumulate (oracle_spec w) out rec = Ok out) as ->; [|by apply IH].
    unfold q5Accumulate. by rewrite with_bid_valid, Eb by done.
  - unfold bid_valid in Hv. by rewrite Eb in Hv.
Qed.

(** Every window counted ends within the [int64] range. *)
Lemma counted_windows recs t c :
  Forall (fun rec => time_ok w (EventTime rec)) recs ->
  total (count_windowed w Hw) recs ∅ !! t = Some c -> is_i64 c /\ is_i64 t.2 /\ t.2 + size w - 1 <= max_int64.
Proof using.
  intros Ht. assert (forall m, (forall t c, m !! t = Some c -> is_i64 c /\ is_i64 t.2 /\ t.2 + size w - 1 <= max_int64) ->
    total (count_windowed w Hw) recs m !! t = Some c -> is_i64 c /\ is_i64 t.2 /\ t.2 + size w - 1 <= max_int64) as Hm.
  { induction Ht as [|rec recs Ht _ IH]; intros m Hm; [apply Hm|]. unfold total. cbn [foldl]. apply IH.
    cbn [wd_updates count_windowed]. unfold count_updates. rewrite windowsFor_exact by done.
    assert (Forall (fun s => is_i64 s /\ s + size w - 1 <= max_int64) (window_starts w (EventTime rec))) as Hws.
    { apply Forall_forall. intros s Hin. split; [by eapply window_start_i64|].
      apply elem_of_window_starts in Hin; [|done]. unfold time_ok in Ht. lia. }
    revert m Hm. induction Hws as [|s l Hs _ IHl]; intros m Hm; [exact Hm|]. cbn [fmap list_fmap foldl]. apply IHl.
    intros t' c' Hc. unfold apply_update in Hc. cbn [fst snd] in Hc.
    apply lookup_insert_Some in Hc as [[<- <-]|[_ Hc]]; [|by eapply Hm]. split; [apply i64_range|exact Hs]. }
  apply Hm. intros t' c' Hc. by apply lookup_empty_Some in Hc.
Qed.

(** ** The move onto the window *)

Definition rekeyed (kn : HotItemKey * Z) : Record_ :=
  NewRecord (WindowKey kn.1.1) (EncodeAuctionCount (MkAuctionCount kn.1.2 kn.2)) (fireTimeOf w kn.1.1).

Lemma rekey_row rekey s a c :
  NewQ5Rekey (size w) = Some rekey -> is_i64 s -> s + size w - 1 <= max_int64 -> is_u64 a -> is_i64 c ->
  fn rekey (count_row w ((NexmarkKey a, s), c)) = Ok (Some (rekeyed ((s, a), c))).
Proof using Hw.
  intros Hr Hs Hend Ha Hc. unfold NewQ5Rekey in Hr. destruct (size w <=? 0); [done|]. injection Hr as <-.
  cbn [fn]. unfold count_row. cbn [Key Value EventTime fst snd].
  assert (NexmarkKeyID (NexmarkKey a) = Ok a) as ->.
  { unfold NexmarkKeyID, NexmarkKey. rewrite length_put_uint64. cbn [negb Nat.eqb NexmarkKeyBytes NexmarkFieldBytes].
    by rewrite uint64_put', u64_id. }
  rewrite DecodeCount_encode by done. cbn [wrap_err mbind result_bind]. unfold mret, result_ret, rekeyed. do 4 f_equal.
  cbn [fst snd]. f_equal. pose proof Hw as [Hsz _ _ _]. rewrite fireTimeOf_spec, Z.min_l by (done || lia).
  rewrite subFloor_spec by (unfold_ints; lia). unfold_ints. lia.
Qed.

Lemma hot_of_rekeyed s a c : is_i64 s -> is_u64 a -> is_i64 c -> hot_of (rekeyed ((s, a), c)) = Some ((s, a), c).
Proof using.
  intros Hs Ha Hc. unfold hot_of, rekeyed. cbn [Key Value fst snd]. rewrite WindowKeyStart_key by done.
  unfold DecodeAuctionCount, EncodeAuctionCount. cbn [ac_Auction ac_Count]. rewrite length_app, !length_put_uint64. cbn [Nat.add Nat.eqb negb auctionCountBytes].
  rewrite take_app_length', drop_app_length' by by rewrite length_put_uint64.
  rewrite put_uint64_u64, uint64_put', i64_uint64_put by done. cbn [ac_Auction ac_Count]. by rewrite u64_id.
Qed.

(** A stream that says each of [counts] once says [counts]. *)
Lemma hot_total_rekeyed (recs : list Record_) (counts : gmap HotItemKey Z) :
  (forall s a c, counts !! (s, a) = Some c -> is_i64 s /\ is_u64 a /\ is_i64 c) ->
  recs ≡ₚ rekeyed <$> map_to_list counts -> Forall (hot_valid w) recs /\ hot_total recs ∅ = counts.
Proof using.
  intros Hc Hp. assert (Forall (fun kn => hot_of (rekeyed kn) = Some kn) (map_to_list counts)) as Hof.
  { apply Forall_forall. intros [[s a] c] Hin%elem_of_map_to_list. apply Hc in Hin as (? & ? & ?). by apply hot_of_rekeyed. }
  split.
  - rewrite Hp. apply Forall_fmap. eapply Forall_impl; [exact Hof|]. intros kn Hk. unfold hot_valid. cbn. by rewrite Hk.
  - assert (omap hot_of recs ≡ₚ map_to_list counts) as Hl.
    { rewrite Hp. clear Hp. induction Hof as [|kn l Hk _ IH]; [done|]. cbn. by rewrite Hk, IH. }
    assert (forall m, hot_total recs m = foldl (fun m (kn : HotItemKey * Z) => <[kn.1 := kn.2]> m) m (omap hot_of recs)) as ->.
    { clear. unfold hot_total. induction recs as [|rec recs IH]; intros m; [done|]. cbn.
      destruct (hot_of rec) as [[k c]|]; apply IH. }
    assert (forall (l : list (HotItemKey * Z)), foldl (fun m (kn : HotItemKey * Z) => <[kn.1 := kn.2]> m) ∅ l = list_to_map (reverse l)) as ->.
    { clear. intros l. induction l as [|[k c] l IH] using rev_ind; [done|]. rewrite foldl_snoc, reverse_snoc, IH. done. }
    transitivity (list_to_map (map_to_list counts) : gmap HotItemKey Z); [|apply list_to_map_to_list].
    apply list_to_map_proper; [|by rewrite reverse_Permutation].
    rewrite reverse_Permutation, Hl. apply NoDup_fst_map_to_list.
Qed.
End Stages.

(** * The chain *)

(** The operators of the query, in order. *)
Definition q5_operators (w : WindowCount) (rekey : Map) (hot : HotItems) : list Operator :=
  [Map_Operator NewBidsOnly; WindowCount_Operator w; Map_Operator rekey; HotItems_Operator hot].

Section Chain.
Context (w : WindowCount) (Hw : spec_wf w) (rekey : Map) (hot : HotItems) (late : Z).
Context (Hrekey : NewQ5Rekey (size w) = Some rekey) (Hhot : NewQ5HotItems (size w) late = Some hot) (Hlate : late <= max_int64).

Lemma rekey_time rec r : r ∈ outputs rekey rec -> EventTime r = EventTime rec.
Proof using Hrekey.
  unfold NewQ5Rekey in Hrekey. destruct (size w <=? 0); [done|]. injection Hrekey as <-. unfold outputs. cbn [fn].
  destruct (wrap_err _ _); [|by intros ?%elem_of_nil]. cbn [mbind result_bind].
  destruct (DecodeCount _); [|by intros ?%elem_of_nil]. cbn. by intros ->%list_elem_of_singleton.
Qed.

Lemma bids_sub rec : outputs NewBidsOnly rec = [rec] \/ outputs NewBidsOnly rec = [].
Proof using. unfold outputs. cbn [fn NewBidsOnly]. destruct (NexmarkTypeOf _); [|by right]. destruct (negb _); cbn; auto. Qed.

Lemma hot_wf : spec_wf (hot_windows hot) /\ size (hot_windows hot) = size w.
Proof using Hw Hhot Hlate.
  unfold NewQ5HotItems in Hhot. destruct (size w <=? 0); [done|]. destruct (Z.ltb_spec late 0); [done|]. injection Hhot as <-.
  destruct Hw as [Hs _ _ _]. split; [|done]. split; cbn; [lia|lia|done|lia].
Qed.

(** The first two stages and the third: the counts, moved onto their windows. *)
Lemma q5_counts l :
  Forall bid_valid (l ≫= event_record) -> in_time w min_int64 l ->
  exists l1 o1 l2 o2 l3 o3 counts,
    stage (Map_Operator NewBidsOnly) (l ++ [EvWatermark max_int64]) (fresh_op NewMemory) = (Ok l1, o1) /\ op_dropped o1 = 0 /\
    stage (WindowCount_Operator w) l1 (fresh_op NewMemory) = (Ok l2, o2) /\ op_dropped o2 = 0 /\
    stage (Map_Operator rekey) l2 (fresh_op NewMemory) = (Ok l3, o3) /\ op_dropped o3 = 0 /\
    over (q5Accumulate (oracle_spec w)) (l ≫= event_record) ∅ = Ok counts /\
    Forall (hot_valid w) (l3 ≫= event_record) /\ hot_total (l3 ≫= event_record) ∅ = counts /\
    ahead min_int64 l3 /\ max_int64 <= front_of min_int64 l3.
Proof using Hw Hrekey.
  intros Hv Hl. set (recs := l ≫= event_record) in *. pose proof (in_time_times w _ _ Hl) as Ht. fold recs in Ht.
  destruct (stage_map NewBidsOnly (l ++ [EvWatermark max_int64]) (fresh_op NewMemory)) as (k1 & E1).
  { rewrite bind_app, app_nil_r. eapply Forall_impl; [exact Hv|]. intros rec Hrec. by apply bids_only. }
  rewrite ev_map_app in E1. set (lb := ev_map (outputs NewBidsOnly) l) in *.
  assert (lb ≫= event_record = bids recs) as Hlb by apply ev_map_records.
  destruct (windowed_stage (count_windowed w Hw) (fun kv => eq_refl) lb) as (l2 & o2 & E2 & Hd2 & Hp & Ha & Hf);
    [by apply Forall_true|by apply in_time_sub; [apply bids_sub|]|].
  destruct (counts_agree w Hw recs ∅ ∅ Hv Ht (same_items_empty _)) as (counts & Ec & Hsame).
  rewrite Hlb in Hp. cbn [wd_row count_windowed] in Hp. rewrite (same_items_rows _ _ _ (count_row w) Hsame) in Hp.
  assert (forall s a c, counts !! (s, a) = Some c -> is_i64 s /\ s + size w - 1 <= max_int64 /\ is_u64 a /\ is_i64 c) as Hrange.
  { intros s a c Hc. assert (is_u64 a) as Hu by (eapply (si_auctions _ _ _ Hsame); eauto).
    pose proof (si_lookup _ _ _ Hsame a s Hu) as Hlk. rewrite Hc in Hlk. apply counted_windows in Hlk as (? & ? & ?); [done|].
    apply Forall_forall. intros rec (rec' & Hin & Hrec)%list_elem_of_bind. rewrite Forall_forall in Ht.
    destruct (bids_sub rec') as [E|E]; rewrite E in Hin; [|by apply elem_of_nil in Hin].
    apply list_elem_of_singleton in Hin as ->. by apply Ht. }
  assert (Forall (fun kn => fn rekey (count_row w ((NexmarkKey kn.1.2, kn.1.1), kn.2)) = Ok (Some (rekeyed w kn))) (map_to_list counts)) as Hrk.
  { apply Forall_forall. intros [[s a] c] Hin%elem_of_map_to_list. apply Hrange in Hin as (? & ? & ? & ?). by apply rekey_row. }
  destruct (stage_map rekey l2 (fresh_op NewMemory)) as (k3 & E3).
  { rewrite Hp. apply Forall_fmap. eapply Forall_impl; [exact Hrk|]. intros kn Hk. cbn. by rewrite Hk. }
  destruct (hot_total_rekeyed w (ev_map (outputs rekey) l2 ≫= event_record) counts) as [Hhv Htot].
  { intros s a c Hc. apply Hrange in Hc. tauto. }
  { rewrite ev_map_records, Hp. apply eq_perm. clear -Hrk. induction Hrk as [|kn k Hk _ IH]; [done|].
    cbn [fmap list_fmap]. rewrite bind_cons, IH. unfold outputs. by rewrite Hk. }
  eexists _, _, l2, o2, _, _, counts. split_and!; [exact E1|done|exact E2|done|exact E3|done|done|done|done| |].
  - apply ahead_map; [apply rekey_time|exact Ha].
  - by rewrite ev_map_front.
Qed.

Lemma q5_chain l :
  Forall bid_valid (l ≫= event_record) -> in_time w min_int64 l ->
  exists l' os best, chain (q5_operators w rekey hot) NewMemory (l ++ [EvWatermark max_int64]) = (Ok l', os) /\
    Forall (fun o => op_dropped o = 0) os /\ q5Records (l ≫= event_record) (oracle_spec w) = Ok best /\
    l' ≫= event_record ≡ₚ hot_row w <$> map_to_list best.
Proof using Hw Hrekey Hhot Hlate.
  intros Hv Hl. destruct (q5_counts l Hv Hl) as (l1 & o1 & l2 & o2 & l3 & o3 & counts & E1 & D1 & E2 & D2 & E3 & D3 & Ec & Hhv & Htot & Ha & Hf).
  destruct hot_wf as [Hhw Hsz]. assert (forall s, fireTimeOf (hot_windows hot) s = fireTimeOf w s) as Hfire by (intros s; unfold fireTimeOf; by rewrite Hsz).
  destruct (hot_run hot l3 Hhw) as (o4 & E4 & D4 & Ho); [|exact Ha|exact Hf|].
  { eapply Forall_impl; [exact Hhv|]. intros rec. unfold hot_valid. destruct (hot_of rec); [by rewrite Hfire|done]. }
  rewrite stage_run in E4. destruct (stage (HotItems_Operator hot) l3 (fresh_op NewMemory)) as [[l4|x] o4'] eqn:E5; [|done]. injection E4 as <-.
  rewrite (stage_out _ _ _ _ _ E5) in Ho. cbn [op_out fresh_op app snd] in Ho. rewrite Htot in Ho.
  exists l4, [o1; o2; o3; o4'], (q5Select counts). unfold q5_operators. cbn [chain]. rewrite E1, E2, E3, E5.
  split_and!; [done|by repeat constructor| |].
  - unfold q5Records. rewrite check_oracle_spec by done. cbn [lift_spec wrap_err mbind result_bind]. by rewrite Ec.
  - rewrite Ho. apply eq_perm, list_fmap_ext. intros i [[s a] c] _. unfold hot_row. by rewrite Hfire.
Qed.
End Chain.

Lemma q5_chain_any w rekey hot late {S SE} `{KeyedStateLaws S SE} (s : S) l :
  spec_wf w -> NewQ5Rekey (size w) = Some rekey -> NewQ5HotItems (size w) late = Some hot -> late <= max_int64 ->
  ks_view s = ∅ -> Forall bid_valid (l ≫= event_record) -> in_time w min_int64 l ->
  let out := chain (q5_operators w rekey hot) s (l ++ [EvWatermark max_int64]) in
  Forall (fun o => op_err o = None) out.2 ->
  exists sent best, out.1 = Ok sent /\ Forall (fun o => op_dropped o = 0) out.2 /\
    q5Records (l ≫= event_record) (oracle_spec w) = Ok best /\
    sent ≫= event_record ≡ₚ hot_row w <$> map_to_list best.
Proof.
  intros Hw Hrekey Hhot Hlate Hs Hv Hl out He.
  destruct (q5_chain w Hw rekey hot late Hrekey Hhot Hlate l Hv Hl) as (sent & os & best & E & Hd & Hb & Hp).
  destruct (chain_any (q5_operators w rekey hot) s (l ++ [EvWatermark max_int64])) as [E1 E2]; [|done|exact He|].
  { repeat (apply Forall_cons; split; [apply _|]). by apply Forall_nil. }
  rewrite E in E1, E2. exists sent, best. split; [exact E1|]. split; [|by split].
  assert (Forall (fun d => d = 0) (op_dropped <$> out.2)) as Hz by (subst out; rewrite E2; by apply Forall_fmap).
  exact (proj1 (Forall_fmap _ _ _) Hz).
Qed.

(** C11. q5 finds the hot items: over any keyed state that keeps its contract, its
    four operators one after the other (the bids, their counts by auction and
    sliding window, the counts moved onto their windows, the auctions at each
    window's maximum) process a stream of events whose bids are never behind a
    delivered watermark without an error and without a dropped record, and what
    the last one sends on is, up to order, one record per row of the oracle,
    which counts the bids by brute force and selects in each window the auctions,
    ties included, that none other exceeds. *)
Theorem q5_matches_oracle w rekey hot late {S SE} `{KeyedStateLaws S SE} (s : S) l :
  spec_wf w -> NewQ5Rekey (size w) = Some rekey -> NewQ5HotItems (size w) late = Some hot -> late <= max_int64 ->
  ks_view s = ∅ -> Forall bid_valid (l ≫= event_record) -> in_time w min_int64 l ->
  let out := chain (q5_operators w rekey hot) s (l ++ [EvWatermark max_int64]) in
  Forall (fun o => op_err o = None) out.2 ->
  exists sent best, out.1 = Ok sent /\ Forall (fun o => op_dropped o = 0) out.2 /\
    q5Records (l ≫= event_record) (oracle_spec w) = Ok best /\
    sent ≫= event_record ≡ₚ hot_row w <$> map_to_list best.
Proof. apply q5_chain_any. Qed.

(** Three bids on one auction and three on another: a tie in one window, a winner
    in the next. *)
Definition sample_events : list event :=
  [sample_bid 7 1 50 3; sample_bid 8 2 90 5; EvWatermark 2;
   EvElement (NewRecord (NexmarkKey 9) (EncodeAuction (MkAuction 9 1 1 1 1 1 1)) 4);
   sample_bid 8 3 10 12; sample_bid 7 4 90 14; EvWatermark 11; sample_bid 8 5 20 16; sample_bid 7 1 30 31].

Definition sample_window : WindowCount := NewWindowCount 20 10 0.
Definition sample_rekey : Map := default NewBidsOnly (NewQ5Rekey 20).
Definition sample_hot : HotItems := MkHotItems 20 0.

Lemma q5_matches_oracle_witness :
  let out := chain (q5_operators sample_window sample_rekey sample_hot) NewMemory (sample_events ++ [EvWatermark max_int64]) in
  exists sent best, out.1 = Ok sent /\ Forall (fun o => op_dropped o = 0) out.2 /\
    q5Records (sample_events ≫= event_record) (oracle_spec sample_window) = Ok best /\
    sent ≫= event_record ≡ₚ hot_row sample_window <$> map_to_list best.
Proof.
  apply (q5_matches_oracle sample_window sample_rekey sample_hot 0 NewMemory sample_events).
  - split; cbn; [unfold max_int64; lia..|by exists 2|unfold max_int64; lia].
  - reflexivity.
  - reflexivity.
  - unfold max_int64. lia.
  - reflexivity.
  - refine (bool_decide_eq_true_1 _ _). vm_compute. reflexivity.
  - repeat split; cbn; unfold min_int64, max_int64; lia.
  - apply Forall_true. reflexivity.
Defined.
