(* ===== verification/OracleReads.v ===== *)
(** The oracles that read their source themselves ([test/oracle/oracle.go],
    [Counts]; [test/oracle/nexmark.go], [readNexmark]): they come to their end,
    and answer for the whole of the source. *)
From S2P Require Import Prelude Core State Operators Window WindowStore WindowRun Oracle WindowOracle.
From S2P Require Import Nexmark NexmarkSpec Transform NexmarkOracle MaxBidOracle HotItemsSpec Q5.
From S2P Require Generator.

(** * Counts *)

Inductive counts_error :=
| CountsSpec (e : oracle_error)
| CountsOpen (e : Generator.generator_error)
| CountsNext (e : Generator.generator_error).

Fixpoint counts_loop (fuel : nat) (spec : Spec) (src : Generator.Generator) (counts : gmap RowKey Z)
    : option (result counts_error (gmap RowKey Z)) :=
  match fuel with
  | O => None
  | S fuel =>
      match Generator.Next src with
      | (Err e, _) => Some (Err (CountsNext e))
      | (Ok None, _) => Some (Ok counts)
      | (Ok (Some rec), src) => counts_loop fuel spec src (accumulate spec counts rec)
      end
  end.

(** One turn for each record and one for the end. *)
Definition Counts (cfg : Generator.GeneratorConfig) (spec : Spec) : option (result counts_error (gmap RowKey Z)) :=
  match check spec with
  | Err e => Some (Err (CountsSpec e))
  | Ok _ =>
      let src := Generator.NewGenerator cfg in
      match Generator.Open src with
      | Err e => Some (Err (CountsOpen e))
      | Ok _ => counts_loop (S (Z.to_nat (Generator.Count cfg))) spec src ∅
      end
  end.

(** All that a generator produces. *)
Definition generated (cfg : Generator.GeneratorConfig) : list Record_ :=
  Generator.element cfg <$> seqZ 0 (Generator.Count cfg).

Lemma counts_loop_next fuel spec cfg p counts :
  p < Generator.Count cfg ->
  counts_loop (S fuel) spec (Generator.MkGenerator cfg p) counts =
  counts_loop fuel spec (Generator.MkGenerator cfg (add64 p 1)) (accumulate spec counts (Generator.element cfg p)).
Proof.
  intros Hp. cbn [counts_loop]. unfold Generator.Next. cbn [Generator.cfg Generator.pos]. by rewrite (proj2 (Z.leb_gt _ _)).
Qed.

Lemma counts_loop_from cfg spec p counts :
  Generator.Count cfg <= max_int64 -> 0 <= p <= Generator.Count cfg ->
  counts_loop (S (Z.to_nat (Generator.Count cfg - p))) spec (Generator.MkGenerator cfg p) counts =
  Some (Ok (foldl (accumulate spec) counts (Generator.element cfg <$> seqZ p (Generator.Count cfg - p)))).
Proof.
  intros Hc. remember (Z.to_nat (Generator.Count cfg - p)) as n eqn:En. revert p counts En.
  induction n as [|n IH]; intros p counts En Hp.
  - assert (p = Generator.Count cfg) as -> by lia. cbn [counts_loop]. unfold Generator.Next.
    cbn [Generator.cfg Generator.pos]. by rewrite Z.leb_refl, Z.sub_diag.
  - rewrite counts_loop_next by lia. rewrite add64_id by (unfold_ints; lia). rewrite (IH (p + 1)) by lia.
    rewrite (seqZ_cons p) by lia. cbn [fmap list_fmap foldl]. repeat f_equal; lia.
Qed.

(** [Counts] answers for every record the generator produces, and refuses exactly
    the specifications and the configurations that [check] and [Open] do. *)
Theorem Counts_of_all cfg spec :
  Generator.Count cfg <= max_int64 ->
  Counts cfg spec = Some (match check spec, Generator.Open (Generator.NewGenerator cfg) with
                          | Err e, _ => Err (CountsSpec e)
                          | _, Err e => Err (CountsOpen e)
                          | Ok _, Ok _ => wrap_err CountsSpec (countRecords (generated cfg) spec)
                          end).
Proof.
  intros Hc. unfold Counts, countRecords. destruct (check spec) as [[]|]; [|done].
  destruct (Generator.Open (Generator.NewGenerator cfg)) as [[]|] eqn:Eo; [|done].
  apply Generator.Open_ok in Eo as (Hpos & _). pose proof (counts_loop_from cfg spec 0 ∅ Hc ltac:(lia)) as H.
  rewrite Z.sub_0_r in H. exact H.
Qed.

(** * The Nexmark oracles *)

(** All the events of a source. *)
Definition events (c : NexmarkConfig) : list Record_ := At c <$> seqZ 0 (Count c).

Lemma read_loop_next {A} fuel (visit : A -> Record_ -> answer A) c p a :
  p < Count c ->
  read_loop (S fuel) visit (MkNexmark c p) a =
  match visit a (At c p) with Err e => Some (Err e) | Ok a => read_loop fuel visit (MkNexmark c (add64 p 1)) a end.
Proof. intros Hp. cbn [read_loop]. unfold Next. cbn [cfg pos]. by rewrite (proj2 (Z.leb_gt _ _)). Qed.

Lemma read_loop_from {A} (visit : A -> Record_ -> answer A) c p a :
  Count c <= max_int64 -> 0 <= p <= Count c ->
  read_loop (S (Z.to_nat (Count c - p))) visit (MkNexmark c p) a = Some (over visit (At c <$> seqZ p (Count c - p)) a).
Proof.
  intros Hc. remember (Z.to_nat (Count c - p)) as n eqn:En. revert p a En.
  induction n as [|n IH]; intros p a En Hp.
  - assert (p = Count c) as -> by lia. cbn [read_loop]. unfold Next. cbn [cfg pos]. by rewrite Z.leb_refl, Z.sub_diag.
  - rewrite read_loop_next by lia. rewrite (seqZ_cons p) by lia. cbn [fmap list_fmap over]. destruct (visit a (At c p)) as [a'|e]; [|done].
    rewrite add64_id by (unfold_ints; lia). rewrite (IH (p + 1)) by lia. cbn [mbind result_bind].
    replace (Z.succ p) with (p + 1) by lia. by replace (Z.pred (Count c - p)) with (Count c - (p + 1)) by lia.
Qed.

Lemma readNexmark_all {A} (visit : A -> Record_ -> answer A) c a :
  usable (NewNexmark c) -> readNexmark c visit a = Some (over visit (events c) a).
Proof.
  intros [Ho Hc _]. unfold readNexmark. rewrite Ho. pose proof Ho as Hpos. unfold Open in Hpos. cbn [cfg NewNexmark] in Hpos.
  destruct (Z.leb_spec (Count c) 0); [done|]. pose proof (read_loop_from visit c 0 a Hc ltac:(lia)) as H0.
  rewrite Z.sub_0_r in H0. exact H0.
Qed.

(** Every event is one the queries can read. *)
Lemma events_valid c : usable (NewNexmark c) -> config_fits c -> Forall bid_valid (events c).
Proof.
  intros Hu Hf. pose proof (usable_config _ Hu) as Hc. cbn [cfg NewNexmark] in Hc.
  apply Forall_fmap, Forall_forall. intros i _. cbn. unfold At, bid_valid, bidOf. destruct (TypeAt i); cbn [Key Value].
  - done.
  - done.
  - destruct (bid_at_ok c Hc Hf i) as (Hok & _). change (NexmarkTypeOf (EncodeBid (bid_at c i))) with (Ok (E := value_error) EventBid).
    cbn [negb]. rewrite bool_decide_true by done. cbn [negb].
    rewrite (proj2 (decode_bid (EncodeBid (bid_at c i)) (bid_at c i))) by done. done.
Qed.

Lemma with_bid_ok {A} rec (a : A) (f : Bid -> A) : bid_valid rec -> is_ok (with_bid rec a (fun bid => Ok (f bid))) = true.
Proof. intros Hv. rewrite with_bid_valid by done. unfold bid_valid in Hv. by destruct (bidOf rec) as [[bid|]|]. Qed.

Lemma over_ok {A} (visit : A -> Record_ -> answer A) recs a :
  (forall a rec, bid_valid rec -> is_ok (visit a rec) = true) -> Forall bid_valid recs -> is_ok (over visit recs a) = true.
Proof.
  intros Hv Hrecs. revert a. induction Hrecs as [|rec recs Hr _ IH]; intros a; [done|]. cbn.
  specialize (Hv a rec Hr). destruct (visit a rec) as [a'|]; [|done]. apply IH.
Qed.

(** The oracles of an opened source come to their end: they are the answers for
    all its events. *)
Theorem nexmark_oracles_read c factor divisor spec size :
  usable (NewNexmark c) -> config_fits c -> check spec = Ok tt -> 0 < size -> divisor <> 0 ->
  NexmarkQ0 c = Some (Ok (q0Records (events c))) /\
  (exists rows, NexmarkQ1 c factor = Some (Ok rows) /\ q1Records (events c) factor = Ok rows) /\
  (exists rows, NexmarkQ2 c divisor = Some (Ok rows) /\ q2Records (events c) divisor = Ok rows) /\
  (exists rows, NexmarkQ5 c spec = Some (Ok rows) /\ q5Records (events c) spec = Ok rows) /\
  (exists rows, NexmarkQ7 c size = Some (Ok rows) /\ q7Records (events c) size = Ok rows).
Proof.
  intros Hu Hf Hspec Hsize Hdiv. pose proof (events_valid c Hu Hf) as Hv.
  assert (forall {A} (visit : A -> Record_ -> answer A) a, (forall a rec, bid_valid rec -> is_ok (visit a rec) = true) ->
    exists r, readNexmark c visit a = Some (Ok r) /\ over visit (events c) a = Ok r) as Hread.
  { intros A visit a Hvis. rewrite readNexmark_all by done. pose proof (over_ok visit (events c) a Hvis Hv) as Hok.
    destruct (over visit (events c) a) as [r|]; [by exists r|done]. }
  assert (check (MkSpec size size) = Ok tt) as Hsz.
  { unfold check. cbn [Size Slide]. rewrite (proj2 (Z.leb_gt size 0)) by lia. rewrite Z.rem_same by lia. done. }
  split_and!.
  - unfold NexmarkQ0. rewrite readNexmark_all by done. f_equal. unfold q0Records. generalize (∅ : gmap NexmarkRow Z).
    clear. induction (events c) as [|rec recs IH]; intros m; [done|]. cbn. apply IH.
  - apply Hread. intros a rec Hr. by apply with_bid_ok.
  - unfold NexmarkQ2. rewrite (proj2 (Z.eqb_neq _ _)) by done. apply Hread. intros a rec Hr. unfold q2Accumulate.
    rewrite with_bid_valid by done. unfold bid_valid in Hr. destruct (bidOf rec) as [[bid|]|]; [by case_match|done..].
  - destruct (Hread _ (q5Accumulate spec) ∅) as (r & E1 & E2).
    { intros a rec Hr. by apply with_bid_ok. }
    exists (q5Select r). unfold NexmarkQ5, q5Records. rewrite Hspec, E1. cbn [lift_spec wrap_err mbind result_bind]. by rewrite E2.
  - unfold NexmarkQ7, q7Records. rewrite Hsz. cbn [lift_spec wrap_err mbind result_bind]. apply Hread.
    intros a rec Hr. by apply with_bid_ok.
Qed.

(** q5 over the events of an opened source, in time, sends on what the oracle
    answers, which reads the source again. *)
Theorem q5_over_source w rekey hot late c {S SE} `{KeyedStateLaws S SE} (s : S) l :
  spec_wf w -> NewQ5Rekey (size w) = Some rekey -> HotItems.NewQ5HotItems (size w) late = Some hot -> late <= max_int64 ->
  ks_view s = ∅ -> usable (NewNexmark c) -> config_fits c -> l ≫= event_record = events c -> in_time w min_int64 l ->
  let out := Pipeline.chain (q5_operators w rekey hot) s (l ++ [EvWatermark max_int64]) in
  Forall (fun o => op_err o = None) out.2 ->
  exists sent best, out.1 = Ok sent /\ NexmarkQ5 c (oracle_spec w) = Some (Ok best) /\
    sent ≫= event_record ≡ₚ hot_row w <$> map_to_list best.
Proof.
  intros Hw Hrekey Hhot Hlate Hs Hu Hf Hl Ht out He. pose proof (events_valid c Hu Hf) as Hv. rewrite <- Hl in Hv.
  destruct (q5_chain_any w rekey hot late s l) as (sent & best & E & _ & Hb & Hp); try done.
  exists sent, best. split; [exact E|]. split; [|exact Hp]. rewrite Hl in Hb.
  unfold NexmarkQ5, q5Records in *. destruct (check (oracle_spec w)) as [[]|]; [|done].
  cbn [lift_spec wrap_err mbind result_bind] in Hb. rewrite readNexmark_all by done.
  by destruct (over (q5Accumulate (oracle_spec w)) (events c) ∅) as [counts|]; [injection Hb as <-|].
Qed.
