(* ===== verification/QueriesSpec.v ===== *)
(** The stateless Nexmark queries against their oracles. *)
From S2P Require Import Prelude Core State Operators WindowRun Nexmark Transform NexmarkOracle.

(** * What a map emits *)

Fixpoint mapped (f : Record_ -> result op_error (option Record_)) (recs : list Record_) : list Record_ * bool :=
  match recs with
  | [] => ([], true)
  | rec :: recs =>
      match f rec with
      | Err _ => ([], false)
      | Ok out => let '(l, ok) := mapped f recs in (option_list out ++ l, ok)
      end
  end.

(** A map over a stream: its function on the records up to the first error. *)
Lemma run_map m {S SE} `{KeyedState S SE} l (o : OpState S) :
  let '(recs, ok) := mapped (fn m) (l ≫= event_record) in
  op_out (run_events (Map_Operator m) l o).2 = op_out o ++ recs /\
  is_ok (run_events (Map_Operator m) l o).1 = ok.
Proof.
  revert o. induction l as [|e l IH]; intros o; [cbn; by rewrite app_nil_r|].
  unfold run_events. rewrite for_each_cons, bind_cons. destruct e as [rec|wm]; cbn [event_record app mapped].
  2:{ apply (IH o). }
  destruct (mapped (fn m) (l ≫= event_record)) as [recs ok].
  cbn [run_event o_ProcessElement Map_Operator]. unfold Map_ProcessElement, mbind, Op_bind, M_bind, lift.
  destruct (fn m rec) as [[out|]|]; cbn [option_list app].
  - cbn [emit]. specialize (IH (MkOp (op_state o) (op_dropped o) (op_onTime o) (op_out o ++ [out]))).
    cbn [op_out] in IH. by rewrite <- app_assoc in IH.
  - apply (IH o).
  - cbn. by rewrite app_nil_r.
Qed.

(** The rows of a list of records, each with how often it occurs. *)
Definition tally (recs : list Record_) (m : gmap NexmarkRow Z) : gmap NexmarkRow Z :=
  foldl (fun m rec => bump m (rowOf rec)) m recs.

(** An oracle's accumulator that does to the rows what a map does to the
    stream. *)
Lemma over_mapped f acc recs m :
  (forall out rec, match f rec with
                   | Ok o => acc out rec = Ok (tally (option_list o) out)
                   | Err _ => is_ok (acc out rec : answer _) = false
                   end) ->
  let '(l, ok) := mapped f recs in
  match over acc recs m with
  | Ok rows => ok = true /\ rows = tally l m
  | Err _ => ok = false
  end.
Proof.
  intros Hf. revert m. induction recs as [|rec recs IH]; intros m; [done|]. cbn [mapped over].
  specialize (Hf m rec). destruct (f rec) as [o|].
  - rewrite Hf. cbn [mbind result_bind]. specialize (IH (tally (option_list o) m)).
    destruct (mapped f recs) as [l ok]. destruct (over acc recs _); [|done].
    destruct IH as [-> ->]. split; [done|]. unfold tally. by rewrite foldl_app.
  - destruct (acc m rec); [done|]. done.
Qed.

(** Both read a bid out of a record the same way. *)
Lemma bidOf_with_bid {A} rec (a : A) f :
  match bidOf rec with
  | Ok None => with_bid rec a f = Ok a
  | Ok (Some bid) => with_bid rec a f = f bid
  | Err _ => is_ok (with_bid rec a f) = false
  end.
Proof.
  unfold bidOf, with_bid. destruct (NexmarkTypeOf (Value rec)) as [t|]; [|done].
  destruct (bool_decide (t = EventBid)); [|done]. cbn [negb]. by destruct (DecodeBid (Value rec)).
Qed.

Definition agrees (m : Map) (oracle : answer (gmap NexmarkRow Z)) (recs : list Record_) : Prop :=
  forall S SE `(KeyedState S SE) (o : OpState S) l, l ≫= event_record = recs -> op_out o = [] ->
  let out := run_events (Map_Operator m) l o in
  match oracle with
  | Ok rows => out.1 = Ok tt /\ tally (op_out out.2) ∅ = rows
  | Err _ => is_ok out.1 = false
  end.

Lemma agrees_over m acc recs :
  (forall out rec, match fn m rec with
                   | Ok o => acc out rec = Ok (tally (option_list o) out)
                   | Err _ => is_ok (acc out rec : answer _) = false
                   end) -> agrees m (over acc recs ∅) recs.
Proof.
  intros Hf S SE HS o l <- Ho. cbv zeta. pose proof (run_map m l o) as Hr.
  pose proof (over_mapped (fn m) acc (l ≫= event_record) ∅ Hf) as Hov.
  destruct (mapped (fn m) (l ≫= event_record)) as [recs ok]. destruct Hr as [Hout Hok].
  rewrite Ho in Hout. cbn in Hout. rewrite Hout.
  destruct (over acc _ ∅) as [rows|]; [|by rewrite Hov in Hok].
  destruct Hov as [-> ->]. split; [|done]. by destruct (run_events _ l o).1 as [[]|].
Qed.

(** C25. The stateless queries answer as their oracles: over any backend and any
    stream, q0, q1 and q2 (for a divisor that is not zero) emit the rows the
    oracle counts, each as often; and where the oracle refuses a value that is
    not of the layout, the operator stops with an error, and nowhere else. *)
Theorem stateless_queries_match recs factor divisor m2 :
  NewQ2 divisor = Some m2 ->
  agrees NewQ0 (Ok (q0Records recs)) recs /\
  agrees (NewQ1 factor) (q1Records recs factor) recs /\
  agrees m2 (q2Records recs divisor) recs.
Proof.
  intros H2. split_and!.
  - replace (Ok (q0Records recs)) with (over (fun out rec => Ok (q0Accumulate out rec)) recs ∅ : answer _).
    { by apply agrees_over. }
    unfold q0Records. generalize (∅ : gmap NexmarkRow Z).
    induction recs as [|rec recs IH]; intros m; [done|]. cbn. apply IH.
  - apply agrees_over. intros out rec. cbn [fn NewQ1]. unfold q1Accumulate.
    match goal with |- context [with_bid rec out ?f] => pose proof (bidOf_with_bid rec out f) as Hb end.
    destruct (bidOf rec) as [[bid|]|]; cbn [mbind result_bind] in *; exact Hb.
  - unfold NewQ2 in H2. destruct (divisor =? 0); [done|]. injection H2 as <-.
    apply agrees_over. intros out rec. cbn [fn]. unfold q2Accumulate.
    match goal with |- context [with_bid rec out ?f] => pose proof (bidOf_with_bid rec out f) as Hb end.
    destruct (bidOf rec) as [[bid|]|]; cbn [mbind result_bind] in *; [|exact Hb..].
    unfold mret, result_ret. by destruct (negb _).
Qed.

Lemma stateless_queries_match_witness :
  let recs := [NewRecord (NexmarkKey 6) (EncodeBid (MkBid 6 1 50 3)) 3] in
  exists m2, NewQ2 Q2Divisor = Some m2 /\
  agrees NewQ0 (Ok (q0Records recs)) recs /\
  agrees (NewQ1 Q1Factor) (q1Records recs Q1Factor) recs /\ agrees m2 (q2Records recs Q2Divisor) recs.
Proof.
  eexists. split; [reflexivity|].
  apply (stateless_queries_match [NewRecord (NexmarkKey 6) (EncodeBid (MkBid 6 1 50 3)) 3] Q1Factor Q2Divisor). reflexivity.
Defined.
