(* ===== verification/Strconv.v ===== *)
(** Decimal numbers, as [strconv] prints and parses them, and paths, as
    [filepath.Join] builds them: the names of checkpoint directories and files
    are made of both. *)
From S2P Require Import Prelude.

(** * Printing *)

Definition digit (d : Z) : byte := byte_of_Z (48 + d).

(** The decimal digits of [0 <= z < 10 ^ fuel]. *)
Fixpoint decimal (fuel : nat) (z : Z) : bytes :=
  match fuel with
  | O => []
  | S fuel => if z <? 10 then [digit z] else decimal fuel (z / 10) ++ [digit (z mod 10)]
  end.

(** [strconv.FormatInt(z, 10)] and [strconv.Itoa], for an [int64]. *)
Definition FormatInt (z : Z) : bytes :=
  if z <? 0 then Byte.x2d :: decimal 20 (- z) else decimal 20 z.

(** * Parsing *)

Definition is_digit (b : byte) : bool := (48 <=? byte_to_Z b) && (byte_to_Z b <=? 57).

Fixpoint digits_value (l : bytes) (acc : Z) : option Z :=
  match l with
  | [] => Some acc
  | b :: l => if is_digit b then digits_value l (10 * acc + (byte_to_Z b - 48)) else None
  end.

Definition parse_uint (l : bytes) : option Z :=
  match l with [] => None | _ => digits_value l 0 end.

(** [strconv.ParseInt(s, 10, 64)]: a sign is allowed, and so are leading
    zeros. *)
Definition ParseInt (s : bytes) : option Z :=
  match s with
  | [] => None
  | b :: l =>
      if bool_decide (b = Byte.x2d) then
        match parse_uint l with
        | Some v => if 2 ^ 63 <? v then None else Some (- v)
        | None => None
        end
      else
        match parse_uint (if bool_decide (b = Byte.x2b) then l else s) with
        | Some v => if max_int64 <? v then None else Some v
        | None => None
        end
  end.

(** * Paths *)

Definition slash : byte := Byte.x2f.

(** [filepath.Join] of parts that are clean and not empty. *)
Definition Join (a b : bytes) : bytes := a ++ slash :: b.

(** * Facts *)

Lemma is_digit_digit d : 0 <= d < 10 -> is_digit (digit d) = true.
Proof.
  intros Hd. unfold is_digit, digit. rewrite byte_to_of_Z, Z.mod_small by lia.
  apply andb_true_intro. rewrite !Z.leb_le. lia.
Qed.

Lemma digit_value d : 0 <= d < 10 -> byte_to_Z (digit d) - 48 = d.
Proof. intros Hd. unfold digit. rewrite byte_to_of_Z, Z.mod_small; lia. Qed.

Lemma digits_value_app l k acc :
  digits_value (l ++ k) acc =
  match digits_value l acc with Some v => digits_value k v | None => None end.
Proof.
  revert acc. induction l as [|b l IH]; intros acc; [done|]. cbn [app digits_value].
  by destruct (is_digit b).
Qed.

Lemma decimal_value fuel z :
  0 <= z < 10 ^ Z.of_nat fuel -> digits_value (decimal fuel z) 0 = Some z.
Proof.
  revert z. induction fuel as [|fuel IH]; intros z Hz; [cbn in *; f_equal; lia|].
  cbn [decimal]. destruct (Z.ltb_spec z 10).
  - cbn [digits_value]. rewrite is_digit_digit, digit_value by lia. f_equal; lia.
  - rewrite Nat2Z.inj_succ, Z.pow_succ_r in Hz by lia.
    rewrite digits_value_app, IH.
    2:{ split; [apply Z.div_pos; lia|apply Z.div_lt_upper_bound; lia]. }
    pose proof (Z.mod_pos_bound z 10). pose proof (Z.div_mod z 10 ltac:(lia)).
    cbn [digits_value]. rewrite is_digit_digit, digit_value by lia. f_equal. lia.
Qed.

Lemma decimal_digits fuel z :
  0 <= z -> Forall (fun b => is_digit b = true) (decimal fuel z).
Proof.
  revert z. induction fuel as [|fuel IH]; intros z Hz; [constructor|].
  cbn [decimal]. destruct (Z.ltb_spec z 10).
  - constructor; [apply is_digit_digit; lia|constructor].
  - apply Forall_app. split; [apply IH, Z.div_pos; lia|].
    constructor; [|constructor]. apply is_digit_digit. pose proof (Z.mod_pos_bound z 10). lia.
Qed.

Lemma decimal_cons fuel z : (0 < fuel)%nat -> decimal fuel z <> [].
Proof.
  intros Hf. destruct fuel; [lia|]. cbn. case_match; [done|]. intros E. by apply app_eq_nil in E as [_ ?].
Qed.

Lemma parse_uint_decimal z : 0 <= z < 10 ^ 20 -> parse_uint (decimal 20 z) = Some z.
Proof.
  intros Hz. pose proof (decimal_cons 20 z ltac:(lia)). unfold parse_uint.
  pose proof (decimal_value 20 z Hz). by destruct (decimal 20 z).
Qed.

(** Reading back what was printed. *)
Lemma ParseInt_FormatInt z : is_i64 z -> ParseInt (FormatInt z) = Some z.
Proof.
  intros Hz. assert (-10 ^ 20 < z < 10 ^ 20) by (revert Hz; unfold_ints; lia).
  unfold FormatInt. destruct (Z.ltb_spec z 0).
  - cbn [ParseInt]. rewrite bool_decide_true by done.
    rewrite parse_uint_decimal by lia.
    rewrite (proj2 (Z.ltb_ge _ _)) by (revert Hz; unfold_ints; lia). f_equal. lia.
  - pose proof (decimal_digits 20 z ltac:(lia)) as Hd.
    pose proof (parse_uint_decimal z ltac:(lia)) as Hp.
    destruct (decimal 20 z) as [|b l]; [done|]. apply Forall_cons in Hd as [Hb _].
    cbn [ParseInt].
    rewrite !bool_decide_false by (intros ->; by vm_compute in Hb).
    rewrite Hp. by rewrite (proj2 (Z.ltb_ge _ _)) by (revert Hz; unfold_ints; lia).
Qed.

Lemma FormatInt_inj z w : is_i64 z -> is_i64 w -> FormatInt z = FormatInt w -> z = w.
Proof.
  intros Hz Hw E. pose proof (ParseInt_FormatInt z Hz). pose proof (ParseInt_FormatInt w Hw). congruence.
Qed.

(** A printed number never holds a given byte that is neither a digit nor,
    unless it is negative, a minus sign. *)
Lemma FormatInt_no_byte b z :
  is_digit b = false -> b <> Byte.x2d -> b ∉ FormatInt z.
Proof.
  intros Hb Hm. unfold FormatInt. destruct (Z.ltb_spec z 0).
  - intros [?|Hin]%elem_of_cons; [done|].
    pose proof (proj1 (Forall_forall _ _) (decimal_digits 20 (-z) ltac:(lia)) b Hin). cbn in *. congruence.
  - intros Hin. pose proof (proj1 (Forall_forall _ _) (decimal_digits 20 z ltac:(lia)) b Hin).
    cbn in *. congruence.
Qed.

Lemma FormatInt_bytes z : Forall (fun b => is_digit b = true \/ b = Byte.x2d) (FormatInt z).
Proof.
  unfold FormatInt. destruct (Z.ltb_spec z 0); [constructor; [by right|]|]; (eapply Forall_impl; [apply decimal_digits; lia|]); by left.
Qed.

Lemma FormatInt_nonempty z : FormatInt z <> [].
Proof. unfold FormatInt. case_match; [done|]. by apply decimal_cons; lia. Qed.

Lemma FormatInt_no_minus z : 0 <= z -> Byte.x2d ∉ FormatInt z.
Proof.
  intros Hz. unfold FormatInt. rewrite (proj2 (Z.ltb_ge z 0)) by lia. intros Hin.
  pose proof (proj1 (Forall_forall _ _) (decimal_digits 20 z ltac:(lia)) _ Hin) as H. by vm_compute in H.
Qed.

(** The last occurrence of a byte splits a string in one way. *)
Lemma split_last_inj (b : byte) (x y x' y' : bytes) :
  b ∉ y -> b ∉ y' -> x ++ b :: y = x' ++ b :: y' -> x = x' /\ y = y'.
Proof.
  revert x'. induction x as [|c x IH]; intros [|c' x'] Hy Hy' E; cbn in E.
  - by injection E as <-.
  - injection E as <- ->. exfalso. apply Hy. set_solver.
  - injection E as -> <-. exfalso. apply Hy'. set_solver.
  - injection E as <- E. destruct (IH x' Hy Hy' E) as [-> ->]. done.
Qed.

Lemma Join_inj a b a' b' : slash ∉ b -> slash ∉ b' -> Join a b = Join a' b' -> a = a' /\ b = b'.
Proof. apply split_last_inj. Qed.
