(* ===== verification/GoStrings.v ===== *)
(** Functions of Go's [strings] the benchmark reads its flags and the machine's
    files with, on byte strings: [TrimSpace], [Fields], [Split] and [Cut] with a
    separator of one byte, [HasPrefix], [TrimSuffix]. *)
From S2P Require Import Prelude Strconv.

(** * White space *)

(** What [unicode.IsSpace] accepts, in UTF-8. None of these is inside the
    encoding of another rune, so they are found bytewise. *)
Definition spaces : list bytes :=
  [[Byte.x09]; [Byte.x0a]; [Byte.x0b]; [Byte.x0c]; [Byte.x0d]; [Byte.x20];
   [Byte.xc2; Byte.x85]; [Byte.xc2; Byte.xa0]; [Byte.xe1; Byte.x9a; Byte.x80];
   [Byte.xe2; Byte.x80; Byte.x80]; [Byte.xe2; Byte.x80; Byte.x81]; [Byte.xe2; Byte.x80; Byte.x82];
   [Byte.xe2; Byte.x80; Byte.x83]; [Byte.xe2; Byte.x80; Byte.x84]; [Byte.xe2; Byte.x80; Byte.x85];
   [Byte.xe2; Byte.x80; Byte.x86]; [Byte.xe2; Byte.x80; Byte.x87]; [Byte.xe2; Byte.x80; Byte.x88];
   [Byte.xe2; Byte.x80; Byte.x89]; [Byte.xe2; Byte.x80; Byte.x8a]; [Byte.xe2; Byte.x80; Byte.xa8];
   [Byte.xe2; Byte.x80; Byte.xa9]; [Byte.xe2; Byte.x80; Byte.xaf]; [Byte.xe2; Byte.x81; Byte.x9f];
   [Byte.xe3; Byte.x80; Byte.x80]].

Fixpoint strip_prefix (p s : bytes) : option bytes :=
  match p, s with
  | [], _ => Some s
  | x :: p, y :: s => if bool_decide (x = y) then strip_prefix p s else None
  | _ :: _, [] => None
  end.

Definition HasPrefix (s p : bytes) : bool := match strip_prefix p s with Some _ => true | None => false end.

(** What is left after one of [set], if [s] starts with one. *)
Fixpoint strip_one (set : list bytes) (s : bytes) : option bytes :=
  match set with
  | [] => None
  | p :: set => match strip_prefix p s with Some r => Some r | None => strip_one set s end
  end.

Fixpoint trim_front (set : list bytes) (fuel : nat) (s : bytes) : bytes :=
  match fuel with
  | O => s
  | S fuel => match strip_one set s with Some r => trim_front set fuel r | None => s end
  end.

Definition TrimLeft_space (s : bytes) : bytes := trim_front spaces (length s) s.
Definition TrimRight_space (s : bytes) : bytes := rev (trim_front (@rev byte <$> spaces) (length s) (rev s)).
Definition TrimSpace (s : bytes) : bytes := TrimRight_space (TrimLeft_space s).

(** [cur] is the field being read. *)
Fixpoint fields_loop (fuel : nat) (s cur : bytes) : list bytes :=
  let flush rest := match cur with [] => rest | _ => cur :: rest end in
  match fuel with
  | O => flush []
  | S fuel =>
      match strip_one spaces s with
      | Some r => flush (fields_loop fuel r [])
      | None => match s with [] => flush [] | b :: s => fields_loop fuel s (cur ++ [b]) end
      end
  end.
Definition Fields (s : bytes) : list bytes := fields_loop (S (length s)) s [].

(** * Separators *)

Fixpoint Split (sep : byte) (s : bytes) : list bytes :=
  match s with
  | [] => [[]]
  | b :: s =>
      if bool_decide (b = sep) then [] :: Split sep s
      else match Split sep s with f :: fs => (b :: f) :: fs | [] => [[b]] end
  end.

(** What is before and after the first separator. *)
Fixpoint Cut (sep : byte) (s : bytes) : option (bytes * bytes) :=
  match s with
  | [] => None
  | b :: s =>
      if bool_decide (b = sep) then Some ([], s)
      else (fun p => (b :: p.1, p.2)) <$> Cut sep s
  end.

Fixpoint join (sep : bytes) (l : list bytes) : bytes :=
  match l with
  | [] => []
  | [f] => f
  | f :: l => f ++ sep ++ join sep l
  end.

Definition TrimSuffix (s p : bytes) : bytes :=
  match strip_prefix (rev p) (rev s) with Some r => rev r | None => s end.

(** * Facts *)

Lemma strip_prefix_app p s : strip_prefix p (p ++ s) = Some s.
Proof. induction p as [|x p IH]; [done|]. cbn. by rewrite bool_decide_true. Qed.

Lemma strip_prefix_Some p s r : strip_prefix p s = Some r -> s = p ++ r.
Proof.
  revert s. induction p as [|x p IH]; intros s; cbn; [by intros [= ->]|].
  destruct s as [|y s]; [done|]. case_bool_decide as E; [|done]. subst. intros ->%IH. done.
Qed.

Lemma HasPrefix_spec s p : HasPrefix s p = true <-> p `prefix_of` s.
Proof.
  unfold HasPrefix. split.
  - destruct (strip_prefix p s) as [r|] eqn:E; [|done]. intros _. exists r. by apply strip_prefix_Some.
  - intros [r ->]. by rewrite strip_prefix_app.
Qed.

Lemma TrimSuffix_app s p : TrimSuffix (s ++ p) p = s.
Proof. unfold TrimSuffix. by rewrite rev_app_distr, strip_prefix_app, rev_involutive. Qed.

(** A string that neither starts nor ends like a space is left alone. *)
Lemma TrimSpace_id s : strip_one spaces s = None -> strip_one (@rev byte <$> spaces) (rev s) = None -> TrimSpace s = s.
Proof.
  intros H1 H2. unfold TrimSpace, TrimLeft_space. destruct s as [|b s]; [done|].
  cbn [length trim_front]. rewrite H1. unfold TrimRight_space. cbn [length trim_front]. by rewrite H2, rev_involutive.
Qed.

(** Splitting what was joined. *)
Lemma Split_no_sep sep f : sep ∉ f -> Split sep f = [f].
Proof.
  induction f as [|b f IH]; [done|]. intros [Hb Hf]%not_elem_of_cons. cbn. rewrite bool_decide_false by congruence.
  by rewrite IH.
Qed.

Lemma Split_app sep f s : sep ∉ f -> Split sep (f ++ sep :: s) = f :: Split sep s.
Proof.
  induction f as [|b f IH]; cbn; [by rewrite bool_decide_true|].
  intros [Hb Hf]%not_elem_of_cons. rewrite bool_decide_false by congruence. by rewrite IH.
Qed.

Lemma Split_join sep l : l <> [] -> Forall (fun f => sep ∉ f) l -> Split sep (join [sep] l) = l.
Proof.
  intros Hne Hl. induction Hl as [|f l Hf Hl IH]; [done|]. destruct l as [|g l].
  - by apply Split_no_sep.
  - change (join [sep] (f :: g :: l)) with (f ++ sep :: join [sep] (g :: l)). rewrite Split_app by done. by rewrite IH.
Qed.

Lemma Cut_Some sep s a b : Cut sep s = Some (a, b) <-> s = a ++ sep :: b /\ sep ∉ a.
Proof.
  revert a. induction s as [|x s IH]; intros a; cbn.
  - split; [done|]. intros [E _]. by destruct a.
  - case_bool_decide as Hx.
    + subst x. split; [by intros [= <- <-]; split; [|apply not_elem_of_nil]|].
      intros [E Ha]. destruct a as [|y a]; simplify_eq/=; [done|]. set_solver.
    + split.
      * destruct (Cut sep s) as [[c d]|] eqn:Ec; [|done]. cbn. intros [= <- <-].
        destruct (proj1 (IH c) eq_refl) as [-> Hc]. split; [done|]. set_solver.
      * intros [E Ha]. destruct a as [|y a]; simplify_eq/=. rewrite (proj2 (IH a)); [done|]. set_solver.
Qed.

(** * Words *)

(** ASCII that prints and is not a space. *)
Definition graphic (b : byte) : bool := (33 <=? byte_to_Z b) && (byte_to_Z b <=? 126).

(** A word is not empty and has only such bytes: no function here changes it. *)
Definition word (s : bytes) : Prop := s <> [] /\ Forall (fun b => graphic b = true) s.

Lemma strip_one_graphic b s : graphic b = true -> strip_one spaces (b :: s) = None.
Proof. destruct b; intros H; first [discriminate H|reflexivity]. Qed.

Lemma strip_one_graphic_rev b s : graphic b = true -> strip_one (@rev byte <$> spaces) (b :: s) = None.
Proof. destruct b; intros H; first [discriminate H|reflexivity]. Qed.

Lemma TrimSpace_word s : word s -> TrimSpace s = s.
Proof.
  intros [Hne Hs]. apply TrimSpace_id.
  - destruct Hs; [done|by apply strip_one_graphic].
  - destruct s as [|b s _] using rev_ind; [done|]. rewrite rev_app_distr. apply Forall_app in Hs as [_ Hb].
    apply strip_one_graphic_rev. by inversion Hb.
Qed.

Lemma fields_loop_word fuel s cur : Forall (fun b => graphic b = true) s -> (length s < fuel)%nat ->
  fields_loop fuel s cur = match cur ++ s with [] => [] | f => [f] end.
Proof.
  intros Hs. revert fuel cur. induction Hs as [|b s Hb Hs IH]; intros fuel cur Hf; (destruct fuel as [|fuel]; [cbn in Hf; lia|]).
  - cbn. rewrite app_nil_r. by destruct cur.
  - cbn [fields_loop length] in *. rewrite (strip_one_graphic _ _ Hb), IH by lia. rewrite <- app_assoc. done.
Qed.

Lemma Fields_word s : word s -> Fields s = [s].
Proof. intros [Hne Hs]. unfold Fields. rewrite fields_loop_word by (done || lia). by destruct s. Qed.

Lemma FormatInt_word z : word (FormatInt z).
Proof.
  split; [apply FormatInt_nonempty|]. eapply Forall_impl; [apply FormatInt_bytes|].
  intros b [Hb| ->]; [|done]. unfold is_digit, graphic in *. lia.
Qed.

(** A line of words is read back as its words. *)
Lemma fields_loop_step fuel s cur sp rest : Forall (fun b => graphic b = true) s -> spaces !! 5%nat = Some sp ->
  (length s < fuel)%nat -> cur ++ s <> [] ->
  fields_loop fuel (s ++ sp ++ rest) cur = (cur ++ s) :: fields_loop (fuel - S (length s)) rest [].
Proof.
  intros Hs [= <-]. revert fuel cur. induction Hs as [|b s Hb Hs IH]; intros fuel cur Hf Hne; (destruct fuel as [|fuel]; [cbn in Hf; lia|]).
  - cbn [app length]. rewrite app_nil_r in *. replace (S fuel - 1)%nat with fuel by lia. cbn. by destruct cur.
  - cbn [app length fields_loop] in *. rewrite (strip_one_graphic _ _ Hb), IH; [|lia|by destruct cur].
    rewrite <- app_assoc. do 2 f_equal.
Qed.

Definition space : bytes := [Byte.x20].

Lemma fields_loop_join fuel ws : Forall word ws -> (length (join space ws) < fuel)%nat -> fields_loop fuel (join space ws) [] = ws.
Proof.
  intros Hw. revert fuel. induction Hw as [|w ws [Hne Hb] Hws IH]; intros fuel Hf; [by destruct fuel|].
  destruct ws as [|w' ws].
  - cbn [join] in *. rewrite fields_loop_word by done. by destruct w.
  - change (join space (w :: w' :: ws)) with (w ++ space ++ join space (w' :: ws)) in *. rewrite !length_app in Hf. cbn [length space] in Hf.
    rewrite (fields_loop_step _ _ _ space) by (done || lia). cbn [app]. f_equal. apply IH. lia.
Qed.

Lemma Fields_join ws : Forall word ws -> Fields (join space ws) = ws.
Proof. intros Hw. apply fields_loop_join; [done|lia]. Qed.

Lemma join_words_no sep ws : Forall word ws -> graphic sep = false -> sep <> Byte.x20 -> sep ∉ join space ws.
Proof.
  intros Hw Hs Hne. induction Hw as [|w ws [_ Hb] Hws IH]; [by apply not_elem_of_nil|].
  assert (sep ∉ w) as Hw' by (intros H; by rewrite (proj1 (Forall_forall _ _) Hb sep H) in Hs).
  destruct ws as [|w' ws]; [done|]. change (join space (w :: w' :: ws)) with (w ++ space ++ join space (w' :: ws)).
  rewrite !not_elem_of_app. split_and!; [done| |done]. unfold space. set_solver.
Qed.
