(* ===== verification/Float64.v ===== *)
(** Go's [float64]: the IEEE 754 double of the Standard Library's specification,
    which is what Go's arithmetic is. *)
From Stdlib Require Import Floats.SpecFloat.
From S2P Require Import Prelude Strconv.

Definition float64 : Type := spec_float.

#[export] Instance float64_eq_dec : EqDecision float64.
Proof. unfold float64. solve_decision. Defined.

Definition prec : Z := 53.
Definition emax : Z := 1024.

(** The conversion of an integer, which rounds to nearest even. *)
Definition of_int64 (z : Z) : float64 := binary_normalize prec emax z 0 false.

Definition fadd : float64 -> float64 -> float64 := SFadd prec emax.
Definition fsub : float64 -> float64 -> float64 := SFsub prec emax.
Definition fmul : float64 -> float64 -> float64 := SFmul prec emax.
Definition fdiv : float64 -> float64 -> float64 := SFdiv prec emax.
Definition fneg : float64 -> float64 := SFopp.
Definition flt : float64 -> float64 -> bool := SFltb.

(** [int64(x)] truncates; where the result does not fit, Go leaves it to the
    machine, and there is none here. *)
Definition to_int64 (x : float64) : option Z :=
  match x with
  | S754_zero _ => Some 0
  | S754_finite s m e =>
      let a := if 0 <=? e then Zpos m * 2 ^ e else Zpos m / 2 ^ (- e) in
      let z := if s then - a else a in
      if (min_int64 <=? z) && (z <=? max_int64) then Some z else None
  | _ => None
  end.

(** * Printing *)

Definition round_half_even (num den : Z) : Z :=
  let q := num / den in
  match 2 * (num mod den) ?= den with
  | Lt => q
  | Gt => q + 1
  | Eq => if Z.even q then q else q + 1
  end.

(** [m * 2 ^ e], in units of [10 ^ -p]. *)
Definition scaled (p : Z) (m : positive) (e : Z) : Z :=
  if 0 <=? e then Zpos m * 2 ^ e * 10 ^ p else round_half_even (Zpos m * 10 ^ p) (2 ^ (- e)).

(** A natural number in decimal, of any size. *)
Definition digits_of (n : Z) : bytes := decimal (S (Z.to_nat (Z.log2 n))) n.

(** [n] units of [10 ^ -p], with all its decimals. *)
Definition show_scaled (p n : Z) : bytes :=
  if p =? 0 then digits_of n
  else digits_of (n / 10 ^ p) ++ Byte.x2e :: tail (digits_of (10 ^ p + n mod 10 ^ p)).

(** [%.pf], and [%+.pf]. *)
Definition FormatFixed (plus : bool) (p : Z) (x : float64) : bytes :=
  let sign (s : bool) := if s then [Byte.x2d] else if plus then [Byte.x2b] else [] in
  match x with
  | S754_nan => sign false ++ str "NaN"
  | S754_infinity s => str (if s then "-Inf" else "+Inf")
  | S754_zero s => sign s ++ show_scaled p 0
  | S754_finite s m e => sign s ++ show_scaled p (scaled p m e)
  end.

Example format_fixed :
  FormatFixed false 1 (fdiv (of_int64 15) (of_int64 2)) = str "7.5" /\
  FormatFixed true 1 (fdiv (of_int64 (-1)) (of_int64 8)) = str "-0.1" /\
  FormatFixed true 1 (of_int64 100) = str "+100.0" /\
  FormatFixed false 0 (fdiv (of_int64 5) (of_int64 2)) = str "2" /\
  FormatFixed false 2 (fdiv (of_int64 1) (of_int64 3)) = str "0.33".
Proof. by vm_compute. Qed.

(** * Facts *)

(** A zero of either sign, or no number. *)
Definition nothing (x : float64) : Prop := match x with S754_zero _ | S754_nan => True | _ => False end.

Lemma fsub_self x : nothing (fsub x x).
Proof.
  destruct x as [[]|[]| |s m e]; cbn; try done. by rewrite Z.sub_diag.
Qed.

Lemma fdiv_nothing x y : nothing x -> nothing (fdiv x y).
Proof. by destruct x as [[]|[]| |], y as [[]|[]| |[] ? ?]. Qed.

Lemma fmul_nothing x y : nothing x -> nothing (fmul x y).
Proof. by destruct x as [[]|[]| |], y as [[]|[]| |[] ? ?]. Qed.

Definition zero : float64 := S754_zero false.

(** Nothing is below the opposite of what is not below zero. *)
Lemma flt_nothing x t : nothing x -> flt t zero = false -> flt x (fneg t) = false.
Proof. by destruct x as [[]|[]| |], t as [[]|[]| |[] ? ?]. Qed.

(** Small integers convert exactly, and back. *)
Example of_int64_back : to_int64 (of_int64 5000) = Some 5000 /\ to_int64 (fdiv (of_int64 (-7)) (of_int64 2)) = Some (-3).
Proof. by vm_compute. Qed.

Example of_int64_rounds : of_int64 (2 ^ 53 + 1) = of_int64 (2 ^ 53).
Proof. by vm_compute. Qed.
