(* ===== verification/Crc32.v ===== *)
(** CRC-32 with the IEEE polynomial, as [hash/crc32.ChecksumIEEE] computes it,
    and what it detects. *)
From S2P Require Import Prelude.

(** One bit: the reversed polynomial is folded in when a one is shifted out. *)
Definition crc_step (c : Z) : Z :=
  if Z.odd c then Z.lxor (Z.shiftr c 1) 0xEDB88320 else Z.shiftr c 1.

Definition crc_byte (c : Z) (b : byte) : Z :=
  Nat.iter 8 crc_step (Z.lxor c (byte_to_Z b)).

Definition crc_state (c : Z) (l : bytes) : Z := foldl crc_byte c l.

Definition ChecksumIEEE (l : bytes) : Z :=
  Z.lxor (crc_state 0xFFFFFFFF l) 0xFFFFFFFF.

(** The check value every implementation publishes. *)
Example crc_check_value : ChecksumIEEE (str "123456789") = 0xCBF43926.
Proof. vm_compute. reflexivity. Qed.

(** * Facts *)

Lemma u32_testbit z : is_u32 z <-> 0 <= z /\ forall n, 32 <= n -> Z.testbit z n = false.
Proof.
  unfold is_u32. split.
  - intros Hz. split; [lia|]. intros n Hn. rewrite <- (Z.mod_small z (2 ^ 32)) by lia.
    apply Z.mod_pow2_bits_high. lia.
  - intros [H0 Hb]. split; [done|].
    assert (z = z mod 2 ^ 32) as ->; [|apply Z.mod_pos_bound; lia].
    apply Z.bits_inj'. intros n Hn. destruct (Z.lt_ge_cases n 32).
    + by rewrite Z.mod_pow2_bits_low.
    + rewrite Z.mod_pow2_bits_high by lia. by apply Hb.
Qed.

Lemma lxor_u32 a b : is_u32 a -> is_u32 b -> is_u32 (Z.lxor a b).
Proof.
  rewrite !u32_testbit. intros [? Ha] [? Hb]. split; [apply Z.lxor_nonneg; lia|].
  intros n Hn. by rewrite Z.lxor_spec, Ha, Hb.
Qed.

Lemma shiftr_u32 a : is_u32 a -> 0 <= Z.shiftr a 1 < 2 ^ 31.
Proof.
  unfold is_u32. rewrite Z.shiftr_div_pow2 by lia. change (2 ^ 1) with 2. intros Ha.
  split; [apply Z.div_pos; lia|apply Z.div_lt_upper_bound; lia].
Qed.

Lemma crc_step_u32 c : is_u32 c -> is_u32 (crc_step c).
Proof.
  intros Hc. pose proof (shiftr_u32 c Hc). unfold crc_step. case_match.
  - apply lxor_u32; unfold is_u32; lia.
  - unfold is_u32. lia.
Qed.

Lemma shiftr_odd c : c = 2 * Z.shiftr c 1 + Z.b2z (Z.odd c).
Proof.
  rewrite Z.shiftr_div_pow2 by lia. change (2 ^ 1) with 2.
  pose proof (Zmod_odd c). pose proof (Z.div_mod c 2 ltac:(lia)). destruct (Z.odd c); cbn; lia.
Qed.

(** The top bit tells which branch a step took, so that it can be undone. *)
Lemma crc_step_inj c d : is_u32 c -> is_u32 d -> crc_step c = crc_step d -> c = d.
Proof.
  intros Hc Hd E.
  assert (forall z, is_u32 z -> Z.testbit (Z.shiftr z 1) 31 = false) as Htop.
  { intros z Hz. pose proof (shiftr_u32 z Hz). rewrite <- (Z.mod_small (Z.shiftr z 1) (2 ^ 31)) by lia.
    by apply Z.mod_pow2_bits_high. }
  assert (forall z, is_u32 z -> Z.testbit (crc_step z) 31 = Z.odd z) as Hb.
  { intros z Hz. unfold crc_step. destruct (Z.odd z); [|by apply Htop].
    rewrite Z.lxor_spec, Htop by done. reflexivity. }
  assert (Z.odd c = Z.odd d) as Eo by (rewrite <- !Hb by done; congruence).
  assert (Z.shiftr c 1 = Z.shiftr d 1) as Es.
  { unfold crc_step in E. rewrite Eo in E. destruct (Z.odd d); [|done].
    apply (f_equal (fun z => Z.lxor z 0xEDB88320)) in E.
    by rewrite !Z.lxor_assoc, !Z.lxor_nilpotent, !Z.lxor_0_r in E. }
  rewrite (shiftr_odd c), (shiftr_odd d). congruence.
Qed.

Lemma crc_steps_u32 n c : is_u32 c -> is_u32 (Nat.iter n crc_step c).
Proof. intros Hc. induction n; [done|]. cbn. by apply crc_step_u32. Qed.

Lemma crc_steps_inj n c d :
  is_u32 c -> is_u32 d -> Nat.iter n crc_step c = Nat.iter n crc_step d -> c = d.
Proof.
  intros Hc Hd. induction n as [|n IH]; [done|]. cbn. intros E. apply IH.
  by apply crc_step_inj; [apply crc_steps_u32..|].
Qed.

Lemma byte_u32 b : is_u32 (byte_to_Z b).
Proof. pose proof (byte_to_Z_range b). unfold is_u32. lia. Qed.

Lemma crc_byte_u32 c b : is_u32 c -> is_u32 (crc_byte c b).
Proof. intros Hc. apply crc_steps_u32, lxor_u32; [done|apply byte_u32]. Qed.

Lemma crc_state_u32 c l : is_u32 c -> is_u32 (crc_state c l).
Proof. revert c. induction l as [|b l IH]; intros c Hc; [done|]. by apply IH, crc_byte_u32. Qed.

Lemma lxor_inj_r a b c : Z.lxor a c = Z.lxor b c -> a = b.
Proof.
  intros E. apply (f_equal (fun z => Z.lxor z c)) in E.
  by rewrite !Z.lxor_assoc, !Z.lxor_nilpotent, !Z.lxor_0_r in E.
Qed.

Lemma crc_byte_inj c d b : is_u32 c -> is_u32 d -> crc_byte c b = crc_byte d b -> c = d.
Proof.
  intros Hc Hd E. unfold crc_byte in E.
  apply crc_steps_inj, lxor_inj_r in E; [done|apply lxor_u32; [done|apply byte_u32]..].
Qed.

Lemma crc_byte_inj_byte c a b : is_u32 c -> crc_byte c a = crc_byte c b -> a = b.
Proof.
  intros Hc E. unfold crc_byte in E.
  apply crc_steps_inj in E; [|apply lxor_u32; [done|apply byte_u32]..].
  rewrite !(Z.lxor_comm c) in E. by apply lxor_inj_r, byte_to_Z_inj in E.
Qed.

Lemma crc_state_inj l c d : is_u32 c -> is_u32 d -> crc_state c l = crc_state d l -> c = d.
Proof.
  revert c d. induction l as [|b l IH]; intros c d Hc Hd E; [done|].
  apply (crc_byte_inj c d b); [done..|].
  by apply IH; [apply crc_byte_u32..|].
Qed.

Lemma crc_state_app c l k : crc_state c (l ++ k) = crc_state (crc_state c l) k.
Proof. apply foldl_app. Qed.

Lemma ChecksumIEEE_u32 l : is_u32 (ChecksumIEEE l).
Proof. apply lxor_u32; [apply crc_state_u32|]; unfold is_u32; lia. Qed.

(** Changing one byte changes the checksum. *)
Lemma ChecksumIEEE_one_byte l a b k :
  a <> b -> ChecksumIEEE (l ++ a :: k) <> ChecksumIEEE (l ++ b :: k).
Proof.
  intros Hab E. apply lxor_inj_r in E. rewrite !crc_state_app in E.
  assert (is_u32 (crc_state 0xFFFFFFFF l)) as Hs by (apply crc_state_u32; unfold is_u32; lia).
  change (crc_state ?s (?x :: k)) with (crc_state (crc_byte s x) k) in E.
  apply crc_state_inj in E; [|by apply crc_byte_u32..].
  by apply crc_byte_inj_byte in E.
Qed.
