(* ===== verification/CheckpointFormat.v ===== *)
(** The checkpoint files ([pkg/checkpoint/storage.go]): the identity of a
    subtask, the metadata of a job, and the framed, checksummed encodings of
    both with the bounds-checked reader that decodes them. *)
From S2P Require Import Prelude Strconv Crc32.

(** * Identities *)

Record SubtaskKey := MkKey {
  VertexID : bytes;
  Index : Z;
}.

#[export] Instance SubtaskKey_eq_dec : EqDecision SubtaskKey.
Proof. solve_decision. Defined.

#[export] Program Instance SubtaskKey_countable : Countable SubtaskKey :=
  inj_countable' (fun k => (VertexID k, Index k)) (fun '(v, i) => MkKey v i) _.
Next Obligation. by intros []. Qed.

Definition stateSuffix : bytes := str ".state".
Definition tempSuffix : bytes := str ".tmp".
Definition completeName : bytes := str "_COMPLETE".
Definition metadataName : bytes := str "_METADATA".
Definition dirPrefix : bytes := str "chk-".

Definition fileName (k : SubtaskKey) : bytes :=
  VertexID k ++ Byte.x2d :: FormatInt (Index k) ++ stateSuffix.

Record VertexMeta := MkVertex {
  ID : bytes;
  Parallelism : Z;
  Count : Z;
}.

Record Metadata := MkMeta {
  Vertices : list VertexMeta;
  Seed : Z;
}.

Inductive format_error :=
| errBadMagic
| errBadVersion (version want : Z)
| errCRCMismatch
| errWrongSubtask (vertexID : bytes) (index : Z) (want : SubtaskKey)
| errWrongCheckpoint (id want : Z)
| errShortFile
| errBadVertexID
| errVertexCount (got want : nat)
| errVertexMismatch (i : nat) (got want : bytes)
| errParallelismDiff (id : bytes) (got want : Z)
| errCountDiff (id : bytes) (got want : Z).

(** [Metadata.CheckAgainst]: the vertices are compared in order. *)
Fixpoint check_vertices (i : nat) (got want : list VertexMeta) : result format_error unit :=
  match got, want with
  | g :: got, w :: want =>
      if negb (bool_decide (ID g = ID w)) then Err (errVertexMismatch i (ID g) (ID w))
      else if negb (Parallelism g =? Parallelism w)
      then Err (errParallelismDiff (ID g) (Parallelism g) (Parallelism w))
      else if negb (Count g =? Count w) then Err (errCountDiff (ID g) (Count g) (Count w))
      else check_vertices (S i) got want
  | _, _ => Ok tt
  end.

Definition CheckAgainst (m want : Metadata) : result format_error unit :=
  if negb (length (Vertices m) =? length (Vertices want))%nat
  then Err (errVertexCount (length (Vertices m)) (length (Vertices want)))
  else check_vertices 0 (Vertices m) (Vertices want).

Definition Subtasks (m : Metadata) : list SubtaskKey :=
  Vertices m ≫= fun v => MkKey (ID v) <$> seqZ 0 (Parallelism v).

Definition checkVertexID (id : bytes) : result format_error unit :=
  if bool_decide (id = []) then Err errBadVertexID
  else if bool_decide (id = str ".") || bool_decide (id = str "..") then Err errBadVertexID
  else if bool_decide (slash ∈ id) then Err errBadVertexID
  else if 65535 <? Z.of_nat (length id) then Err errBadVertexID
  else Ok tt.

(** * Encoding *)

Definition magic : bytes := str "TDMK".
Definition formatVer : Z := 1.
Definition metadataVer : Z := 1.

(** A body and its checksum. *)
Definition sealed (buf : bytes) : bytes := buf ++ put_uint32 (ChecksumIEEE buf).

Definition encodeSubtaskState (id : Z) (key : SubtaskKey) (payload : bytes) : bytes :=
  sealed (magic ++ put_uint16 formatVer ++ put_uint64 id
    ++ put_uint16 (Z.of_nat (length (VertexID key))) ++ VertexID key
    ++ put_uint32 (Index key) ++ put_uint64 (Z.of_nat (length payload)) ++ payload).

Definition encodeVertex (v : VertexMeta) : bytes :=
  put_uint16 (Z.of_nat (length (ID v))) ++ ID v ++ put_uint32 (Parallelism v)
    ++ put_uint64 (Count v).

Definition encodeMetadata (m : Metadata) : bytes :=
  sealed (magic ++ put_uint16 metadataVer ++ put_uint64 (Seed m)
    ++ put_uint32 (Z.of_nat (length (Vertices m))) ++ (Vertices m ≫= encodeVertex)).

(** * The reader *)

Record reader := MkReader {
  buf : bytes;
  pos : Z;
}.

Definition newReader (raw : bytes) (wantVersion : Z) : result format_error reader :=
  let n := Z.of_nat (length raw) in
  if n <? 4 + 2 + 4 then Err errShortFile
  else if negb (bool_decide (take 4 raw = magic)) then Err errBadMagic
  else
    let body := take (length raw - 4) raw in
    let sum := uint32 (drop (length raw - 4) raw) in
    if negb (ChecksumIEEE body =? sum) then Err errCRCMismatch
    else
      let version := uint16 (drop 4 raw) in
      if negb (version =? wantVersion) then Err (errBadVersion version wantVersion)
      else Ok (MkReader body (4 + 2)).

Local Abbreviation RM := (M format_error reader).

Definition take_n (n : Z) : RM bytes := fun r =>
  if (n <? 0) || (Z.of_nat (length (buf r)) <? pos r + n) then (Err errShortFile, r)
  else (Ok (take (Z.to_nat n) (drop (Z.to_nat (pos r)) (buf r))), MkReader (buf r) (pos r + n)).

Definition read_uint32 : RM Z := b ← take_n 4; mret (uint32 b).
Definition read_uint64 : RM Z := b ← take_n 8; mret (uint64 b).

Definition shortString : RM bytes :=
  b ← take_n 2; take_n (uint16 b).

Definition read_bytes (n : Z) : RM bytes := fun r =>
  if Z.of_nat (length (buf r)) - pos r <? n then (Err errShortFile, r)
  else
    match take_n n r with
    | (Err e, r) => (Err e, r)
    | (Ok out, r) =>
        if negb (pos r =? Z.of_nat (length (buf r))) then (Err errShortFile, r)
        else (Ok out, r)
    end.

Definition decodeSubtaskState (raw : bytes) (wantID : Z) (wantKey : SubtaskKey)
    : result format_error bytes :=
  match newReader raw formatVer with
  | Err e => Err e
  | Ok r =>
      fst ((id ← read_uint64;
            if negb (i64 id =? wantID) then fail (errWrongCheckpoint (i64 id) wantID)
            else
              vertexID ← shortString;
              index ← read_uint32;
              if negb (bool_decide (vertexID = VertexID wantKey)) || negb (index =? Index wantKey)
              then fail (errWrongSubtask vertexID index wantKey)
              else
                payloadLen ← read_uint64;
                read_bytes payloadLen) r)
  end.

(** One turn of the loop over the vertices. *)
Definition readVertex : M format_error (reader * list VertexMeta) unit := fun '(r, l) =>
  match (id ← shortString;
         parallelism ← read_uint32;
         count ← read_uint64;
         mret (MkVertex id parallelism (i64 count))) r with
  | (Ok v, r) => (Ok tt, (r, l ++ [v]))
  | (Err e, r) => (Err e, (r, l))
  end.

Definition decodeMetadata (raw : bytes) : result format_error Metadata :=
  match newReader raw metadataVer with
  | Err e => Err e
  | Ok r =>
      match (seed ← read_uint64; n ← read_uint32; mret (seed, n)) r with
      | (Err e, _) => Err e
      | (Ok (seed, n), r) =>
          match repeat_Z n readVertex (r, []) with
          | (Err e, _) => Err e
          | (Ok _, (_, vertices)) => Ok (MkMeta vertices seed)
          end
      end
  end.

(** * Facts *)

Lemma drop_app_n {A} (n : nat) (l k : list A) : length l = n -> drop n (l ++ k) = k.
Proof. intros <-. apply drop_app_length. Qed.
Lemma take_app_n {A} (n : nat) (l k : list A) : length l = n -> take n (l ++ k) = l.
Proof. intros <-. apply take_app_length. Qed.

(** Where a reader stands: what is left of its buffer. *)
Definition stands (r : reader) (l : bytes) : Prop :=
  0 <= pos r <= Z.of_nat (length (buf r)) /\ drop (Z.to_nat (pos r)) (buf r) = l.

Lemma stands_length r l : stands r l -> Z.of_nat (length (buf r)) = pos r + Z.of_nat (length l).
Proof. intros [Hp <-]. rewrite length_drop. lia. Qed.

Lemma take_n_ok r x l :
  stands r (x ++ l) ->
  exists r', take_n (Z.of_nat (length x)) r = (Ok x, r') /\ stands r' l.
Proof.
  intros Hs. pose proof (stands_length _ _ Hs) as Hl. destruct Hs as [Hp Hd].
  rewrite length_app in Hl. unfold take_n.
  rewrite (proj2 (Z.ltb_ge _ 0)), (proj2 (Z.ltb_ge _ _)) by lia. cbn [orb].
  rewrite Nat2Z.id, Hd, take_app_n by done. eexists. split; [done|]. split; cbn; [lia|].
  rewrite Z2Nat.inj_add, Nat2Z.id, <- drop_drop, Hd by lia. by apply drop_app_n.
Qed.

Lemma read_uint32_ok r z l :
  stands r (put_uint32 z ++ l) -> exists r', read_uint32 r = (Ok (u32 z), r') /\ stands r' l.
Proof.
  intros (r' & E & Hs)%take_n_ok. rewrite length_put_uint32 in E.
  exists r'. unfold read_uint32, mbind, M_bind. change (Z.of_nat 4) with 4 in E. rewrite E.
  split; [|done]. by rewrite uint32_put'.
Qed.

Lemma read_uint64_ok r z l :
  stands r (put_uint64 z ++ l) -> exists r', read_uint64 r = (Ok (u64 z), r') /\ stands r' l.
Proof.
  intros (r' & E & Hs)%take_n_ok. rewrite length_put_uint64 in E.
  exists r'. unfold read_uint64, mbind, M_bind. change (Z.of_nat 8) with 8 in E. rewrite E.
  split; [|done]. by rewrite uint64_put'.
Qed.

Lemma shortString_ok r x l :
  Z.of_nat (length x) <= 65535 ->
  stands r (put_uint16 (Z.of_nat (length x)) ++ x ++ l) ->
  exists r', shortString r = (Ok x, r') /\ stands r' l.
Proof.
  intros Hx (r1 & E1 & Hs1)%take_n_ok. rewrite length_put_uint16 in E1.
  change (Z.of_nat 2) with 2 in E1.
  destruct (take_n_ok _ _ _ Hs1) as (r2 & E2 & Hs2). exists r2.
  unfold shortString, mbind, M_bind. rewrite E1.
  rewrite uint16_put'. unfold u16.
  by rewrite Z.mod_small by lia.
Qed.

Lemma read_bytes_ok r x :
  stands r x -> exists r', read_bytes (Z.of_nat (length x)) r = (Ok x, r').
Proof.
  intros Hs. pose proof (stands_length _ _ Hs) as Hl. unfold read_bytes.
  rewrite (proj2 (Z.ltb_ge _ _)) by lia. rewrite <- (app_nil_r x) in Hs.
  destruct (take_n_ok _ _ _ Hs) as (r' & -> & Hs'). pose proof (stands_length _ _ Hs') as Hl'.
  cbn in Hl'. rewrite (proj2 (Z.eqb_eq _ _)) by lia. by eexists.
Qed.

Lemma newReader_sealed body v :
  0 <= v < 65536 ->
  exists r, newReader (sealed (magic ++ put_uint16 v ++ body)) v = Ok r /\ stands r body.
Proof.
  intros Hv. unfold newReader, sealed.
  set (b := magic ++ put_uint16 v ++ body).
  assert (length b = (6 + length body)%nat) as Hb.
  { unfold b. rewrite !length_app, length_put_uint16. done. }
  rewrite length_app, length_put_uint32, Hb.
  rewrite (proj2 (Z.ltb_ge _ _)) by lia.
  assert (take 4 (b ++ put_uint32 (ChecksumIEEE b)) = magic) as ->.
  { unfold b. rewrite <- app_assoc. by apply take_app_n. }
  rewrite bool_decide_true by done. cbn [negb].
  replace (6 + length body + 4 - 4)%nat with (length b) by lia.
  rewrite take_app_length, drop_app_length.
  rewrite uint32_put'. unfold u32.
  pose proof (ChecksumIEEE_u32 b) as Hu. rewrite Z.mod_small by exact Hu. rewrite Z.eqb_refl.
  assert (uint16 (drop 4 (b ++ put_uint32 (ChecksumIEEE b))) = v) as ->.
  { unfold b at 1. rewrite <- app_assoc. rewrite drop_app_n by done. rewrite <- app_assoc, uint16_put.
    unfold u16. by rewrite Z.mod_small. }
  rewrite Z.eqb_refl. eexists. split; [done|]. split; cbn [pos buf]; [lia|].
  unfold b. rewrite app_assoc. by apply drop_app_n.
Qed.

Definition key_ok (k : SubtaskKey) : Prop :=
  Z.of_nat (length (VertexID k)) <= 65535 /\ is_u32 (Index k).

Lemma decode_encode_state id key payload :
  is_i64 id -> key_ok key -> Z.of_nat (length payload) <= max_int64 ->
  decodeSubtaskState (encodeSubtaskState id key payload) id key = Ok payload.
Proof.
  intros Hid [Hv Hi] Hp. unfold decodeSubtaskState, encodeSubtaskState.
  destruct (newReader_sealed (put_uint64 id ++ put_uint16 (Z.of_nat (length (VertexID key))) ++
    VertexID key ++ put_uint32 (Index key) ++ put_uint64 (Z.of_nat (length payload)) ++ payload)
    formatVer) as (r & -> & Hs); [unfold formatVer; lia|].
  unfold mbind, M_bind.
  destruct (read_uint64_ok _ _ _ Hs) as (r1 & -> & Hs1).
  rewrite i64_u64, i64_id, Z.eqb_refl by done. cbn [negb].
  destruct (shortString_ok _ _ _ Hv Hs1) as (r2 & -> & Hs2).
  destruct (read_uint32_ok _ _ _ Hs2) as (r3 & -> & Hs3).
  unfold u32. rewrite Z.mod_small by exact Hi.
  rewrite bool_decide_true, Z.eqb_refl by done. cbn [negb orb].
  destruct (read_uint64_ok _ _ _ Hs3) as (r4 & -> & Hs4).
  rewrite u64_id by (revert Hp; unfold_ints; lia).
  destruct (read_bytes_ok _ _ Hs4) as (r5 & ->). done.
Qed.

(** A file is only ever read as the checkpoint and the subtask it was written
    for. *)
Lemma decode_identity id key payload id' key' q :
  is_i64 id -> key_ok key -> Z.of_nat (length payload) <= max_int64 ->
  decodeSubtaskState (encodeSubtaskState id key payload) id' key' = Ok q ->
  id' = id /\ key' = key /\ q = payload.
Proof.
  intros Hid [Hv Hi] Hp. unfold decodeSubtaskState, encodeSubtaskState.
  destruct (newReader_sealed (put_uint64 id ++ put_uint16 (Z.of_nat (length (VertexID key))) ++
    VertexID key ++ put_uint32 (Index key) ++ put_uint64 (Z.of_nat (length payload)) ++ payload)
    formatVer) as (r & -> & Hs); [unfold formatVer; lia|].
  unfold mbind, M_bind.
  destruct (read_uint64_ok _ _ _ Hs) as (r1 & -> & Hs1). rewrite i64_u64, i64_id by done.
  destruct (Z.eqb_spec id id') as [->|]; [|done]. cbn [negb].
  destruct (shortString_ok _ _ _ Hv Hs1) as (r2 & -> & Hs2).
  destruct (read_uint32_ok _ _ _ Hs2) as (r3 & -> & Hs3).
  unfold u32. rewrite Z.mod_small by exact Hi.
  case_bool_decide as Ev; [|done]. cbn [negb orb].
  destruct (Z.eqb_spec (Index key) (Index key')) as [Ei|]; [|done]. cbn [negb].
  destruct (read_uint64_ok _ _ _ Hs3) as (r4 & -> & Hs4).
  rewrite u64_id by (revert Hp; unfold_ints; lia).
  destruct (read_bytes_ok _ _ Hs4) as (r5 & ->). cbn. intros [= <-].
  split_and!; [done| |done]. destruct key, key'. cbn in *. congruence.
Qed.

(** ** Corruption *)

Lemma uint32_inj a b : length a = 4%nat -> length b = 4%nat -> uint32 a = uint32 b -> a = b.
Proof.
  intros Ha Hb E. unfold uint32 in E. rewrite !take_ge in E by lia.
  apply be_Z_inj; [congruence|done].
Qed.

Lemma newReader_crc raw v r :
  newReader raw v = Ok r ->
  exists body sum, raw = body ++ sum /\ length sum = 4%nat /\ ChecksumIEEE body = uint32 sum.
Proof.
  unfold newReader. destruct (Z.ltb_spec (Z.of_nat (length raw)) (4 + 2 + 4)); [done|].
  destruct (negb (bool_decide (take 4 raw = magic))); [done|].
  destruct (Z.eqb_spec (ChecksumIEEE (take (length raw - 4) raw)) (uint32 (drop (length raw - 4) raw)))
    as [E|]; [|done].
  intros _. exists (take (length raw - 4) raw), (drop (length raw - 4) raw).
  split_and!; [by rewrite take_drop|rewrite length_drop; lia|done].
Qed.

Lemma split_around {A} (l : list A) a k body sum :
  l ++ a :: k = body ++ sum ->
  (exists x, body = l ++ a :: x /\ k = x ++ sum) \/ (exists x, l = body ++ x /\ sum = x ++ a :: k).
Proof.
  intros E. apply app_eq_app in E as [x [(-> & E)|(-> & E)]].
  - right. by exists x.
  - destruct x as [|y x]; cbn in E.
    + right. exists []. by rewrite !app_nil_r.
    + injection E as <- ->. left. by exists x.
Qed.

(** At most one of two files that differ in one byte passes the checks. *)
Lemma newReader_one_byte l a b k v w r :
  a <> b -> newReader (l ++ a :: k) v = Ok r -> is_ok (newReader (l ++ b :: k) w) = false.
Proof.
  intros Hab E1. destruct (newReader (l ++ b :: k) w) as [r'|e] eqn:E2; [|done]. exfalso.
  apply newReader_crc in E1 as (body & sum & E1 & Hs1 & Hc1).
  apply newReader_crc in E2 as (body' & sum' & E2 & Hs2 & Hc2).
  apply split_around in E1 as [(x & -> & ->)|(x & -> & ->)];
    apply split_around in E2 as [(y & Ey & Ek)|(y & Ey & ->)].
  - apply app_inj_2 in Ek as [<- <-]; [|congruence]. subst body'.
    by apply (ChecksumIEEE_one_byte l a b x); [|congruence].
  - apply (f_equal length) in Ey. revert Ey Hs2. rewrite !length_app. cbn. rewrite length_app. lia.
  - subst. revert Hs1 Hs2. rewrite !length_app. cbn. rewrite length_app. lia.
  - apply app_inj_2 in Ey as [<- <-].
    2:{ revert Hs1 Hs2. rewrite !length_app. cbn. lia. }
    rewrite Hc1 in Hc2. apply uint32_inj in Hc2; [|done..].
    apply app_inv_head in Hc2. congruence.
Qed.

(** ** Metadata *)

Definition vertex_ok (v : VertexMeta) : Prop :=
  Z.of_nat (length (ID v)) <= 65535 /\ is_u32 (Parallelism v) /\ is_i64 (Count v).

Definition meta_ok (m : Metadata) : Prop :=
  Forall vertex_ok (Vertices m) /\ is_u64 (Seed m) /\ Z.of_nat (length (Vertices m)) < 2 ^ 32.

Lemma readVertex_ok v r l rest :
  vertex_ok v -> stands r (encodeVertex v ++ rest) ->
  exists r', readVertex (r, l) = (Ok tt, (r', l ++ [v])) /\ stands r' rest.
Proof.
  intros (Hv & Hp & Hc) Hs. unfold encodeVertex in Hs. rewrite <- !app_assoc in Hs.
  destruct (shortString_ok _ _ _ Hv Hs) as (r1 & E1 & Hs1).
  destruct (read_uint32_ok _ _ _ Hs1) as (r2 & E2 & Hs2).
  destruct (read_uint64_ok _ _ _ Hs2) as (r3 & E3 & Hs3).
  exists r3. split; [|done]. unfold readVertex, mbind, M_bind. rewrite E1, E2, E3. cbn.
  unfold u32. rewrite Z.mod_small by exact Hp. rewrite i64_u64, i64_id by done. by destruct v.
Qed.

Lemma readVertices_ok vs r l rest :
  Forall vertex_ok vs -> stands r ((vs ≫= encodeVertex) ++ rest) ->
  exists r', repeat_nat (length vs) readVertex (r, l) = (Ok tt, (r', l ++ vs)) /\ stands r' rest.
Proof.
  intros Hvs. revert r l. induction Hvs as [|v vs Hv Hvs IH]; intros r l Hs.
  { exists r. by rewrite app_nil_r. }
  cbn [mbind list_bind length repeat_nat] in *. rewrite <- app_assoc in Hs.
  destruct (readVertex_ok v r l _ Hv Hs) as (r1 & E1 & Hs1).
  unfold mbind, M_bind. rewrite E1. destruct (IH r1 (l ++ [v]) Hs1) as (r2 & E2 & Hs2).
  exists r2. rewrite E2, <- app_assoc. done.
Qed.

Lemma decode_encode_metadata m : meta_ok m -> decodeMetadata (encodeMetadata m) = Ok m.
Proof.
  intros (Hv & Hseed & Hn). unfold decodeMetadata, encodeMetadata.
  destruct (newReader_sealed (put_uint64 (Seed m) ++ put_uint32 (Z.of_nat (length (Vertices m)))
    ++ (Vertices m ≫= encodeVertex)) metadataVer) as (r & -> & Hs); [unfold metadataVer; lia|].
  unfold mbind at 1 2, M_bind.
  destruct (read_uint64_ok _ _ _ Hs) as (r1 & -> & Hs1).
  destruct (read_uint32_ok _ _ _ Hs1) as (r2 & -> & Hs2). cbn [mret M_ret].
  rewrite repeat_Z_nat. unfold u32. rewrite Z.mod_small, Nat2Z.id by lia.
  rewrite <- (app_nil_r (Vertices m ≫= encodeVertex)) in Hs2.
  destruct (readVertices_ok _ _ [] _ Hv Hs2) as (r3 & -> & _). cbn.
  rewrite u64_id by done. by destruct m.
Qed.

(** ** Names *)

Lemma suffix_inj {A} (x y s : list A) : x ++ s = y ++ s -> x = y.
Proof. apply app_inv_tail. Qed.

Lemma fileName_inj k k' :
  0 <= Index k <= max_int64 -> 0 <= Index k' <= max_int64 -> fileName k = fileName k' -> k = k'.
Proof.
  intros Hi Hi' E. unfold fileName in E. rewrite !app_comm_cons, !app_assoc in E.
  apply suffix_inj in E. apply split_last_inj in E as [E1 E2]; [|apply FormatInt_no_minus; lia..].
  apply FormatInt_inj in E2; [|unfold_ints; lia..]. destruct k, k'. cbn in *. congruence.
Qed.

Lemma checkVertexID_ok id :
  checkVertexID id = Ok tt ->
  id <> [] /\ (slash ∉ id) /\ Z.of_nat (length id) <= 65535 /\ id <> str "." /\ id <> str "..".
Proof.
  unfold checkVertexID. case_bool_decide; [done|]. case_bool_decide; [done|].
  case_bool_decide; [done|]. case_bool_decide; [done|].
  destruct (Z.ltb_spec 65535 (Z.of_nat (length id))); [done|]. tauto.
Qed.

Lemma fileName_no_slash k : slash ∉ VertexID k -> slash ∉ fileName k.
Proof.
  intros Hv. unfold fileName.
  rewrite elem_of_app, elem_of_cons, elem_of_app. intros [?|[E|[Hf|Hs]]]; [done|done| |].
  - by apply (FormatInt_no_byte slash (Index k)) in Hf.
  - revert Hs. apply (bool_decide_eq_true_1 (slash ∉ stateSuffix)). vm_compute. reflexivity.
Qed.

(** * The properties *)

(** A state file reads back: what is written for a subtask and a checkpoint
    decodes, for that subtask and that checkpoint, to its payload; for any other
    subtask or checkpoint it is refused. *)
Theorem state_file_round_trip id key payload :
  is_i64 id -> key_ok key -> Z.of_nat (length payload) <= max_int64 ->
  decodeSubtaskState (encodeSubtaskState id key payload) id key = Ok payload /\
  forall id' key', (id', key') <> (id, key) ->
    is_ok (decodeSubtaskState (encodeSubtaskState id key payload) id' key') = false.
Proof.
  intros Hid Hk Hp. split; [by apply decode_encode_state|].
  intros id' key' Hne. destruct (decodeSubtaskState _ id' key') as [q|] eqn:E; [|done].
  apply decode_identity in E as (-> & -> & _); done.
Qed.

Lemma state_file_round_trip_witness :
  let key := MkKey (str "count") 3 in
  decodeSubtaskState (encodeSubtaskState 7 key (str "payload")) 7 key = Ok (str "payload") /\
  forall id' key', (id', key') <> (7, key) ->
    is_ok (decodeSubtaskState (encodeSubtaskState 7 key (str "payload")) id' key') = false.
Proof.
  apply (state_file_round_trip 7 (MkKey (str "count") 3) (str "payload"));
    [unfold_ints; lia|split; [vm_compute; discriminate|unfold is_u32; cbn; lia]|vm_compute; discriminate].
Defined.

(** The metadata file reads back. *)
Theorem metadata_round_trip m : meta_ok m -> decodeMetadata (encodeMetadata m) = Ok m.
Proof. apply decode_encode_metadata. Qed.

Lemma metadata_round_trip_witness :
  let m := MkMeta [MkVertex (str "src") 2 100; MkVertex (str "sink") 1 0] 42 in
  decodeMetadata (encodeMetadata m) = Ok m.
Proof.
  apply (metadata_round_trip (MkMeta [MkVertex (str "src") 2 100; MkVertex (str "sink") 1 0] 42)).
  split; [|split; [unfold_ints; cbn; lia|cbn; lia]].
  repeat constructor; try (vm_compute; discriminate); unfold_ints; cbn; lia.
Defined.

(** C33. A corrupted byte is caught: change any one byte of a state file or of a
    metadata file, and no subtask and no checkpoint reads it. *)
Theorem corrupted_byte_refused l a b k :
  a <> b ->
  (forall id key payload id' key', encodeSubtaskState id key payload = l ++ a :: k ->
    is_ok (decodeSubtaskState (l ++ b :: k) id' key') = false) /\
  (forall m, encodeMetadata m = l ++ a :: k -> is_ok (decodeMetadata (l ++ b :: k)) = false).
Proof.
  intros Hab.
  assert (forall v body, 0 <= v < 65536 -> sealed (magic ++ put_uint16 v ++ body) = l ++ a :: k ->
    forall w, is_ok (newReader (l ++ b :: k) w) = false) as Hgen.
  { intros v body Hv E w. destruct (newReader_sealed body v Hv) as (r & Er & _). rewrite E in Er.
    by eapply newReader_one_byte. }
  split.
  - intros id key payload id' key' E. unfold decodeSubtaskState.
    unfold encodeSubtaskState in E. apply Hgen with (w := formatVer) in E; [|unfold formatVer; lia].
    by destruct (newReader (l ++ b :: k) formatVer).
  - intros m E. unfold decodeMetadata.
    unfold encodeMetadata in E. apply Hgen with (w := metadataVer) in E; [|unfold metadataVer; lia].
    by destruct (newReader (l ++ b :: k) metadataVer).
Qed.

Definition sample_file : bytes := encodeSubtaskState 7 (MkKey (str "c") 3) (str "payload").

Lemma corrupted_byte_refused_witness :
  is_ok (decodeSubtaskState (take 30 sample_file ++ Byte.x00 :: drop 31 sample_file)
    7 (MkKey (str "c") 3)) = false.
Proof.
  apply (proj1 (corrupted_byte_refused (take 30 sample_file) Byte.x61 Byte.x00 (drop 31 sample_file)
    ltac:(discriminate)) 7 (MkKey (str "c") 3) (str "payload")).
  vm_compute. reflexivity.
Defined.

(** File names keep subtasks apart: different subtasks of a job have
    different state files, none of which is a path into another directory, the
    metadata file or the marker. *)
Theorem file_names_distinct k k' :
  0 <= Index k <= max_int64 -> 0 <= Index k' <= max_int64 -> checkVertexID (VertexID k) = Ok tt ->
  (fileName k = fileName k' -> k = k') /\ (slash ∉ fileName k) /\
  fileName k <> metadataName /\ fileName k <> completeName.
Proof.
  intros Hi Hi' Hc. apply checkVertexID_ok in Hc as (_ & Hs & _).
  assert (forall n, last n <> Some Byte.x65 -> fileName k <> n) as Hl.
  { intros n Hn E. apply Hn. rewrite <- E. unfold fileName.
    by rewrite app_comm_cons, app_assoc, last_app. }
  split_and!; [by apply fileName_inj|by apply fileName_no_slash| |].
  - apply Hl. vm_compute. discriminate.
  - apply Hl. vm_compute. discriminate.
Qed.

Lemma file_names_distinct_witness :
  let k := MkKey (str "a-1") 2 in let k' := MkKey (str "a") 12 in
  (fileName k = fileName k' -> k = k') /\ (slash ∉ fileName k) /\
  fileName k <> metadataName /\ fileName k <> completeName.
Proof.
  apply (file_names_distinct (MkKey (str "a-1") 2) (MkKey (str "a") 12)); cbn; unfold_ints;
    [lia|lia|vm_compute; reflexivity].
Defined.
