(* ===== verification/Storage.v ===== *)
(** Checkpoint storage ([pkg/checkpoint/storage.go]): the order in which the
    files of a checkpoint reach the disk, and reading one back. The writes go
    through the [fileSystem] seam of the source; a model of a disk that loses
    what was not synced is an instance of it. *)
From S2P Require Import Prelude Strconv Crc32 CheckpointFormat.

(** * The seam *)

(** [fileSystem] and [syncFile]: [F] is an open file. *)
Class fileSystem (FS F FE : Type) := {
  fs_MkdirAll : bytes -> M FE FS unit;
  fs_Create : bytes -> M FE FS F;
  fs_Rename : bytes -> bytes -> M FE FS unit;
  fs_SyncDir : bytes -> M FE FS unit;
  fs_Remove : bytes -> M FE FS unit;
  sf_Write : F -> bytes -> M FE FS unit;
  sf_Sync : F -> M FE FS unit;
  sf_Close : F -> M FE FS unit;
}.
#[global] Hint Mode fileSystem ! - - : typeclass_instances.

(** What the storage reports; [ErrReadMetadata] wraps the error of reading the
    metadata file, which is then that it does not exist. *)
Inductive storage_error (FE : Type) :=
| ErrFS (e : FE)
| ErrFormat (e : format_error)
| errNoCheckpoint
| ErrReadMetadata
| errMissingStateFile (key : SubtaskKey).
Arguments ErrFS {FE}.
Arguments ErrFormat {FE}.
Arguments errNoCheckpoint {FE}.
Arguments ErrReadMetadata {FE}.
Arguments errMissingStateFile {FE}.

(** [Storage.dir] of a storage rooted at [root]. *)
Definition dir (root : bytes) (id : Z) : bytes := Join root (dirPrefix ++ FormatInt id).

Section Writes.
Context {FS F FE : Type} `{fileSystem FS F FE}.

(** A cleanup whose result is dropped. *)
Definition ignoring {A} (m : M FE FS A) (e : FE) : M FE FS unit := fun s =>
  (Err e, (m s).2).

(** [m] and, when it fails, the cleanup and its error. *)
Definition or_else (m : M FE FS unit) (cleanup : FE -> M FE FS unit) : M FE FS unit := fun s =>
  match m s with
  | (Ok _, s) => (Ok tt, s)
  | (Err e, s) => cleanup e s
  end.

Definition writeFileSynced (dir name data : bytes) : M FE FS unit :=
  let tmp := Join dir (name ++ tempSuffix) in
  f ← fs_Create tmp;
  let close_and_remove (e : FE) : M FE FS unit := fun s =>
    ignoring (fs_Remove tmp) e ((sf_Close f) s).2 in
  _ ← or_else (sf_Write f data) close_and_remove;
  _ ← or_else (sf_Sync f) close_and_remove;
  _ ← or_else (sf_Close f) (ignoring (fs_Remove tmp));
  fs_Rename tmp (Join dir name).

Definition on_fs {A} (m : M FE FS A) : M (storage_error FE) FS A := fun s =>
  let '(r, s) := m s in (wrap_err ErrFS r, s).

Definition WriteSubtaskState (root : bytes) (id : Z) (key : SubtaskKey) (payload : bytes)
    : M (storage_error FE) FS unit :=
  match checkVertexID (VertexID key) with
  | Err e => fail (ErrFormat e)
  | Ok _ =>
      _ ← on_fs (fs_MkdirAll (dir root id));
      on_fs (writeFileSynced (dir root id) (fileName key) (encodeSubtaskState id key payload))
  end.

Definition Complete (root : bytes) (id : Z) (meta : Metadata) : M (storage_error FE) FS unit :=
  _ ← on_fs (fs_MkdirAll (dir root id));
  _ ← on_fs (writeFileSynced (dir root id) metadataName (encodeMetadata meta));
  _ ← on_fs (fs_SyncDir (dir root id));
  _ ← on_fs (writeFileSynced (dir root id) completeName (FormatInt id ++ [Byte.x0a]));
  on_fs (fs_SyncDir (dir root id)).
End Writes.

(** * Reading

    Reads go to package [os]: the files there are, by path, and what a
    directory lists (the name of an entry, and whether it is a directory). *)

Record image := MkImage {
  im_files : gmap bytes bytes;
  im_list : bytes -> option (list (bytes * bool));
}.

Definition has_prefix (p s : bytes) : bool := bool_decide (take (length p) s = p).

(** [Latest]: the highest numbered directory with a marker. *)
Definition Latest (root : bytes) (im : image) : option Z :=
  match im_list im root with
  | None => None
  | Some entries =>
      foldl (fun best (e : bytes * bool) =>
        if negb e.2 || negb (has_prefix dirPrefix e.1) then best
        else
          match ParseInt (drop (length dirPrefix) e.1) with
          | None => best
          | Some n =>
              match im_files im !! Join (Join root e.1) completeName with
              | None => best
              | Some _ =>
                  match best with
                  | None => Some n
                  | Some b => if b <? n then Some n else best
                  end
              end
          end) None entries
  end.

Fixpoint load_states (dir : bytes) (id : Z) (im : image) (keys : list SubtaskKey)
    (payloads : gmap SubtaskKey bytes) : result (storage_error Empty_set) (gmap SubtaskKey bytes) :=
  match keys with
  | [] => Ok payloads
  | key :: keys =>
      match im_files im !! Join dir (fileName key) with
      | None => Err (errMissingStateFile key)
      | Some raw =>
          match decodeSubtaskState raw id key with
          | Err e => Err (ErrFormat e)
          | Ok payload => load_states dir id im keys (<[key := payload]> payloads)
          end
      end
  end.

(** [Load]; a file that is there can be read. Without its metadata a checkpoint
    with a marker is not one that is absent: the error of the read is returned. *)
Definition Load (root : bytes) (id : Z) (im : image)
    : result (storage_error Empty_set) (Metadata * gmap SubtaskKey bytes) :=
  match im_files im !! Join (dir root id) completeName with
  | None => Err errNoCheckpoint
  | Some _ =>
      match im_files im !! Join (dir root id) metadataName with
      | None => Err ErrReadMetadata
      | Some raw =>
          match decodeMetadata raw with
          | Err e => Err (ErrFormat e)
          | Ok meta =>
              match load_states (dir root id) id im (Subtasks meta) ∅ with
              | Err e => Err e
              | Ok payloads => Ok (meta, payloads)
              end
          end
      end
  end.

(** * A disk

    A file's contents are durable once it has been synced, a directory entry
    once its directory has. Until then a crash may leave any of the entries the
    name has had since, and any contents. A script says which operations
    succeed; when it runs out the machine is down and nothing has an effect. *)

Record inode := MkInode { contents : bytes; synced : bool }.

Record disk := MkDisk {
  inodes : gmap nat inode;
  next : nat;
  (** The entries a name may have after a crash, the current one first. *)
  history : gmap bytes (list (option nat));
  (** The directories there are, and whether their own entry has been synced. *)
  dirs : gmap bytes bool;
  script : list bool;
}.

Definition hist (d : disk) (p : bytes) : list (option nat) := default [None] (history d !! p).

Definition current (d : disk) (p : bytes) : option nat := default None (head (hist d p)).

Inductive io_error := EIO.

(** [p] names an entry of directory [dir]. *)
Definition in_dir (dir p : bytes) : bool :=
  bool_decide (take (length dir) p = dir) &&
  match drop (length dir) p with
  | b :: name => bool_decide (b = slash) && negb (bool_decide (slash ∈ name))
  | [] => false
  end.

(** An operation with effect [f], if the script lets it succeed. *)
Definition op {A} (f : disk -> A * disk) : M io_error disk A := fun d =>
  match script d with
  | [] => (Err EIO, d)
  | b :: l =>
      let d := MkDisk (inodes d) (next d) (history d) (dirs d) l in
      if b : bool then let '(a, d) := f d in (Ok a, d) else (Err EIO, d)
  end.

Definition set_entry (p : bytes) (o : option nat) (d : disk) : disk :=
  MkDisk (inodes d) (next d) (<[p := o :: hist d p]> (history d)) (dirs d) (script d).

Definition set_inode (i : nat) (n : inode) (d : disk) : disk :=
  MkDisk (<[i := n]> (inodes d)) (next d) (history d) (dirs d) (script d).

(** [O_CREATE|O_TRUNC]: the name gets an empty file; what it held is given up. *)
Definition disk_create (p : bytes) (d : disk) : nat * disk :=
  let i := next d in
  let d := MkDisk (inodes d) (S i) (history d) (dirs d) (script d) in
  (i, set_entry p (Some i) (set_inode i (MkInode [] false) d)).

Definition disk_write (i : nat) (data : bytes) (d : disk) : unit * disk :=
  match inodes d !! i with
  | None => (tt, d)
  | Some n => (tt, set_inode i (MkInode (contents n ++ data) false) d)
  end.

Definition disk_sync (i : nat) (d : disk) : unit * disk :=
  match inodes d !! i with
  | None => (tt, d)
  | Some n => (tt, set_inode i (MkInode (contents n) true) d)
  end.

Definition disk_rename (from to : bytes) (d : disk) : unit * disk :=
  (tt, set_entry to (current d from) (set_entry from None d)).

Definition disk_syncdir (dir : bytes) (d : disk) : unit * disk :=
  (tt, MkDisk (inodes d) (next d)
         (map_imap (fun p h => Some (if in_dir dir p then take 1 h else h)) (history d))
         (map_imap (fun p b => Some (b || in_dir dir p)) (dirs d)) (script d)).

Definition disk_mkdir (dir : bytes) (d : disk) : unit * disk :=
  match dirs d !! dir with
  | Some _ => (tt, d)
  | None => (tt, MkDisk (inodes d) (next d) (history d) (<[dir := false]> (dirs d)) (script d))
  end.

#[export] Instance disk_fileSystem : fileSystem disk nat io_error := {|
  fs_MkdirAll dir := op (disk_mkdir dir);
  fs_Create p := op (disk_create p);
  fs_Rename from to := op (disk_rename from to);
  fs_SyncDir dir := op (disk_syncdir dir);
  fs_Remove p := op (fun d => (tt, set_entry p None d));
  sf_Write i data := op (disk_write i data);
  sf_Sync i := op (disk_sync i);
  sf_Close i := op (fun d => (tt, d));
|}.

(** What may be found after a crash: each path holds one of the entries it may
    have, with its contents if they were synced and anything otherwise, except
    that a directory that was never synced into its parent may be gone with all
    it held. *)
Record crash_image (d : disk) (files : gmap bytes bytes) : Prop := {
  ci_found p c : files !! p = Some c ->
    exists i n, Some i ∈ hist d p /\ inodes d !! i = Some n /\ (synced n = true -> c = contents n);
  ci_lost dir name : slash ∉ name -> files !! Join dir name = None ->
    None ∈ hist d (Join dir name) \/
    (dirs d !! dir = Some false /\ forall name', slash ∉ name' -> files !! Join dir name' = None);
}.
