(* ===== verification/StorageSpec.v ===== *)
(** What the order of the writes promises: the contract of a checkpoint store,
    which the coordinator is verified against, and the disk of [Storage.v] as an
    implementation of it. A marker is only ever found next to the metadata and
    the state files it vouches for, whatever failed and wherever the machine
    stopped. *)
From S2P Require Import Prelude Strconv Crc32 CheckpointFormat Storage.

(** * The contract *)

Class CheckpointStore (S E : Type) := {
  store_write : Z -> SubtaskKey -> bytes -> M E S unit;
  store_complete : Z -> Metadata -> M E S unit;
}.
#[global] Hint Mode CheckpointStore ! - : typeclass_instances.

(** What can be addressed: an [int64] and an index an [int] holds. *)
Definition addressable (id : Z) (k : SubtaskKey) : Prop := is_i64 id /\ 0 <= Index k <= max_int64.

(** [in_place]: a write of the payload has returned and nothing overwrote it.
    [marked]: a marker may be found. [usable]: whatever is found has the
    metadata and the payloads. [durable]: no state without the marker is left. *)
Class StoreLaws (S E : Type) `{CheckpointStore S E} := {
  sound : S -> Prop;
  in_place : S -> Z -> SubtaskKey -> bytes -> Prop;
  marked : S -> Z -> Prop;
  usable : S -> Z -> Metadata -> (SubtaskKey -> bytes) -> Prop;
  durable : S -> Z -> Prop;

  write_sound id k p s : sound s -> sound (store_write id k p s).2;
  write_in_place id k p s s' :
    sound s -> store_write id k p s = (Ok tt, s') -> in_place s' id k p;
  write_keeps id k p s id' k' p' :
    sound s -> addressable id k -> addressable id' k' -> (id, k) <> (id', k') ->
    in_place s id' k' p' -> in_place (store_write id k p s).2 id' k' p';
  write_marked id k p s id' :
    marked (store_write id k p s).2 id' -> marked s id';
  write_usable id k p s id' m P :
    sound s -> is_i64 id -> is_i64 id' -> id <> id' ->
    usable s id' m P -> usable (store_write id k p s).2 id' m P;
  write_durable id k p s id' :
    sound s -> durable s id' -> durable (store_write id k p s).2 id';

  complete_sound id m s : sound s -> sound (store_complete id m s).2;
  complete_keeps id m s id' k' p' :
    sound s -> in_place s id' k' p' -> in_place (store_complete id m s).2 id' k' p';
  complete_marked id m s id' :
    is_i64 id -> is_i64 id' -> id <> id' -> marked (store_complete id m s).2 id' -> marked s id';
  complete_usable_ne id m s id' m' P :
    sound s -> is_i64 id -> is_i64 id' -> id <> id' ->
    usable s id' m' P -> usable (store_complete id m s).2 id' m' P;
  complete_durable_ne id m s id' :
    sound s -> is_i64 id -> is_i64 id' -> id <> id' ->
    durable s id' -> durable (store_complete id m s).2 id';
  complete_usable id m s P :
    sound s -> is_i64 id -> ~ marked s id ->
    (forall k, k ∈ Subtasks m -> in_place s id k (P k)) ->
    marked (store_complete id m s).2 id -> usable (store_complete id m s).2 id m P;
  complete_ok id m s s' :
    sound s -> store_complete id m s = (Ok tt, s') -> marked s' id /\ durable s' id;
}.

(** * Names *)

(** Nothing but a temporary file has a name that ends in [p]. *)
Definition plain (n : bytes) : Prop := (slash ∉ n) /\ last n <> Some Byte.x70.

Lemma plain_tmp n m : plain m -> n ++ tempSuffix <> m.
Proof. intros [_ H] <-. apply H. by rewrite last_app. Qed.

Lemma tmp_no_slash n : slash ∉ n -> slash ∉ n ++ tempSuffix.
Proof.
  intros H [?|Hs]%elem_of_app; [done|]. revert Hs.
  apply (bool_decide_eq_true_1 (slash ∉ tempSuffix)). vm_compute. reflexivity.
Qed.

Lemma plain_metadata : plain metadataName.
Proof.
  split; [|vm_compute; discriminate].
  apply (bool_decide_eq_true_1 (slash ∉ metadataName)). vm_compute. reflexivity.
Qed.

Lemma plain_complete : plain completeName.
Proof.
  split; [|vm_compute; discriminate].
  apply (bool_decide_eq_true_1 (slash ∉ completeName)). vm_compute. reflexivity.
Qed.

Lemma last_fileName k : last (fileName k) = Some Byte.x65.
Proof. unfold fileName. by rewrite app_comm_cons, app_assoc, last_app. Qed.

Lemma plain_fileName k : checkVertexID (VertexID k) = Ok tt -> plain (fileName k).
Proof.
  intros (_ & Hs & _)%checkVertexID_ok. split; [by apply fileName_no_slash|].
  by rewrite last_fileName.
Qed.

#[local] Hint Resolve plain_metadata plain_complete plain_fileName tmp_no_slash : core.

Lemma metadata_complete : metadataName <> completeName.
Proof. vm_compute. discriminate. Qed.

Lemma fileName_metadata k : fileName k <> metadataName.
Proof. intros E. pose proof (last_fileName k) as L. rewrite E in L. done. Qed.

Lemma fileName_complete k : fileName k <> completeName.
Proof. intros E. pose proof (last_fileName k) as L. rewrite E in L. done. Qed.

#[local] Hint Resolve metadata_complete fileName_metadata fileName_complete : core.

Section Root.
Context (root : bytes).

Lemma dir_inj id id' : is_i64 id -> is_i64 id' -> dir root id = dir root id' -> id = id'.
Proof.
  intros Hi Hi' E. apply app_inv_head in E. injection E as E.
  by apply FormatInt_inj in E.
Qed.

Lemma path_inj id id' a b :
  is_i64 id -> is_i64 id' -> slash ∉ a -> slash ∉ b ->
  Join (dir root id) a = Join (dir root id') b -> id = id' /\ a = b.
Proof. intros Hi Hi' Ha Hb [E ->]%Join_inj; [|done..]. by apply dir_inj in E. Qed.
End Root.

Lemma in_dir_Join dir a : slash ∉ a -> in_dir dir (Join dir a) = true.
Proof.
  intros Ha. unfold in_dir, Join. rewrite take_app_length, drop_app_length.
  rewrite !bool_decide_true by done. by rewrite bool_decide_false.
Qed.

(** * What an operation leaves alone *)

Definition disk_sound (d : disk) : Prop :=
  forall p i, Some i ∈ hist d p -> (i < next d)%nat.

(** Outside the paths [P] and the files from [n] on, nothing changed. *)
Record frame (n : nat) (P : bytes -> Prop) (d d' : disk) : Prop := {
  fr_next : (next d <= next d')%nat;
  fr_sound : disk_sound d -> disk_sound d';
  fr_hist p : ~ P p -> hist d' p = hist d p;
  fr_inodes i : (i < n)%nat -> inodes d' !! i = inodes d !! i;
}.

#[export] Instance frame_refl n P : Reflexive (frame n P).
Proof. by split. Qed.

#[export] Instance frame_trans n P : Transitive (frame n P).
Proof.
  intros d1 d2 d3 [A1 A2 A3 A4] [B1 B2 B3 B4]. split.
  - lia.
  - auto.
  - intros p Hp. by rewrite B3, A3.
  - intros i Hi. by rewrite B4, A4.
Qed.

Lemma frame_weaken n (P Q : bytes -> Prop) d d' :
  (forall p, P p -> Q p) -> frame n P d d' -> frame n Q d d'.
Proof. intros HPQ [A1 A2 A3 A4]. split; auto. Qed.

(** [m] relates every state to the one it leaves, failures included. *)
Definition keeps {E S A} (R : S -> S -> Prop) (m : M E S A) : Prop := forall s, R s (m s).2.

Lemma keeps_ret {E S A} (R : S -> S -> Prop) `{!Reflexive R} (a : A) :
  keeps R (mret a : M E S A).
Proof. intros s. cbn. reflexivity. Qed.

Lemma keeps_bind {E S A B} (R : S -> S -> Prop) `{!Transitive R} (m : M E S A) (f : A -> M E S B) :
  keeps R m -> (forall a, keeps R (f a)) -> keeps R (m ≫= f).
Proof.
  intros Hm Hf s. specialize (Hm s). unfold mbind, M_bind.
  destruct (m s) as [[a|e] s1]; cbn in *; [|done]. etrans; [exact Hm|apply Hf].
Qed.

Lemma keeps_ignoring {S A FE} (R : S -> S -> Prop) (m : M FE S A) (e : FE) :
  keeps R m -> keeps R (ignoring m e).
Proof. intros Hm s. apply Hm. Qed.

Lemma keeps_or_else {S FE} (R : S -> S -> Prop) `{!Transitive R} (m : M FE S unit) c :
  keeps R m -> (forall e, keeps R (c e)) -> keeps R (or_else m c).
Proof.
  intros Hm Hc s. specialize (Hm s). unfold or_else.
  destruct (m s) as [[a|e] s1]; cbn in *; [done|]. etrans; [exact Hm|apply Hc].
Qed.

Lemma keeps_on_fs {S FE A} (R : S -> S -> Prop) (m : M FE S A) : keeps R m -> keeps R (on_fs m).
Proof. intros Hm s. specialize (Hm s). unfold on_fs. by destruct (m s). Qed.

Definition with_script (l : list bool) (d : disk) : disk :=
  MkDisk (inodes d) (next d) (history d) (dirs d) l.

Lemma op_cases {A} (f : disk -> A * disk) d r d' :
  op f d = (r, d') ->
  exists l, (r = Err EIO /\ d' = with_script l d) \/
            (exists a, f (with_script l d) = (a, d') /\ r = Ok a).
Proof.
  unfold op. intros Ef. destruct (script d) as [|[] l] eqn:Es.
  - exists []. left. injection Ef as <- <-. split; [done|]. destruct d. cbn in *. by subst.
  - exists l. right. change (MkDisk _ _ _ _ l) with (with_script l d) in Ef.
    destruct (f (with_script l d)) as [a d1]. injection Ef as <- <-. eauto.
  - exists l. left. injection Ef as <- <-. done.
Qed.

Lemma keeps_op {A} n P (f : disk -> A * disk) :
  (forall d, frame n P d (f d).2) -> keeps (frame n P) (op f).
Proof.
  intros Hf d. destruct (op f d) as [r d'] eqn:E. cbn.
  destruct (op_cases _ _ _ _ E) as (l & [[_ ->]|(a & Ea & _)]).
  - by split.
  - specialize (Hf (with_script l d)). rewrite Ea in Hf. by destruct Hf.
Qed.

Lemma hist_set p o d q : hist (set_entry p o d) q = if decide (p = q) then o :: hist d p else hist d q.
Proof.
  unfold hist at 1. cbn. case_decide as E.
  - subst. by rewrite lookup_insert_eq.
  - by rewrite lookup_insert_ne.
Qed.

Lemma frame_set_entry n (P : bytes -> Prop) p o d :
  P p -> (forall i, o = Some i -> disk_sound d -> (i < next d)%nat) -> frame n P d (set_entry p o d).
Proof.
  intros Hp Ho. split; [done| | |done].
  - intros Hs q i. rewrite hist_set. case_decide; [|apply Hs].
    intros [E|Hi]%elem_of_cons; [by apply Ho|by apply (Hs p)].
  - intros q Hq. rewrite hist_set. rewrite decide_False by congruence. done.
Qed.

Lemma current_in d p i : current d p = Some i -> Some i ∈ hist d p.
Proof.
  unfold current. destruct (hist d p) as [|o h]; cbn; [done|]. intros ->. by left.
Qed.

Lemma frame_rename n (P : bytes -> Prop) a b d : P a -> P b -> frame n P d (disk_rename a b d).2.
Proof.
  intros Ha Hb. unfold disk_rename. cbn [snd].
  transitivity (set_entry a None d); [by apply frame_set_entry|].
  apply frame_set_entry; [done|]. intros i Hi%current_in Hs.
  apply (Hs a). rewrite hist_set, decide_True by done. by right.
Qed.

Lemma frame_create n (P : bytes -> Prop) p d : (n <= next d)%nat -> P p -> frame n P d (disk_create p d).2.
Proof.
  intros Hn Hp. unfold disk_create. cbn [snd].
  set (d1 := set_inode _ _ _).
  transitivity d1.
  - subst d1. split; cbn; [lia| |done|].
    + intros Hs q i Hi. apply Hs in Hi. cbn. lia.
    + intros i Hi. rewrite lookup_insert_ne by lia. done.
  - apply frame_set_entry; [done|]. intros i [= <-] _. cbn. lia.
Qed.

Lemma frame_set_inode n P i c d : (n <= i)%nat -> frame n P d (set_inode i c d).
Proof.
  intros Hi. split; [done..|]. intros j Hj. cbn. rewrite lookup_insert_ne by lia. done.
Qed.

Lemma frame_write n P i data d : (n <= i)%nat -> frame n P d (disk_write i data d).2.
Proof. intros. unfold disk_write. destruct (inodes d !! i); cbn; [by apply frame_set_inode|done]. Qed.

Lemma frame_sync n P i d : (n <= i)%nat -> frame n P d (disk_sync i d).2.
Proof. intros. unfold disk_sync. destruct (inodes d !! i); cbn; [by apply frame_set_inode|done]. Qed.

Lemma frame_mkdir n P dir d : frame n P d (disk_mkdir dir d).2.
Proof. unfold disk_mkdir. by destruct (dirs d !! dir). Qed.

#[local] Hint Resolve frame_create frame_write frame_sync frame_mkdir frame_rename : core.

(** ** Syncing a directory *)

Lemma hist_syncdir dir d p :
  hist (disk_syncdir dir d).2 p = if in_dir dir p then take 1 (hist d p) else hist d p.
Proof.
  unfold hist, disk_syncdir. cbn. rewrite map_lookup_imap.
  destruct (history d !! p) as [h|]; cbn; [done|]. by destruct (in_dir dir p).
Qed.

Lemma syncdir_in dir d p i : Some i ∈ hist (disk_syncdir dir d).2 p -> Some i ∈ hist d p.
Proof.
  rewrite hist_syncdir. destruct (in_dir dir p); [|done].
  destruct (hist d p) as [|o h]; cbn; [done|]. intros ->%list_elem_of_singleton. by left.
Qed.

Lemma syncdir_sound dir d : disk_sound d -> disk_sound (disk_syncdir dir d).2.
Proof. intros Hs p i Hi%syncdir_in. by apply Hs in Hi. Qed.

(** * Writing a file *)

(** The part of [writeFileSynced] before the rename. *)
Definition write_temp (dir name data : bytes) : M io_error disk unit :=
  let tmp := Join dir (name ++ tempSuffix) in
  f ← fs_Create tmp;
  let close_and_remove (e : io_error) : M io_error disk unit := fun s =>
    ignoring (fs_Remove tmp) e ((sf_Close f) s).2 in
  _ ← or_else (sf_Write f data) close_and_remove;
  _ ← or_else (sf_Sync f) close_and_remove;
  or_else (sf_Close f) (ignoring (fs_Remove tmp)).

Lemma writeFileSynced_split dir name data d :
  writeFileSynced dir name data d =
  match write_temp dir name data d with
  | (Ok _, d1) => fs_Rename (Join dir (name ++ tempSuffix)) (Join dir name) d1
  | (Err e, d1) => (Err e, d1)
  end.
Proof.
  unfold writeFileSynced, write_temp, mbind, M_bind. cbv zeta.
  destruct (fs_Create _ d) as [[f|e] d1]; [|done].
  destruct (or_else _ _ d1) as [[u|e] d2]; [|done].
  destruct (or_else _ _ d2) as [[u'|e] d3]; [|done].
  by destruct (or_else _ _ d3) as [[[]|e] d4].
Qed.

Lemma write_temp_frame dir name data d :
  frame (next d) (fun p => p = Join dir (name ++ tempSuffix)) d (write_temp dir name data d).2.
Proof.
  unfold write_temp. set (P := fun p => _). set (n := next d).
  unfold mbind at 1, M_bind at 1. destruct (fs_Create _ d) as [r d1] eqn:Ec.
  assert (frame n P d d1 /\ forall f, r = Ok f -> f = n) as [F Hf].
  { destruct (op_cases _ _ _ _ Ec) as (l & [[-> ->]|(f & Ef & ->)]); [by split|].
    injection Ef as <- <-. split; [|by intros ? [= <-]].
    transitivity (with_script l d); [by split|].
    refine (frame_create n P _ (with_script l d) _ _); done. }
  destruct r as [f|e]; [|done]. rewrite (Hf f) by done. clear f Hf Ec.
  etrans; [exact F|]. clearbody n.
  assert (forall f e, keeps (frame n P) (fun s : disk =>
    ignoring (fs_Remove (Join dir (name ++ tempSuffix))) e ((sf_Close f) s).2 : result io_error unit * disk)) as Hcl.
  { intros f e s. etrans.
    - apply (keeps_op n P (fun d => (tt, d))). done.
    - apply (keeps_ignoring (frame n P) (fs_Remove _) e), keeps_op.
      intros d'. by apply frame_set_entry. }
  apply (keeps_bind (frame n P)); [|intros _; apply (keeps_bind (frame n P)); [|intros _]].
  - apply (keeps_or_else _); [apply keeps_op; auto|apply Hcl].
  - apply (keeps_or_else _); [apply keeps_op; auto|apply Hcl].
  - apply (keeps_or_else _); [by apply keeps_op|].
    intros e. apply (keeps_ignoring (frame n P)), keeps_op. intros d'. by apply frame_set_entry.
Qed.

Lemma op_ok {A} (f : disk -> A * disk) d a d' :
  op f d = (Ok a, d') -> exists l, f (with_script l d) = (a, d').
Proof.
  intros E. destruct (op_cases _ _ _ _ E) as (l & [[? _]|(a' & Ea & [= <-])]); [done|]. eauto.
Qed.

Lemma or_else_ok {S FE} (m : M FE S unit) c s s' :
  (forall e s, is_ok (c e s).1 = false) -> or_else m c s = (Ok tt, s') -> m s = (Ok tt, s').
Proof.
  intros Hc. unfold or_else. destruct (m s) as [[[]|e] s1]; [done|].
  intros E. specialize (Hc e s1). by rewrite E in Hc.
Qed.

(** [p] now names a file of contents [c] that has been synced. *)
Definition held (d : disk) (p c : bytes) : Prop :=
  exists i h, hist d p = Some i :: h /\ inodes d !! i = Some (MkInode c true).

(** Nothing else is left for [p] to name. *)
Definition certain (d : disk) (p c : bytes) : Prop :=
  exists i, hist d p = [Some i] /\ inodes d !! i = Some (MkInode c true).

Lemma write_temp_ok dir name data d d' :
  write_temp dir name data d = (Ok tt, d') -> held d' (Join dir (name ++ tempSuffix)) data.
Proof.
  unfold write_temp. intros E.
  apply bind_ok in E as (f & d1 & Ec & E). apply op_ok in Ec as [l1 [= <- <-]].
  apply bind_ok in E as ([] & d2 & Ew & E). apply or_else_ok in Ew; [|done].
  apply op_ok in Ew as [l2 Ew].
  apply bind_ok in E as ([] & d3 & Es & E). apply or_else_ok in Es; [|done].
  apply op_ok in Es as [l3 Es]. apply or_else_ok in E; [|done]. apply op_ok in E as [l4 [= <-]].
  unfold disk_write in Ew. cbn in Ew. rewrite lookup_insert_eq in Ew. cbn in Ew. injection Ew as <-.
  unfold disk_sync in Es. cbn in Es. rewrite lookup_insert_eq in Es. cbn in Es. injection Es as <-.
  set (p := Join dir (name ++ tempSuffix)).
  exists (next d), (hist d p). split.
  - unfold hist at 1. cbn. by rewrite lookup_insert_eq.
  - cbn. by rewrite lookup_insert_eq.
Qed.

(** [writeFileSynced] touches its two names, and the final one only when it
    succeeds; then the name holds the data, synced. *)
Lemma write_spec dir name data d r d' :
  plain name -> writeFileSynced dir name data d = (r, d') ->
  frame (next d) (fun p => p = Join dir (name ++ tempSuffix) \/ p = Join dir name) d d' /\
  (r = Ok tt /\ held d' (Join dir name) data \/
   (exists e, r = Err e) /\ hist d' (Join dir name) = hist d (Join dir name)).
Proof.
  intros Hn. rewrite writeFileSynced_split.
  pose proof (write_temp_frame dir name data d) as F.
  pose proof (write_temp_ok dir name data d) as Hok.
  set (tmp := Join dir (name ++ tempSuffix)) in *. set (p := Join dir name).
  assert (tmp <> p) as Hne.
  { intros [_ E]%Join_inj; [|apply tmp_no_slash, Hn|apply Hn]. by apply (plain_tmp name name Hn) in E. }
  destruct (write_temp dir name data d) as [[[]|e] d1]; cbn [snd] in F.
  - intros E. specialize (Hok d1 eq_refl).
    destruct (op_cases _ _ _ _ E) as (l & [[-> ->]|([] & Er & ->)]).
    + split; [|right]; [|split; [eauto|]].
      * transitivity d1; [|by split]. eapply frame_weaken; [|exact F]. cbv beta. auto.
      * apply (fr_hist _ _ _ _ F). congruence.
    + split; [|left; split; [done|]].
      * transitivity d1; [eapply frame_weaken; [|exact F]; cbv beta; auto|].
        transitivity (with_script l d1); [by split|].
        change d' with (tt, d').2. rewrite <- Er. apply frame_rename; auto.
      * destruct Hok as (i & h & Hh & Hi). injection Er as <-. exists i, (hist d1 p). split; [|done].
        rewrite hist_set, decide_True by done. unfold current.
        change (hist (with_script l d1) tmp) with (hist d1 tmp). rewrite Hh. cbn.
        by rewrite hist_set, decide_False by congruence.
  - intros [= <- <-]. split; [eapply frame_weaken; [|exact F]; cbv beta; auto|].
    right. split; [eauto|]. apply (fr_hist _ _ _ _ F). congruence.
Qed.

Lemma held_frame n P d d' p c :
  frame n P d d' -> ~ P p -> disk_sound d -> (next d <= n)%nat -> held d p c -> held d' p c.
Proof.
  intros [_ _ Fh Fi] Hp Hs Hn (i & h & Hh & Hi). exists i, h. split.
  - by rewrite Fh.
  - rewrite Fi; [done|]. pose proof (Hs p i ltac:(rewrite Hh; left)). lia.
Qed.

Lemma certain_frame n P d d' p c :
  frame n P d d' -> ~ P p -> disk_sound d -> (next d <= n)%nat -> certain d p c -> certain d' p c.
Proof.
  intros [_ _ Fh Fi] Hp Hs Hn (i & Hh & Hi). exists i. split.
  - by rewrite Fh.
  - rewrite Fi; [done|]. pose proof (Hs p i ltac:(rewrite Hh; left)). lia.
Qed.

Lemma certain_held d p c : certain d p c -> held d p c.
Proof. intros (i & Hh & Hi). by exists i, []. Qed.

Lemma held_syncdir dir d p c : held d p c -> held (disk_syncdir dir d).2 p c.
Proof.
  intros (i & h & Hh & Hi). destruct (in_dir dir p) eqn:Ed.
  - exists i, []. rewrite hist_syncdir, Ed, Hh. done.
  - exists i, h. by rewrite hist_syncdir, Ed.
Qed.

Lemma certain_syncdir dir d p c : certain d p c -> certain (disk_syncdir dir d).2 p c.
Proof.
  intros (i & Hh & Hi). exists i. rewrite hist_syncdir, Hh. by destruct (in_dir dir p).
Qed.

Lemma held_certain dir d a c :
  slash ∉ a -> held d (Join dir a) c -> certain (disk_syncdir dir d).2 (Join dir a) c.
Proof.
  intros Ha (i & h & Hh & Hi). exists i. rewrite hist_syncdir, in_dir_Join, Hh; done.
Qed.

(** * The disk keeps the contract *)

Lemma op_unit_frame n P (f : disk -> unit * disk) d r d' :
  (forall d, frame n P d (f d).2) -> op f d = (r, d') -> frame n P d d'.
Proof. intros Hf E. pose proof (keeps_op n P f Hf d) as F. by rewrite E in F. Qed.

Lemma on_fs_eq {FS FE A} (m : M FE FS A) d r d' :
  on_fs m d = (r, d') -> exists r', m d = (r', d') /\ r = wrap_err ErrFS r'.
Proof. unfold on_fs. destruct (m d) as [r1 d1]. intros [= <- <-]. eauto. Qed.

Section Root.
Context (root : bytes).

#[export] Instance disk_store : CheckpointStore disk (storage_error io_error) := {|
  store_write := WriteSubtaskState root;
  store_complete := Complete root;
|}.

Definition state_path (id : Z) (k : SubtaskKey) : bytes := Join (dir root id) (fileName k).
Definition meta_path (id : Z) : bytes := Join (dir root id) metadataName.
Definition marker_path (id : Z) : bytes := Join (dir root id) completeName.

Definition valid (k : SubtaskKey) : Prop := checkVertexID (VertexID k) = Ok tt.

Definition disk_in_place (d : disk) (id : Z) (k : SubtaskKey) (p : bytes) : Prop :=
  valid k /\ held d (state_path id k) (encodeSubtaskState id k p).

Definition disk_marked (d : disk) (id : Z) : Prop := exists i, Some i ∈ hist d (marker_path id).

Definition disk_usable (d : disk) (id : Z) (m : Metadata) (P : SubtaskKey -> bytes) : Prop :=
  certain d (meta_path id) (encodeMetadata m) /\
  forall k, k ∈ Subtasks m -> valid k /\ certain d (state_path id k) (encodeSubtaskState id k (P k)).

(** The marker is there, whatever a crash leaves of its directory. *)
Definition disk_durable (d : disk) (id : Z) : Prop :=
  certain d (marker_path id) (FormatInt id ++ [Byte.x0a]).

(** The two paths a write of [name] in the directory of [id] may touch. *)
Definition touched (id : Z) (name : bytes) (p : bytes) : Prop :=
  p = Join (dir root id) (name ++ tempSuffix) \/ p = Join (dir root id) name.

Lemma touched_ne id name id' name' :
  is_i64 id -> is_i64 id' -> plain name -> plain name' -> (id, name) <> (id', name') ->
  ~ touched id name (Join (dir root id') name').
Proof.
  intros Hi Hi' [Hn Hl] Hn' Hne [E|E]; symmetry in E.
  - apply path_inj in E as [_ E]; [|by auto|done|by apply tmp_no_slash|apply Hn'].
    by apply (plain_tmp name name' Hn') in E.
  - apply path_inj in E as [-> ->]; [done|done|done|done|apply Hn'].
Qed.

Lemma touched_same id name name' :
  plain name -> plain name' -> name <> name' -> ~ touched id name (Join (dir root id) name').
Proof.
  intros Hn Hn' Hne [E|E]; symmetry in E; apply Join_inj in E as [_ E].
  - by apply (plain_tmp name name' Hn') in E.
  - apply tmp_no_slash, Hn.
  - apply Hn'.
  - done.
  - apply Hn.
  - apply Hn'.
Qed.

Lemma write_state_spec id k p d r d' :
  WriteSubtaskState root id k p d = (r, d') ->
  frame (next d) (fun q => valid k /\ touched id (fileName k) q) d d' /\
  (r = Ok tt -> disk_in_place d' id k p).
Proof.
  unfold WriteSubtaskState. destruct (checkVertexID (VertexID k)) as [[]|e] eqn:Ev; [|by intros [= <- <-]].
  unfold mbind, M_bind. destruct (on_fs (fs_MkdirAll _) d) as [r1 d1] eqn:Em.
  apply on_fs_eq in Em as (r1' & Em & ->).
  assert (frame (next d) (fun q => valid k /\ touched id (fileName k) q) d d1) as F.
  { eapply op_unit_frame; [|exact Em]. auto. }
  destruct r1' as [[]|e]; cbn; [|by intros [= <- <-]].
  intros (r2 & E & ->)%on_fs_eq.
  apply write_spec in E as [F2 Hr]; [|by apply plain_fileName]. split.
  - etrans; [exact F|]. split; [apply F2|apply F2| |].
    + intros q Hq. apply (fr_hist _ _ _ _ F2). intros Ht. apply Hq. split; [exact Ev|exact Ht].
    + intros i Hi. apply (fr_inodes _ _ _ _ F2). pose proof (fr_next _ _ _ _ F). lia.
  - intros Hok. destruct Hr as [[-> Hh]|[[e ->] _]]; [|done]. by split.
Qed.

Lemma state_frame_in_place id k p d id' k' p' :
  disk_sound d -> addressable id k -> addressable id' k' -> (id, k) <> (id', k') ->
  disk_in_place d id' k' p' -> disk_in_place (WriteSubtaskState root id k p d).2 id' k' p'.
Proof.
  intros Hs [Hi Hk] [Hi' Hk'] Hne [Hv Hh]. destruct (WriteSubtaskState root id k p d) as [r d'] eqn:E.
  apply write_state_spec in E as [F _]. split; [done|].
  eapply held_frame; [exact F| |done|done|exact Hh].
  intros [Hv' Ht]. revert Ht. apply touched_ne; auto.
  intros [= -> En]. apply fileName_inj in En; [|done..]. congruence.
Qed.

Lemma marked_frame n P d d' id :
  frame n P d d' -> ~ P (marker_path id) -> disk_marked d' id -> disk_marked d id.
Proof. intros F Hp [i Hi]. exists i. by rewrite <- (fr_hist _ _ _ _ F). Qed.

Lemma usable_frame n P d d' id m Q :
  frame n P d d' -> disk_sound d -> (next d <= n)%nat ->
  ~ P (meta_path id) -> (forall k, k ∈ Subtasks m -> valid k -> ~ P (state_path id k)) ->
  disk_usable d id m Q -> disk_usable d' id m Q.
Proof.
  intros F Hs Hn Hm Hk [Um Us]. split.
  - eapply certain_frame; eauto.
  - intros k Hin. destruct (Us k Hin) as [Hv Hc]. split; [done|].
    eapply certain_frame; eauto.
Qed.

Lemma usable_syncdir dir d id m Q : disk_usable d id m Q -> disk_usable (disk_syncdir dir d).2 id m Q.
Proof.
  intros [Um Us]. split; [by apply certain_syncdir|].
  intros k Hk. destruct (Us k Hk). split; [done|]. by apply certain_syncdir.
Qed.

(** The states [Complete] passes through: a stage does not begin unless the
    one before it succeeded. *)
Inductive completing (id : Z) (m : Metadata) (d : disk) : result (storage_error io_error) unit -> disk -> Prop :=
| completing_early e d1 :
    frame (next d) (touched id metadataName) d d1 -> completing id m d (Err e) d1
| completing_marker e d1 d2 d3 :
    frame (next d) (touched id metadataName) d d1 -> held d1 (meta_path id) (encodeMetadata m) ->
    d2 = (disk_syncdir (dir root id) d1).2 ->
    frame (next d2) (touched id completeName) d2 d3 ->
    hist d3 (marker_path id) = hist d2 (marker_path id) -> completing id m d (Err e) d3
| completing_last r d1 d2 d3 d4 :
    frame (next d) (touched id metadataName) d d1 -> held d1 (meta_path id) (encodeMetadata m) ->
    d2 = (disk_syncdir (dir root id) d1).2 ->
    frame (next d2) (touched id completeName) d2 d3 -> held d3 (marker_path id) (FormatInt id ++ [Byte.x0a]) ->
    d4 = d3 /\ is_ok r = false \/ d4 = (disk_syncdir (dir root id) d3).2 -> completing id m d r d4.

Lemma Complete_completing id m d r d' :
  Complete root id m d = (r, d') -> completing id m d r d'.
Proof.
  unfold Complete, mbind, M_bind.
  destruct (on_fs (fs_MkdirAll _) d) as [r1 d1] eqn:E1. apply on_fs_eq in E1 as (q1 & E1 & ->).
  assert (frame (next d) (touched id metadataName) d d1) as F1.
  { eapply op_unit_frame; [|exact E1]. intros. apply frame_mkdir. }
  destruct q1 as [[]|e1]; cbn [wrap_err]; [|intros [= <- <-]; by eapply completing_early].
  destruct (on_fs (writeFileSynced _ _ _) d1) as [r2 d2] eqn:E2. apply on_fs_eq in E2 as (q2 & E2 & ->).
  apply write_spec in E2 as [F2 H2]; [|done].
  assert (frame (next d) (touched id metadataName) d d2) as F.
  { etrans; [exact F1|]. destruct F2 as [? ? ? Fi]. split; [done..|].
    intros i Hi. apply Fi. pose proof (fr_next _ _ _ _ F1). lia. }
  destruct H2 as [[-> H2]|[[e ->] _]]; cbn [wrap_err]; [|intros [= <- <-]; by eapply completing_early].
  destruct (on_fs (fs_SyncDir _) d2) as [r3 d3] eqn:E3. apply on_fs_eq in E3 as (q3 & E3 & ->).
  apply op_cases in E3 as (l & [[-> ->]|([] & E3 & ->)]); cbn [wrap_err].
  { intros [= <- <-]. eapply completing_early. etrans; [exact F|by split]. }
  destruct (on_fs (writeFileSynced _ completeName _) d3) as [r4 d4] eqn:E4.
  apply on_fs_eq in E4 as (q4 & E4 & ->). apply write_spec in E4 as [F4 H4]; [|done].
  assert (d3 = (disk_syncdir (dir root id) (with_script l d2)).2) as Ed3 by by rewrite E3.
  assert (frame (next d) (touched id metadataName) d (with_script l d2)) as F' by (etrans; [exact F|by split]).
  destruct H4 as [[-> H4]|[[e ->] H4]]; cbn [wrap_err].
  - intros (q5 & E5 & ->)%on_fs_eq. apply op_cases in E5 as (l' & [[-> ->]|([] & E5 & _)]).
    + eapply (completing_last _ _ _ _ _ d3 (with_script l' d4)); [exact F'|exact H2|exact Ed3| |exact H4|by left].
      etrans; [exact F4|by split].
    + eapply (completing_last _ _ _ _ _ d3 (with_script l' d4)); [exact F'|exact H2|exact Ed3| |exact H4|].
      * etrans; [exact F4|by split].
      * right. by rewrite E5.
  - intros [= <- <-]. eapply completing_marker; [exact F'|exact H2|exact Ed3|exact F4|exact H4].
Qed.

(** Whatever happens, only the metadata, the marker and their temporary files
    are touched; directories are synced. *)
Lemma completing_inv id m d r d' (I : disk -> Prop) :
  (forall d d', disk_sound d -> frame (next d) (fun p => touched id metadataName p \/ touched id completeName p) d d' ->
     I d -> I d') ->
  (forall d, disk_sound d -> I d -> I (disk_syncdir (dir root id) d).2) ->
  disk_sound d -> completing id m d r d' -> I d -> disk_sound d' /\ I d'.
Proof.
  intros Hf Hsync Hs Hc Hi.
  assert (forall d d', frame (next d) (touched id metadataName) d d' -> disk_sound d -> I d -> disk_sound d' /\ I d') as HM.
  { intros x y F Hx HI. split; [by apply (fr_sound _ _ _ _ F)|]. eapply Hf; [exact Hx| |exact HI].
    eapply frame_weaken; [|exact F]. auto. }
  assert (forall d d', frame (next d) (touched id completeName) d d' -> disk_sound d -> I d -> disk_sound d' /\ I d') as HC.
  { intros x y F Hx HI. split; [by apply (fr_sound _ _ _ _ F)|]. eapply Hf; [exact Hx| |exact HI].
    eapply frame_weaken; [|exact F]. auto. }
  assert (forall d, disk_sound d -> I d -> disk_sound (disk_syncdir (dir root id) d).2 /\ I (disk_syncdir (dir root id) d).2) as HS.
  { intros x Hx HI. split; [by apply syncdir_sound|by apply Hsync]. }
  destruct Hc as [e d1 F|e d1 d2 d3 F1 _ -> F2 _|r d1 d2 d3 d4 F1 _ -> F2 _ H4].
  - by apply (HM d).
  - destruct (HM _ _ F1 Hs Hi) as [? ?]. destruct (HS d1) as [? ?]; [done..|]. eapply HC; eauto.
  - destruct (HM _ _ F1 Hs Hi) as [? ?]. destruct (HS d1) as [? ?]; [done..|].
    destruct (HC _ _ F2) as [? ?]; [done..|]. destruct H4 as [[-> _]| ->]; [done|]. by apply HS.
Qed.

Lemma complete_inv id m d (I : disk -> Prop) :
  (forall d d', disk_sound d -> frame (next d) (fun p => touched id metadataName p \/ touched id completeName p) d d' ->
     I d -> I d') ->
  (forall d, disk_sound d -> I d -> I (disk_syncdir (dir root id) d).2) ->
  disk_sound d -> I d -> disk_sound (Complete root id m d).2 /\ I (Complete root id m d).2.
Proof.
  intros Hf Hsync Hs Hi. destruct (Complete root id m d) as [r d'] eqn:E.
  apply Complete_completing in E. by apply (completing_inv _ _ _ _ _ I Hf Hsync Hs E).
Qed.

Lemma state_untouched id k id' :
  is_i64 id -> is_i64 id' -> valid k ->
  ~ (touched id metadataName (state_path id' k) \/ touched id completeName (state_path id' k)).
Proof.
  intros Hi Hi' Hv [Ht|Ht]; revert Ht.
  - apply touched_ne; auto. intros [= -> E]. by apply (fileName_metadata k).
  - apply touched_ne; auto. intros [= -> E]. by apply (fileName_complete k).
Qed.

Lemma state_untouched_here id k id' :
  valid k -> ~ (touched id metadataName (state_path id' k) \/ touched id completeName (state_path id' k)).
Proof.
  intros Hv. pose proof (plain_fileName k Hv) as Hf.
  assert (forall name, plain name -> fileName k <> name -> ~ touched id name (state_path id' k)) as H.
  { intros name [Hn _] Hne [Ht|Ht].
    - apply Join_inj in Ht as [_ Ht]; [|exact (proj1 Hf)|by apply tmp_no_slash].
      symmetry in Ht. by apply (plain_tmp _ _ Hf) in Ht.
    - by apply Join_inj in Ht as [_ Ht]; [|exact (proj1 Hf)|]. }
  intros [Ht|Ht]; revert Ht; apply H; auto.
Qed.

Lemma other_untouched id id' name :
  is_i64 id -> is_i64 id' -> id <> id' -> plain name ->
  ~ (touched id metadataName (Join (dir root id') name) \/ touched id completeName (Join (dir root id') name)).
Proof. intros Hi Hi' Hne Hn [Ht|Ht]; revert Ht; apply touched_ne; auto; congruence. Qed.

Lemma complete_makes_usable id m d P :
  disk_sound d -> is_i64 id -> ~ disk_marked d id ->
  (forall k, k ∈ Subtasks m -> disk_in_place d id k (P k)) ->
  disk_marked (Complete root id m d).2 id -> disk_usable (Complete root id m d).2 id m P.
Proof.
  intros Hs Hi Hnm Hp Hm. destruct (Complete root id m d) as [r d'] eqn:E. cbn [snd] in *.
  apply Complete_completing in E.
  assert (forall d1, frame (next d) (touched id metadataName) d d1 -> ~ disk_marked d1 id) as Hearly.
  { intros d1 F Hm1. apply Hnm. eapply marked_frame; [exact F| |exact Hm1].
    apply touched_same; auto. }
  assert (forall d1, ~ disk_marked d1 id -> ~ disk_marked (disk_syncdir (dir root id) d1).2 id) as Hsy.
  { intros d1 H1 [i Hi'%syncdir_in]. apply H1. by exists i. }
  destruct E as [e d1 F|e d1 d2 d3 F1 _ -> F2 Hh|r d1 d2 d3 d4 F1 Hmeta -> F2 _ H4].
  - by apply Hearly in F.
  - apply Hearly, Hsy in F1. destruct F1. destruct Hm as [i Hi']. exists i. by rewrite <- Hh.
  - assert (disk_sound d1) as Hs1 by by apply (fr_sound _ _ _ _ F1).
    assert (disk_usable (disk_syncdir (dir root id) d1).2 id m P) as U.
    { split; [apply held_certain; [apply plain_metadata|done]|].
      intros k Hk. destruct (Hp k Hk) as [Hv Hk']. split; [done|].
      apply held_certain; [by apply plain_fileName|]. eapply held_frame; [exact F1| |done|done|exact Hk'].
      intros Ht. apply (state_untouched_here id k id Hv). by left. }
    assert (disk_usable d3 id m P) as U3.
    { eapply usable_frame; [exact F2|by apply syncdir_sound|done| | |exact U].
      - apply touched_same; auto.
      - intros k _ Hv Ht. apply (state_untouched_here id k id Hv). by right. }
    destruct H4 as [[-> _]| ->]; [done|by apply usable_syncdir].
Qed.

#[export] Program Instance disk_store_laws : StoreLaws disk (storage_error io_error) := {|
  sound := disk_sound;
  in_place := disk_in_place;
  marked := disk_marked;
  usable := disk_usable;
  durable := disk_durable;
|}.
Next Obligation.
  intros id k p d Hs. cbn. destruct (WriteSubtaskState root id k p d) as [r d'] eqn:E.
  apply write_state_spec in E as [F _]. by apply (fr_sound _ _ _ _ F).
Qed.
Next Obligation. intros id k p d d' _ E. by apply write_state_spec in E as [_ ?]; auto. Qed.
Next Obligation. intros id k p d id' k' p' Hs Ha Ha' Hne. cbn. by apply state_frame_in_place. Qed.
Next Obligation.
  intros id k p d id'. cbn. destruct (WriteSubtaskState root id k p d) as [r d'] eqn:E.
  apply write_state_spec in E as [F _]. eapply marked_frame; [exact F|]. intros [Hv [Ht|Ht]].
  - apply Join_inj in Ht as [_ Ht]; [|apply plain_complete|by apply tmp_no_slash, plain_fileName].
    symmetry in Ht. by apply (plain_tmp _ _ plain_complete) in Ht.
  - apply Join_inj in Ht as [_ Ht]; [|apply plain_complete|by apply plain_fileName].
    by apply (fileName_complete k).
Qed.
Next Obligation.
  intros id k p d id' m P Hs Hi Hi' Hne. cbn. destruct (WriteSubtaskState root id k p d) as [r d'] eqn:E.
  apply write_state_spec in E as [F _]. eapply usable_frame; [exact F|done|done| |].
  - intros [Hv Ht]. revert Ht. apply touched_ne; auto; congruence.
  - intros k' _ Hv' [Hv Ht]. revert Ht. apply touched_ne; auto; congruence.
Qed.
Next Obligation.
  intros id k p d id' Hs. cbn. destruct (WriteSubtaskState root id k p d) as [r d'] eqn:E.
  apply write_state_spec in E as [F _]. intros Hd. eapply certain_frame; [exact F| |done|done|exact Hd].
  intros [Hv [Ht|Ht]].
  - apply Join_inj in Ht as [_ Ht]; [|apply plain_complete|by apply tmp_no_slash, plain_fileName].
    symmetry in Ht. by apply (plain_tmp _ _ plain_complete) in Ht.
  - apply Join_inj in Ht as [_ Ht]; [|apply plain_complete|by apply plain_fileName].
    by apply (fileName_complete k).
Qed.
Next Obligation.
  intros id m d Hs. by apply (complete_inv id m d (fun _ => True)).
Qed.
Next Obligation.
  intros id m d id' k' p' Hs HI.
  refine (proj2 (complete_inv id m d (fun d => disk_in_place d id' k' p') _ _ Hs HI)); clear HI Hs.
  - intros d1 d2 Hs1 F [Hv H1]. split; [done|]. eapply held_frame; [exact F| |done|done|exact H1].
    by apply state_untouched_here.
  - intros d1 _ [Hv H1]. split; [done|]. by apply held_syncdir.
Qed.
Next Obligation.
  intros id m d id' Hi Hi' Hne Hm. destruct (Complete root id m d) as [r d'] eqn:E.
  cbn in Hm. rewrite E in Hm. cbn in Hm. apply Complete_completing in E.
  assert (forall n name d1 d2, plain name -> frame n (touched id name) d1 d2 -> disk_marked d2 id' -> disk_marked d1 id') as HF.
  { intros n name d1 d2 Hn F. eapply marked_frame; [exact F|]. apply touched_ne; auto; congruence. }
  assert (forall dir d1, disk_marked (disk_syncdir dir d1).2 id' -> disk_marked d1 id') as HS.
  { intros dir d1 [i Hi1%syncdir_in]. by exists i. }
  destruct E as [e d1 F|e d1 d2 d3 F1 _ -> F2 Hh|r d1 d2 d3 d4 F1 _ -> F2 _ H4].
  - eapply HF; [|exact F|done]. done.
  - eapply HF, HS, HF; [|exact F1|..|exact F2|done]; done.
  - assert (disk_marked d3 id') by (destruct H4 as [[-> _]| ->]; eauto).
    eapply HF, HS, HF; [|exact F1|..|exact F2|done]; done.
Qed.
Next Obligation.
  intros id m d id' m' P Hs Hi Hi' Hne U.
  refine (proj2 (complete_inv id m d (fun d => disk_usable d id' m' P) _ _ Hs U)); clear U Hs.
  - intros d1 d2 Hs1 F U1. eapply usable_frame; [exact F|done|done| | |exact U1].
    + by apply other_untouched.
    + intros k _ Hv. by apply other_untouched, plain_fileName.
  - intros d1 _ U1. by apply usable_syncdir.
Qed.
Next Obligation.
  intros id m d id' Hs Hi Hi' Hne Hd.
  refine (proj2 (complete_inv id m d (fun d => disk_durable d id') _ _ Hs Hd)); clear Hd Hs.
  - intros d1 d2 Hs1 F H1. eapply certain_frame; [exact F| |done|done|exact H1].
    by apply other_untouched.
  - intros d1 _ H1. by apply certain_syncdir.
Qed.
Next Obligation. intros id m d P Hs Hi Hnm Hp. by apply complete_makes_usable. Qed.
Next Obligation.
  intros id m d d' Hs E. apply Complete_completing in E.
  inversion E as [| |r d1 d2 d3 d4 F1 _ E2 F2 Hh [[_ ?]|H4]]; subst; [done|].
  assert (disk_durable (disk_syncdir (dir root id) d3).2 id) as Hd by by apply held_certain; [apply plain_complete|].
  split; [|done]. destruct Hd as (i & Hd & _). exists i. rewrite Hd. by left.
Qed.

(** * After a crash *)

(** What a crash leaves of a usable checkpoint whose marker is found reads back
    in full. *)
Lemma crash_found d im p c :
  crash_image d (im_files im) -> certain d p c -> forall c', im_files im !! p = Some c' -> c' = c.
Proof.
  intros Hc (i & Hh & Hi) c' Hf. destruct (ci_found _ _ Hc p c' Hf) as (j & n & Hj & Hn & Hs).
  rewrite Hh in Hj. apply list_elem_of_singleton in Hj as [= ->]. rewrite Hi in Hn. injection Hn as <-.
  by apply Hs.
Qed.

Lemma crash_there d files dir a b c :
  crash_image d files -> slash ∉ a -> slash ∉ b -> certain d (Join dir a) c ->
  is_Some (files !! Join dir b) -> is_Some (files !! Join dir a).
Proof.
  intros Hc Ha Hb (i & Hh & _) [x Hx]. destruct (files !! Join dir a) eqn:E; [eauto|].
  destruct (ci_lost _ _ Hc dir a Ha E) as [Hn|[_ Hall]].
  - rewrite Hh in Hn. by apply list_elem_of_singleton in Hn.
  - by rewrite Hall in Hx.
Qed.

Lemma Subtasks_index m k : k ∈ Subtasks m -> exists v, v ∈ Vertices m /\ ID v = VertexID k /\ 0 <= Index k < Parallelism v.
Proof.
  unfold Subtasks. intros (v & (i & -> & Hi%elem_of_seqZ)%list_elem_of_fmap & Hv)%list_elem_of_bind.
  exists v. cbn. split_and!; [done..|lia|lia].
Qed.

Lemma Subtasks_ok m k : meta_ok m -> k ∈ Subtasks m -> key_ok k.
Proof.
  intros (Hv & _) (v & Hin & Hid & Hi)%Subtasks_index. rewrite Forall_forall in Hv.
  destruct (Hv v Hin) as (Hl & Hp & _). unfold key_ok. rewrite <- Hid. unfold is_u32 in *. split; [done|lia].
Qed.

Lemma load_states_ok id im keys P ps :
  (forall k, k ∈ keys -> exists raw, im_files im !! state_path id k = Some raw /\ decodeSubtaskState raw id k = Ok (P k)) ->
  exists qs, load_states (dir root id) id im keys ps = Ok qs /\
    forall k, qs !! k = if decide (k ∈ keys) then Some (P k) else ps !! k.
Proof.
  revert ps. induction keys as [|k keys IH]; intros ps Hk; cbn [load_states].
  { exists ps. split; [done|]. intros k. rewrite decide_False; [done|]. by intros ?%elem_of_nil. }
  destruct (Hk k) as (raw & Hr & Hd); [by left|]. unfold state_path in Hr. rewrite Hr, Hd.
  destruct (IH (<[k := P k]> ps)) as (qs & Eq & Hq); [intros; apply Hk; by right|].
  exists qs. split; [done|]. intros k'. rewrite Hq. destruct (decide (k' ∈ keys)).
  - rewrite decide_True by (by right). done.
  - destruct (decide (k = k')) as [->|Hne].
    + rewrite lookup_insert_eq, decide_True by (by left). done.
    + rewrite lookup_insert_ne by done. rewrite decide_False; [done|].
      intros [?|?]%elem_of_cons; congruence.
Qed.

(** A checkpoint is reported absent exactly when its marker is: one with a marker
    that misses its metadata, or a state file, is another error. *)
Lemma Load_absent id im :
  Load root id im = Err errNoCheckpoint <-> im_files im !! Join (dir root id) completeName = None.
Proof.
  assert (forall keys ps, load_states (dir root id) id im keys ps <> Err errNoCheckpoint) as Hl.
  { induction keys as [|key keys IH]; intros ps; cbn; [done|].
    destruct (im_files im !! Join (dir root id) (fileName key)); [|done].
    by destruct (decodeSubtaskState _ id key). }
  unfold Load. destruct (im_files im !! Join (dir root id) completeName); [split; [|done]|done].
  destruct (im_files im !! Join (dir root id) metadataName); [|done].
  destruct (decodeMetadata _) as [meta|e]; [|done].
  destruct (load_states _ id im (Subtasks meta) ∅) eqn:E; [done|]. intros [= ->]. by apply Hl in E.
Qed.

Lemma usable_loads d id m P im :
  is_i64 id -> meta_ok m -> (forall k, k ∈ Subtasks m -> Z.of_nat (length (P k)) <= max_int64) ->
  disk_usable d id m P -> crash_image d (im_files im) -> is_Some (im_files im !! marker_path id) ->
  exists ps, Load root id im = Ok (m, ps) /\
    forall k, ps !! k = if decide (k ∈ Subtasks m) then Some (P k) else None.
Proof.
  intros Hi Hm Hl [Um Us] Hc Hmark. unfold Load. fold (marker_path id) (meta_path id).
  assert (is_Some (im_files im !! meta_path id)) as [raw Hraw].
  { eapply crash_there; [exact Hc|apply plain_metadata|apply plain_complete|exact Um|exact Hmark]. }
  pose proof (crash_found _ _ _ _ Hc Um _ Hraw) as ->.
  destruct Hmark as [x ->]. rewrite Hraw, decode_encode_metadata by done.
  destruct (load_states_ok id im (Subtasks m) P ∅) as (ps & -> & Hps).
  - intros k Hk. destruct (Us k Hk) as [Hv Hck].
    assert (is_Some (im_files im !! state_path id k)) as [c Hcc].
    { eapply crash_there; [exact Hc|by apply plain_fileName|apply plain_metadata|exact Hck|]. by exists (encodeMetadata m). }
    exists c. split; [done|]. pose proof (crash_found _ _ _ _ Hc Hck _ Hcc) as ->.
    apply decode_encode_state; [done|by eapply Subtasks_ok|by apply Hl].
  - exists ps. split; [done|]. intros k. rewrite Hps. by rewrite lookup_empty.
Qed.
End Root.
