(* ===== verification/Coordinator.v ===== *)
(** The checkpoint coordinator ([pkg/checkpoint/coordinator.go]): it counts
    acknowledgements, writes the snapshots through a checkpoint store and
    decides when a checkpoint is complete. Its mutex serialises the calls, so a
    run is a sequence of them. Go ranges over a map in any order: every call
    carries the orders it happens to see. *)
From S2P Require Import Prelude CheckpointFormat Storage StorageSpec.

Record checkpointState := MkState {
  acked : gset SubtaskKey;
  is_complete : bool;
  is_abandoned : bool;
}.

Definition terminal (st : checkpointState) : bool := is_complete st || is_abandoned st.

(** [finished] is the field [done]; [changed] counts the channels [announce]
    has closed. *)
Record Coordinator := MkCoordinator {
  meta : Metadata;
  expected : gset SubtaskKey;
  state : gmap Z checkpointState;
  finished : gmap SubtaskKey bytes;
  changed : nat;
}.

Definition NewCoordinator (m : Metadata) : Coordinator :=
  MkCoordinator m (list_to_set (Subtasks m)) ∅ ∅ 0.

Definition Expected (c : Coordinator) : Z := Z.of_nat (size (expected c)).

Definition set_state (id : Z) (st : checkpointState) (c : Coordinator) : Coordinator :=
  MkCoordinator (meta c) (expected c) (<[id := st]> (state c)) (finished c) (changed c).

Definition announce (c : Coordinator) : Coordinator :=
  MkCoordinator (meta c) (expected c) (state c) (finished c) (S (changed c)).

Definition abandon (id : Z) (st : checkpointState) (c : Coordinator) : Coordinator :=
  announce (set_state id (MkState ∅ (is_complete st) true) c).

(** The record of [id], created on first mention. *)
Definition stateFor (id : Z) (c : Coordinator) : checkpointState * Coordinator :=
  match state c !! id with
  | Some st => (st, c)
  | None => let st := MkState ∅ false false in (st, set_state id st c)
  end.

Definition waits_for (c : Coordinator) (st : checkpointState) (k : SubtaskKey) : Prop :=
  (k ∉ acked st) /\ finished c !! k = None.

#[export] Instance waits_for_dec c st k : Decision (waits_for c st k) := and_dec _ _.

Definition outstanding (c : Coordinator) (st : checkpointState) : nat :=
  size (filter (waits_for c st) (expected c)).

Definition Completed (id : Z) (c : Coordinator) : bool :=
  match state c !! id with Some st => is_complete st | None => false end.

Definition Abandoned (id : Z) (c : Coordinator) : bool :=
  match state c !! id with Some st => is_abandoned st | None => false end.

Definition Acked (id : Z) (c : Coordinator) : Z :=
  match state c !! id with Some st => Z.of_nat (size (acked st)) | None => 0 end.

Definition completed (ids : list Z) (c : Coordinator) : list Z :=
  filter (fun id => Completed id c = true) ids.

Definition CompletedAmong := completed.

Definition settled (ids : list Z) (c : Coordinator) : bool :=
  forallb (fun id => match state c !! id with Some st => terminal st | None => false end) ids.

(** [AwaitCompletedAmong]: the coordinator as it is each time the waiter gets
    the mutex, and as it is when the context is done, should that come first. *)
Fixpoint AwaitCompletedAmong (ids : list Z) (views : list Coordinator) (cancelled : Coordinator) : list Z :=
  match views with
  | [] => completed ids cancelled
  | c :: views =>
      if settled ids c then completed ids c else AwaitCompletedAmong ids views cancelled
  end.

Inductive coordinator_error (E : Type) :=
| ErrStore (e : E)
| errUnknownSubtask (k : SubtaskKey)
| errDuplicateAck (id : Z) (k : SubtaskKey)
| errDuplicateFinish (k : SubtaskKey).
Arguments ErrStore {E}.
Arguments errUnknownSubtask {E}.
Arguments errDuplicateAck {E}.
Arguments errDuplicateFinish {E}.

(** The orders a call ranges in: over the expected subtasks when it completes a
    checkpoint, and over the checkpoints. *)
Record ranging := MkRanging {
  over_keys : Z -> list SubtaskKey -> list SubtaskKey;
  over_ids : list Z -> list Z;
}.

Definition ranges (r : ranging) : Prop :=
  (forall id l, over_keys r id l ≡ₚ l) /\ (forall l, over_ids r l ≡ₚ l).

Definition in_order : ranging := MkRanging (fun _ l => l) (fun l => l).

Section Operations.
Context {S E : Type} `{CheckpointStore S E}.

Abbreviation CM := (M (coordinator_error E) (Coordinator * S)).

Definition on_store {A} (m : M E S A) : CM A := fun '(c, s) =>
  let '(r, s) := m s in (wrap_err ErrStore r, (c, s)).

Definition update (f : Coordinator -> Coordinator) : CM unit := modify (fun '(c, s) => (f c, s)).

(** A write of the store; the checkpoint is abandoned if it fails. *)
Definition or_abandon (id : Z) (st : checkpointState) (m : M E S unit) : CM unit := fun cs =>
  match on_store m cs with
  | (Ok u, cs) => (Ok u, cs)
  | (Err e, (c, s)) => (Err e, (abandon id st c, s))
  end.

Definition complete (r : ranging) (id : Z) (st : checkpointState) : CM unit :=
  '(c, _) ← get_st;
  _ ← for_each (fun key =>
        if bool_decide (key ∈ acked st) then mret tt
        else or_abandon id st (store_write id key (default [] (finished c !! key))))
      (over_keys r id (elements (expected c)));
  _ ← or_abandon id st (store_complete id (meta c));
  update (fun c => announce (set_state id (MkState ∅ true (is_abandoned st)) c)).

Definition Acknowledge (r : ranging) (id : Z) (key : SubtaskKey) (payload : bytes) : CM unit :=
  '(c, _) ← get_st;
  if bool_decide (key ∉ expected c) then fail (errUnknownSubtask key)
  else
    let '(st, c) := stateFor id c in
    _ ← update (fun _ => c);
    if is_abandoned st then mret tt
    else if is_complete st || bool_decide (key ∈ acked st) then fail (errDuplicateAck id key)
    else
      _ ← or_abandon id st (store_write id key payload);
      let st := MkState ({[key]} ∪ acked st) (is_complete st) (is_abandoned st) in
      _ ← update (set_state id st);
      if (0 <? outstanding c st)%nat then mret tt else complete r id st.

(** The body of the loop over the checkpoints in [Finished]. *)
Definition finish_one (r : ranging) (id : Z) : CM unit := fun cs =>
  match state cs.1 !! id with
  | None => (Ok tt, cs)
  | Some st =>
      if terminal st then (Ok tt, cs)
      else if (0 <? outstanding cs.1 st)%nat then (Ok tt, cs)
      else complete r id st cs
  end.

Definition Finished (r : ranging) (key : SubtaskKey) (payload : bytes) : CM unit :=
  '(c, _) ← get_st;
  if bool_decide (key ∉ expected c) then fail (errUnknownSubtask key)
  else
    match finished c !! key with
    | Some _ => fail (errDuplicateFinish key)
    | None =>
        let c := MkCoordinator (meta c) (expected c) (state c) (<[key := payload]> (finished c)) (changed c) in
        _ ← update (fun _ => c);
        for_each (finish_one r) (over_ids r (elements (dom (state c))))
    end.

Definition Fail (id : Z) : CM unit := fun '(c, s) =>
  let '(st, c) := stateFor id c in
  if is_complete st then (Ok tt, (c, s)) else (Ok tt, (abandon id st c, s)).

(** ** Runs *)

Inductive call :=
| CAck (r : ranging) (id : Z) (key : SubtaskKey) (payload : bytes)
| CFinish (r : ranging) (key : SubtaskKey) (payload : bytes)
| CFail (id : Z).

Definition run_call (a : call) : CM unit :=
  match a with
  | CAck r id key payload => Acknowledge r id key payload
  | CFinish r key payload => Finished r key payload
  | CFail id => Fail id
  end.

(** The calls in the order they get the mutex, and what each returns. *)
Fixpoint run_calls (l : list call) (cs : Coordinator * S)
    : list (result (coordinator_error E) unit) * (Coordinator * S) :=
  match l with
  | [] => ([], cs)
  | a :: l =>
      let '(x, cs) := run_call a cs in
      let '(xs, cs) := run_calls l cs in (x :: xs, cs)
  end.
End Operations.
