(* ===== verification/CoordinatorSpec.v ===== *)
(** What the coordinator promises ([pkg/checkpoint/coordinator.go]): a marker
    is only ever found with the metadata and the payload of every subtask, a
    checkpoint completes exactly when every live subtask has acknowledged it,
    and a waiter is woken whenever what it waits for has changed. *)
From S2P Require Import Prelude Strconv CheckpointFormat Storage StorageSpec Coordinator.

(** A payload for every key, from one for each. *)
Lemma choose_payloads {A} `{EqDecision A} {B} (Q : A -> B -> Prop) (b : B) (l : list A) :
  (forall k, k ∈ l -> exists p, Q k p) -> exists P : A -> B, forall k, k ∈ l -> Q k (P k).
Proof.
  induction l as [|x l IH]; intros Hl.
  { exists (fun _ => b). intros k Hk. by apply elem_of_nil in Hk. }
  destruct IH as [P HP]; [intros; apply Hl; by right|]. destruct (Hl x) as [p Hp]; [by left|].
  exists (fun k => if decide (k = x) then p else P k). intros k Hk.
  case_decide; [by subst|]. apply elem_of_cons in Hk as [?|?]; [done|auto].
Qed.

(** [k] gave [p] for checkpoint [id]: by acknowledging it, or by finishing. *)
Definition gave (l : list call) (id : Z) (k : SubtaskKey) (p : bytes) : Prop :=
  (exists r, CAck r id k p ∈ l) \/ (exists r, CFinish r k p ∈ l).

(** Go's types and Go's maps: checkpoint IDs are [int64]s, and a range over a
    map visits each of its keys once. *)
Definition well_called (a : call) : Prop :=
  match a with
  | CAck r id _ _ => is_i64 id /\ ranges r
  | CFinish r _ _ => ranges r
  | CFail id => is_i64 id
  end.

Definition unfinished (id : Z) (c : Coordinator) : Prop :=
  forall st, state c !! id = Some st -> terminal st = false.

Section Safety.
Context {S E : Type} `{StoreLaws S E}.
Context (m : Metadata) (Hm : forall k, k ∈ Subtasks m -> 0 <= Index k <= max_int64).

(** ** The invariant *)

Record Inv (l : list call) (c : Coordinator) (s : S) : Prop := {
  i_meta : meta c = m;
  i_expected : expected c = list_to_set (Subtasks m);
  i_sound : sound s;
  i_ids id : is_Some (state c !! id) -> is_i64 id;
  i_finished k p : finished c !! k = Some p -> exists r, CFinish r k p ∈ l;
  i_acked id st k : state c !! id = Some st -> terminal st = false -> k ∈ acked st ->
    k ∈ expected c /\ exists r p, CAck r id k p ∈ l /\ in_place s id k p;
  i_unmarked id : is_i64 id -> unfinished id c -> ~ marked s id;
  i_usable id : is_i64 id -> marked s id \/ Completed id c = true -> exists P, usable s id m P /\ forall k, k ∈ Subtasks m -> gave l id k (P k);
  i_durable id : Completed id c = true -> durable s id;
}.

Lemma Inv_more l l' c s : (forall a, a ∈ l -> a ∈ l') -> Inv l c s -> Inv l' c s.
Proof.
  intros Hl []. split; try done.
  - intros k p Hk. destruct (i_finished0 k p Hk) as [r ?]. eauto.
  - intros id st k Hst Ht Hk. destruct (i_acked0 id st k Hst Ht Hk) as (? & r & p & ? & ?). eauto 6.
  - intros id Hi Hmk. destruct (i_usable0 id Hi Hmk) as (P & ? & HP). exists P. split; [done|].
    intros k Hk. destruct (HP k Hk) as [[r ?]|[r ?]]; [left|right]; eauto.
Qed.

Lemma expected_Subtasks l c s k : Inv l c s -> k ∈ expected c <-> k ∈ Subtasks m.
Proof. intros []. rewrite i_expected0. apply elem_of_list_to_set. Qed.

Lemma expected_addressable l c s id k : Inv l c s -> is_i64 id -> k ∈ expected c -> addressable id k.
Proof. intros HI Hi Hk. split; [done|]. apply Hm. by apply (expected_Subtasks l c s k HI). Qed.

Lemma not_complete id c : unfinished id c -> Completed id c = false.
Proof.
  unfold Completed. intros Hu. destruct (state c !! id) as [st|] eqn:Est; [|done].
  specialize (Hu st Est). unfold terminal in Hu. by destruct (is_complete st).
Qed.

(** ** Steps *)

Lemma Inv_write l c s id k p :
  Inv l c s -> is_i64 id -> k ∈ expected c -> unfinished id c ->
  (forall st, state c !! id = Some st -> k ∉ acked st) ->
  Inv l c (store_write id k p s).2.
Proof.
  intros HI Hi Hk Hu Ha. pose proof (expected_addressable _ _ _ id k HI Hi Hk) as Hadr. pose proof HI as [].
  assert (~ marked (store_write id k p s).2 id) as Hnm.
  { intros Hmk%write_marked. by apply (i_unmarked0 id). }
  split; try done.
  - by apply write_sound.
  - intros id' st k' Hst Ht Hk'. destruct (i_acked0 id' st k' Hst Ht Hk') as (Hx & r & q & Hc & Hp).
    split; [done|]. exists r, q. split; [done|]. apply write_keeps; [done|done| | |done].
    + eapply expected_addressable; [exact HI| |done]. apply i_ids0. by rewrite Hst.
    + intros [= -> ->]. by apply (Ha st).
  - intros id' Hi' Hu' Hmk%write_marked. by apply (i_unmarked0 id').
  - intros id' Hi' Hmk. assert (id <> id') as Hne.
    { intros <-. pose proof (not_complete id c Hu). destruct Hmk; congruence. }
    destruct (i_usable0 id' Hi') as (P & HP & Hg); [destruct Hmk as [Hmk%write_marked|]; auto|].
    exists P. split; [|done]. by apply write_usable.
  - intros id' Hc. apply write_durable; auto.
Qed.

Lemma write_keeps_here l c s id k p k' p' :
  Inv l c s -> is_i64 id -> k ∈ expected c -> k' ∈ expected c -> k <> k' ->
  in_place s id k' p' -> in_place (store_write id k p s).2 id k' p'.
Proof.
  intros HI Hi Hk Hk' Hne. apply write_keeps; [apply HI| | |congruence];
    by eapply expected_addressable.
Qed.

(** The record of [id] becomes [st]. *)
Lemma Inv_set_state l c s id st :
  Inv l c s -> is_i64 id -> unfinished id c -> terminal st = false ->
  (forall k, k ∈ acked st -> k ∈ expected c /\ exists r p, CAck r id k p ∈ l /\ in_place s id k p) ->
  Inv l (set_state id st c) s.
Proof.
  intros [] Hi Hu Ht Ha. split; try done.
  - intros id'. cbn. destruct (decide (id = id')) as [<-|Hne]; [done|]. rewrite lookup_insert_ne; auto.
  - intros id' st' k. cbn. destruct (decide (id = id')) as [<-|Hne].
    + rewrite lookup_insert_eq. intros [= <-]. auto.
    + rewrite lookup_insert_ne by done. eauto.
  - intros id' Hi' Hu'. apply i_unmarked0; [done|]. intros st' Hst'.
    destruct (decide (id = id')) as [<-|Hne]; [by apply Hu|].
    apply Hu'. cbn. by rewrite lookup_insert_ne.
  - intros id' Hi' Hmk. apply i_usable0; [done|]. destruct Hmk as [?|Hc]; [by left|].
    unfold Completed in Hc. cbn in Hc. destruct (decide (id = id')) as [<-|Hne].
    + rewrite lookup_insert_eq in Hc. unfold terminal in Ht. by rewrite Hc in Ht.
    + rewrite lookup_insert_ne in Hc by done. by right.
  - intros id' Hc. apply i_durable0. unfold Completed in Hc. cbn in Hc.
    destruct (decide (id = id')) as [<-|Hne].
    + rewrite lookup_insert_eq in Hc. unfold terminal in Ht. by rewrite Hc in Ht.
    + by rewrite lookup_insert_ne in Hc.
Qed.

(** The record of [id] becomes final, abandoned. *)
Lemma Inv_abandon l c s id st :
  Inv l c s -> is_i64 id -> is_complete st = false -> Completed id c = false -> Inv l (abandon id st c) s.
Proof.
  intros [] Hi Hst Hnc.
  assert (forall id', Completed id' (abandon id st c) = Completed id' c) as Hsame.
  { intros id'. unfold Completed at 1. cbn. destruct (decide (id = id')) as [<-|Hne].
    - rewrite lookup_insert_eq. by rewrite Hnc.
    - by rewrite lookup_insert_ne. }
  split; try done.
  - intros id'. cbn. destruct (decide (id = id')) as [<-|Hne]; [done|]. rewrite lookup_insert_ne; auto.
  - intros id' st' k. cbn. destruct (decide (id = id')) as [<-|Hne].
    + rewrite lookup_insert_eq. intros [= <-]. unfold terminal. cbn. by rewrite orb_true_r.
    + rewrite lookup_insert_ne by done. eauto.
  - intros id' Hi' Hu'. apply i_unmarked0; [done|]. intros st' Hst'.
    destruct (decide (id = id')) as [<-|Hne].
    + specialize (Hu' (MkState ∅ (is_complete st) true)). cbn in Hu'. rewrite lookup_insert_eq in Hu'.
      specialize (Hu' eq_refl). unfold terminal in Hu'. cbn in Hu'. by rewrite orb_true_r in Hu'.
    + apply Hu'. cbn. by rewrite lookup_insert_ne.
  - intros id' Hi' Hmk. rewrite Hsame in Hmk. auto.
  - intros id' Hc. rewrite Hsame in Hc. auto.
Qed.

(** [store_complete] once everything is in place. *)
Lemma Inv_complete l c s id :
  Inv l c s -> is_i64 id -> unfinished id c ->
  (forall k, k ∈ expected c -> exists p, gave l id k p /\ in_place s id k p) ->
  forall r s' st, store_complete id m s = (r, s') -> terminal st = true -> acked st = ∅ ->
  (is_complete st = true -> r = Ok tt) ->
  Inv l (announce (set_state id st c)) s'.
Proof.
  intros HI Hi Hu Hall r s' st Er Ht Hac Hr. pose proof HI as [].
  assert (s' = (store_complete id m s).2) as Es' by by rewrite Er.
  destruct (choose_payloads (fun k p => gave l id k p /\ in_place s id k p) [] (Subtasks m)) as [P HP].
  { intros k Hk. apply Hall. by apply (expected_Subtasks l c s). }
  assert (marked s' id -> usable s' id m P) as HU.
  { rewrite Es'. apply complete_usable; [done|done|by apply i_unmarked0|]. intros k Hk. by apply HP. }
  assert (is_complete st = true -> marked s' id /\ durable s' id) as Hok.
  { intros Hc. rewrite (Hr Hc) in Er. by apply complete_ok in Er. }
  assert (forall id', id <> id' -> Completed id' (announce (set_state id st c)) = Completed id' c) as Hsame.
  { intros id' Hne. unfold Completed. cbn. by rewrite lookup_insert_ne. }
  assert (Completed id (announce (set_state id st c)) = is_complete st) as Hhere.
  { unfold Completed. cbn. by rewrite lookup_insert_eq. }
  split; try done.
  - rewrite Es'. by apply complete_sound.
  - intros id'. cbn. destruct (decide (id = id')) as [<-|Hne]; [done|]. rewrite lookup_insert_ne; auto.
  - intros id' st' k. cbn. destruct (decide (id = id')) as [<-|Hne].
    + rewrite lookup_insert_eq. intros [= <-]. congruence.
    + rewrite lookup_insert_ne by done. intros Hst' Ht' Hk.
      destruct (i_acked0 id' st' k Hst' Ht' Hk) as (? & q & p & ? & ?). split; [done|]. exists q, p.
      split; [done|]. rewrite Es'. by apply complete_keeps.
  - intros id' Hi' Hu'. destruct (decide (id = id')) as [<-|Hne].
    + specialize (Hu' st). cbn in Hu'. rewrite lookup_insert_eq in Hu'. specialize (Hu' eq_refl). congruence.
    + rewrite Es'. intros Hmk%complete_marked; [|done..]. revert Hmk. apply i_unmarked0; [done|].
      intros st' Hst'. apply Hu'. cbn. by rewrite lookup_insert_ne.
  - intros id' Hi' Hmk. destruct (decide (id = id')) as [<-|Hne].
    + exists P. split; [|intros k Hk; by apply HP]. rewrite Hhere in Hmk. destruct Hmk as [?|Hc]; [auto|].
      apply HU. by apply Hok.
    + rewrite Hsame in Hmk by done. destruct (i_usable0 id' Hi') as (Q & HQ & Hg).
      { destruct Hmk as [Hmk|]; [left|by right]. rewrite Es' in Hmk. by apply complete_marked in Hmk. }
      exists Q. split; [|done]. rewrite Es'. by apply complete_usable_ne.
  - intros id' Hc. destruct (decide (id = id')) as [<-|Hne].
    + rewrite Hhere in Hc. by apply Hok.
    + rewrite Hsame in Hc by done. rewrite Es'. apply complete_durable_ne; auto.
      apply i_ids0. unfold Completed in Hc. by destruct (state c !! id').
Qed.

(** ** Operations *)

Lemma or_abandon_cases id st (w : M E S unit) c s r cs' :
  or_abandon id st w (c, s) = (r, cs') ->
  exists r' s', w s = (r', s') /\
    match r' with
    | Ok _ => r = Ok tt /\ cs' = (c, s')
    | Err e => r = Err (ErrStore e) /\ cs' = (abandon id st c, s')
    end.
Proof.
  unfold or_abandon, on_store. destruct (w s) as [[[]|e] s1]; intros [= <- <-]; eexists _, _; (split; [reflexivity|done]).
Qed.

Lemma unfinished_at id c st : state c !! id = Some st -> terminal st = false -> unfinished id c.
Proof. intros Hst Ht st' Hst'. congruence. Qed.

Lemma Inv_abandon_open l c s id st :
  Inv l c s -> state c !! id = Some st -> terminal st = false -> Inv l (abandon id st c) s.
Proof.
  intros HI Hst Ht. apply Inv_abandon; [done| | |].
  - apply (i_ids _ _ _ HI). by rewrite Hst.
  - unfold terminal in Ht. by destruct (is_complete st).
  - by eapply not_complete, unfinished_at.
Qed.

(** The writes [complete] makes for the subtasks that have finished. *)
Definition fill (id : Z) (st : checkpointState) (c : Coordinator) (key : SubtaskKey)
    : M (coordinator_error E) (Coordinator * S) unit :=
  if bool_decide (key ∈ acked st) then mret tt
  else or_abandon id st (store_write id key (default [] (finished c !! key))).

Lemma fill_spec l c id st keys s r c' s' :
  Inv l c s -> state c !! id = Some st -> terminal st = false -> NoDup keys ->
  (forall k, k ∈ keys -> k ∈ expected c /\ (k ∉ acked st -> is_Some (finished c !! k))) ->
  for_each (fill id st c) keys (c, s) = (r, (c', s')) ->
  match r with
  | Err _ => Inv l c' s'
  | Ok _ => c' = c /\ Inv l c s' /\
      (forall k p, k ∈ expected c -> (k ∉ keys) \/ k ∈ acked st -> in_place s id k p -> in_place s' id k p) /\
      (forall k, k ∈ keys -> exists p, gave l id k p /\ in_place s' id k p)
  end.
Proof.
  intros HI Hst Ht Hnd. revert s HI. induction Hnd as [|k keys Hk Hnd IH]; intros s HI Hkeys Er.
  { injection Er as <- <- <-. split_and!; [done|done|auto|]. intros k Hk. by apply elem_of_nil in Hk. }
  assert (is_i64 id) as Hi by (apply (i_ids _ _ _ HI); by rewrite Hst).
  rewrite for_each_cons in Er. unfold fill at 1 in Er. destruct (Hkeys k) as [Hke Hkf]; [by left|].
  case_bool_decide as Hka.
  - cbn [mret M_ret] in Er. specialize (IH s HI (fun k' H => Hkeys k' (list_elem_of_further _ _ _ H)) Er).
    destruct r as [u|e]; [|done]. destruct IH as (-> & HI' & Hkeep & Hput). split_and!; [done|done| |].
    + intros k' p Hk' [Hn|?] Hp; [|auto]. apply Hkeep; [done| |done]. left. intros ?. apply Hn. by right.
    + intros k' [->|Hk']%elem_of_cons; [|auto].
      destruct (i_acked _ _ _ HI id st k Hst Ht Hka) as (_ & q & p & Hc & Hp).
      exists p. split; [left; eauto|]. apply Hkeep; auto.
  - destruct (or_abandon id st _ (c, s)) as [r1 [c1 s1]] eqn:E1.
    apply or_abandon_cases in E1 as (r2 & s2 & Ew & E1).
    assert (Inv l c s2) as HI2.
    { change s2 with (r2, s2).2. rewrite <- Ew. apply Inv_write; try done.
      - by eapply unfinished_at.
      - intros st' Hst'. by simplify_eq. }
    destruct r2 as [[]|e]; destruct E1 as [-> [= -> ->]].
    2:{ injection Er as <- <- <-. by apply Inv_abandon_open. }
    specialize (IH s2 HI2 (fun k' H => Hkeys k' (list_elem_of_further _ _ _ H)) Er).
    assert (forall k' p, k' ∈ expected c -> k <> k' -> in_place s id k' p -> in_place s2 id k' p) as Hk2.
    { intros k' p Hk' Hne Hp. change s2 with (Ok tt : result E unit, s2).2. rewrite <- Ew.
      by eapply write_keeps_here. }
    destruct r as [u|e]; [|done]. destruct IH as (-> & HI' & Hkeep & Hput). split_and!; [done|done| |].
    + intros k' p Hk' Hor Hp. apply Hkeep; [done| |].
      * destruct Hor as [Hn|?]; [left|by right]. intros ?. apply Hn. by right.
      * apply Hk2; [done| |done]. intros <-. destruct Hor as [Hn|?]; [apply Hn; by left|done].
    + intros k' [->|Hk']%elem_of_cons; [|auto].
      destruct (Hkf Hka) as [p Hf]. exists p. split.
      * right. by apply (i_finished _ _ _ HI).
      * apply Hkeep; [done|by left|]. rewrite Hf in Ew. cbn in Ew.
        eapply write_in_place; [|exact Ew]. apply HI.
Qed.

Lemma no_outstanding c st k :
  outstanding c st = 0%nat -> k ∈ expected c -> k ∉ acked st -> is_Some (finished c !! k).
Proof.
  intros Ho Hk Ha. apply not_eq_None_Some. intros Hn. unfold outstanding in Ho.
  apply size_empty_inv in Ho. apply (not_elem_of_empty (C := gset SubtaskKey) k).
  rewrite <- Ho. apply elem_of_filter. by split.
Qed.

Lemma Inv_complete_op l c s id st r x c' s' :
  Inv l c s -> state c !! id = Some st -> terminal st = false -> outstanding c st = 0%nat -> ranges r ->
  complete r id st (c, s) = (x, (c', s')) -> Inv l c' s'.
Proof.
  intros HI Hst Ht Ho [Hr _] Er. unfold complete, mbind, M_bind, get_st in Er. fold (fill id st c) in Er.
  assert (is_i64 id) as Hi by (apply (i_ids _ _ _ HI); by rewrite Hst).
  destruct (for_each _ _ _) as [r1 [c1 s1]] eqn:E1.
  eapply fill_spec in E1; [|exact HI|exact Hst|exact Ht|rewrite Hr; apply NoDup_elements|].
  2:{ intros k. rewrite Hr, elem_of_elements. intros Hk. split; [done|]. by apply no_outstanding. }
  destruct r1 as [[]|e]; [|by injection Er as <- <- <-]. destruct E1 as (-> & HI1 & _ & Hput).
  assert (forall k, k ∈ expected c -> exists p, gave l id k p /\ in_place s1 id k p) as Hall.
  { intros k Hk. apply Hput. by rewrite Hr, elem_of_elements. }
  pose proof (i_meta _ _ _ HI) as Em. rewrite Em in Er.
  destruct (or_abandon _ _ _ (c, s1)) as [r2 [c2 s2]] eqn:E2.
  apply or_abandon_cases in E2 as (r3 & s3 & Ec & E2).
  pose proof (Inv_complete l c s1 id HI1 Hi (unfinished_at _ _ _ Hst Ht) Hall) as HC.
  destruct r3 as [[]|e]; destruct E2 as [-> [= -> ->]]; injection Er as <- <- <-.
  - eapply HC; [exact Ec|..]; done.
  - eapply HC; [exact Ec| |done|].
    + unfold terminal. cbn. by rewrite orb_true_r.
    + cbn. unfold terminal in Ht. by destruct (is_complete st).
Qed.

Lemma Inv_stateFor l c s id st c1 :
  Inv l c s -> is_i64 id -> stateFor id c = (st, c1) -> Inv l c1 s /\ state c1 !! id = Some st.
Proof.
  intros HI Hi. unfold stateFor. destruct (state c !! id) as [st'|] eqn:Est; intros [= <- <-]; [done|].
  split; [|cbn; by rewrite lookup_insert_eq]. apply Inv_set_state; [done|done| |done|].
  - intros st' Hst'. congruence.
  - intros k Hk. by apply elem_of_empty in Hk.
Qed.

Lemma Inv_Acknowledge l c s r id k p x c' s' :
  Inv l c s -> well_called (CAck r id k p) -> CAck r id k p ∈ l ->
  Acknowledge r id k p (c, s) = (x, (c', s')) -> Inv l c' s'.
Proof.
  intros HI [Hi Hr] Hl Er. unfold Acknowledge, mbind, M_bind, get_st, update, modify, fail in Er.
  case_bool_decide as Hk; [by injection Er as <- <- <-|].
  destruct (stateFor id c) as [st c1] eqn:Ef.
  assert (expected c1 = expected c) as Ex by (revert Ef; unfold stateFor; destruct (state c !! id); by intros [= <- <-]).
  apply (Inv_stateFor l c s) in Ef as [HI1 Hst]; [|done..]. cbv beta iota in Er.
  destruct (is_abandoned st) eqn:Ea; [by injection Er as <- <- <-|].
  destruct (is_complete st) eqn:Ec; cbn [orb] in Er; [by injection Er as <- <- <-|].
  case_bool_decide as Hka; [by injection Er as <- <- <-|].
  assert (terminal st = false) as Ht by (unfold terminal; by rewrite Ea, Ec).
  destruct (or_abandon _ _ _ (c1, s)) as [r2 [c2 s2]] eqn:E2.
  apply or_abandon_cases in E2 as (r3 & s3 & Ew & E2).
  assert (Inv l c1 s3) as HI3.
  { change s3 with (r3, s3).2. rewrite <- Ew. apply Inv_write; [done|done|congruence| |].
    - by eapply unfinished_at.
    - intros st' Hst'. by simplify_eq. }
  destruct r3 as [[]|e]; destruct E2 as [-> [= -> ->]].
  2:{ injection Er as <- <- <-. by apply Inv_abandon_open. }
  set (st2 := MkState _ _ _) in Er.
  assert (Inv l (set_state id st2 c1) s3) as HI4.
  { apply Inv_set_state; [done|done|by eapply unfinished_at|done|]. subst st2. cbn [acked].
    intros k' [->%elem_of_singleton|Hk']%elem_of_union.
    - split; [congruence|]. exists r, p. split; [done|]. eapply write_in_place; [|exact Ew]. apply HI1.
    - destruct (i_acked _ _ _ HI3 id st k' Hst Ht Hk') as (? & ? & ? & ? & ?). eauto. }
  destruct (0 <? outstanding c1 st2)%nat eqn:Eo; [by injection Er as <- <- <-|].
  apply Nat.ltb_ge in Eo. eapply (Inv_complete_op l _ s3 id st2); [exact HI4| | |change (outstanding c1 st2 = 0%nat); lia| |exact Er].
  - cbn. by rewrite lookup_insert_eq.
  - done.
  - done.
Qed.


Lemma Inv_finish_loop l r ids c s x c' s' :
  Inv l c s -> ranges r -> for_each (finish_one r) ids (c, s) = (x, (c', s')) -> Inv l c' s'.
Proof.
  intros HI Hr Er.
  assert (Inv l (for_each (finish_one r) ids (c, s)).2.1 (for_each (finish_one r) ids (c, s)).2.2) as HI'.
  2:{ by rewrite Er in HI'. }
  apply (for_each_inv _ (fun cs : Coordinator * S => Inv l cs.1 cs.2)); [|done].
  intros id [c1 s1] _ HI1. cbn in HI1. unfold finish_one. cbn [fst].
  destruct (state c1 !! id) as [st|] eqn:Hst; [|done].
  destruct (terminal st) eqn:Ht; [done|].
  destruct (0 <? outstanding c1 st)%nat eqn:Eo; [done|]. apply Nat.ltb_ge in Eo.
  destruct (complete r id st (c1, s1)) as [y [c2 s2]] eqn:Ec. cbn.
  eapply Inv_complete_op; [exact HI1|exact Hst|exact Ht|lia|exact Hr|exact Ec].
Qed.

Lemma Inv_Finished l c s r k p x c' s' :
  Inv l c s -> ranges r -> CFinish r k p ∈ l -> Finished r k p (c, s) = (x, (c', s')) -> Inv l c' s'.
Proof.
  intros HI Hr Hl Er. unfold Finished, mbind, M_bind, get_st, update, modify, fail in Er.
  case_bool_decide as Hk; [by injection Er as <- <- <-|].
  destruct (finished c !! k) as [q|] eqn:Ef; [by injection Er as <- <- <-|].
  cbv beta iota in Er. eapply Inv_finish_loop; [|exact Hr|exact Er].
  destruct HI. split; try done. intros k' p'. cbn.
  destruct (decide (k = k')) as [<-|Hne].
  - rewrite lookup_insert_eq. intros [= <-]. eauto.
  - rewrite lookup_insert_ne by done. apply i_finished0.
Qed.

Lemma Inv_Fail l c s id x c' s' :
  Inv l c s -> is_i64 id -> Fail (E := E) id (c, s) = (x, (c', s')) -> Inv l c' s'.
Proof.
  intros HI Hi. unfold Fail. destruct (stateFor id c) as [st c1] eqn:Ef.
  apply (Inv_stateFor l c s) in Ef as [HI1 Hst]; [|done..].
  destruct (is_complete st) eqn:Ec; intros [= <- <- <-]; [done|].
  apply Inv_abandon; [done|done|done|]. unfold Completed. by rewrite Hst.
Qed.

Lemma Inv_run_call l c s a x c' s' :
  Inv l c s -> well_called a -> run_call a (c, s) = (x, (c', s')) -> Inv (l ++ [a]) c' s'.
Proof.
  intros HI Ha Er. assert (a ∈ l ++ [a]) as Hin by (apply elem_of_app; right; by left).
  apply (Inv_more l (l ++ [a])) in HI; [|intros b Hb; apply elem_of_app; by left].
  destruct a as [r id k p|r k p|id]; cbn in Ha, Er.
  - by eapply Inv_Acknowledge.
  - by eapply Inv_Finished.
  - by eapply Inv_Fail.
Qed.

Lemma Inv_run_calls l l' c s xs c' s' :
  Inv l c s -> Forall well_called l' -> run_calls l' (c, s) = (xs, (c', s')) -> Inv (l ++ l') c' s'.
Proof.
  intros HI Hl. revert l c s xs HI. induction Hl as [|a l' Ha Hl IH]; intros l c s xs HI Er.
  { injection Er as _ <- <-. by rewrite app_nil_r. }
  cbn in Er. destruct (run_call a (c, s)) as [x [c1 s1]] eqn:E1.
  destruct (run_calls l' (c1, s1)) as [ys cs2] eqn:E2. injection Er as _ ->.
  replace (l ++ a :: l') with ((l ++ [a]) ++ l') by by rewrite <- app_assoc.
  eapply IH; [|exact E2]. by eapply Inv_run_call.
Qed.

Lemma Inv_start s : sound s -> (forall id, is_i64 id -> ~ marked s id) -> Inv [] (NewCoordinator m) s.
Proof.
  intros Hs Hnm. split; try done.
  - intros id [st Hst]. cbn in Hst. by rewrite lookup_empty in Hst.
  - intros id Hi _. by apply Hnm.
  - intros id Hi [Hmk|Hc]; [by apply Hnm in Hmk|]. unfold Completed in Hc. cbn in Hc. by rewrite lookup_empty in Hc.
Qed.

Lemma Inv_run calls s xs c' s' :
  sound s -> (forall id, is_i64 id -> ~ marked s id) -> Forall well_called calls ->
  run_calls calls (NewCoordinator m, s) = (xs, (c', s')) -> Inv calls c' s'.
Proof. intros Hs Hnm Hw Er. eapply (Inv_run_calls []); [by apply Inv_start|done|exact Er]. Qed.
End Safety.

(** * On the disk *)

(** The files as the machine sees them: nothing is lost. *)
Definition current_files (d : disk) : gmap bytes bytes :=
  omap (fun h => mjoin (head h) ≫= fun i => contents <$> inodes d !! i) (history d).

Definition entry_ok (d : disk) (o : option nat) : Prop :=
  match o with Some i => is_Some (inodes d !! i) | None => True end.

#[export] Instance entry_ok_dec d o : Decision (entry_ok d o).
Proof. destruct o; apply _. Defined.

Definition has_inodes (d : disk) : Prop :=
  map_Forall (fun _ h => h <> [] /\ Forall (entry_ok d) h) (history d).

#[export] Instance has_inodes_dec d : Decision (has_inodes d).
Proof. apply map_Forall_dec. intros. apply _. Defined.

Lemma crash_image_current d : has_inodes d -> crash_image d (current_files d).
Proof.
  intros Hi. split.
  - intros p c. unfold current_files. rewrite lookup_omap. unfold hist.
    destruct (history d !! p) as [[|[i|] h]|]; cbn; try done.
    destruct (inodes d !! i) as [n|] eqn:En; [|done]. intros [= <-].
    exists i, n. split; [by left|done].
  - intros dir name Hn. unfold current_files. rewrite lookup_omap. unfold hist.
    destruct (history d !! Join dir name) as [h|] eqn:Eh; [|intros _; left; by left].
    destruct (Hi _ _ Eh) as [Hne Hall]. destruct h as [|[i|] h]; cbn; [done| |intros _; left; by left].
    apply Forall_cons in Hall as [[n Hn'] _]. rewrite Hn'. done.
Qed.

(** The machine starts on a disk without a marker. *)
Definition unmarked (root : bytes) (d : disk) : Prop :=
  disk_sound d /\ forall id, is_i64 id -> ~ disk_marked root d id.

Definition payloads_fit (calls : list call) : Prop :=
  forall id k p, gave calls id k p -> Z.of_nat (length p) <= max_int64.

Lemma meta_ok_index m : meta_ok m -> forall k, k ∈ Subtasks m -> 0 <= Index k <= max_int64.
Proof.
  intros Hm k Hk. destruct (Subtasks_ok m k Hm Hk) as [_ Hi]. revert Hi. unfold_ints. lia.
Qed.

Section Disk.
Context (root : bytes) (m : Metadata) (Hm : meta_ok m).

Lemma usable_recovers calls c (d : disk) im id :
  Inv (H0 := disk_store_laws root) m calls c d -> is_i64 id -> payloads_fit calls ->
  disk_marked root d id \/ Completed id c = true ->
  crash_image d (im_files im) -> is_Some (im_files im !! marker_path root id) ->
  exists ps, Load root id im = Ok (m, ps) /\
    (forall k, k ∈ Subtasks m -> exists p, ps !! k = Some p /\ gave calls id k p) /\
    (forall k, k ∉ Subtasks m -> ps !! k = None).
Proof.
  intros HI Hi Hfit Hmk Hc Hf. destruct (i_usable _ _ _ _ HI id Hi Hmk) as (P & HU & Hg).
  destruct (usable_loads root d id m P im) as (ps & Hl & Hps); try done.
  { intros k Hk. by eapply Hfit, Hg. }
  exists ps. split; [done|]. split; intros k Hk; rewrite Hps.
  - rewrite decide_True by done. eauto.
  - by rewrite decide_False.
Qed.
End Disk.

(** C8. Invariant 8 and 4, whatever fails and wherever the machine stops: if the
    marker of a checkpoint is found after a crash, the checkpoint loads in full,
    with the metadata of the job and, for each of its subtasks, a payload that
    subtask acknowledged that checkpoint with, or finished with. *)
Theorem marker_means_recoverable root m d0 calls xs c d im id :
  meta_ok m -> unmarked root d0 -> Forall well_called calls -> payloads_fit calls -> is_i64 id ->
  run_calls (H := disk_store root) calls (NewCoordinator m, d0) = (xs, (c, d)) ->
  crash_image d (im_files im) -> is_Some (im_files im !! marker_path root id) ->
  exists ps, Load root id im = Ok (m, ps) /\
    (forall k, k ∈ Subtasks m -> exists p, ps !! k = Some p /\ gave calls id k p) /\
    (forall k, k ∉ Subtasks m -> ps !! k = None).
Proof.
  intros Hm [Hs Hnm] Hw Hfit Hi Er Hc Hf.
  pose proof (Inv_run m (meta_ok_index m Hm) calls d0 xs c d Hs Hnm Hw Er) as HI.
  eapply usable_recovers; [exact Hm|exact HI|done..| |exact Hc|exact Hf].
  left. destruct Hf as [x Hf]. destruct (ci_found _ _ Hc _ _ Hf) as (i & _ & Hin & _). by exists i.
Qed.

(** C14. A checkpoint the coordinator reports as complete survives a crash: it
    loads in full, unless its directory, never synced into the checkpoint root,
    is gone with all its files. *)
Theorem completed_survives root m d0 calls xs c d im id :
  meta_ok m -> unmarked root d0 -> Forall well_called calls -> payloads_fit calls -> is_i64 id ->
  run_calls (H := disk_store root) calls (NewCoordinator m, d0) = (xs, (c, d)) ->
  Completed id c = true -> crash_image d (im_files im) ->
  (exists ps, Load root id im = Ok (m, ps) /\
    (forall k, k ∈ Subtasks m -> exists p, ps !! k = Some p /\ gave calls id k p) /\
    (forall k, k ∉ Subtasks m -> ps !! k = None)) \/
  (dirs d !! dir root id = Some false /\
   forall name, slash ∉ name -> im_files im !! Join (dir root id) name = None).
Proof.
  intros Hm [Hs Hnm] Hw Hfit Hi Er Hcp Hc.
  pose proof (Inv_run m (meta_ok_index m Hm) calls d0 xs c d Hs Hnm Hw Er) as HI.
  destruct (im_files im !! marker_path root id) as [x|] eqn:Hf.
  - left. eapply usable_recovers; [exact Hm|exact HI|done..|by right|exact Hc|eauto].
  - right. destruct (ci_lost _ _ Hc (dir root id) completeName) as [Hn|Hl]; [apply plain_complete|exact Hf| |exact Hl].
    pose proof (i_durable _ _ _ _ HI id Hcp) as (i & Hh & _). unfold marker_path in Hh. rewrite Hh in Hn.
    by apply list_elem_of_singleton in Hn.
Qed.

(** ** A run *)

Definition payload_of (a : call) : bytes :=
  match a with CAck _ _ _ p | CFinish _ _ p => p | CFail _ => [] end.

Lemma payloads_fit_all calls :
  Forall (fun a => Z.of_nat (length (payload_of a)) <= max_int64) calls -> payloads_fit calls.
Proof.
  rewrite Forall_forall. intros Ha id k p [[r Hin]|[r Hin]]; by apply Ha in Hin.
Qed.

Definition fresh_disk (script : list bool) : disk := MkDisk ∅ 0 ∅ ∅ script.

Lemma fresh_disk_unmarked root script : unmarked root (fresh_disk script).
Proof.
  assert (forall p i, ~ Some i ∈ hist (fresh_disk script) p) as Hn.
  { intros p i. unfold hist. cbn. rewrite lookup_empty. cbn. by intros ?%list_elem_of_singleton. }
  split; [by intros p i ?%Hn|]. by intros id _ [i ?%Hn].
Qed.

Lemma in_order_ranges : ranges in_order.
Proof. by split. Qed.

Definition demo_meta : Metadata := MkMeta [MkVertex (str "in") 2 40; MkVertex (str "out") 1 0] 7.

(** Checkpoint 3 is acknowledged by one source and by the sink; the other source
    has finished and completes it. Checkpoint 4 is begun. *)
Definition demo_calls : list call :=
  [CAck in_order 3 (MkKey (str "in") 0) (str "offset 10");
   CAck in_order 3 (MkKey (str "out") 0) [];
   CFinish in_order (MkKey (str "in") 1) (str "offset 40");
   CAck in_order 4 (MkKey (str "in") 0) (str "offset 15")].

Definition demo_run (script : list bool) :=
  run_calls (H := disk_store (str "/ck")) demo_calls (NewCoordinator demo_meta, fresh_disk script).

Lemma eta3 {A B C} (x : A * (B * C)) : x = (x.1, (x.2.1, x.2.2)).
Proof. by destruct x as [? []]. Qed.

Lemma demo_meta_ok : meta_ok demo_meta.
Proof.
  unfold meta_ok, demo_meta, vertex_ok. cbn. unfold_ints.
  split; [|split; lia].
  refine (bool_decide_eq_true_1 _ _). vm_compute. reflexivity.
Qed.

Lemma demo_called : Forall well_called demo_calls.
Proof. unfold demo_calls. repeat (apply Forall_cons; split; [cbn; unfold_ints; first [done|split; [lia|done]]|]). done. Qed.

Lemma demo_fit : payloads_fit demo_calls.
Proof.
  apply payloads_fit_all. unfold demo_calls.
  refine (bool_decide_eq_true_1 _ _). vm_compute. reflexivity.
Qed.

(** The machine stops before the marker's directory entry is synced: the
    checkpoint is reported abandoned, but the marker may be found. *)
Lemma marker_means_recoverable_witness :
  let d := (demo_run (repeat true 30)).2.2 in
  let im := MkImage (current_files d) (fun _ => None) in
  exists ps, Load (str "/ck") 3 im = Ok (demo_meta, ps) /\
    (forall k, k ∈ Subtasks demo_meta -> exists p, ps !! k = Some p /\ gave demo_calls 3 k p) /\
    (forall k, k ∉ Subtasks demo_meta -> ps !! k = None).
Proof.
  intros d im. subst d im.
  apply (marker_means_recoverable (str "/ck") demo_meta (fresh_disk (repeat true 30)) demo_calls
    (demo_run (repeat true 30)).1 (demo_run (repeat true 30)).2.1 (demo_run (repeat true 30)).2.2).
  - exact demo_meta_ok.
  - apply fresh_disk_unmarked.
  - exact demo_called.
  - exact demo_fit.
  - unfold_ints. lia.
  - unfold demo_run. apply eta3.
  - apply crash_image_current. refine (bool_decide_eq_true_1 _ _). vm_compute. reflexivity.
  - refine (bool_decide_eq_true_1 _ _). vm_compute. reflexivity.
Defined.

Lemma completed_survives_witness :
  let d := (demo_run (repeat true 40)).2.2 in
  let im := MkImage (current_files d) (fun _ => None) in
  Completed 3 (demo_run (repeat true 40)).2.1 = true /\
  ((exists ps, Load (str "/ck") 3 im = Ok (demo_meta, ps) /\
    (forall k, k ∈ Subtasks demo_meta -> exists p, ps !! k = Some p /\ gave demo_calls 3 k p) /\
    (forall k, k ∉ Subtasks demo_meta -> ps !! k = None)) \/
  (dirs d !! dir (str "/ck") 3 = Some false /\
   forall name, slash ∉ name -> im_files im !! Join (dir (str "/ck") 3) name = None)).
Proof.
  intros d im. subst d im. split; [vm_compute; reflexivity|].
  apply (completed_survives (str "/ck") demo_meta (fresh_disk (repeat true 40)) demo_calls
    (demo_run (repeat true 40)).1 (demo_run (repeat true 40)).2.1 (demo_run (repeat true 40)).2.2).
  - exact demo_meta_ok.
  - apply fresh_disk_unmarked.
  - exact demo_called.
  - exact demo_fit.
  - unfold_ints. lia.
  - unfold demo_run. apply eta3.
  - vm_compute. reflexivity.
  - apply crash_image_current. refine (bool_decide_eq_true_1 _ _). vm_compute. reflexivity.
Defined.

(** C40. The directory of a complete checkpoint is not synced into the root: there
    is a run in which every call succeeds and the coordinator reports the
    checkpoint as complete, and a crash after it that loses all of it. *)
Theorem completed_may_be_lost :
  exists d, Completed 3 (demo_run (repeat true 40)).2.1 = true /\ d = (demo_run (repeat true 40)).2.2 /\
    crash_image d ∅ /\ Load (str "/ck") 3 (MkImage ∅ (fun _ => None)) = Err errNoCheckpoint.
Proof.
  eexists. split; [vm_compute; reflexivity|]. split; [reflexivity|]. split; [|vm_compute; reflexivity].
  set (d := (demo_run (repeat true 40)).2.2).
  assert (map_Forall (fun p _ => (fun q => in_dir (dir (str "/ck") 3) q || in_dir (dir (str "/ck") 4) q) p = true) (history d)) as Hd.
  { refine (bool_decide_eq_true_1 _ _). vm_compute. reflexivity. }
  assert (dirs d !! dir (str "/ck") 3 = Some false) as Hd3 by (vm_compute; reflexivity).
  assert (dirs d !! dir (str "/ck") 4 = Some false) as Hd4 by (vm_compute; reflexivity).
  clearbody d.
  assert (forall dir a b, in_dir dir (Join b a) = true -> slash ∉ a -> b = dir) as Hdir.
  { intros dir a b Hi Ha. unfold in_dir in Hi. apply andb_prop in Hi as [Ht%bool_decide_eq_true Hi].
    destruct (drop (length dir) (Join b a)) as [|x name] eqn:Ed; [done|].
    apply andb_prop in Hi as [->%bool_decide_eq_true Hn%negb_true_iff%bool_decide_eq_false].
    pose proof (take_drop (length dir) (Join b a)) as Etd. rewrite Ht, Ed in Etd.
    symmetry in Etd. by apply Join_inj in Etd as [? _]. }
  split.
  - intros p c. by rewrite lookup_empty.
  - intros b a Ha _. destruct (history d !! Join b a) as [h|] eqn:Eh.
    2:{ left. unfold hist. rewrite Eh. by left. }
    right. specialize (Hd _ _ Eh). cbv beta in Hd.
    apply orb_prop in Hd as [Hb|Hb]; pose proof (Hdir _ _ _ Hb Ha) as E; rewrite E.
    + split; [exact Hd3|]. intros. by rewrite lookup_empty.
    + split; [exact Hd4|]. intros. by rewrite lookup_empty.
Qed.
