(* ===== verification/CoordinatorLive.v ===== *)
(** Progress of the coordinator ([pkg/checkpoint/coordinator.go]): when nothing
    fails, a checkpoint completes exactly when every subtask has acknowledged it
    or has finished, at the call that makes it so; and a waiter is woken by every
    change it waits for. None of it depends on the store. *)
From S2P Require Import Prelude CheckpointFormat Storage StorageSpec Coordinator CoordinatorSpec.

Definition acked_in (l : list call) (id : Z) (k : SubtaskKey) : Prop :=
  exists r p, CAck r id k p ∈ l.

Definition finished_in (l : list call) (k : SubtaskKey) : Prop :=
  exists r p, CFinish r k p ∈ l.

Section Progress.
Context {S E : Type} `{CheckpointStore S E}.

Implicit Types (c : Coordinator) (s : S).

(** ** What a successful call did *)

Lemma fill_all_ok id st keys c s c' s' :
  for_each (fill (E := E) id st c) keys (c, s) = (Ok tt, (c', s')) -> c' = c.
Proof.
  revert s. induction keys as [|k keys IH]; intros s Er; [by injection Er as <- _|].
  rewrite for_each_cons in Er. unfold fill at 1 in Er. case_bool_decide.
  - by apply IH in Er.
  - destruct (or_abandon _ _ _ (c, s)) as [r1 cs1] eqn:E1.
    apply or_abandon_cases in E1 as (r2 & s2 & _ & E1).
    destruct r2 as [[]|e]; destruct E1 as [-> ->]; [|done]. by apply IH in Er.
Qed.

Lemma complete_ok_state r id st c s c' s' :
  complete (E := E) r id st (c, s) = (Ok tt, (c', s')) ->
  c' = announce (set_state id (MkState ∅ true (is_abandoned st)) c).
Proof.
  unfold complete, mbind, M_bind, get_st. fold (fill (S := S) (E := E) id st c). intros Er.
  destruct (for_each _ _ _) as [r1 [c1 s1]] eqn:E1. destruct r1 as [[]|e]; [|done].
  apply fill_all_ok in E1 as ->. destruct (or_abandon _ _ _ (c, s1)) as [r2 cs2] eqn:E2.
  apply or_abandon_cases in E2 as (r3 & s3 & _ & E2). destruct r3 as [[]|e]; destruct E2 as [-> ->]; [|done].
  by injection Er as <- _.
Qed.

(** The record [Acknowledge] finds. *)
Definition found (id : Z) (c : Coordinator) : checkpointState := default (MkState ∅ false false) (state c !! id).

Definition completed_state : checkpointState := MkState ∅ true false.

Lemma outstanding_same c c' st :
  expected c' = expected c -> finished c' = finished c -> outstanding c' st = outstanding c st.
Proof.
  intros Ex Ef. unfold outstanding. rewrite Ex. f_equal. apply set_eq. intros x.
  rewrite !elem_of_filter. unfold waits_for. by rewrite Ef.
Qed.

Lemma Acknowledge_ok r id k p c s c' s' :
  Acknowledge (E := E) r id k p (c, s) = (Ok tt, (c', s')) ->
  k ∈ expected c /\
  meta c' = meta c /\ expected c' = expected c /\ finished c' = finished c /\
  (forall id', id' <> id -> state c' !! id' = state c !! id') /\
  let st := found id c in
  let st' := MkState ({[k]} ∪ acked st) (is_complete st) (is_abandoned st) in
  (is_abandoned st = true /\ state c' !! id = Some st \/
   is_abandoned st = false /\ is_complete st = false /\
   state c' !! id = Some (if (0 <? outstanding c st')%nat then st' else completed_state)).
Proof.
  intros Er. unfold Acknowledge, mbind, M_bind, get_st, update, modify, fail in Er.
  case_bool_decide as Hk; [done|]. split; [done|].
  assert (exists c1, stateFor id c = (found id c, c1) /\ meta c1 = meta c /\ expected c1 = expected c /\
    finished c1 = finished c /\ state c1 !! id = Some (found id c) /\
    (forall id', id' <> id -> state c1 !! id' = state c !! id')) as (c1 & Ef & Em & Ex & Efin & Est & Eo).
  { unfold stateFor, found. destruct (state c !! id) as [st|] eqn:Est.
    - by exists c.
    - eexists. split; [reflexivity|]. split_and!; [done..| |].
      + cbn. by rewrite lookup_insert_eq.
      + intros id' Hne. cbn. by rewrite lookup_insert_ne. }
  rewrite Ef in Er. cbv beta iota in Er. set (st := found id c) in *. cbv zeta.
  destruct (is_abandoned st) eqn:Ea.
  { injection Er as <- _. repeat (split; [done|]). by left. }
  destruct (is_complete st) eqn:Ec; cbn [orb] in Er; [done|].
  case_bool_decide as Hka; [done|].
  destruct (or_abandon _ _ _ (c1, s)) as [r2 cs2] eqn:E2.
  apply or_abandon_cases in E2 as (r3 & s3 & _ & E2). destruct r3 as [[]|e]; destruct E2 as [-> ->]; [|done].
  set (st' := MkState _ _ _) in Er.
  pose proof (outstanding_same c c1 st' Ex Efin) as Eout.
  rewrite Eout in Er. destruct (0 <? outstanding c st')%nat eqn:Eo'.
  - injection Er as <- _. cbn [set_state state meta expected finished]. do 3 (split; [done|]). split; [|right; do 2 (split; [done|])].
    + intros id' Hne. rewrite lookup_insert_ne by done. by apply Eo.
    + rewrite lookup_insert_eq. fold st'. by rewrite Eo'.
  - apply complete_ok_state in Er as ->. cbn [announce set_state state meta expected finished]. do 3 (split; [done|]). split; [|right; do 2 (split; [done|])].
    + intros id' Hne. rewrite !lookup_insert_ne by done. by apply Eo.
    + rewrite lookup_insert_eq. fold st'. by rewrite Eo'.
Qed.

Definition finish_state (c : Coordinator) (st : checkpointState) : checkpointState :=
  if terminal st then st else if (0 <? outstanding c st)%nat then st else completed_state.

Lemma finish_loop_ok r ids c s c' s' :
  for_each (finish_one (E := E) r) ids (c, s) = (Ok tt, (c', s')) ->
  meta c' = meta c /\ expected c' = expected c /\ finished c' = finished c /\
  forall id, state c' !! id = if decide (id ∈ ids) then finish_state c <$> state c !! id else state c !! id.
Proof.
  revert c s. induction ids as [|i ids IH]; intros c s Er.
  { injection Er as <- _. split_and!; [done..|]. intros id. rewrite decide_False; [done|]. by intros ?%elem_of_nil. }
  rewrite for_each_cons in Er. destruct (finish_one (E := E) r i (c, s)) as [r1 [c1 s1]] eqn:E1.
  destruct r1 as [[]|e]; [|done]. apply IH in Er as (Em & Ex & Ef & Es).
  assert (meta c1 = meta c /\ expected c1 = expected c /\ finished c1 = finished c /\
    (forall id, id <> i -> state c1 !! id = state c !! id) /\
    state c1 !! i = finish_state c <$> state c !! i) as (Em1 & Ex1 & Ef1 & Eo1 & Ei1).
  { unfold finish_one in E1. cbn [fst] in E1. destruct (state c !! i) as [st|] eqn:Est.
    2:{ injection E1 as <- _. by rewrite Est. }
    cbn [fmap option_fmap option_map]. unfold finish_state. destruct (terminal st) eqn:Et.
    { injection E1 as <- _. by rewrite Est. }
    destruct (0 <? outstanding c st)%nat.
    { injection E1 as <- _. by rewrite Est. }
    apply complete_ok_state in E1 as ->. cbn. split_and!; [done..| |].
    - intros id Hne. by rewrite lookup_insert_ne.
    - rewrite lookup_insert_eq. unfold terminal in Et. apply orb_false_iff in Et as [_ ->]. done. }
  split_and!; [congruence..|]. intros id. rewrite Es.
  assert (forall st, finish_state c1 st = finish_state c st) as Efs.
  { intros st. unfold finish_state. by rewrite (outstanding_same c c1). }
  destruct (decide (id = i)) as [->|Hne].
  - rewrite Ei1. rewrite (decide_True (P := i ∈ i :: ids)) by by left. case_decide; [|done].
    destruct (state c !! i) as [st|]; [|done]. cbn. rewrite Efs. f_equal.
    unfold finish_state. destruct (terminal st) eqn:Et; [by rewrite Et|].
    destruct (0 <? outstanding c st)%nat eqn:Eo; [by rewrite Et, Eo|done].
  - rewrite Eo1 by done. destruct (decide (id ∈ ids)).
    + rewrite decide_True by by right. destruct (state c !! id); [|done]. cbn. by rewrite Efs.
    + rewrite decide_False; [done|]. intros [?|?]%elem_of_cons; done.
Qed.

Lemma Finished_ok r k p c s c' s' :
  ranges r -> Finished (E := E) r k p (c, s) = (Ok tt, (c', s')) ->
  let c1 := MkCoordinator (meta c) (expected c) (state c) (<[k := p]> (finished c)) (changed c) in
  k ∈ expected c /\ finished c !! k = None /\
  meta c' = meta c /\ expected c' = expected c /\ finished c' = <[k := p]> (finished c) /\
  forall id, state c' !! id = finish_state c1 <$> state c !! id.
Proof.
  intros [_ Hr] Er. unfold Finished, mbind, M_bind, get_st, update, modify, fail in Er.
  case_bool_decide as Hk; [done|]. destruct (finished c !! k) as [q|] eqn:Ef; [done|].
  cbv beta iota in Er. apply finish_loop_ok in Er as (Em & Ex & Efin & Es). cbn in *.
  split_and!; [done..|]. intros id. rewrite Es. case_decide as Hin; [done|].
  rewrite Hr, elem_of_elements, not_elem_of_dom in Hin. cbn in Hin. by rewrite Hin.
Qed.

(** ** What the calls so far amount to *)

Context (m : Metadata).

Definition entry_spec (l : list call) (c : Coordinator) (id : Z) : Prop :=
  match state c !! id with
  | None => forall k, ~ acked_in l id k
  | Some st =>
      is_abandoned st = false /\ (exists k, acked_in l id k) /\
      if is_complete st
      then forall k, k ∈ Subtasks m -> acked_in l id k \/ finished_in l k
      else (forall k, k ∈ acked st <-> acked_in l id k) /\ outstanding c st <> 0%nat
  end.

Record Progress (l : list call) (c : Coordinator) : Prop := {
  p_expected : expected c = list_to_set (Subtasks m);
  p_finished k : is_Some (finished c !! k) <-> finished_in l k;
  p_state id : CFail id ∉ l -> entry_spec l c id;
}.

Lemma acked_in_snoc l a id k :
  acked_in (l ++ [a]) id k <-> acked_in l id k \/ exists r p, a = CAck r id k p.
Proof.
  unfold acked_in. split.
  - intros (r & p & [?|Ha%list_elem_of_singleton]%elem_of_app); [left; eauto|right; eauto].
  - intros [(r & p & ?)|(r & p & ->)]; exists r, p; apply elem_of_app; [by left|right; by left].
Qed.

Lemma finished_in_snoc l a k :
  finished_in (l ++ [a]) k <-> finished_in l k \/ exists r p, a = CFinish r k p.
Proof.
  unfold finished_in. split.
  - intros (r & p & [?|Ha%list_elem_of_singleton]%elem_of_app); [left; eauto|right; eauto].
  - intros [(r & p & ?)|(r & p & ->)]; exists r, p; apply elem_of_app; [by left|right; by left].
Qed.

Lemma not_outstanding_all c st k :
  outstanding c st = 0%nat -> k ∈ expected c -> k ∈ acked st \/ is_Some (finished c !! k).
Proof.
  intros Ho Hk. destruct (decide (k ∈ acked st)) as [?|Hn]; [by left|]. right. by eapply no_outstanding.
Qed.

(** A call that has nothing to do with checkpoint [id]. *)
Lemma entry_spec_same l c a c' id :
  expected c' = expected c -> finished c' = finished c -> state c' !! id = state c !! id ->
  (forall r k p, a <> CAck r id k p) -> (forall r k p, a <> CFinish r k p) ->
  entry_spec l c id -> entry_spec (l ++ [a]) c' id.
Proof.
  intros Ex Ef Es Ha Hf. unfold entry_spec. rewrite Es.
  assert (forall k, acked_in (l ++ [a]) id k <-> acked_in l id k) as HA.
  { intros k. rewrite acked_in_snoc. split; [|by left]. intros [?|(r & p & Ec)]; [done|]. by apply Ha in Ec. }
  assert (forall k, finished_in (l ++ [a]) k <-> finished_in l k) as HF.
  { intros k. rewrite finished_in_snoc. split; [|by left]. intros [?|(r & p & Ec)]; [done|]. by apply Hf in Ec. }
  destruct (state c !! id) as [st|].
  - intros (Hab & [k Hk] & Hc). split; [done|]. split; [exists k; by apply HA|].
    destruct (is_complete st).
    + intros k' Hk'. rewrite HA, HF. auto.
    + rewrite (outstanding_same c c') by done. destruct Hc as [Hc ?]. split; [|done].
      intros k'. by rewrite HA.
  - intros Hn k. by rewrite HA.
Qed.

Lemma Progress_ack l c s r id k p c' s' :
  Progress l c -> Acknowledge (E := E) r id k p (c, s) = (Ok tt, (c', s')) -> Progress (l ++ [CAck r id k p]) c'.
Proof.
  intros [Hx Hf Hs] (Hk & _ & Ex & Ef & Eo & Est)%Acknowledge_ok. cbv zeta in Est. split.
  - congruence.
  - intros k'. rewrite Ef, Hf, finished_in_snoc. split; [by left|]. by intros [?|(? & ? & ?)].
  - intros id' Hnf. assert (CFail id' ∉ l) as Hnf' by (intros ?; apply Hnf, elem_of_app; by left).
    specialize (Hs id' Hnf'). destruct (decide (id' = id)) as [->|Hne].
    2:{ eapply entry_spec_same; [exact Ex|exact Ef|by apply Eo|congruence|congruence|exact Hs]. }
    unfold entry_spec in Hs. unfold found in Est.
    assert (is_abandoned (default (MkState ∅ false false) (state c !! id)) = false) as Hab.
    { destruct (state c !! id); cbn; [tauto|done]. }
    destruct Est as [[? _]|(_ & Hnc & Est)]; [congruence|].
    assert (forall k, k ∈ acked (default (MkState ∅ false false) (state c !! id)) <-> acked_in l id k) as Hack.
    { destruct (state c !! id) as [st|]; cbn in *.
      - rewrite Hnc in Hs. tauto.
      - intros k'. split; [by intros ?%elem_of_empty|]. intros Hin. by apply Hs in Hin. }
    set (st' := MkState _ _ _) in Est.
    assert (forall k', k' ∈ acked st' <-> acked_in (l ++ [CAck r id k p]) id k') as Hack'.
    { intros k'. subst st'. cbn. rewrite elem_of_union, elem_of_singleton, Hack, acked_in_snoc. split.
      - intros [->|?]; [right; eauto|by left].
      - intros [?|(? & ? & [= -> -> ->])]; auto. }
    unfold entry_spec. rewrite Est. destruct (0 <? outstanding c st')%nat eqn:Eout.
    + apply Nat.ltb_lt in Eout. split; [done|]. split.
      * exists k. apply Hack'. subst st'. cbn. set_solver.
      * replace (is_complete st') with false by done. split; [exact Hack'|].
        rewrite (outstanding_same c c') by done. lia.
    + apply Nat.ltb_ge in Eout. cbn. split; [done|]. split; [exists k; apply acked_in_snoc; right; eauto|].
      intros k' Hk'. destruct (not_outstanding_all c st' k') as [?|?]; [lia| | |].
      * rewrite Hx. by apply elem_of_list_to_set.
      * left. by apply Hack'.
      * right. apply finished_in_snoc. left. by apply Hf.
Qed.

Lemma Progress_finish l c s r k p c' s' :
  Progress l c -> ranges r -> Finished (E := E) r k p (c, s) = (Ok tt, (c', s')) ->
  Progress (l ++ [CFinish r k p]) c'.
Proof.
  intros [Hx Hf Hs] Hr (Hk & Hn & _ & Ex & Ef & Est)%Finished_ok; [|done]. cbv zeta in *.
  set (c1 := MkCoordinator _ _ _ _ _) in Est.
  assert (forall k', is_Some (finished c' !! k') <-> finished_in (l ++ [CFinish r k p]) k') as HF.
  { intros k'. rewrite Ef, finished_in_snoc, lookup_insert_is_Some', Hf. split.
    - intros [->|?]; [right; eauto|by left].
    - intros [?|(? & ? & [= _ -> _])]; auto. }
  split; [congruence|done|].
  intros id Hnf. assert (CFail id ∉ l) as Hnf' by (intros ?; apply Hnf, elem_of_app; by left).
  specialize (Hs id Hnf').
  assert (forall k', acked_in (l ++ [CFinish r k p]) id k' <-> acked_in l id k') as HA.
  { intros k'. rewrite acked_in_snoc. split; [|by left]. by intros [?|(? & ? & ?)]. }
  unfold entry_spec in *. rewrite Est. destruct (state c !! id) as [st|]; cbn; [|intros k'; by rewrite HA].
  destruct Hs as (Hab & [k0 Hk0] & Hc). unfold finish_state, terminal. rewrite Hab, orb_false_r.
  destruct (is_complete st) eqn:Ec.
  - rewrite Ec. split; [done|]. split; [exists k0; by apply HA|]. intros k' Hk'.
    rewrite HA, finished_in_snoc. destruct (Hc k' Hk'); auto.
  - destruct Hc as [Hc Ho]. destruct (0 <? outstanding c1 st)%nat eqn:Eo.
    + apply Nat.ltb_lt in Eo. rewrite Ec. split; [done|]. split; [exists k0; by apply HA|].
      split; [intros k'; by rewrite HA|]. rewrite (outstanding_same c1 c'); [lia|done|done].
    + apply Nat.ltb_ge in Eo. cbn. split; [done|]. split; [exists k0; by apply HA|].
      intros k' Hk'. destruct (not_outstanding_all c1 st k') as [?|Hfin]; [lia| | |].
      * cbn. rewrite Hx. by apply elem_of_list_to_set.
      * left. apply HA. by apply Hc.
      * right. apply HF. rewrite Ef. exact Hfin.
Qed.

Lemma Progress_fail l c s id c' s' :
  Progress l c -> Fail (E := E) id (c, s) = (Ok tt, (c', s')) -> Progress (l ++ [CFail id]) c'.
Proof.
  intros [Hx Hf Hs] Er.
  assert (expected c' = expected c /\ finished c' = finished c /\ forall id', id' <> id -> state c' !! id' = state c !! id')
    as (Ex & Ef & Eo).
  { unfold Fail, stateFor in Er. destruct (state c !! id) as [st|].
    - destruct (is_complete st); injection Er as <- _; [done|]. split_and!; [done..|].
      intros id' Hne. cbn. by rewrite lookup_insert_ne.
    - cbn in Er. injection Er as <- _. split_and!; [done..|].
      intros id' Hne. cbn. by rewrite !lookup_insert_ne. }
  split.
  - congruence.
  - intros k. rewrite Ef, Hf, finished_in_snoc. split; [by left|]. by intros [?|(? & ? & ?)].
  - intros id' Hnf. assert (CFail id' ∉ l) as Hnf' by (intros ?; apply Hnf, elem_of_app; by left).
    eapply entry_spec_same; [exact Ex|exact Ef| |done|done|by apply Hs].
    apply Eo. intros ->. apply Hnf, elem_of_app. right. by left.
Qed.

Lemma run_calls_progress l l' c s xs c' s' :
  Progress l c -> Forall well_called l' -> run_calls l' (c, s) = (xs, (c', s')) ->
  Forall (fun x : result (coordinator_error E) unit => x = Ok tt) xs -> Progress (l ++ l') c'.
Proof.
  intros HP Hl. revert l c s xs HP. induction Hl as [|a l' Ha Hl IH]; intros l c s xs HP Er Hxs.
  { injection Er as _ <- _. by rewrite app_nil_r. }
  cbn in Er. destruct (run_call a (c, s)) as [x [c1 s1]] eqn:E1.
  destruct (run_calls l' (c1, s1)) as [ys cs2] eqn:E2. injection Er as <- ->.
  apply Forall_cons in Hxs as [-> Hxs].
  replace (l ++ a :: l') with ((l ++ [a]) ++ l') by by rewrite <- app_assoc.
  eapply IH; [|exact E2|exact Hxs].
  destruct a as [r id k p|r k p|id]; cbn in E1, Ha.
  - by eapply Progress_ack.
  - by eapply Progress_finish.
  - by eapply Progress_fail.
Qed.

Lemma Progress_start : Progress [] (NewCoordinator m).
Proof.
  split; [done| |].
  - intros k. cbn. rewrite lookup_empty. split; [by intros []|]. by intros (? & ? & ?%elem_of_nil).
  - intros id _. unfold entry_spec. cbn. rewrite lookup_empty. by intros k (? & ? & ?%elem_of_nil).
Qed.

Lemma Progress_completed l c id :
  Progress l c -> CFail id ∉ l ->
  Abandoned id c = false /\
  (Completed id c = true <->
   (exists k, acked_in l id k) /\ forall k, k ∈ Subtasks m -> acked_in l id k \/ finished_in l k).
Proof.
  intros [Hx Hf Hs] Hnf. specialize (Hs id Hnf). unfold entry_spec in Hs. unfold Abandoned, Completed.
  destruct (state c !! id) as [st|].
  - destruct Hs as (Hab & Hk & Hc). split; [done|]. destruct (is_complete st); [tauto|].
    split; [done|]. intros [_ Hall]. exfalso. destruct Hc as [Hack Ho]. apply Ho.
    unfold outstanding. apply size_empty_iff. intros k. split; [|by intros ?%elem_of_empty].
    intros [[Hna Hnf'] Hk']%elem_of_filter. rewrite Hx in Hk'. apply elem_of_list_to_set in Hk'.
    exfalso. destruct (Hall k Hk') as [?|Hfin]; [by apply Hna, Hack|].
    apply Hf in Hfin as [? Hfin]. congruence.
  - split; [done|]. split; [done|]. intros [[k Hk] _]. by apply Hs in Hk.
Qed.
End Progress.

(** * Waiters *)

Definition final (id : Z) (c : Coordinator) : bool :=
  match state c !! id with Some st => terminal st | None => false end.

(** [c'] may follow [c]: what is final stays as it is, and a change to final
    replaces the channel. *)
Record later (c c' : Coordinator) : Prop := {
  la_changed : (changed c <= changed c')%nat;
  la_final id : final id c = true ->
    final id c' = true /\ Completed id c' = Completed id c /\ Abandoned id c' = Abandoned id c;
  la_new id : final id c = false -> final id c' = true -> (changed c < changed c')%nat;
}.

#[export] Instance later_refl : Reflexive later.
Proof. intros c. split; [done|done|congruence]. Qed.

#[export] Instance later_trans : Transitive later.
Proof.
  intros c1 c2 c3 [A1 A2 A3] [B1 B2 B3]. split.
  - lia.
  - intros id H1. destruct (A2 id H1) as (H2 & E2 & F2). destruct (B2 id H2) as (H3 & E3 & F3).
    split_and!; congruence.
  - intros id H1 H3. destruct (final id c2) eqn:H2; [specialize (A3 id H1 H2)|specialize (B3 id H2 H3)]; lia.
Qed.

Lemma final_set id st c id' :
  final id' (set_state id st c) = if decide (id = id') then terminal st else final id' c.
Proof.
  unfold final. cbn. case_decide as E; [subst; by rewrite lookup_insert_eq|by rewrite lookup_insert_ne].
Qed.

Lemma later_set id st c : final id c = false -> terminal st = false -> later c (set_state id st c).
Proof.
  intros Hf Ht. split; [done| |].
  - intros id' Hf'. rewrite final_set. assert (id <> id') by congruence. rewrite decide_False by done.
    unfold Completed, Abandoned. cbn. by rewrite !lookup_insert_ne.
  - intros id' Hf'. rewrite final_set. case_decide; congruence.
Qed.

Lemma later_final id st c :
  (final id c = true -> is_complete st = Completed id c /\ is_abandoned st = Abandoned id c) ->
  later c (announce (set_state id st c)).
Proof.
  intros Hst. split; [cbn; lia| |intros; cbn; lia].
  intros id' Hf. change (final id' (announce (set_state id st c))) with (final id' (set_state id st c)).
  rewrite final_set. unfold Completed at 1, Abandoned at 1. cbn. case_decide as E.
  - subst id'. rewrite lookup_insert_eq. destruct (Hst Hf) as [-> ->]. split; [|done].
    unfold terminal. rewrite (proj1 (Hst Hf)), (proj2 (Hst Hf)).
    unfold final, terminal in Hf. unfold Completed, Abandoned. by destruct (state c !! id).
  - by rewrite lookup_insert_ne.
Qed.

Section Waiters.
Context {S E : Type} `{CheckpointStore S E}.

Lemma final_open id c st : state c !! id = Some st -> terminal st = false -> final id c = false.
Proof. unfold final. by intros ->. Qed.

Lemma later_abandon id st c : final id c = false -> later c (abandon id st c).
Proof. intros Hf. apply later_final. congruence. Qed.

Lemma fill_later id st c keys s :
  final id c = false -> later c (for_each (fill (S := S) (E := E) id st c) keys (c, s)).2.1 /\
  (is_ok (for_each (fill (S := S) (E := E) id st c) keys (c, s)).1 = true ->
   (for_each (fill (S := S) (E := E) id st c) keys (c, s)).2.1 = c).
Proof.
  intros Hf. revert s. induction keys as [|k keys IH]; intros s; [by split|].
  rewrite for_each_cons. unfold fill at 1 3 5. case_bool_decide; [apply IH|].
  destruct (or_abandon _ _ _ (c, s)) as [r1 cs1] eqn:E1.
  apply or_abandon_cases in E1 as (r2 & s2 & _ & E1).
  destruct r2 as [[]|e]; destruct E1 as [-> ->]; [apply IH|]. split; [by apply later_abandon|done].
Qed.

Lemma complete_later r id st c s :
  final id c = false -> later c (complete (S := S) (E := E) r id st (c, s)).2.1.
Proof.
  intros Hf. unfold complete, mbind, M_bind, get_st. fold (fill (S := S) (E := E) id st c).
  pose proof (fill_later id st c (over_keys r id (elements (expected c))) s Hf) as [HL HE].
  destruct (for_each _ _ _) as [[[]|e] [c1 s1]]; cbn in HL, HE |- *; [|done].
  rewrite (HE eq_refl). destruct (or_abandon _ _ _ (c, s1)) as [r2 cs2] eqn:E2.
  apply or_abandon_cases in E2 as (r3 & s3 & _ & E2). destruct r3 as [[]|e]; destruct E2 as [-> ->]; cbn.
  - apply later_final. congruence.
  - by apply later_abandon.
Qed.

Lemma stateFor_later id c : later c (stateFor id c).2 /\ state (stateFor id c).2 !! id = Some (stateFor id c).1.
Proof.
  unfold stateFor. destruct (state c !! id) eqn:Est; [done|]. cbn [snd fst]. split.
  - apply later_set; [|done]. unfold final. by rewrite Est.
  - cbn. by rewrite lookup_insert_eq.
Qed.

Lemma Acknowledge_later r id k p c s : later c (Acknowledge (S := S) (E := E) r id k p (c, s)).2.1.
Proof.
  unfold Acknowledge, mbind, M_bind, get_st, update, modify, fail.
  case_bool_decide; [done|]. destruct (stateFor_later id c) as [HL Hst].
  destruct (stateFor id c) as [st c1]. cbn [fst snd] in *. cbv beta iota.
  destruct (is_abandoned st) eqn:Ea; [done|].
  destruct (is_complete st) eqn:Ec; cbn [orb]; [done|]. case_bool_decide; [done|].
  assert (final id c1 = false) as Hf.
  { eapply final_open; [exact Hst|]. unfold terminal. by rewrite Ea, Ec. }
  etrans; [exact HL|]. destruct (or_abandon _ _ _ (c1, s)) as [r2 cs2] eqn:E2.
  apply or_abandon_cases in E2 as (r3 & s3 & _ & E2). destruct r3 as [[]|e]; destruct E2 as [-> ->].
  2:{ by apply later_abandon. }
  set (st2 := MkState _ _ _).
  assert (later c1 (set_state id st2 c1)) as HL2 by by apply later_set.
  destruct (0 <? outstanding c1 st2)%nat; [done|]. etrans; [exact HL2|]. apply complete_later.
  rewrite final_set, decide_True by done. done.
Qed.

Lemma Finished_later r k p c s : later c (Finished (S := S) (E := E) r k p (c, s)).2.1.
Proof.
  unfold Finished, mbind, M_bind, get_st, update, modify, fail.
  case_bool_decide; [done|]. destruct (finished c !! k); [done|]. cbv beta iota.
  set (c1 := MkCoordinator _ _ _ _ _). assert (later c c1) as HL.
  { split; [done|done|]. intros id Hf Hf'. change (final id c1) with (final id c) in Hf'. congruence. }
  apply (for_each_inv _ (fun cs : Coordinator * S => later c cs.1)); [|exact HL].
  intros id [c2 s2] _ HL2. cbn in HL2. etrans; [exact HL2|]. unfold finish_one. cbn [fst].
  destruct (state c2 !! id) as [st|] eqn:Est; [|done]. destruct (terminal st) eqn:Et; [done|].
  destruct (0 <? outstanding c2 st)%nat; [done|]. apply complete_later. by eapply final_open.
Qed.

Lemma Fail_later id c s : later c (Fail (S := S) (E := E) id (c, s)).2.1.
Proof.
  unfold Fail. destruct (stateFor_later id c) as [HL Hst].
  destruct (stateFor id c) as [st c1]. cbn [fst snd] in *. destruct (is_complete st) eqn:Ec; [done|].
  cbn. etrans; [exact HL|]. unfold abandon. apply later_final. intros Hf. cbn.
  unfold final, terminal in Hf. unfold Completed, Abandoned. rewrite Hst in *. rewrite Ec in *. done.
Qed.

Lemma run_calls_later l c s : later c (run_calls (S := S) (E := E) l (c, s)).2.1.
Proof.
  revert c s. induction l as [|a l IH]; intros c s; [done|]. cbn.
  assert (later c (run_call (S := S) (E := E) a (c, s)).2.1) as HL.
  { destruct a; [apply Acknowledge_later|apply Finished_later|apply Fail_later]. }
  destruct (run_call a (c, s)) as [x [c1 s1]]. cbn in HL. specialize (IH c1 s1).
  destruct (run_calls l (c1, s1)) as [xs [c2 s2]]. cbn in *. by etrans.
Qed.
End Waiters.

Lemma settled_spec ids c : settled ids c = true <-> forall id, id ∈ ids -> final id c = true.
Proof.
  unfold settled. rewrite forallb_forall. by setoid_rewrite list_elem_of_In.
Qed.

Lemma completed_same ids c c' :
  (forall id, id ∈ ids -> Completed id c' = Completed id c) -> completed ids c' = completed ids c.
Proof.
  unfold completed. induction ids as [|id ids IH]; intros Hs; [done|].
  rewrite !filter_cons, (Hs id) by by left. rewrite IH; [done|]. intros. apply Hs. by right.
Qed.

(** C15. When no call fails, a checkpoint nobody reported as failed is complete
    exactly when it was acknowledged at all and each subtask of the job has
    acknowledged it or has finished; it is never abandoned. *)
Theorem completes_exactly_when {S E : Type} `{CheckpointStore S E}
    (m : Metadata) (calls : list call) (s s' : S) (c' : Coordinator) (xs : list (result (coordinator_error E) unit)) (id : Z) :
  run_calls calls (NewCoordinator m, s) = (xs, (c', s')) ->
  Forall (fun x => x = Ok tt) xs -> Forall well_called calls -> CFail id ∉ calls ->
  Abandoned id c' = false /\
  (Completed id c' = true <->
   (exists k, acked_in calls id k) /\
   forall k, k ∈ Subtasks m -> acked_in calls id k \/ finished_in calls k).
Proof.
  intros Er Hxs Hw Hnf. apply Progress_completed; [|done].
  exact (run_calls_progress m [] calls _ s xs c' s' (Progress_start m) Hw Er Hxs).
Qed.

Lemma completes_exactly_when_witness :
  Abandoned 3 (demo_run (repeat true 40)).2.1 = false /\
  (Completed 3 (demo_run (repeat true 40)).2.1 = true <->
   (exists k, acked_in demo_calls 3 k) /\
   forall k, k ∈ Subtasks demo_meta -> acked_in demo_calls 3 k \/ finished_in demo_calls k).
Proof.
  eapply (completes_exactly_when (H := disk_store (str "/ck")) demo_meta demo_calls
    (fresh_disk (repeat true 40)) (demo_run (repeat true 40)).2.2 (demo_run (repeat true 40)).2.1
    (demo_run (repeat true 40)).1).
  - unfold demo_run. apply eta3.
  - assert ((demo_run (repeat true 40)).1 = repeat (Ok tt) 4) as E by (vm_compute; reflexivity).
    rewrite E. repeat constructor.
  - exact demo_called.
  - intros Hin. repeat (apply elem_of_cons in Hin as [Hin|Hin]; [discriminate Hin|]).
    by apply elem_of_nil in Hin.
Defined.

(** C26. A waiter is never left asleep: if what [AwaitCompletedAmong] waits for is
    settled by later calls, the channel it took has been closed by then, and
    what was settled never changes, so any later look returns the same
    checkpoints. Calls may fail in any way. *)
Theorem no_lost_wakeup {S E : Type} `{CheckpointStore S E}
    (calls more : list call) (c0 c1 c2 : Coordinator) (s0 s1 s2 : S)
    (xs ys : list (result (coordinator_error E) unit)) (ids : list Z) :
  run_calls calls (c0, s0) = (xs, (c1, s1)) -> run_calls more (c1, s1) = (ys, (c2, s2)) ->
  (settled ids c0 = false -> settled ids c1 = true -> (changed c0 < changed c1)%nat) /\
  (settled ids c1 = true ->
   forall cancelled, AwaitCompletedAmong ids [c2] cancelled = AwaitCompletedAmong ids [c1] cancelled).
Proof.
  intros E1 E2. pose proof (run_calls_later calls c0 s0) as L1. rewrite E1 in L1.
  pose proof (run_calls_later more c1 s1) as L2. rewrite E2 in L2. cbn in L1, L2. split.
  - intros H0 H1. destruct (Nat.eq_dec (changed c0) (changed c1)) as [Ec|?]; [|pose proof (la_changed _ _ L1); lia].
    exfalso. assert (settled ids c0 = true); [|congruence]. apply settled_spec. intros id Hid.
    destruct (final id c0) eqn:Hf; [done|].
    pose proof (la_new _ _ L1 id Hf (proj1 (settled_spec ids c1) H1 id Hid)). lia.
  - intros H1 cancelled. assert (settled ids c2 = true) as H2.
    { apply settled_spec. intros id Hid. apply (la_final _ _ L2). by apply (proj1 (settled_spec ids c1)). }
    cbn. rewrite H1, H2. clear H2. apply completed_same. intros id Hid.
    destruct (la_final _ _ L2 id) as (_ & -> & _); [by apply (proj1 (settled_spec ids c1))|done].
Qed.

Definition demo_from (l : list call) (cs : Coordinator * disk) :=
  run_calls (H := disk_store (str "/ck")) l cs.

Definition demo_0 : Coordinator * disk :=
  (demo_from (take 2 demo_calls) (NewCoordinator demo_meta, fresh_disk (repeat true 40))).2.
Definition demo_1 : Coordinator * disk := (demo_from (take 1 (drop 2 demo_calls)) demo_0).2.
Definition demo_2 : Coordinator * disk := (demo_from (drop 3 demo_calls) demo_1).2.

Lemma no_lost_wakeup_witness :
  settled [3] demo_0.1 = false /\ settled [3] demo_1.1 = true /\
  (settled [3] demo_0.1 = false -> settled [3] demo_1.1 = true -> (changed demo_0.1 < changed demo_1.1)%nat) /\
  (settled [3] demo_1.1 = true ->
   forall cancelled, AwaitCompletedAmong [3] [demo_2.1] cancelled = AwaitCompletedAmong [3] [demo_1.1] cancelled).
Proof.
  split; [vm_compute; reflexivity|]. split; [vm_compute; reflexivity|].
  apply (no_lost_wakeup (H := disk_store (str "/ck")) (take 1 (drop 2 demo_calls)) (drop 3 demo_calls)
    demo_0.1 demo_1.1 demo_2.1 demo_0.2 demo_1.2 demo_2.2
    (demo_from (take 1 (drop 2 demo_calls)) demo_0).1 (demo_from (drop 3 demo_calls) demo_1).1).
  - unfold demo_1. rewrite <- surjective_pairing. unfold demo_from. apply eta3.
  - unfold demo_2. rewrite <- surjective_pairing. unfold demo_from. apply eta3.
Defined.
