(* ===== verification/Transactional.v ===== *)
(** The transactional sink ([pkg/sinks/transactional.go]): records are staged in
    one file per checkpoint epoch, and renaming a staged file into the committed
    directory is the commit. Package [os] is modelled as a process sees it: names,
    files, and operations that may fail; when the script of outcomes runs out the
    process is dead and nothing has an effect. *)
From S2P Require Import Prelude Core Strconv Crc32.

(** * Package [os] *)

Inductive os_error := ErrNotExist | EIO.

(** The outcome of a system call; a write that fails may have written some. *)
Inductive outcome := Good | Bad (n : nat).

Abbreviation path := (bytes * bytes)%type.

Record fsys := MkFS {
  names : gmap path nat;
  data : gmap nat bytes;
  next_file : nat;
  fs_dirs : gset bytes;
  outcomes : list outcome;
}.

Definition with_outcomes (l : list outcome) (s : fsys) : fsys :=
  MkFS (names s) (data s) (next_file s) (fs_dirs s) l.
Definition with_names (n : gmap path nat) (s : fsys) : fsys :=
  MkFS n (data s) (next_file s) (fs_dirs s) (outcomes s).
Definition with_data (d : gmap nat bytes) (s : fsys) : fsys :=
  MkFS (names s) d (next_file s) (fs_dirs s) (outcomes s).

(** A call that may fail before it has any effect. *)
Definition sys {A} (f : fsys -> result os_error A * fsys) : M os_error fsys A := fun s =>
  match outcomes s with
  | [] => (Err EIO, s)
  | Bad _ :: l => (Err EIO, with_outcomes l s)
  | Good :: l => f (with_outcomes l s)
  end.

Definition exists_dir (dir : bytes) {A} (f : fsys -> result os_error A * fsys) (s : fsys)
    : result os_error A * fsys :=
  if bool_decide (dir ∈ fs_dirs s) then f s else (Err ErrNotExist, s).

(** A directory and those it is in. *)
Definition ancestors (dir : bytes) : list bytes :=
  dir :: omap (fun i => if bool_decide (dir !! i = Some slash) then Some (take i dir) else None)
           (seq 0 (length dir)).

Definition os_MkdirAll (dir : bytes) : M os_error fsys unit :=
  sys (fun s => (Ok tt, MkFS (names s) (data s) (next_file s)
                          (list_to_set (ancestors dir) ∪ fs_dirs s) (outcomes s))).

(** [os.OpenFile(..., O_WRONLY|O_CREATE|O_TRUNC)]. *)
Definition os_Create (p : path) : M os_error fsys nat :=
  sys (exists_dir p.1 (fun s =>
    match names s !! p with
    | Some i => (Ok i, with_data (<[i := []]> (data s)) s)
    | None =>
        let i := next_file s in
        (Ok i, MkFS (<[p := i]> (names s)) (<[i := []]> (data s)) (S i) (fs_dirs s) (outcomes s))
    end)).

Definition os_Rename (from to : path) : M os_error fsys unit :=
  sys (exists_dir to.1 (fun s =>
    match names s !! from with
    | None => (Err ErrNotExist, s)
    | Some i => (Ok tt, with_names (<[to := i]> (delete from (names s))) s)
    end)).

Definition os_Remove (p : path) : M os_error fsys unit :=
  sys (fun s =>
    match names s !! p with
    | None => (Err ErrNotExist, s)
    | Some _ => (Ok tt, with_names (delete p (names s)) s)
    end).

Definition os_Stat (p : path) : M os_error fsys unit :=
  sys (fun s => match names s !! p with None => (Err ErrNotExist, s) | Some _ => (Ok tt, s) end).

(** The names a directory lists, sorted. *)
Definition listing (dir : bytes) (s : fsys) : list bytes :=
  merge_sort bytes_le (omap (fun p : path => if bool_decide (p.1 = dir) then Some p.2 else None)
    (elements (dom (names s)))).

Definition os_ReadDir (dir : bytes) : M os_error fsys (list bytes) :=
  sys (exists_dir dir (fun s => (Ok (listing dir s), s))).

Definition os_ReadFile (p : path) : M os_error fsys bytes :=
  sys (fun s =>
    match names s !! p with
    | None => (Err ErrNotExist, s)
    | Some i => (Ok (default [] (data s !! i)), s)
    end).

(** [File.Sync] and [File.Close]: what a process sees does not change. *)
Definition file_call : M os_error fsys unit := sys (fun s => (Ok tt, s)).

Definition append_to (i : nat) (p : bytes) (s : fsys) : fsys :=
  with_data (<[i := default [] (data s !! i) ++ p]> (data s)) s.

(** [File.Write]: how much was written, and the error. *)
Definition file_Write (i : nat) (p : bytes) (s : fsys) : nat * option os_error * fsys :=
  match outcomes s with
  | [] => (0%nat, Some EIO, s)
  | Bad n :: l => (n, Some EIO, append_to i (take n p) (with_outcomes l s))
  | Good :: l => (length p, None, append_to i p (with_outcomes l s))
  end.

(** [bufio.Writer]: the bytes not yet written, and the first error. *)
Record bufio := MkBufio { pending : bytes; werr : option os_error }.

Definition buf_size : nat := Z.to_nat 4096.

Abbreviation BM := (M os_error (bufio * fsys)).

Definition bufio_write_through (i : nat) (p : bytes) : BM unit := fun '(b, s) =>
  let '(n, e, s) := file_Write i p s in
  match e with
  | None => (Ok tt, (b, s))
  | Some e => (Err e, (MkBufio (pending b) (Some e), s))
  end.

Definition bufio_Flush (i : nat) : BM unit := fun '(b, s) =>
  match werr b with
  | Some e => (Err e, (b, s))
  | None =>
      if bool_decide (pending b = []) then (Ok tt, (b, s))
      else
        let '(n, e, s) := file_Write i (pending b) s in
        match e with
        | None => (Ok tt, (MkBufio [] None, s))
        | Some e => (Err e, (MkBufio (drop n (pending b)) (Some e), s))
        end
  end.

(** [Writer.Write]: what does not fit is written out, a long rest at once. *)
Definition bufio_Write (i : nat) (p : bytes) : BM unit := fun '(b, s) =>
  let avail := (buf_size - length (pending b))%nat in
  match werr b with
  | Some e => (Err e, (b, s))
  | None =>
      if (length p <=? avail)%nat then (Ok tt, (MkBufio (pending b ++ p) None, s))
      else if bool_decide (pending b = []) then bufio_write_through i p (b, s)
      else
        match bufio_Flush i (MkBufio (pending b ++ take avail p) None, s) with
        | (Err e, bs) => (Err e, bs)
        | (Ok _, (b, s)) =>
            let rest := drop avail p in
            if (length rest <=? buf_size)%nat then (Ok tt, (MkBufio rest None, s))
            else bufio_write_through i rest (b, s)
        end
  end.

(** * The sink *)

Record Transactional := MkTransactional {
  root : bytes;
  vertexID : bytes;
  index : Z;
  epoch : Z;
  firstEpoch : Z;
  written : gset Z;
  opened : bool;
  file : option (nat * bufio);
}.

Definition stagingDir : bytes := str "staging".
Definition committedDir : bytes := str "committed".
Definition stagingSuffix : bytes := str ".tmp".
Definition commitSuffix : bytes := str ".out".

Inductive sink_error :=
| ErrOS (e : os_error)
| ErrOpenedTwice
| ErrVertexID (id : bytes)
| ErrPayloadLength (n : nat)
| ErrNegativeCheckpoint (k : Z)
| ErrStagedFileMissing (checkpointID : Z)
| ErrCorruptRecord (offset : nat).

Definition NewTransactional (root : bytes) : Transactional :=
  MkTransactional root [] 0 1 1 ∅ false None.

Definition dir (root name : bytes) : bytes := Join root name.

Definition subtask_name (vertexID : bytes) (index : Z) : bytes :=
  vertexID ++ Byte.x2d :: FormatInt index.

Definition fileName (t : Transactional) (checkpointID : Z) (suffix : bytes) : bytes :=
  subtask_name (vertexID t) (index t) ++ Byte.x2d :: FormatInt checkpointID ++ suffix.

Definition stagingPath (t : Transactional) (checkpointID : Z) : path :=
  (dir (root t) stagingDir, fileName t checkpointID stagingSuffix).

Definition committedPath (t : Transactional) (checkpointID : Z) : path :=
  (dir (root t) committedDir, fileName t checkpointID commitSuffix).

Definition checkVertexID (id : bytes) : result sink_error unit :=
  if bool_decide (id = []) then Err (ErrVertexID id)
  else if bool_decide (id = str ".") || bool_decide (id = str "..") then Err (ErrVertexID id)
  else if bool_decide (slash ∈ id) then Err (ErrVertexID id)
  else Ok tt.

Abbreviation SM := (M sink_error (Transactional * fsys)).

Definition on_os {A} (m : M os_error fsys A) : SM A := fun '(t, s) =>
  let '(r, s) := m s in (wrap_err ErrOS r, (t, s)).

Definition set_sink (f : Transactional -> Transactional) : SM unit := modify (fun '(t, s) => (f t, s)).

Definition get_sink : SM Transactional := fun '(t, s) => (Ok t, (t, s)).

(** A call whose error is looked at. *)
Definition try_os {A} (m : M os_error fsys A) : SM (result os_error A) := fun '(t, s) =>
  let '(r, s) := m s in (Ok r, (t, s)).

Definition set_epochs (e f : Z) (w : gset Z) (t : Transactional) : Transactional :=
  MkTransactional (root t) (vertexID t) (index t) e f w (opened t) (file t).
Definition set_file (w : gset Z) (f : option (nat * bufio)) (t : Transactional) : Transactional :=
  MkTransactional (root t) (vertexID t) (index t) (epoch t) (firstEpoch t) w (opened t) f.

(** [Sync] and [Close]; after a failed sync the close is not looked at. *)
Definition sync_close : M os_error fsys unit := fun s =>
  match file_call s with
  | (Ok _, s) => file_call s
  | (Err e, s) => (Err e, (file_call s).2)
  end.

Definition syncDir (dir : bytes) : M os_error fsys unit :=
  _ ← sys (exists_dir dir (fun s => (Ok tt, s)));
  sync_close.

(** [Open]; the context names the subtask. *)
Definition Open (subtask : bytes * Z) : SM unit :=
  t ← get_sink;
  if opened t then fail ErrOpenedTwice
  else
    _ ← set_sink (fun t => MkTransactional (root t) subtask.1 subtask.2 (epoch t) (firstEpoch t)
                             (written t) true (file t));
    _ ← lift (checkVertexID subtask.1);
    _ ← for_each (fun name => on_os (os_MkdirAll (dir (root t) name))) [stagingDir; committedDir];
    on_os (syncDir (root t)).

Definition openEpoch : SM unit :=
  t ← get_sink;
  i ← on_os (os_Create (stagingPath t (epoch t)));
  set_sink (set_file ({[epoch t]} ∪ written t) (Some (i, MkBufio [] None))).

(** A call on the open file's writer. *)
Definition on_buf (m : nat -> BM unit) : SM unit := fun '(t, s) =>
  match file t with
  | None => (Ok tt, (t, s))
  | Some (i, b) =>
      let '(r, (b, s)) := m i (b, s) in
      (wrap_err ErrOS r, (set_file (written t) (Some (i, b)) t, s))
  end.

Definition encodeRecord (rec : Record_) : bytes :=
  let buf := put_uint64 (EventTime rec) ++ put_uint32 (Z.of_nat (length (Key rec))) ++ Key rec
    ++ put_uint32 (Z.of_nat (length (Value rec))) ++ Value rec in
  buf ++ put_uint32 (ChecksumIEEE buf).

Definition Write (rec : Record_) : SM unit :=
  t ← get_sink;
  _ ← (match file t with None => openEpoch | Some _ => mret tt end);
  on_buf (fun i => bufio_Write i (encodeRecord rec)).

(** The fields are cleared; an error of the file is returned. *)
Definition drop_file (r : result sink_error unit) : SM unit := fun '(t, s) =>
  (r, (set_file (written t) None t, s)).

Definition closeEpoch : SM unit := fun '(t, s) =>
  match file t with
  | None => (Ok tt, (t, s))
  | Some _ =>
      match on_buf bufio_Flush (t, s) with
      | (Err e, (t, s)) => drop_file (Err e) (t, (file_call s).2)
      | (Ok _, (t, s)) =>
          match file_call s with
          | (Err e, s) => drop_file (Err (ErrOS e)) (t, (file_call s).2)
          | (Ok _, s) =>
              match file_call s with
              | (Err e, s) => drop_file (Err (ErrOS e)) (t, s)
              | (Ok _, s) =>
                  match drop_file (Ok tt) (t, s) with
                  | (_, (t, s)) => on_os (syncDir (dir (root t) stagingDir)) (t, s)
                  end
              end
          end
      end
  end.

(** The payload [Snapshot] writes. *)
Definition Snapshot : SM bytes :=
  _ ← closeEpoch;
  t ← get_sink;
  _ ← set_sink (fun t => set_epochs (add64 (epoch t) 1) (firstEpoch t) (written t) t);
  mret (put_uint64 (epoch t)).

Definition NotifyCheckpointComplete (checkpointID : Z) : SM unit :=
  t ← get_sink;
  r ← try_os (os_Rename (stagingPath t checkpointID) (committedPath t checkpointID));
  match r with
  | Ok _ => on_os (syncDir (dir (root t) committedDir))
  | Err EIO => fail (ErrOS EIO)
  | Err ErrNotExist =>
      r ← try_os (os_Stat (committedPath t checkpointID));
      match r with
      | Ok _ => mret tt
      | Err _ =>
          if (firstEpoch t <=? checkpointID) && (checkpointID <? epoch t)
             && bool_decide (checkpointID ∈ written t)
          then fail (ErrStagedFileMissing checkpointID)
          else mret tt
      end
  end.

(** [strings.CutSuffix]. *)
Definition CutSuffix (s suffix : bytes) : option bytes :=
  let n := (length s - length suffix)%nat in
  if (length suffix <=? length s)%nat && bool_decide (drop n s = suffix) then Some (take n s) else None.

(** [s[:cut]] and [s[cut+1:]] around the last [c]: [strings.LastIndexByte]. *)
Fixpoint cut_last (c : byte) (s : bytes) : option (bytes * bytes) :=
  match s with
  | [] => None
  | b :: s' =>
      match cut_last c s' with
      | Some (l, r) => Some (b :: l, r)
      | None => if bool_decide (b = c) then Some ([], s') else None
      end
  end.

Definition checkpointOf (t : Transactional) (name : bytes) : option Z :=
  match CutSuffix name stagingSuffix with
  | None => None
  | Some rest =>
      match cut_last Byte.x2d rest with
      | None => None
      | Some (owner, digits) =>
          match ParseInt digits with
          | None => None
          | Some id => if bool_decide (owner = subtask_name (vertexID t) (index t)) then Some id else None
          end
      end
  end.

(** One entry of the staging directory; the flags say whether anything was
    committed and whether anything was discarded. *)
Definition settle_one (t : Transactional) (k : Z) (name : bytes) (flags : bool * bool) : SM (bool * bool) :=
  match checkpointOf t name with
  | None => mret flags
  | Some id =>
      if k <? id then
        r ← try_os (os_Remove (dir (root t) stagingDir, name));
        match r with
        | Err EIO => fail (ErrOS EIO)
        | _ => mret (flags.1, true)
        end
      else
        r ← try_os (os_Rename (dir (root t) stagingDir, name) (committedPath t id));
        match r with
        | Err EIO => fail (ErrOS EIO)
        | Err ErrNotExist => mret flags
        | Ok _ => mret (true, flags.2)
        end
  end.

Fixpoint settle_all (t : Transactional) (k : Z) (l : list bytes) (flags : bool * bool) : SM (bool * bool) :=
  match l with
  | [] => mret flags
  | name :: l => flags ← settle_one t k name flags; settle_all t k l flags
  end.

Definition settleStaged (k : Z) : SM unit :=
  t ← get_sink;
  r ← try_os (os_ReadDir (dir (root t) stagingDir));
  match r with
  | Err ErrNotExist => mret tt
  | Err EIO => fail (ErrOS EIO)
  | Ok entries =>
      flags ← settle_all t k entries (false, false);
      _ ← (if flags.1 : bool then on_os (syncDir (dir (root t) committedDir)) else mret tt);
      if (flags.1 || flags.2) then on_os (syncDir (dir (root t) stagingDir)) else mret tt
  end.

Definition Restore (payload : bytes) : SM unit :=
  k ← lift (if bool_decide (length payload = 0%nat) then Ok 0
            else if bool_decide (length payload = 8%nat) then Ok (i64 (uint64 payload))
            else Err (ErrPayloadLength (length payload)));
  if k <? 0 then fail (ErrNegativeCheckpoint k)
  else
    _ ← settleStaged k;
    set_sink (set_epochs (add64 k 1) (add64 k 1) ∅).

(** The loop of [CommitFinalEpoch] from epoch [id], [n] epochs long. *)
Fixpoint commit_from (t : Transactional) (n : nat) (id : Z) (committed : bool) : SM bool :=
  match n with
  | O => mret committed
  | S n =>
      r ← try_os (os_Rename (stagingPath t id) (committedPath t id));
      match r with
      | Ok _ => commit_from t n (id + 1) true
      | Err ErrNotExist => commit_from t n (id + 1) committed
      | Err EIO => fail (ErrOS EIO)
      end
  end.

Definition CommitFinalEpoch : SM unit :=
  _ ← closeEpoch;
  t ← get_sink;
  committed ← commit_from t (Z.to_nat (epoch t - firstEpoch t + 1)) (firstEpoch t) false;
  if committed : bool then on_os (syncDir (dir (root t) committedDir)) else mret tt.

Definition Close : SM unit := closeEpoch.

(** * Reading the output *)

Definition recordCRCBytes : Z := 4.

Definition decodeRecord (raw : bytes) (offset : nat) : result sink_error (Record_ * nat) :=
  let len := Z.of_nat (length raw) in
  if len <? 8 + 4 + 4 + recordCRCBytes then Err (ErrCorruptRecord offset)
  else
    let eventTime := i64 (uint64 raw) in
    let keyLen := uint32 (drop 8 raw) in
    if len <? 12 + keyLen + 4 + recordCRCBytes then Err (ErrCorruptRecord offset)
    else
      let key := take (Z.to_nat keyLen) (drop 12 raw) in
      let valueLen := uint32 (drop (Z.to_nat (12 + keyLen)) raw) in
      let start := 12 + keyLen + 4 in
      if len <? start + valueLen + recordCRCBytes then Err (ErrCorruptRecord offset)
      else
        let value := take (Z.to_nat valueLen) (drop (Z.to_nat start) raw) in
        let n := start + valueLen + recordCRCBytes in
        let body := take (Z.to_nat (n - recordCRCBytes)) raw in
        if negb (ChecksumIEEE body =? uint32 (drop (Z.to_nat (n - recordCRCBytes)) raw))
        then Err (ErrCorruptRecord offset)
        else Ok (NewRecord key value eventTime, Z.to_nat n).

(** The loop of [decodeRecords]: a record has at least 20 bytes, so a file
    leaves fuel over. *)
Fixpoint decode_from (fuel : nat) (raw : bytes) (pos : nat) : result sink_error (list Record_) :=
  match fuel with
  | O => Ok []
  | S fuel =>
      if bool_decide (raw = []) then Ok []
      else
        match decodeRecord raw pos with
        | Err e => Err e
        | Ok (rec, n) =>
            match decode_from fuel (drop n raw) (pos + n) with
            | Err e => Err e
            | Ok out => Ok (rec :: out)
            end
        end
  end.

Definition decodeRecords (raw : bytes) : result sink_error (list Record_) :=
  decode_from (S (length raw)) raw 0.

Definition has_suffix (suffix s : bytes) : bool := bool_decide (CutSuffix s suffix <> None).

Definition read_file (p : path) : M sink_error fsys bytes := fun s =>
  let '(r, s) := os_ReadFile p s in (wrap_err ErrOS r, s).

Fixpoint read_files (dir : bytes) (l : list bytes) : M sink_error fsys (list Record_) :=
  match l with
  | [] => mret []
  | name :: l =>
      if negb (has_suffix commitSuffix name) then read_files dir l
      else
        raw ← read_file (dir, name);
        recs ← lift (decodeRecords raw);
        out ← read_files dir l;
        mret (recs ++ out)
  end.

Definition ReadCommitted (root : bytes) : M sink_error fsys (list Record_) := fun s =>
  match os_ReadDir (dir root committedDir) s with
  | (Err ErrNotExist, s) => (Ok [], s)
  | (Err e, s) => (Err (ErrOS e), s)
  | (Ok entries, s) => read_files (dir root committedDir) entries s
  end.

Definition namesUnder (dir suffix : bytes) : M sink_error fsys (list bytes) := fun s =>
  match os_ReadDir dir s with
  | (Err ErrNotExist, s) => (Ok [], s)
  | (Err e, s) => (Err (ErrOS e), s)
  | (Ok entries, s) => (Ok (filter (fun n => has_suffix suffix n = true) entries), s)
  end.

Definition CommittedFiles (root : bytes) : M sink_error fsys (list bytes) :=
  namesUnder (dir root committedDir) commitSuffix.

Definition StagingFiles (root : bytes) : M sink_error fsys (list bytes) :=
  namesUnder (dir root stagingDir) stagingSuffix.
