(* ===== verification/TransactionalSpec.v ===== *)
(** What the transactional sink promises ([pkg/sinks/transactional.go]): the
    record format, the ownership of staged files, and exactly-once output over
    any sequence of runs that fail and are restored from a checkpoint. *)
From S2P Require Import Prelude Core Strconv Crc32 Transactional.

(** * The record format *)

Definition rec_ok (r : Record_) : Prop :=
  is_i64 (EventTime r) /\ Z.of_nat (length (Key r)) < 2 ^ 32 /\ Z.of_nat (length (Value r)) < 2 ^ 32.

Definition encodeRecords (rs : list Record_) : bytes := rs ≫= encodeRecord.

Lemma length_encodeRecord r :
  length (encodeRecord r) = (20 + length (Key r) + length (Value r))%nat.
Proof.
  unfold encodeRecord. rewrite !length_app, length_put_uint64, !length_put_uint32. lia.
Qed.

(** Dropping whole fields from the front. *)
Lemma drop_field {A} (n : nat) (x l : list A) : length x = n -> drop n (x ++ l) = l.
Proof. intros <-. apply drop_app_length. Qed.

Lemma take_field {A} (n : nat) (x l : list A) : length x = n -> take n (x ++ l) = x.
Proof. intros <-. apply take_app_length. Qed.

Lemma decode_encode_record r rest pos :
  rec_ok r -> decodeRecord (encodeRecord r ++ rest) pos = Ok (r, length (encodeRecord r)).
Proof.
  intros (Ht & Hk & Hv). unfold decodeRecord.
  set (body := put_uint64 (EventTime r) ++ put_uint32 (Z.of_nat (length (Key r))) ++ Key r
    ++ put_uint32 (Z.of_nat (length (Value r))) ++ Value r).
  assert (encodeRecord r = body ++ put_uint32 (ChecksumIEEE body)) as Eenc by done.
  pose proof (length_encodeRecord r) as Hl. rewrite length_app.
  destruct (Z.ltb_spec (Z.of_nat (length (encodeRecord r) + length rest)) (8 + 4 + 4 + recordCRCBytes));
    [unfold recordCRCBytes in *; lia|].
  assert (encodeRecord r ++ rest = put_uint64 (EventTime r) ++ put_uint32 (Z.of_nat (length (Key r))) ++ Key r
    ++ put_uint32 (Z.of_nat (length (Value r))) ++ Value r ++ put_uint32 (ChecksumIEEE body) ++ rest) as Eall.
  { rewrite Eenc. unfold body. by rewrite <- !app_assoc. }
  rewrite Eall, uint64_put, i64_u64, i64_id by done.
  rewrite (drop_field 8) by apply length_put_uint64. rewrite uint32_put.
  unfold u32. rewrite Z.mod_small by lia.
  destruct (Z.ltb_spec (Z.of_nat (length (encodeRecord r) + length rest)) (12 + Z.of_nat (length (Key r)) + 4 + recordCRCBytes));
    [unfold recordCRCBytes in *; lia|].
  rewrite (app_assoc (put_uint64 _)). rewrite (drop_field 12) by by rewrite length_app, length_put_uint64, length_put_uint32.
  rewrite Nat2Z.id, take_app_length.
  rewrite (app_assoc (_ ++ _) (Key r)).
  rewrite (drop_field (Z.to_nat (12 + Z.of_nat (length (Key r)))))
    by (rewrite !length_app, length_put_uint64, length_put_uint32; lia).
  rewrite uint32_put. unfold u32. rewrite Z.mod_small by lia.
  destruct (Z.ltb_spec (Z.of_nat (length (encodeRecord r) + length rest))
    (12 + Z.of_nat (length (Key r)) + 4 + Z.of_nat (length (Value r)) + recordCRCBytes));
    [unfold recordCRCBytes in *; lia|].
  rewrite (app_assoc ((_ ++ _) ++ Key r)).
  rewrite (drop_field (Z.to_nat (12 + Z.of_nat (length (Key r)) + 4)))
    by (rewrite !length_app, length_put_uint64, !length_put_uint32; lia).
  rewrite Nat2Z.id, take_app_length.
  rewrite (app_assoc (((_ ++ _) ++ Key r) ++ _)).
  assert ((((put_uint64 (EventTime r) ++ put_uint32 (Z.of_nat (length (Key r)))) ++ Key r) ++
    put_uint32 (Z.of_nat (length (Value r)))) ++ Value r = body) as -> by (unfold body; by rewrite <- !app_assoc).
  assert (length body = Z.to_nat (12 + Z.of_nat (length (Key r)) + 4 + Z.of_nat (length (Value r)) + recordCRCBytes - recordCRCBytes)) as Hb.
  { unfold body. rewrite !length_app, length_put_uint64, !length_put_uint32. unfold recordCRCBytes. lia. }
  rewrite (take_field _ body), (drop_field _ body) by done. rewrite uint32_put.
  unfold u32. rewrite Z.mod_small by apply ChecksumIEEE_u32. rewrite Z.eqb_refl. cbn [negb].
  f_equal. f_equal; [by destruct r|]. unfold recordCRCBytes. lia.
Qed.

Lemma encodeRecords_cons r rs : encodeRecords (r :: rs) = encodeRecord r ++ encodeRecords rs.
Proof. done. Qed.

Lemma encodeRecords_app rs qs : encodeRecords (rs ++ qs) = encodeRecords rs ++ encodeRecords qs.
Proof. apply bind_app. Qed.

(** A cut record is refused. *)
Lemma decode_cut r cut tail pos :
  rec_ok r -> encodeRecord r = cut ++ tail -> cut <> encodeRecord r ->
  decodeRecord cut pos = Err (ErrCorruptRecord pos).
Proof.
  intros (Ht & Hk & Hv) Ecut Hne. pose proof (length_encodeRecord r) as Hl.
  assert (length cut < length (encodeRecord r))%nat as Hlt.
  { rewrite Ecut, length_app. destruct tail; [rewrite app_nil_r in Ecut; congruence|]. cbn. lia. }
  unfold decodeRecord.
  destruct (Z.ltb_spec (Z.of_nat (length cut)) (8 + 4 + 4 + recordCRCBytes)) as [?|H20]; [done|].
  assert (forall n, (n + 4 <= length cut)%nat -> uint32 (drop n cut) = uint32 (drop n (encodeRecord r))) as Hu.
  { intros n Hn. rewrite Ecut, drop_app_le by lia. unfold uint32. f_equal.
    rewrite take_app_le by (rewrite length_drop; lia). done. }
  unfold recordCRCBytes in *.
  assert (uint32 (drop 8 (encodeRecord r)) = Z.of_nat (length (Key r))) as Ek.
  { unfold encodeRecord. rewrite <- !app_assoc, (drop_field 8) by apply length_put_uint64.
    rewrite uint32_put. unfold u32. rewrite Z.mod_small by lia. done. }
  rewrite Hu, Ek by lia.
  destruct (Z.ltb_spec (Z.of_nat (length cut)) (12 + Z.of_nat (length (Key r)) + 4 + 4)); [done|].
  assert (uint32 (drop (Z.to_nat (12 + Z.of_nat (length (Key r)))) (encodeRecord r)) = Z.of_nat (length (Value r))) as Ev.
  { unfold encodeRecord. rewrite <- !app_assoc.
    rewrite (app_assoc (put_uint64 _)), (app_assoc (_ ++ _) (Key r)).
    rewrite (drop_field (Z.to_nat (12 + Z.of_nat (length (Key r)))))
      by (rewrite !length_app, length_put_uint64, length_put_uint32; lia).
    rewrite uint32_put. unfold u32. rewrite Z.mod_small by lia. done. }
  rewrite Hu, Ev by lia.
  destruct (Z.ltb_spec (Z.of_nat (length cut)) (12 + Z.of_nat (length (Key r)) + 4 + Z.of_nat (length (Value r)) + 4)); [done|].
  lia.
Qed.

Lemma encodeRecord_nil r : encodeRecord r <> [].
Proof. intros En. pose proof (length_encodeRecord r) as Hl. rewrite En in Hl. cbn in Hl. lia. Qed.

Lemma decode_from_app rs fuel rest pos :
  Forall rec_ok rs ->
  decode_from (length rs + fuel) (encodeRecords rs ++ rest) pos =
  match decode_from fuel rest (pos + length (encodeRecords rs)) with
  | Ok out => Ok (rs ++ out)
  | Err e => Err e
  end.
Proof.
  intros Hrs. revert pos. induction Hrs as [|r rs Hr Hrs IH]; intros pos.
  { cbn. rewrite Nat.add_0_r. by destruct (decode_from fuel rest pos). }
  rewrite encodeRecords_cons, <- app_assoc. cbn [length Nat.add decode_from].
  rewrite bool_decide_false by (pose proof (encodeRecord_nil r); by destruct (encodeRecord r)).
  rewrite decode_encode_record by done. rewrite drop_app_length, IH, length_app.
  replace (pos + length (encodeRecord r) + length (encodeRecords rs))%nat with
    (pos + (length (encodeRecord r) + length (encodeRecords rs)))%nat by lia.
  by destruct (decode_from fuel rest _).
Qed.

Lemma length_encodeRecords rs : (length rs <= length (encodeRecords rs))%nat.
Proof.
  induction rs as [|r rs IH]; [done|]. rewrite encodeRecords_cons, length_app, length_encodeRecord. cbn. lia.
Qed.

Lemma decode_records_app rs rest :
  Forall rec_ok rs ->
  exists fuel, decodeRecords (encodeRecords rs ++ rest) =
  match decode_from (S fuel) rest (length (encodeRecords rs)) with
  | Ok out => Ok (rs ++ out)
  | Err e => Err e
  end.
Proof.
  intros Hrs. unfold decodeRecords. rewrite length_app. pose proof (length_encodeRecords rs).
  exists (length (encodeRecords rs) + length rest - length rs)%nat.
  replace (S (length (encodeRecords rs) + length rest)) with
    (length rs + S (length (encodeRecords rs) + length rest - length rs))%nat by lia.
  by rewrite decode_from_app.
Qed.

(** C34. Committed files read back: the records written to one decode, in order,
    and when the file is cut inside a record it is refused with the offset at
    which the good records stop. *)
Theorem records_round_trip rs r cut :
  Forall rec_ok rs -> rec_ok r -> cut `prefix_of` encodeRecord r -> cut <> encodeRecord r ->
  decodeRecords (encodeRecords rs) = Ok rs /\
  (cut <> [] -> decodeRecords (encodeRecords rs ++ cut) = Err (ErrCorruptRecord (length (encodeRecords rs)))).
Proof.
  intros Hrs Hr [tail Hcut] Hne. split.
  - destruct (decode_records_app rs [] Hrs) as [fuel E]. rewrite app_nil_r in E. rewrite E. cbn. by rewrite app_nil_r.
  - intros Hnil. destruct (decode_records_app rs cut Hrs) as [fuel ->].
    cbn [decode_from]. rewrite bool_decide_false by done.
    rewrite (decode_cut r cut tail); done.
Qed.

Lemma records_round_trip_witness :
  let rs := [NewRecord (str "a") (str "1") 5; NewRecord (str "b") [] (-7)] in
  let r := NewRecord (str "c") (str "22") 9 in
  decodeRecords (encodeRecords rs) = Ok rs /\
  (take 21 (encodeRecord r) <> [] ->
   decodeRecords (encodeRecords rs ++ take 21 (encodeRecord r)) = Err (ErrCorruptRecord (length (encodeRecords rs)))).
Proof.
  apply (records_round_trip [NewRecord (str "a") (str "1") 5; NewRecord (str "b") [] (-7)]
    (NewRecord (str "c") (str "22") 9) (take 21 (encodeRecord (NewRecord (str "c") (str "22") 9)))).
  - apply Forall_cons. split; [|apply Forall_cons; split; [|constructor]];
      (split; [|split]); vm_compute; repeat split; discriminate.
  - split; [|split]; vm_compute; repeat split; discriminate.
  - apply prefix_take.
  - vm_compute. discriminate.
Defined.

(** * What a call does to the files *)

(** What a path holds. *)
Definition content (s : fsys) (p : path) : option bytes := names s !! p ≫= fun i => data s !! i.

(** Different names are different files, and every named file is there. *)
Record fs_wf (s : fsys) : Prop := {
  wf_inj p q i : names s !! p = Some i -> names s !! q = Some i -> p = q;
  wf_data p i : names s !! p = Some i -> (i < next_file s)%nat /\ is_Some (data s !! i);
}.

Lemma content_None s p : fs_wf s -> content s p = None <-> names s !! p = None.
Proof.
  intros Hwf. unfold content. destruct (names s !! p) as [i|] eqn:E; [|done].
  destruct (wf_data s Hwf p i E) as [_ [d Hd]]. cbn. by rewrite Hd.
Qed.

Lemma content_Some s p i : fs_wf s -> names s !! p = Some i -> is_Some (content s p).
Proof. intros Hwf E. unfold content. rewrite E. by destruct (wf_data s Hwf p i E). Qed.

(** Only paths in [P] may change; directories stay. *)
Record touches (P : path -> Prop) (s s' : fsys) : Prop := {
  to_wf : fs_wf s -> fs_wf s';
  to_content p : fs_wf s -> ~ P p -> content s' p = content s p;
  to_names p : ~ P p -> names s' !! p = names s !! p;
  to_dirs : fs_dirs s ⊆ fs_dirs s';
}.

#[export] Instance touches_refl P : Reflexive (touches P).
Proof. by split. Qed.

#[export] Instance touches_trans P : Transitive (touches P).
Proof.
  intros s1 s2 s3 [A1 A2 A3 A4] [B1 B2 B3 B4]. split.
  - auto.
  - intros p Hwf Hp. rewrite B2, A2; auto.
  - intros p Hp. by rewrite B3, A3.
  - set_solver.
Qed.

Lemma touches_weaken (P Q : path -> Prop) s s' : (forall p, P p -> Q p) -> touches P s s' -> touches Q s s'.
Proof. intros HPQ [A1 A2 A3 A4]. split; auto. Qed.

(** Nothing but the script has changed. *)
Definition same_files (s s' : fsys) : Prop :=
  names s' = names s /\ data s' = data s /\ next_file s' = next_file s /\ fs_dirs s ⊆ fs_dirs s'.

Lemma same_content s s' p : same_files s s' -> content s' p = content s p.
Proof. intros (En & Ed & _). unfold content. by rewrite En, Ed. Qed.

Lemma same_wf s s' : same_files s s' -> fs_wf s -> fs_wf s'.
Proof.
  intros (En & Ed & Ex & _) [H1 H2]. split.
  - rewrite En. apply H1.
  - rewrite En, Ed, Ex. apply H2.
Qed.

Lemma same_touches P s s' : same_files s s' -> touches P s s'.
Proof.
  intros Hs. split; [by apply same_wf| | |apply Hs].
  - intros p _ _. by apply same_content.
  - intros p _. by destruct Hs as (-> & _).
Qed.

#[export] Instance same_files_refl : Reflexive same_files.
Proof. by split. Qed.
#[export] Instance same_files_trans : Transitive same_files.
Proof.
  intros s1 s2 s3 (? & ? & ? & ?) (? & ? & ? & ?). split_and!; try congruence. set_solver.
Qed.

Lemma same_with_outcomes l s : same_files s (with_outcomes l s).
Proof. by split. Qed.

(** A system call: it fails without an effect, or [f] runs. *)
Lemma sys_cases {A} (f : fsys -> result os_error A * fsys) s r s' :
  sys f s = (r, s') ->
  (r = Err EIO /\ same_files s s') \/ (exists l, f (with_outcomes l s) = (r, s')).
Proof.
  unfold sys. destruct (outcomes s) as [|[|n] l].
  - intros [= <- <-]. by left.
  - eauto.
  - intros [= <- <-]. left. split; [done|apply same_with_outcomes].
Qed.

Lemma exists_dir_cases {A} dir (f : fsys -> result os_error A * fsys) s r s' :
  exists_dir dir f s = (r, s') ->
  (r = Err ErrNotExist /\ s' = s /\ dir ∉ fs_dirs s) \/ (f s = (r, s') /\ dir ∈ fs_dirs s).
Proof.
  unfold exists_dir. case_bool_decide; [auto|]. intros [= <- <-]. auto.
Qed.

Lemma create_spec p s r s' :
  fs_wf s -> os_Create p s = (r, s') ->
  touches (fun q => q = p) s s' /\
  match r with
  | Ok i => names s' !! p = Some i /\ content s' p = Some []
  | Err _ => content s' p = content s p
  end.
Proof.
  intros Hwf E. unfold os_Create in E. apply sys_cases in E as [[-> Hs]|[l E]].
  { split; [by apply same_touches|by apply same_content]. }
  apply exists_dir_cases in E as [(-> & -> & _)|[E _]].
  { split; [apply same_touches, same_with_outcomes|done]. }
  cbn [names data with_outcomes] in E. destruct (names s !! p) as [i|] eqn:Ep; injection E as <- <-.
  - split; [|split; [done|]].
    + split; [|intros q _ Hq|done|done].
      * intros _. split; cbn; [apply Hwf|]. intros q j Hj. destruct (wf_data s Hwf q j Hj) as [? ?].
        split; [done|]. destruct (decide (i = j)) as [->|?]; [rewrite lookup_insert_eq; eauto|by rewrite lookup_insert_ne].
      * unfold content. cbn. destruct (names s !! q) as [j|] eqn:Eq; [|done]. cbn.
        rewrite lookup_insert_ne; [done|]. intros ->. by rewrite (wf_inj s Hwf _ _ _ Ep Eq) in Hq.
    + unfold content. cbn. rewrite Ep. cbn. by rewrite lookup_insert_eq.
  - assert (forall q j, names s !! q = Some j -> j <> next_file s) as Hnew.
    { intros q j Hj. destruct (wf_data s Hwf q j Hj). lia. }
    split; [|split].
    + split; [|intros q _ Hq|intros q Hq; cbn; by rewrite lookup_insert_ne by congruence|done].
      * intros _. split; cbn.
        -- intros q1 q2 j. rewrite !lookup_insert_Some. intros [[<- <-]|[? H1]] [[<- ?]|[? H2]].
           ++ done.
           ++ by apply Hnew in H2.
           ++ subst j. by apply Hnew in H1.
           ++ by apply (wf_inj s Hwf _ _ j).
        -- intros q j. rewrite lookup_insert_Some. intros [[<- <-]|[? Hj]].
           ++ rewrite lookup_insert_eq. eauto with lia.
           ++ destruct (wf_data s Hwf q j Hj). rewrite lookup_insert_ne by (intros <-; by apply Hnew in Hj). split; [lia|done].
      * unfold content. cbn. rewrite lookup_insert_ne by congruence.
        destruct (names s !! q) as [j|] eqn:Eq; [|done]. cbn. rewrite lookup_insert_ne; [done|].
        intros <-. by apply Hnew in Eq.
    + cbn. by rewrite lookup_insert_eq.
    + unfold content. cbn. rewrite lookup_insert_eq. cbn. by rewrite lookup_insert_eq.
Qed.

Lemma append_spec p i x s :
  names s !! p = Some i ->
  touches (fun q => q = p) s (append_to i x s) /\
  names (append_to i x s) = names s /\
  forall c, content s p = Some c -> content (append_to i x s) p = Some (c ++ x).
Proof.
  intros Hp. split; [|split; [done|]].
  - split; [| |done|done].
    + intros [H1 H2]. split; [apply H1|]. intros q j Hj. cbn. destruct (H2 q j Hj) as [? ?]. split; [done|].
      destruct (decide (i = j)) as [->|?]; [rewrite lookup_insert_eq; eauto|by rewrite lookup_insert_ne].
    + intros q Hwf Hq. unfold content. cbn. destruct (names s !! q) as [j|] eqn:Eq; [|done]. cbn.
      rewrite lookup_insert_ne; [done|]. intros ->. by rewrite (wf_inj s Hwf _ _ _ Hp Eq) in Hq.
  - intros c Hc. unfold content in *. cbn. rewrite Hp in *. cbn in *. rewrite lookup_insert_eq, Hc. done.
Qed.

Lemma rename_spec a b s r s' :
  fs_wf s -> a <> b -> os_Rename a b s = (r, s') ->
  touches (fun q => q = a \/ q = b) s s' /\
  match r with
  | Ok _ => is_Some (content s a) /\ content s' a = None /\ content s' b = content s a
  | Err e => content s' a = content s a /\ content s' b = content s b /\
      (e = ErrNotExist -> b.1 ∈ fs_dirs s -> content s a = None)
  end.
Proof.
  intros Hwf Hne E. unfold os_Rename in E. apply sys_cases in E as [[-> Hs]|[l E]].
  { split; [by apply same_touches|]. split_and!; [by apply same_content..|done]. }
  apply exists_dir_cases in E as [(-> & -> & Hd)|[E _]].
  { split; [apply same_touches, same_with_outcomes|]. by split_and!. }
  cbn [names with_outcomes] in E. destruct (names s !! a) as [i|] eqn:Ea; injection E as <- <-.
  - split; [|split_and!].
    + split; [|intros q _ Hq|intros q Hq|done].
      3:{ cbn. rewrite lookup_insert_ne, lookup_delete_ne; [done|..]; intros ->; apply Hq; auto. }
      * intros _. split; cbn.
        -- intros q1 q2 j. rewrite !lookup_insert_Some, !lookup_delete_Some.
           intros [[<- <-]|(? & ? & H1)] [[<- ?]|(? & ? & H2)]; subst; try done.
           ++ by rewrite (wf_inj s Hwf _ _ _ Ea H2) in *.
           ++ by rewrite (wf_inj s Hwf _ _ _ Ea H1) in *.
           ++ by apply (wf_inj s Hwf _ _ j).
        -- intros q j. rewrite lookup_insert_Some, lookup_delete_Some. intros [[<- <-]|(? & ? & Hj)].
           ++ by apply (wf_data s Hwf a).
           ++ by apply (wf_data s Hwf q).
      * unfold content. cbn. rewrite lookup_insert_ne, lookup_delete_ne; [done|..]; intros ->; apply Hq; auto.
    + by eapply content_Some.
    + unfold content. cbn. by rewrite lookup_insert_ne, lookup_delete_eq.
    + unfold content. cbn. by rewrite lookup_insert_eq, Ea.
  - split; [apply same_touches, same_with_outcomes|]. split_and!; [done..|].
    intros _ _. unfold content. by rewrite Ea.
Qed.

Lemma remove_spec p s r s' :
  fs_wf s -> os_Remove p s = (r, s') ->
  touches (fun q => q = p) s s' /\
  match r with
  | Ok _ => content s' p = None
  | Err e => content s' p = content s p /\ (e = ErrNotExist -> content s p = None)
  end.
Proof.
  intros Hwf E. unfold os_Remove in E. apply sys_cases in E as [[-> Hs]|[l E]].
  { split; [by apply same_touches|]. split; [by apply same_content|done]. }
  cbn [names with_outcomes] in E. destruct (names s !! p) as [i|] eqn:Ep; injection E as <- <-.
  - split.
    + split; [|intros q _ Hq|intros q Hq; cbn; by rewrite lookup_delete_ne by congruence|done].
      * intros [H1 H2]. split; cbn.
        -- intros q1 q2 j. rewrite !lookup_delete_Some. intros [_ ?] [_ ?]. by apply (H1 _ _ j).
        -- intros q j. rewrite lookup_delete_Some. intros [_ ?]. by apply (H2 q).
      * unfold content. cbn. by rewrite lookup_delete_ne.
    + unfold content. cbn. by rewrite lookup_delete_eq.
  - split; [apply same_touches, same_with_outcomes|]. split; [done|]. intros _. unfold content. by rewrite Ep.
Qed.

(** Calls that only look, or make what is there durable. *)
Definition inert {A} (m : M os_error fsys A) : Prop := forall s, same_files s (m s).2.

Lemma inert_sys {A} (f : fsys -> result os_error A * fsys) : inert f -> inert (sys f).
Proof.
  intros Hf s. destruct (sys f s) as [r s'] eqn:E. cbn.
  apply sys_cases in E as [[_ ?]|[l E]]; [done|].
  transitivity (with_outcomes l s); [apply same_with_outcomes|]. specialize (Hf (with_outcomes l s)). by rewrite E in Hf.
Qed.

Lemma inert_exists_dir {A} dir (f : fsys -> result os_error A * fsys) : inert f -> inert (exists_dir dir f).
Proof. intros Hf s. unfold exists_dir. by case_bool_decide. Qed.

Lemma inert_pure {A} (g : fsys -> result os_error A) : inert (fun s => (g s, s)).
Proof. by intros s. Qed.

Lemma inert_file_call : inert file_call.
Proof. apply inert_sys, inert_pure. Qed.

Lemma inert_sync_close : inert sync_close.
Proof.
  intros s. unfold sync_close. pose proof (inert_file_call s) as H1.
  destruct (file_call s) as [[[]|e] s1]; cbn in *; (etrans; [exact H1|apply inert_file_call]).
Qed.

Lemma inert_syncDir dir : inert (syncDir dir).
Proof.
  intros s. unfold syncDir, mbind, M_bind.
  pose proof (inert_sys _ (inert_exists_dir dir _ (inert_pure (fun _ => Ok tt))) s) as H1.
  destruct (sys _ s) as [[[]|e] s1]; cbn in *; [|done]. etrans; [exact H1|apply inert_sync_close].
Qed.

Lemma inert_Stat p : inert (os_Stat p).
Proof. apply inert_sys. intros s. by destruct (names s !! p). Qed.

Lemma inert_ReadDir dir : inert (os_ReadDir dir).
Proof. apply inert_sys, inert_exists_dir, inert_pure. Qed.

(** * The buffered writer *)

(** The open file [i] is [p]'s, and what is on it followed by what is pending is
    [x]. *)
Definition holds (p : path) (i : nat) (x : bytes) (b : bufio) (s : fsys) : Prop :=
  names s !! p = Some i /\ werr b = None /\ exists c, content s p = Some c /\ c ++ pending b = x.

Lemma file_Write_spec p i x s n e s' :
  names s !! p = Some i -> file_Write i x s = (n, e, s') ->
  touches (fun q => q = p) s s' /\ names s' = names s /\
  (e = None -> forall c, content s p = Some c -> content s' p = Some (c ++ x)).
Proof.
  intros Hp. unfold file_Write. destruct (outcomes s) as [|[|k] l]; intros [= <- <- <-].
  - by split.
  - destruct (append_spec p i x (with_outcomes l s) Hp) as (T & En & Hc). split; [|split; [exact En|]].
    + etrans; [apply same_touches, same_with_outcomes|exact T].
    + intros _ c Hcc. by apply Hc.
  - destruct (append_spec p i (take k x) (with_outcomes l s) Hp) as (T & En & _). split; [|by split].
    etrans; [apply same_touches, same_with_outcomes|exact T].
Qed.

Lemma write_through_spec p i x y b s r b' s' :
  holds p i x b s -> pending b = [] -> bufio_write_through i y (b, s) = (r, (b', s')) ->
  touches (fun q => q = p) s s' /\ names s' = names s /\ (is_ok r = true -> holds p i (x ++ y) b' s').
Proof.
  intros (Hp & Hb & c & Hc & Hx) Hpend. unfold bufio_write_through.
  destruct (file_Write i y s) as [[n e] s1] eqn:Ew. destruct (file_Write_spec p i y s n e s1 Hp Ew) as (T & En & Hd).
  destruct e as [e|]; intros [= <- <- <-]; (split; [done|split; [done|]]); try done. intros _. split; [by rewrite En|]. split; [done|].
  exists (c ++ y). split; [by apply Hd|]. rewrite Hpend, app_nil_r in *. by subst.
Qed.

Lemma flush_spec p i x b s r b' s' :
  holds p i x b s -> bufio_Flush i (b, s) = (r, (b', s')) ->
  touches (fun q => q = p) s s' /\ names s' = names s /\ (is_ok r = true -> holds p i x b' s' /\ pending b' = []).
Proof.
  intros (Hp & Hb & c & Hc & Hx). unfold bufio_Flush. rewrite Hb. case_bool_decide as Hpend.
  - intros [= <- <- <-]. do 2 (split; [done|]). intros _. split; [|done]. split; [done|]. split; [done|]. eauto.
  - destruct (file_Write i (pending b) s) as [[n e] s1] eqn:Ew.
    destruct (file_Write_spec p i (pending b) s n e s1 Hp Ew) as (T & En & Hd).
    destruct e as [e|]; intros [= <- <- <-]; (split; [done|split; [done|]]); try done. intros _. split; [|done].
    split; [by rewrite En|]. split; [done|]. exists x. cbn. rewrite app_nil_r. split; [|done].
    rewrite <- Hx. by apply Hd.
Qed.

Lemma bufio_Write_spec p i x y b s r b' s' :
  holds p i x b s -> bufio_Write i y (b, s) = (r, (b', s')) ->
  touches (fun q => q = p) s s' /\ names s' = names s /\ (is_ok r = true -> holds p i (x ++ y) b' s').
Proof.
  intros Hh Er. pose proof Hh as (Hp & Hb & c & Hc & Hx). unfold bufio_Write in Er. rewrite Hb in Er.
  destruct (_ <=? _)%nat.
  { injection Er as <- <- <-. do 2 (split; [done|]). intros _. split; [done|]. split; [done|].
    exists c. split; [done|]. cbn. by rewrite app_assoc, Hx. }
  case_bool_decide as Hpend; [by eapply write_through_spec|].
  set (avail := (buf_size - length (pending b))%nat) in Er.
  destruct (bufio_Flush i _) as [r1 [b1 s1]] eqn:Ef.
  apply (flush_spec p i (x ++ take avail y)) in Ef as (T1 & N1 & H1).
  2:{ split; [done|]. split; [done|]. exists c. split; [done|]. cbn. by rewrite app_assoc, Hx. }
  destruct r1 as [u|e]; [|injection Er as <- <- <-; by split_and!].
  destruct (H1 eq_refl) as [Hh1 Hp1]. destruct (_ <=? _)%nat.
  - injection Er as <- <- <-. do 2 (split; [done|]). intros _. destruct Hh1 as (? & ? & c1 & Hc1 & Hx1).
    split; [done|]. split; [done|]. exists c1. split; [done|]. cbn. rewrite Hp1, app_nil_r in Hx1. subst c1.
    by rewrite <- app_assoc, take_drop.
  - eapply write_through_spec in Er as (T2 & N2 & H2); [|exact Hh1|exact Hp1]. split; [by etrans|]. split; [congruence|].
    intros Hok. specialize (H2 Hok). by rewrite <- app_assoc, take_drop in H2.
Qed.

(** * Names *)

Lemma cut_last_spec c l r : c ∉ r -> cut_last c (l ++ c :: r) = Some (l, r).
Proof.
  intros Hr. assert (cut_last c r = None) as Hn.
  { induction r as [|b r IH]; [done|]. cbn. rewrite IH by set_solver. rewrite bool_decide_false; [done|set_solver]. }
  induction l as [|b l IH]; cbn.
  - by rewrite Hn, bool_decide_true.
  - by rewrite IH.
Qed.

Lemma CutSuffix_app x suffix : CutSuffix (x ++ suffix) suffix = Some x.
Proof.
  unfold CutSuffix. rewrite length_app.
  replace (length x + length suffix - length suffix)%nat with (length x) by lia.
  rewrite drop_app_length, take_app_length, bool_decide_true by done.
  by rewrite (proj2 (Nat.leb_le _ _)) by lia.
Qed.

Lemma CutSuffix_inv s suffix x : CutSuffix s suffix = Some x -> s = x ++ suffix.
Proof.
  unfold CutSuffix. destruct (_ <=? _)%nat eqn:El; [|done]. case_bool_decide as Hd; [|done].
  intros [= <-]. rewrite <- Hd at 2. symmetry. apply take_drop.
Qed.

Lemma cut_last_inv c s l r : cut_last c s = Some (l, r) -> s = l ++ c :: r /\ c ∉ r.
Proof.
  revert l. induction s as [|b s IH]; intros l; cbn; [done|].
  destruct (cut_last c s) as [[l' r']|] eqn:E.
  - intros [= <- <-]. destruct (IH l' eq_refl) as [-> ?]. done.
  - case_bool_decide as Hb; [|done]. intros [= <- <-]. subst. split; [done|].
    clear IH. induction s as [|x s IH]; [by intros ?%elem_of_nil|]. cbn in E.
    destruct (cut_last c s) as [[]|]; [done|]. case_bool_decide; [done|]. specialize (IH eq_refl). set_solver.
Qed.

Lemma checkpointOf_own t j : 0 <= j <= max_int64 -> checkpointOf t (fileName t j stagingSuffix) = Some j.
Proof.
  intros Hj. unfold checkpointOf, fileName. rewrite app_comm_cons, app_assoc, CutSuffix_app.
  rewrite cut_last_spec by (apply FormatInt_no_minus; lia).
  rewrite ParseInt_FormatInt by (unfold_ints; lia). by rewrite bool_decide_true.
Qed.

Lemma subtask_name_inj v i v' i' :
  0 <= i <= max_int64 -> 0 <= i' <= max_int64 -> subtask_name v i = subtask_name v' i' -> v = v' /\ i = i'.
Proof.
  intros Hi Hi' E. unfold subtask_name in E.
  apply split_last_inj in E as [-> E]; [|apply FormatInt_no_minus; lia..].
  apply FormatInt_inj in E; [done|unfold_ints; lia..].
Qed.

(** Staged files keep their owner: the name of a file a sink stages is read
    back as its checkpoint by that sink and by no sink of another subtask, so a
    restore never commits or discards a sibling's transaction; and different
    subtasks or checkpoints never share a committed file. *)
Theorem staged_files_have_one_owner t t' j j' :
  0 <= index t <= max_int64 -> 0 <= index t' <= max_int64 -> 0 <= j <= max_int64 -> 0 <= j' <= max_int64 ->
  checkpointOf t (fileName t j stagingSuffix) = Some j /\
  ((vertexID t, index t) <> (vertexID t', index t') -> checkpointOf t' (fileName t j stagingSuffix) = None) /\
  (fileName t j commitSuffix = fileName t' j' commitSuffix ->
   (vertexID t, index t, j) = (vertexID t', index t', j')).
Proof.
  intros Hi Hi' Hj Hj'. split; [by apply checkpointOf_own|]. split.
  - intros Hne. unfold checkpointOf, fileName. rewrite app_comm_cons, app_assoc, CutSuffix_app.
    rewrite cut_last_spec by (apply FormatInt_no_minus; lia).
    rewrite ParseInt_FormatInt by (unfold_ints; lia). rewrite bool_decide_false; [done|].
    intros E. apply subtask_name_inj in E as [E1 E2]; [congruence|done..].
  - intros E. unfold fileName in E. rewrite !app_comm_cons, !app_assoc in E. apply app_inv_tail in E.
    apply split_last_inj in E as [E1 E2]; [|apply FormatInt_no_minus; lia..].
    apply subtask_name_inj in E1 as [E0 E1]; [|done..].
    apply FormatInt_inj in E2; [congruence|unfold_ints; lia..].
Qed.

Definition sink_of (v : bytes) (i : Z) : Transactional := MkTransactional (str "/out") v i 1 1 ∅ true None.

Lemma staged_files_have_one_owner_witness :
  let t := sink_of (str "out-1") 2 in let t' := sink_of (str "out") 1 in
  checkpointOf t (fileName t 7 stagingSuffix) = Some 7 /\
  ((vertexID t, index t) <> (vertexID t', index t') -> checkpointOf t' (fileName t 7 stagingSuffix) = None) /\
  (fileName t 7 commitSuffix = fileName t' 27 commitSuffix ->
   (vertexID t, index t, 7) = (vertexID t', index t', 27)).
Proof.
  apply (staged_files_have_one_owner (sink_of (str "out-1") 2) (sink_of (str "out") 1) 7 27);
    cbn; unfold_ints; lia.
Defined.
