(* ===== verification/ExactlyOnce.v ===== *)
(** Exactly-once output ([pkg/sinks/transactional.go], driven as
    [pkg/runtime/subtask.go] drives a sink): a sink is run, dies at any system
    call, and is restored from a later checkpoint, any number of times; when a
    run finally completes, the committed files hold what each run wrote between
    its own cut and the next one's, once. *)
From S2P Require Import Prelude Core Strconv Crc32 Transactional TransactionalSpec.

(** * Runs *)

(** What the runtime asks of a sink after [Open] and [Restore]. *)
Inductive sink_op :=
| OpWrite (rec : Record_)
| OpSnapshot
| OpNotify (checkpointID : Z).

(** A notification that fails is logged and the run goes on. *)
Definition run_op (o : sink_op) : SM unit :=
  match o with
  | OpWrite rec => Write rec
  | OpSnapshot => _ ← Snapshot; mret tt
  | OpNotify id => fun ts => (Ok tt, (NotifyCheckpointComplete id ts).2)
  end.

(** The payload of the checkpoint a run restores: nothing if it starts afresh. *)
Definition payload_of_cut (k : Z) : bytes := if k =? 0 then [] else put_uint64 k.

Definition start_sink (subtask : bytes * Z) (k : Z) : SM unit :=
  _ ← Open subtask; Restore (payload_of_cut k).

(** The operations up to the first that fails: how many succeeded. *)
Fixpoint run_ops (l : list sink_op) (ts : Transactional * fsys) : nat * (Transactional * fsys) :=
  match l with
  | [] => (0%nat, ts)
  | o :: l =>
      match run_op o ts with
      | (Err _, ts) => (0%nat, ts)
      | (Ok _, ts) => let '(n, ts) := run_ops l ts in (S n, ts)
      end
  end.

(** A run that does not complete; [Close] is deferred. *)
Definition failed_run (rt : bytes) (subtask : bytes * Z) (k : Z) (l : list sink_op) (s : fsys) : nat * fsys :=
  match start_sink subtask k (NewTransactional rt, s) with
  | (Err _, ts) => (0%nat, (Close ts).2.2)
  | (Ok _, ts) => let '(n, ts) := run_ops l ts in (n, (Close ts).2.2)
  end.

(** A run that does: [Close] when the subtask returns, and [CommitFinalEpoch]
    once the whole job has succeeded. *)
Definition full_run (subtask : bytes * Z) (k : Z) (l : list sink_op) : SM unit :=
  _ ← start_sink subtask k;
  _ ← for_each run_op l;
  _ ← Close;
  CommitFinalEpoch.

(** ** The epochs of a run: the closed ones, and the one being written *)

Definition epoch_step (es : list (list Record_) * list Record_) (o : sink_op) :=
  match o with
  | OpWrite rec => (es.1, es.2 ++ [rec])
  | OpSnapshot => (es.1 ++ [es.2], [])
  | OpNotify _ => es
  end.

Definition epochs (l : list sink_op) : list (list Record_) * list Record_ := foldl epoch_step ([], []) l.

Definition closed (l : list sink_op) : list (list Record_) := (epochs l).1.
Definition current (l : list sink_op) : list Record_ := (epochs l).2.

Definition snapshots (l : list sink_op) : Z := Z.of_nat (length (closed l)).

Lemma epochs_snoc l o : epochs (l ++ [o]) = epoch_step (epochs l) o.
Proof. unfold epochs. by rewrite foldl_app. Qed.

(** Notifications are for checkpoints the sink has acknowledged, in this run or
    before its cut. *)
Definition well_notified (k : Z) (l : list sink_op) : Prop :=
  forall l1 id l2, l = l1 ++ OpNotify id :: l2 -> 1 <= id <= k + snapshots l1.

Definition notified (l : list sink_op) (id : Z) : Prop := OpNotify id ∈ l.

Definition op_ok (o : sink_op) : Prop :=
  match o with OpWrite rec => rec_ok rec | _ => True end.

(** The runs of a job before the one that completes: each starts at a cut, fails
    somewhere, and leaves the next cut: a checkpoint this sink acknowledged, not
    before any it was told is complete. [out] is what was written below it. *)
Inductive recovering (rt : bytes) (subtask : bytes * Z) : fsys -> Z -> list Record_ -> Prop :=
| recovering_start s : names s = ∅ -> recovering rt subtask s 0 []
| recovering_run s k out script l n s' k' :
    recovering rt subtask s k out ->
    Forall op_ok l -> well_notified k l -> k + snapshots l < max_int64 - 1 ->
    failed_run rt subtask k l (with_outcomes script s) = (n, s') ->
    k <= k' <= k + snapshots (take n l) ->
    (forall id, notified (take n l) id -> id <= k') ->
    recovering rt subtask s' k' (out ++ concat (take (Z.to_nat (k' - k)) (closed (take n l)))).

(** No call fails, for [m] calls. *)
Definition undisturbed (m : nat) (s : fsys) : fsys := with_outcomes (repeat Good m) s.

Section Sink.
Context (rt v : bytes) (ix : Z) (Hix : 0 <= ix <= max_int64).

(** ** Paths *)

Definition sp (j : Z) : path :=
  (dir rt stagingDir, subtask_name v ix ++ Byte.x2d :: FormatInt j ++ stagingSuffix).
Definition cp (j : Z) : path :=
  (dir rt committedDir, subtask_name v ix ++ Byte.x2d :: FormatInt j ++ commitSuffix).

Definition ident (t : Transactional) : Prop := root t = rt /\ vertexID t = v /\ index t = ix.

Lemma staging_sp t j : ident t -> stagingPath t j = sp j.
Proof. intros (E1 & E2 & E3). unfold stagingPath, fileName. by rewrite E1, E2, E3. Qed.
Lemma committed_cp t j : ident t -> committedPath t j = cp j.
Proof. intros (E1 & E2 & E3). unfold committedPath, fileName. by rewrite E1, E2, E3. Qed.

Definition in_range (j : Z) : Prop := 1 <= j <= max_int64.

Lemma name_inj j j' (suffix : bytes) :
  in_range j -> in_range j' ->
  subtask_name v ix ++ Byte.x2d :: FormatInt j ++ suffix = subtask_name v ix ++ Byte.x2d :: FormatInt j' ++ suffix ->
  j = j'.
Proof.
  unfold in_range. intros Hj Hj' E. apply app_inv_head in E. injection E as E. apply app_inv_tail in E.
  apply FormatInt_inj in E; [done|unfold_ints; lia..].
Qed.

Lemma sp_inj j j' : in_range j -> in_range j' -> sp j = sp j' -> j = j'.
Proof. intros Hj Hj' [= E]. by eapply name_inj. Qed.
Lemma cp_inj j j' : in_range j -> in_range j' -> cp j = cp j' -> j = j'.
Proof. intros Hj Hj' [= E]. by eapply name_inj. Qed.

Lemma dirs_differ : dir rt stagingDir <> dir rt committedDir.
Proof. unfold dir, Join. intros E. apply app_inv_head in E. discriminate E. Qed.

Lemma sp_cp j j' : sp j <> cp j'.
Proof. unfold sp, cp. intros [= E _]. by apply dirs_differ in E. Qed.

(** ** The invariant of the files *)

Definition own (p : path) : Prop := exists j, in_range j /\ (p = sp j \/ p = cp j).

(** Epoch [j] is there once: staged or committed, or it is empty. *)
Definition whole (s : fsys) (j : Z) (rs : list Record_) : Prop :=
  (content s (sp j) = Some (encodeRecords rs) /\ content s (cp j) = None) \/
  (content s (sp j) = None /\ content s (cp j) = Some (encodeRecords rs)) \/
  (content s (sp j) = None /\ content s (cp j) = None /\ rs = []).

(** Below [e] every epoch is whole, and only those in [A] may be committed. *)
Record kept (e : Z) (R : Z -> list Record_) (A : Z -> Prop) (s : fsys) : Prop := {
  k_wf : fs_wf s;
  k_bound : e <= max_int64;
  k_own p : is_Some (content s p) -> own p;
  k_whole j : 1 <= j < e -> whole s j (R j);
  k_committed j : in_range j -> is_Some (content s (cp j)) -> A j;
}.

Lemma kept_weaken e R A e' R' A' s :
  kept e R A s -> e' <= e -> (forall j, 1 <= j < e' -> R' j = R j) ->
  (forall j, in_range j -> A j -> A' j) -> kept e' R' A' s.
Proof.
  intros [K1 K0 K2 K3 K4] He HR HA. split; auto; [lia|]. intros j Hj. rewrite HR by done. apply K3. lia.
Qed.

Lemma kept_same e R A s s' : kept e R A s -> same_files s s' -> kept e R A s'.
Proof.
  intros [K1 K0 K2 K3 K4] Hs. pose proof (fun p => same_content s s' p Hs) as Hc. split.
  - by eapply same_wf.
  - done.
  - intros p. rewrite Hc. apply K2.
  - intros j Hj. unfold whole. rewrite !Hc. by apply K3.
  - intros j Hj. rewrite Hc. by apply K4.
Qed.

(** A staged file of an epoch not below [e] may change at will. *)
Lemma kept_touch e R A s s' j :
  kept e R A s -> touches (fun p => p = sp j) s s' -> in_range j -> e <= j -> kept e R A s'.
Proof.
  intros [K1 K0 K2 K3 K4] [T1 T2 _ _] Hj He. split.
  - auto.
  - done.
  - intros p. destruct (decide (p = sp j)) as [->|Hp]; [intros _; exists j; auto|]. rewrite T2; auto.
  - intros i Hi. unfold whole. rewrite !T2; auto.
    + by apply K3.
    + intros E. by apply (sp_cp j i).
    + intros E. apply sp_inj in E; [lia| |done]. unfold in_range in *. lia.
  - intros i Hi. rewrite T2; auto. intros E. by apply (sp_cp j i).
Qed.

(** Committing an epoch that is whole. *)
Lemma kept_rename e R A s r s' j :
  kept e R A s -> in_range j -> j < e -> os_Rename (sp j) (cp j) s = (r, s') ->
  kept e R (fun i => A i \/ i = j) s' /\ touches (fun p => p = sp j \/ p = cp j) s s' /\
  match r with
  | Ok _ => content s' (sp j) = None
  | Err e => content s' (sp j) = content s (sp j) /\
      (e = ErrNotExist -> dir rt committedDir ∈ fs_dirs s -> content s (sp j) = None)
  end.
Proof.
  intros [K1 K0 K2 K3 K4] Hj Hje Er. apply rename_spec in Er as [[T1 T2 T3 T4] Hr]; [|done|apply sp_cp].
  split; [|split; [done|]].
  2:{ destruct r as [u|er]; [apply Hr|]. destruct Hr as (-> & _ & Hn). by split. }
  split.
  - auto.
  - done.
  - intros p. destruct (decide (p = sp j \/ p = cp j)) as [Hp|Hp]; [intros _; exists j; auto|].
    rewrite T2; auto.
  - intros i Hi. destruct (decide (i = j)) as [->|Hne].
    + specialize (K3 j Hi). destruct r as [u|er].
      * destruct Hr as (Ha & Hn & Hc). unfold whole in *. rewrite Hn, Hc. right; left. split; [done|].
        destruct K3 as [[? ?]|[[Hx _]|[Hx _]]]; [done|by rewrite Hx in Ha; destruct Ha..].
      * destruct Hr as (Ha & Hb & _). unfold whole. by rewrite Ha, Hb.
    + unfold whole. rewrite !T2; auto.
      * by apply K3.
      * intros [E|E]; [by symmetry in E; apply sp_cp in E|]. apply cp_inj in E; [done|unfold in_range in *; lia|done].
      * intros [E|E]; [|by apply sp_cp in E]. apply sp_inj in E; [done|unfold in_range in *; lia|done].
  - intros i Hi. destruct (decide (i = j)) as [->|Hne]; [by right|]. rewrite T2; auto.
    intros [E|E]; [by symmetry in E; apply sp_cp in E|]. by apply cp_inj in E.
Qed.

(** ** Calls of the sink *)

Lemma on_os_eq {A} (m : M os_error fsys A) t s r t' s' :
  on_os m (t, s) = (r, (t', s')) -> t' = t /\ exists r', m s = (r', s') /\ r = wrap_err ErrOS r'.
Proof. unfold on_os. destruct (m s) as [r1 s1]. intros [= <- <- <-]. eauto. Qed.

Lemma on_os_ok {A} (m : M os_error fsys A) t s a t' s' :
  on_os m (t, s) = (Ok a, (t', s')) -> m s = (Ok a, s').
Proof. unfold on_os. destruct (m s) as [[b|e] s1]; by intros [= <- _ <-]. Qed.

Lemma on_os_inert {A} (m : M os_error fsys A) t s r t' s' :
  inert m -> on_os m (t, s) = (r, (t', s')) -> t' = t /\ same_files s s'.
Proof.
  intros Hm E. apply on_os_eq in E as (-> & r' & E & _). split; [done|]. specialize (Hm s). by rewrite E in Hm.
Qed.

(** The open file is staged under [p], if there is one. *)
Definition file_at (p : path) (t : Transactional) (s : fsys) : Prop :=
  match file t with None => True | Some (i, _) => names s !! p = Some i end.

Lemma flush_touches p i b s r b' s' :
  names s !! p = Some i -> bufio_Flush i (b, s) = (r, (b', s')) -> touches (fun q => q = p) s s'.
Proof.
  intros Hp. unfold bufio_Flush. destruct (werr b); [by intros [= <- <- <-]|].
  case_bool_decide; [by intros [= <- <- <-]|].
  destruct (file_Write i (pending b) s) as [[n e] s1] eqn:Ew.
  destruct (file_Write_spec p i (pending b) s n e s1 Hp Ew) as (T & _ & _).
  destruct e; by intros [= <- <- <-].
Qed.

Lemma closeEpoch_spec p t s r t' s' :
  file_at p t s -> closeEpoch (t, s) = (r, (t', s')) ->
  touches (fun q => q = p) s s' /\ t' = set_file (written t) None t /\
  (is_ok r = true -> forall i b x, file t = Some (i, b) -> holds p i x b s -> content s' p = Some x) /\
  (file t = None -> s' = s).
Proof.
  intros Hf. unfold closeEpoch, file_at in *. destruct (file t) as [[i b]|] eqn:Ef.
  2:{ intros [= <- <- <-]. split; [done|]. split; [by destruct t; cbn in *; subst|]. done. }
  unfold on_buf. rewrite Ef. destruct (bufio_Flush i (b, s)) as [r1 [b1 s1]] eqn:E1.
  pose proof (flush_touches p i b s r1 b1 s1 Hf E1) as T1.
  assert (is_ok r1 = true -> forall x, holds p i x b s -> content s1 p = Some x) as Hx.
  { intros Hok x Hh. destruct (flush_spec p i x b s r1 b1 s1 Hh E1) as (_ & _ & H1).
    destruct (H1 Hok) as [(_ & _ & c & Hc & Hp) Hn]. rewrite Hn, app_nil_r in Hp. by subst c. }
  pose proof inert_file_call as Hi. pose proof (inert_syncDir (dir (root t) stagingDir)) as Hy.
  assert (forall s2, same_files s1 s2 -> touches (fun q => q = p) s s2) as T2.
  { intros s2 Hs. etrans; [exact T1|by apply same_touches]. }
  assert (forall s2, same_files s1 s2 -> is_ok r1 = true -> forall i0 b0 x, Some (i, b) = Some (i0, b0) ->
    holds p i0 x b0 s -> content s2 p = Some x) as Hx2.
  { intros s2 Hs Hok i0 b0 x [= <- <-] Hh. rewrite (same_content s1 s2 p Hs). by apply Hx. }
  destruct r1 as [u|e]; cbn [wrap_err].
  2:{ unfold drop_file. intros [= <- <- <-]. split_and!; [apply T2, Hi|done|done|done]. }
  pose proof (Hi s1) as H2. destruct (file_call s1) as [[u2|e2] s2]; cbn in H2.
  2:{ unfold drop_file. intros [= <- <- <-]. split_and!; [|done..]. apply T2. etrans; [exact H2|apply Hi]. }
  pose proof (Hi s2) as H3. destruct (file_call s2) as [[u3|e3] s3]; cbn in H3.
  2:{ unfold drop_file. intros [= <- <- <-]. split_and!; [|done..]. apply T2. by etrans. }
  unfold drop_file. intros E4. apply on_os_inert in E4 as [-> H4]; [|apply Hy].
  assert (same_files s1 s') as H5 by (etrans; [exact H2|etrans; [exact H3|exact H4]]).
  split_and!; [by apply T2|done| |done]. intros _. by apply Hx2.
Qed.

(** ** A run in progress *)

Context (k : Z) (R0 : Z -> list Record_).

Definition epoch_of (l : list sink_op) : Z := k + 1 + snapshots l.

(** What the epochs below the current one hold. *)
Definition contents_of (l : list sink_op) (j : Z) : list Record_ :=
  if decide (j <= k) then R0 j else default [] (closed l !! Z.to_nat (j - k - 1)).

Definition allowed (l : list sink_op) (j : Z) : Prop := j <= k \/ notified l j.

Abbreviation kept_at l := (kept (epoch_of l) (contents_of l) (allowed l)).

Record alive (l : list sink_op) (t : Transactional) (s : fsys) : Prop := {
  a_kept : kept_at l s;
  a_ident : ident t;
  a_epoch : epoch t = epoch_of l;
  a_first : firstEpoch t = k + 1;
  a_dirs : dir rt committedDir ∈ fs_dirs s;
  a_file : match file t with
           | None => content s (sp (epoch_of l)) = None /\ current l = []
           | Some (i, b) => holds (sp (epoch_of l)) i (encodeRecords (current l)) b s
           end;
  a_above j : in_range j -> epoch_of l < j -> content s (sp j) = None;
  a_below j : 1 <= j <= k -> content s (sp j) = None;
}.

(** What is left when an operation has failed. *)
Definition dying (l : list sink_op) (t : Transactional) (s : fsys) : Prop :=
  kept_at l s /\ file_at (sp (epoch_of l)) t s.

Lemma alive_file_at l t s : alive l t s -> file_at (sp (epoch_of l)) t s.
Proof.
  intros [_ _ _ _ _ Hf _ _]. unfold file_at. destruct (file t) as [[i b]|]; [|done]. by destruct Hf.
Qed.

Lemma alive_dying l t s : alive l t s -> dying l t s.
Proof. intros Ha. split; [apply Ha|by apply alive_file_at]. Qed.

Context (Hk : 0 <= k).

Lemma snapshots_nonneg l : 0 <= snapshots l.
Proof. unfold snapshots. lia. Qed.

Lemma snapshots_mono l1 l2 : snapshots l1 <= snapshots (l1 ++ l2).
Proof.
  unfold snapshots, closed, epochs. rewrite foldl_app. generalize (foldl epoch_step ([], []) l1). intros es.
  revert es. induction l2 as [|o l2 IH]; intros es; [done|]. cbn [foldl]. etrans; [|apply IH].
  destruct o; cbn; rewrite ?length_app; lia.
Qed.

Lemma epoch_of_mono l1 l2 : epoch_of l1 <= epoch_of (l1 ++ l2).
Proof. unfold epoch_of. pose proof (snapshots_mono l1 l2). lia. Qed.

Lemma epoch_in_range l s : kept_at l s -> in_range (epoch_of l).
Proof.
  intros K. pose proof (k_bound _ _ _ _ K). pose proof (snapshots_nonneg l). unfold in_range, epoch_of in *. lia.
Qed.

Lemma dying_close l t s : dying l t s -> kept_at l (Close (t, s)).2.2.
Proof.
  intros [K Hf]. unfold Close. destruct (closeEpoch (t, s)) as [r [t' s']] eqn:E. cbn.
  destruct (closeEpoch_spec _ t s r t' s' Hf E) as (T & _).
  pose proof (epoch_in_range l s K). eapply kept_touch; [exact K|exact T|done|lia].
Qed.

(** ** Write *)

Lemma closed_write l r : closed (l ++ [OpWrite r]) = closed l.
Proof. unfold closed. by rewrite epochs_snoc. Qed.
Lemma current_write l r : current (l ++ [OpWrite r]) = current l ++ [r].
Proof. unfold current. by rewrite epochs_snoc. Qed.
Lemma closed_notify l id : closed (l ++ [OpNotify id]) = closed l.
Proof. unfold closed. by rewrite epochs_snoc. Qed.
Lemma current_notify l id : current (l ++ [OpNotify id]) = current l.
Proof. unfold current. by rewrite epochs_snoc. Qed.
Lemma closed_snapshot l : closed (l ++ [OpSnapshot]) = closed l ++ [current l].
Proof. unfold closed. by rewrite epochs_snoc. Qed.
Lemma current_snapshot l : current (l ++ [OpSnapshot]) = [].
Proof. unfold current. by rewrite epochs_snoc. Qed.

Lemma notified_snoc l o id : notified (l ++ [o]) id <-> notified l id \/ o = OpNotify id.
Proof. unfold notified. rewrite elem_of_app, list_elem_of_singleton. naive_solver. Qed.

Lemma alive_openEpoch l t s r t' s' :
  alive l t s -> file t = None -> openEpoch (t, s) = (r, (t', s')) ->
  (is_ok r = true -> alive l t' s' /\ is_Some (file t')) /\ (is_ok r = false -> dying l t' s').
Proof.
  intros Ha Hf. pose proof Ha as [K Hi He Hfe Hd Hfile Hab Hbe]. rewrite Hf in Hfile. destruct Hfile as [Hc Hcur].
  unfold openEpoch, mbind, M_bind, get_sink, set_sink, modify. rewrite (staging_sp t), He by done.
  destruct (on_os (os_Create (sp (epoch_of l))) (t, s)) as [r1 [t1 s1]] eqn:E1.
  apply on_os_eq in E1 as (-> & r2 & E1 & ->). pose proof (k_wf _ _ _ _ K) as Hwf.
  apply create_spec in E1 as [T Hr]; [|done]. pose proof (epoch_in_range l s K) as Her.
  assert (kept_at l s1) as K1 by (eapply kept_touch; [exact K|exact T|done|lia]).
  destruct r2 as [i|e]; cbn [wrap_err]; intros [= <- <- <-]; (split; [|try done]); try done.
  2:{ intros _. split; [done|]. unfold file_at. by rewrite Hf. }
  intros _. split; [|done]. destruct Hr as [Hn Hcc]. split; cbn [file set_file root vertexID index epoch firstEpoch]; try done.
  - by apply (to_dirs _ _ _ T).
  - split; [done|]. split; [done|]. exists []. rewrite Hcur. done.
  - intros j Hj Hlt. rewrite (to_content _ _ _ T); [by apply Hab|done|].
    intros E. apply sp_inj in E; [lia|done|done].
  - intros j Hj. rewrite (to_content _ _ _ T); [by apply Hbe|done|].
    intros E. unfold epoch_of, in_range in *. pose proof (snapshots_nonneg l).
    apply sp_inj in E; [lia| |done]. unfold in_range; lia.
Qed.

(** The invariant says the same after an operation that closes nothing. *)
Lemma kept_at_same_epochs l l' s :
  closed l' = closed l -> (forall id, notified l id -> notified l' id) -> kept_at l s -> kept_at l' s.
Proof.
  intros Ec Hn K. unfold epoch_of, contents_of, snapshots. rewrite Ec. eapply kept_weaken; [exact K|done|done|].
  intros j _ [?|?]; [by left|right; auto].
Qed.

Lemma alive_on_buf l t s i b rec r t' s' :
  alive l t s -> file t = Some (i, b) ->
  on_buf (fun i => bufio_Write i (encodeRecord rec)) (t, s) = (r, (t', s')) ->
  (is_ok r = true -> alive (l ++ [OpWrite rec]) t' s') /\ (is_ok r = false -> dying l t' s').
Proof.
  intros Ha Hf. pose proof Ha as [K Hi He Hfe Hd Hfile Hab Hbe]. rewrite Hf in Hfile.
  unfold on_buf. rewrite Hf. destruct (bufio_Write i (encodeRecord rec) (b, s)) as [r1 [b1 s1]] eqn:E1.
  apply (bufio_Write_spec _ _ _ _ _ _ _ _ _ Hfile) in E1 as (T & En & Hr). pose proof (epoch_in_range l s K) as Her.
  assert (kept_at l s1) as K1 by (eapply kept_touch; [exact K|exact T|done|lia]).
  intros [= <- <- <-]. pose proof (k_wf _ _ _ _ K) as Hwf.
  destruct r1 as [[]|e]; cbn [wrap_err is_ok]; split; try done.
  2:{ intros _. split; [done|]. unfold file_at. cbn. rewrite En. apply Hfile. }
  intros _. specialize (Hr eq_refl).
  assert (epoch_of (l ++ [OpWrite rec]) = epoch_of l) as Ee by (unfold epoch_of, snapshots; by rewrite closed_write).
  split; rewrite ?Ee; cbn [file set_file root vertexID index epoch firstEpoch]; try done.
  - rewrite <- Ee. apply (kept_at_same_epochs l); [apply closed_write| |done]. intros id ?. apply notified_snoc. by left.
  - by apply (to_dirs _ _ _ T).
  - rewrite current_write, encodeRecords_app. cbn. by rewrite app_nil_r.
  - intros j Hj Hlt. rewrite (to_content _ _ _ T); [by apply Hab|done|].
    intros E. apply sp_inj in E; [lia|done|done].
  - intros j Hj. rewrite (to_content _ _ _ T); [by apply Hbe|done|].
    intros E. unfold epoch_of, in_range in *. pose proof (snapshots_nonneg l).
    apply sp_inj in E; [lia| |done]. unfold in_range; lia.
Qed.

Lemma alive_Write l t s rec r t' s' :
  alive l t s -> Write rec (t, s) = (r, (t', s')) ->
  (is_ok r = true -> alive (l ++ [OpWrite rec]) t' s') /\
  (is_ok r = false -> dying l t' s').
Proof.
  intros Ha. unfold Write, mbind, M_bind, get_sink. destruct (file t) as [[i b]|] eqn:Ef.
  - intros Er. by eapply alive_on_buf.
  - destruct (openEpoch (t, s)) as [r1 [t1 s1]] eqn:E1.
    destruct (alive_openEpoch l t s r1 t1 s1 Ha Ef E1) as [Hok Herr].
    destruct r1 as [[]|e].
    + destruct (Hok eq_refl) as [Ha1 [[i b] Hf1]]. intros Er. by eapply alive_on_buf.
    + intros [= <- <- <-]. split; [done|]. auto.
Qed.

(** ** Snapshot *)

Lemma contents_of_snapshot l j : k < j < epoch_of l -> contents_of (l ++ [OpSnapshot]) j = contents_of l j.
Proof.
  intros Hj. unfold contents_of. rewrite decide_False by lia. rewrite decide_False by lia.
  rewrite closed_snapshot, lookup_app_l; [done|]. unfold epoch_of, snapshots in Hj. lia.
Qed.

Lemma contents_of_closed l : contents_of (l ++ [OpSnapshot]) (epoch_of l) = current l.
Proof.
  unfold contents_of, epoch_of, snapshots. rewrite decide_False by lia.
  replace (Z.to_nat (k + 1 + Z.of_nat (length (closed l)) - k - 1)) with (length (closed l)) by lia.
  by rewrite closed_snapshot, list_lookup_middle.
Qed.

(** No epoch above the last acknowledged one has been committed. *)
Lemma not_committed l s :
  kept_at l s -> well_notified k l -> content s (cp (epoch_of l)) = None.
Proof.
  intros K Hw. apply eq_None_not_Some. intros Hc. pose proof (snapshots_nonneg l).
  apply (k_committed _ _ _ _ K) in Hc as [?|Hn]; [unfold epoch_of in *; lia| |by eapply epoch_in_range].
  unfold notified in Hn. apply list_elem_of_split in Hn as (l1 & l2 & E). pose proof (Hw _ _ _ E) as Hr.
  assert (snapshots l1 <= snapshots l); [|unfold epoch_of in *; lia].
  rewrite E. unfold snapshots, closed, epochs. rewrite foldl_app. generalize (foldl epoch_step ([], []) l1). intros es.
  assert (forall l es, (length es.1 <= length (foldl epoch_step es l).1)%nat) as Hm; [|specialize (Hm (OpNotify (epoch_of l) :: l2) es); lia].
  clear. induction l as [|o l IH]; intros es; [done|]. cbn. etrans; [|apply IH].
  destruct o; cbn; rewrite ?length_app; lia.
Qed.

Lemma closed_whole l t s r t' s' :
  alive l t s -> well_notified k l -> closeEpoch (t, s) = (r, (t', s')) ->
  kept_at l s' /\ t' = set_file (written t) None t /\ dir rt committedDir ∈ fs_dirs s' /\
  (forall j, in_range j -> j <> epoch_of l -> content s' (sp j) = content s (sp j)) /\
  (is_ok r = true -> whole s' (epoch_of l) (current l)).
Proof.
  intros Ha Hw E. pose proof Ha as [K Hi He Hfe Hd Hfile Hab Hbe].
  pose proof (epoch_in_range l s K) as Her. pose proof (k_wf _ _ _ _ K) as Hwf.
  destruct (closeEpoch_spec _ t s r t' s' (alive_file_at l t s Ha) E) as (T & -> & Hx & Hn).
  assert (kept_at l s') as K' by (eapply kept_touch; [exact K|exact T|done|lia]).
  split_and!; [done|done|by apply (to_dirs _ _ _ T)| |].
  - intros j Hj Hne. apply (to_content _ _ _ T); [done|]. intros Es. by apply sp_inj in Es.
  - intros Hok. pose proof (not_committed l s' K' Hw) as Hc. unfold whole. rewrite Hc.
    destruct (file t) as [[i b]|] eqn:Ef.
    + left. split; [|done]. by eapply Hx.
    + right; right. rewrite Hn by done. by destruct Hfile.
Qed.

Lemma alive_Snapshot l t s r t' s' :
  alive l t s -> well_notified k l -> epoch_of l < max_int64 -> Snapshot (t, s) = (r, (t', s')) ->
  (is_ok r = true -> alive (l ++ [OpSnapshot]) t' s') /\ (is_ok r = false -> dying l t' s').
Proof.
  intros Ha Hw Hm. pose proof Ha as [K Hi He Hfe Hd Hfile Hab Hbe].
  unfold Snapshot, mbind, M_bind, get_sink, set_sink, modify, mret, M_ret.
  destruct (closeEpoch (t, s)) as [r1 [t1 s1]] eqn:E1.
  destruct (closed_whole l t s r1 t1 s1 Ha Hw E1) as (K1 & -> & Hd1 & Hoth & Hwh).
  destruct r1 as [[]|e]; intros [= <- <- <-]; (split; [|try done]); try done.
  intros _. specialize (Hwh eq_refl). pose proof (epoch_in_range l s K) as Her.
  assert (epoch_of (l ++ [OpSnapshot]) = epoch_of l + 1) as Ee.
  { unfold epoch_of, snapshots. rewrite closed_snapshot, length_app. cbn. lia. }
  split; rewrite ?Ee; cbn [file set_file set_epochs root vertexID index epoch firstEpoch]; try done.
  - rewrite <- Ee. pose proof K1 as [W1 W0 W2 W3 W4]. split.
    + done.
    + lia.
    + done.
    + rewrite Ee. intros j Hj. destruct (decide (j = epoch_of l)) as [->|Hne].
      * by rewrite contents_of_closed.
      * specialize (W3 j ltac:(lia)). destruct (decide (j <= k)).
        -- unfold contents_of in *. rewrite decide_True in * by done. done.
        -- rewrite contents_of_snapshot by lia. done.
    + intros j Hj Hc. destruct (W4 j Hj Hc) as [?|Hn]; [by left|]. right. apply notified_snoc. by left.
  - rewrite He. apply add64_id. unfold in_range in *. unfold_ints. lia.
  - rewrite current_snapshot. split; [|done]. rewrite Hoth; [apply Hab|..]; unfold in_range in *; lia.
  - intros j Hj Hlt. rewrite Hoth; [apply Hab; [done|lia]|done|lia].
  - intros j Hj. pose proof (snapshots_nonneg l).
    rewrite Hoth; [by apply Hbe|..]; unfold epoch_of, in_range in *; lia.
Qed.

(** ** Notify *)

Lemma notify_cases t s id r t' s' :
  ident t -> NotifyCheckpointComplete id (t, s) = (r, (t', s')) ->
  t' = t /\ exists r1 s1, os_Rename (sp id) (cp id) s = (r1, s1) /\ same_files s1 s'.
Proof.
  intros Hi. unfold NotifyCheckpointComplete, mbind, M_bind, get_sink, try_os, fail.
  rewrite (staging_sp t), (committed_cp t) by done.
  destruct (os_Rename (sp id) (cp id) s) as [r1 s1] eqn:E1. destruct r1 as [u|[|]].
  - intros E2. apply on_os_inert in E2 as [-> Hs]; [|apply inert_syncDir]. split; [done|]. eauto.
  - pose proof (inert_Stat (cp id) s1) as Hs. destruct (os_Stat (cp id) s1) as [r2 s2]. cbn in Hs.
    destruct r2 as [u|e]; [intros [= _ <- <-]; eauto 6|].
    destruct (_ && _); intros [= _ <- <-]; eauto 6.
  - intros [= _ <- <-]. split; [done|]. exists (Err EIO), s1. done.
Qed.

Lemma alive_Notify l t s id r t' s' :
  alive l t s -> 1 <= id < epoch_of l -> NotifyCheckpointComplete id (t, s) = (r, (t', s')) ->
  alive (l ++ [OpNotify id]) t' s'.
Proof.
  intros Ha Hid E. pose proof Ha as [K Hi He Hfe Hd Hfile Hab Hbe].
  apply notify_cases in E as (-> & r1 & s1 & E & Hs); [|done]. pose proof (epoch_in_range l s K) as Her.
  apply (kept_rename _ _ _ _ _ _ _ K) in E as (K1 & T & Hstg); [|unfold in_range in *; lia|lia].
  pose proof (k_wf _ _ _ _ K) as Hwf.
  assert (epoch_of (l ++ [OpNotify id]) = epoch_of l) as Ee by (unfold epoch_of, snapshots; by rewrite closed_notify).
  assert (forall j, in_range j -> j <> id -> content s' (sp j) = content s (sp j)) as Hoth.
  { intros j Hj Hne. rewrite (same_content s1 s' _ Hs). apply (to_content _ _ _ T); [done|].
    intros [Es|Es]; [|by apply sp_cp in Es]. apply sp_inj in Es; [done|done|unfold in_range in *; lia]. }
  split; rewrite ?Ee; try done.
  - eapply kept_same; [|exact Hs]. rewrite <- Ee. unfold contents_of, epoch_of, snapshots. rewrite closed_notify.
    eapply kept_weaken; [exact K1|done|done|]. intros j _ [[?|Hn]| ->]; [by left|right..]; apply notified_snoc; auto.
  - destruct Hs as (_ & _ & _ & Hds). apply Hds. by apply (to_dirs _ _ _ T).
  - rewrite current_notify. destruct (file t) as [[i b]|].
    + destruct Hfile as (Hn & Hb & c & Hc & Hx). split; [|split; [done|]].
      * destruct Hs as (-> & _). rewrite (to_names _ _ _ T); [done|].
        intros [Es|Es]; [|by apply sp_cp in Es]. apply sp_inj in Es; [lia|done|unfold in_range in *; lia].
      * exists c. split; [|done]. rewrite Hoth; [done|done|lia].
    + destruct Hfile. split; [|done]. rewrite Hoth; [done|done|lia].
  - intros j Hj Hlt. rewrite Hoth; [by apply Hab|done|lia].
  - intros j Hj. unfold epoch_of in *. pose proof (snapshots_nonneg l).
    destruct (decide (j = id)) as [->|Hne].
    + rewrite (same_content s1 s' _ Hs). destruct r1 as [u|e]; [done|]. destruct Hstg as [-> _]. by apply Hbe.
    + rewrite Hoth; [by apply Hbe| |done]. unfold in_range in *. lia.
Qed.

(** ** Sequences of operations *)

Lemma well_notified_app l1 l2 : well_notified k (l1 ++ l2) -> well_notified k l1.
Proof. intros Hw a id b ->. apply (Hw a id (b ++ l2)). by rewrite <- app_assoc. Qed.

Lemma epoch_of_snoc l o : epoch_of l <= epoch_of (l ++ [o]) <= epoch_of l + 1.
Proof.
  unfold epoch_of, snapshots. destruct o; rewrite ?closed_write, ?closed_snapshot, ?closed_notify, ?length_app; cbn; lia.
Qed.

Lemma run_op_alive l o t s r t' s' :
  alive l t s -> well_notified k (l ++ [o]) -> epoch_of l < max_int64 -> run_op o (t, s) = (r, (t', s')) ->
  (is_ok r = true -> alive (l ++ [o]) t' s') /\ (is_ok r = false -> dying l t' s').
Proof.
  intros Ha Hw Hm. destruct o as [rec| |id]; cbn [run_op].
  - by apply alive_Write.
  - unfold mbind at 1, M_bind at 1. destruct (Snapshot (t, s)) as [r1 [t1 s1]] eqn:E1.
    pose proof (alive_Snapshot l t s r1 t1 s1 Ha (well_notified_app _ _ Hw) Hm E1) as [H1 H2].
    destruct r1 as [p|e]; intros [= <- <- <-]; split; try done; auto.
  - destruct (NotifyCheckpointComplete id (t, s)) as [r1 [t1 s1]] eqn:E1. intros [= <- <- <-]. split; [|done].
    intros _. eapply alive_Notify; [exact Ha| |exact E1]. specialize (Hw l id [] eq_refl). unfold epoch_of. lia.
Qed.

Lemma run_ops_alive l l0 t s n t' s' :
  alive l0 t s -> well_notified k (l0 ++ l) -> epoch_of (l0 ++ l) < max_int64 ->
  run_ops l (t, s) = (n, (t', s')) -> dying (l0 ++ take n l) t' s'.
Proof.
  revert l0 t s n. induction l as [|o l IH]; intros l0 t s n Ha Hw Hm; cbn [run_ops].
  { intros [= <- <- <-]. rewrite take_nil, app_nil_r. by apply alive_dying. }
  destruct (run_op o (t, s)) as [r1 [t1 s1]] eqn:E1. pose proof (epoch_of_mono l0 (o :: l)).
  replace (l0 ++ o :: l) with ((l0 ++ [o]) ++ l) in * by by rewrite <- app_assoc.
  destruct (run_op_alive l0 o t s r1 t1 s1 Ha (well_notified_app _ _ Hw) ltac:(lia) E1) as [H1 H2].
  destruct r1 as [[]|e].
  - destruct (run_ops l (t1, s1)) as [n2 [t2 s2]] eqn:E2. intros [= <- <- <-]. cbn [take].
    replace (l0 ++ o :: take n2 l) with ((l0 ++ [o]) ++ take n2 l) by by rewrite <- app_assoc.
    eapply IH; [by apply H1|exact Hw|exact Hm|exact E2].
  - intros [= <- <- <-]. cbn [take]. rewrite app_nil_r. auto.
Qed.

Lemma run_all_alive l l0 t s t' s' :
  alive l0 t s -> well_notified k (l0 ++ l) -> epoch_of (l0 ++ l) < max_int64 ->
  for_each run_op l (t, s) = (Ok tt, (t', s')) -> alive (l0 ++ l) t' s'.
Proof.
  revert l0 t s. induction l as [|o l IH]; intros l0 t s Ha Hw Hm.
  { intros [= <- <-]. by rewrite app_nil_r. }
  rewrite for_each_cons. destruct (run_op o (t, s)) as [r1 [t1 s1]] eqn:E1. pose proof (epoch_of_mono l0 (o :: l)).
  replace (l0 ++ o :: l) with ((l0 ++ [o]) ++ l) in * by by rewrite <- app_assoc.
  destruct (run_op_alive l0 o t s r1 t1 s1 Ha (well_notified_app _ _ Hw) ltac:(lia) E1) as [H1 _].
  destruct r1 as [[]|e]; [|done]. apply IH; [by apply H1|done..].
Qed.

(** ** Open and Restore *)

Abbreviation kept_cut := (kept (k + 1) R0 (fun j => j <= k)).

Lemma inert_MkdirAll d : inert (os_MkdirAll d).
Proof. apply inert_sys. intros s. split_and!; [done..|]. cbn. set_solver. Qed.

Lemma MkdirAll_ok d s s' : os_MkdirAll d s = (Ok tt, s') -> d ∈ fs_dirs s'.
Proof.
  intros E. unfold os_MkdirAll in E. apply sys_cases in E as [[? _]|[l [= <-]]]; [done|]. cbn. set_solver.
Qed.

Definition started : Transactional := MkTransactional rt v ix 1 1 ∅ true None.

Lemma Open_spec s r t' s' :
  Open (v, ix) (NewTransactional rt, s) = (r, (t', s')) ->
  same_files s s' /\ t' = started /\
  (is_ok r = true -> dir rt stagingDir ∈ fs_dirs s' /\ dir rt committedDir ∈ fs_dirs s').
Proof.
  unfold Open, NewTransactional, mbind, M_bind, get_sink, set_sink, modify, lift.
  cbn [opened fst snd root epoch firstEpoch written file].
  destruct (checkVertexID v) as [[]|e]; [|by intros [= <- <- <-]].
  rewrite !for_each_cons. fold started.
  destruct (on_os (os_MkdirAll (dir rt stagingDir)) (started, s)) as [r1 [t1 s1]] eqn:E1.
  pose proof (on_os_inert _ _ _ _ _ _ (inert_MkdirAll _) E1) as [-> S1].
  destruct r1 as [[]|e1]; [|by intros [= <- <- <-]].
  apply on_os_ok, MkdirAll_ok in E1. cbv beta iota. rewrite ?for_each_cons.
  destruct (on_os (os_MkdirAll (dir rt committedDir)) (started, s1)) as [r2 [t2 s2]] eqn:E2.
  pose proof (on_os_inert _ _ _ _ _ _ (inert_MkdirAll _) E2) as [-> S2].
  destruct r2 as [[]|e2]; cbv beta iota; [|intros [= <- <- <-]; split; [by etrans|done]].
  apply on_os_ok, MkdirAll_ok in E2.
  cbn [for_each mret M_ret].
  intros E3. apply on_os_inert in E3 as [-> S3]; [|apply inert_syncDir].
  split; [by etrans; [exact S1|etrans]|]. split; [done|]. intros _.
  destruct S2 as (_ & _ & _ & D2), S3 as (_ & _ & _ & D3). set_solver.
Qed.

Lemma elem_of_listing d s n : n ∈ listing d s <-> is_Some (names s !! (d, n)).
Proof.
  unfold listing. rewrite merge_sort_Permutation, list_elem_of_omap. split.
  - intros ([d' n'] & Hin%elem_of_elements%elem_of_dom & Hb). cbn in Hb.
    case_bool_decide; [|done]. injection Hb as <-. by subst.
  - intros Hs. exists (d, n). rewrite elem_of_elements, elem_of_dom. split; [done|]. cbn. by rewrite bool_decide_true.
Qed.

Lemma sp_eta j : (dir rt stagingDir, (sp j).2) = sp j.
Proof. done. Qed.

Lemma settle_one_spec t j flags s r t' s' :
  ident t -> kept_cut s -> in_range j -> dir rt committedDir ∈ fs_dirs s ->
  settle_one t k (sp j).2 flags (t, s) = (r, (t', s')) ->
  t' = t /\ kept_cut s' /\ fs_dirs s ⊆ fs_dirs s' /\
  (forall i, in_range i -> content s (sp i) = None -> content s' (sp i) = None) /\
  (is_ok r = true -> content s' (sp j) = None).
Proof.
  intros Hi K Hj Hd. pose proof (k_wf _ _ _ _ K) as Hwf. unfold settle_one.
  assert (checkpointOf t (sp j).2 = Some j) as ->.
  { destruct Hi as (_ & Ev & Ei). rewrite <- (checkpointOf_own t j); [|unfold in_range in *; lia].
    unfold sp, fileName. cbn [snd]. by rewrite Ev, Ei. }
  replace (root t) with rt by by destruct Hi.
  rewrite (committed_cp t) by done. rewrite sp_eta.
  unfold mbind, M_bind, try_os, fail, mret, M_ret.
  destruct (Z.ltb_spec k j).
  - destruct (os_Remove (sp j) s) as [r1 s1] eqn:E1.
    pose proof (remove_spec _ _ _ _ Hwf E1) as [T Hr]. assert (kept_cut s1) as K1 by (eapply kept_touch; [exact K|exact T|done|lia]).
    assert (forall i, in_range i -> content s (sp i) = None -> content s1 (sp i) = None) as Hn.
    { intros i Hir Hc. destruct (decide (i = j)) as [->|Hne].
      - destruct r1 as [u|e]; [done|]. by destruct Hr as [-> _].
      - rewrite (to_content _ _ _ T); [done|done|]. intros E. by apply sp_inj in E. }
    pose proof (to_dirs _ _ _ T) as Td.
    destruct r1 as [u|[|]]; intros [= <- <- <-]; split_and!; try done.
    intros _. destruct Hr as [-> Hr]. by apply Hr.
  - destruct (os_Rename (sp j) (cp j) s) as [r1 s1] eqn:E1.
    pose proof (kept_rename _ _ _ _ _ _ _ K Hj ltac:(lia) E1) as (K1 & T & Hr).
    assert (kept_cut s1) as K2.
    { eapply kept_weaken; [exact K1|done|done|]. intros i _ [?|?]; lia. }
    assert (forall i, in_range i -> content s (sp i) = None -> content s1 (sp i) = None) as Hn.
    { intros i Hir Hc. destruct (decide (i = j)) as [->|Hne].
      - destruct r1 as [u|e]; [done|]. by destruct Hr as [-> _].
      - rewrite (to_content _ _ _ T); [done|done|]. intros [E|E]; [by apply sp_inj in E|by apply sp_cp in E]. }
    pose proof (to_dirs _ _ _ T) as Td.
    destruct r1 as [u|[|]]; intros [= <- <- <-]; split_and!; try done.
    intros _. destruct Hr as [-> Hr]. by apply Hr.
Qed.

Lemma settle_all_spec t l flags s r t' s' :
  ident t -> kept_cut s -> dir rt committedDir ∈ fs_dirs s ->
  (forall n, n ∈ l -> exists j, in_range j /\ n = (sp j).2) ->
  settle_all t k l flags (t, s) = (r, (t', s')) ->
  t' = t /\ kept_cut s' /\ fs_dirs s ⊆ fs_dirs s' /\
  (forall i, in_range i -> content s (sp i) = None -> content s' (sp i) = None) /\
  (is_ok r = true -> forall j, in_range j -> (sp j).2 ∈ l -> content s' (sp j) = None).
Proof.
  intros Hi. revert flags s. induction l as [|n l IH]; intros flags s K Hd Hl; cbn [settle_all].
  { intros [= <- <- <-]. split_and!; [done..|]. intros _ j _ Hin. by apply elem_of_nil in Hin. }
  destruct (Hl n) as (j & Hj & ->); [by left|]. unfold mbind, M_bind.
  destruct (settle_one t k (sp j).2 flags (t, s)) as [r1 [t1 s1]] eqn:E1.
  apply settle_one_spec in E1 as (-> & K1 & D1 & N1 & C1); [|done..].
  destruct r1 as [fl|e]; [|intros [= <- <- <-]; split_and!; try done].
  intros E2. apply IH in E2 as (-> & K2 & D2 & N2 & C2); [|done|set_solver|intros; apply Hl; by right].
  split_and!; [done|done|set_solver|auto|].
  intros Hok i Hir [En|Hin]%elem_of_cons; [|by apply C2].
  assert (sp i = sp j) as Es by (rewrite <- (sp_eta i), <- (sp_eta j); by rewrite En).
  apply N2; [done|]. rewrite Es. by apply C1.
Qed.

Lemma staged_name s n : kept_cut s -> is_Some (names s !! (dir rt stagingDir, n)) -> exists j, in_range j /\ n = (sp j).2.
Proof.
  intros K [i Hn]. destruct (k_own _ _ _ _ K (dir rt stagingDir, n)) as (j & Hj & [E|E]).
  - eapply content_Some; [apply K|exact Hn].
  - exists j. split; [done|]. by injection E.
  - exfalso. unfold cp in E. injection E as E _. by apply dirs_differ in E.
Qed.

Lemma settleStaged_spec t s r t' s' :
  ident t -> kept_cut s -> dir rt stagingDir ∈ fs_dirs s -> dir rt committedDir ∈ fs_dirs s ->
  settleStaged k (t, s) = (r, (t', s')) ->
  t' = t /\ kept_cut s' /\ fs_dirs s ⊆ fs_dirs s' /\
  (is_ok r = true -> forall j, in_range j -> content s' (sp j) = None).
Proof.
  intros Hi K Hds Hdc. unfold settleStaged, mbind, M_bind, get_sink, try_os, fail, mret, M_ret.
  replace (root t) with rt by by destruct Hi.
  destruct (os_ReadDir (dir rt stagingDir) s) as [r1 s1] eqn:E1.
  pose proof (inert_ReadDir (dir rt stagingDir) s) as S1. rewrite E1 in S1. cbn in S1.
  pose proof (kept_same _ _ _ _ _ K S1) as K1. assert (fs_dirs s ⊆ fs_dirs s1) as D1 by apply S1.
  unfold os_ReadDir in E1. apply sys_cases in E1 as [[-> _]|[script E1]]; [by intros [= <- <- <-]|].
  apply exists_dir_cases in E1 as [(_ & _ & Hn)|[E1 _]]; [by destruct Hn|].
  injection E1 as <- _.
  destruct (settle_all t k _ _ (t, s1)) as [r2 [t2 s2]] eqn:E2.
  apply settle_all_spec in E2 as (-> & K2 & D2 & N2 & C2); [|done|done|set_solver|].
  2:{ intros n Hn%elem_of_listing. by apply (staged_name s). }
  assert (is_ok r2 = true -> forall j, in_range j -> content s2 (sp j) = None) as Hnone.
  { intros Hok j Hj. destruct (content s1 (sp j)) as [c|] eqn:Ec; [|by apply N2].
    apply C2; [done|done|]. apply elem_of_listing. rewrite sp_eta.
    rewrite (same_content s s1 _ S1) in Ec. unfold content in Ec. cbn. destruct (names s !! sp j); [eauto|done]. }
  destruct r2 as [fl|e]; [|intros [= <- <- <-]; split_and!; [done|done|set_solver|done]].
  assert (exists r3 s3, (if fl.1 then on_os (syncDir (dir rt committedDir)) else fun s => (Ok tt, s)) (t, s2) = (r3, (t, s3)) /\ same_files s2 s3)
    as (r3 & s3 & -> & S3).
  { destruct fl.1; [|by exists (Ok tt), s2].
    destruct (on_os (syncDir (dir rt committedDir)) (t, s2)) as [r3 [t3 s3]] eqn:E3.
    apply on_os_inert in E3 as [-> S3]; [|apply inert_syncDir]. eauto. }
  pose proof (kept_same _ _ _ _ _ K2 S3) as K3. assert (fs_dirs s2 ⊆ fs_dirs s3) as D3 by apply S3.
  assert (forall j, in_range j -> content s3 (sp j) = None) as Hn3.
  { intros j Hj. rewrite (same_content s2 s3 _ S3). by apply Hnone. }
  destruct r3 as [u|e]; [|intros [= <- <- <-]; split_and!; [done|done|set_solver|done]].
  destruct (fl.1 || fl.2); [|intros [= <- <- <-]; split_and!; [done|done|set_solver|done]].
  intros E4. apply on_os_inert in E4 as [-> S4]; [|apply inert_syncDir].
  pose proof (kept_same _ _ _ _ _ K3 S4) as K4. assert (fs_dirs s3 ⊆ fs_dirs s') as D4 by apply S4.
  split_and!; [done|done|set_solver|]. intros _ j Hj. rewrite (same_content s3 s' _ S4). by apply Hn3.
Qed.

Lemma payload_cut : k < max_int64 ->
  (if bool_decide (length (payload_of_cut k) = 0%nat) then Ok 0
   else if bool_decide (length (payload_of_cut k) = 8%nat) then Ok (i64 (uint64 (payload_of_cut k)))
   else Err (ErrPayloadLength (length (payload_of_cut k)))) = Ok (E := sink_error) k.
Proof.
  intros Hm. unfold payload_of_cut. destruct (Z.eqb_spec k 0) as [->|Hne]; [done|].
  rewrite length_put_uint64. rewrite bool_decide_false by lia. rewrite bool_decide_true by done.
  rewrite uint64_put', i64_u64, i64_id; [done|]. unfold_ints. lia.
Qed.

Lemma start_alive s r t' s' :
  kept_cut s -> k + 1 < max_int64 -> start_sink (v, ix) k (NewTransactional rt, s) = (r, (t', s')) ->
  (is_ok r = true -> alive [] t' s') /\ (is_ok r = false -> kept_cut s' /\ file t' = None).
Proof.
  intros K Hm. unfold start_sink. unfold mbind at 1, M_bind at 1.
  destruct (Open (v, ix) (NewTransactional rt, s)) as [r1 [t1 s1]] eqn:E1.
  apply Open_spec in E1 as (S1 & -> & D1). pose proof (kept_same _ _ _ _ _ K S1) as K1.
  destruct r1 as [[]|e1]; [|intros [= <- <- <-]; by split]. destruct (D1 eq_refl) as [Ds Dc].
  unfold Restore, lift, mbind, M_bind. rewrite payload_cut by lia.
  destruct (Z.ltb_spec k 0); [lia|].
  destruct (settleStaged k (started, s1)) as [r2 [t2 s2]] eqn:E2.
  apply settleStaged_spec in E2 as (-> & K2 & D2 & N2); [|done..].
  destruct r2 as [[]|e2]; [|intros [= <- <- <-]; by split].
  unfold set_sink, modify. intros [= <- <- <-]. split; [|done]. intros _.
  assert (epoch_of [] = k + 1) as Ee by (unfold epoch_of, snapshots; cbn; lia).
  split; rewrite ?Ee; cbn [file set_epochs root vertexID index epoch firstEpoch started]; try done.
  - eapply kept_weaken; [exact K2|done| |by left]. intros j Hj. unfold contents_of. by rewrite decide_True by lia.
  - apply add64_id. unfold_ints. lia.
  - apply add64_id. unfold_ints. lia.
  - set_solver.
  - split; [|done]. apply N2; [done|]. unfold in_range. lia.
  - intros j Hj _. by apply N2.
  - intros j Hj. apply N2; [done|]. unfold in_range. lia.
Qed.

Lemma epoch_of_nil : epoch_of [] = k + 1.
Proof. unfold epoch_of, snapshots. cbn. lia. Qed.

Lemma failed_run_kept l s n s' :
  kept_cut s -> well_notified k l -> k + snapshots l < max_int64 - 1 ->
  failed_run rt (v, ix) k l s = (n, s') -> kept_at (take n l) s'.
Proof.
  intros K Hw Hm. unfold failed_run.
  destruct (start_sink (v, ix) k (NewTransactional rt, s)) as [r1 [t1 s1]] eqn:E1.
  pose proof (snapshots_nonneg l).
  apply start_alive in E1 as [H1 H2]; [|done|lia]. destruct r1 as [[]|e].
  - destruct (run_ops l (t1, s1)) as [n2 [t2 s2]] eqn:E2. intros [= <- <-]. apply dying_close.
    apply (run_ops_alive l [] t1 s1); [by apply H1|done| |exact E2]. cbn. unfold epoch_of. lia.
  - intros [= <- <-]. destruct (H2 eq_refl) as [K1 Hf]. change (take 0 l) with (@nil sink_op). apply dying_close. split.
    + eapply kept_weaken; [exact K1| | |].
      * rewrite epoch_of_nil. lia.
      * rewrite epoch_of_nil. intros j Hj. unfold contents_of. by rewrite decide_True by lia.
      * intros j _ ?. by left.
    + unfold file_at. by rewrite Hf.
Qed.

(** ** The end of the job *)

Definition final_contents (l : list sink_op) : Z -> list Record_ := contents_of (l ++ [OpSnapshot]).

Lemma kept_final l s :
  kept_at l s -> whole s (epoch_of l) (current l) -> epoch_of l < max_int64 -> well_notified k l ->
  kept (epoch_of l + 1) (final_contents l) (fun j => j <= epoch_of l) s.
Proof.
  intros K Hwh Hm Hw. pose proof K as [W1 W0 W2 W3 W4]. split; [done|lia|done| |].
  - intros j Hj. unfold final_contents. destruct (decide (j = epoch_of l)) as [->|Hne].
    + by rewrite contents_of_closed.
    + specialize (W3 j ltac:(lia)). destruct (decide (j <= k)).
      * unfold contents_of in *. rewrite decide_True in * by done. done.
      * rewrite contents_of_snapshot by lia. done.
  - intros j Hj Hc. destruct (decide (j <= epoch_of l)) as [?|Hgt]; [done|].
    destruct (W4 j Hj Hc) as [?|Hn]; [pose proof (snapshots_nonneg l); unfold epoch_of in *; lia|].
    unfold notified in Hn. apply list_elem_of_split in Hn as (l1 & l2 & E). pose proof (Hw _ _ _ E) as Hr.
    rewrite E. pose proof (snapshots_mono l1 (OpNotify j :: l2)). unfold epoch_of in *. lia.
Qed.

Lemma commit_from_spec t E R A n id flag s r t' s' :
  ident t -> kept E R A s -> 1 <= id -> id + Z.of_nat n <= E -> (forall j, in_range j -> j < E -> A j) ->
  dir rt committedDir ∈ fs_dirs s -> commit_from t n id flag (t, s) = (r, (t', s')) ->
  kept E R A s' /\ t' = t /\ fs_dirs s ⊆ fs_dirs s' /\
  (forall j, in_range j -> content s (sp j) = None -> content s' (sp j) = None) /\
  (is_ok r = true -> forall j, id <= j < id + Z.of_nat n -> content s' (sp j) = None).
Proof.
  intros Hi. revert id flag s. induction n as [|n IH]; intros id flag s K H1 Hn HA Hd.
  { intros [= <- <- <-]. split_and!; [done..|]. intros _ j Hj. lia. }
  cbn [commit_from]. unfold mbind, M_bind, try_os. rewrite (staging_sp t), (committed_cp t) by done.
  destruct (os_Rename (sp id) (cp id) s) as [r1 s1] eqn:E1. pose proof (k_bound _ _ _ _ K) as Hb.
  assert (in_range id) as Hir by (unfold in_range; lia).
  pose proof (kept_rename _ _ _ _ _ _ _ K Hir ltac:(lia) E1) as (K1 & T & Hr).
  assert (kept E R A s1) as K2.
  { eapply kept_weaken; [exact K1|done|done|]. intros i Hi' [?| ->]; [done|]. apply HA; [done|lia]. }
  assert (forall j, in_range j -> content s (sp j) = None -> content s1 (sp j) = None) as Hnone.
  { intros j Hj Hc. destruct (decide (j = id)) as [->|Hne].
    - destruct r1 as [u|e]; [done|]. by destruct Hr as [-> _].
    - rewrite (to_content _ _ _ T); [done|apply K|]. intros [Es|Es]; [by apply sp_inj in Es|by apply sp_cp in Es]. }
  assert (dir rt committedDir ∈ fs_dirs s1) as Hd1 by by apply (to_dirs _ _ _ T).
  assert (forall flag, content s1 (sp id) = None -> commit_from t n (id + 1) flag (t, s1) = (r, (t', s')) ->
    kept E R A s' /\ t' = t /\ fs_dirs s ⊆ fs_dirs s' /\ (forall j, in_range j -> content s (sp j) = None -> content s' (sp j) = None) /\
    (is_ok r = true -> forall j, id <= j < id + Z.of_nat (S n) -> content s' (sp j) = None)) as Hstep.
  { intros fl Hc E2. apply IH in E2 as (K3 & -> & D3 & N3 & C3); [|done|lia|lia|done|done].
    pose proof (to_dirs _ _ _ T). split_and!; [done|done|set_solver|auto|].
    intros Hok j Hj. destruct (decide (j = id)) as [->|Hne]; [by apply N3|]. apply C3; [done|lia]. }
  destruct r1 as [u|[|]].
  - by apply Hstep.
  - apply Hstep. destruct Hr as [-> Hr]. by apply Hr.
  - unfold fail. intros [= <- <- <-]. split_and!; [done|done|by apply (to_dirs _ _ _ T)|auto|done].
Qed.

(** Everything up to epoch [E] is output, and nothing else is. *)
Definition published (E : Z) (R : Z -> list Record_) (s : fsys) : Prop :=
  kept (E + 1) R (fun j => j <= E) s /\ dir rt committedDir ∈ fs_dirs s /\
  forall j, 1 <= j <= E -> content s (sp j) = None.

Lemma full_run_published l s t' s' :
  kept_cut s -> well_notified k l -> k + snapshots l < max_int64 - 1 ->
  full_run (v, ix) k l (NewTransactional rt, s) = (Ok tt, (t', s')) ->
  published (epoch_of l) (final_contents l) s'.
Proof.
  intros K Hw Hm. unfold full_run, mbind, M_bind.
  destruct (start_sink (v, ix) k (NewTransactional rt, s)) as [[[]|e] [t1 s1]] eqn:E1; [|done].
  pose proof (snapshots_nonneg l) as Hsn.
  apply start_alive in E1 as [H1 _]; [|done|lia]. specialize (H1 eq_refl).
  destruct (for_each run_op l (t1, s1)) as [[[]|e] [t2 s2]] eqn:E2; [|done].
  apply (run_all_alive l []) in E2; [|done|done|cbn; unfold epoch_of; lia]. cbn [app] in E2.
  assert (epoch_of l < max_int64) as Hel by (unfold epoch_of; lia).
  unfold Close. destruct (closeEpoch (t2, s2)) as [[[]|e] [t3 s3]] eqn:E3; [|done].
  destruct (closed_whole l t2 s2 _ t3 s3 E2 Hw E3) as (K3 & -> & D3 & Hoth & Hwh). specialize (Hwh eq_refl).
  pose proof E2 as [_ Hi He Hfe _ _ _ Hbe].
  set (t3 := set_file (written t2) None t2). unfold CommitFinalEpoch, mbind, M_bind, get_sink.
  replace (closeEpoch (t3, s3)) with (Ok tt : result sink_error unit, (t3, s3)) by done.
  change (epoch t3) with (epoch t2). change (firstEpoch t3) with (firstEpoch t2). rewrite He, Hfe.
  destruct (commit_from t3 _ (k + 1) false (t3, s3)) as [[b|e] [t4 s4]] eqn:E4; [|done].
  assert (kept (epoch_of l + 1) (final_contents l) (fun j => j <= epoch_of l) s3) as K3' by (apply kept_final; [done|done|lia|done]).
  pose proof (k_bound _ _ _ _ K3') as Hb.
  apply (commit_from_spec t3 _ _ _ _ _ _ _ _ _ _ Hi K3') in E4 as (K4 & -> & D4 & N4 & C4); [|lia|unfold epoch_of in *; lia|intros; lia|done].
  specialize (C4 eq_refl).
  assert (forall j, 1 <= j <= epoch_of l -> content s4 (sp j) = None) as Hnone.
  { intros j Hj. destruct (decide (j <= k)) as [?|?]; [|apply C4; unfold epoch_of in *; lia].
    apply N4; [unfold in_range; lia|]. rewrite Hoth; [|unfold in_range; lia|unfold epoch_of in *; lia]. apply Hbe. lia. }
  assert (forall s5, same_files s4 s5 -> published (epoch_of l) (final_contents l) s5) as Hdone.
  { intros s5 S5. split; [eapply kept_same; [exact K4|exact S5]|]. split; [destruct S5 as (_ & _ & _ & D5); set_solver|].
    intros j Hj. rewrite (same_content s4 s5 _ S5). by apply Hnone. }
  destruct b; [|intros [= _ <-]; by apply Hdone].
  intros E5. apply on_os_inert in E5 as [_ S5]; [|apply inert_syncDir]. by apply Hdone.
Qed.

(** ** Reading the output *)

Lemma read_files_ok R s m ns js :
  Forall2 (fun n j => n = (cp j).2 /\ content s (cp j) = Some (encodeRecords (R j)) /\ Forall rec_ok (R j)) ns js ->
  (length ns <= m)%nat ->
  exists s', read_files (dir rt committedDir) ns (undisturbed m s) = (Ok (js ≫= R), s').
Proof.
  intros H. revert m. induction H as [|n j ns js (-> & Hc & Hok) _ IH]; intros m Hm; [by exists (undisturbed m s)|].
  destruct m as [|m]; [cbn in Hm; lia|]. cbn [length] in Hm. cbn [read_files].
  assert (has_suffix commitSuffix (cp j).2 = true) as ->.
  { unfold has_suffix. apply bool_decide_eq_true. unfold cp. cbn [snd].
    rewrite app_comm_cons, app_assoc, CutSuffix_app. done. }
  cbn [negb]. unfold mbind at 1, M_bind at 1. unfold read_file, os_ReadFile, sys, undisturbed. cbn [outcomes with_outcomes repeat].
  change (dir rt committedDir, (cp j).2) with (cp j). unfold content in Hc. cbn [names data with_outcomes].
  destruct (names s !! cp j) as [i|]; [|done]. cbn in Hc. cbn [data with_outcomes]. rewrite Hc. cbn [default wrap_err].
  unfold mbind at 1, M_bind at 1, lift.
  assert (decodeRecords (encodeRecords (R j)) = Ok (R j)) as E.
  { destruct (decode_records_app (R j) [] Hok) as [fuel E]. rewrite !app_nil_r in E. cbn [decode_from] in E.
    rewrite bool_decide_true, app_nil_r in E by done. exact E. }
  cbn [id]. rewrite E. unfold mbind at 1, M_bind at 1.
  destruct (IH m ltac:(lia)) as [s' E2]. exists s'.
  change (with_outcomes (repeat Good m) (with_outcomes (Good :: repeat Good m) s)) with (undisturbed m s).
  rewrite E2. done.
Qed.

Lemma NoDup_listing d s : NoDup (listing d s).
Proof.
  unfold listing. rewrite merge_sort_Permutation. apply NoDup_omap_inj; [|apply NoDup_elements].
  intros [d1 n1] [d2 n2] z _ _. cbn. do 2 (case_bool_decide; [|done]). congruence.
Qed.

Lemma NoDup_Forall2 {A B} (P : A -> B -> Prop) (l : list A) (l' : list B) :
  Forall2 P l l' -> NoDup l -> (forall x y z, P x z -> P y z -> x = y) -> NoDup l'.
Proof.
  intros H Hl Hinj. induction H as [|x y l l' Hxy H IH]; [constructor|].
  apply NoDup_cons in Hl as [Hx Hl]. constructor; [|auto].
  intros Hy. apply list_elem_of_lookup in Hy as [i Hi].
  apply (Forall2_lookup_r _ _ _ _ _ H) in Hi as (x' & Hx' & Hp).
  apply Hx. rewrite (Hinj x x' y Hxy Hp). by eapply list_elem_of_lookup_2.
Qed.

Lemma bind_filter_nil {A} (P : Z -> Prop) `{forall x, Decision (P x)} (R : Z -> list A) l :
  (forall x, x ∈ l -> ~ P x -> R x = []) -> filter P l ≫= R = l ≫= R.
Proof.
  induction l as [|x l IH]; intros Hl; [done|]. rewrite filter_cons. case_decide; cbn.
  - f_equal. apply IH. intros. apply Hl; [by right|done].
  - rewrite (Hl x) by (by left || done). apply IH. intros. apply Hl; [by right|done].
Qed.

Lemma published_reads E R s m :
  published E R s -> (forall j, 1 <= j <= E -> Forall rec_ok (R j)) ->
  (size (names s) < m)%nat ->
  exists out s', ReadCommitted rt (undisturbed m s) = (Ok out, s') /\ out ≡ₚ (seqZ 1 E ≫= R).
Proof.
  intros (K & Hd & Hn) Hok Hm. pose proof (k_wf _ _ _ _ K) as Hwf. pose proof (k_bound _ _ _ _ K) as Hb.
  set (ns := listing (dir rt committedDir) s).
  assert (Forall (fun n => exists j, (n = (cp j).2 /\ content s (cp j) = Some (encodeRecords (R j)) /\ Forall rec_ok (R j)) /\ 1 <= j <= E) ns) as HF.
  { apply Forall_forall. intros n [i Hi]%elem_of_listing.
    pose proof (content_Some s _ i Hwf Hi) as Hc.
    destruct (k_own _ _ _ _ K _ Hc) as (j & Hj & [Ej|Ej]).
    { exfalso. unfold sp in Ej. injection Ej as Ej _. symmetry in Ej. by apply dirs_differ in Ej. }
    exists j. rewrite Ej in Hc. pose proof (k_committed _ _ _ _ K j Hj Hc) as HjE. cbn in HjE.
    assert (1 <= j <= E) as Hr by (unfold in_range in *; lia). split; [|done].
    split; [by injection Ej|]. split; [|by apply Hok].
    destruct (k_whole _ _ _ _ K j ltac:(lia)) as [[Hs _]|[[_ ?]|[_ [Hcc _]]]]; [|done|rewrite Hcc in Hc; by destruct Hc].
    by rewrite Hn in Hs by done. }
  apply Forall_exists_Forall2_l in HF as [js HF].
  assert (Forall2 (fun n j => n = (cp j).2 /\ content s (cp j) = Some (encodeRecords (R j)) /\ Forall rec_ok (R j)) ns js) as HF1.
  { eapply Forall2_impl; [exact HF|]. by intros n j [? _]. }
  destruct (read_files_ok R s (m - 1) ns js HF1) as [s' Er].
  { assert (length ns <= size (names s))%nat; [|lia]. unfold ns, listing. rewrite merge_sort_Permutation.
    rewrite <- size_dom. unfold size, set_size. cbn. generalize (elements (dom (names s))). intros l.
    induction l as [|p l IH]; [done|]. cbn. case_bool_decide; cbn; lia. }
  exists (js ≫= R), s'. split.
  - unfold ReadCommitted, os_ReadDir, sys, undisturbed. destruct m as [|m]; [lia|]. cbn [repeat outcomes with_outcomes].
    unfold exists_dir. cbn [fs_dirs]. rewrite bool_decide_true by done.
    replace (S m - 1)%nat with m in Er by lia. exact Er.
  - assert (js ≡ₚ filter (fun j => is_Some (content s (cp j))) (seqZ 1 E)) as Hp.
    { apply NoDup_Permutation.
      - eapply NoDup_Forall2; [exact HF1|apply NoDup_listing|]. intros x y z (-> & _) (-> & _). done.
      - apply NoDup_filter, NoDup_seqZ.
      - intros j. rewrite list_elem_of_filter, elem_of_seqZ. split.
        + intros [i Hi]%list_elem_of_lookup. apply (Forall2_lookup_r _ _ _ _ _ HF) in Hi as (n & _ & (_ & Hc & _) & Hr).
          split; [eauto|lia].
        + intros [Hc Hr]. assert ((cp j).2 ∈ ns) as Hin.
          { apply elem_of_listing. destruct Hc as [c Hc]. unfold content, cp in Hc. cbn. destruct (names s !! _); [eauto|done]. }
          apply list_elem_of_lookup in Hin as [i Hi].
          apply (Forall2_lookup_l _ _ _ _ _ HF) in Hi as (j' & Hj' & (En & _) & Hr').
          assert (cp j = cp j') as Ec by (unfold cp in *; cbn in *; congruence).
          apply cp_inj in Ec as ->; [|unfold in_range in *; lia..]. by eapply list_elem_of_lookup_2. }
    rewrite Hp, bind_filter_nil; [done|].
    intros j Hj%elem_of_seqZ Hnc. destruct (k_whole _ _ _ _ K j ltac:(lia)) as [[Hs _]|[[_ Hc]|(_ & _ & ?)]]; [|by destruct Hnc|done].
    by rewrite Hn in Hs by lia.
Qed.
End Sink.

(** * What a notification does *)

Lemma staging_ne_committed t j j' : stagingPath t j <> committedPath t j'.
Proof.
  unfold stagingPath, committedPath, dir, Join. intros [= E _]. apply app_inv_head in E. discriminate E.
Qed.

(** A notification commits what is staged and nothing else: a staged
    transaction is moved to its committed name; one already committed, and one
    that was never staged, are left as they are with success; a checkpoint this
    sink staged whose file is in neither place is reported. *)
Theorem notification_branches (t : Transactional) (s : fsys) (id : Z) (m : nat) :
  fs_wf s -> dir (root t) committedDir ∈ fs_dirs s -> (4 <= m)%nat ->
  let r := NotifyCheckpointComplete id (t, undisturbed m s) in
  let s' := r.2.2 in
  r.2.1 = t /\
  match content s (stagingPath t id), content s (committedPath t id) with
  | Some c, _ =>
      r.1 = Ok tt /\ content s' (committedPath t id) = Some c /\ content s' (stagingPath t id) = None /\
      forall p, p <> stagingPath t id -> p <> committedPath t id -> content s' p = content s p
  | None, Some _ => r.1 = Ok tt /\ forall p, content s' p = content s p
  | None, None =>
      r.1 = (if bool_decide (firstEpoch t <= id < epoch t /\ id ∈ written t)
             then Err (ErrStagedFileMissing id) else Ok tt) /\
      forall p, content s' p = content s p
  end.
Proof.
  intros Hwf Hd Hm. destruct m as [|[|[|[|m]]]]; try lia. cbv zeta.
  unfold NotifyCheckpointComplete, mbind, M_bind, get_sink, try_os.
  destruct (os_Rename (stagingPath t id) (committedPath t id) (undisturbed (S (S (S (S m)))) s)) as [r1 s1] eqn:E1.
  assert (fs_wf (undisturbed (S (S (S (S m)))) s)) as Hwf' by by apply (same_wf s), Hwf; apply same_with_outcomes.
  pose proof (rename_spec _ _ _ _ _ Hwf' (staging_ne_committed t id id) E1) as [T Hr].
  pose proof (fun p => same_content s _ p (same_with_outcomes (repeat Good (S (S (S (S m))))) s)) as Hc.
  fold (undisturbed (S (S (S (S m)))) s) in Hc.
  unfold os_Rename, sys, undisturbed, exists_dir in E1. cbn [outcomes with_outcomes repeat] in E1.
  cbn [fs_dirs with_outcomes committedPath fst] in E1. rewrite bool_decide_true in E1 by done.
  cbn [names with_outcomes] in E1. destruct (names s !! stagingPath t id) as [i|] eqn:En.
  - injection E1 as <- <-. destruct Hr as ([c Hca] & Ha & Hb). rewrite Hc in Hca, Hb. rewrite Hca.
    rewrite Hca in Hb. unfold on_os.
    set (s1 := with_names _ _) in *.
    assert (exists s2, syncDir (dir (root t) committedDir) s1 = (Ok tt, s2) /\ same_files s1 s2) as (s2 & -> & S2).
    { pose proof (inert_syncDir (dir (root t) committedDir) s1) as Hin.
      unfold syncDir, mbind, M_bind, sys, exists_dir, sync_close, file_call, sys in *. subst s1.
      cbn [outcomes with_names with_outcomes repeat fs_dirs] in *. rewrite bool_decide_true in * by done.
      cbn [outcomes with_names with_outcomes repeat fs_dirs snd] in *. eexists. split; [reflexivity|exact Hin]. }
    cbn [fst snd wrap_err]. split; [done|]. split; [done|].
    rewrite !(same_content s1 s2) by done. split; [done|]. split; [done|].
    intros p Hp1 Hp2. rewrite (same_content s1 s2) by done. rewrite (to_content _ _ _ T); [apply Hc|done|tauto].
  - injection E1 as <- <-. assert (content s (stagingPath t id) = None) as Hn by (unfold content; by rewrite En).
    rewrite Hn. unfold os_Stat, sys. cbn [outcomes with_outcomes repeat names].
    destruct (names s !! committedPath t id) as [j|] eqn:Ec.
    + destruct (content_Some s _ _ Hwf Ec) as [c Hcc]. rewrite Hcc. cbn [fst snd mret M_ret]. done.
    + assert (content s (committedPath t id) = None) as Hcn by (unfold content; by rewrite Ec). rewrite Hcn.
      assert ((firstEpoch t <=? id) && (id <? epoch t) && bool_decide (id ∈ written t) =
        bool_decide (firstEpoch t <= id < epoch t /\ id ∈ written t)) as ->.
      { apply eq_true_iff_eq. rewrite !andb_true_iff, Z.leb_le, Z.ltb_lt, !bool_decide_eq_true. tauto. }
      case_bool_decide; cbn [fst snd fail mret M_ret]; done.
Qed.

Definition notified_sink : Transactional := MkTransactional (str "/out") (str "sink") 0 4 1 {[1; 2; 3]} true None.
Definition notified_fs : fsys :=
  MkFS {[stagingPath notified_sink 2 := 0%nat; committedPath notified_sink 1 := 1%nat]}
       {[0%nat := str "two"; 1%nat := str "one"]} 2 {[dir (str "/out") committedDir]} [].

Lemma notification_branches_witness :
  content notified_fs (stagingPath notified_sink 2) = Some (str "two") /\
  let r := NotifyCheckpointComplete 2 (notified_sink, undisturbed 4 notified_fs) in
  let s' := r.2.2 in
  r.2.1 = notified_sink /\
  match content notified_fs (stagingPath notified_sink 2), content notified_fs (committedPath notified_sink 2) with
  | Some c, _ =>
      r.1 = Ok tt /\ content s' (committedPath notified_sink 2) = Some c /\
      content s' (stagingPath notified_sink 2) = None /\
      forall p, p <> stagingPath notified_sink 2 -> p <> committedPath notified_sink 2 ->
        content s' p = content notified_fs p
  | None, Some _ => r.1 = Ok tt /\ forall p, content s' p = content notified_fs p
  | None, None =>
      r.1 = (if bool_decide (firstEpoch notified_sink <= 2 < epoch notified_sink /\ 2 ∈ written notified_sink)
             then Err (ErrStagedFileMissing 2) else Ok tt) /\
      forall p, content s' p = content notified_fs p
  end.
Proof.
  split; [vm_compute; reflexivity|].
  apply (notification_branches notified_sink notified_fs 2 4).
  - assert (forall p i, names notified_fs !! p = Some i ->
      (p = stagingPath notified_sink 2 /\ i = 0%nat) \/ (p = committedPath notified_sink 1 /\ i = 1%nat)) as Hn.
    { intros p i. cbn [names notified_fs]. rewrite lookup_insert_Some, lookup_singleton_Some. naive_solver. }
    split.
    + intros p q i Hp Hq. apply Hn in Hp, Hq. naive_solver.
    + intros p i Hp. apply Hn in Hp as [[_ ->]|[_ ->]]; (split; [cbn; lia|vm_compute; eauto]).
  - set_solver.
  - lia.
Defined.

(** * Over all runs *)

Lemma epochs_ok l : Forall op_ok l -> Forall (Forall rec_ok) (closed l) /\ Forall rec_ok (current l).
Proof.
  induction l as [|o l IH] using rev_ind; [done|]. intros [Hl Ho]%Forall_app.
  apply Forall_cons in Ho as [Ho _]. destruct (IH Hl) as [Hc Hcur]. destruct o as [r| |id].
  - rewrite closed_write, current_write. split; [done|]. apply Forall_app. split; [done|].
    apply Forall_singleton. exact Ho.
  - rewrite closed_snapshot, current_snapshot. split; [|done]. apply Forall_app. split; [done|].
    by apply Forall_singleton.
  - by rewrite closed_notify, current_notify.
Qed.

Lemma Forall_concat {A} (P : A -> Prop) (l : list (list A)) : Forall (Forall P) l -> Forall P (concat l).
Proof. induction 1; [done|]. cbn. by apply Forall_app. Qed.

Lemma op_ok_take n l : Forall op_ok l -> Forall op_ok (take n l).
Proof. intros. by apply Forall_take. Qed.

Lemma list_bind_ext_in {A} (R R' : Z -> list A) l : (forall j, j ∈ l -> R j = R' j) -> l ≫= R = l ≫= R'.
Proof.
  induction l as [|j l IH]; intros Hl; [done|]. cbn. rewrite (Hl j) by by left.
  f_equal. apply IH. intros. apply Hl. by right.
Qed.

(** The epochs after a cut, in order. *)
Lemma epochs_after_cut k (cl : list (list Record_)) (d : nat) :
  (d <= length cl)%nat ->
  seqZ (k + 1) (Z.of_nat d) ≫= (fun j => default [] (cl !! Z.to_nat (j - k - 1))) = concat (take d cl).
Proof.
  induction d as [|d IH]; intros Hd; [done|]. rewrite seqZ_S, bind_app, IH by lia.
  replace (Z.to_nat (k + 1 + Z.of_nat d - k - 1)) with d by lia.
  destruct (lookup_lt_is_Some_2 cl d ltac:(lia)) as [x Hx]. cbn [mbind list_bind].
  replace (Z.to_nat (k + 1 + Z.of_nat d - k - 1)) with d by lia.
  rewrite (take_S_r _ _ x) by done. rewrite concat_app, Hx. reflexivity.
Qed.

Lemma contents_up_to k R l k' :
  0 <= k <= k' -> k' <= k + snapshots l ->
  seqZ 1 k' ≫= contents_of k R l = (seqZ 1 k ≫= R) ++ concat (take (Z.to_nat (k' - k)) (closed l)).
Proof.
  intros Hk Hs. replace k' with (k + (k' - k)) at 1 by lia. rewrite seqZ_app, bind_app by lia. f_equal.
  - apply list_bind_ext_in. intros j Hj%elem_of_seqZ. unfold contents_of. by rewrite decide_True by lia.
  - rewrite <- (epochs_after_cut k) by (unfold snapshots in Hs; lia). rewrite Z2Nat.id by lia.
    replace (1 + k) with (k + 1) by lia. apply list_bind_ext_in. intros j Hj%elem_of_seqZ. unfold contents_of.
    by rewrite decide_False by lia.
Qed.

Lemma recovering_kept rt v ix s k out :
  0 <= ix <= max_int64 -> recovering rt (v, ix) s k out ->
  0 <= k /\ Forall rec_ok out /\
  exists R, kept rt v ix (k + 1) R (fun j => j <= k) s /\ out = seqZ 1 k ≫= R.
Proof.
  intros Hix. remember (v, ix) as sub eqn:Es.
  induction 1 as [s Hn|s k out script l n s' k' _ IH Hops Hw Hm Hrun Hk' Hnot]; subst.
  - split_and!; [done|done|]. exists (fun _ => []). split; [|done].
    assert (forall p, content s p = None) as Hc by (intros p; unfold content; by rewrite Hn, lookup_empty).
    split.
    + split; intros p; [intros q i|intros i]; by rewrite Hn, lookup_empty.
    + unfold_ints. lia.
    + intros p [c Hp]. by rewrite Hc in Hp.
    + intros j Hj. lia.
    + intros j _ [c Hp]. by rewrite Hc in Hp.
  - destruct IH as (Hk0 & Hok & R & K & Hout).
    pose proof (kept_same _ _ _ _ _ _ _ _ K (same_with_outcomes script s)) as K1.
    apply (failed_run_kept rt v ix Hix k R Hk0 l _ n s' K1 Hw Hm) in Hrun.
    split; [lia|]. split.
    + apply Forall_app. split; [done|]. apply Forall_concat, Forall_take. by apply epochs_ok, op_ok_take.
    + exists (contents_of k R (take n l)). split; [|by rewrite contents_up_to, Hout by lia].
      eapply kept_weaken; [exact Hrun| |done|].
      * unfold epoch_of. lia.
      * intros j _ [?|Hj]; [lia|]. by apply Hnot.
Qed.

(** Exactly-once output. Whatever runs fail before, at whichever system call
    each dies, and whichever checkpoint each next one resumes from: once a run
    completes, the committed output is, up to order, what each failed run wrote
    up to the cut its successor resumed from, followed by all the last run
    wrote. *)
Theorem exactly_once rt v ix s k out l script t' s' m :
  0 <= ix <= max_int64 -> recovering rt (v, ix) s k out ->
  Forall op_ok l -> well_notified k l -> k + snapshots l < max_int64 - 1 ->
  full_run (v, ix) k l (NewTransactional rt, with_outcomes script s) = (Ok tt, (t', s')) ->
  (size (names s') < m)%nat ->
  exists committed s'', ReadCommitted rt (undisturbed m s') = (Ok committed, s'') /\
    committed ≡ₚ out ++ concat (closed l) ++ current l.
Proof.
  intros Hix Hrec Hops Hw Hm Hrun Hsize.
  destruct (recovering_kept _ _ _ _ _ _ Hix Hrec) as (Hk & Hok & R & K & ->).
  pose proof (kept_same _ _ _ _ _ _ _ _ K (same_with_outcomes script s)) as K1.
  apply (full_run_published rt v ix Hix k R Hk l _ t' s' K1 Hw Hm) in Hrun.
  assert (seqZ 1 (epoch_of k l) ≫= final_contents k R l = (seqZ 1 k ≫= R) ++ concat (closed l) ++ current l) as Eall.
  { unfold final_contents. rewrite contents_up_to.
    - rewrite take_ge, closed_snapshot, concat_app; [cbn; by rewrite app_nil_r|].
      rewrite closed_snapshot, length_app. unfold epoch_of, snapshots. cbn. lia.
    - unfold epoch_of. pose proof (snapshots_nonneg l). unfold snapshots in *. lia.
    - unfold epoch_of, snapshots. rewrite closed_snapshot, length_app. cbn. lia. }
  assert (Forall rec_ok (seqZ 1 (epoch_of k l) ≫= final_contents k R l)) as Hall.
  { rewrite Eall. destruct (epochs_ok l Hops). apply Forall_app. split; [done|]. apply Forall_app. split; [by apply Forall_concat|done]. }
  destruct (published_reads rt v ix _ _ s' m Hrun) as (committed & s'' & Er & Hp); [|done|].
  - intros j Hj. apply Forall_forall. intros r Hr. rewrite Forall_forall in Hall. apply Hall.
    apply list_elem_of_bind. exists j. split; [done|]. apply elem_of_seqZ. lia.
  - exists committed, s''. split; [done|]. by rewrite Hp, Eall.
Qed.

(** ** Two runs *)

Definition rec_of (k v : bytes) : Record_ := NewRecord k v 100.

(** The first run acknowledges two checkpoints, commits the first and dies
    writing the third epoch; it is resumed from the first. *)
Definition first_ops : list sink_op :=
  [OpWrite (rec_of (str "a") (str "1")); OpSnapshot; OpWrite (rec_of (str "b") (str "2")); OpNotify 1; OpSnapshot; OpWrite (rec_of (str "c") (str "3"))].
Definition second_ops : list sink_op :=
  [OpWrite (rec_of (str "c") (str "3")); OpSnapshot; OpWrite (rec_of (str "b") (str "2")); OpNotify 2].

Definition empty_fs : fsys := MkFS ∅ ∅ 0 ∅ [].
Definition first_script : list outcome := repeat Good 24.
Definition after_first : nat * fsys :=
  failed_run (str "/out") (str "sink", 0) 0 first_ops (with_outcomes first_script empty_fs).
Definition after_second : result sink_error unit * (Transactional * fsys) :=
  full_run (str "sink", 0) 1 second_ops (NewTransactional (str "/out"), with_outcomes (repeat Good 60) after_first.2).

#[export] Instance op_ok_dec o : Decision (op_ok o).
Proof. destruct o; unfold op_ok, rec_ok; apply _. Defined.

(** [well_notified], as a computation. *)
Fixpoint notes_ok (last : Z) (l : list sink_op) : bool :=
  match l with
  | [] => true
  | OpNotify id :: l => (1 <=? id) && (id <=? last) && notes_ok last l
  | OpSnapshot :: l => notes_ok (last + 1) l
  | OpWrite _ :: l => notes_ok last l
  end.

Lemma notes_ok_spec k l : notes_ok k l = true -> well_notified k l.
Proof.
  assert (forall l l0, notes_ok (k + snapshots l0) l = true ->
    forall l1 id l2, l = l1 ++ OpNotify id :: l2 -> 1 <= id <= k + snapshots (l0 ++ l1)) as H.
  { clear l. induction l as [|o l IH]; intros l0 Hn l1 id l2 E; [by destruct l1|].
    assert (snapshots (l0 ++ [o]) = snapshots l0 + match o with OpSnapshot => 1 | _ => 0 end) as Es.
    { unfold snapshots. destruct o; rewrite ?closed_write, ?closed_snapshot, ?closed_notify, ?length_app; cbn; lia. }
    destruct l1 as [|o' l1]; injection E as -> E.
    - cbn in Hn. apply andb_prop in Hn as [Hn _]. rewrite app_nil_r. lia.
    - subst l. replace (l0 ++ o' :: l1) with ((l0 ++ [o']) ++ l1) by by rewrite <- app_assoc.
      eapply IH; [|reflexivity]. rewrite Es. destruct o' as [r| |id']; cbn in Hn.
      + by rewrite Z.add_0_r.
      + by rewrite Z.add_assoc.
      + apply andb_prop in Hn as [_ Hn]. by rewrite Z.add_0_r. }
  intros Hn l1 id l2 E. apply (H l [] ltac:(unfold snapshots; cbn; by rewrite Z.add_0_r) l1 id l2 E).
Qed.

Lemma pair_first {A B} (x : A * B) a : x.1 = a -> x = (a, x.2).
Proof. intros <-. by destruct x. Qed.

Lemma triple_first {A B C} (x : A * (B * C)) a : x.1 = a -> x = (a, (x.2.1, x.2.2)).
Proof. intros <-. by destruct x as [? []]. Qed.

Lemma exactly_once_witness :
  after_first.1 = 5%nat /\ after_second.1 = Ok tt /\
  exists committed s'', ReadCommitted (str "/out") (undisturbed 10 after_second.2.2) = (Ok committed, s'') /\
    committed ≡ₚ [rec_of (str "a") (str "1")] ++ concat (closed second_ops) ++ current second_ops.
Proof.
  split; [vm_compute; reflexivity|]. split; [vm_compute; reflexivity|].
  apply (exactly_once (str "/out") (str "sink") 0 after_first.2 1 [rec_of (str "a") (str "1")] second_ops
    (repeat Good 60) after_second.2.1 after_second.2.2 10).
  - unfold_ints. lia.
  - apply (recovering_run (str "/out") (str "sink", 0) empty_fs 0 [] first_script first_ops 5 after_first.2 1).
    + by apply recovering_start.
    + refine (bool_decide_eq_true_1 _ _). vm_compute. reflexivity.
    + apply notes_ok_spec. vm_compute. reflexivity.
    + vm_compute. reflexivity.
    + unfold after_first. apply pair_first. vm_compute. reflexivity.
    + vm_compute. split; discriminate.
    + intros id Hid. unfold notified in Hid. cbn in Hid.
      repeat (apply elem_of_cons in Hid as [Hid|Hid]; [first [discriminate Hid|injection Hid as ->; lia]|]).
      by apply elem_of_nil in Hid.
  - refine (bool_decide_eq_true_1 _ _). vm_compute. reflexivity.
  - apply notes_ok_spec. vm_compute. reflexivity.
  - vm_compute. reflexivity.
  - unfold after_second. apply triple_first. vm_compute. reflexivity.
  - vm_compute. lia.
Defined.
