(* ===== verification/Subtask.v ===== *)
(** The subtask loops ([pkg/runtime/subtask.go]): a subtask's half of the
    checkpoint protocol, and the loops of a source, an operator and a sink over
    the elements its gate delivers. The coordinator, the operators and the sinks
    are interfaces here; the coordinator of [pkg/checkpoint], shared with the
    other subtasks, and the sinks of [pkg/sinks] are instances. *)
From S2P Require Import Prelude Core State Serialize Gate Writer SourceTask CheckpointFormat.
From S2P Require Import Storage StorageSpec Coordinator Transactional Operators.

(** * The checkpoint protocol of a subtask

    [X] is what the subtask shares with the rest of the job: its calls change
    it, and so does everybody else between them. *)
Class Checkpoints (X XE : Type) := {
  cp_enabled : X -> bool;
  cp_snapshot : Z -> bytes -> M XE X unit;
  cp_fail : Z -> X -> X;
  cp_finished : bytes -> M XE X unit;
  cp_completedAmong : list Z -> X -> list Z * X;
  cp_awaitCompletedAmong : list Z -> X -> list Z * X;
}.
#[global] Hint Mode Checkpoints ! - : typeclass_instances.

(** What a sink relies on. [cp_complete] are the checkpoints that have completed
    and [cp_acked] what this subtask has acknowledged, with its payloads. *)
Class CheckpointsLaws (X XE : Type) `{Checkpoints X XE} := {
  cp_complete : Z -> X -> Prop;
  cp_acked : X -> list (Z * bytes);
  cp_snapshot_acked id p (x : X) : cp_enabled x = true ->
    cp_acked (cp_snapshot id p x).2 =
      if is_ok (cp_snapshot id p x).1 then cp_acked x ++ [(id, p)] else cp_acked x;
  cp_finished_acked p (x : X) : cp_acked (cp_finished p x).2 = cp_acked x;
  cp_fail_acked id (x : X) : cp_acked (cp_fail id x) = cp_acked x;
  cp_completedAmong_acked ids (x : X) : cp_acked (cp_completedAmong ids x).2 = cp_acked x;
  cp_await_acked ids (x : X) : cp_acked (cp_awaitCompletedAmong ids x).2 = cp_acked x;
  cp_completedAmong_ok ids (x : X) i :
    i ∈ (cp_completedAmong ids x).1 -> i ∈ ids /\ cp_complete i (cp_completedAmong ids x).2;
  cp_await_ok ids (x : X) i :
    i ∈ (cp_awaitCompletedAmong ids x).1 -> i ∈ ids /\ cp_complete i (cp_awaitCompletedAmong ids x).2;
  cp_snapshot_complete i id p (x : X) : cp_complete i x -> cp_complete i (cp_snapshot id p x).2;
  cp_finished_complete i p (x : X) : cp_complete i x -> cp_complete i (cp_finished p x).2;
  cp_fail_complete i id (x : X) : cp_complete i x -> cp_complete i (cp_fail id x);
  cp_completedAmong_complete i ids (x : X) : cp_complete i x -> cp_complete i (cp_completedAmong ids x).2;
  cp_await_complete i ids (x : X) : cp_complete i x -> cp_complete i (cp_awaitCompletedAmong ids x).2;
}.

(** A job that records what it is given and refuses nothing. *)
Definition ledger : Type := list (Z * bytes).

#[export] Instance ledger_Checkpoints : Checkpoints ledger Empty_set := {|
  cp_enabled _ := true;
  cp_snapshot id p x := (Ok tt, x ++ [(id, p)]);
  cp_fail _ x := x;
  cp_finished _ x := (Ok tt, x);
  cp_completedAmong _ x := ([], x);
  cp_awaitCompletedAmong _ x := ([], x);
|}.

#[export] Program Instance ledger_CheckpointsLaws : CheckpointsLaws ledger Empty_set := {|
  cp_complete _ _ := False;
  cp_acked x := x;
|}.
Solve Obligations with (try done; cbn; by intros ?????%not_elem_of_nil || by intros ????%not_elem_of_nil || by intros ???%not_elem_of_nil).

(** ** Over a coordinator

    [checkpointer]: no coordinator when the job takes no checkpoints. Before each
    of this subtask's calls the others get some of theirs in; when they have no
    more, the context of a waiter is done. [acks] records what this subtask's calls
    have acknowledged. *)
Record shared (S : Type) := MkShared {
  co : option (Coordinator * S);
  others : list (list call);
  acks : list (Z * bytes);
}.
Arguments MkShared {S}.
Arguments co {S}.
Arguments others {S}.
Arguments acks {S}.

Section Checkpointer.
Context {S E : Type} `{CheckpointStore S E} (r : ranging) (key : SubtaskKey).
Abbreviation shared := (shared S).

Definition others_act (x : shared) : shared :=
  match others x with
  | [] => x
  | calls :: rest =>
      MkShared (match co x with
                | None => None
                | Some cs => Some (run_calls calls cs).2
                end) rest (acks x)
  end.

Definition enabled (x : shared) : bool := match co x with Some _ => true | None => false end.

Definition checkpointer_snapshot (id : Z) (payload : bytes) : M (coordinator_error E) shared unit := fun x =>
  let x := others_act x in
  match co x with
  | None => (Ok tt, x)
  | Some cs =>
      let '(res, cs) := Acknowledge r id key payload cs in
      (res, MkShared (Some cs) (others x) (if is_ok res then acks x ++ [(id, payload)] else acks x))
  end.

Definition checkpointer_fail (id : Z) (x : shared) : shared :=
  let x := others_act x in
  match co x with
  | None => x
  | Some cs => MkShared (Some (Fail (E := E) id cs).2) (others x) (acks x)
  end.

Definition checkpointer_finished (payload : bytes) : M (coordinator_error E) shared unit := fun x =>
  let x := others_act x in
  match co x with
  | None => (Ok tt, x)
  | Some cs => let '(res, cs) := Finished r key payload cs in (res, MkShared (Some cs) (others x) (acks x))
  end.

Definition checkpointer_completedAmong (ids : list Z) (x : shared) : list Z * shared :=
  let x := others_act x in
  match co x with
  | None => ([], x)
  | Some cs => (CompletedAmong ids cs.1, x)
  end.

(** [AwaitCompletedAmong], the others acting while it waits. *)
Fixpoint await_among (n : nat) (ids : list Z) (x : shared) : list Z * shared :=
  match co x with
  | None => ([], x)
  | Some cs =>
      if settled ids cs.1 then (completed ids cs.1, x)
      else match n with
      | O => (completed ids cs.1, x)
      | Datatypes.S n => await_among n ids (others_act x)
      end
  end.

Definition checkpointer_awaitCompletedAmong (ids : list Z) (x : shared) : list Z * shared :=
  await_among (length (others x)) ids x.

Definition checkpointer : Checkpoints shared (coordinator_error E) := {|
  cp_enabled := enabled;
  cp_snapshot := checkpointer_snapshot;
  cp_fail := checkpointer_fail;
  cp_finished := checkpointer_finished;
  cp_completedAmong := checkpointer_completedAmong;
  cp_awaitCompletedAmong := checkpointer_awaitCompletedAmong;
|}.
End Checkpointer.

(** * Sinks (core/io.go, sinks/memory.go, sinks/transactional.go)

    [Restore] and [CommitFinalEpoch] are the optional interfaces
    [restorableSink] and [finalisableSink]. *)
Class Sink (T TE : Type) := {
  snk_Open : bytes * Z -> M TE T unit;
  snk_Write : Record_ -> M TE T unit;
  snk_Snapshot : M TE T bytes;
  snk_Notify : Z -> M TE T unit;
  snk_Close : M TE T unit;
  snk_Restore : option (bytes -> M TE T unit);
  snk_CommitFinalEpoch : option (M TE T unit);
}.
#[global] Hint Mode Sink ! - : typeclass_instances.

#[export] Instance Transactional_Sink : Sink (Transactional * fsys) sink_error := {|
  snk_Open := Open;
  snk_Write := Write;
  snk_Snapshot := Snapshot;
  snk_Notify := NotifyCheckpointComplete;
  snk_Close := Close;
  snk_Restore := Some Restore;
  snk_CommitFinalEpoch := Some CommitFinalEpoch;
|}.

(** [Collect] keeps what it is given. *)
Record Collect := MkCollect { collected : list Record_ }.
Definition NewCollect : Collect := MkCollect [].
Definition Collect_Write (rec : Record_) : M Empty_set Collect unit := fun c =>
  (Ok tt, MkCollect (collected c ++ [rec])).
Definition Records (c : Collect) : list Record_ := collected c.

#[export] Instance Collect_Sink : Sink Collect Empty_set := {|
  snk_Open _ := mret tt;
  snk_Write := Collect_Write;
  snk_Snapshot := mret [];
  snk_Notify _ := mret tt;
  snk_Close := mret tt;
  snk_Restore := None;
  snk_CommitFinalEpoch := None;
|}.

Inductive Discard := NewDiscard.

#[export] Instance Discard_Sink : Sink Discard Empty_set := {|
  snk_Open _ := mret tt;
  snk_Write _ := mret tt;
  snk_Snapshot := mret [];
  snk_Notify _ := mret tt;
  snk_Close := mret tt;
  snk_Restore := None;
  snk_CommitFinalEpoch := None;
|}.

(** * The sink loop *)

Inductive sink_task_error (TE XE GE : Type) :=
| SinkOpen (e : TE)
| SinkClose (e : TE)
| SinkRestore (e : TE)
| SinkNoRestore (payload : nat)
| SinkFault (e : fault_error)
| SinkWrite (e : TE)
| SinkSnapshot (id : Z) (e : TE)
| SinkAck (id : Z) (e : XE)
| SinkClosed (e : GE).
Arguments SinkOpen {TE XE GE}.
Arguments SinkClose {TE XE GE}.
Arguments SinkRestore {TE XE GE}.
Arguments SinkNoRestore {TE XE GE}.
Arguments SinkFault {TE XE GE}.
Arguments SinkWrite {TE XE GE}.
Arguments SinkSnapshot {TE XE GE}.
Arguments SinkAck {TE XE GE}.
Arguments SinkClosed {TE XE GE}.

Section SinkTask.
Context {T TE : Type} `{Sink T TE} {X XE : Type} `{Checkpoints X XE} {GE : Type} (fs : faults).

Abbreviation TM := (M (sink_task_error TE XE GE) (T * X)).

Definition on_snk {A} (w : TE -> sink_task_error TE XE GE) (m : M TE T A) : TM A := fun '(t, x) =>
  let '(res, t) := m t in (wrap_err w res, (t, x)).

Definition on_cp {A} (w : XE -> sink_task_error TE XE GE) (m : M XE X A) : TM A := fun '(t, x) =>
  let '(res, x) := m x in (wrap_err w res, (t, x)).

Definition on_fault (res : result fault_error unit) : TM unit := lift (wrap_err SinkFault res).

Definition snapshotSinkState (id : Z) : TM unit := fun '(t, x) =>
  if negb (cp_enabled x) then
    (_ ← on_snk (SinkSnapshot id) snk_Snapshot; mret tt) (t, x)
  else
    match snk_Snapshot t with
    | (Err e, t) => (Err (SinkSnapshot id e), (t, cp_fail id x))
    | (Ok payload, t) => on_cp (SinkAck id) (cp_snapshot id payload) (t, x)
    end.

(** A notification that fails is logged; the checkpoint leaves [staged] either
    way. *)
Fixpoint notifyCompleted (completed : list Z) (staged : list Z) (t : T) : list Z * T :=
  match completed with
  | [] => (staged, t)
  | id :: completed =>
      notifyCompleted completed (filter (fun n => n <> id) staged) (snk_Notify id t).2
  end.

(** Asking which of [staged] have completed, and notifying those. *)
Definition settle (ask : list Z -> X -> list Z * X) (staged : list Z) : TM (list Z) := fun '(t, x) =>
  let '(done, x) := ask staged x in
  let '(staged, t) := notifyCompleted done staged t in
  (Ok staged, (t, x)).

(** The loop over what the gate delivers; [closed] is what is reported when it
    has nothing more: the gate's own error, the context's, or none. *)
Fixpoint sink_loop (closed : result GE unit) (es : list StreamElement) (elements : Z) (staged : list Z) : TM unit :=
  match es with
  | [] => lift (wrap_err SinkClosed closed)
  | e :: es =>
      match e with
      | NewRecordElement rec =>
          _ ← on_fault (beforeElement fs elements);
          _ ← on_snk SinkWrite (snk_Write rec);
          sink_loop closed es (add64 elements 1) staged
      | NewWatermarkElement _ => sink_loop closed es elements staged
      | NewBarrierElement b =>
          _ ← snapshotSinkState (CheckpointID b);
          _ ← on_fault (afterBarrierForwarded fs (CheckpointID b));
          staged ← settle cp_completedAmong (staged ++ [CheckpointID b]);
          sink_loop closed es elements staged
      | NewEndOfStreamElement =>
          _ ← settle cp_awaitCompletedAmong staged;
          mret tt
      end
  end.

(** The restore: always asked of a sink that has one. *)
Definition restore_sink (restored : option bytes) : TM unit :=
  let payload := default [] restored in
  match snk_Restore with
  | Some restore => on_snk SinkRestore (restore payload)
  | None =>
      match restored with
      | Some p => if (0 <? length p)%nat then fail (SinkNoRestore (length p)) else mret tt
      | None => mret tt
      end
  end.

(** [Close] is deferred; its error counts if there is no other. *)
Definition runSinkSubtask (subtask : bytes * Z) (restored : option bytes) (closed : result GE unit)
    (es : list StreamElement) : TM unit := fun tx =>
  match on_snk SinkOpen (snk_Open subtask) tx with
  | (Err e, tx) => (Err e, tx)
  | (Ok _, tx) =>
      let '(res, tx) := (_ ← restore_sink restored; sink_loop closed es 0 []) tx in
      let '(cres, tx) := on_snk SinkClose snk_Close tx in
      (match res with Ok _ => cres | Err e => Err e end, tx)
  end.
End SinkTask.

(** [commitFinalEpochs], for one of the sinks a job that succeeded has opened. *)
Definition commit_final {T TE} `{Sink T TE} : M TE T unit :=
  match snk_CommitFinalEpoch with
  | Some commit => commit
  | None => mret tt
  end.
