(* ===== verification/Stages.v ===== *)
(** From one subtask to the next: what a subtask has put on its outputs however
    its run ended, and what a part of its stream is worth to the gate that reads
    it. Over any output that appends what it accepts. *)
From S2P Require Import Prelude Core State Gate GateSpec Writer Streams.

(** * Outputs keep what they accept *)

Class OutputLaws (C CE : Type) `{Output C CE} := {
  out_log : C -> list StreamElement;
  out_send_log e c c' : out_send e c = Ok c' -> out_log c' = out_log c ++ [e];
}.

#[export] Program Instance Channel_OutputLaws : OutputLaws Channel chan_error := {| out_log := elements |}.
Next Obligation. intros e c c'. cbn. unfold Channel_Send. case_match; [done|]. by intros [= <-]. Qed.

Section Logs.
Context {C CE : Type} `{OutputLaws C CE}.

(** An output has taken a part of [els], all of it if nothing failed. *)
Definition took (all : bool) (els : list StreamElement) (c c' : C) : Prop :=
  exists P, out_log c' = out_log c ++ P /\ P `prefix_of` els /\ (all = true -> P = els).

Lemma took_none els c : took false els c c.
Proof. exists []. rewrite app_nil_r. split_and!; [done|by apply prefix_nil|done]. Qed.

Lemma took_nil all c : took all [] c c.
Proof. exists []. by rewrite app_nil_r. Qed.

Lemma took_app all a b c c1 c2 : took true a c c1 -> took all b c1 c2 -> took all (a ++ b) c c2.
Proof.
  intros (P & E & _ & HP) (Q & E2 & HQ & HQ2). rewrite (HP eq_refl) in E. exists (a ++ Q).
  split_and!; [by rewrite E2, E, app_assoc|by apply prefix_app|]. intros Ha. by rewrite HQ2.
Qed.

Lemma took_part a b c c1 : took false a c c1 -> took false (a ++ b) c c1.
Proof. intros (P & E & HP & _). exists P. split_and!; [done|by apply prefix_app_r|done]. Qed.

(** A group, each of whose outputs has taken its part of [f]. *)
Definition group_took (all : bool) (f : nat -> nat -> list StreamElement) (g g' : list C) : Prop :=
  length g' = length g /\
  forall j c, g !! j = Some c -> exists c', g' !! j = Some c' /\ took all (f (length g) j) c c'.

Definition groups_took (all : bool) (f : nat -> nat -> list StreamElement) (w w' : Writer C) : Prop :=
  length (groups w') = length (groups w) /\
  forall a g, groups w !! a = Some g -> exists g', groups w' !! a = Some g' /\ group_took all f g g'.

Lemma each_group_took (h : list C -> result (write_error CE) (list C) * list C) f gs :
  (forall g, match h g with (Ok g', _) => group_took true f g g' | (Err _, g') => group_took false f g g' end) ->
  let '(r, gs') := each_group h gs in
  length gs' = length gs /\
  forall a g, gs !! a = Some g -> exists g', gs' !! a = Some g' /\ group_took (is_ok r) f g g'.
Proof.
  intros Hh. induction gs as [|g gs IH]; [done|]. cbn [each_group]. specialize (Hh g).
  destruct (h g) as [[g'|e] g''].
  - destruct (each_group h gs) as [r gs']. destruct IH as [Hl IH]. split; [cbn; lia|].
    intros [|a] g0; cbn; [|apply IH]. intros [= <-]. exists g'. split; [done|].
    destruct Hh as [? Hg]. split; [done|]. intros j c Hc. destruct (Hg j c Hc) as (c' & ? & P & ? & ? & ?).
    exists c'. split; [done|]. exists P. by split_and!; [| |auto].
  - split; [done|]. intros [|a] g0; cbn; [intros [= <-]; by exists g''|]. intros Ha. exists g0. split; [done|].
    split; [done|]. intros j c Hc. exists c. split; [done|apply took_none].
Qed.

Lemma EmitRecord_took r (w w' : Writer C) res :
  EmitRecord r w = (res, w') -> groups_took (is_ok res) (fun n j => routed n j (Emitted r)) w w'.
Proof.
  unfold EmitRecord. intros E.
  assert (forall x, groups_took false x w w) as Hnone.
  { intros x. split; [done|]. intros a g Hg. exists g. split; [done|]. split; [done|].
    intros j c Hc. exists c. split; [done|apply took_none]. }
  destruct (groups w) as [|g0 gs0] eqn:Eg.
  { injection E as <- <-. split; [by rewrite Eg|]. intros a g. by rewrite Eg. }
  destruct (Key r) as [|b k] eqn:Ek; [injection E as <- <-; apply Hnone|]. rewrite <- Ek, <- Eg in *. clear Ek Eg.
  pose proof (each_group_took (fun group => (send_nth (NewRecordElement r) (partition (Key r) (length group)) group, group))
    (fun n j => routed n j (Emitted r)) (groups w)) as Hg.
  destruct (each_group _ _) as [r1 gs]. injection E as <- <-. apply Hg. intros g.
  unfold send_nth. destruct (g !! _) as [c|] eqn:Ec.
  - destruct (out_send _ c) as [c'|e] eqn:Es.
    + split; [apply length_insert|]. intros j c1 Hc1. cbn. case_decide as Hd.
      * subst j. rewrite Ec in Hc1. injection Hc1 as <-. exists c'.
        split; [by rewrite list_lookup_insert_eq by (by eapply lookup_lt_Some)|].
        exists [NewRecordElement r]. split; [by apply out_send_log|done].
      * exists c1. split; [by rewrite list_lookup_insert_ne|apply took_nil].
    + split; [done|]. intros j c1 Hc1. exists c1. split; [done|apply took_none].
  - split; [done|]. intros j c1 Hc1. exists c1. split; [done|]. cbn. case_decide as Hd; [|apply took_nil].
    subst j. congruence.
Qed.

Lemma send_all_took e (g : list C) f :
  (forall j, f j = [e]) ->
  let '(r, g') := send_all e g in
  match r with Ok l => l = g' | Err _ => True end /\ length g' = length g /\
  forall j c, g !! j = Some c -> exists c', g' !! j = Some c' /\ took (is_ok r) (f j) c c'.
Proof.
  intros Hf. revert f Hf. induction g as [|c g IH]; intros f Hf; [done|]. cbn [send_all].
  destruct (out_send e c) as [c'|x] eqn:Es.
  - specialize (IH (fun j => f (S j)) (fun j => Hf (S j))). destruct (send_all e g) as [[l|x] g'];
      destruct IH as (E & Hl & Hg); (split; [by rewrite ?E|]); (split; [cbn; congruence|]).
    + subst l. intros [|j] c1; cbn; [intros [= <-]|apply Hg]. exists c'. split; [done|].
      rewrite Hf. exists [e]. split; [by apply out_send_log|done].
    + intros [|j] c1; cbn; [intros [= <-]|apply Hg]. exists c'. split; [done|]. rewrite Hf.
      exists [e]. split; [by apply out_send_log|done].
  - split; [done|]. split; [done|]. intros j c1 Hc1. exists c1. split; [done|apply took_none].
Qed.

Lemma Broadcast_took e (w w' : Writer C) res :
  Broadcast e w = (res, w') -> groups_took (is_ok res) (fun n j => routed n j (Broadcasted e)) w w'.
Proof.
  unfold Broadcast. intros E.
  pose proof (each_group_took (send_all e) (fun n j => routed n j (Broadcasted e)) (groups w)) as Hg.
  destruct (each_group _ _) as [r1 gs]. injection E as <- <-. apply Hg. intros g.
  pose proof (send_all_took e g (fun _ => [e]) (fun _ => eq_refl)) as Ha.
  destruct (send_all e g) as [[l|x] g']; destruct Ha as (Ea & Hl & Hc); [subst l|]; by split.
Qed.

(** Whatever comes of a run of a writer, each output has taken a part of what is
    for it; and all of it, if the run succeeds. *)
Lemma run_writer_took l (w w' : Writer C) res :
  run_writer l w = (res, w') -> groups_took (is_ok res) (fun n j => l ≫= routed n j) w w'.
Proof.
  revert w. induction l as [|a l IH]; intros w; cbn [run_writer].
  { intros [= <- <-]. split; [done|]. intros i g Hg. exists g. split; [done|]. split; [done|].
    intros j c Hc. exists c. split; [done|apply took_nil]. }
  set (step := match a with Emitted r => EmitRecord r w | Broadcasted e => Broadcast e w end).
  intros E. destruct step as [r1 w1] eqn:Es.
  assert (groups_took (is_ok r1) (fun n j => routed n j a) w w1) as [Hl1 H1].
  { destruct a; [by apply EmitRecord_took|by apply Broadcast_took]. }
  destruct r1 as [[]|e].
  - destruct (IH _ E) as [Hl2 H2]. split; [congruence|]. intros i g Hg.
    destruct (H1 i g Hg) as (g1 & Hg1 & Hn1 & Hc1). destruct (H2 i g1 Hg1) as (g2 & Hg2 & Hn2 & Hc2).
    exists g2. split; [done|]. split; [congruence|]. intros j c Hc.
    destruct (Hc1 j c Hc) as (c1 & E1 & T1). destruct (Hc2 j c1 E1) as (c2 & E2 & T2). exists c2. split; [done|].
    rewrite bind_cons. eapply took_app; [exact T1|]. by rewrite <- Hn1.
  - injection E as <- <-. split; [done|]. intros i g Hg. destruct (H1 i g Hg) as (g1 & Hg1 & Hn1 & Hc1).
    exists g1. split; [done|]. split; [done|]. intros j c Hc. destruct (Hc1 j c Hc) as (c1 & E1 & T1).
    exists c1. split; [done|]. rewrite bind_cons. by apply took_part.
Qed.

(** A writer to one group of [n] empty outputs, and what they hold. *)
Definition fresh_writer (n : nat) (w : Writer C) : Prop :=
  exists g, groups w = [g] /\ length g = n /\ Forall (fun c => out_log c = []) g.

Definition log_at (w : Writer C) (j : nat) : list StreamElement :=
  match groups w with g :: _ => default [] (out_log <$> g !! j) | [] => [] end.

Lemma fresh_writer_log n l (w w' : Writer C) res j :
  fresh_writer n w -> run_writer l w = (res, w') -> (j < n)%nat ->
  log_at w' j `prefix_of` (l ≫= routed n j) /\ (res = Ok tt -> log_at w' j = l ≫= routed n j).
Proof.
  intros (g & Eg & Hn & Hempty) E Hj. destruct (run_writer_took _ _ _ _ E) as [Hl Hg].
  destruct (Hg 0%nat g) as (g' & Hg' & Hn' & Hc); [by rewrite Eg|].
  destruct (lookup_lt_is_Some_2 g j) as [c Ec]; [lia|]. destruct (Hc j c Ec) as (c' & Ec' & P & El & HP & HPe).
  rewrite (proj1 (Forall_lookup _ _) Hempty _ _ Ec) in El. cbn in El.
  unfold log_at. destruct (groups w') as [|g1 gs]; [done|]. injection Hg' as ->. rewrite Ec'. cbn.
  rewrite El. rewrite Hn in *. split; [done|]. intros ->. by apply HPe.
Qed.
End Logs.

(** * Streams of emissions *)

(** The records a subtask sends, and all it sends. *)
Definition emitted (l : list emission) : list Record_ :=
  omap (fun a => match a with Emitted r => Some r | Broadcasted _ => None end) l.

Lemma emitted_app l k : emitted (l ++ k) = emitted l ++ emitted k.
Proof. apply omap_app. Qed.

Lemma emitted_Emitted l : emitted (Emitted <$> l) = l.
Proof. induction l as [|r l IH]; [done|]. cbn. by f_equal. Qed.

Definition sent (a : emission) : StreamElement :=
  match a with Emitted r => NewRecordElement r | Broadcasted e => e end.

(** Records are never broadcast. *)
Definition proper (a : emission) : Prop :=
  match a with Broadcasted e => record_of e = None | Emitted _ => True end.

(** The records of which output [j] of [n] gets its copy. *)
Definition share (n j : nat) (l : list Record_) : list Record_ :=
  filter (fun r => partition (Key r) n = j) l.

Lemma share_app n j l k : share n j (l ++ k) = share n j l ++ share n j k.
Proof. apply filter_app. Qed.

Lemma share_perm n j l k : l ≡ₚ k -> share n j l ≡ₚ share n j k.
Proof. intros E. unfold share. by rewrite E. Qed.

Lemma routed_records n j l : Forall proper l -> records (l ≫= routed n j) = share n j (emitted l).
Proof.
  induction 1 as [|a l Ha Hl IH]; [done|]. rewrite bind_cons, records_app, IH. unfold share.
  destruct a as [r|e]; cbn in Ha.
  - change (emitted (Emitted r :: l)) with (r :: emitted l). rewrite filter_cons. cbn [routed]. by case_decide.
  - cbn. by rewrite Ha.
Qed.

Lemma records_sent l : Forall proper l -> records (sent <$> l) = emitted l.
Proof.
  induction 1 as [|[r|e] l Ha Hl IH]; [done|cbn; by f_equal|]. cbn in Ha |- *. by rewrite Ha.
Qed.

Lemma routed_sublist n j l : l ≫= routed n j `sublist_of` sent <$> l.
Proof.
  induction l as [|a l IH]; [done|]. rewrite bind_cons, fmap_cons.
  destruct a as [r|e]; cbn; [case_decide|]; cbn; by constructor.
Qed.

Lemma routed_one l : l ≫= routed 1 0 = sent <$> l.
Proof.
  induction l as [|a l IH]; [done|]. rewrite bind_cons, fmap_cons, IH. destruct a as [r|e]; [|done].
  cbn. rewrite decide_True; [done|]. unfold partition. by rewrite Z.mod_1_r.
Qed.

Lemma routed_barriers n j l : barriers (l ≫= routed n j) = barriers (sent <$> l).
Proof.
  induction l as [|a l IH]; [done|]. rewrite bind_cons, barriers_app, fmap_cons, IH.
  destruct a as [r|e]; cbn; [by case_decide|]. by destruct (barrier_of e).
Qed.

Lemma routed_marks n j l : marks (l ≫= routed n j) = marks (sent <$> l).
Proof.
  induction l as [|a l IH]; [done|]. rewrite bind_cons, marks_app, fmap_cons, IH.
  destruct a as [r|e]; cbn; [by case_decide|]. by destruct (mark_of e).
Qed.

Lemma upto_at_barrier l1 b l2 : upto (S (nb l1)) (l1 ++ NewBarrierElement b :: l2) = l1 ++ [NewBarrierElement b].
Proof.
  change (NewBarrierElement b :: l2) with ([NewBarrierElement b] ++ l2). rewrite app_assoc, upto_app.
  - apply upto_barrier.
  - rewrite nb_app. cbn. lia.
Qed.

(** What an output has by the barrier after [l1]. *)
Lemma routed_upto n j l1 b l2 :
  upto (S (nb (sent <$> l1))) ((l1 ++ Broadcasted (NewBarrierElement b) :: l2) ≫= routed n j) =
    (l1 ≫= routed n j) ++ [NewBarrierElement b].
Proof.
  rewrite bind_app, bind_cons. cbn [routed app].
  replace (nb (sent <$> l1)) with (nb (l1 ≫= routed n j)) by (unfold nb; by rewrite routed_barriers).
  apply upto_at_barrier.
Qed.

Lemma concat_app_perm {A B} (f g : A -> list B) l :
  concat ((fun x => f x ++ g x) <$> l) ≡ₚ concat (f <$> l) ++ concat (g <$> l).
Proof.
  induction l as [|x l IH]; [done|]. cbn. rewrite IH, <- !app_assoc. apply Permutation_app_head.
  rewrite !app_assoc. apply Permutation_app_tail, Permutation_app_comm.
Qed.

(** ** Parts of streams *)

Lemma timely_sublist l k : l `sublist_of` k -> timely k -> timely l.
Proof.
  intros Hs Hk l1 r l2 -> w Hw. apply sublist_app_l in Hs as (k1 & k2 & -> & H1 & H2).
  apply sublist_cons_l in H2 as (a & b & -> & H2).
  apply (Hk (k1 ++ a) r b); [by rewrite <- app_assoc|].
  rewrite marks_app, elem_of_app. left. apply elem_of_marks. apply elem_of_marks in Hw.
  by eapply elem_of_sublist.
Qed.

Lemma well_ended_prefix l k : l `prefix_of` k -> well_ended k -> well_ended l.
Proof.
  intros [x ->] Hw l1 l2 ->. specialize (Hw l1 (l2 ++ x)). rewrite <- app_assoc in Hw.
  specialize (Hw eq_refl). by apply app_eq_nil in Hw as [-> _].
Qed.

Lemma well_ended_sublist l k : l `sublist_of` k -> well_ended k -> well_ended l.
Proof.
  intros Hs Hw l1 l2 ->. apply sublist_app_l in Hs as (k1 & k2 & -> & _ & H2).
  apply sublist_cons_l in H2 as (a & b & -> & H2). rewrite app_assoc in Hw.
  specialize (Hw (k1 ++ a) b eq_refl) as ->. by apply sublist_nil_r in H2.
Qed.

(** ** A gate whose inputs are parts of the streams sent to it *)

Section GateStage.
Context (streams inputs : list (list StreamElement)) (merged : list tagged) (fs : faults).
Context (outs : list StreamElement) (g : Gate).
Context (Hpre : Forall2 prefix inputs streams) (Hw : Forall well_ended streams).
Context (Hne : streams <> []) (Hf : forwarded inputs merged).
Context (Hr : run_gate (NewGate (length inputs) fs) merged = Some (outs, g)).

Lemma inputs_ne : inputs <> [].
Proof using Hpre Hne. intros E. pose proof Hpre as H. rewrite E in H. by apply Forall2_nil_inv_l in H. Qed.

Lemma inputs_ended : Forall well_ended inputs.
Proof using Hpre Hw.
  apply Forall_lookup. intros i l Hi. destruct (Forall2_lookup_l _ _ _ _ _ Hpre Hi) as (k & Hk & Hp).
  eapply well_ended_prefix; [exact Hp|]. exact (proj1 (Forall_lookup _ _) Hw _ _ Hk).
Qed.

(** At a barrier it has returned the records of every stream up to its barrier
    of that number, and no watermark beyond what a stream still open gave. *)
Lemma gate_stage o1 b o2 :
  outs = o1 ++ NewBarrierElement b :: o2 ->
  records o1 ≡ₚ concat ((fun l => records (upto (S (nb o1)) l)) <$> streams) /\
  (exists l, l ∈ streams /\ barriers l !! nb o1 = Some b) /\
  Forall (fun l => settled (S (nb o1)) (upto (S (nb o1)) l) /\
    (NewEndOfStreamElement ∈ upto (S (nb o1)) l \/
     forall w, w ∈ marks o1 -> exists w', w' ∈ marks (upto (S (nb o1)) l) /\ w <= w')) streams.
Proof using Hpre Hw Hne Hf Hr.
  intros Eo.
  destruct (run_gate_cut inputs merged fs outs g inputs_ne Hf inputs_ended Hr o1 b o2 Eo) as (Hrec & (l & Hl & Hb) & Hall).
  assert (Forall2 (fun l k => upto (S (nb o1)) k = upto (S (nb o1)) l /\ settled (S (nb o1)) (upto (S (nb o1)) l)) inputs streams) as Hsame.
  { apply Forall2_same_length_lookup. split; [by eapply Forall2_length|]. intros i x y Hx Hy.
    pose proof (Forall2_lookup_lr _ _ _ _ _ _ Hpre Hx Hy) as Hp.
    destruct (proj1 (Forall_lookup _ _) Hall _ _ Hx) as [Hs _]. split; [|done].
    apply settled_prefix; [done| |exact (proj1 (Forall_lookup _ _) Hw _ _ Hy)].
    etrans; [apply upto_prefix|done]. }
  split_and!.
  - rewrite Hrec. apply Permutation_refl'. f_equal. clear -Hsame.
    induction Hsame as [|x y l k [E _] _ IH]; [done|]. cbn. by rewrite E, IH.
  - apply list_elem_of_lookup in Hl as [i Hi]. destruct (Forall2_lookup_l _ _ _ _ _ Hpre Hi) as (k & Hk & [x ->]).
    exists (l ++ x). split; [by eapply list_elem_of_lookup_2|]. rewrite barriers_app. by apply lookup_app_l_Some.
  - apply Forall_lookup. intros i k Hk. destruct (Forall2_lookup_r _ _ _ _ _ Hsame Hk) as (x & Hx & -> & _).
    exact (proj1 (Forall_lookup _ _) Hall _ _ Hx).
Qed.

Lemma gate_stage_timely : Forall timely streams -> timely outs.
Proof using Hpre Hw Hne Hf Hr.
  intros Ht. eapply run_gate_marks; [apply inputs_ne|exact Hf|apply inputs_ended|exact Hr|].
  apply Forall_lookup. intros i l Hi. destruct (Forall2_lookup_l _ _ _ _ _ Hpre Hi) as (k & Hk & [x ->]).
  eapply timely_prefix. exact (proj1 (Forall_lookup _ _) Ht _ _ Hk).
Qed.

Lemma gate_stage_ended : well_ended outs.
Proof using Hpre Hw Hne Hf Hr.
  exact (run_gate_well_ended inputs merged fs outs g inputs_ne Hf inputs_ended Hr).
Qed.

Lemma gate_stage_marks w : w ∈ marks outs -> is_i64 w.
Proof using Hpre Hw Hne Hf Hr.
  intros Hin. pose proof (run_gate_marks_i64 inputs merged fs outs g inputs_ne Hf inputs_ended Hr w Hin).
  unfold_ints. lia.
Qed.
End GateStage.
