(* ===== verification/SubtaskSink.v ===== *)
(** The sink subtask over the transactional sink: the loop drives the sink as a
    run of [ExactlyOnce.v] does, over any coordinator that keeps the contract of
    [Subtask.v]; so that the output of a job is exactly-once from what its
    subtask is delivered, through any number of failed runs. *)
From S2P Require Import Prelude Core Strconv Gate Streams CheckpointFormat StorageSpec Coordinator CoordinatorLive Subtask.
From S2P Require Import Transactional TransactionalSpec ExactlyOnce.

(** * The coordinator keeps the contract *)

Section Coordinator.
Context {S E : Type} `{StorageSpec.CheckpointStore S E} (r : ranging) (key : SubtaskKey).
Abbreviation shared := (shared S).

Definition co_complete (id : Z) (x : shared) : Prop :=
  match co x with Some cs => Completed id cs.1 = true | None => False end.

Lemma later_completed c c' id : later c c' -> Completed id c = true -> Completed id c' = true.
Proof.
  intros [_ Hf _] Hc. destruct (Hf id) as (_ & -> & _); [|done].
  unfold Completed, final, terminal in *. destruct (state c !! id) as [st|]; [|done]. by rewrite Hc.
Qed.

Lemma others_complete id (x : shared) : co_complete id x -> co_complete id (others_act x).
Proof.
  unfold co_complete, others_act. destruct (others x) as [|calls rest]; [done|].
  destruct (co x) as [[c s]|]; [|done]. cbn. apply later_completed, run_calls_later.
Qed.

Lemma others_acks (x : shared) : acks (others_act x) = acks x.
Proof. unfold others_act. by destruct (others x). Qed.

Lemma completed_elem id ids c : id ∈ completed ids c -> id ∈ ids /\ Completed id c = true.
Proof. unfold completed. rewrite list_elem_of_filter. tauto. Qed.

Lemma await_among_ok n ids (x : shared) :
  let '(done, x') := await_among n ids x in
  acks x' = acks x /\ (forall i, co_complete i x -> co_complete i x') /\
  forall i, i ∈ done -> i ∈ ids /\ co_complete i x'.
Proof.
  revert x. induction n as [|n IH]; intros x; cbn [await_among]; destruct (co x) as [cs|] eqn:Ec;
    try (split_and!; [done..|by intros i ?%elem_of_nil]);
    destruct (settled ids cs.1).
  1,2,3: split_and!; [done..|]; intros i [? Hi]%completed_elem; split; [done|]; unfold co_complete; by rewrite Ec.
  specialize (IH (others_act x)). destruct (await_among n ids (others_act x)) as [done x'].
  destruct IH as (Ha & Hm & Hd). split_and!; [by rewrite Ha, others_acks| |done].
  intros i Hi. by apply Hm, others_complete.
Qed.

#[local] Existing Instance checkpointer.

(** One call of this subtask, after the others'. *)
Lemma call_complete i (x : shared) (cs cs' : Coordinator * S) :
  co (others_act x) = Some cs -> later cs.1 cs'.1 -> co_complete i x -> Completed i cs'.1 = true.
Proof.
  intros Ec Hl Hx%others_complete. unfold co_complete in Hx. rewrite Ec in Hx. by eapply later_completed.
Qed.

Lemma others_enabled (x : shared) : enabled (others_act x) = enabled x.
Proof. unfold enabled, others_act. destruct (others x), (co x); done. Qed.

Program Definition checkpointer_CheckpointsLaws : @CheckpointsLaws shared (coordinator_error E) (checkpointer r key) := {|
  cp_complete := co_complete;
  cp_acked := acks;
|}.
Next Obligation.
  intros id p x He. cbn. unfold checkpointer_snapshot. rewrite <- (others_acks x).
  change (enabled x = true) in He. rewrite <- others_enabled in He. unfold enabled in He.
  destruct (co (others_act x)) as [cs|]; [|done]. by destruct (Acknowledge r id key p cs).
Qed.
Next Obligation.
  intros p x. cbn. unfold checkpointer_finished. rewrite <- (others_acks x).
  destruct (co (others_act x)) as [cs|]; [|done]. by destruct (Finished r key p cs).
Qed.
Next Obligation.
  intros id x. cbn. unfold checkpointer_fail. rewrite <- (others_acks x). by destruct (co (others_act x)).
Qed.
Next Obligation.
  intros ids x. cbn. unfold checkpointer_completedAmong. rewrite <- (others_acks x). by destruct (co (others_act x)).
Qed.
Next Obligation.
  intros ids x. cbn. unfold checkpointer_awaitCompletedAmong. pose proof (await_among_ok (length (others x)) ids x) as Ha.
  destruct (await_among _ ids x). apply Ha.
Qed.
Next Obligation.
  intros ids x i. cbn. unfold checkpointer_completedAmong. destruct (co (others_act x)) as [cs|] eqn:Ec; cbn.
  - intros [? Hi]%completed_elem. unfold co_complete. by rewrite Ec.
  - by intros ?%elem_of_nil.
Qed.
Next Obligation.
  intros ids x i. cbn. unfold checkpointer_awaitCompletedAmong. pose proof (await_among_ok (length (others x)) ids x) as Ha.
  destruct (await_among _ ids x). apply Ha.
Qed.
Next Obligation.
  intros i id p x Hx. cbn. unfold checkpointer_snapshot.
  destruct (co (others_act x)) as [[c s]|] eqn:Ec; [|by apply others_complete].
  pose proof (Acknowledge_later (S := S) (E := E) r id key p c s) as Hl.
  destruct (Acknowledge r id key p (c, s)) as [res cs']. by apply (call_complete i x (c, s) cs').
Qed.
Next Obligation.
  intros i p x Hx. cbn. unfold checkpointer_finished.
  destruct (co (others_act x)) as [[c s]|] eqn:Ec; [|by apply others_complete].
  pose proof (Finished_later (S := S) (E := E) r key p c s) as Hl.
  destruct (Finished r key p (c, s)) as [res cs']. by apply (call_complete i x (c, s) cs').
Qed.
Next Obligation.
  intros i id x Hx. cbn. unfold checkpointer_fail.
  destruct (co (others_act x)) as [[c s]|] eqn:Ec; [|by apply others_complete].
  pose proof (Fail_later (S := S) (E := E) id c s) as Hl.
  by apply (call_complete i x (c, s) (Fail (E := E) id (c, s)).2).
Qed.
Next Obligation.
  intros i ids x Hx%others_complete. cbn. unfold checkpointer_completedAmong.
  by destruct (co (others_act x)).
Qed.
Next Obligation.
  intros i ids x Hx. cbn. unfold checkpointer_awaitCompletedAmong. pose proof (await_among_ok (length (others x)) ids x) as Ha.
  destruct (await_among _ ids x). by apply (proj1 (proj2 Ha)).
Qed.
End Coordinator.

(** Every subtask of a job over its own handle: its key, and the coordinator. *)
Section Handles.
Context {S E : Type} `{StorageSpec.CheckpointStore S E} (r : ranging).

Definition handle : Type := SubtaskKey * shared S.

Definition handle_Checkpoints : Checkpoints handle (coordinator_error E) := {|
  cp_enabled h := enabled h.2;
  cp_snapshot id p h := let '(res, x) := checkpointer_snapshot (E := E) r h.1 id p h.2 in (res, (h.1, x));
  cp_fail id h := (h.1, checkpointer_fail (E := E) id h.2);
  cp_finished p h := let '(res, x) := checkpointer_finished (E := E) r h.1 p h.2 in (res, (h.1, x));
  cp_completedAmong ids h := let '(l, x) := checkpointer_completedAmong (E := E) ids h.2 in (l, (h.1, x));
  cp_awaitCompletedAmong ids h := let '(l, x) := checkpointer_awaitCompletedAmong (E := E) ids h.2 in (l, (h.1, x));
|}.

Abbreviation of_key key := (checkpointer_CheckpointsLaws r key).
Ltac by_law law :=
  pose proof law as Hlaw; cbn in *;
  repeat match goal with |- context [match ?m with pair _ _ => _ end] => destruct m end; exact Hlaw.

Program Definition handle_CheckpointsLaws : @CheckpointsLaws handle (coordinator_error E) handle_Checkpoints := {|
  cp_complete id h := co_complete id h.2;
  cp_acked h := acks h.2;
|}.
Next Obligation. intros id p [key x] He. by_law (@cp_snapshot_acked _ _ _ (of_key key) id p x He). Qed.
Next Obligation. intros p [key x]. by_law (@cp_finished_acked _ _ _ (of_key key) p x). Qed.
Next Obligation. intros id [key x]. by_law (@cp_fail_acked _ _ _ (of_key key) id x). Qed.
Next Obligation. intros ids [key x]. by_law (@cp_completedAmong_acked _ _ _ (of_key key) ids x). Qed.
Next Obligation. intros ids [key x]. by_law (@cp_await_acked _ _ _ (of_key key) ids x). Qed.
Next Obligation. intros ids [key x] i. by_law (@cp_completedAmong_ok _ _ _ (of_key key) ids x i). Qed.
Next Obligation. intros ids [key x] i. by_law (@cp_await_ok _ _ _ (of_key key) ids x i). Qed.
Next Obligation. intros i id p [key x] Hx. by_law (@cp_snapshot_complete _ _ _ (of_key key) i id p x Hx). Qed.
Next Obligation. intros i p [key x] Hx. by_law (@cp_finished_complete _ _ _ (of_key key) i p x Hx). Qed.
Next Obligation. intros i id [key x] Hx. by_law (@cp_fail_complete _ _ _ (of_key key) i id x Hx). Qed.
Next Obligation. intros i ids [key x] Hx. by_law (@cp_completedAmong_complete _ _ _ (of_key key) i ids x Hx). Qed.
Next Obligation. intros i ids [key x] Hx. by_law (@cp_await_complete _ _ _ (of_key key) i ids x Hx). Qed.
End Handles.

(** * Operations *)

Definition is_write_or_snapshot (o : sink_op) : Prop := match o with OpNotify _ => False | _ => True end.
#[export] Instance is_write_or_snapshot_dec o : Decision (is_write_or_snapshot o).
Proof. destruct o; apply _. Defined.

(** A run without its notifications, and what a stream asks for. *)
Definition strip (l : list sink_op) : list sink_op := filter is_write_or_snapshot l.

Fixpoint stream_ops (es : list StreamElement) : list sink_op :=
  match es with
  | [] => []
  | NewRecordElement rec :: es => OpWrite rec :: stream_ops es
  | NewBarrierElement _ :: es => OpSnapshot :: stream_ops es
  | NewWatermarkElement _ :: es => stream_ops es
  | NewEndOfStreamElement :: _ => []
  end.

(** The barriers before the end of the stream are numbered from [j + 1]. *)
Fixpoint numbered (j : Z) (es : list StreamElement) : Prop :=
  match es with
  | [] | NewEndOfStreamElement :: _ => True
  | NewBarrierElement b :: es => CheckpointID b = j + 1 /\ numbered (j + 1) es
  | _ :: es => numbered j es
  end.

(** What comes before a barrier, and before the end. *)
Fixpoint before_barrier (id : Z) (es : list StreamElement) : list StreamElement :=
  match es with
  | [] => []
  | NewBarrierElement b as e :: es => if CheckpointID b =? id then [] else e :: before_barrier id es
  | e :: es => e :: before_barrier id es
  end.

Fixpoint before_end (es : list StreamElement) : list StreamElement :=
  match es with
  | [] | NewEndOfStreamElement :: _ => []
  | e :: es => e :: before_end es
  end.

(** ** Epochs *)

Lemma epochs_from l cl cur :
  foldl epoch_step (cl, cur) l =
    match closed l with
    | [] => (cl, cur ++ current l)
    | c :: cs => (cl ++ (cur ++ c) :: cs, current l)
    end.
Proof.
  induction l as [|o l IH] using rev_ind; [cbn; by rewrite app_nil_r|]. rewrite foldl_snoc, IH.
  destruct o; rewrite ?closed_write, ?current_write, ?closed_snapshot, ?current_snapshot, ?closed_notify, ?current_notify;
    destruct (closed l) as [|c cs]; cbn; rewrite ?app_nil_r, <- ?app_assoc; done.
Qed.

Lemma closed_cons_write rec l :
  closed (OpWrite rec :: l) = match closed l with [] => [] | c :: cs => (rec :: c) :: cs end.
Proof. unfold closed at 1, epochs. cbn. rewrite epochs_from. by destruct (closed l). Qed.

Lemma closed_cons_snapshot l : closed (OpSnapshot :: l) = [] :: closed l.
Proof. unfold closed at 1, epochs. cbn. rewrite epochs_from. by destruct (closed l). Qed.

Lemma current_cons_write rec l :
  current (OpWrite rec :: l) = match closed l with [] => rec :: current l | _ :: _ => current l end.
Proof. unfold current at 1, epochs. cbn. rewrite epochs_from. by destruct (closed l). Qed.

Lemma current_cons_snapshot l : current (OpSnapshot :: l) = current l.
Proof. unfold current at 1, epochs. cbn. rewrite epochs_from. by destruct (closed l). Qed.

Lemma closed_cons_notify id l : closed (OpNotify id :: l) = closed l.
Proof. unfold closed at 1, epochs. cbn. rewrite epochs_from. by destruct (closed l). Qed.

Lemma closed_strip l : closed (strip l) = closed l.
Proof.
  induction l as [|[rec| |id] l IH]; [done|..]; unfold strip in *; rewrite filter_cons; cbn [decide is_write_or_snapshot].
  - rewrite decide_True by done. by rewrite !closed_cons_write, IH.
  - rewrite decide_True by done. by rewrite !closed_cons_snapshot, IH.
  - rewrite decide_False by (intros []). by rewrite closed_cons_notify, IH.
Qed.

Lemma closed_app_prefix l k : closed l `prefix_of` closed (l ++ k).
Proof.
  induction k as [|o k IH] using rev_ind; [by rewrite app_nil_r|]. rewrite app_assoc.
  destruct o; rewrite ?closed_write, ?closed_snapshot, ?closed_notify; [done| |done].
  by apply prefix_app_r.
Qed.

Lemma current_strip l : current (strip l) = current l.
Proof.
  induction l as [|o l IH] using rev_ind; [done|]. unfold strip in *. rewrite filter_app.
  destruct o as [rec| |id]; rewrite filter_cons; cbn [decide is_write_or_snapshot].
  - rewrite decide_True by done. by rewrite filter_nil, !current_write, IH.
  - rewrite decide_True by done. by rewrite filter_nil, !current_snapshot.
  - rewrite decide_False by (intros []). by rewrite filter_nil, app_nil_r, current_notify, IH.
Qed.

Lemma snapshots_cons o l : snapshots (o :: l) = snapshots [o] + snapshots l.
Proof.
  unfold snapshots. destruct o; rewrite ?closed_cons_write, ?closed_cons_snapshot, ?closed_cons_notify; cbn;
    destruct (closed l); cbn; lia.
Qed.

Lemma snapshots_app l k : snapshots (l ++ k) = snapshots l + snapshots k.
Proof.
  induction l as [|o l IH]; [done|]. cbn [app]. rewrite (snapshots_cons o l), snapshots_cons, IH. lia.
Qed.

(** * The loop drives the sink *)

Section Loop.
Context {X XE : Type} `{CheckpointsLaws X XE} {GE : Type} (fs : faults).

Abbreviation state := (Transactional * fsys)%type.

(** An acknowledged checkpoint is of a snapshot taken at its number. *)
Definition acked_at (j : Z) (t : state) (l : list sink_op) (a : Z * bytes) : Prop :=
  exists l1 l2 t1, l = l1 ++ OpSnapshot :: l2 /\ run_ops l1 t = (length l1, t1) /\
    (Snapshot t1).1 = Ok a.2 /\ a.1 = j + 1 + snapshots l1.

(** From [t] and [x], [m] of the operations [l] were run, and this is how it
    stands; [j] is the last checkpoint before. *)
Record plays (j : Z) (t : state) (x : X) (l : list sink_op) (m : nat) (t' : state) (x' : X) : Prop := {
  p_run : run_ops l t = (m, t');
  p_notes : well_notified j l;
  p_told id : notified (take m l) id -> cp_complete id x';
  p_keeps id : cp_complete id x -> cp_complete id x';
  p_acks : exists news, cp_acked x' = cp_acked x ++ news /\ Forall (acked_at j t (take m l)) news;
}.

Lemma run_ops_app l k (t t1 : state) :
  run_ops l t = (length l, t1) -> run_ops (l ++ k) t = let '(m, t2) := run_ops k t1 in ((length l + m)%nat, t2).
Proof.
  revert t. induction l as [|o l IH]; intros t; cbn [run_ops app length].
  { intros [= <-]. by destruct (run_ops k t). }
  destruct (run_op o t) as [[[]|e] t2]; [|done]. destruct (run_ops l t2) as [n t3] eqn:E. intros [= -> ->].
  rewrite (IH t2 E). by destruct (run_ops k t1).
Qed.

Lemma plays_nil j t x : plays j t x [] 0 t x.
Proof.
  split; [done|by intros [] ? ? ?|by intros ? ?%elem_of_nil|done|]. exists []. by rewrite app_nil_r.
Qed.

Lemma plays_app j t x l1 t1 x1 l2 m t2 x2 :
  plays j t x l1 (length l1) t1 x1 -> plays (j + snapshots l1) t1 x1 l2 m t2 x2 ->
  plays j t x (l1 ++ l2) (length l1 + m) t2 x2.
Proof.
  intros [R1 N1 T1 K1 (n1 & A1 & F1)] [R2 N2 T2 K2 (n2 & A2 & F2)].
  assert (take (length l1 + m) (l1 ++ l2) = l1 ++ take m l2) as Et by by rewrite take_app_add.
  rewrite take_ge in T1, F1 by done. split.
  - by rewrite (run_ops_app _ _ _ _ R1), R2.
  - intros a id b E. apply app_eq_app in E as (k & [[-> E]|[-> E]]).
    + destruct k as [|o k]; cbn in E.
      * rewrite app_nil_r in *. specialize (N2 [] id b (eq_sym E)). cbn in N2. unfold snapshots at 2 in N2. cbn in N2. lia.
      * injection E as <- E. by apply (N1 a id k).
    + rewrite snapshots_app. specialize (N2 k id b E). lia.
  - rewrite Et. intros id [Hn|Hn]%elem_of_app; [by apply K2, T1|by apply T2].
  - auto.
  - exists (n1 ++ n2). split; [by rewrite A2, A1, app_assoc|]. rewrite Et. apply Forall_app. split.
    + eapply Forall_impl; [exact F1|]. intros a (a1 & a2 & u & -> & Hu). exists a1, (a2 ++ take m l2), u.
      by rewrite <- app_assoc.
    + eapply Forall_impl; [exact F2|]. intros a (a1 & a2 & u & -> & Hu & Hp & Ha). exists (l1 ++ a1), a2, u.
      rewrite snapshots_app, length_app. split_and!; [by rewrite app_assoc|by rewrite (run_ops_app _ _ _ _ R1), Hu|done|lia].
Qed.

(** An operation that fails is the last. *)
Lemma plays_fails j t x o e t' x' :
  (forall id, o <> OpNotify id) -> run_op o t = (Err e, t') -> cp_acked x' = cp_acked x ->
  (forall id, cp_complete id x -> cp_complete id x') -> plays j t x [o] 0 t' x'.
Proof.
  intros Ho E Ha Hx. split.
  - cbn. by rewrite E.
  - intros a id b Eo. destruct a as [|? [|]]; injection Eo as -> ; [by destruct (Ho id)|done|done].
  - by intros id ?%elem_of_nil.
  - done.
  - exists []. by rewrite app_nil_r.
Qed.

Lemma plays_write j t x rec t' : Write rec t = (Ok tt, t') -> plays j t x [OpWrite rec] 1 t' x.
Proof.
  intros E. split.
  - cbn. by rewrite E.
  - intros [|? [|]] id b Eo; done.
  - intros id [Hn|Hn%elem_of_nil]%elem_of_cons; done.
  - done.
  - exists []. by rewrite app_nil_r.
Qed.

Lemma plays_snapshot j t x p t' x' news :
  Snapshot t = (Ok p, t') -> (forall id, cp_complete id x -> cp_complete id x') ->
  cp_acked x' = cp_acked x ++ news -> Forall (fun a => a = (j + 1, p)) news ->
  plays j t x [OpSnapshot] 1 t' x'.
Proof.
  intros E Hx Ha Hn. split.
  - cbn. unfold mbind, M_bind. by rewrite E.
  - intros [|? [|]] id b Eo; done.
  - intros id [Hn'|Hn'%elem_of_nil]%elem_of_cons; done.
  - done.
  - exists news. split; [done|]. eapply Forall_impl; [exact Hn|]. intros a ->.
    exists [], [], t. split_and!; [done|done|by rewrite E|]. cbn. unfold snapshots. cbn. lia.
Qed.

Lemma snapshots_notifies done : snapshots (OpNotify <$> done) = 0.
Proof.
  induction done as [|id done IH]; [done|]. rewrite fmap_cons, snapshots_cons, IH. done.
Qed.

(** Telling the sink of what has completed. *)
Lemma plays_notified j t x done staged staged' t' x' :
  notifyCompleted done staged t = (staged', t') ->
  Forall (fun id => 1 <= id <= j /\ cp_complete id x') done ->
  (forall id, cp_complete id x -> cp_complete id x') -> cp_acked x' = cp_acked x ->
  plays j t x (OpNotify <$> done) (length (OpNotify <$> done)) t' x' /\ staged' ⊆ staged.
Proof.
  intros E Hd Hx Ha. revert staged t E. induction Hd as [|id done [Hid Hc] _ IH]; intros staged t E.
  { injection E as <- <-. split; [|done]. split; [done|by intros [] ? ?|by intros ? ?%elem_of_nil|done|].
    exists []. by rewrite app_nil_r. }
  cbn [notifyCompleted] in E. apply IH in E as [[R N T K (n & A & F)] Hs].
  rewrite fmap_cons. split; [split|].
  - cbn. cbn in R. unfold snk_Notify in R. cbn in R. rewrite R. done.
  - intros [|o a] i b Eo; cbn in Eo.
    + injection Eo as -> _. unfold snapshots. cbn. lia.
    + injection Eo as <- Eo. rewrite snapshots_cons. exact (N a i b Eo).
  - intros i [Hi|Hi]%elem_of_cons; [by injection Hi as ->|by apply T].
  - done.
  - exists []. rewrite app_nil_r. by split.
  - intros i Hi%Hs. by apply list_elem_of_filter in Hi as [_ ?].
Qed.

(** What of the stream has been asked of the sink. *)
Definition asked (es : list StreamElement) (r : result (sink_task_error sink_error XE GE) unit) (l : list sink_op) (m : nat) : Prop :=
  strip l `prefix_of` stream_ops es /\ (r = Ok tt -> m = length l /\ strip l = stream_ops es).

Abbreviation loop := (sink_loop (GE := GE) fs (T := state)).

Lemma strip_notifies done : strip (OpNotify <$> done) = [].
Proof. unfold strip. induction done as [|id done IH]; [done|]. by rewrite fmap_cons, filter_cons_False by (intros []). Qed.

(** ** The elements *)

Lemma settle_plays (ask : list Z -> X -> list Z * X) j staged t x staged' t' x' :
  (forall ids x i, i ∈ (ask ids x).1 -> i ∈ ids /\ cp_complete i (ask ids x).2) ->
  (forall i ids x, cp_complete i x -> cp_complete i (ask ids x).2) ->
  (forall ids x, cp_acked (ask ids x).2 = cp_acked x) ->
  Forall (fun i => 1 <= i <= j) staged ->
  settle (TE := sink_error) (XE := XE) (GE := GE) (T := state) ask staged (t, x) = (Ok staged', (t', x')) ->
  exists done, plays j t x (OpNotify <$> done) (length (OpNotify <$> done)) t' x' /\ Forall (fun i => 1 <= i <= j) staged'.
Proof.
  intros Hin Hm Ha Hs. unfold settle. specialize (Hin staged x). specialize (Ha staged x).
  assert (forall i, cp_complete i x -> cp_complete i (ask staged x).2) as Hx by auto.
  destruct (ask staged x) as [done x1]. cbn in *.
  destruct (notifyCompleted done staged t) as [staged1 t1] eqn:E. intros [= <- <- <-]. exists done.
  destruct (plays_notified j t x done staged staged1 t1 x1 E) as [Hp Hsub]; [|done|done|].
  - apply Forall_forall. intros i Hi. destruct (Hin i Hi) as [Hst Hc]. split; [|done].
    exact (proj1 (Forall_forall _ _) Hs i Hst).
  - split; [done|]. apply Forall_forall. intros i Hi. exact (proj1 (Forall_forall _ _) Hs i (Hsub i Hi)).
Qed.

(** The snapshot of a barrier: it fails, or the loop goes on. *)
Lemma snapshot_plays j t x t' x' r :
  snapshotSinkState (TE := sink_error) (GE := GE) (T := state) (j + 1) (t, x) = (r, (t', x')) ->
  exists m, plays j t x [OpSnapshot] m t' x' /\ (r = Ok tt -> m = 1%nat).
Proof.
  unfold snapshotSinkState. destruct (cp_enabled x) eqn:Een; cbn [negb].
  - change (snk_Snapshot t) with (Snapshot t). destruct (Snapshot t) as [[p|e] t1] eqn:E.
    + unfold on_cp. pose proof (cp_snapshot_acked (j + 1) p x Een) as Ha.
      assert (forall id, cp_complete id x -> cp_complete id (cp_snapshot (j + 1) p x).2) as Hx
        by (intros; by apply cp_snapshot_complete).
      destruct (cp_snapshot (j + 1) p x) as [res x1]. cbn in Ha, Hx. intros [= <- <- <-]. exists 1%nat. split; [|done].
      apply (plays_snapshot j t x p t1 x1 (if is_ok res then [(j + 1, p)] else [])); [done|done| |].
      * rewrite Ha. destruct (is_ok res); [done|by rewrite app_nil_r].
      * destruct (is_ok res); by repeat constructor.
    + intros [= <- <- <-]. exists 0%nat. split; [|done]. apply (plays_fails j t x OpSnapshot e); [done| |apply cp_fail_acked|].
      * cbn. unfold mbind, M_bind. by rewrite E.
      * intros. by apply cp_fail_complete.
  - unfold on_snk, mbind, M_bind, mret, M_ret. change (snk_Snapshot t) with (Snapshot t).
    destruct (Snapshot t) as [[p|e] t1] eqn:E; cbn; intros [= <- <- <-].
    + exists 1%nat. split; [|done]. apply (plays_snapshot j t x p t1 x []); [done..|by rewrite app_nil_r|done].
    + exists 0%nat. split; [|done]. apply (plays_fails j t x OpSnapshot e); [done| |done..].
      cbn. unfold mbind, M_bind. by rewrite E.
Qed.

Lemma asked_more o l l' m es r :
  strip l = [o] -> asked es r l' m -> strip (l ++ l') `prefix_of` o :: stream_ops es /\
  (r = Ok tt -> (length l + m)%nat = length (l ++ l') /\ strip (l ++ l') = o :: stream_ops es).
Proof.
  intros Hl [Hp Hok]. unfold strip in *. rewrite filter_app, Hl. split; [by apply prefix_cons|].
  intros Hr. destruct (Hok Hr) as [-> ->]. by rewrite length_app.
Qed.

Lemma strip_one o : is_write_or_snapshot o -> strip [o] = [o].
Proof. intros Ho. unfold strip. by rewrite filter_cons_True. Qed.

(** The loop runs operations: those its stream asks for, as far as it gets, and
    notifications of what has completed. *)
Lemma loop_plays (closed : result GE unit) es n staged j t x r t' x' :
  0 <= j -> numbered j es -> Forall (fun i => 1 <= i <= j) staged ->
  loop closed es n staged (t, x) = (r, (t', x')) ->
  exists l m, plays j t x l m t' x' /\ asked es r l m.
Proof.
  revert n staged j t x. induction es as [|e es IH]; intros n staged j t x Hj Hnum Hst E.
  { cbn in E. unfold lift in E. injection E as _ <- <-. exists [], 0%nat. split; [apply plays_nil|]. by split. }
  assert (forall o, plays j t x [] 0 t' x' -> stream_ops (e :: es) = o :: stream_ops es -> r <> Ok tt ->
    exists l m, plays j t x l m t' x' /\ asked (e :: es) r l m) as Hnone.
  { intros o Hp Eo Hr. exists [], 0%nat. split; [done|]. split; [apply prefix_nil|done]. }
  destruct e as [rec|wm|b|]; cbn [sink_loop] in E; cbn [numbered] in Hnum.
  - apply bind_any in E as [(err & E & ->)|([] & [t1 x1] & E1 & E)].
    { unfold on_fault, lift in E. injection E as _ <- <-. by apply (Hnone (OpWrite rec)); [apply plays_nil|..]. }
    unfold on_fault, lift in E1. injection E1 as _ <- <-.
    apply bind_any in E as [(err & E & ->)|([] & [t1 x1] & E1 & E)].
    + unfold on_snk in E. change (snk_Write rec t) with (Write rec t) in E.
      destruct (Write rec t) as [[[]|e] t1] eqn:Ew; [done|]. injection E as _ <- <-.
      exists [OpWrite rec], 0%nat. split; [by apply (plays_fails j t x (OpWrite rec) e)|].
      split; [|done]. rewrite strip_one by done. by apply prefix_cons, prefix_nil.
    + unfold on_snk in E1. change (snk_Write rec t) with (Write rec t) in E1.
      destruct (Write rec t) as [[[]|e] t2] eqn:Ew; [|done]. injection E1 as <- <-.
      destruct (IH _ staged j t2 x Hj Hnum Hst E) as (l & m & Hp & Ha).
      exists ([OpWrite rec] ++ l), (length [OpWrite rec] + m)%nat. split.
      * eapply plays_app; [by apply plays_write|]. by rewrite Z.add_0_r.
      * by apply asked_more; [apply strip_one|].
  - destruct (IH _ staged j t x Hj Hnum Hst E) as (l & m & Hp & Ha). by exists l, m.
  - destruct Hnum as [Hb Hnum]. rewrite Hb in E.
    apply bind_any in E as [(err & E & ->)|([] & [t1 x1] & E1 & E)].
    { apply snapshot_plays in E as (m & Hp & _). exists [OpSnapshot], m. split; [done|].
      split; [|done]. rewrite strip_one by done. by apply prefix_cons, prefix_nil. }
    apply snapshot_plays in E1 as (m1 & Hp1 & Hm1). rewrite (Hm1 eq_refl) in Hp1. clear Hm1 m1.
    assert (j + snapshots [OpSnapshot] = j + 1) as Ej by done.
    apply bind_any in E as [(err & E & ->)|([] & [t2 x2] & E2 & E)].
    { unfold on_fault, lift in E. injection E as _ <- <-. exists [OpSnapshot], 1%nat. split; [done|].
      split; [|done]. rewrite strip_one by done. by apply prefix_cons, prefix_nil. }
    unfold on_fault, lift in E2. injection E2 as _ <- <-.
    assert (Forall (fun i => 1 <= i <= j + 1) (staged ++ [j + 1])) as Hst1.
    { apply Forall_app. split; [|by constructor; [lia|]]. eapply Forall_impl; [exact Hst|]. intros i ?. cbn in *. lia. }
    apply bind_any in E as [(err & E & _)|(staged2 & [t2 x2] & E2 & E)].
    { unfold settle in E. destruct (cp_completedAmong _ x1) as [? ?]. by destruct (notifyCompleted _ _ t1). }
    apply (settle_plays cp_completedAmong (j + 1)) in E2 as (told & Hp2 & Hst2);
      [|intros; by apply cp_completedAmong_ok|intros; by apply cp_completedAmong_complete|
       intros; apply cp_completedAmong_acked|done].
    destruct (IH _ staged2 (j + 1) t2 x2 ltac:(lia) Hnum Hst2 E) as (l & m & Hp & Ha).
    exists ([OpSnapshot] ++ (OpNotify <$> told) ++ l), (length [OpSnapshot] + (length (OpNotify <$> told) + m))%nat. split.
    + eapply plays_app; [exact Hp1|]. rewrite Ej. eapply plays_app; [exact Hp2|].
      by rewrite snapshots_notifies, Z.add_0_r.
    + replace (stream_ops (NewBarrierElement b :: es)) with (OpSnapshot :: stream_ops es) by done.
      assert (asked es r ((OpNotify <$> told) ++ l) (length (OpNotify <$> told) + m)) as Ha'.
      { destruct Ha as [Hpre Hok]. unfold asked, strip in *. rewrite filter_app.
        fold (strip (OpNotify <$> told)). rewrite strip_notifies, app_nil_l. split; [done|].
        intros Hr. destruct (Hok Hr) as [-> ?]. by rewrite length_app. }
      by apply asked_more; [apply strip_one|].
  - apply bind_any in E as [(err & E & _)|(staged2 & [t2 x2] & E2 & E)].
    { unfold settle in E. destruct (cp_awaitCompletedAmong _ x) as [? ?]. by destruct (notifyCompleted _ _ t). }
    injection E as <- <- <-.
    apply (settle_plays cp_awaitCompletedAmong j) in E2 as (told & Hp2 & Hst2);
      [|intros; by apply cp_await_ok|intros; by apply cp_await_complete|intros; apply cp_await_acked|done].
    eexists _, _. split; [exact Hp2|]. split; [by rewrite strip_notifies|]. by rewrite strip_notifies.
Qed.
End Loop.

(** * The subtask *)

Lemma run_ops_all l (t t' : Transactional * fsys) : run_ops l t = (length l, t') -> for_each run_op l t = (Ok tt, t').
Proof.
  revert t. induction l as [|o l IH]; intros t; [by intros [= <-]|]. cbn [run_ops length]. rewrite for_each_cons.
  destruct (run_op o t) as [[[]|e] t1]; [|done]. destruct (run_ops l t1) as [n t2] eqn:E.
  intros [= -> ->]. by apply IH.
Qed.

Lemma Close_none t s : file t = None -> Close (t, s) = (Ok tt, (t, s)).
Proof. intros Hf. unfold Close, closeEpoch, mbind, M_bind, get_sink. cbn. by rewrite Hf. Qed.

Section Subtask.
Context {X XE : Type} `{CheckpointsLaws X XE} {GE : Type}.
Context (rt v : bytes) (ix : Z) (Hix : 0 <= ix <= max_int64).

Abbreviation run_sink fs := (runSinkSubtask (GE := GE) (T := Transactional * fsys) fs (v, ix)).

(** What a stream delivers: after the checkpoint [k] that was restored, barriers
    numbered from there and records that can be written. *)
Record delivered (k : Z) (es : list StreamElement) : Prop := {
  d_numbered : numbered k es;
  d_records : Forall op_ok (stream_ops es);
  d_bound : k + snapshots (stream_ops es) < max_int64 - 1;
}.

(** A run of the subtask is a run of the sink. *)
Lemma subtask_plays fs k restored (closed : result GE unit) es s x r t' s' x' :
  0 <= k -> default [] restored = payload_of_cut k -> numbered k es ->
  run_sink fs restored closed es ((NewTransactional rt, s), x) = (r, ((t', s'), x')) ->
  exists l m, failed_run rt (v, ix) k l s = (m, s') /\ asked es r l m /\ well_notified k l /\
    (forall id, notified (take m l) id -> cp_complete id x') /\
    (exists news, cp_acked x' = cp_acked x ++ news /\
       Forall (fun a => exists t1, start_sink (v, ix) k (NewTransactional rt, s) = (Ok tt, t1) /\
         acked_at k t1 (take m l) a) news) /\
    (r = Ok tt -> (_ ← start_sink (v, ix) k; _ ← for_each run_op l; Close) (NewTransactional rt, s) = (Ok tt, (t', s'))).
Proof.
  intros Hk Hres Hnum. unfold runSinkSubtask, on_snk. change (snk_Open (v, ix)) with (Open (v, ix)).
  destruct (Open (v, ix) (NewTransactional rt, s)) as [r1 [t1 s1]] eqn:E1.
  destruct (Open_spec rt v ix Hix k (fun _ => []) Hk s r1 t1 s1 E1) as (_ & Et1 & _).
  assert (forall e, r = Err e -> asked (XE := XE) (GE := GE) es r [] 0 /\ well_notified k [] /\
    (forall id, notified (take 0 []) id -> cp_complete id x')) as Hnone.
  { intros e ->. split; [by split; [apply prefix_nil|]|]. split; [by intros [] ? ?|by intros ? ?%elem_of_nil]. }
  destruct r1 as [[]|e1]; cbn [wrap_err]; cycle 1.
  { intros [= <- <- <- <-]. exists [], 0%nat. destruct (Hnone _ eq_refl) as (Ha & Hw & Hn). split_and!; try done.
    - unfold failed_run, start_sink, mbind, M_bind. rewrite E1, Close_none by by subst. done.
    - exists []. by rewrite app_nil_r. }
  unfold restore_sink. cbn [snk_Restore Transactional_Sink]. rewrite Hres. unfold on_snk, mbind at 1, M_bind at 1.
  destruct (Restore (payload_of_cut k) (t1, s1)) as [r2 [t2 s2]] eqn:E2.
  assert (start_sink (v, ix) k (NewTransactional rt, s) = (r2, (t2, s2))) as Est.
  { unfold start_sink, mbind, M_bind. by rewrite E1. }
  change (snk_Close (T := Transactional * fsys)) with Close.
  destruct r2 as [[]|e2]; cbn [wrap_err]; cycle 1.
  { destruct (Close (t2, s2)) as [rc [tc sc]] eqn:Ec. intros [= <- <- <- <-]. exists [], 0%nat.
    destruct (Hnone _ eq_refl) as (Ha & Hw & Hn). split_and!; try done.
    - unfold failed_run. by rewrite Est, Ec.
    - exists []. by rewrite app_nil_r. }
  destruct (sink_loop fs closed es 0 [] ((t2, s2), x)) as [r3 [[t3 s3] x3]] eqn:E3.
  destruct (Close (t3, s3)) as [rc [tc sc]] eqn:Ec. intros [= Er <- <- <-].
  destruct (loop_plays fs closed es 0 [] k (t2, s2) x r3 (t3, s3) x3 Hk Hnum (List.Forall_nil _) E3)
    as (l & m & [Hrun Hnotes Htold _ (news & Hacks & HF)] & Hpre & Hall).
  exists l, m. split; [unfold failed_run; by rewrite Est, Hrun, Ec|]. split; [|split_and!; [done|done|..]].
  - split; [done|]. intros ->. apply Hall. by destruct r3 as [[]|].
  - exists news. split; [done|]. eapply Forall_impl; [exact HF|]. intros a Ha. by exists (t2, s2).
  - intros ->. destruct r3 as [[]|]; [|done]. destruct (Hall eq_refl) as [-> _].
    unfold mbind at 1, M_bind at 1. rewrite Est. unfold mbind, M_bind. rewrite (run_ops_all _ _ _ Hrun), Ec.
    by destruct rc as [[]|].
Qed.

(** ** What the cuts of a stream hold *)

Lemma closed_before k k' es :
  numbered k es -> k < k' <= k + snapshots (stream_ops es) ->
  concat (take (Z.to_nat (k' - k)) (closed (stream_ops es))) = records (before_barrier k' es).
Proof.
  revert k. induction es as [|[rec|wm|b|] es IH]; intros k Hnum Hk'; cbn [stream_ops before_barrier] in *.
  - unfold snapshots in Hk'. cbn in Hk'. lia.
  - rewrite snapshots_cons in Hk'. cbn in Hk'. specialize (IH k Hnum ltac:(unfold snapshots in *; cbn in *; lia)).
    change (records (NewRecordElement rec :: ?l)) with (rec :: records l). rewrite <- IH, closed_cons_write.
    unfold snapshots in Hk'. destruct (closed (stream_ops es)) as [|c cs]; [cbn in Hk'; lia|].
    destruct (Z.to_nat (k' - k)) eqn:En; [lia|]. done.
  - exact (IH k Hnum Hk').
  - destruct Hnum as [Hb Hnum]. rewrite closed_cons_snapshot, Hb. rewrite snapshots_cons in Hk'.
    change (snapshots [OpSnapshot]) with 1 in Hk'. destruct (Z.eqb_spec (k + 1) k') as [<-|Hne].
    + replace (k + 1 - k) with 1 by lia. done.
    + change (records (NewBarrierElement b :: ?l)) with (records l).
      rewrite <- (IH (k + 1) Hnum) by lia. replace (Z.to_nat (k' - k)) with (S (Z.to_nat (k' - (k + 1)))) by lia. done.
  - unfold snapshots in Hk'. cbn in Hk'. lia.
Qed.

(** The barriers of a numbered stream, and where they are. *)
Lemma snapshots_nb es : snapshots (stream_ops es) <= Z.of_nat (nb es).
Proof using.
  clear dependent ix.
  induction es as [|[rec|wm|b|] es IH]; cbn [stream_ops]; rewrite ?nb_cons; cbn [barrier_of]; [done|..].
  - rewrite snapshots_cons. unfold snapshots at 1. cbn. lia.
  - done.
  - rewrite snapshots_cons. unfold snapshots at 1. cbn. lia.
  - unfold snapshots. cbn. lia.
Qed.

Lemma numbered_from j es : (forall n b, barriers es !! n = Some b -> CheckpointID b = j + 1 + Z.of_nat n) -> numbered j es.
Proof using.
  clear dependent ix.
  revert j. induction es as [|[rec|wm|b|] es IH]; intros j Hb; cbn [numbered]; [done|by apply IH|by apply IH| |done].
  change (barriers (NewBarrierElement b :: es)) with (b :: barriers es) in Hb. split.
  - specialize (Hb 0%nat b eq_refl). lia.
  - apply IH. intros n b' Hn. specialize (Hb (S n) b' Hn). lia.
Qed.

Lemma before_barrier_split j id es :
  numbered j es -> j < id <= j + snapshots (stream_ops es) ->
  exists b post, es = before_barrier id es ++ NewBarrierElement b :: post /\
    NewEndOfStreamElement ∉ before_barrier id es /\ nb (before_barrier id es) = Z.to_nat (id - j - 1).
Proof using.
  clear dependent ix.
  revert j. induction es as [|[rec|wm|b|] es IH]; intros j; cbn [numbered stream_ops before_barrier].
  - unfold snapshots. cbn. lia.
  - intros Hn Hid. rewrite snapshots_cons in Hid. unfold snapshots at 1 in Hid. cbn in Hid.
    destruct (IH j Hn ltac:(lia)) as (b & post & E & He & Hnb). exists b, post. rewrite nb_cons. cbn [barrier_of].
    split_and!; [cbn; by f_equal|set_solver|done].
  - intros Hn Hid. destruct (IH j Hn ltac:(lia)) as (b & post & E & He & Hnb). exists b, post. rewrite nb_cons. cbn [barrier_of].
    split_and!; [cbn; by f_equal|set_solver|done].
  - intros [Hb Hn] Hid. rewrite snapshots_cons in Hid. unfold snapshots at 1 in Hid. cbn in Hid.
    destruct (Z.eqb_spec (CheckpointID b) id) as [<-|Hne].
    + exists b, es. split_and!; [done|apply not_elem_of_nil|]. replace (CheckpointID b - j - 1) with 0 by lia. done.
    + destruct (IH (j + 1) Hn ltac:(lia)) as (b' & post & E & He & Hnb). exists b', post. rewrite nb_cons. cbn [barrier_of].
      split_and!; [cbn; by f_equal|set_solver|]. rewrite Hnb. lia.
  - unfold snapshots. cbn. lia.
Qed.

Lemma before_end_app o k : NewEndOfStreamElement ∉ o -> before_end (o ++ NewEndOfStreamElement :: k) = o.
Proof using.
  induction o as [|e o IH]; [done|]. intros [He Ho]%not_elem_of_cons.
  destruct e; [..|done]; cbn; by rewrite IH.
Qed.

Lemma written_before_end es :
  concat (closed (stream_ops es)) ++ current (stream_ops es) = records (before_end es).
Proof.
  induction es as [|[rec|wm|b|] es IH]; cbn [stream_ops before_end]; [done| | | |done].
  - change (records (NewRecordElement rec :: ?l)) with (rec :: records l). rewrite <- IH.
    rewrite closed_cons_write, current_cons_write. by destruct (closed (stream_ops es)).
  - exact IH.
  - change (records (NewBarrierElement b :: ?l)) with (records l). rewrite <- IH.
    rewrite closed_cons_snapshot, current_cons_snapshot. done.
Qed.

(** A run got through a part of its stream. *)
Lemma asked_part es r l m :
  asked (XE := XE) (GE := GE) es r l m -> Forall op_ok (stream_ops es) ->
  Forall op_ok l /\ snapshots l <= snapshots (stream_ops es) /\
  forall d, (d <= length (closed (take m l)))%nat -> take d (closed (take m l)) = take d (closed (stream_ops es)).
Proof.
  intros [Hpre _] Hops. split_and!.
  - assert (Forall op_ok (strip l)) as Hs by (by destruct Hpre as [k E]; rewrite E in Hops; apply Forall_app in Hops as [? _]).
    apply Forall_forall. intros [rec| |id] Hin; [|done..]. apply (proj1 (Forall_forall _ _) Hs).
    apply list_elem_of_filter. by split.
  - unfold snapshots at 1. rewrite <- closed_strip. fold (snapshots (strip l)). destruct Hpre as [k ->]. apply snapshots_mono.
  - intros d Hd. rewrite <- (closed_strip (take m l)) in Hd |- *.
    assert (strip (take m l) `prefix_of` stream_ops es) as [k E].
    { etrans; [|exact Hpre]. exists (strip (drop m l)). unfold strip. by rewrite <- filter_app, take_drop. }
    rewrite E. destruct (closed_app_prefix (strip (take m l)) k) as [c ->]. by rewrite take_app_le.
Qed.

(** ** Runs of a job *)

(** The runs of the subtask before the one that completes. Each is over what the
    run before it left, restored from nothing, or from what was restored before,
    or from a checkpoint the run before acknowledged: the last to have completed.
    [out] is what was delivered before the cut. *)
Inductive sink_history : fsys -> Z -> option bytes -> list Record_ -> Prop :=
| history_start s : names s = ∅ -> sink_history s 0 None []
| history_again s k p out fs (closed : result GE unit) es script x r t' s' x' :
    sink_history s k p out -> delivered k es ->
    run_sink fs p closed es ((NewTransactional rt, with_outcomes script s), x) = (r, ((t', s'), x')) ->
    (forall i, cp_complete i x' -> i <= k) ->
    sink_history s' k p out
| history_moved s k p out fs (closed : result GE unit) es script (x : X) r t' s' x' news id q :
    sink_history s k p out -> delivered k es ->
    run_sink fs p closed es ((NewTransactional rt, with_outcomes script s), x) = (r, ((t', s'), x')) ->
    cp_acked x' = cp_acked x ++ news -> (id, q) ∈ news ->
    (forall i, cp_complete i x' -> i <= id) ->
    sink_history s' id (Some q) (out ++ records (before_barrier id es)).

(** The payload of an acknowledged checkpoint is its number, and its cut is one
    the run has closed. *)
Lemma acked_payload k R l m t1 s a :
  0 <= k -> kept rt v ix (k + 1) R (fun j => j <= k) s -> k + 1 < max_int64 ->
  start_sink (v, ix) k (NewTransactional rt, s) = (Ok tt, t1) ->
  well_notified k l -> k + snapshots l < max_int64 - 1 -> acked_at k t1 (take m l) a ->
  k < a.1 <= k + snapshots (take m l) /\ a.2 = payload_of_cut a.1.
Proof.
  intros Hk K Hm E1 Hw Hb (l1 & l2 & [tu su] & El & Erun & Esn & Eid). destruct t1 as [t1 s1].
  assert (l = l1 ++ (OpSnapshot :: l2) ++ drop m l) as Efull by by rewrite app_assoc, <- El, take_drop.
  pose proof (snapshots_nonneg l1). pose proof (snapshots_nonneg l2).
  assert (snapshots (take m l) = snapshots l1 + 1 + snapshots l2) as Es.
  { rewrite El, snapshots_app, snapshots_cons. change (snapshots [OpSnapshot]) with 1. lia. }
  split; [lia|].
  apply (start_alive rt v ix Hix k R Hk) in E1 as [E1 _]; [|done|done]. specialize (E1 eq_refl).
  assert (snapshots l1 <= snapshots l) by (rewrite Efull; apply snapshots_mono).
  apply run_ops_all in Erun.
  apply (run_all_alive rt v ix Hix k R Hk l1 []) in Erun; [|done| |].
  2:{ cbn. rewrite Efull in Hw. by eapply well_notified_app. }
  2:{ cbn. unfold epoch_of. lia. }
  cbn [app] in Erun. revert Esn. unfold Snapshot, mbind, M_bind, get_sink, set_sink, modify, mret, M_ret.
  destruct (closeEpoch (tu, su)) as [r2 [t2 s2]] eqn:E2.
  assert (well_notified k l1) as Hw1 by (rewrite Efull in Hw; by eapply well_notified_app).
  destruct (closed_whole rt v ix k R Hk l1 tu su r2 t2 s2 Erun Hw1 E2) as (_ & -> & _).
  destruct r2 as [[]|]; [|done]. cbn. intros [= <-].
  rewrite (a_epoch _ _ _ _ _ _ _ _ Erun). unfold payload_of_cut, epoch_of.
  rewrite (proj2 (Z.eqb_neq _ _)) by lia. f_equal. lia.
Qed.

Lemma history_recovering s k p out :
  sink_history s k p out -> recovering rt (v, ix) s k out /\ default [] p = payload_of_cut k /\ 0 <= k /\ k < max_int64 - 1.
Proof.
  induction 1 as [s Hn|s k p out fs closed es script x r t' s' x' _ (IH & Hp & Hk & Hkm) Hd Erun Hle
                 |s k p out fs closed es script x r t' s' x' news id q _ (IH & Hp & Hk & Hkm) Hd Erun Ha Hin Hle].
  { split_and!; [by constructor|done|done|unfold_ints; lia]. }
  all: destruct Hd as [Hnum Hops Hb];
    destruct (subtask_plays fs k p closed es _ x r t' s' x' Hk Hp Hnum Erun)
      as (l & m & Hrun & Hasked & Hw & Htold & (news' & Ha' & HF) & _);
    destruct (asked_part _ _ _ _ Hasked Hops) as (Hl & Hsn & Hpart).
  - split; [|done]. replace out with (out ++ concat (take (Z.to_nat (k - k)) (ExactlyOnce.closed (take m l))))
      by by rewrite Z.sub_diag, app_nil_r.
    eapply recovering_run; [exact IH|exact Hl|exact Hw|lia|exact Hrun|pose proof (snapshots_nonneg (take m l)); lia|].
    intros i Hi. by apply Hle, Htold.
  - rewrite Ha in Ha'. apply app_inv_head in Ha' as <-.
    destruct (proj1 (Forall_forall _ _) HF _ Hin) as (t1 & E1 & Hat).
    destruct (recovering_kept rt v ix s k out Hix IH) as (_ & _ & R & K & _).
    pose proof (kept_same _ _ _ _ _ _ _ _ K (same_with_outcomes script s)) as K1.
    destruct (acked_payload k R l m t1 _ _ Hk K1 ltac:(lia) E1 Hw ltac:(lia) Hat) as [Hid Hq]. cbn in Hid, Hq.
    assert (snapshots (take m l) <= snapshots l) by (rewrite <- (take_drop m l) at 2; apply snapshots_mono).
    split_and!; [|done|lia|lia].
    rewrite <- (closed_before k id es Hnum) by lia. rewrite <- Hpart by (unfold snapshots in Hid; lia).
    eapply recovering_run; [exact IH|exact Hl|exact Hw|lia|exact Hrun|lia|].
    intros i Hi. by apply Hle, Htold.
Qed.
(** A checkpoint a run acknowledges is of one of its barriers. *)
Lemma history_acked s k p out fs (closed : result GE unit) es script (x : X) r t' s' x' news id q :
  sink_history s k p out -> delivered k es ->
  run_sink fs p closed es ((NewTransactional rt, with_outcomes script s), x) = (r, ((t', s'), x')) ->
  cp_acked x' = cp_acked x ++ news -> (id, q) ∈ news -> k < id <= k + snapshots (stream_ops es).
Proof.
  intros Hh [Hnum Hops Hb] Erun Ha Hin. destruct (history_recovering s k p out Hh) as (Hrec & Hp & Hk & Hkm).
  destruct (subtask_plays fs k p closed es _ x r t' s' x' Hk Hp Hnum Erun)
    as (l & m & _ & Hasked & Hw & _ & (news' & Ha' & HF) & _).
  destruct (asked_part _ _ _ _ Hasked Hops) as (_ & Hsn & _).
  rewrite Ha in Ha'. apply app_inv_head in Ha' as <-.
  destruct (proj1 (Forall_forall _ _) HF _ Hin) as (t1 & E1 & Hat).
  destruct (recovering_kept rt v ix s k out Hix Hrec) as (_ & _ & R & K & _).
  pose proof (kept_same _ _ _ _ _ _ _ _ K (same_with_outcomes script s)) as K1.
  destruct (acked_payload k R l m t1 _ _ Hk K1 ltac:(lia) E1 Hw ltac:(lia) Hat) as [Hid _]. cbn in Hid.
  assert (snapshots (take m l) <= snapshots l) by (rewrite <- (take_drop m l) at 2; apply snapshots_mono). lia.
Qed.
End Subtask.

(** Once a run succeeds and its final epoch is committed. *)
Lemma sink_runs_commit {X XE} `{CheckpointsLaws X XE} {GE} rt v ix s k p out
    fs (closed : result GE unit) es script (x x' : X) t' s' t'' s'' m :
  0 <= ix <= max_int64 -> sink_history (X := X) (XE := XE) (GE := GE) rt v ix s k p out -> delivered k es ->
  runSinkSubtask fs (v, ix) p closed es ((NewTransactional rt, with_outcomes script s), x)
    = (Ok tt, ((t', s'), x')) ->
  commit_final (t', s') = (Ok tt, (t'', s'')) -> (size (names s'') < m)%nat ->
  exists committed s3, ReadCommitted rt (undisturbed m s'') = (Ok committed, s3) /\
    committed ≡ₚ out ++ records (before_end es).
Proof.
  intros Hix Hh [Hnum Hops Hb] Erun Ecommit Hm.
  destruct (history_recovering rt v ix Hix s k p out Hh) as (Hrec & Hp & Hk & _).
  destruct (subtask_plays rt v ix Hix fs k p closed es _ x _ t' s' x' Hk Hp Hnum Erun)
    as (l & n & _ & Hasked & Hw & _ & _ & Hfull).
  destruct (asked_part _ _ _ _ Hasked Hops) as (Hl & Hsn & _).
  destruct Hasked as [_ Hall]. destruct (Hall eq_refl) as [_ Hstrip].
  destruct (exactly_once rt v ix s k out l script t'' s'' m Hix Hrec Hl Hw) as (committed & s3 & Er & Hperm);
    [lia| |done|].
  - specialize (Hfull eq_refl). unfold full_run. revert Hfull. unfold mbind, M_bind.
    destruct (start_sink _ _ _) as [[[]|] ?]; [|done]. destruct (for_each _ _ _) as [[[]|] ?]; [|done].
    intros ->. exact Ecommit.
  - exists committed, s3. split; [done|]. rewrite Hperm, <- written_before_end, <- Hstrip.
    by rewrite closed_strip, current_strip.
Qed.

(** C3. Exactly-once output. A sink subtask of a job fails any number of times, at
    any system call, fault or refused checkpoint, and is each time restored from
    the last checkpoint that completed. Once a run of it succeeds and its final
    epoch is committed, the committed output is, up to order, the records
    delivered to each failed run before the barrier its successor resumed from,
    followed by all the records delivered to the last. *)
Theorem sink_task_exactly_once {X XE} `{CheckpointsLaws X XE} {GE} rt v ix s k p out
    fs (closed : result GE unit) es script (x x' : X) t' s' t'' s'' m :
  0 <= ix <= max_int64 -> sink_history (X := X) (XE := XE) (GE := GE) rt v ix s k p out -> delivered k es ->
  runSinkSubtask fs (v, ix) p closed es ((NewTransactional rt, with_outcomes script s), x)
    = (Ok tt, ((t', s'), x')) ->
  commit_final (t', s') = (Ok tt, (t'', s'')) -> (size (names s'') < m)%nat ->
  exists committed s3, ReadCommitted rt (undisturbed m s'') = (Ok committed, s3) /\
    committed ≡ₚ out ++ records (before_end es).
Proof. apply sink_runs_commit. Qed.

(** ** A sample: a run that dies past its first barrier, and one that finishes *)

Definition sink_key : SubtaskKey := MkKey (str "sink") 0.

#[local] Instance sample_store : CheckpointStore Storage.disk (Storage.storage_error Storage.io_error) := disk_store (str "/ck").
#[local] Instance sample_checkpoints : Checkpoints (shared Storage.disk) (coordinator_error (Storage.storage_error Storage.io_error)) :=
  checkpointer in_order sink_key.
#[local] Instance sample_checkpoints_laws : CheckpointsLaws (shared Storage.disk) (coordinator_error (Storage.storage_error Storage.io_error)) :=
  checkpointer_CheckpointsLaws in_order sink_key.

(** A job of which the sink is the only subtask. *)
Definition sink_job : shared Storage.disk :=
  MkShared (Some (NewCoordinator (MkMeta [MkVertex (str "sink") 1 0] 7), CoordinatorSpec.fresh_disk (repeat true 40))) [] [].

Definition first_stream : list StreamElement :=
  [NewRecordElement (rec_of (str "a") (str "1")); NewBarrierElement (NewBarrier 1 100);
   NewRecordElement (rec_of (str "b") (str "2")); NewRecordElement (rec_of (str "c") (str "3"))].
Definition second_stream : list StreamElement :=
  [NewRecordElement (rec_of (str "b") (str "2")); NewRecordElement (rec_of (str "c") (str "3"));
   NewBarrierElement (NewBarrier 2 100); NewWatermarkElement 100; NewRecordElement (rec_of (str "d") (str "4"));
   NewEndOfStreamElement].

Definition dies_at (n : Z) : faults :=
  NewFaults (Some {| BeforeElement _ _ i := i =? n; AfterBarrierForwarded _ _ _ := false;
                     DuringAlignment _ _ _ _ := false |}) (NewSubtaskID (str "sink") 0).
Definition no_faults : faults := NewFaults None (NewSubtaskID (str "sink") 0).

Definition first_sink_run := runSinkSubtask (GE := Empty_set) (dies_at 2) (str "sink", 0) None (Ok tt) first_stream
  ((NewTransactional (str "/out"), with_outcomes (repeat Good 60) empty_fs), sink_job).
Definition second_sink_run := runSinkSubtask (GE := Empty_set) no_faults (str "sink", 0) (Some (put_uint64 1)) (Ok tt) second_stream
  ((NewTransactional (str "/out"), with_outcomes (repeat Good 60) first_sink_run.2.1.2), sink_job).
Definition sample_commit := commit_final (second_sink_run.2.1.1, second_sink_run.2.1.2).
#[local] Strategy expand [first_sink_run second_sink_run sample_commit].

Lemma first_sink_run_eta :
  first_sink_run = (first_sink_run.1, ((first_sink_run.2.1.1, first_sink_run.2.1.2), first_sink_run.2.2)).
Proof. by destruct first_sink_run as [? [[? ?] ?]]. Defined.

Lemma second_sink_run_ok :
  second_sink_run = (Ok tt, ((second_sink_run.2.1.1, second_sink_run.2.1.2), second_sink_run.2.2)).
Proof.
  assert (second_sink_run.1 = Ok tt) as E by (vm_compute; reflexivity). revert E.
  destruct second_sink_run as [r [[t s] x]]. cbn. by intros ->.
Defined.

Lemma sample_commit_ok : sample_commit = (Ok tt, (sample_commit.2.1, sample_commit.2.2)).
Proof. apply triple_first. vm_compute. reflexivity. Defined.

(** It is the fault that ends the first run. *)
Example first_sink_run_dies : is_ok first_sink_run.1 = false.
Proof. vm_compute. reflexivity. Qed.

(** No checkpoint past [n] is complete, as a test to evaluate. *)
Definition complete_up_to (n : Z) (x : shared Storage.disk) : bool :=
  match co x with
  | Some cs => forallb (fun p => negb (Completed p.1 cs.1) || (p.1 <=? n)) (map_to_list (Coordinator.state cs.1))
  | None => true
  end.

Lemma complete_up_to_spec n x : complete_up_to n x = true -> forall i, co_complete i x -> i <= n.
Proof.
  unfold complete_up_to, co_complete. destruct (co x) as [[c d]|]; [|done]. cbn. intros Hall i Hi.
  destruct (Coordinator.state c !! i) as [st|] eqn:Est.
  - apply elem_of_map_to_list, list_elem_of_In in Est. pose proof (proj1 (forallb_forall _ _) Hall _ Est) as Hp.
    cbn in Hp. rewrite Hi in Hp. cbn in Hp. lia.
  - unfold Completed in Hi. by rewrite Est in Hi.
Qed.

Lemma sink_task_exactly_once_witness :
  exists committed s3, ReadCommitted (str "/out") (undisturbed 10 sample_commit.2.2) = (Ok committed, s3) /\
    committed ≡ₚ ([] ++ records (before_barrier 1 first_stream)) ++ records (before_end second_stream).
Proof.
  apply (sink_task_exactly_once (GE := Empty_set) (str "/out") (str "sink") 0 first_sink_run.2.1.2 1 (Some (put_uint64 1))
    ([] ++ records (before_barrier 1 first_stream)) no_faults (Ok tt) second_stream (repeat Good 60)
    sink_job second_sink_run.2.2 second_sink_run.2.1.1 second_sink_run.2.1.2 sample_commit.2.1 sample_commit.2.2 10).
  - unfold_ints. lia.
  - apply (history_moved (GE := Empty_set) (str "/out") (str "sink") 0 empty_fs 0 None [] (dies_at 2) (Ok tt) first_stream
      (repeat Good 60) sink_job first_sink_run.1 first_sink_run.2.1.1 first_sink_run.2.1.2 first_sink_run.2.2 [(1, put_uint64 1)]).
    + by apply history_start.
    + split; [by repeat split| |vm_compute; reflexivity]. refine (bool_decide_eq_true_1 _ _). vm_compute. reflexivity.
    + exact first_sink_run_eta.
    + vm_compute. reflexivity.
    + by left.
    + apply complete_up_to_spec. vm_compute. reflexivity.
  - split; [by repeat split| |vm_compute; reflexivity]. refine (bool_decide_eq_true_1 _ _). vm_compute. reflexivity.
  - exact second_sink_run_ok.
  - exact sample_commit_ok.
  - vm_compute. lia.
Defined.
