(* ===== verification/SourceSubtask.v ===== *)
(** The source subtask ([runSourceSubtask] of [pkg/runtime/subtask.go]): the
    emitters it hands to the source loop, its resume position as a payload, and
    what follows the loop; and what recovery from a checkpoint makes of it. *)
From S2P Require Import Prelude Core Gate Writer Streams SourceTask SourceTaskSpec Subtask.

(** * The resume position *)

Definition positionBytes : nat := 8.

Definition encodePosition (offset : Z) : bytes := put_uint64 (u64 offset).

(** The error is the length of the payload. *)
Definition decodePosition (payload : bytes) : result nat Z :=
  if (length payload =? positionBytes)%nat then Ok (i64 (uint64 payload)) else Err (length payload).

Lemma decode_encodePosition n : is_i64 n -> decodePosition (encodePosition n) = Ok n.
Proof.
  intros Hn. unfold decodePosition, encodePosition. rewrite length_put_uint64, uint64_put'. cbn.
  by rewrite !i64_u64, i64_id.
Qed.

(** * The subtask *)

Inductive emit_error (XE CE : Type) :=
| EmitFault (e : fault_error)
| EmitSend (e : write_error CE)
| EmitCheckpoint (id : Z) (e : XE).
Arguments EmitFault {XE CE}.
Arguments EmitSend {XE CE}.
Arguments EmitCheckpoint {XE CE}.

(** [OE] is what opening or closing the source can return, [DE] the error of a
    context that is done. *)
Inductive source_task_error (SE XE CE DE OE : Type) :=
| SourceOpen (e : OE)
| SourceClose (e : OE)
| SourcePosition (payload : nat)
| SourceLoop (e : loop_error SE (emit_error XE CE) DE)
| SourceFinished (e : XE)
| SourceSend (e : write_error CE).
Arguments SourceOpen {SE XE CE DE OE}.
Arguments SourceClose {SE XE CE DE OE}.
Arguments SourcePosition {SE XE CE DE OE}.
Arguments SourceLoop {SE XE CE DE OE}.
Arguments SourceFinished {SE XE CE DE OE}.
Arguments SourceSend {SE XE CE DE OE}.

(** What the emitters act on: the outputs, the shared job and the records
    emitted in this run. *)
Record src_env (C X : Type) := MkEnv {
  e_writer : Writer C;
  e_job : X;
  e_elements : Z;
}.
Arguments MkEnv {C X}.
Arguments e_writer {C X}.
Arguments e_job {C X}.
Arguments e_elements {C X}.

Section SourceTask.
Context {S SE : Type} `{Source S SE} {X XE : Type} `{Checkpoints X XE} {C CE : Type} `{Output C CE}.
Context {DE OE : Type} (fs : faults).

Abbreviation env := (src_env C X).
Abbreviation EM := (M (emit_error XE CE) env).

Definition on_writer (m : Writer C -> result (write_error CE) unit * Writer C) : EM unit := fun v =>
  let '(res, w) := m (e_writer v) in (wrap_err EmitSend res, MkEnv w (e_job v) (e_elements v)).

Definition on_job (id : Z) (m : M XE X unit) : EM unit := fun v =>
  let '(res, x) := m (e_job v) in (wrap_err (EmitCheckpoint id) res, MkEnv (e_writer v) x (e_elements v)).

Definition emit_fault (res : result fault_error unit) : EM unit := lift (wrap_err EmitFault res).

Definition count_element : EM unit := fun v =>
  (Ok tt, MkEnv (e_writer v) (e_job v) (add64 (e_elements v) 1)).

Definition emitRecord (rec : Record_) : EM unit := fun v =>
  (_ ← emit_fault (beforeElement fs (e_elements v));
   _ ← count_element;
   on_writer (EmitRecord rec)) v.

Definition emitWatermark (t : Z) : EM unit := on_writer (Broadcast (NewWatermarkElement t)).

(** The snapshot comes before the broadcast. *)
Definition emitBarrier (b : Barrier) (position : Z) : EM unit := fun v =>
  (_ ← (if cp_enabled (e_job v) then on_job (CheckpointID b) (cp_snapshot (CheckpointID b) (encodePosition position))
        else mret tt);
   _ ← on_writer (Broadcast (NewBarrierElement b));
   emit_fault (afterBarrierForwarded fs (CheckpointID b))) v.

(** After the loop: this subtask will not acknowledge again, and every output
    hears of the end. *)
Definition source_end (position : Z) : M (source_task_error SE XE CE DE OE) env unit := fun v =>
  let '(res, x) := if cp_enabled (e_job v) then cp_finished (encodePosition position) (e_job v) else (Ok tt, e_job v) in
  match res with
  | Err e => (Err (SourceFinished e), MkEnv (e_writer v) x (e_elements v))
  | Ok _ =>
      let '(res, w) := Broadcast NewEndOfStreamElement (e_writer v) in
      (wrap_err SourceSend res, MkEnv w x (e_elements v))
  end.

(** The payload and the checkpoint of a restored subtask. *)
Definition resume_of (restored : option (bytes * Z)) : result nat (option sourceResume) :=
  match restored with
  | None => Ok None
  | Some (payload, restoredCheckpoint) =>
      match decodePosition payload with
      | Ok position => Ok (Some (MkResume position restoredCheckpoint))
      | Err n => Err n
      end
  end.

(** [newSource] is the source the vertex makes, opened; its [Close] is deferred
    and its error counts if there is no other. [None] when the fuel is used up. *)
Definition runSourceSubtask (c : settings) (ctxErr : env -> option DE) (fuel : nat) (index : Z)
    (newSource : result OE S) (closeSource : S -> option OE) (restored : option (bytes * Z))
    (w : Writer C) (x : X) : option (result (source_task_error SE XE CE DE OE) unit * (Writer C * X)) :=
  match newSource with
  | Err e => Some (Err (SourceOpen e), (w, x))
  | Ok src =>
      let close res (s : S) (v : env) :=
        (match res, closeSource s with Ok _, Some e => Err (SourceClose e) | _, _ => res end,
         (e_writer v, e_job v)) in
      match resume_of restored with
      | Err n => Some (close (Err (SourcePosition n)) src (MkEnv w x 0))
      | Ok resume =>
          match sourceLoop ctxErr emitRecord emitWatermark emitBarrier fuel (st_parallelism c) index
                  (newWatermarkGenerator (st_wmInterval c) (st_lag c)) (st_barrierInterval c) resume
                  (src, MkEnv w x 0) with
          | None => None
          | Some (Err e, (src, v)) => Some (close (Err (SourceLoop e)) src v)
          | Some (Ok _, (src, v)) =>
              let '(res, v) := source_end (src_position src) v in
              Some (close res src v)
          end
      end
  end.
End SourceTask.

(** * The loop emits the trace of its range, as far as it gets *)

Section Replay.
Context {S SE : Type} `{SourceLaws S SE} {Env EE CE : Type} (ctxErr : Env -> option CE).
Context (emitRecord : Record_ -> M EE Env unit) (emitWatermark : Z -> M EE Env unit).
Context (emitBarrier : Barrier -> Z -> M EE Env unit).

Definition emit_event (e : source_event) : M EE Env unit :=
  match e with
  | SRec r => emitRecord r
  | SMark t => emitWatermark t
  | SBarrier b p => emitBarrier b p
  end.

Lemma on_record_emits wm br rec (s : S) env :
  let t_wm := wm_onRecord (EventTime rec) wm in
  let id_br := br_onRecord br in
  on_record (CE := CE) emitRecord emitWatermark emitBarrier wm br rec (s, env) =
    match for_each emit_event
      (SRec rec :: after_record t_wm.1 id_br.1 (wm_lastEmitted t_wm.2) (src_position s)) env with
    | (Ok _, env) => (Ok (t_wm.2, id_br.2), (s, env))
    | (Err e, env) => (Err (ErrEmit e), (s, env))
    end.
Proof.
  unfold on_record, emit_mark, emit_barrier, after_record, mbind, M_bind, on_env, mret, M_ret. cbn zeta.
  destruct (wm_onRecord (EventTime rec) wm) as [t wm'], (br_onRecord br) as [id br']. cbn [fst snd].
  rewrite for_each_cons. cbn [emit_event]. destruct (emitRecord rec env) as [[[]|e] v1]; [|done]. cbn [wrap_err].
  destruct t as [t|], id as [id|]; cbn; unfold mbind, M_bind, mret, M_ret; [| |by destruct (emitBarrier _ _ _) as [[[]|] ?]|done];
    (destruct (emitWatermark t v1) as [[[]|] v2]; [|done]); [by destruct (emitBarrier _ _ _) as [[[]|] ?]|done].
Qed.

(** The loop ends, having emitted a part of the trace; if it succeeds, all of
    it, and it fails only where an emitter does or the context is done. *)
Lemma source_loop_replays fuel (end_ : Z) wm br (s : S) env :
  src_position s <= end_ -> (forall n, src_position s <= n < end_ -> is_Some (src_at s n)) ->
  (Z.to_nat (end_ - src_position s) < fuel)%nat ->
  exists r s' env' T1 T2 r1,
    source_loop ctxErr emitRecord emitWatermark emitBarrier fuel end_ true wm br (s, env) = Some (r, (s', env')) /\
    trace wm br (src_position s) (src_range (src_at s) (src_position s) end_) = T1 ++ T2 /\
    for_each emit_event T1 env = (r1, env') /\
    (r = Ok tt -> r1 = Ok tt /\ T2 = [] /\ src_position s' = end_) /\
    ((forall env, ctxErr env = None) -> r1 = Ok tt -> r = Ok tt).
Proof.
  revert wm br s env. induction fuel as [|fuel IH]; intros wm br s env Hp Hs Hf; [lia|].
  cbn [source_loop]. unfold source_turn. cbn [snd fst andb].
  destruct (ctxErr env) as [e|] eqn:Ec.
  { eexists _, _, _, [], _, (Ok tt). split_and!; [done..|]. intros Hn. by rewrite Hn in Ec. }
  destruct (Z.leb_spec end_ (src_position s)).
  { replace end_ with (src_position s) by lia. rewrite src_range_nil.
    by eexists _, _, _, [], [], (Ok tt). }
  unfold on_source. destruct (src_next_ok s) as (E1 & E2 & E3).
  destruct (src_next s) as [r s1]. cbn [fst snd] in E1, E2, E3. subst r.
  destruct (Hs (src_position s)) as [rec Hrec]; [lia|]. rewrite Hrec in E3. rewrite Hrec. cbn [wrap_err].
  rewrite (src_range_cons (src_at s) (src_position s) end_ rec) by (done || lia).
  cbn [trace]. rewrite on_record_emits, E3.
  set (now := after_record _ _ _ _).
  destruct (for_each emit_event (SRec rec :: now) env) as [[[]|e] v1] eqn:Ev; cycle 1.
  { eexists _, _, _, (SRec rec :: now), _, (Err e). by split_and!. }
  destruct (IH (wm_onRecord (EventTime rec) wm).2 (br_onRecord br).2 s1 v1)
    as (r & s' & env' & T1 & T2 & r1 & Er & ET & Em & Hok & Hgo); [lia|..|lia|].
  { intros n Hn. rewrite E2. apply Hs. lia. }
  rewrite E2, E3 in ET. exists r, s', env', (SRec rec :: now ++ T1), T2, r1.
  split_and!; [done| | |done|done].
  - cbn. by rewrite ET, app_assoc.
  - rewrite app_comm_cons, for_each_app. unfold mbind, M_bind. by rewrite Ev.
Qed.
End Replay.

(** * What the subtask sends and acknowledges *)

Definition send_of (e : source_event) : emission :=
  match e with
  | SRec r => Emitted r
  | SMark t => Broadcasted (NewWatermarkElement t)
  | SBarrier b _ => Broadcasted (NewBarrierElement b)
  end.

Definition end_of_stream : emission := Broadcasted NewEndOfStreamElement.

Section Subtask.
Context {S SE : Type} `{SourceLaws S SE} {X XE : Type} `{CheckpointsLaws X XE} {C CE : Type} `{Output C CE}.
Context {DE OE : Type}.

Abbreviation env := (src_env C X).
Abbreviation emit fs :=
  (emit_event (EE := emit_error XE CE) (emitRecord fs) emitWatermark (emitBarrier fs)).

Lemma on_writer_one (a : emission) (m : Writer C -> result (write_error CE) unit * Writer C) (v v' : env) r :
  (forall w, m w = run_writer [a] w) -> on_writer (XE := XE) m v = (r, v') ->
  e_job v' = e_job v /\ (r = Ok tt -> run_writer [a] (e_writer v) = (Ok tt, e_writer v')).
Proof.
  intros Hm. unfold on_writer. rewrite Hm. destruct (run_writer _ _) as [[[]|] w];
    intros [= <- <-]; by split.
Qed.

Lemma run_emit rec (w : Writer C) : EmitRecord rec w = run_writer [Emitted rec] w.
Proof. cbn. by destruct (EmitRecord rec w) as [[[]|] ?]. Qed.
Lemma run_broadcast e (w : Writer C) : Broadcast e w = run_writer [Broadcasted e] w.
Proof. cbn. by destruct (Broadcast e w) as [[[]|] ?]. Qed.

(** One event: what it sends, and what it acknowledges however it went. *)
Lemma emit_one fs e (v v' : env) r :
  emit fs e v = (r, v') ->
  (r = Ok tt -> run_writer [send_of e] (e_writer v) = (Ok tt, e_writer v')) /\
  exists news, cp_acked (e_job v') = cp_acked (e_job v) ++ news /\
    Forall (fun a => exists b p, e = SBarrier b p /\ a = (CheckpointID b, encodePosition p)) news.
Proof.
  assert (forall v v' : env, e_job v' = e_job v -> exists news,
    cp_acked (e_job v') = cp_acked (e_job v) ++ news /\
    Forall (fun a => exists b p, e = SBarrier b p /\ a = (CheckpointID b, encodePosition p)) news) as Hnone.
  { intros ? ? ->. exists []. by rewrite app_nil_r. }
  destruct e as [rec|t|b p]; cbn [emit_event send_of]; intros E.
  - unfold emitRecord in E. apply bind_any in E as [(? & E & ->)|([] & v1 & E1 & E)].
    { unfold emit_fault, lift in E. injection E as _ <-. split; [done|by apply Hnone]. }
    unfold emit_fault, lift in E1. injection E1 as _ <-.
    apply bind_any in E as [(? & E & ->)|([] & v1 & E1 & E)]; [done|]. injection E1 as <-.
    apply (on_writer_one (Emitted rec)) in E as [Ej Ew]; [|apply run_emit].
    split; [exact Ew|by apply Hnone].
  - apply (on_writer_one (Broadcasted (NewWatermarkElement t))) in E as [Ej Ew]; [|apply run_broadcast].
    split; [exact Ew|by apply Hnone].
  - unfold emitBarrier in E.
    assert (forall r1 v1, (if cp_enabled (e_job v) then on_job (CE := CE) (CheckpointID b) (cp_snapshot (CheckpointID b) (encodePosition p))
        else mret tt) v = (r1, v1) -> e_writer v1 = e_writer v /\ exists news,
      cp_acked (e_job v1) = cp_acked (e_job v) ++ news /\
      Forall (fun a => exists b' p', SBarrier b p = SBarrier b' p' /\ a = (CheckpointID b', encodePosition p')) news) as Hack.
    { intros r1 v1. destruct (cp_enabled (e_job v)) eqn:Een; [|intros [= _ <-]; split; [done|by apply Hnone]].
      unfold on_job. pose proof (cp_snapshot_acked (CheckpointID b) (encodePosition p) (e_job v) Een) as Ha.
      destruct (cp_snapshot _ _ _) as [[[]|] x]; cbn [fst snd is_ok] in Ha; intros [= <- <-]; (split; [done|]).
      - eexists. split; [exact Ha|]. constructor; [by exists b, p|done].
      - exists []. by rewrite app_nil_r. }
    apply bind_any in E as [(? & E1 & ->)|([] & v1 & E1 & E)].
    { split; [done|]. by apply Hack in E1 as [_ ?]. }
    apply Hack in E1 as [Ew1 (news & Ha & Hn)].
    apply bind_any in E as [(? & E1 & ->)|([] & v2 & E1 & E)];
      apply (on_writer_one (Broadcasted (NewBarrierElement b))) in E1 as [Ej Ew]; try apply run_broadcast.
    + split; [done|]. exists news. by rewrite Ej.
    + unfold emit_fault, lift in E. injection E as E <-. split; [intros _; rewrite <- Ew1; by apply Ew|].
      exists news. by rewrite Ej.
Qed.

Lemma emits fs T (v v' : env) r :
  for_each (emit fs) T v = (r, v') ->
  (r = Ok tt -> run_writer (send_of <$> T) (e_writer v) = (Ok tt, e_writer v')) /\
  exists news, cp_acked (e_job v') = cp_acked (e_job v) ++ news /\
    Forall (fun a => exists T1 b p T2 w, T = T1 ++ SBarrier b p :: T2 /\ a = (CheckpointID b, encodePosition p) /\
      run_writer (send_of <$> T1) (e_writer v) = (Ok tt, w)) news.
Proof.
  revert v. induction T as [|e T IH]; intros v.
  { intros [= <- <-]. split; [done|]. exists []. by rewrite app_nil_r. }
  rewrite for_each_cons. destruct (emit fs e v) as [r1 v1] eqn:E1.
  destruct (emit_one fs e v v1 r1 E1) as (Hs & n1 & Ha1 & Hn1).
  assert (Forall (fun a => exists T1 b p T2 w, e :: T = T1 ++ SBarrier b p :: T2 /\
    a = (CheckpointID b, encodePosition p) /\ run_writer (send_of <$> T1) (e_writer v) = (Ok tt, w)) n1) as Hn1'.
  { eapply Forall_impl; [exact Hn1|]. intros a (b & p & -> & ->). by exists [], b, p, T, (e_writer v). }
  destruct r1 as [[]|err]; [|intros [= <- <-]; split; [done|]; by exists n1].
  intros E. destruct (IH _ E) as (Hs2 & n2 & Ha2 & Hn2). specialize (Hs eq_refl).
  split.
  - intros Hr. rewrite fmap_cons, (run_writer_cons (send_of e) _ _ _ Hs). by apply Hs2.
  - exists (n1 ++ n2). split; [by rewrite Ha2, Ha1, app_assoc|]. apply Forall_app. split; [done|].
    eapply Forall_impl; [exact Hn2|]. intros a (T1 & b & p & T2 & w & -> & -> & Hw).
    exists (e :: T1), b, p, T2, w. split_and!; [done..|].
    by rewrite fmap_cons, (run_writer_cons (send_of e) _ _ _ Hs).
Qed.

(** However it went, what was sent is a part of it. *)
Lemma emit_one_part fs e (v v' : env) r :
  emit fs e v = (r, v') ->
  e_writer v' = e_writer v \/ exists r2, run_writer [send_of e] (e_writer v) = (r2, e_writer v').
Proof.
  assert (forall a m (v v' : env) r, (forall w, m w = run_writer [a] w) -> on_writer (XE := XE) m v = (r, v') ->
    exists r2, run_writer [a] (e_writer v) = (r2, e_writer v')) as Hone.
  { intros a m v0 v1 r0 Hm. unfold on_writer. rewrite Hm. destruct (run_writer _ _) as [r2 w]. intros [= _ <-]. by eexists. }
  destruct e as [rec|t|b p]; cbn [emit_event send_of]; intros E.
  - unfold emitRecord in E. apply bind_any in E as [(? & E & ->)|([] & v1 & E1 & E)].
    { unfold emit_fault, lift in E. injection E as _ <-. by left. }
    unfold emit_fault, lift in E1. injection E1 as _ <-.
    apply bind_any in E as [(? & E & ->)|([] & v1 & E1 & E)]; [done|]. injection E1 as <-.
    right. eapply Hone in E; [exact E|apply run_emit].
  - right. eapply Hone in E; [exact E|intros; apply run_broadcast].
  - unfold emitBarrier in E.
    assert (forall r1 v1, (if cp_enabled (e_job v) then on_job (CE := CE) (CheckpointID b) (cp_snapshot (CheckpointID b) (encodePosition p))
        else mret tt) v = (r1, v1) -> e_writer v1 = e_writer v) as Hsame.
    { intros r1 v1. destruct (cp_enabled (e_job v)); [|by intros [= _ <-]].
      unfold on_job. destruct (cp_snapshot _ _ _) as [? ?]. by intros [= _ <-]. }
    apply bind_any in E as [(? & E1 & ->)|([] & v1 & E1 & E)]; [apply Hsame in E1; by left|].
    apply Hsame in E1. right. rewrite <- E1.
    apply bind_any in E as [(? & E2 & ->)|([] & v2 & E2 & E)].
    + eapply Hone in E2; [exact E2|intros; apply run_broadcast].
    + unfold emit_fault, lift in E. injection E as _ <-. eapply Hone in E2; [exact E2|intros; apply run_broadcast].
Qed.

Lemma emits_part fs T (v v' : env) r :
  for_each (emit fs) T v = (r, v') ->
  exists L r2, L `prefix_of` (send_of <$> T) /\ run_writer L (e_writer v) = (r2, e_writer v').
Proof.
  revert v. induction T as [|e T IH]; intros v.
  { intros [= <- <-]. by exists [], (Ok tt). }
  rewrite for_each_cons, fmap_cons. destruct (emit fs e v) as [[[]|err] v1] eqn:E1.
  - intros E. destruct (IH _ E) as (L & r2 & HL & Hr). exists (send_of e :: L), r2. split; [by apply prefix_cons|].
    destruct (emit_one fs e v v1 _ E1) as (Hs & _). by rewrite (run_writer_cons _ _ _ _ (Hs eq_refl)).
  - intros [= <- <-]. apply emit_one_part in E1 as [->|[r2 E]]; [exists [], (Ok tt); split; [apply prefix_nil|done]|].
    exists [send_of e], r2. split; [by apply prefix_cons, prefix_nil|done].
Qed.

(** Nothing fails: [good] is what keeps the job from refusing anything. *)
Record source_calm (fs : faults) (good : X -> Prop) (ctxErr : env -> option DE) (close : S -> option OE) : Prop := {
  sc_element n : beforeElement fs n = Ok tt;
  sc_barrier id : afterBarrierForwarded fs id = Ok tt;
  sc_snapshot id p (x : X) : good x -> is_ok (cp_snapshot id p x).1 = true /\ good (cp_snapshot id p x).2;
  sc_finished p (x : X) : good x -> is_ok (cp_finished p x).1 = true /\ good (cp_finished p x).2;
  sc_ctx v : ctxErr v = None;
  sc_close s : close s = None;
}.

Lemma on_writer_runs (a : emission) (m : Writer C -> result (write_error CE) unit * Writer C) (v : env) w' :
  (forall w, m w = run_writer [a] w) -> run_writer [a] (e_writer v) = (Ok tt, w') ->
  on_writer (XE := XE) m v = (Ok tt, MkEnv w' (e_job v) (e_elements v)).
Proof. intros Hm E. unfold on_writer. by rewrite Hm, E. Qed.

Lemma emit_one_runs fs good ctxErr close e (v : env) w' :
  source_calm fs good ctxErr close -> good (e_job v) -> run_writer [send_of e] (e_writer v) = (Ok tt, w') ->
  exists v', emit fs e v = (Ok tt, v') /\ e_writer v' = w' /\ good (e_job v').
Proof.
  intros Hc Hg E. destruct e as [rec|t|b p]; cbn [emit_event send_of] in *.
  - unfold emitRecord, emit_fault, mbind, M_bind, lift, count_element. rewrite (sc_element _ _ _ _ Hc). cbn [wrap_err].
    rewrite (on_writer_runs (Emitted rec) _ _ w'); [by eexists|apply run_emit|done].
  - unfold emitWatermark. rewrite (on_writer_runs (Broadcasted (NewWatermarkElement t)) _ _ w');
      [by eexists|apply run_broadcast|done].
  - unfold emitBarrier, mbind, M_bind, on_job.
    destruct (sc_snapshot _ _ _ _ Hc (CheckpointID b) (encodePosition p) _ Hg) as [Hok Hg'].
    set (m := if cp_enabled (e_job v) then _ else _).
    assert (exists x, m v = (Ok tt, MkEnv (e_writer v) x (e_elements v)) /\ good x) as (x & -> & Hx).
    { subst m. destruct (cp_enabled (e_job v)); [|exists (e_job v); by destruct v].
      destruct (cp_snapshot _ _ _) as [[[]|] x]; [|done]. by exists x. }
    rewrite (on_writer_runs (Broadcasted (NewBarrierElement b)) _ _ w'); [|apply run_broadcast|done].
    unfold emit_fault, lift. rewrite (sc_barrier _ _ _ _ Hc). by eexists.
Qed.

Lemma emits_run fs good ctxErr close T (v : env) w' :
  source_calm fs good ctxErr close -> good (e_job v) -> run_writer (send_of <$> T) (e_writer v) = (Ok tt, w') ->
  exists v', for_each (emit fs) T v = (Ok tt, v') /\ e_writer v' = w' /\ good (e_job v').
Proof.
  intros Hc. revert v. induction T as [|e T IH]; intros v Hg E; [injection E as <-; by exists v|].
  rewrite fmap_cons in E. apply (run_writer_split [send_of e]) in E as (w1 & E1 & E).
  destruct (emit_one_runs _ _ _ _ _ _ _ Hc Hg E1) as (v1 & Ev & <- & Hg1).
  rewrite for_each_cons, Ev. by apply IH.
Qed.

(** The trace of a run, and the positions it may be resumed from. *)
Definition trace_of (c : settings) (count : S -> Z) (s : S) (index : Z) (resume : option sourceResume) : list source_event :=
  match resume with
  | None => full_trace c count s index
  | Some r => resumed_trace c count s index (position r) (barriersInjected r)
  end.

Definition in_range (c : settings) (count : S -> Z) (s : S) (index : Z) (resume : option sourceResume) : Prop :=
  match resume with
  | None => True
  | Some r => start_of c count s index <= position r <= start_of c count s (index + 1)
  end.

(** The subtask ends; it emits a part of its trace, and all of it and the end of
    stream if it succeeds. *)
Lemma source_task_run fs c count ctxErr fuel index (s : S) (close : S -> option OE) restored resume (w : Writer C) (x : X) :
  src_count = Some count -> settings_ok c (count s) -> 0 <= index < st_parallelism c ->
  (Z.to_nat (count s) < fuel)%nat -> resume_of restored = Ok resume -> in_range c count s index resume ->
  exists (r : result (source_task_error SE XE CE DE OE) unit) w' x' T1 T2 r1 v,
    runSourceSubtask fs c ctxErr fuel index (Ok s) close restored w x = Some (r, (w', x')) /\
    trace_of c count s index resume = T1 ++ T2 /\ for_each (emit fs) T1 (MkEnv w x 0) = (r1, v) /\
    cp_acked x' = cp_acked (e_job v) /\
    (w' = e_writer v \/ (r1 = Ok tt /\ T2 = [] /\ exists r3, run_writer [end_of_stream] (e_writer v) = (r3, w'))) /\
    (r = Ok tt -> r1 = Ok tt /\ T2 = [] /\ run_writer [end_of_stream] (e_writer v) = (Ok tt, w')) /\
    (forall good, source_calm fs good ctxErr close -> r1 = Ok tt -> good (e_job v) ->
       T2 = [] /\ forall w2, run_writer [end_of_stream] (e_writer v) = (Ok tt, w2) -> r = Ok tt /\ w' = w2).
Proof.
  intros Hcount Hok Hi Hf Hr Hin. pose proof (ranges_ok c count Hcount s index Hok Hi) as (Hb & Hb2 & Hat).
  unfold runSourceSubtask, sourceLoop. rewrite Hr.
  assert (exists br s1, source_start (EE := emit_error XE CE) (CE := DE) (st_parallelism c) index (st_barrierInterval c)
      resume (s, MkEnv w x 0) = (Ok (start_of c count s (index + 1), true, br), (s1, MkEnv w x 0)) /\
    src_at s1 = src_at s /\ start_of c count s index <= src_position s1 <= start_of c count s (index + 1) /\
    trace_of c count s index resume = trace (fresh_marks c) br (src_position s1)
      (src_range (src_at s) (src_position s1) (start_of c count s (index + 1))))
    as (br & s1 & -> & Es1 & Hp1 & ->).
  { destruct resume as [[p j]|]; cbn [in_range trace_of position barriersInjected] in *.
    - destruct (source_start_resume c count Hcount (EE := emit_error XE CE) (CE := DE) s (MkEnv w x 0) index p j Hok Hi Hin)
        as (s1 & E & ? & Ep). eexists _, s1. split; [exact E|]. by rewrite Ep.
    - destruct (source_start_fresh c count Hcount (EE := emit_error XE CE) (CE := DE) s (MkEnv w x 0) index Hok Hi)
        as (s1 & E & ? & Ep). eexists _, s1. split; [exact E|]. rewrite Ep. split_and!; [done|lia|lia|done]. }
  destruct (source_loop_replays ctxErr (emitRecord fs) (emitWatermark (XE := XE)) (emitBarrier fs) fuel
    (start_of c count s (index + 1)) (fresh_marks c) br s1 (MkEnv w x 0)) as (r & s2 & v & T1 & T2 & r1 & Er & ET & Em & Hgo & Hcalm).
  { lia. } { intros n Hn. rewrite Es1. apply Hat. lia. } { lia. }
  unfold fresh_marks in *. rewrite Er. rewrite Es1 in ET. destruct r as [[]|e]; cycle 1.
  { eexists _, _, _, T1, T2, r1, v. split; [done|]. split_and!; [done..|by left| |].
    - by destruct (close s2).
    - intros good Hc Hr1. exfalso. by discriminate (Hcalm (sc_ctx _ _ _ _ Hc) Hr1). }
  destruct (Hgo eq_refl) as (-> & -> & _). unfold source_end.
  set (fin := if cp_enabled (e_job v) then _ else _).
  assert (cp_acked fin.2 = cp_acked (e_job v)) as Hacked.
  { subst fin. case_match; [apply cp_finished_acked|done]. }
  destruct fin as [[[]|e] x2] eqn:Efin; cbn [fst snd] in Hacked; cycle 1.
  { eexists _, _, _, T1, [], (Ok tt), v. split; [done|]. split_and!; [done..|by left| |].
    - by destruct (close s2).
    - intros good Hc _ Hg. exfalso. subst fin. destruct (cp_enabled (e_job v)); [|done].
      destruct (sc_finished _ _ _ _ Hc (encodePosition (src_position s2)) _ Hg) as [Hx _]. by rewrite Efin in Hx. }
  rewrite (run_broadcast NewEndOfStreamElement).
  change (Broadcasted NewEndOfStreamElement) with end_of_stream.
  destruct (run_writer [end_of_stream] (e_writer v)) as [[[]|e] w2] eqn:Ew.
  - eexists _, _, _, T1, [], (Ok tt), v. split; [done|]. split_and!; [done..|right; by eauto|done|].
    intros good Hc _ _. split; [done|]. intros w3 E. rewrite Ew in E. injection E as <-. cbn. by rewrite (sc_close _ _ _ _ Hc).
  - eexists _, _, _, T1, [], (Ok tt), v. split; [done|]. split_and!; [done..|right; by eauto| |].
    + by destruct (close s2).
    + intros good _ _ _. split; [done|]. intros w3 E. by rewrite Ew in E.
Qed.

Lemma trace_of_same c count (s s0 : S) index resume :
  src_count = Some count -> src_at s0 = src_at s ->
  count s0 = count s /\ trace_of c count s0 index resume = trace_of c count s index resume /\
  in_range c count s0 index resume = in_range c count s index resume.
Proof.
  intros Hcount Es. destruct (src_count_ok count s Hcount) as (_ & _ & Hsame).
  assert (count s0 = count s) as Ec by (by apply Hsame). split; [done|].
  destruct resume; cbn; unfold full_trace, resumed_trace, range_from, start_of; by rewrite Ec, ?Es.
Qed.

(** A run that succeeds sends its trace and the end of stream. *)
Lemma source_sends fs c count ctxErr fuel index (s : S) close restored resume (w w' : Writer C) (x x' : X) :
  src_count = Some count -> settings_ok c (count s) -> 0 <= index < st_parallelism c ->
  (Z.to_nat (count s) < fuel)%nat -> resume_of restored = Ok resume -> in_range c count s index resume ->
  runSourceSubtask (DE := DE) (OE := OE) fs c ctxErr fuel index (Ok s) close restored w x = Some (Ok tt, (w', x')) ->
  run_writer ((send_of <$> trace_of c count s index resume) ++ [end_of_stream]) w = (Ok tt, w').
Proof.
  intros Hcount Hok Hi Hf Hr Hin E.
  destruct (source_task_run fs c count ctxErr fuel index s close restored resume w x Hcount Hok Hi Hf Hr Hin)
    as (r & w2 & x2 & T1 & T2 & r1 & v & E2 & -> & Em & _ & _ & Hgo & _).
  rewrite E in E2. injection E2 as <- <- _. destruct (Hgo eq_refl) as (-> & -> & Ew).
  destruct (emits _ _ _ _ _ Em) as [Hs _]. rewrite app_nil_r.
  by rewrite (run_writer_app _ _ _ _ (Hs eq_refl)).
Qed.

(** Any run sends a part of that. *)
Lemma source_part fs c count ctxErr fuel index (s : S) close restored resume (w w' : Writer C) (x x' : X) r :
  src_count = Some count -> settings_ok c (count s) -> 0 <= index < st_parallelism c ->
  (Z.to_nat (count s) < fuel)%nat -> resume_of restored = Ok resume -> in_range c count s index resume ->
  runSourceSubtask (DE := DE) (OE := OE) fs c ctxErr fuel index (Ok s) close restored w x = Some (r, (w', x')) ->
  exists L r2, L `prefix_of` (send_of <$> trace_of c count s index resume) ++ [end_of_stream] /\
    run_writer L w = (r2, w').
Proof.
  intros Hcount Hok Hi Hf Hr Hin E.
  destruct (source_task_run fs c count ctxErr fuel index s close restored resume w x Hcount Hok Hi Hf Hr Hin)
    as (r0 & w2 & x2 & T1 & T2 & r1 & v & E2 & -> & Em & _ & Hw & _).
  rewrite E in E2. injection E2 as _ <- _. destruct Hw as [->|(-> & -> & r3 & Ew)].
  - destruct (emits_part _ _ _ _ _ Em) as (L & r2 & HL & Hrun). exists L, r2. split; [|done].
    rewrite fmap_app, <- app_assoc. by apply prefix_app_r.
  - destruct (emits _ _ _ _ _ Em) as [Hs _]. specialize (Hs eq_refl). rewrite app_nil_r.
    eexists _, r3. split; [reflexivity|]. by rewrite (run_writer_app _ _ _ _ Hs).
Qed.

(** Every run acknowledges only barriers of its trace, each with its position,
    after sending what comes before it. *)
Lemma source_acks fs c count ctxErr fuel index (s : S) close restored resume (w w' : Writer C) (x x' : X) r :
  src_count = Some count -> settings_ok c (count s) -> 0 <= index < st_parallelism c ->
  (Z.to_nat (count s) < fuel)%nat -> resume_of restored = Ok resume -> in_range c count s index resume ->
  runSourceSubtask (DE := DE) (OE := OE) fs c ctxErr fuel index (Ok s) close restored w x = Some (r, (w', x')) ->
  exists news, cp_acked x' = cp_acked x ++ news /\
    Forall (fun a => exists T1 b p T2 w1, trace_of c count s index resume = T1 ++ SBarrier b p :: T2 /\
      a = (CheckpointID b, encodePosition p) /\ run_writer (send_of <$> T1) w = (Ok tt, w1)) news.
Proof.
  intros Hcount Hok Hi Hf Hr Hin E.
  destruct (source_task_run fs c count ctxErr fuel index s close restored resume w x Hcount Hok Hi Hf Hr Hin)
    as (r2 & w2 & x2 & T1 & T2 & r1 & v & E2 & -> & Em & Ha & _).
  rewrite E in E2. injection E2 as _ _ <-. destruct (emits _ _ _ _ _ Em) as [_ (news & Hn & HF)].
  exists news. split; [by rewrite Ha, Hn|]. eapply Forall_impl; [exact HF|].
  intros a (Ta & b & p & Tb & w1 & -> & -> & Hw). exists Ta, b, p, (Tb ++ T2), w1. by rewrite <- app_assoc.
Qed.

(** Where nothing fails and the outputs take its sends, it succeeds. *)
Lemma source_succeeds fs good c count ctxErr fuel index (s : S) close restored resume (w w' : Writer C) (x : X) :
  src_count = Some count -> settings_ok c (count s) -> 0 <= index < st_parallelism c ->
  (Z.to_nat (count s) < fuel)%nat -> resume_of restored = Ok resume -> in_range c count s index resume ->
  source_calm fs good ctxErr close -> good x ->
  run_writer ((send_of <$> trace_of c count s index resume) ++ [end_of_stream]) w = (Ok tt, w') ->
  exists x', runSourceSubtask (OE := OE) fs c ctxErr fuel index (Ok s) close restored w x = Some (Ok tt, (w', x')).
Proof.
  intros Hcount Hok Hi Hf Hr Hin Hc Hg E.
  destruct (source_task_run fs c count ctxErr fuel index s close restored resume w x Hcount Hok Hi Hf Hr Hin)
    as (r & w2 & x2 & T1 & T2 & r1 & v & E2 & ET & Em & _ & _ & _ & Hgo).
  apply run_writer_split in E as (w1 & E1 & Eend). rewrite ET, fmap_app in E1.
  apply run_writer_split in E1 as (w0 & E0 & E1).
  destruct (emits_run _ _ _ _ _ (MkEnv w x 0) w0 Hc Hg E0) as (v1 & Hv1 & <- & Hg1).
  rewrite Em in Hv1. injection Hv1 as -> ->.
  destruct (Hgo good Hc eq_refl Hg1) as [-> Hend]. cbn in E1. injection E1 as E1. rewrite <- E1 in Eend.
  destruct (Hend _ Eend) as [-> ->]. eauto.
Qed.
End Subtask.

(** C7. A source recovers: whatever ends a run of a source subtask (a fault, a
    failing send, a refused checkpoint, a cancelled job), each checkpoint it has
    acknowledged is of one of the barriers of its range, with the position of the
    first record past it, and all that comes before the barrier it has sent. A
    run resumed from that checkpoint, if it succeeds, has sent exactly the records and
    barriers that were to follow, and the end of stream, as an uninterrupted run
    sends the one, the barrier and the other; and where nothing fails it
    succeeds. *)
Theorem source_task_recovers {S SE} `{SourceLaws S SE} {X XE} `{CheckpointsLaws X XE} {C CE} `{Output C CE} {DE OE}
    (c : settings) count fuel index (s : S) fs ctxErr (close : S -> option OE) (w w' : Writer C) (x x' : X)
    (r : result (source_task_error SE XE CE DE OE) unit) (news : list (Z * bytes)) id p :
  src_count = Some count -> settings_ok c (count s) -> 0 <= index < st_parallelism c ->
  (Z.to_nat (count s) < fuel)%nat ->
  runSourceSubtask fs c ctxErr fuel index (Ok s) close None w x = Some (r, (w', x')) ->
  cp_acked x' = cp_acked x ++ news -> (id, p) ∈ news ->
  exists T1 b T2 T2' w1,
    full_trace c count s index = T1 ++ SBarrier b (i64 (uint64 p)) :: T2 /\ CheckpointID b = id /\
    run_writer (send_of <$> T1) w = (Ok tt, w1) /\
    srecords T2' = srecords T2 /\ sbarriers T2' = sbarriers T2 /\
    (forall fs ctxErr (s0 : S) (close : S -> option OE) (w w' : Writer C) (x x' : X), src_at s0 = src_at s ->
       runSourceSubtask (DE := DE) fs c ctxErr fuel index (Ok s0) close None w x = Some (Ok tt, (w', x')) ->
       run_writer ((send_of <$> T1 ++ SBarrier b (i64 (uint64 p)) :: T2) ++ [end_of_stream]) w = (Ok tt, w')) /\
    (forall fs ctxErr (s0 : S) (close : S -> option OE) (w w' : Writer C) (x x' : X), src_at s0 = src_at s ->
       runSourceSubtask (DE := DE) fs c ctxErr fuel index (Ok s0) close (Some (p, id)) w x = Some (Ok tt, (w', x')) ->
       run_writer ((send_of <$> T2') ++ [end_of_stream]) w = (Ok tt, w')) /\
    (forall fs good ctxErr (s0 : S) (close : S -> option OE) (w w' : Writer C) (x : X), src_at s0 = src_at s ->
       source_calm fs good (ctxErr : src_env C X -> option DE) close -> good x ->
       run_writer ((send_of <$> T2') ++ [end_of_stream]) w = (Ok tt, w') ->
       exists x', runSourceSubtask fs c ctxErr fuel index (Ok s0) close (Some (p, id)) w x = Some (Ok tt, (w', x'))).
Proof.
  intros Hcount Hok Hi Hf E Ha Hin.
  destruct (source_acks fs c count ctxErr fuel index s close None None w w' x x' r Hcount Hok Hi Hf eq_refl I E)
    as (news' & Ha' & Hn).
  rewrite Ha in Ha'. apply app_inv_head in Ha' as <-.
  destruct (proj1 (Forall_forall _ _) Hn _ Hin) as (T1 & b & pos & T2 & w1 & ET & [= -> ->] & Hw).
  destruct (trace_resumes c count Hcount index s _ _ _ _ Hok Hi ET) as (Hp & Hr & Hb).
  pose proof (ranges_ok c count Hcount s index Hok Hi) as (Hr1 & Hr2 & _).
  destruct (src_count_ok count s Hcount) as (Hc0 & _).
  pose proof (decode_encodePosition pos ltac:(unfold_ints; lia)) as Hdec.
  assert (i64 (uint64 (encodePosition pos)) = pos) as Hpos by (by injection Hdec).
  assert (resume_of (Some (encodePosition pos, CheckpointID b)) = Ok (Some (MkResume pos (CheckpointID b)))) as Hres.
  { unfold resume_of. by rewrite Hdec. }
  rewrite !Hpos.
  exists T1, b, T2, (resumed_trace c count s index pos (CheckpointID b)), w1. split_and!; [done..| | |].
  - intros fs2 ctx2 s2 close2 w2 w2' x2 x2' Es E2. destruct (trace_of_same c count s s2 index None Hcount Es) as (Ec & Et & _).
    change (full_trace _ _ _ _) with (trace_of c count s index None) in ET. rewrite <- ET, <- Et.
    eapply (source_sends fs2 c count ctx2 fuel index s2 close2 None None); rewrite ?Ec; done.
  - intros fs2 ctx2 s2 close2 w2 w2' x2 x2' Es E2.
    destruct (trace_of_same c count s s2 index (Some (MkResume pos (CheckpointID b))) Hcount Es) as (Ec & Et & Ei).
    change (resumed_trace _ _ _ _ _ _) with (trace_of c count s index (Some (MkResume pos (CheckpointID b)))). rewrite <- Et.
    eapply (source_sends fs2 c count ctx2 fuel index s2 close2 (Some _) (Some _)); rewrite ?Ec, ?Ei; done.
  - intros fs2 good ctx2 s2 close2 w2 w2' x2 Es Hcalm Hg E2.
    destruct (trace_of_same c count s s2 index (Some (MkResume pos (CheckpointID b))) Hcount Es) as (Ec & Et & Ei).
    change (resumed_trace _ _ _ _ _ _) with (trace_of c count s index (Some (MkResume pos (CheckpointID b)))) in E2. rewrite <- Et in E2.
    eapply (source_succeeds fs2 good c count ctx2 fuel index s2 close2 (Some _) (Some _)); rewrite ?Ec, ?Ei; done.
Qed.

(** ** A sample *)

(** Subtask 1 of [sample_source] split in two, aborted at its second record. *)
Definition second_record : faults :=
  NewFaults (Some {| BeforeElement _ _ n := n =? 1; AfterBarrierForwarded _ _ _ := false;
                     DuringAlignment _ _ _ _ := false |}) (NewSubtaskID (str "source") 1).

Definition sample_out : Writer Channel := MkWriter [[NewChannel 16]] 1.

Definition sample_source_run :=
  runSourceSubtask (DE := Empty_set) (OE := Empty_set) second_record sample_settings (fun _ => None) 10 1
    (Ok sample_source) (fun _ => None) None sample_out ([] : ledger).

Definition sample_source_end :=
  default (Ok tt, (sample_out, [])) sample_source_run.

Lemma sample_source_run_ends : is_Some sample_source_run.
Proof. vm_compute. eexists. reflexivity. Defined.

Lemma sample_source_run_eta :
  sample_source_run = Some (sample_source_end.1, (sample_source_end.2.1, sample_source_end.2.2)).
Proof.
  unfold sample_source_end. destruct sample_source_run_ends as [[r [w x]] ->]. reflexivity.
Defined.

(** It is the fault that ends it, past the barrier at position 3. *)
Example sample_source_run_dies :
  is_ok sample_source_end.1 = false /\ sample_source_end.2.2 = [(1, encodePosition 3)].
Proof. split; vm_compute; reflexivity. Qed.

Lemma source_task_recovers_witness :
  exists T1 b T2 T2' w1,
    full_trace sample_settings (fun s => Z.of_nat (length (ls_records s))) sample_source 1
      = T1 ++ SBarrier b (i64 (uint64 (encodePosition 3))) :: T2 /\ CheckpointID b = 1 /\
    run_writer (send_of <$> T1) sample_out = (Ok tt, w1) /\
    srecords T2' = srecords T2 /\ sbarriers T2' = sbarriers T2 /\
    (forall fs ctxErr (s0 : list_source) close (w w' : Writer Channel) (x x' : ledger), src_at s0 = src_at sample_source ->
       runSourceSubtask (DE := Empty_set) (OE := Empty_set) fs sample_settings ctxErr 10 1 (Ok s0) close None w x
         = Some (Ok tt, (w', x')) ->
       run_writer ((send_of <$> T1 ++ SBarrier b (i64 (uint64 (encodePosition 3))) :: T2) ++ [end_of_stream]) w = (Ok tt, w')) /\
    (forall fs ctxErr (s0 : list_source) close (w w' : Writer Channel) (x x' : ledger), src_at s0 = src_at sample_source ->
       runSourceSubtask (DE := Empty_set) (OE := Empty_set) fs sample_settings ctxErr 10 1 (Ok s0) close
         (Some (encodePosition 3, 1)) w x = Some (Ok tt, (w', x')) ->
       run_writer ((send_of <$> T2') ++ [end_of_stream]) w = (Ok tt, w')) /\
    (forall fs good ctxErr (s0 : list_source) close (w w' : Writer Channel) (x : ledger), src_at s0 = src_at sample_source ->
       source_calm (XE := Empty_set) (OE := Empty_set) fs good (ctxErr : src_env Channel ledger -> option Empty_set) close ->
       good x -> run_writer ((send_of <$> T2') ++ [end_of_stream]) w = (Ok tt, w') ->
       exists x', runSourceSubtask fs sample_settings ctxErr 10 1 (Ok s0) close (Some (encodePosition 3, 1)) w x
         = Some (Ok tt, (w', x'))).
Proof.
  apply (source_task_recovers sample_settings (fun s => Z.of_nat (length (ls_records s))) 10 1 sample_source
    second_record (fun _ => None) (fun _ => None) sample_out sample_source_end.2.1 [] sample_source_end.2.2
    sample_source_end.1 [(1, encodePosition 3)]).
  - reflexivity.
  - apply sample_settings_ok.
  - cbn. lia.
  - cbn. lia.
  - exact sample_source_run_eta.
  - vm_compute. reflexivity.
  - by left.
Defined.

Example calm_source : source_calm (S := list_source) (X := ledger) (XE := Empty_set) (C := Channel) (DE := Empty_set) (OE := Empty_set)
  (NewFaults None (NewSubtaskID [] 0)) (fun _ => True) (fun _ => None) (fun _ => None).
Proof. by split. Qed.

(** The watermarks of a resumed run may be behind those of an uninterrupted one:
    the generator has not seen the greatest event time before the barrier. *)
Definition late_source : list_source :=
  ListSource [NewRecord (str "a") [] 100; NewRecord (str "b") [] 50] 0 eq_refl.
Definition one_subtask : settings := MkSettings 1 1 0 1.

Example resumed_watermarks_behind :
  (exists s, run_source one_subtask 5 0 None late_source = Some (Ok tt, (s,
     [SRec (NewRecord (str "a") [] 100); SMark 99; SBarrier (NewBarrier 1 99) 1;
      SRec (NewRecord (str "b") [] 50); SBarrier (NewBarrier 2 99) 2]))) /\
  (exists s, run_source one_subtask 5 0 (Some (MkResume 1 1)) late_source = Some (Ok tt, (s,
     [SRec (NewRecord (str "b") [] 50); SMark 49; SBarrier (NewBarrier 2 49) 2]))).
Proof. split; (eexists; vm_compute; reflexivity). Qed.
