(* ===== verification/OperatorTask.v ===== *)
(** The operator subtask ([pkg/runtime/subtask.go]): the context the runtime
    gives an operator, the loop over what its gate delivers, and its snapshot
    and restore; and what recovery from a checkpoint makes of it. *)
From S2P Require Import Prelude Core State Serialize Operators Gate Writer Streams Subtask.

(** * The context

    The operator's state and counters are in [OpState]; this is the rest. What
    an operator emits within one call is sent in order when the call returns:
    [Emit] returns nothing, so the operator cannot tell. *)
Record opContext (C CE : Type) := MkContext {
  oc_writer : Writer C;
  oc_watermark : Z;
  oc_err : option (write_error CE);
}.
Arguments MkContext {C CE}.
Arguments oc_writer {C CE}.
Arguments oc_watermark {C CE}.
Arguments oc_err {C CE}.

(** No watermark has been delivered yet. *)
Definition newOpContext {C CE} (w : Writer C) : opContext C CE := MkContext w min_int64 None.

Definition CurrentWatermark {C CE} (c : opContext C CE) : Z := oc_watermark c.

Definition Emit {C CE} `{Output C CE} (c : opContext C CE) (rec : Record_) : opContext C CE :=
  match oc_err c with
  | Some _ => c
  | None =>
      let '(res, w) := EmitRecord rec (oc_writer c) in
      MkContext w (oc_watermark c) (match res with Ok _ => None | Err e => Some e end)
  end.

(** * The subtask *)

(** [NE] is what making or closing a state can return, and [GE] what closes a
    gate. *)
Inductive op_task_error (SE XE CE GE NE : Type) :=
| TaskState (e : NE)
| TaskStateClose (e : NE)
| TaskOpen (e : op_error)
| TaskClose (e : op_error)
| TaskRestore (e : ser_error SE Empty_set)
| TaskClosed (e : GE)
| TaskFault (e : fault_error)
| TaskProcess (e : op_error)
| TaskWatermark (e : op_error)
| TaskEndOfStream (e : op_error)
| TaskEmit (e : write_error CE)
| TaskBackend (e : SE)
| TaskSnapshot (id : Z) (e : ser_error SE Empty_set)
| TaskAck (id : Z) (e : XE)
| TaskSend (e : write_error CE).
Arguments TaskState {SE XE CE GE NE}.
Arguments TaskStateClose {SE XE CE GE NE}.
Arguments TaskOpen {SE XE CE GE NE}.
Arguments TaskClose {SE XE CE GE NE}.
Arguments TaskRestore {SE XE CE GE NE}.
Arguments TaskClosed {SE XE CE GE NE}.
Arguments TaskFault {SE XE CE GE NE}.
Arguments TaskProcess {SE XE CE GE NE}.
Arguments TaskWatermark {SE XE CE GE NE}.
Arguments TaskEndOfStream {SE XE CE GE NE}.
Arguments TaskEmit {SE XE CE GE NE}.
Arguments TaskBackend {SE XE CE GE NE}.
Arguments TaskSnapshot {SE XE CE GE NE}.
Arguments TaskAck {SE XE CE GE NE}.
Arguments TaskSend {SE XE CE GE NE}.

Record op_task (S X C CE : Type) := MkTask {
  t_op : OpState S;
  t_ctx : opContext C CE;
  t_job : X;
}.
Arguments MkTask {S X C CE}.
Arguments t_op {S X C CE}.
Arguments t_ctx {S X C CE}.
Arguments t_job {S X C CE}.

Definition clear_out {S} (o : OpState S) : OpState S :=
  MkOp (op_state o) (op_dropped o) (op_onTime o) [].

Section OperatorTask.
Context {S SE : Type} `{KeyedState S SE} {X XE : Type} `{Checkpoints X XE}.
Context {C CE : Type} `{Output C CE} {GE NE : Type}.
Context (op : Operator) (fs : faults).

Abbreviation error := (op_task_error SE XE CE GE NE).
Abbreviation TM := (M error (op_task S X C CE)).

(** A call into the operator. *)
Definition operator_call (wrap : op_error -> error) (m : Op S unit) : TM unit := fun t =>
  let '(res, o) := m (t_op t) in
  (wrap_err wrap res, MkTask (clear_out o) (foldl Emit (t_ctx t) (op_out o)) (t_job t)).

Definition takeErr : TM unit := fun t =>
  let c := t_ctx t in
  let t := MkTask (t_op t) (MkContext (oc_writer c) (oc_watermark c) None) (t_job t) in
  match oc_err c with
  | Some e => (Err (TaskEmit e), t)
  | None =>
      match ks_err (op_state (t_op t)) with
      | Some e => (Err (TaskBackend e), t)
      | None => (Ok tt, t)
      end
  end.

Definition process (wrap : op_error -> error) (m : Op S unit) : TM unit :=
  _ ← operator_call wrap m; takeErr.

Definition set_watermark (wm : Z) : TM unit := fun t =>
  (Ok tt, MkTask (t_op t) (MkContext (oc_writer (t_ctx t)) wm (oc_err (t_ctx t))) (t_job t)).

Definition broadcast (e : StreamElement) : TM unit := fun t =>
  let '(res, w) := Broadcast e (oc_writer (t_ctx t)) in
  (wrap_err TaskSend res,
   MkTask (t_op t) (MkContext w (oc_watermark (t_ctx t)) (oc_err (t_ctx t))) (t_job t)).

Definition op_fault (res : result fault_error unit) : TM unit := lift (wrap_err TaskFault res).

Definition snapshotOperatorState (id : Z) : TM unit := fun t =>
  if negb (cp_enabled (t_job t)) then (Ok tt, t)
  else
    let '(res, (s, buf)) := WriteTo (op_state (t_op t)) (MkBuffer []) in
    let o := set_state s (t_op t) in
    match res with
    | Some e => (Err (TaskSnapshot id e), MkTask o (t_ctx t) (cp_fail id (t_job t)))
    | None =>
        let '(res, x) := cp_snapshot id (buf_bytes buf) (t_job t) in
        (wrap_err (TaskAck id) res, MkTask o (t_ctx t) x)
    end.

(** [runOperatorLoop] over what the gate delivers; [closed] is what is reported
    when it has nothing more: the gate's error, the context's, or none. *)
Fixpoint operator_loop (closed : result GE unit) (es : list StreamElement) (elements : Z) : TM unit :=
  match es with
  | [] => lift (wrap_err TaskClosed closed)
  | e :: es =>
      match e with
      | NewRecordElement rec =>
          _ ← op_fault (beforeElement fs elements);
          _ ← process TaskProcess (o_ProcessElement op rec);
          operator_loop closed es (add64 elements 1)
      | NewWatermarkElement wm =>
          _ ← set_watermark wm;
          _ ← process TaskWatermark (o_ProcessWatermark op wm);
          _ ← broadcast e;
          operator_loop closed es elements
      | NewEndOfStreamElement =>
          _ ← process TaskEndOfStream (o_OnEndOfStream op);
          broadcast e
      | NewBarrierElement b =>
          _ ← snapshotOperatorState (CheckpointID b);
          _ ← broadcast e;
          _ ← op_fault (afterBarrierForwarded fs (CheckpointID b));
          operator_loop closed es elements
      end
  end.

(** [state.ReadFrom] into the subtask's state. *)
Definition restore_state (payload : bytes) : TM unit := fun t =>
  let '(res, (s, _)) := ReadFrom (op_state (t_op t), payload) in
  (wrap_err TaskRestore res, MkTask (set_state s (t_op t)) (t_ctx t) (t_job t)).

Definition restored_loop (restored : option bytes) (closed : result GE unit) (es : list StreamElement) : TM unit :=
  _ ← (match restored with Some payload => restore_state payload | None => mret tt end);
  operator_loop closed es 0.

(** The state is made by [newState] and may have a [Close]. *)
Definition runOperatorSubtask (newState : result NE S) (closeState : option (S -> option NE))
    (restored : option bytes) (closed : result GE unit) (es : list StreamElement)
    (w : Writer C) (x : X) : result error unit * (Writer C * X) :=
  match newState with
  | Err e => (Err (TaskState e), (w, x))
  | Ok s =>
      let '(res, t) :=
        match o_Open op true with
        | Err e => (Err (TaskOpen e), MkTask (MkOp s 0 0 []) (newOpContext w) x)
        | Ok _ =>
            let '(res, t) := restored_loop restored closed es (MkTask (MkOp s 0 0 []) (newOpContext w) x) in
            (match res with Ok _ => wrap_err TaskClose (o_Close op) | Err e => Err e end, t)
        end in
      let res := match closeState with
                 | Some close =>
                     match close (op_state (t_op t)), res with
                     | Some e, Ok _ => Err (TaskStateClose e)
                     | _, _ => res
                     end
                 | None => res
                 end in
      (res, (oc_writer (t_ctx t), t_job t))
  end.
End OperatorTask.

(** * What it sends

    The sends of a subtask, over an in-process state: a function of what its
    state holds. [None] where the operator reports an error. *)

Definition ref_call (m : Op Memory unit) (st : gmap bytes bytes)
    : option (list emission * gmap bytes bytes) :=
  let '(res, o) := m (MkOp {| entries := st |} 0 0 []) in
  match res with
  | Ok _ => Some (Emitted <$> op_out o, entries (op_state o))
  | Err _ => None
  end.

Definition ref_element (op : Operator) (e : StreamElement) (st : gmap bytes bytes)
    : option (list emission * gmap bytes bytes) :=
  match e with
  | NewRecordElement rec => ref_call (o_ProcessElement op rec) st
  | NewWatermarkElement wm =>
      '(l, st) ← ref_call (o_ProcessWatermark op wm) st; Some (l ++ [Broadcasted e], st)
  | NewEndOfStreamElement =>
      '(l, st) ← ref_call (o_OnEndOfStream op) st; Some (l ++ [Broadcasted e], st)
  | NewBarrierElement _ => Some ([Broadcasted e], st)
  end.

Fixpoint ref_run (op : Operator) (es : list StreamElement) (st : gmap bytes bytes)
    : option (list emission * gmap bytes bytes) :=
  match es with
  | [] => Some ([], st)
  | e :: es =>
      '(l, st) ← ref_element op e st;
      '(k, st) ← (if decide (e = NewEndOfStreamElement) then Some ([], st) else ref_run op es st);
      Some (l ++ k, st)
  end.
