(* ===== verification/OperatorTaskSpec.v ===== *)
(** What the operator subtask does: over any backend, coordinator and outputs it
    sends what a run over an in-process state sends, what it acknowledges is its
    state at the barrier, and a run restored from that state sends what was to
    follow the barrier. *)
From S2P Require Import Prelude Core State Serialize Operators.
From S2P Require Import Gate Writer Streams Subtask OperatorTask.

(** * Writing and reading snapshots *)

Section Snapshots.
Context {S SE : Type} `{KeyedStateLaws S SE}.

Lemma WriteTo_None (s s' : S) (w w' : Buffer) : WriteTo s w = (None, (s', w')) -> ks_err s' = None.
Proof.
  unfold WriteTo. destruct (ks_iterate _ 0 s) as [n s1]. destruct (ks_err s1); [done|].
  destruct (w_write _ w) as [[?|] w1]; [done|].
  destruct (ks_iterate _ (0, None, w1) s1) as [[[k we] w2] s2]. destruct we; [done|].
  destruct (ks_err s2) eqn:E; [done|]. destruct (k =? n); [|done]. by intros [= <- <-].
Qed.

Lemma scan_keeps {A} (f : bytes -> bytes -> A -> visit A) l a m :
  (forall k v a, v_delete (f k v a) = false) -> (scan f l a m).2 = m.
Proof.
  intros Hf. revert a. induction l as [|[k v] l IH]; intros a; [done|]. cbn [scan].
  rewrite Hf. destruct (v_go _); [apply IH|done].
Qed.

(** Writing leaves the contents alone. *)
Lemma WriteTo_keeps (s s' : S) (w w' : Buffer) :
  WriteTo s w = (None, (s', w')) -> ks_view s' = ks_view s.
Proof.
  unfold WriteTo. set (cnt := fun _ _ n s => _).
  destruct (ks_iterate cnt 0 s) as [n s1] eqn:E1. destruct (ks_err s1) eqn:He1; [done|].
  destruct (ks_iterate_ok cnt (fun _ _ n => Visit (u64 (n + 1)) false true) 0 s) as [_ Hv1];
    [done|by rewrite E1|]. rewrite E1, scan_keeps in Hv1 by done. cbn in Hv1.
  cbn [w_write Buffer_Writer]. destruct (ks_iterate _ (0, None, _) s1) as [[[k we] w2] s2] eqn:E2.
  destruct we; [done|]. destruct (ks_err s2) eqn:He2; [done|]. destruct (k =? n); [|done].
  intros [= <- <-].
  destruct (ks_iterate_ok (writeEntry (SE := SE)) write_visit (0, None, MkBuffer (buf_bytes w ++ put_uint64 n)) s1)
    as [_ Hv2]; [intros; apply writeEntry_contract|by rewrite E2|].
  rewrite E2, scan_keeps in Hv2; [by rewrite <- Hv1|].
  intros kk v [[m we] ww]. unfold write_visit. by repeat case_match.
Qed.

Lemma WriteTo_payload (s s' : S) w' :
  WriteTo s (MkBuffer []) = (None, (s', w')) -> fits (ks_view s) ->
  buf_bytes w' = snapshot_bytes (ks_view s).
Proof.
  intros E Hf. pose proof (WriteTo_bytes s (MkBuffer []) Hf) as Hw. rewrite E in Hw.
  by apply Hw, (WriteTo_None _ _ _ _ E).
Qed.
End Snapshots.

(** * One call into the operator *)

Section Task.
Context {S SE : Type} `{KeyedStateLaws S SE} {X XE : Type} `{CheckpointsLaws X XE}.
Context {C CE : Type} `{Output C CE} {GE NE : Type}.
Context (op : Operator) `{!OperatorLaws op} (fs : faults).

Abbreviation task := (op_task S X C CE).
Abbreviation error := (op_task_error SE XE CE GE NE).

Definition view (t : task) : gmap bytes bytes := ks_view (op_state (t_op t)).
Definition writer (t : task) : Writer C := oc_writer (t_ctx t).

(** Between two elements nothing is stashed. *)
Record quiet (t : task) : Prop := {
  q_err : oc_err (t_ctx t) = None;
  q_out : op_out (t_op t) = [];
  q_state : op_err (t_op t) = None;
}.

Lemma Emit_sticky (c : opContext C CE) l e : oc_err c = Some e -> foldl Emit c l = c.
Proof.
  intros He. induction l as [|r l IH]; [done|]. cbn [foldl]. unfold Emit at 2. by rewrite He.
Qed.

Lemma Emit_all (c : opContext C CE) l :
  oc_err c = None -> oc_err (foldl Emit c l) = None ->
  run_writer (Emitted <$> l) (oc_writer c) = (Ok tt, oc_writer (foldl Emit c l)).
Proof.
  revert c. induction l as [|r l IH]; intros c Hc Hl; [done|].
  revert Hl. cbn [foldl fmap list_fmap run_writer]. unfold Emit at 2 4. rewrite Hc.
  destruct (EmitRecord r (oc_writer c)) as [[[]|e] w]; intros Hl.
  - by apply (IH (MkContext w (oc_watermark c) None)).
  - rewrite Emit_sticky with (e := e) in Hl by done. done.
Qed.

(** A run over the reference state, from any state with the same contents. *)
Lemma ref_call_agree (m1 : Op S unit) (m2 : Op Memory unit) (o : OpState S) :
  refines m1 m2 -> op_out o = [] -> op_err (m1 o).2 = None ->
  match ref_call m2 (ks_view (op_state o)) with
  | Some (l, st) => (m1 o).1 = Ok tt /\ l = Emitted <$> op_out (m1 o).2 /\ st = ks_view (op_state (m1 o).2)
  | None => is_ok (m1 o).1 = false
  end.
Proof.
  intros Hm Ho He. destruct (Hm o (MkOp {| entries := ks_view (op_state o) |} 0 0 []) He) as [_ Ha].
  destruct Ha as [Hr Hv (d & E1 & E2) _ _]; [done|]. unfold ref_call.
  destruct (m2 _) as [r2 o2]. cbn in Hr, Hv, E2. rewrite Ho in E1. cbn in E1.
  rewrite Hr. unfold same_view in Hv. destruct r2 as [[]|]; [|done]. by rewrite Hv, E1, E2.
Qed.

Lemma process_ok wrap (m1 : Op S unit) m2 (t t' : task) :
  refines m1 m2 -> quiet t -> process (wrap : op_error -> error) m1 t = (Ok tt, t') ->
  exists l st, ref_call m2 (view t) = Some (l, st) /\
    run_writer l (writer t) = (Ok tt, writer t') /\ view t' = st /\ quiet t' /\ t_job t' = t_job t.
Proof.
  intros Hm [Q1 Q2 Q3] E. unfold process in E. apply bind_ok in E as ([] & t1 & E1 & E2).
  unfold operator_call in E1. destruct (m1 (t_op t)) as [r o] eqn:Em. injection E1 as Er <-.
  unfold takeErr in E2. cbn [t_ctx t_op t_job oc_writer oc_watermark] in E2.
  destruct (oc_err (foldl Emit (t_ctx t) (op_out o))) eqn:Ee; [done|].
  destruct (ks_err (op_state (clear_out o))) eqn:Ek; [done|]. injection E2 as <-.
  pose proof (ref_call_agree m1 m2 (t_op t) Hm Q2) as Ha. rewrite Em in Ha.
  specialize (Ha Ek). unfold view. destruct (ref_call m2 _) as [[l st]|].
  - destruct Ha as (_ & -> & ->). eexists _, _. split; [done|].
    split; [by apply Emit_all|]. split; [done|]. split; [by split|done].
  - destruct r; [done|done].
Qed.

(** Whatever comes of a call, it acknowledges nothing. *)
Lemma process_job wrap (m1 : Op S unit) (t t' : task) r :
  process (wrap : op_error -> error) m1 t = (r, t') -> t_job t' = t_job t.
Proof.
  unfold process, mbind, M_bind, operator_call. destruct (m1 (t_op t)) as [r1 o]. intros E.
  destruct r1; cbn in E; [|by injection E as <- <-].
  unfold takeErr in E. cbn in E. repeat case_match; by injection E as <- <-.
Qed.

Lemma broadcast_ok e (t t' : task) :
  quiet t -> broadcast (GE := GE) (NE := NE) (SE := SE) (XE := XE) e t = (Ok tt, t') ->
  run_writer [Broadcasted e] (writer t) = (Ok tt, writer t') /\ view t' = view t /\ quiet t'.
Proof.
  intros [Q1 Q2 Q3]. unfold broadcast, writer. cbn [run_writer].
  destruct (Broadcast e (oc_writer (t_ctx t))) as [[[]|] w]; [|done]. cbn. intros [= <-].
  by split_and!.
Qed.

Lemma broadcast_job e (t t' : task) r :
  broadcast (GE := GE) (NE := NE) (SE := SE) (XE := XE) e t = (r, t') -> t_job t' = t_job t.
Proof. unfold broadcast. destruct (Broadcast e _) as [? ?]. by intros [= <- <-]. Qed.

Abbreviation snapshot := (snapshotOperatorState (GE := GE) (NE := NE) (SE := SE) (CE := CE)).

(** A snapshot, if it is acknowledged, is of the contents; it changes nothing. *)
Lemma snapshot_spec id (t t' : task) r :
  quiet t -> snapshot id t = (r, t') ->
  t_ctx t' = t_ctx t /\ (r = Ok tt -> view t' = view t /\ quiet t') /\
  exists news, cp_acked (t_job t') = cp_acked (t_job t) ++ news /\
    Forall (fun a => a.1 = id /\ r = Ok tt /\ (fits (view t) -> a.2 = snapshot_bytes (view t))) news.
Proof.
  intros [Q1 Q2 Q3]. unfold snapshotOperatorState.
  destruct (cp_enabled (t_job t)) eqn:Een; cbn [negb].
  2:{ intros [= <- <-]. split; [done|]. split; [done|]. exists []. by rewrite app_nil_r. }
  destruct (WriteTo (op_state (t_op t)) (MkBuffer [])) as [[e|] [s buf]] eqn:Ew.
  { intros [= <- <-]. split; [done|]. split; [done|]. exists []. cbn. rewrite app_nil_r.
    split; [apply cp_fail_acked|done]. }
  pose proof (cp_snapshot_acked id (buf_bytes buf) (t_job t) Een) as Ha.
  destruct (cp_snapshot id (buf_bytes buf) (t_job t)) as [[[]|e] x]; cbn [fst snd is_ok] in Ha; intros [= <- <-].
  - split; [done|]. split.
    { intros _. split; [by apply WriteTo_keeps in Ew|]. split; [done|done|]. by apply WriteTo_None in Ew. }
    exists [(id, buf_bytes buf)]. split; [done|]. constructor; [|done]. split; [done|]. split; [done|].
    intros Hf. by eapply WriteTo_payload.
  - split; [done|]. split; [done|]. exists []. by rewrite app_nil_r.
Qed.

(** * The loop *)

Abbreviation loop := (operator_loop (GE := GE) (NE := NE) (SE := SE) op fs).

Lemma on_fault_ok res (t t' : task) (a : unit) :
  op_fault (SE := SE) (XE := XE) (GE := GE) (NE := NE) res t = (Ok a, t') -> t' = t.
Proof. unfold op_fault, lift. by destruct res; intros [= <-]. Qed.

Lemma ref_call_after (m : Op Memory unit) st e l st' :
  ref_call m st = Some (l, st') ->
  ('(l, st) ← ref_call m st; Some (l ++ [Broadcasted e], st)) = Some (l ++ [Broadcasted e], st').
Proof. by intros ->. Qed.

(** One element, handled to the end. *)
Definition element_turn (e : StreamElement) (n : Z) : M error task unit :=
  match e with
  | NewRecordElement rec =>
      _ ← op_fault (beforeElement fs n); process TaskProcess (o_ProcessElement op rec)
  | NewWatermarkElement wm =>
      _ ← set_watermark wm; _ ← process TaskWatermark (o_ProcessWatermark op wm); broadcast e
  | NewEndOfStreamElement => _ ← process TaskEndOfStream (o_OnEndOfStream op); broadcast e
  | NewBarrierElement b =>
      _ ← snapshot (CheckpointID b); _ ← broadcast e; op_fault (afterBarrierForwarded fs (CheckpointID b))
  end.

Definition counted (e : StreamElement) (n : Z) : Z :=
  match e with NewRecordElement _ => add64 n 1 | _ => n end.

Lemma loop_turn closed e es n :
  forall t, loop closed (e :: es) n t =
  (_ ← element_turn e n;
   if decide (e = NewEndOfStreamElement) then mret tt else loop closed es (counted e n)) t.
Proof.
  intros t. destruct (decide (e = NewEndOfStreamElement)) as [->|He].
  - cbn [operator_loop element_turn]. rewrite !bind_assoc. apply bind_ext. intros _ t1.
    unfold mbind, M_bind, mret, M_ret. by destruct (broadcast _ t1) as [[[]|] ?].
  - destruct e; [..|done]; cbn [operator_loop element_turn counted]; rewrite bind_assoc;
      apply bind_ext; intros _ t1; [done| |]; rewrite bind_assoc; done.
Qed.

Lemma turn_ok e n (t t' : task) :
  quiet t -> element_turn e n t = (Ok tt, t') ->
  exists l st, ref_element op e (view t) = Some (l, st) /\
    run_writer l (writer t) = (Ok tt, writer t') /\ view t' = st /\ quiet t'.
Proof.
  intros Q E. destruct e as [rec|wm|b|]; cbn [element_turn ref_element] in *; apply bind_ok in E as ([] & t1 & E1 & E).
  - apply on_fault_ok in E1 as ->.
    destruct (process_ok _ _ _ _ _ (ol_element rec) Q E) as (l & st & ? & ? & ? & ? & _). eauto 6.
  - apply bind_ok in E as ([] & t2 & E2 & E). injection E1 as E1.
    assert (quiet t1 /\ view t1 = view t /\ writer t1 = writer t) as (Q1 & <- & <-)
      by (subst t1; by destruct Q).
    destruct (process_ok _ _ _ _ _ (ol_watermark wm) Q1 E2) as (l & st & Er & Ew & Ev & Q2 & _).
    destruct (broadcast_ok _ _ _ Q2 E) as (Ew' & Ev' & Q3).
    eexists _, _. split; [by apply ref_call_after|]. split; [by rewrite (run_writer_app _ _ _ _ Ew)|].
    split; [congruence|done].
  - apply bind_ok in E as ([] & t2 & E2 & E). apply on_fault_ok in E as ->.
    destruct (snapshot_spec _ _ _ _ Q E1) as (Ec & Hq & _). destruct (Hq eq_refl) as [Hv Q1].
    destruct (broadcast_ok _ _ _ Q1 E2) as (Ew & Hv' & Q2).
    eexists _, _. split; [done|]. split; [|split; [congruence|done]].
    unfold writer in *. by rewrite <- Ec.
  - destruct (process_ok _ _ _ _ _ ol_end Q E1) as (l & st & Er & Ew & Ev & Q1 & _).
    destruct (broadcast_ok _ _ _ Q1 E) as (Ew' & Ev' & Q2).
    eexists _, _. split; [by apply ref_call_after|]. split; [by rewrite (run_writer_app _ _ _ _ Ew)|].
    split; [congruence|done].
Qed.

(** What an element has acknowledged, however it went. *)
Lemma turn_acks e n (t t' : task) r :
  quiet t -> element_turn e n t = (r, t') ->
  exists news, cp_acked (t_job t') = cp_acked (t_job t) ++ news /\
    Forall (fun a => exists b, e = NewBarrierElement b /\ CheckpointID b = a.1 /\
      (fits (view t) -> a.2 = snapshot_bytes (view t))) news.
Proof.
  assert (forall t t' : task, t_job t' = t_job t -> exists news,
    cp_acked (t_job t') = cp_acked (t_job t) ++ news /\
    Forall (fun a => exists b, e = NewBarrierElement b /\ CheckpointID b = a.1 /\
      (fits (view t) -> a.2 = snapshot_bytes (view t))) news) as Hnone.
  { intros ? ? ->. exists []. by rewrite app_nil_r. }
  intros Q E. destruct e as [rec|wm|b|]; cbn [element_turn] in E.
  - apply Hnone. apply bind_any in E as [(? & E & _)|([] & t1 & E1 & E)];
      [by unfold op_fault, lift in E; injection E as _ <-|].
    apply on_fault_ok in E1 as ->. by eapply process_job.
  - apply Hnone. apply bind_any in E as [(? & [=] & _)|([] & t1 & [= <-] & E)].
    apply bind_any in E as [(? & E & _)|([] & t2 & E2 & E)]; [by apply process_job in E|].
    apply broadcast_job in E as ->. by apply process_job in E2.
  - apply bind_any in E as [(? & E & ->)|([] & t1 & E1 & E)].
    + destruct (snapshot_spec _ _ _ _ Q E) as (_ & _ & news & Ha & Hn). exists news. split; [done|].
      eapply Forall_impl; [exact Hn|]. intros a (_ & ? & _). done.
    + assert (t_job t' = t_job t1) as ->.
      { apply bind_any in E as [(? & E & _)|([] & t2 & E2 & E)]; [by apply broadcast_job in E|].
        apply broadcast_job in E2. unfold op_fault, lift in E. by injection E as _ <-. }
      destruct (snapshot_spec _ _ _ _ Q E1) as (_ & _ & news & Ha & Hn). exists news. split; [done|].
      eapply Forall_impl; [exact Hn|]. intros a (? & _ & ?). eauto.
  - apply Hnone. apply bind_any in E as [(? & E & _)|([] & t1 & E1 & E)]; [by apply process_job in E|].
    apply broadcast_job in E as ->. by apply process_job in E1.
Qed.

Lemma loop_ok closed es n (t t' : task) :
  quiet t -> loop closed es n t = (Ok tt, t') ->
  exists l st, ref_run op es (view t) = Some (l, st) /\
    run_writer l (writer t) = (Ok tt, writer t').
Proof.
  revert n t. induction es as [|e es IH]; intros n t Q E.
  { unfold lift in E. cbn in E. unfold lift in E. injection E as _ <-. by eexists [], _. }
  rewrite loop_turn in E. apply bind_ok in E as ([] & t1 & E1 & E).
  destruct (turn_ok _ _ _ _ Q E1) as (l & st & Er & Ew & Ev & Q1). subst st.
  cbn [ref_run]. rewrite Er. cbn [mbind option_bind].
  destruct (decide (e = NewEndOfStreamElement)).
  - injection E as <-. eexists _, _. split; [done|]. by rewrite app_nil_r.
  - destruct (IH _ _ Q1 E) as (k & st & -> & Ek). eexists _, _. split; [done|].
    by rewrite (run_writer_app _ _ _ _ Ew).
Qed.

(** Every acknowledgement is of the state at its barrier, and by then what was
    to be sent before it has been. *)
Lemma loop_acks closed es n (t t' : task) r :
  quiet t -> loop closed es n t = (r, t') ->
  exists news, cp_acked (t_job t') = cp_acked (t_job t) ++ news /\
    Forall (fun a => exists pre b post l st w,
      es = pre ++ NewBarrierElement b :: post /\ CheckpointID b = a.1 /\
      NewEndOfStreamElement ∉ pre /\ ref_run op pre (view t) = Some (l, st) /\
      run_writer l (writer t) = (Ok tt, w) /\ (fits st -> a.2 = snapshot_bytes st)) news.
Proof.
  revert n t. induction es as [|e es IH]; intros n t Q E.
  { cbn in E. unfold lift in E. injection E as _ <-. exists []. by rewrite app_nil_r. }
  rewrite loop_turn in E.
  assert (forall t1 r1 news, element_turn e n t = (r1, t1) ->
    Forall (fun a => exists b, e = NewBarrierElement b /\ CheckpointID b = a.1 /\
      (fits (view t) -> a.2 = snapshot_bytes (view t))) news ->
    Forall (fun a => exists pre b post l st w,
      e :: es = pre ++ NewBarrierElement b :: post /\ CheckpointID b = a.1 /\
      NewEndOfStreamElement ∉ pre /\ ref_run op pre (view t) = Some (l, st) /\
      run_writer l (writer t) = (Ok tt, w) /\ (fits st -> a.2 = snapshot_bytes st)) news) as Hhere.
  { intros t1 r1 news _ Hn. eapply Forall_impl; [exact Hn|]. intros a (b & -> & Hb & Hp).
    exists [], b, es, [], (view t), (writer t). split_and!; [done|done|apply not_elem_of_nil|done|done|done]. }
  apply bind_any in E as [(x & E1 & _)|([] & t1 & E1 & E)].
  { destruct (turn_acks _ _ _ _ _ Q E1) as (news & Ha & Hn). eauto. }
  destruct (turn_acks _ _ _ _ _ Q E1) as (n1 & Ha1 & Hn1).
  destruct (turn_ok _ _ _ _ Q E1) as (l & st & Er & Ew & Ev & Q1). subst st.
  destruct (decide (e = NewEndOfStreamElement)) as [|He].
  { injection E as _ <-. eauto. }
  destruct (IH _ _ Q1 E) as (n2 & Ha2 & Hn2). exists (n1 ++ n2).
  split; [by rewrite Ha2, Ha1, <- app_assoc|]. apply Forall_app. split; [by eapply Hhere|].
  eapply Forall_impl; [exact Hn2|]. intros a (pre & b & post & k & st & w & -> & Hb & Hpre & Hr & Hw & Hp).
  exists (e :: pre), b, post, (l ++ k), st, w.
  split_and!; [done|done|set_solver| | |done].
  - cbn [ref_run]. rewrite Er. cbn [mbind option_bind]. rewrite decide_False by done. by rewrite Hr.
  - by rewrite (run_writer_app _ _ _ _ Ew).
Qed.

(** * The subtask *)

(** Where a run starts: with nothing, or with what a snapshot holds. *)
Definition starts_at (restored : option bytes) (m : gmap bytes bytes) : Prop :=
  match restored with
  | None => m = ∅
  | Some p => fits m /\ p = snapshot_bytes m
  end.

Definition fresh_state (s : S) : Prop := ks_err s = None /\ ks_view s = ∅.

Definition fresh_task (s : S) (w : Writer C) (x : X) : task := MkTask (MkOp s 0 0 []) (newOpContext w) x.

Definition restore_step (restored : option bytes) : M error task unit :=
  match restored with Some payload => restore_state payload | None => mret tt end.

Lemma restore_any restored (t t' : task) r :
  restore_step restored t = (r, t') -> t_ctx t' = t_ctx t /\ t_job t' = t_job t.
Proof.
  destruct restored as [p|]; cbn; [|by intros [= <- <-]]. unfold restore_state.
  destruct (ReadFrom _) as [res [s ?]]. by intros [= <- <-].
Qed.

Lemma restore_ok restored m s w x (t' : task) :
  fresh_state s -> starts_at restored m ->
  restore_step restored (fresh_task s w x) = (Ok tt, t') ->
  quiet t' /\ view t' = m /\ writer t' = w /\ t_job t' = x.
Proof.
  intros [He Hs] Hm. destruct restored as [p|]; cbn.
  2:{ intros [= <-]. by rewrite Hm. }
  destruct Hm as [Hf ->]. unfold restore_state. cbn [t_op op_state fresh_task].
  pose proof (ReadFrom_snapshot m [] s Hf He Hs) as Hr. rewrite app_nil_r in Hr.
  destruct (ReadFrom (s, snapshot_bytes m)) as [[[]|] [s' r']] eqn:E; [|done]. intros [= <-].
  apply ReadFrom_Ok_err in E. destruct (Hr E) as (_ & _ & Hv). by split_and!.
Qed.

Abbreviation run_subtask := (runOperatorSubtask (GE := GE) (NE := NE) op fs).

(** A run that succeeds has sent what a run over the reference state sends. *)
Lemma subtask_sends s close restored m (closed : result GE unit) es (w w' : Writer C) (x x' : X) :
  fresh_state s -> starts_at restored m ->
  run_subtask (Ok s) close restored closed es w x = (Ok tt, (w', x')) ->
  exists l st, ref_run op es m = Some (l, st) /\ run_writer l w = (Ok tt, w').
Proof.
  intros Hs Hm E. unfold runOperatorSubtask in E. destruct (o_Open op true) as [[]|]; [|by repeat case_match].
  fold (fresh_task s w x) in E. destruct (restored_loop _ _ _ _ _ _) as [res t'] eqn:Er.
  assert (res = Ok tt /\ writer t' = w') as [-> Hw].
  { destruct res as [[]|]; [split; [done|]|]; repeat case_match; unfold writer; congruence. }
  unfold restored_loop in Er. fold (restore_step restored) in Er. apply bind_ok in Er as ([] & t1 & E1 & E2).
  destruct (restore_ok _ _ _ _ _ _ Hs Hm E1) as (Q & <- & <- & _).
  destruct (loop_ok _ _ _ _ _ Q E2) as (l & st & ? & ?). exists l, st. by rewrite <- Hw.
Qed.

(** However a run ends, what it has acknowledged is what its state was. *)
Lemma subtask_acks s close restored m (closed : result GE unit) es (w w' : Writer C) (x x' : X) r :
  fresh_state s -> starts_at restored m ->
  run_subtask (Ok s) close restored closed es w x = (r, (w', x')) ->
  exists news, cp_acked x' = cp_acked x ++ news /\
    Forall (fun a => exists pre b post l st w1,
      es = pre ++ NewBarrierElement b :: post /\ CheckpointID b = a.1 /\
      NewEndOfStreamElement ∉ pre /\ ref_run op pre m = Some (l, st) /\
      run_writer l w = (Ok tt, w1) /\ (fits st -> a.2 = snapshot_bytes st)) news.
Proof.
  intros Hs Hm E. unfold runOperatorSubtask in E. fold (fresh_task s w x) in E.
  assert (forall t : task, x' = t_job t -> t_job t = x -> exists news, cp_acked x' = cp_acked x ++ news /\
    Forall (fun a => exists pre b post l st w1,
      es = pre ++ NewBarrierElement b :: post /\ CheckpointID b = a.1 /\
      NewEndOfStreamElement ∉ pre /\ ref_run op pre m = Some (l, st) /\
      run_writer l w = (Ok tt, w1) /\ (fits st -> a.2 = snapshot_bytes st)) news) as Hnone.
  { intros t -> ->. exists []. by rewrite app_nil_r. }
  destruct (o_Open op true) as [[]|].
  2:{ apply (Hnone (fresh_task s w x)); [|done]. repeat case_match; congruence. }
  destruct (restored_loop _ _ _ _ _ _) as [res t'] eqn:Er.
  assert (t_job t' = x') as Hx by (repeat case_match; congruence).
  unfold restored_loop in Er. fold (restore_step restored) in Er.
  apply bind_any in Er as [(e & E1 & _)|([] & t1 & E1 & E2)].
  { apply restore_any in E1 as [_ E1]. by apply (Hnone t'). }
  destruct (restore_ok _ _ _ _ _ _ Hs Hm E1) as (Q & <- & <- & <-). rewrite <- Hx.
  exact (loop_acks _ _ _ _ _ _ Q E2).
Qed.

(** ** However it ends

    What a run has sent is what it was to send for the elements it handled, and a
    part of what it sent for the next. *)

Definition part_of (post : list StreamElement) (tail : list emission) : Prop :=
  tail = [] \/
  match post with
  | [] => False
  | NewBarrierElement b :: _ => tail = [Broadcasted (NewBarrierElement b)]
  | NewRecordElement _ :: _ => exists recs, tail = Emitted <$> recs
  | e :: _ => exists recs, tail = Emitted <$> recs \/ tail = (Emitted <$> recs) ++ [Broadcasted e]
  end.

Lemma Emit_any (c : opContext C CE) l :
  oc_err c = None -> exists r, run_writer (Emitted <$> l) (oc_writer c) = (r, oc_writer (foldl Emit c l)).
Proof.
  revert c. induction l as [|r l IH]; intros c Hc; [by eexists|].
  cbn [foldl fmap list_fmap run_writer]. unfold Emit at 2. rewrite Hc.
  destruct (EmitRecord r (oc_writer c)) as [[[]|e] w].
  - apply (IH (MkContext w (oc_watermark c) None)). done.
  - rewrite Emit_sticky with (e := e) by done. by eexists.
Qed.

Lemma process_any wrap (m1 : Op S unit) (t t' : task) r :
  quiet t -> process (wrap : op_error -> error) m1 t = (r, t') ->
  exists recs r2, run_writer (Emitted <$> recs) (writer t) = (r2, writer t').
Proof.
  intros [Q1 Q2 Q3]. unfold process, mbind, M_bind, operator_call. destruct (m1 (t_op t)) as [r1 o].
  destruct (Emit_any (t_ctx t) (op_out o) Q1) as [r2 Er]. intros E. exists (op_out o), r2. unfold writer. rewrite Er. f_equal.
  destruct r1; cbn in E; [|by injection E as _ <-]. unfold takeErr in E. cbn in E.
  repeat case_match; by injection E as _ <-.
Qed.

Lemma broadcast_any e (t t' : task) r :
  broadcast (GE := GE) (NE := NE) (SE := SE) (XE := XE) e t = (r, t') ->
  exists r2, run_writer [Broadcasted e] (writer t) = (r2, writer t').
Proof.
  unfold broadcast, writer. cbn [run_writer]. destruct (Broadcast e _) as [res w].
  intros [= _ <-]. destruct res as [[]|]; by eexists.
Qed.

(** Processing and then passing on. *)
Lemma process_broadcast_part wrap (m1 : Op S unit) m2 e (t t' : task) r :
  refines m1 m2 -> quiet t ->
  (_ ← process (wrap : op_error -> error) m1; broadcast e) t = (r, t') ->
  exists recs tail r2, (tail = Emitted <$> recs \/ tail = (Emitted <$> recs) ++ [Broadcasted e]) /\
    run_writer tail (writer t) = (r2, writer t').
Proof.
  intros Hm Q E. apply bind_any in E as [(x & E & _)|([] & t1 & E1 & E)].
  - destruct (process_any _ _ _ _ _ Q E) as (recs & r2 & Ew). eauto 6.
  - destruct (process_ok _ _ _ _ _ Hm Q E1) as (l & st & Hl & Ew & _ & _ & _).
    destruct (broadcast_any _ _ _ _ E) as (r2 & Eb).
    assert (exists recs, l = Emitted <$> recs) as [recs ->].
    { unfold ref_call in Hl. destruct (m2 _) as [[[]|] o2]; [|done]. injection Hl as <- _. by eexists. }
    exists recs, ((Emitted <$> recs) ++ [Broadcasted e]), r2. split; [by right|]. by rewrite (run_writer_app _ _ _ _ Ew).
Qed.

Lemma turn_part e n (t t' : task) r :
  quiet t -> element_turn e n t = (r, t') ->
  exists tail r2, part_of [e] tail /\ run_writer tail (writer t) = (r2, writer t').
Proof.
  assert (forall t' : task, writer t' = writer t -> exists tail r2, part_of [e] tail /\
    run_writer tail (writer t) = (r2, writer t')) as Hnone by (intros ? ->; exists [], (Ok tt); split; [by left|done]).
  intros Q E. destruct e as [rec|wm|b|]; cbn [element_turn] in E.
  - apply bind_any in E as [(? & E & _)|([] & t1 & E1 & E)];
      [unfold op_fault, lift in E; injection E as _ <-; by apply Hnone|].
    apply on_fault_ok in E1 as ->. destruct (process_any _ _ _ _ _ Q E) as (recs & r2 & Ew).
    exists (Emitted <$> recs), r2. split; [right; by eexists|done].
  - apply bind_any in E as [(? & [=] & _)|([] & t1 & [= <-] & E)].
    edestruct process_broadcast_part as (recs & tail & r2 & Ht & Ew); [apply (ol_watermark wm)| |exact E|].
    { by destruct Q. }
    exists tail, r2. split; [right; by exists recs|exact Ew].
  - apply bind_any in E as [(? & E & _)|([] & t1 & E1 & E)].
    + destruct (snapshot_spec _ _ _ _ Q E) as (Hc & _). apply Hnone. unfold writer. by rewrite Hc.
    + destruct (snapshot_spec _ _ _ _ Q E1) as (Hc & _).
      assert (exists r2, run_writer [Broadcasted (NewBarrierElement b)] (writer t) = (r2, writer t')) as [r2 Ew].
      { apply bind_any in E as [(x & E & _)|([] & t2 & E2 & E)].
        - apply broadcast_any in E as [r2 E]. exists r2. unfold writer in *. by rewrite <- Hc.
        - apply broadcast_any in E2 as [r2 E2]. exists r2. unfold op_fault, lift in E. injection E as _ <-.
          unfold writer in *. by rewrite <- Hc. }
      exists [Broadcasted (NewBarrierElement b)], r2. split; [by right|done].
  - edestruct process_broadcast_part as (recs & tail & r2 & Ht & Ew); [apply ol_end|exact Q|exact E|].
    exists tail, r2. split; [right; by exists recs|exact Ew].
Qed.

Lemma loop_part closed es n (t t' : task) r :
  quiet t -> loop closed es n t = (r, t') ->
  exists pre post l st tail r2, es = pre ++ post /\ ref_run op pre (view t) = Some (l, st) /\
    part_of post tail /\ run_writer (l ++ tail) (writer t) = (r2, writer t').
Proof.
  revert n t. induction es as [|e es IH]; intros n t Q E.
  { cbn in E. unfold lift in E. injection E as _ <-. exists [], [], [], (view t), [], (Ok tt).
    split_and!; [done|done|by left|done]. }
  rewrite loop_turn in E. apply bind_any in E as [(x & E1 & _)|([] & t1 & E1 & E)].
  { destruct (turn_part _ _ _ _ _ Q E1) as (tail & r2 & Hp & Ew).
    exists [], (e :: es), [], (view t), tail, r2. split_and!; [done|done| |done].
    destruct Hp as [->|Hp]; [by left|right]. by destruct e. }
  destruct (turn_ok _ _ _ _ Q E1) as (l & st & Er & Ew & Ev & Q1). subst st.
  destruct (decide (e = NewEndOfStreamElement)) as [->|He].
  - injection E as _ <-. exists [NewEndOfStreamElement], es, l, (view t1), [], (Ok tt).
    rewrite app_nil_r. split_and!; [done| |by left|done].
    cbn [ref_run]. rewrite Er. cbn [mbind option_bind]. rewrite decide_True by done. cbn. by rewrite app_nil_r.
  - destruct (IH _ _ Q1 E) as (pre & post & k & st & tail & r2 & -> & Hk & Hp & Ek).
    exists (e :: pre), post, (l ++ k), st, tail, r2. split_and!; [done| |done|].
    + cbn [ref_run]. rewrite Er. cbn [mbind option_bind]. rewrite decide_False by done. by rewrite Hk.
    + rewrite <- app_assoc. by rewrite (run_writer_app _ _ _ _ Ew).
Qed.

Lemma subtask_part s close restored m (closed : result GE unit) es (w w' : Writer C) (x x' : X) r :
  fresh_state s -> starts_at restored m ->
  run_subtask (Ok s) close restored closed es w x = (r, (w', x')) ->
  exists pre post l st tail r2, es = pre ++ post /\ ref_run op pre m = Some (l, st) /\
    part_of post tail /\ run_writer (l ++ tail) w = (r2, w').
Proof.
  intros Hs Hm E. unfold runOperatorSubtask in E. fold (fresh_task s w x) in E.
  assert (w' = w -> exists pre post l st tail r2, es = pre ++ post /\ ref_run op pre m = Some (l, st) /\
    part_of post tail /\ run_writer (l ++ tail) w = (r2, w')) as Hnone.
  { intros ->. exists [], es, [], m, [], (Ok tt). split_and!; [done|done|by left|done]. }
  destruct (o_Open op true) as [[]|].
  2:{ apply Hnone. repeat case_match; by injection E as _ <- _. }
  destruct (restored_loop _ _ _ _ _ _) as [res t'] eqn:Er.
  assert (writer t' = w') as Hw by (repeat case_match; by injection E as _ <- _).
  unfold restored_loop in Er. fold (restore_step restored) in Er.
  apply bind_any in Er as [(e & E1 & _)|([] & t1 & E1 & E2)].
  { apply restore_any in E1 as [E1 _]. apply Hnone. rewrite <- Hw. unfold writer. by rewrite E1. }
  destruct (restore_ok _ _ _ _ _ _ Hs Hm E1) as (Q & <- & <- & _). rewrite <- Hw.
  exact (loop_part _ _ _ _ _ _ Q E2).
Qed.

(** ** Progress

    Where nothing outside the operator fails, the subtask runs to the end.
    [good] says of the job that it takes snapshots. *)

Record calm (good : X -> Prop) : Prop := {
  c_state : forall s : S, ks_err s = None;
  c_snapshot id p (x : X) :
    good x -> is_ok (cp_snapshot id p x).1 = true /\ good (cp_snapshot id p x).2;
  c_element n : beforeElement fs n = Ok tt;
  c_barrier id : afterBarrierForwarded fs id = Ok tt;
}.

(** The contents at the barriers, which the snapshots have to be able to hold. *)
Fixpoint ref_cuts (es : list StreamElement) (st : gmap bytes bytes) : list (gmap bytes bytes) :=
  match es with
  | [] => []
  | e :: es =>
      (if decide (is_Some (barrier_of e)) then [st] else []) ++
      match ref_element op e st with
      | Some (_, st') => if decide (e = NewEndOfStreamElement) then [] else ref_cuts es st'
      | None => []
      end
  end.

Lemma Emit_runs (c : opContext C CE) l w' :
  oc_err c = None -> run_writer (Emitted <$> l) (oc_writer c) = (Ok tt, w') ->
  foldl Emit c l = MkContext w' (oc_watermark c) None.
Proof.
  revert c. induction l as [|r l IH]; intros c Hc.
  { intros [= <-]. destruct c. cbn in *. by rewrite Hc. }
  cbn [foldl fmap list_fmap run_writer]. unfold Emit at 2. rewrite Hc.
  destruct (EmitRecord r (oc_writer c)) as [[[]|] w]; [|done]. intros Hl.
  by rewrite (IH (MkContext w (oc_watermark c) None)).
Qed.

Context (good : X -> Prop) (Hcalm : calm good).

Lemma process_runs wrap (m1 : Op S unit) m2 (t : task) l st w' :
  refines m1 m2 -> quiet t -> ref_call m2 (view t) = Some (l, st) ->
  run_writer l (writer t) = (Ok tt, w') ->
  exists t', process (wrap : op_error -> error) m1 t = (Ok tt, t') /\
    quiet t' /\ view t' = st /\ writer t' = w' /\ t_job t' = t_job t.
Proof.
  intros Hm [Q1 Q2 Q3] Hr Hw. pose proof (ref_call_agree m1 m2 (t_op t) Hm Q2) as Ha.
  specialize (Ha (c_state _ Hcalm _)). unfold view in Hr. rewrite Hr in Ha. destruct Ha as (Hres & -> & ->).
  unfold process, mbind, M_bind, operator_call. destruct (m1 (t_op t)) as [r o]. cbn in Hres, Hw |- *. subst r.
  cbn. rewrite (Emit_runs _ _ _ Q1 Hw). unfold takeErr. cbn. rewrite (c_state _ Hcalm).
  eexists. split; [done|]. split; [|done]. split; [done..|]. apply (c_state _ Hcalm).
Qed.

Lemma broadcast_runs e (t : task) w' :
  quiet t -> run_writer [Broadcasted e] (writer t) = (Ok tt, w') ->
  exists t', broadcast (GE := GE) (NE := NE) (SE := SE) (XE := XE) e t = (Ok tt, t') /\
    quiet t' /\ view t' = view t /\ writer t' = w' /\ t_job t' = t_job t.
Proof.
  intros [Q1 Q2 Q3]. cbn [run_writer]. unfold broadcast, writer.
  destruct (Broadcast e _) as [[[]|] w]; [|done]. intros [= <-]. eexists. split; [done|]. by split_and!.
Qed.

Lemma snapshot_runs id (t : task) :
  quiet t -> fits (view t) -> good (t_job t) ->
  exists t', snapshot id t = (Ok tt, t') /\ quiet t' /\ view t' = view t /\ writer t' = writer t /\
    good (t_job t').
Proof.
  intros Q Hf Hg. destruct (snapshot id t) as [r t'] eqn:E.
  destruct (snapshot_spec _ _ _ _ Q E) as (Hc & Hq & _).
  assert (r = Ok tt /\ good (t_job t')) as [-> Hg'].
  { unfold snapshotOperatorState in E. destruct (cp_enabled (t_job t)); cbn [negb] in E;
      [|by injection E as <- <-].
    pose proof (WriteTo_bytes (op_state (t_op t)) (MkBuffer []) Hf) as Hw.
    destruct (WriteTo _ _) as [res [s buf]]. destruct (Hw (c_state _ Hcalm _)) as (-> & _ & _).
    destruct (c_snapshot _ Hcalm id (buf_bytes buf) (t_job t) Hg) as [Hok Hg'].
    destruct (cp_snapshot _ _ _) as [[[]|] x]; [|done]. by injection E as <- <-. }
  destruct (Hq eq_refl) as [Hv Q']. exists t'. unfold writer. by rewrite Hc.
Qed.

Lemma turn_runs e n (t : task) l st w' :
  quiet t -> ref_element op e (view t) = Some (l, st) -> run_writer l (writer t) = (Ok tt, w') ->
  (is_Some (barrier_of e) -> fits (view t)) -> good (t_job t) ->
  exists t', element_turn e n t = (Ok tt, t') /\ quiet t' /\ view t' = st /\ writer t' = w' /\ good (t_job t').
Proof.
  intros Q Hr Hw Hf Hg. destruct e as [rec|wm|b|]; cbn [element_turn ref_element] in *.
  - rewrite (bind_run _ _ t tt t) by by rewrite (c_element _ Hcalm).
    destruct (process_runs TaskProcess _ _ _ _ _ _ (ol_element rec) Q Hr Hw) as (t1 & ? & ? & ? & ? & Hj).
    exists t1. by rewrite Hj.
  - destruct (ref_call _ _) as [[l1 st1]|] eqn:Er; [|done]. injection Hr as <- <-.
    apply run_writer_split in Hw as (w1 & Hw1 & Hw2).
    assert (exists t1 : task, set_watermark wm t = (Ok tt : result error unit, t1) /\ quiet t1 /\
      view t1 = view t /\ writer t1 = writer t /\ t_job t1 = t_job t) as (t1 & E1 & Q1 & Hv1 & Hw' & Hj1).
    { eexists. split; [done|]. by destruct Q. }
    rewrite <- Hv1 in Er. rewrite <- Hw' in Hw1.
    destruct (process_runs TaskWatermark _ _ _ _ _ _ (ol_watermark wm) Q1 Er Hw1) as (t2 & E2 & Q2 & Hv2 & <- & Hj2).
    destruct (broadcast_runs _ _ _ Q2 Hw2) as (t3 & E3 & Q3 & Hv3 & <- & Hj3).
    exists t3. rewrite (bind_run _ _ _ _ _ E1), (bind_run _ _ _ _ _ E2). split_and!; [done|done|congruence|done|congruence].
  - injection Hr as <- <-. destruct (snapshot_runs (CheckpointID b) t Q) as (t1 & E1 & Q1 & Hv1 & Hw1 & Hg1); [by apply Hf|done|].
    rewrite <- Hw1 in Hw. destruct (broadcast_runs _ _ _ Q1 Hw) as (t2 & E2 & Q2 & Hv2 & <- & Hj2).
    exists t2. rewrite (bind_run _ _ _ _ _ E1), (bind_run _ _ _ _ _ E2), (c_barrier _ Hcalm).
    split_and!; [done|done|congruence|done|congruence].
  - destruct (ref_call _ _) as [[l1 st1]|] eqn:Er; [|done]. injection Hr as <- <-.
    apply run_writer_split in Hw as (w1 & Hw1 & Hw2).
    destruct (process_runs TaskEndOfStream _ _ _ _ _ _ ol_end Q Er Hw1) as (t2 & E2 & Q2 & Hv2 & <- & Hj2).
    destruct (broadcast_runs _ _ _ Q2 Hw2) as (t3 & E3 & Q3 & Hv3 & <- & Hj3).
    exists t3. rewrite (bind_run _ _ _ _ _ E2). split_and!; [done|done|congruence|done|congruence].
Qed.

Lemma loop_runs closed es n (t : task) l st w' :
  quiet t -> ref_run op es (view t) = Some (l, st) -> run_writer l (writer t) = (Ok tt, w') ->
  Forall fits (ref_cuts es (view t)) -> NewEndOfStreamElement ∈ es \/ closed = Ok tt ->
  good (t_job t) -> exists t', loop closed es n t = (Ok tt, t') /\ writer t' = w'.
Proof.
  revert n t l st w'. induction es as [|e es IH]; intros n t l st w' Q Hr Hw Hf Hend Hg.
  { injection Hr as <- <-. injection Hw as <-. destruct Hend as [?%not_elem_of_nil| ->]; [done|]. by exists t. }
  cbn [ref_run] in Hr. destruct (ref_element op e (view t)) as [[l1 st1]|] eqn:Er; [|done].
  cbn [mbind option_bind] in Hr. cbn [ref_cuts] in Hf. rewrite Er in Hf.
  apply Forall_app in Hf as [Hf Hf'].
  assert (exists k, (if decide (e = NewEndOfStreamElement) then Some ([], st1) else ref_run op es st1) =
    Some (k, st) /\ l = l1 ++ k) as (k & Hk & ->).
  { destruct (if decide _ then _ else _) as [[k st2]|]; [|done]. injection Hr as <- <-. eauto. }
  apply run_writer_split in Hw as (w1 & Hw1 & Hw2).
  destruct (turn_runs e n t _ _ _ Q Er Hw1) as (t1 & E1 & Q1 & <- & <- & Hg1).
  { intros Hb. rewrite decide_True in Hf by done. by inversion Hf. }
  { done. }
  rewrite loop_turn, (bind_run _ _ _ _ _ E1). destruct (decide (e = NewEndOfStreamElement)) as [|He].
  - injection Hk as <- <-. injection Hw2 as <-. by exists t1.
  - eapply IH; [done|done|done|done| |done]. destruct Hend as [[?|?]%elem_of_cons|?]; [congruence|by left|by right].
Qed.

Lemma restore_runs restored m s w x :
  fresh_state s -> starts_at restored m ->
  exists t, restore_step restored (fresh_task s w x) = (Ok tt, t) /\ quiet t /\ view t = m /\ writer t = w /\
    t_job t = x.
Proof.
  intros Hs Hm. destruct (restore_step restored (fresh_task s w x)) as [r t] eqn:E.
  assert (r = Ok tt) as ->.
  { destruct Hs as [He Hs]. destruct restored as [p|]; cbn in E; [|unfold mret, M_ret in E; congruence].
    destruct Hm as [Hf ->]. unfold restore_state in E. cbn [t_op op_state fresh_task] in E.
    pose proof (ReadFrom_snapshot m [] s Hf He Hs) as Hr. rewrite app_nil_r in Hr.
    destruct (ReadFrom (s, snapshot_bytes m)) as [res [s' r']].
    destruct (Hr (c_state _ Hcalm _)) as (-> & _ & _). by injection E as <- <-. }
  destruct (restore_ok _ _ _ _ _ _ Hs Hm E) as (Q & ? & ? & ?). eauto 7.
Qed.

Lemma subtask_runs s restored m (closed : result GE unit) es (w w' : Writer C) (x : X) l st :
  fresh_state s -> starts_at restored m -> o_Open op true = Ok tt -> o_Close op = Ok tt ->
  ref_run op es m = Some (l, st) -> run_writer l w = (Ok tt, w') ->
  Forall fits (ref_cuts es m) -> NewEndOfStreamElement ∈ es \/ closed = Ok tt -> good x ->
  exists x', run_subtask (Ok s) None restored closed es w x = (Ok tt, (w', x')).
Proof.
  intros Hs Hm Ho Hc Hr Hw Hf Hend Hg. unfold runOperatorSubtask. rewrite Ho. fold (fresh_task s w x).
  unfold restored_loop. fold (restore_step restored).
  destruct (restore_runs restored m s w x Hs Hm) as (t & E & Q & <- & <- & <-).
  rewrite (bind_run _ _ _ _ _ E).
  destruct (loop_runs closed es 0 t l st w' Q Hr Hw Hf Hend Hg) as (t' & E' & <-). rewrite E', Hc. by eexists.
Qed.
End Task.
