(* ===== verification/OperatorRecovery.v ===== *)
(** Recovery of an operator subtask: from the checkpoint a run acknowledged
    before it died, whatever it died of, a resumed run sends exactly what was to
    follow the barrier; and for the window counts the two together send the
    counts of the batch oracle. *)
From S2P Require Import Prelude Core State Serialize Operators WindowStore Window WindowRun Oracle WindowOracle.
From S2P Require Import Gate Writer Streams Stages Subtask OperatorTask OperatorTaskSpec.

(** * Cutting a run at a barrier *)

Lemma ref_run_app op pre es st l st' :
  NewEndOfStreamElement ∉ pre -> ref_run op pre st = Some (l, st') ->
  ref_run op (pre ++ es) st = ('(k, st'') ← ref_run op es st'; Some (l ++ k, st'')).
Proof.
  revert st l. induction pre as [|e pre IH]; intros st l Hne; cbn [ref_run app].
  { intros [= <- <-]. by destruct (ref_run op es st) as [[? ?]|]. }
  apply not_elem_of_cons in Hne as [He Hne].
  destruct (ref_element op e st) as [[l1 st1]|]; [|done]. cbn [mbind option_bind].
  destruct (decide (e = NewEndOfStreamElement)); [by subst|].
  destruct (ref_run op pre st1) as [[l2 st2]|] eqn:E; [|done]. intros [= <- <-].
  rewrite (IH _ _ Hne E). destruct (ref_run op es _) as [[? ?]|]; [|done]. cbn. by rewrite app_assoc.
Qed.

Lemma ref_cuts_app op pre es st l st' :
  NewEndOfStreamElement ∉ pre -> ref_run op pre st = Some (l, st') ->
  ref_cuts op es st' `suffix_of` ref_cuts op (pre ++ es) st.
Proof.
  revert st l. induction pre as [|e pre IH]; intros st l Hne; cbn [ref_run app ref_cuts].
  { by intros [= <- <-]. }
  apply not_elem_of_cons in Hne as [He Hne].
  destruct (ref_element op e st) as [[l1 st1]|]; [|done]. cbn [mbind option_bind].
  destruct (decide (e = NewEndOfStreamElement)); [by subst|].
  destruct (ref_run op pre st1) as [[l2 st2]|] eqn:E; [|done]. intros [= <- <-].
  apply suffix_app_r. by eapply IH.
Qed.

(** At the barrier after [pre], with [st'] the state there. *)
Lemma ref_run_barrier op pre b post st l st' :
  NewEndOfStreamElement ∉ pre -> ref_run op pre st = Some (l, st') ->
  ref_run op (pre ++ NewBarrierElement b :: post) st =
    ('(k, st'') ← ref_run op post st'; Some (l ++ Broadcasted (NewBarrierElement b) :: k, st'')) /\
  (Forall fits (ref_cuts op (pre ++ NewBarrierElement b :: post) st) ->
   fits st' /\ Forall fits (ref_cuts op post st')).
Proof.
  intros Hne Hr. split.
  - rewrite (ref_run_app _ _ _ _ _ _ Hne Hr). cbn [ref_run ref_element mbind option_bind].
    rewrite decide_False by done. by destruct (ref_run op post st') as [[? ?]|].
  - intros Hf. destruct (ref_cuts_app op pre (NewBarrierElement b :: post) st l st' Hne Hr) as [c Hc].
    rewrite Hc in Hf. apply Forall_app in Hf as [_ Hf]. cbn [ref_cuts ref_element] in Hf.
    rewrite decide_True in Hf by done. rewrite decide_False in Hf by done.
    apply Forall_app in Hf as [Hf1 Hf2]. by inversion Hf1.
Qed.

(** C6. An operator recovers: whatever ends a run (a fault, a failing send,
    backend or coordinator), each checkpoint it has acknowledged is of a barrier
    in its input, all it had to send before that barrier it has sent, and there
    is a continuation that every successful run resumed from that checkpoint
    sends, over any fresh backend and any outputs, such that every successful
    uninterrupted run sends the one, the barrier and the other, in this order. *)
Theorem operator_recovers op `{!OperatorLaws op} {S SE} `{KeyedStateLaws S SE} {X XE} `{CheckpointsLaws X XE}
    {C CE} `{Output C CE} {GE NE} fs (s : S) close (closed : result GE unit) es (w w' : Writer C) (x x' : X)
    (r : result (op_task_error SE XE CE GE NE) unit) (news : list (Z * bytes)) id p :
  fresh_state s -> Forall fits (ref_cuts op es ∅) ->
  runOperatorSubtask op fs (Ok s) close None closed es w x = (r, (w', x')) ->
  cp_acked x' = cp_acked x ++ news -> (id, p) ∈ news ->
  exists pre b post l k w1,
    es = pre ++ NewBarrierElement b :: post /\ CheckpointID b = id /\
    run_writer l w = (Ok tt, w1) /\
    (forall fs s close (closed : result GE unit) (w w' : Writer C) (x x' : X), fresh_state s ->
       runOperatorSubtask (NE := NE) op fs (Ok s) close (Some p) closed post w x = (Ok tt, (w', x')) ->
       run_writer k w = (Ok tt, w')) /\
    (forall fs s close (closed : result GE unit) (w w' : Writer C) (x x' : X), fresh_state s ->
       runOperatorSubtask (NE := NE) op fs (Ok s) close None closed es w x = (Ok tt, (w', x')) ->
       run_writer (l ++ Broadcasted (NewBarrierElement b) :: k) w = (Ok tt, w')).
Proof.
  intros Hs Hfit E Ha Hin.
  destruct (subtask_acks op fs s close None ∅ closed es w w' x x' r Hs eq_refl E) as (news' & Ha' & Hn).
  rewrite Ha in Ha'. apply app_inv_head in Ha' as <-.
  destruct (proj1 (Forall_forall _ _) Hn _ Hin) as (pre & b & post & l & st & w1 & -> & Hb & Hne & Hr & Hw & Hp).
  destruct (ref_run_barrier op pre b post ∅ l st Hne Hr) as [Hrun Hcut]. destruct (Hcut Hfit) as [Hst _].
  exists pre, b, post, l, (default [] (fst <$> ref_run op post st)), w1. split_and!; [done..| |].
  - intros fs2 s2 close2 closed2 w2 w2' x2 x2' Hs2 E2.
    destruct (subtask_sends op fs2 s2 close2 (Some p) st closed2 post w2 w2' x2 x2' Hs2) as (k & st2 & -> & Hk);
      [split; [done|by apply Hp]|done|done].
  - intros fs2 s2 close2 closed2 w2 w2' x2 x2' Hs2 E2.
    destruct (subtask_sends op fs2 s2 close2 None ∅ closed2 _ w2 w2' x2 x2' Hs2 eq_refl E2) as (k & st2 & Hrun' & Hk).
    rewrite Hrun in Hrun'. destruct (ref_run op post st) as [[k' st']|]; [|done]. by injection Hrun' as <- _.
Qed.

(** * The window counts *)

(** What a call over the in-process state emits does not depend on what was
    emitted before it. *)
Lemma ref_call_mem (m : Op Memory unit) (o o' : OpState Memory) :
  refines m m -> m o = (Ok tt, o') ->
  exists recs, ref_call m (entries (op_state o)) = Some (Emitted <$> recs, entries (op_state o')) /\
    op_out o' = op_out o ++ recs.
Proof.
  intros Hm E. destruct (Hm o (MkOp {| entries := entries (op_state o) |} 0 0 []) eq_refl) as [_ Ha].
  destruct Ha as [Hr Hv (d & E1 & E2) _ _]; [done|]. rewrite E in Hr, Hv, E1. exists d. split; [|done].
  unfold ref_call. destruct (m (MkOp _ 0 0 [])) as [r2 o2]. cbn in Hr, Hv, E2. subst r2.
  unfold same_view in Hv. cbn in Hv. by rewrite Hv, E2.
Qed.

Definition event_of (e : StreamElement) : option event :=
  match e with
  | NewRecordElement rec => Some (EvElement rec)
  | NewWatermarkElement wm => Some (EvWatermark wm)
  | _ => None
  end.

(** What the loop delivers to the operator. *)
Definition events (es : list StreamElement) : list event := omap event_of es.

Lemma events_records es : events es ≫= event_record = records es.
Proof. induction es as [|[] es IH]; cbn; [done|by f_equal|done..]. Qed.

Lemma ref_run_events op `{!OperatorLaws op} es (o o' : OpState Memory) :
  NewEndOfStreamElement ∉ es -> run_events op (events es) o = (Ok tt, o') ->
  exists l, ref_run op es (entries (op_state o)) = Some (l, entries (op_state o')) /\
    op_out o' = op_out o ++ emitted l.
Proof.
  revert o. induction es as [|e es IH]; intros o Hne E.
  { injection E as <-. exists []. by rewrite app_nil_r. }
  apply not_elem_of_cons in Hne as [He Hne]. cbn [ref_run].
  destruct (decide (e = NewEndOfStreamElement)); [by subst|].
  assert (forall o1 l, ref_element op e (entries (op_state o)) = Some (l, entries (op_state o1)) ->
    op_out o1 = op_out o ++ emitted l -> run_events op (events es) o1 = (Ok tt, o') ->
    exists l, ('(l, st) ← ref_element op e (entries (op_state o));
      '(k, st) ← ref_run op es st; Some (l ++ k, st)) = Some (l, entries (op_state o')) /\
      op_out o' = op_out o ++ emitted l) as Hstep.
  { intros o1 l Hl Ho E1. destruct (IH o1 Hne E1) as (k & Hk & Ho'). rewrite Hl. cbn [mbind option_bind].
    rewrite Hk. exists (l ++ k). split; [done|]. by rewrite Ho', Ho, emitted_app, <- app_assoc. }
  destruct e as [rec|wm|b|]; [| | |done]; cbn [events omap list_omap event_of] in E.
  - apply bind_ok in E as ([] & o1 & E1 & E).
    destruct (ref_call_mem _ _ _ (ol_element rec) E1) as (d & Hd & Ho).
    apply (Hstep o1 (Emitted <$> d)); [done|by rewrite emitted_Emitted|done].
  - apply bind_ok in E as ([] & o1 & E1 & E).
    destruct (ref_call_mem _ _ _ (ol_watermark wm) E1) as (d & Hd & Ho).
    apply (Hstep o1 ((Emitted <$> d) ++ [Broadcasted (NewWatermarkElement wm)])); [|by rewrite emitted_app, emitted_Emitted, app_nil_r|done].
    cbn [ref_element]. by rewrite Hd.
  - apply (Hstep o [Broadcasted (NewBarrierElement b)]); [done|by rewrite app_nil_r|done].
Qed.

(** What the gate delivers of a stream: the elements, the watermark that is the
    least when no input is live, and one end of stream. *)
Definition closed_stream (els : list StreamElement) : list StreamElement :=
  els ++ [NewWatermarkElement max_int64; NewEndOfStreamElement].

Section Windowed.
Context {op : Operator} `{!OperatorLaws op} {wc : WindowCount} {V : Type} (I : Windowed op wc V).

(** The sends of a subtask over a whole stream. *)
Lemma windowed_ref_run els :
  Forall (wd_valid I) (records els) -> NewEndOfStreamElement ∉ els -> in_time wc min_int64 (events els) ->
  exists l st, ref_run op (closed_stream els) ∅ = Some (l, st) /\
    emitted l ≡ₚ wd_row I <$> map_to_list (total I (records els) ∅).
Proof.
  intros Hv Hne Hl. rewrite <- events_records in Hv |- *.
  destruct (windowed_run I _ Hv Hl) as (o' & E & _ & Ho).
  assert (events els ++ [EvWatermark max_int64] = events (els ++ [NewWatermarkElement max_int64])) as Hev.
  { unfold events. by rewrite omap_app. }
  rewrite Hev in E.
  destruct (ref_run_events op (els ++ [NewWatermarkElement max_int64]) _ _ ltac:(set_solver) E) as (l & Hr & Ho').
  exists (l ++ [Broadcasted NewEndOfStreamElement]), (entries (op_state o')). split.
  - unfold closed_stream. change [NewWatermarkElement max_int64; NewEndOfStreamElement]
      with ([NewWatermarkElement max_int64] ++ [NewEndOfStreamElement]). rewrite app_assoc.
    rewrite (ref_run_app _ _ _ _ l (entries (op_state o'))); [|set_solver|exact Hr].
    cbn [ref_run ref_element]. unfold ref_call. rewrite (wd_end I). cbn. done.
  - rewrite emitted_app, app_nil_r. cbn in Ho'. by rewrite <- Ho'.
Qed.

(** A crash between an acknowledged barrier and the end changes nothing of it. *)
Lemma windowed_recovers {S SE} `{KeyedStateLaws S SE} {X XE} `{CheckpointsLaws X XE}
    {C CE} `{Output C CE} {GE NE} fs (s : S) close (closed : result GE unit) els (w w' : Writer C) (x x' : X)
    (r : result (op_task_error SE XE CE GE NE) unit) (news : list (Z * bytes)) id p :
  Forall (wd_valid I) (records els) -> NewEndOfStreamElement ∉ els -> in_time wc min_int64 (events els) ->
  let es := closed_stream els in
  fresh_state s -> Forall fits (ref_cuts op es ∅) ->
  runOperatorSubtask op fs (Ok s) close None closed es w x = (r, (w', x')) ->
  cp_acked x' = cp_acked x ++ news -> (id, p) ∈ news ->
  exists pre b post l k w1,
    es = pre ++ NewBarrierElement b :: post /\ CheckpointID b = id /\ run_writer l w = (Ok tt, w1) /\
    emitted (l ++ k) ≡ₚ wd_row I <$> map_to_list (total I (records els) ∅) /\
    (forall fs good (s : S) (w w' : Writer C) (x : X),
       calm (S := S) (XE := XE) fs good -> good x -> fresh_state s -> run_writer k w = (Ok tt, w') ->
       exists x', runOperatorSubtask (GE := GE) (NE := NE) op fs (Ok s) None (Some p) (Ok tt) post w x =
         (Ok tt, (w', x'))).
Proof.
  intros Hv Hne Hl es Hs Hfit E Ha Hin.
  destruct (subtask_acks op fs s close None ∅ closed es w w' x x' r Hs eq_refl E) as (news' & Ha' & Hn).
  rewrite Ha in Ha'. apply app_inv_head in Ha' as <-.
  destruct (proj1 (Forall_forall _ _) Hn _ Hin) as (pre & b & post & l & st & w1 & Hes & Hb & Hpre & Hr & Hw & Hp).
  destruct (windowed_ref_run els Hv Hne Hl) as (L & st' & HL & Hperm). fold es in HL.
  rewrite Hes in HL, Hfit. destruct (ref_run_barrier op pre b post ∅ l st Hpre Hr) as [Hrun Hcut].
  destruct (Hcut Hfit) as [Hst Hpost]. rewrite Hrun in HL.
  destruct (ref_run op post st) as [[k st2]|] eqn:Ek; [|done]. injection HL as <- <-.
  exists pre, b, post, l, k, w1. split_and!; [done..| |].
  - rewrite emitted_app in Hperm |- *. done.
  - intros fs2 good s2 w2 w2' x2 Hcalm Hg Hs2 Hk.
    apply (subtask_runs op fs2 good Hcalm s2 (Some p) st (Ok tt) post w2 w2' x2 k st2);
      [done|split; [done|by apply Hp]|apply (wd_open I)|apply (wd_close I)|done|done|done|by right|done].
Qed.
End Windowed.

(** C5. Counting survives a crash: a subtask counting windows over a stream in
    time, closed by its gate, dies at any point and for any reason, having
    acknowledged a checkpoint. Resumed from that checkpoint where nothing fails,
    over a fresh backend of any kind that keeps its contract, it runs to the end;
    and the records it sends, with those the first run had sent before the
    barrier, are up to order the rows the batch oracle counts, each once. *)
Theorem window_task_recovers wc {S SE} `{KeyedStateLaws S SE} {X XE} `{CheckpointsLaws X XE}
    {C CE} `{Output C CE} {GE NE} fs (s : S) close (closed : result GE unit) els (w w' : Writer C) (x x' : X)
    (r : result (op_task_error SE XE CE GE NE) unit) (news : list (Z * bytes)) id p :
  spec_wf wc -> NewEndOfStreamElement ∉ els -> in_time wc min_int64 (events els) ->
  let op := WindowCount_Operator wc in
  let es := closed_stream els in
  fresh_state s -> Forall fits (ref_cuts op es ∅) ->
  runOperatorSubtask op fs (Ok s) close None closed es w x = (r, (w', x')) ->
  cp_acked x' = cp_acked x ++ news -> (id, p) ∈ news ->
  exists pre b post l k w1 counts,
    es = pre ++ NewBarrierElement b :: post /\ CheckpointID b = id /\
    run_writer l w = (Ok tt, w1) /\
    countRecords (records els) (oracle_spec wc) = Ok counts /\
    emitted (l ++ k) ≡ₚ count_row wc <$> map_to_list counts /\
    (forall fs good (s : S) (w w' : Writer C) (x : X),
       calm (S := S) (XE := XE) fs good -> good x -> fresh_state s -> run_writer k w = (Ok tt, w') ->
       exists x', runOperatorSubtask (GE := GE) (NE := NE) op fs (Ok s) None (Some p) (Ok tt) post w x =
         (Ok tt, (w', x'))).
Proof.
  intros Hwc Hne Hl op es Hs Hfit E Ha Hin.
  destruct (windowed_recovers (count_windowed wc Hwc) fs s close closed els w w' x x' r news id p)
    as (pre & b & post & l & k & w1 & ? & ? & ? & ? & ?); [by apply Forall_true|done..|].
  eexists pre, b, post, l, k, w1, _. split_and!; [done..| |done|done].
  apply countRecords_total. rewrite <- events_records. by eapply in_time_times.
Qed.

(** ** A sample *)

Definition sample_stream : list StreamElement :=
  [NewRecordElement (NewRecord (str "a") [] 7); NewWatermarkElement 0;
   NewRecordElement (NewRecord (str "b") [] 12); NewBarrierElement (NewBarrier 1 0);
   NewRecordElement (NewRecord (str "a") [] 14)].

(** Aborted at the third record, past the barrier. *)
Definition third_record : faults :=
  NewFaults (Some {| BeforeElement _ _ n := n =? 2; AfterBarrierForwarded _ _ _ := false;
                     DuringAlignment _ _ _ _ := false |}) (NewSubtaskID (str "count") 0).

Definition sample_count : WindowCount := NewWindowCount 20 10 0.
Definition one_channel : Writer Channel := MkWriter [[NewChannel 16]] 1.
Definition sample_failed_run :=
  runOperatorSubtask (GE := Empty_set) (NE := Empty_set) (WindowCount_Operator sample_count) third_record
    (Ok NewMemory) None None (Ok tt) (closed_stream sample_stream) one_channel ([] : ledger).

Definition sample_ack : Z * bytes := default (0, []) (head sample_failed_run.2.2).

Lemma sample_failed_run_eta :
  sample_failed_run = (sample_failed_run.1, (sample_failed_run.2.1, sample_failed_run.2.2)).
Proof. by destruct sample_failed_run as [? [? ?]]. Defined.

Lemma sample_failed_run_acks : sample_failed_run.2.2 = [] ++ [(1, sample_ack.2)].
Proof. vm_compute. reflexivity. Defined.

(** It is the fault that ends it. *)
Example sample_failed_run_dies : is_ok sample_failed_run.1 = false.
Proof. vm_compute. reflexivity. Qed.

Lemma sample_cuts_fit :
  Forall fits (ref_cuts (WindowCount_Operator sample_count) (closed_stream sample_stream) ∅).
Proof. refine (bool_decide_eq_true_1 _ _). vm_compute. reflexivity. Defined.

Lemma operator_recovers_witness :
  exists pre b post l k w1,
    closed_stream sample_stream = pre ++ NewBarrierElement b :: post /\ CheckpointID b = 1 /\
    run_writer l one_channel = (Ok tt, w1) /\
    (forall fs (s : Memory) close (closed : result Empty_set unit) (w w' : Writer Channel) (x x' : ledger), fresh_state s ->
       runOperatorSubtask (NE := Empty_set) (WindowCount_Operator sample_count) fs (Ok s) close (Some sample_ack.2) closed post w x
         = (Ok tt, (w', x')) -> run_writer k w = (Ok tt, w')) /\
    (forall fs (s : Memory) close (closed : result Empty_set unit) (w w' : Writer Channel) (x x' : ledger), fresh_state s ->
       runOperatorSubtask (NE := Empty_set) (WindowCount_Operator sample_count) fs (Ok s) close None closed
         (closed_stream sample_stream) w x = (Ok tt, (w', x')) ->
       run_writer (l ++ Broadcasted (NewBarrierElement b) :: k) w = (Ok tt, w')).
Proof.
  apply (operator_recovers (WindowCount_Operator sample_count) third_record NewMemory None (Ok tt)
    (closed_stream sample_stream) one_channel sample_failed_run.2.1 [] sample_failed_run.2.2
    sample_failed_run.1 [(1, sample_ack.2)]).
  - by split.
  - exact sample_cuts_fit.
  - exact sample_failed_run_eta.
  - exact sample_failed_run_acks.
  - by left.
Defined.

Lemma window_task_recovers_witness :
  exists pre b post l k w1 counts,
    closed_stream sample_stream = pre ++ NewBarrierElement b :: post /\ CheckpointID b = 1 /\
    run_writer l one_channel = (Ok tt, w1) /\
    countRecords (records sample_stream) (oracle_spec sample_count) = Ok counts /\
    emitted (l ++ k) ≡ₚ count_row sample_count <$> map_to_list counts /\
    (forall fs good (s : Memory) (w w' : Writer Channel) (x : ledger),
       calm (S := Memory) (XE := Empty_set) fs good -> good x -> fresh_state s -> run_writer k w = (Ok tt, w') ->
       exists x', runOperatorSubtask (GE := Empty_set) (NE := Empty_set) (WindowCount_Operator sample_count) fs (Ok s)
         None (Some sample_ack.2) (Ok tt) post w x = (Ok tt, (w', x'))).
Proof.
  apply (window_task_recovers sample_count third_record NewMemory None (Ok tt) sample_stream one_channel
    sample_failed_run.2.1 [] sample_failed_run.2.2 sample_failed_run.1 [(1, sample_ack.2)]).
  - split; cbn; [unfold max_int64; lia..|by exists 2|unfold max_int64; lia].
  - refine (bool_decide_eq_true_1 _ _). vm_compute. reflexivity.
  - repeat split; cbn; unfold min_int64, max_int64; lia.
  - by split.
  - exact sample_cuts_fit.
  - exact sample_failed_run_eta.
  - exact sample_failed_run_acks.
  - by left.
Defined.

(** Nothing fails where the backend is the in-process one, no fault is scheduled
    and the job records what it is given. *)
Example calm_ledger : calm (S := Memory) (X := ledger) (NewFaults None (NewSubtaskID [] 0)) (fun _ => True).
Proof. by split. Qed.
