(* ===== verification/JobStages.v ===== *)
(** What each subtask of a job hands to the next, in a run that may fail
    anywhere: the stream of a source and its cut at a barrier, the stream of an
    operator and its cut. *)
From S2P Require Import Prelude Core State Operators WindowStore Window WindowRun Gate GateSpec Writer Streams Stages.
From S2P Require Import SourceTask SourceTaskSpec Subtask SourceSubtask OperatorTask OperatorTaskSpec OperatorRecovery.

(** * The stream of a source subtask *)

Section Source.
Context {S SE : Type} `{SourceLaws S SE} (c : settings) (count : S -> Z) (Hcount : src_count = Some count).
Context (data : S) (Hok : settings_ok c (count data)) (Hinterval : 0 < st_barrierInterval c).

(** Where a run starts: the last checkpoint, and the first record after it. *)
Record starts_from (i k pos : Z) (resume : option sourceResume) : Prop := {
  sf_resume : resume = None /\ k = 0 /\ pos = start_of c count data i \/ resume = Some (MkResume pos k);
  sf_pos : start_of c count data i <= pos <= start_of c count data (i + 1);
  sf_id : 0 <= k <= budget c (count data);
}.

Context (i k pos : Z) (resume : option sourceResume).
Context (Hi : 0 <= i < st_parallelism c) (Hstart : starts_from i k pos resume).

Definition run_trace : list source_event := trace_of c count data i resume.

Lemma starts_in_range : in_range c count data i resume.
Proof. destruct Hstart as [[(-> & _)| ->] Hp _]; done. Qed.

Lemma run_trace_eq : run_trace = trace (fresh_marks c)
  (MkBarriers (st_barrierInterval c) (budget c (count data)) 0 k) pos (range_from c count data i pos).
Proof. unfold run_trace. by destruct Hstart as [[(-> & -> & ->)| ->] _ _]. Qed.

Lemma run_trace_records : srecords run_trace = range_from c count data i pos.
Proof. by rewrite run_trace_eq, srecords_trace. Qed.

Lemma cut_generator_ok : br_ok (MkBarriers (st_barrierInterval c) (budget c (count data)) 0 k).
Proof.
  destruct Hstart as [_ _ Hk]. destruct (budget_ok c count Hcount data Hok) as [Hb _]. pose proof Hok as [_ _ _ Hint].
  split; cbn [br_intervalElements br_sinceLast br_injected br_maxBarriers]; lia.
Qed.

Lemma run_trace_barrier n id p :
  sbarriers run_trace !! n = Some (id, p) -> id = k + 1 + Z.of_nat n /\ id <= budget c (count data).
Proof.
  rewrite run_trace_eq, sbarriers_due by (by apply cut_generator_ok). unfold due_barriers.
  cbn [br_intervalElements br_sinceLast br_injected br_maxBarriers]. rewrite list_lookup_fmap.
  intros (j & Hj & [= -> _])%fmap_Some. apply lookup_seqZ in Hj as [-> ?]. lia.
Qed.

Context (Hlag : disordered (st_lag c) (src_range (src_at data) 0 (count data))).
Context (H64 : Forall (fun r => is_i64 (EventTime r)) (src_range (src_at data) 0 (count data))).

Lemma run_trace_timely : timely (event_elem <$> run_trace).
Proof.
  rewrite run_trace_eq. destruct Hstart as [_ Hp _]. pose proof Hok as [_ _ Hl _].
  pose proof (ranges_ok c count Hcount data i Hok Hi) as (Hb & Hb2 & _). unfold range_from. fold (start_of c count data (i + 1)).
  rewrite (src_range_split _ 0 pos (count data)), (src_range_split _ pos (start_of c count data (i + 1)) (count data)) in Hlag, H64 by lia.
  apply Forall_app in H64 as [_ [H64' _]%Forall_app].
  eapply trace_timely.
  - split; cbn; [lia|unfold_ints; lia|lia].
  - cbn. intros l1 r l2 El r' Hr'.
    apply (Hlag (src_range (src_at data) 0 pos ++ l1) r (l2 ++ src_range (src_at data) (start_of c count data (i + 1)) (count data))).
    + by rewrite El, <- !app_assoc.
    + set_solver.
  - intros r Hr. pose proof (proj1 (Forall_forall _ _) H64' r Hr) as H1. split; [done|].
    cbn. revert H1. unfold_ints. lia.
Qed.

(** A cut at one of its barriers. *)
Lemma run_trace_cut T1 b p T2 :
  run_trace = T1 ++ SBarrier b p :: T2 ->
  srecords T1 = src_range (src_at data) pos p /\ srecords T2 = range_from c count data i p /\
  pos <= p <= start_of c count data (i + 1) /\ CheckpointID b = k + 1 + Z.of_nat (length (sbarriers T1)) /\
  CheckpointID b <= budget c (count data).
Proof.
  intros ET. pose proof run_trace_records as Hr. pose proof Hstart as [_ Hp Hk].
  pose proof (ranges_ok c count Hcount data i Hok Hi) as (Hb & Hb2 & Hat).
  pose proof ET as ET'. rewrite run_trace_eq in ET'.
  destruct (trace_at_barrier _ _ _ _ _ _ _ _ ET') as (l1 & l2 & El & Ep & E2).
  assert (srecords T2 = l2) as Es2 by (by rewrite E2, srecords_trace).
  rewrite ET, srecords_app in Hr. change (srecords (SBarrier b p :: T2)) with (srecords T2) in Hr.
  rewrite Es2, El in Hr. apply app_inv_tail in Hr as Es1.
  assert (start_of c count data i <= pos) as Hlo by lia.
  pose proof (length_src_range (src_at data) pos (start_of c count data (i + 1)) ltac:(lia) ltac:(intros n Hn; apply Hat; lia)) as Hlen.
  unfold range_from in El |- *. fold (start_of c count data (i + 1)) in El |- *. rewrite El, length_app in Hlen.
  assert (pos <= p <= start_of c count data (i + 1)) as Hpp by lia.
  rewrite (src_range_split _ pos p (start_of c count data (i + 1)) Hpp) in El.
  pose proof (length_src_range (src_at data) pos p ltac:(lia) ltac:(intros n Hn; apply Hat; lia)) as Hlen1.
  apply app_inj_1 in El as [El1 El2]; [|lia]. subst l1 l2.
  assert (sbarriers run_trace !! length (sbarriers T1) = Some (CheckpointID b, p)) as Hn.
  { rewrite ET, sbarriers_app. cbn. by rewrite lookup_app_r, Nat.sub_diag by done. }
  split_and!; [done|done|lia|lia|by eapply run_trace_barrier..].
Qed.

Lemma run_trace_next T1 b p T2 :
  run_trace = T1 ++ SBarrier b p :: T2 -> starts_from i (CheckpointID b) p (Some (MkResume p (CheckpointID b))).
Proof.
  intros ET. destruct (run_trace_cut _ _ _ _ ET) as (_ & _ & Hp & Hid & Hb). destruct Hstart as [_ Hp0 Hk].
  split; [by right|lia|lia].
Qed.

(** ** As emissions *)

Definition source_stream : list emission := (send_of <$> run_trace) ++ [end_of_stream].

Lemma sent_trace (T : list source_event) : sent <$> (send_of <$> T) = event_elem <$> T.
Proof. rewrite <- list_fmap_compose. apply list_fmap_ext. by intros ? [] _. Qed.

Lemma proper_trace (T : list source_event) : Forall proper (send_of <$> T).
Proof. apply Forall_fmap, Forall_true. by intros []. Qed.

Lemma emitted_trace (T : list source_event) : emitted (send_of <$> T) = srecords T.
Proof. induction T as [|[] T IH]; cbn; [done|by f_equal|done|done]. Qed.

Lemma nb_trace (T : list source_event) : nb (event_elem <$> T) = length (sbarriers T).
Proof. unfold nb. induction T as [|[] T IH]; cbn; [done|done|done|]. by f_equal. Qed.

Lemma trace_open (T : list source_event) : NewEndOfStreamElement ∉ event_elem <$> T.
Proof. intros ([] & ? & _)%list_elem_of_fmap; done. Qed.

Lemma source_stream_well_ended n j : well_ended (source_stream ≫= routed n j).
Proof.
  eapply well_ended_sublist; [apply routed_sublist|]. unfold source_stream. rewrite fmap_app, sent_trace.
  apply well_ended_snoc, trace_open.
Qed.

Lemma timely_eos l : timely l -> timely (l ++ [NewEndOfStreamElement]).
Proof. intros Hl. by apply timely_snoc. Qed.

Lemma source_stream_timely n j : timely (source_stream ≫= routed n j).
Proof.
  eapply timely_sublist; [apply routed_sublist|]. unfold source_stream. rewrite fmap_app, sent_trace.
  apply timely_eos, run_trace_timely.
Qed.

Lemma source_stream_records n j :
  records (source_stream ≫= routed n j) = share n j (range_from c count data i pos).
Proof.
  rewrite routed_records.
  - unfold source_stream. by rewrite emitted_app, emitted_trace, run_trace_records, app_nil_r.
  - apply Forall_app. split; [apply proper_trace|by repeat constructor].
Qed.

Lemma source_stream_eos n j : NewEndOfStreamElement ∈ source_stream ≫= routed n j.
Proof using. unfold source_stream. rewrite bind_app. apply elem_of_app. right. by left. Qed.

(** At the barrier of checkpoint [id] output [j] has its share of the records
    before the barrier, and what follows is past every watermark there. *)
Lemma source_stream_cut n j T1 b p T2 m :
  run_trace = T1 ++ SBarrier b p :: T2 -> CheckpointID b = k + 1 + Z.of_nat m ->
  let l := upto (Datatypes.S m) (source_stream ≫= routed n j) in
  records l = share n j (src_range (src_at data) pos p) /\ NewEndOfStreamElement ∉ l /\
  forall w r, w ∈ marks l -> r ∈ range_from c count data i p -> w < EventTime r.
Proof.
  intros ET Hid l. destruct (run_trace_cut _ _ _ _ ET) as (Hr1 & Hr2 & Hp & Hid' & _).
  assert (l = ((send_of <$> T1) ≫= routed n j) ++ [NewBarrierElement b]) as ->.
  { subst l. unfold source_stream. rewrite ET, fmap_app, fmap_cons, <- app_assoc. cbn [send_of app].
    replace m with (nb (sent <$> (send_of <$> T1))); [apply routed_upto|]. rewrite sent_trace, nb_trace. lia. }
  split_and!.
  - rewrite records_app, routed_records by apply proper_trace. by rewrite emitted_trace, Hr1, app_nil_r.
  - rewrite elem_of_app, list_elem_of_singleton. intros [Hx|]; [|done].
    eapply elem_of_sublist in Hx; [|apply routed_sublist]. rewrite sent_trace in Hx. by apply trace_open in Hx.
  - intros w r Hw Hr. rewrite marks_app, routed_marks, sent_trace, app_nil_r in Hw.
    pose proof run_trace_timely as Ht. rewrite ET, fmap_app, fmap_cons in Ht.
    assert (NewRecordElement r ∈ event_elem <$> T2) as (T3 & T4 & E)%list_elem_of_split.
    { apply elem_of_records. rewrite <- sent_trace, records_sent by apply proper_trace. by rewrite emitted_trace, Hr2. }
    eapply (Ht ((event_elem <$> T1) ++ event_elem (SBarrier b p) :: T3) r T4).
    + by rewrite E, <- app_assoc.
    + rewrite marks_app, elem_of_app. by left.
Qed.

Lemma source_stream_barrier n j m b :
  barriers (source_stream ≫= routed n j) !! m = Some b ->
  CheckpointID b = k + 1 + Z.of_nat m /\ CheckpointID b <= budget c (count data).
Proof.
  rewrite routed_barriers. unfold source_stream. rewrite fmap_app, sent_trace, barriers_app, app_nil_r. intros Hb.
  assert (exists p, sbarriers run_trace !! m = Some (CheckpointID b, p)) as [p Hp]; [|by eapply run_trace_barrier].
  revert m Hb. induction run_trace as [|[r|t|b' p'] T IH]; intros m Hb; cbn in *; [done|by apply IH|by apply IH|].
  destruct m as [|m]; cbn in *; [injection Hb as ->; by eexists|by apply IH].
Qed.
End Source.

(** * The stream of an operator subtask *)

Lemma prefix_nb l k : l `prefix_of` k -> (nb l <= nb k)%nat.
Proof. intros [x ->]. rewrite nb_app. lia. Qed.

(** A stream with fewer barriers that is still open is not settled. *)
Lemma open_unsettled n l :
  settled (S n) (upto (S n) l) -> (nb l <= n)%nat -> NewEndOfStreamElement ∉ l -> False.
Proof.
  intros [_ [Hn|He]] Hl Hne.
  - pose proof (prefix_nb _ _ (upto_prefix (S n) l)). lia.
  - apply Hne. destruct (upto_prefix (S n) l) as [x ->]. set_solver.
Qed.

(** What has reached the barrier after [l1] of a stream has it. *)
Lemma settled_reaches l1 b rest log :
  NewEndOfStreamElement ∉ l1 -> log `prefix_of` l1 ++ NewBarrierElement b :: rest ->
  settled (S (nb l1)) (upto (S (nb l1)) log) -> upto (S (nb l1)) log = l1 ++ [NewBarrierElement b].
Proof.
  intros Hne [x E] Hs. apply app_eq_app in E as [y [(-> & E)|(-> & E)]].
  - exfalso. apply (open_unsettled _ _ Hs); [rewrite nb_app; lia|set_solver].
  - destruct y as [|e y].
    + exfalso. apply (open_unsettled _ _ Hs); rewrite app_nil_r; done.
    + injection E as <- _. apply upto_at_barrier.
Qed.

Lemma ref_call_emitted (m : Op Memory unit) st l st' : ref_call m st = Some (l, st') -> exists recs, l = Emitted <$> recs.
Proof. unfold ref_call. destruct (m _) as [[[]|] o]; [|done]. intros [= <- _]. by eexists. Qed.

Lemma emitted_shape recs :
  barriers (sent <$> (Emitted <$> recs)) = [] /\ (NewEndOfStreamElement ∉ sent <$> (Emitted <$> recs)) /\
  Forall proper (Emitted <$> recs).
Proof.
  split_and!.
  - induction recs; done.
  - rewrite <- list_fmap_compose. by intros (r & ? & _)%list_elem_of_fmap.
  - by apply Forall_fmap, Forall_true.
Qed.

Lemma part_of_shape post tail :
  part_of post tail -> Forall proper tail /\
  barriers (sent <$> tail) `prefix_of` option_list (head post ≫= barrier_of) /\
  (NewEndOfStreamElement ∈ sent <$> tail -> head post = Some NewEndOfStreamElement).
Proof.
  intros [->|Hp]; [split_and!; [done|apply prefix_nil|by intros ?%elem_of_nil]|].
  destruct post as [|[rec|wm|b|] post]; [done|..]; cbn in Hp |- *.
  - destruct Hp as [recs ->]. destruct (emitted_shape recs) as (-> & He & Hp). by split_and!.
  - destruct Hp as [recs [->| ->]]; destruct (emitted_shape recs) as (Hb & He & Hp);
      rewrite ?fmap_app, ?barriers_app, Hb; (split_and!; [|done|set_solver]); [done|].
    apply Forall_app. split; [done|by repeat constructor].
  - subst tail. split_and!; [by repeat constructor|done|set_solver].
  - destruct Hp as [recs [->| ->]]; destruct (emitted_shape recs) as (Hb & He & Hp);
      rewrite ?fmap_app, ?barriers_app, Hb; (split_and!; [|done|done]); [done|].
    apply Forall_app. split; [done|by repeat constructor].
Qed.
Lemma part_ended post l tail : NewEndOfStreamElement ∉ sent <$> l -> part_of post tail -> well_ended (sent <$> l ++ tail).
Proof.
  intros He Hp. assert (forall k, NewEndOfStreamElement ∉ sent <$> k -> well_ended (sent <$> k)) as Hopen.
  { intros k Hk l1 l2 E. exfalso. apply Hk. rewrite E. set_solver. }
  destruct Hp as [->|Hp]; [apply Hopen; by rewrite app_nil_r|].
  destruct post as [|[rec|wm|b|] post]; [done|..]; cbn in Hp.
  - destruct Hp as [recs ->]. destruct (emitted_shape recs) as (_ & ? & _). apply Hopen. rewrite fmap_app. set_solver.
  - destruct Hp as [recs [->| ->]]; destruct (emitted_shape recs) as (_ & ? & _); apply Hopen; rewrite !fmap_app; set_solver.
  - subst tail. apply Hopen. rewrite fmap_app. set_solver.
  - destruct Hp as [recs [->| ->]]; destruct (emitted_shape recs) as (_ & ? & _).
    + apply Hopen. rewrite fmap_app. set_solver.
    + rewrite !fmap_app, app_assoc. apply well_ended_snoc. set_solver.
Qed.

Section RefShape.
Context (op : Operator) `{!OperatorLaws op}.

(** It passes barriers on, and the end of the stream only when it comes. *)
Lemma ref_run_shape es m l st :
  NewEndOfStreamElement ∉ es -> ref_run op es m = Some (l, st) ->
  barriers (sent <$> l) = barriers es /\ (NewEndOfStreamElement ∉ sent <$> l) /\ Forall proper l.
Proof.
  revert m l. induction es as [|e es IH]; intros m l Hne; cbn [ref_run].
  { intros [= <- <-]. split_and!; [done|apply not_elem_of_nil|done]. }
  apply not_elem_of_cons in Hne as [He Hne].
  destruct (ref_element op e m) as [[l1 st1]|] eqn:E1; [|done]. cbn [mbind option_bind].
  rewrite decide_False by done. destruct (ref_run op es st1) as [[l2 st2]|] eqn:E2; [|done]. intros [= <- <-].
  destruct (IH _ _ Hne E2) as (Hb2 & He2 & Hp2).
  assert (barriers (sent <$> l1) = option_list (barrier_of e) /\ (NewEndOfStreamElement ∉ sent <$> l1) /\ Forall proper l1)
    as (Hb1 & He1 & Hp1).
  { destruct e as [rec|wm|b|]; cbn [ref_element] in E1; [| | |done].
    - apply ref_call_emitted in E1 as [recs ->]. apply emitted_shape.
    - destruct (ref_call _ _) as [[k st3]|] eqn:E3; [|done]. injection E1 as <- <-.
      apply ref_call_emitted in E3 as [recs ->]. destruct (emitted_shape recs) as (Hb & He3 & Hp).
      rewrite fmap_app, barriers_app, Hb. split_and!; [done|set_solver|].
      apply Forall_app. split; [done|by repeat constructor].
    - injection E1 as <- <-. split_and!; [done|set_solver|by repeat constructor]. }
  rewrite fmap_app, barriers_app, Hb1, Hb2. split_and!.
  - by destruct e.
  - rewrite elem_of_app. tauto.
  - by apply Forall_app.
Qed.

Lemma ref_run_stuck es es' m :
  NewEndOfStreamElement ∉ es -> ref_run op es m = None -> ref_run op (es ++ es') m = None.
Proof.
  revert m. induction es as [|e es IH]; intros m; cbn [ref_run app]; [done|].
  intros [He Hne]%not_elem_of_cons. destruct (ref_element op e m) as [[l1 st1]|]; [|done].
  cbn [mbind option_bind]. rewrite !decide_False by done.
  destruct (ref_run op es st1) as [[? ?]|] eqn:E; [done|]. by rewrite IH.
Qed.

Lemma ref_run_log es m l st :
  ref_run op es m = Some (l, st) -> well_ended (sent <$> l) /\ barriers (sent <$> l) `prefix_of` barriers es /\
    (NewEndOfStreamElement ∉ es -> NewEndOfStreamElement ∉ sent <$> l).
Proof.
  destruct (decide (NewEndOfStreamElement ∈ es)) as [Hin|Hout]; intros Hl.
  - apply list_elem_of_split_l in Hin as (es1 & es2 & -> & Hne).
    destruct (ref_run op es1 m) as [[l1 st1]|] eqn:E1; cycle 1.
    { by rewrite ref_run_stuck in Hl. }
    rewrite (ref_run_app _ _ _ _ _ _ Hne E1) in Hl. destruct (ref_run_shape es1 m l1 st1 Hne E1) as (Hb & He & Hp).
    cbn [ref_run ref_element] in Hl. destruct (ref_call _ _) as [[l2 st2]|] eqn:E2; [|done].
    cbn [mbind option_bind] in Hl. rewrite decide_True in Hl by done. injection Hl as <- <-.
    apply ref_call_emitted in E2 as [recs ->]. destruct (emitted_shape recs) as (Hb2 & He2 & _).
    rewrite app_nil_r, !fmap_app. split_and!; [|rewrite !barriers_app, Hb, Hb2, app_nil_r; by eexists|set_solver].
    rewrite app_assoc. apply well_ended_snoc. set_solver.
  - destruct (ref_run_shape es m l st Hout Hl) as (-> & He & _). split_and!; [|done|done].
    intros l1 l2 E. exfalso. apply He. rewrite E. set_solver.
Qed.

(** A whole stream, to its end. *)
Lemma ref_run_ended es m l st :
  NewEndOfStreamElement ∉ es -> ref_run op es m = Some (l, st) ->
  forall recs st', ref_call (o_OnEndOfStream op) st = Some (recs, st') ->
  ref_run op (es ++ [NewEndOfStreamElement]) m = Some (l ++ recs ++ [Broadcasted NewEndOfStreamElement], st').
Proof.
  intros Hne Hr recs st' He. rewrite (ref_run_app _ _ _ _ _ _ Hne Hr).
  cbn [ref_run ref_element]. rewrite He. cbn [mbind option_bind]. rewrite decide_True by done. cbn. by rewrite app_nil_r.
Qed.

Lemma ref_run_eos es m l st :
  NewEndOfStreamElement ∉ es -> ref_run op (es ++ [NewEndOfStreamElement]) m = Some (l, st) ->
  exists l1 st1 recs, ref_run op es m = Some (l1, st1) /\ ref_call (o_OnEndOfStream op) st1 = Some (Emitted <$> recs, st) /\
    l = l1 ++ (Emitted <$> recs) ++ [Broadcasted NewEndOfStreamElement].
Proof.
  intros Hne Hl. destruct (ref_run op es m) as [[l1 st1]|] eqn:E1; [|by rewrite ref_run_stuck in Hl].
  destruct (ref_call (o_OnEndOfStream op) st1) as [[l2 st2]|] eqn:E2.
  - rewrite (ref_run_ended _ _ _ _ Hne E1 _ _ E2) in Hl. injection Hl as <- <-.
    destruct (ref_call_emitted _ _ _ _ E2) as [recs ->]. by exists l1, st1, recs.
  - rewrite (ref_run_app _ _ _ _ _ _ Hne E1) in Hl. cbn [ref_run ref_element] in Hl. by rewrite E2 in Hl.
Qed.
End RefShape.

Section OperatorStage.
Context {S SE : Type} `{KeyedStateLaws S SE} {X XE : Type} `{CheckpointsLaws X XE}.
Context {C CE : Type} `{OutputLaws C CE} {GE NE : Type}.
Context (op : Operator) `{!OperatorLaws op}.

(** However a run ends, whoever reads its output to a barrier has read exactly
    what it sends for what comes before that barrier. *)
Lemma operator_stage fs (s : S) close restored m (closed : result GE unit) es (w w' : Writer C) (x x' : X)
    (r : result (op_task_error SE XE CE GE NE) unit) pre b post l st :
  fresh_state s -> starts_at restored m -> fresh_writer 1 w ->
  runOperatorSubtask op fs (Ok s) close restored closed es w x = (r, (w', x')) ->
  es = pre ++ NewBarrierElement b :: post -> NewEndOfStreamElement ∉ pre ->
  ref_run op pre m = Some (l, st) ->
  settled (Datatypes.S (nb pre)) (upto (Datatypes.S (nb pre)) (log_at w' 0)) ->
  upto (Datatypes.S (nb pre)) (log_at w' 0) = (sent <$> l) ++ [NewBarrierElement b].
Proof.
  intros Hs Hm Hw E Ees Hne Hl Hset.
  destruct (subtask_part op fs s close restored m closed es w w' x x' r Hs Hm E)
    as (pre' & post' & l' & st' & tail & r2 & Ees' & Hl' & Hpart & Hrun).
  destruct (fresh_writer_log 1 _ w w' r2 0 Hw Hrun ltac:(lia)) as [Hlog _]. rewrite routed_one, fmap_app in Hlog.
  destruct (ref_run_shape op pre m l st Hne Hl) as (Hb & He & _).
  assert (nb (sent <$> l) = nb pre) as Hnb by (unfold nb; by rewrite Hb). rewrite <- Hnb in *.
  destruct (part_of_shape _ _ Hpart) as (_ & Htb & Hte).
  rewrite Ees in Ees'. apply app_eq_app in Ees' as [y [(Epre & Epost)|(Epre & Epost)]].
  - (* it did not get to the barrier *)
    destruct y as [|e y].
    + rewrite app_nil_r in Epre. subst pre'. rewrite Hl in Hl'. injection Hl' as <- <-. cbn in Epost. subst post'.
      destruct Hpart as [->| ->].
      * exfalso. cbn in Hlog. rewrite app_nil_r in Hlog. apply (open_unsettled _ _ Hset).
        -- by apply prefix_nb.
        -- destruct Hlog as [k Ek]. rewrite Ek in He. set_solver.
      * by apply (settled_reaches _ _ [] _ He).
    + exfalso. rewrite Epre in Hne. assert (NewEndOfStreamElement ∉ pre') as Hne' by set_solver.
      destruct (ref_run_shape op pre' m l' st' Hne' Hl') as (Hb' & He' & _).
      subst post'. cbn [head app] in Htb, Hte. apply (open_unsettled _ _ Hset).
      * apply prefix_nb in Hlog. rewrite nb_app in Hlog. unfold nb in Hlog at 2. rewrite Hb' in Hlog.
        rewrite Hnb, Epre, nb_app, nb_cons. destruct Htb as [k Ek]. cbn in Ek.
        assert (nb (sent <$> tail) <= length (option_list (barrier_of e)))%nat as Ht.
        { rewrite Ek, length_app. unfold nb. lia. }
        unfold nb in Hlog at 1. fold (nb (log_at w' 0)) in Hlog. fold (nb pre') in Hlog.
        destruct (barrier_of e); cbn in Ht; lia.
      * intros Hin. assert (NewEndOfStreamElement ∈ (sent <$> l') ++ (sent <$> tail)) as [?|Hin']%elem_of_app
          by (destruct Hlog as [k ->]; set_solver); [done|].
        apply Hte in Hin'. injection Hin' as ->. set_solver.
  - destruct y as [|e y].
    + rewrite app_nil_r in Epre. subst pre'. cbn in Epost. subst post'. rewrite Hl in Hl'. injection Hl' as <- <-.
      destruct Hpart as [->| ->].
      * exfalso. cbn in Hlog. rewrite app_nil_r in Hlog. apply (open_unsettled _ _ Hset).
        -- by apply prefix_nb.
        -- destruct Hlog as [k Ek]. rewrite Ek in He. set_solver.
      * by apply (settled_reaches _ _ [] _ He).
    + injection Epost as <- _. subst pre'.
      destruct (ref_run_barrier op pre b y m l st Hne Hl) as [Hrb _]. rewrite Hrb in Hl'.
      destruct (ref_run op y st) as [[k st2]|]; [|done]. injection Hl' as <- <-.
      rewrite fmap_app, <- app_assoc in Hlog. cbn in Hlog. by eapply settled_reaches.
Qed.

(** Whatever it has sent is well ended, and its barriers are those of its
    input. *)
Lemma operator_stage_log fs (s : S) close restored m (closed : result GE unit) es (w w' : Writer C) (x x' : X)
    (r : result (op_task_error SE XE CE GE NE) unit) :
  fresh_state s -> starts_at restored m -> fresh_writer 1 w -> well_ended es ->
  runOperatorSubtask op fs (Ok s) close restored closed es w x = (r, (w', x')) ->
  well_ended (log_at w' 0) /\ barriers (log_at w' 0) `prefix_of` barriers es.
Proof.
  intros Hs Hm Hw Hes E.
  destruct (subtask_part op fs s close restored m closed es w w' x x' r Hs Hm E)
    as (pre & post & l & st & tail & r2 & -> & Hl & Hpart & Hrun).
  destruct (fresh_writer_log 1 _ w w' r2 0 Hw Hrun ltac:(lia)) as [Hlog _]. rewrite routed_one, fmap_app in Hlog.
  destruct (part_of_shape _ _ Hpart) as (_ & Htb & Hte).
  destruct (ref_run_log op pre m l st Hl) as (Hwe & Hb & Hopen).
  assert (barriers (sent <$> l ++ tail) `prefix_of` barriers (pre ++ post) /\ well_ended (sent <$> l ++ tail)) as [Hb2 Hw2].
  { rewrite fmap_app, !barriers_app. destruct (decide (NewEndOfStreamElement ∈ pre)) as [Hin|Hout].
    - pose proof (well_ended_app _ _ Hes Hin) as ->. destruct Hpart as [->|[]]. cbn. rewrite !app_nil_r. done.
    - destruct (ref_run_shape op pre m l st Hout Hl) as (-> & Hno & _). split.
      + apply prefix_app. destruct post as [|e post]; cbn in Htb; [by apply prefix_nil_inv in Htb as ->|].
        etrans; [exact Htb|]. destruct (barrier_of e) eqn:Eb; [|apply prefix_nil].
        destruct e; [done|done| |done]. injection Eb as ->. by eexists.
      + rewrite <- fmap_app. by apply (part_ended post). }
  rewrite fmap_app in *. split; [by eapply well_ended_prefix|].
  etrans; [|exact Hb2]. destruct Hlog as [k ->]. rewrite barriers_app. by eexists.
Qed.

(** A run that succeeds has sent it all. *)
Lemma operator_stage_whole fs (s : S) close restored m (closed : result GE unit) es (w w' : Writer C) (x x' : X) :
  fresh_state s -> starts_at restored m -> fresh_writer 1 w ->
  runOperatorSubtask (NE := NE) op fs (Ok s) close restored closed es w x = (Ok tt, (w', x')) ->
  exists l st, ref_run op es m = Some (l, st) /\ log_at w' 0 = sent <$> l.
Proof.
  intros Hs Hm Hw E. destruct (subtask_sends op fs s close restored m closed es w w' x x' Hs Hm E) as (l & st & Hl & Hrun).
  exists l, st. split; [done|]. destruct (fresh_writer_log 1 _ w w' _ 0 Hw Hrun ltac:(lia)) as [_ Hlog].
  by rewrite (Hlog eq_refl), routed_one.
Qed.
End OperatorStage.

(** * A stream an operator that aggregates by window can take *)

Lemma timely_in_time wc front es :
  timely es -> (forall r, r ∈ records es -> front < EventTime r /\ time_ok wc (EventTime r)) ->
  (forall w, w ∈ marks es -> is_i64 w) -> in_time wc front (events es).
Proof.
  revert front. induction es as [|e es IH]; intros front Ht Hr Hm; [done|].
  assert (timely es) as Ht' by (eapply timely_sublist; [|exact Ht]; by apply sublist_cons).
  destruct e as [r|w|b|].
  - change (events (NewRecordElement r :: es)) with (EvElement r :: events es). cbn [in_time].
    change (records (NewRecordElement r :: es)) with (r :: records es) in Hr.
    destruct (Hr r) as [? ?]; [by left|]. split_and!; [done..|]. apply IH; [done| |done].
    intros r' Hr'. apply Hr. by right.
  - change (events (NewWatermarkElement w :: es)) with (EvWatermark w :: events es). cbn [in_time].
    change (marks (NewWatermarkElement w :: es)) with (w :: marks es) in Hm. split; [apply Hm; by left|].
    apply IH; [done| |intros w' Hw'; apply Hm; by right]. intros r Hr'. destruct (Hr r Hr') as [? ?]. split; [|done].
    apply elem_of_records in Hr' as (l1 & l2 & ->)%list_elem_of_split.
    specialize (Ht (NewWatermarkElement w :: l1) r l2 eq_refl w). cbn in Ht. specialize (Ht ltac:(by left)). lia.
  - by apply IH.
  - by apply IH.
Qed.

Lemma front_of_marks front es w : w ∈ marks es -> w <= front_of front (events es).
Proof.
  revert front. induction es as [|e es IH]; intros front Hw; [by apply elem_of_nil in Hw|].
  destruct e as [r|w'|b|]; [by apply IH| |by apply IH..].
  change (marks (NewWatermarkElement w' :: es)) with (w' :: marks es) in Hw.
  change (events (NewWatermarkElement w' :: es)) with (EvWatermark w' :: events es).
  apply elem_of_cons in Hw as [->|Hw]; [|by apply IH]. pose proof (front_of_ge (Z.max front w') (events es)).
  unfold front_of in *. cbn. lia.
Qed.

Section Windowed.
Context {op : Operator} `{!OperatorLaws op} {wc : WindowCount} {V : Type} (I : Windowed op wc V).

(** It is taken without an error; and once the final watermark has come every
    aggregate of its records has been sent, each once. *)
Lemma windowed_stream es :
  NewEndOfStreamElement ∉ es -> Forall (wd_valid I) (records es) -> in_time wc min_int64 (events es) ->
  exists l st, ref_run op es ∅ = Some (l, st) /\
    (max_int64 ∈ marks es -> emitted l ≡ₚ wd_row I <$> map_to_list (total I (records es) ∅)).
Proof.
  intros Hne Hv Hin. rewrite <- events_records in Hv.
  destruct (windowed_events I (events es) min_int64 ∅ (fresh_op NewMemory) empty_store Hv Hin (described_fresh I))
    as (o & st & E & [_ _ Hi _]).
  destruct (ref_run_events op es _ _ Hne E) as (l & Hl & Ho). exists l, (entries (op_state o)).
  split; [exact Hl|]. intros Hmax. cbn in Ho. rewrite <- Ho, (ri_out _ _ _ _ _ _ Hi), fired_above, events_records; [done|].
  by apply front_of_marks.
Qed.
End Windowed.
