(* ===== verification/Job.v ===== *)
(** A whole job: sources, operators that aggregate by window, and a sink, run by
    the executor as subtasks joined by channels and gates. It may be killed any
    number of times, wherever each subtask then is, and is resumed each time from
    the last checkpoint to have completed. *)
From S2P Require Import Prelude Core State Serialize Operators WindowStore Window WindowRun Oracle WindowOracle.
From S2P Require Import Gate GateSpec Writer Streams Stages SourceTask SourceTaskSpec Subtask SourceSubtask.
From S2P Require Import OperatorTask OperatorTaskSpec OperatorRecovery JobStages Transactional ExactlyOnce SubtaskSink.

(** * Attempts *)

(** A checkpoint to resume from: its number and what each subtask gave for it. *)
Record point := MkPoint {
  pt_id : Z;
  pt_source : nat -> bytes;
  pt_operator : nat -> bytes;
  pt_sink : bytes;
}.

Definition id_of (p : option point) : Z := default 0 (pt_id <$> p).
Definition source_payload (p : option point) (i : nat) : option (bytes * Z) := (fun pt => (pt_source pt i, pt_id pt)) <$> p.
Definition operator_payload (p : option point) (j : nat) : option bytes := (fun pt => pt_operator pt j) <$> p.
Definition sink_payload (p : option point) : option bytes := pt_sink <$> p.

(** ** Choosing over lists *)

Lemma choose_list {A B} (P : nat -> A -> B -> Prop) (l : list A) :
  (forall i x, l !! i = Some x -> exists y, P i x y) ->
  exists k, length k = length l /\ forall i x y, l !! i = Some x -> k !! i = Some y -> P i x y.
Proof.
  revert P. induction l as [|x l IH]; intros P HP.
  { exists []. split; [done|]. intros i y ?. by rewrite lookup_nil. }
  destruct (HP 0%nat x eq_refl) as [y Hy].
  destruct (IH (fun i => P (Datatypes.S i)) (fun i => HP (Datatypes.S i))) as (k & Hk & Hall).
  exists (y :: k). split; [cbn; congruence|]. intros [|i] x' y'; cbn; [by intros [= <-] [= <-]|apply Hall].
Qed.

(** Where a barrier of a stream is. *)
Lemma barrier_split es n b :
  barriers es !! n = Some b -> exists pre post, es = pre ++ NewBarrierElement b :: post /\ nb pre = n.
Proof.
  revert n. induction es as [|e es IH]; intros n Hn; [done|].
  destruct e as [r|w|b'|]; cbn in Hn; [| |destruct n as [|n]; [injection Hn as ->; by exists [], es|]|];
    destruct (IH _ Hn) as (pre & post & -> & Hnb).
  - exists (NewRecordElement r :: pre), post. split; [done|]. by rewrite nb_cons, Hnb.
  - exists (NewWatermarkElement w :: pre), post. split; [done|]. by rewrite nb_cons, Hnb.
  - exists (NewBarrierElement b' :: pre), post. split; [done|]. by rewrite nb_cons, Hnb.
  - exists (NewEndOfStreamElement :: pre), post. split; [done|]. by rewrite nb_cons, Hnb.
Qed.

Lemma concat_zip_perm {A} (l k : list (list A)) :
  length l = length k -> concat (zip_with app l k) ≡ₚ concat l ++ concat k.
Proof.
  revert k. induction l as [|x l IH]; intros [|y k] Hl; cbn in *; [done..|].
  rewrite IH by lia. rewrite <- !app_assoc. apply Permutation_app_head. rewrite !app_assoc.
  apply Permutation_app_tail, Permutation_app_comm.
Qed.

Section Job.
Context {S SE : Type} `{SourceLaws S SE} {KS KE : Type} `{KeyedStateLaws KS KE}.
Context {X XE : Type} `{CheckpointsLaws X XE} {C CE : Type} `{OutputLaws C CE}.
Context {DE OE GE NE : Type}.

(** A source vertex split into subtasks over [data]; [q] subtasks of an operator;
    one of a sink that writes under [rt]. *)
Context (c : settings) (count : S -> Z) (data : S) (q : nat) (op : Operator) (rt sink_vertex : bytes).

Definition sources : nat := Z.to_nat (st_parallelism c).

(** One run of a subtask: what it ran with, what it ran over, how it ended and
    what it left. The stream of an operator or a sink is what its gate made of
    the parts of its inputs that reached it, in the order they did. *)
Record source_run := SourceRun {
  sr_faults : faults;
  sr_ctx : src_env C X -> option DE;
  sr_fuel : nat;
  sr_source : S;
  sr_close : S -> option OE;
  sr_writer : Writer C;
  sr_job : X;
  sr_result : result (source_task_error SE XE CE DE OE) unit;
  sr_sent : Writer C;
  sr_left : X;
}.

Record operator_run := OperatorRun {
  or_inputs : list (list StreamElement);
  or_merged : list tagged;
  or_gate_faults : faults;
  or_stream : list StreamElement;
  or_gate : Gate;
  or_faults : faults;
  or_state : KS;
  or_close : option (KS -> option NE);
  or_closed : result GE unit;
  or_writer : Writer C;
  or_job : X;
  or_result : result (op_task_error KE XE CE GE NE) unit;
  or_sent : Writer C;
  or_left : X;
}.

Record sink_run := SinkRun {
  sk_inputs : list (list StreamElement);
  sk_merged : list tagged;
  sk_gate_faults : faults;
  sk_stream : list StreamElement;
  sk_gate : Gate;
  sk_faults : faults;
  sk_closed : result GE unit;
  sk_script : list outcome;
  sk_job : X;
  sk_result : result (sink_task_error sink_error XE GE) unit;
  sk_sink : Transactional;
  sk_files : fsys;
  sk_left : X;
}.

Record attempt := MkAttempt {
  at_sources : list source_run;
  at_operators : list operator_run;
  at_sink : sink_run;
}.

Record source_ran (p : option point) (i : nat) (u : source_run) : Prop := {
  sr_same : src_at (sr_source u) = src_at data;
  sr_enough : (Z.to_nat (count data) < sr_fuel u)%nat;
  sr_fresh : fresh_writer q (sr_writer u);
  sr_ran : runSourceSubtask (sr_faults u) c (sr_ctx u) (sr_fuel u) (Z.of_nat i) (Ok (sr_source u)) (sr_close u)
    (source_payload p i) (sr_writer u) (sr_job u) = Some (sr_result u, (sr_sent u, sr_left u));
}.

(** What a gate makes of its inputs, when they are parts of [logs]. *)
Record gated (logs inputs : list (list StreamElement)) (merged : list tagged) (fs : faults)
    (stream : list StreamElement) (g : Gate) : Prop := {
  gt_part : Forall2 prefix inputs logs;
  gt_merged : forwarded inputs merged;
  gt_run : run_gate (NewGate (length inputs) fs) merged = Some (stream, g);
}.

Definition source_logs (a : attempt) (j : nat) : list (list StreamElement) :=
  (fun u => log_at (sr_sent u) j) <$> at_sources a.
Definition operator_logs (a : attempt) : list (list StreamElement) :=
  (fun u => log_at (or_sent u) 0) <$> at_operators a.

(** The states an operator snapshots fit the format. *)
Record operator_ran (p : option point) (a : attempt) (j : nat) (u : operator_run) : Prop := {
  or_gated : gated (source_logs a j) (or_inputs u) (or_merged u) (or_gate_faults u) (or_stream u) (or_gate u);
  or_empty : fresh_state (or_state u);
  or_fresh : fresh_writer 1 (or_writer u);
  or_fits m : starts_at (operator_payload p j) m -> Forall fits (ref_cuts op (or_stream u) m);
  or_ran : runOperatorSubtask op (or_faults u) (Ok (or_state u)) (or_close u) (operator_payload p j) (or_closed u)
    (or_stream u) (or_writer u) (or_job u) = (or_result u, (or_sent u, or_left u));
}.

(** The records that reach the sink fit its format. *)
Record sink_ran (p : option point) (s : fsys) (a : attempt) : Prop := {
  sk_gated : gated (operator_logs a) (sk_inputs (at_sink a)) (sk_merged (at_sink a)) (sk_gate_faults (at_sink a))
    (sk_stream (at_sink a)) (sk_gate (at_sink a));
  sk_fits : Forall op_ok (stream_ops (sk_stream (at_sink a)));
  sk_ran : runSinkSubtask (T := Transactional * fsys) (sk_faults (at_sink a)) (sink_vertex, 0) (sink_payload p)
    (sk_closed (at_sink a)) (sk_stream (at_sink a))
    ((NewTransactional rt, with_outcomes (sk_script (at_sink a)) s), sk_job (at_sink a)) =
    (sk_result (at_sink a), ((sk_sink (at_sink a), sk_files (at_sink a)), sk_left (at_sink a)));
}.

(** An attempt from [p], over the files [s] that the one before left. *)
Record attempted (p : option point) (s : fsys) (a : attempt) : Prop := {
  at_source_count : length (at_sources a) = sources;
  at_operator_count : length (at_operators a) = q;
  at_source i u : at_sources a !! i = Some u -> source_ran p i u;
  at_operator j u : at_operators a !! j = Some u -> operator_ran p a j u;
  at_sank : sink_ran p s a;
}.

(** * Histories *)

Definition acknowledged (x x' : X) (id : Z) (payload : bytes) : Prop :=
  exists news, cp_acked x' = cp_acked x ++ news /\ (id, payload) ∈ news.

(** A checkpoint every subtask acknowledged. *)
Record gave (a : attempt) (pt : point) : Prop := {
  gv_source i u : at_sources a !! i = Some u -> acknowledged (sr_job u) (sr_left u) (pt_id pt) (pt_source pt i);
  gv_operator j u : at_operators a !! j = Some u -> acknowledged (or_job u) (or_left u) (pt_id pt) (pt_operator pt j);
  gv_sink : acknowledged (sk_job (at_sink a)) (sk_left (at_sink a)) (pt_id pt) (pt_sink pt);
}.

(** The sink has heard of no checkpoint past [id]. *)
Definition latest (a : attempt) (id : Z) : Prop := forall i, cp_complete i (sk_left (at_sink a)) -> i <= id.

(** The attempts that failed, each from the last checkpoint complete by then,
    and the files they have left. *)
Inductive job_history : option point -> fsys -> Prop :=
| job_start s : names s = ∅ -> job_history None s
| job_again p s a : job_history p s -> attempted p s a -> latest a (id_of p) -> job_history p (sk_files (at_sink a))
| job_moved p s a pt :
    job_history p s -> attempted p s a -> gave a pt -> latest a (pt_id pt) ->
    job_history (Some pt) (sk_files (at_sink a)).

(** An attempt in which every subtask reads all it is sent and returns without an
    error. *)
Record completed (a : attempt) : Prop := {
  cm_source i u : at_sources a !! i = Some u -> sr_result u = Ok tt;
  cm_operator j u : at_operators a !! j = Some u ->
    or_inputs u = source_logs a j /\ err (or_gate u) = None /\ or_result u = Ok tt;
  cm_sink : sk_inputs (at_sink a) = operator_logs a /\ err (sk_gate (at_sink a)) = None /\ sk_result (at_sink a) = Ok tt;
}.

(** * What an attempt has made of a checkpoint *)

Section Attempt.
Context (Hcount : src_count = Some count) (Hok : settings_ok c (count data)) (Hinterval : 0 < st_barrierInterval c).
Context (Hlag : disordered (st_lag c) (src_range (src_at data) 0 (count data))).
Context (H64 : Forall (fun r => is_i64 (EventTime r)) (src_range (src_at data) 0 (count data))).
Context (Hbudget : budget c (count data) < max_int64 - 1).
Context `{!OperatorLaws op}.

Abbreviation begin i := (start_of c count data (Z.of_nat i)).
Abbreviation rest i pos := (range_from c count data (Z.of_nat i) pos).
Abbreviation resume p i := (match resume_of (source_payload p i) with Ok r => r | Err _ => None end).
Abbreviation stream p j := (fun i => source_stream c count data (Z.of_nat i) (resume p i) ≫= routed q j).
Abbreviation streams p j := (stream p j <$> seq 0 sources).

(** Where subtask [i] of the sources resumes. *)
Record source_at (p : option point) (i : nat) (pos : Z) : Prop := {
  sa_payload : is_ok (resume_of (source_payload p i)) = true;
  sa_start : starts_from c count data (Z.of_nat i) (id_of p) pos (resume p i);
}.

(** What a subtask of the operator has been given by the checkpoint, over all the
    attempts: a stream with its share of the records before the checkpoint, that
    leads to the state its payload holds. [R] is what it has sent for it. *)
Definition operator_at (pos : nat -> Z) (p : option point) (j : nat) (R : list Record_) : Prop :=
  exists V L m, NewEndOfStreamElement ∉ V /\ ref_run op V ∅ = Some (L, m) /\ R = emitted L /\
    starts_at (operator_payload p j) m /\ timely V /\ (forall w, w ∈ marks V -> is_i64 w) /\
    records V ≡ₚ concat ((fun i => share q j (src_range (src_at data) (begin i) (pos i))) <$> seq 0 sources) /\
    (forall i w r, (i < sources)%nat -> w ∈ marks V -> r ∈ rest i (pos i) -> w < EventTime r).

(** The job at a checkpoint. *)
Definition job_at (p : option point) (s : fsys) : Prop :=
  exists pos Rs out, (forall i, (i < sources)%nat -> source_at p i (pos i)) /\
    length Rs = q /\ (forall j R, Rs !! j = Some R -> operator_at pos p j R) /\
    sink_history (X := X) (XE := XE) (GE := GE) rt sink_vertex 0 s (id_of p) (sink_payload p) out /\ out ≡ₚ concat Rs.

(** ** What reaches an operator *)

Lemma source_index i : (i < sources)%nat -> 0 <= Z.of_nat i < st_parallelism c.
Proof. unfold sources. lia. Qed.

Lemma sources_some : (0 < sources)%nat.
Proof. unfold sources. destruct Hok. lia. Qed.

Lemma streams_ne p j : streams p j <> [].
Proof. pose proof sources_some. destruct sources; [lia|done]. Qed.

Lemma streams_ended p j : Forall well_ended (streams p j).
Proof. apply Forall_fmap, Forall_true. intros i. apply source_stream_well_ended. Qed.

Section From.
Context (p : option point) (pos : nat -> Z) (Hat : forall i, (i < sources)%nat -> source_at p i (pos i)).

Lemma source_log i u j :
  (i < sources)%nat -> (j < q)%nat -> source_ran p i u ->
  log_at (sr_sent u) j `prefix_of` stream p j i /\ (sr_result u = Ok tt -> log_at (sr_sent u) j = stream p j i).
Proof.
  intros Hi Hj [Hsame Hfuel Hfresh Hran]. destruct (Hat i Hi) as [Hpay Hst].
  destruct (resume_of (source_payload p i)) as [rs|] eqn:Er; [|done]. cbn in Hst.
  destruct (trace_of_same c count data (sr_source u) (Z.of_nat i) rs Hcount Hsame) as (Ec & Et & Ei).
  pose proof (starts_in_range _ _ _ _ _ _ _ Hst) as Hin. rewrite <- Ei in Hin. rewrite <- Ec in Hfuel.
  assert (settings_ok c (count (sr_source u))) as Hok' by by rewrite Ec.
  pose proof (source_index i Hi) as Hix.
  destruct (source_part _ c count _ _ _ _ _ _ rs _ _ _ _ _ Hcount Hok' Hix Hfuel Er Hin Hran) as (L & r2 & HL & Hrun).
  destruct (fresh_writer_log q L _ _ r2 j Hfresh Hrun Hj) as [Hlog _]. rewrite Et in HL.
  unfold source_stream, run_trace. split.
  - etrans; [exact Hlog|]. destruct HL as [k ->]. rewrite bind_app. by eexists.
  - intros Hr. rewrite Hr in Hran.
    pose proof (source_sends _ c count _ _ _ _ _ _ rs _ _ _ _ Hcount Hok' Hix Hfuel Er Hin Hran) as Hs.
    rewrite Et in Hs. by apply (fresh_writer_log q _ _ _ _ j Hfresh Hs Hj).
Qed.

Lemma streams_timely j : Forall timely (streams p j).
Proof.
  apply Forall_fmap, Forall_forall. intros i Hi%elem_of_seq. cbn.
  destruct (Hat i ltac:(lia)) as [_ Hst].
  by apply (source_stream_timely c count Hcount data Hok Hinterval _ _ _ _ (source_index i ltac:(lia)) Hst Hlag H64).
Qed.

Lemma logs_part s a j : attempted p s a -> (j < q)%nat -> Forall2 prefix (source_logs a j) (streams p j).
Proof.
  intros Ha Hj. apply Forall2_same_length_lookup. unfold source_logs. rewrite !length_fmap, length_seq.
  split; [apply (at_source_count _ _ _ Ha)|]. intros i l k Hl Hk.
  apply list_lookup_fmap_Some in Hl as (u & -> & Hu). apply list_lookup_fmap_Some in Hk as (i' & -> & Hi).
  apply lookup_seq in Hi as [-> Hi]. by apply (source_log i u j Hi Hj), (at_source _ _ _ Ha).
Qed.

Lemma streams_barrier j l n b :
  l ∈ streams p j -> barriers l !! n = Some b ->
  CheckpointID b = id_of p + 1 + Z.of_nat n /\ CheckpointID b <= budget c (count data).
Proof.
  intros (i & -> & Hi%elem_of_seq)%list_elem_of_fmap Hb. destruct (Hat i ltac:(lia)) as [_ Hst].
  by eapply (source_stream_barrier c count Hcount data Hok Hinterval _ _ _ _ Hst).
Qed.
End From.
(** ** What a failed attempt leaves, when all of it acknowledged a checkpoint *)

Section Step.
Context (p : option point) (pos : nat -> Z) (Hat : forall i, (i < sources)%nat -> source_at p i (pos i)).
Context (s : fsys) (a : attempt) (Ha : attempted p s a) (pt : point).

(** Where the sources resume next. *)
Definition next (i : nat) : Z := match decodePosition (pt_source pt i) with Ok z => z | Err _ => 0 end.

Lemma source_step i u :
  at_sources a !! i = Some u -> acknowledged (sr_job u) (sr_left u) (pt_id pt) (pt_source pt i) ->
  source_at (Some pt) i (next i) /\
  exists T1 b T2, run_trace c count data (Z.of_nat i) (resume p i) = T1 ++ SBarrier b (next i) :: T2 /\
    CheckpointID b = pt_id pt.
Proof.
  intros Hu (news & Hnews & Hin).
  assert (i < sources)%nat as Hi by (rewrite <- (at_source_count _ _ _ Ha); by eapply lookup_lt_Some).
  destruct (at_source _ _ _ Ha i u Hu) as [Hsame Hfuel Hfresh Hran]. destruct (Hat i Hi) as [Hpay Hst].
  destruct (resume_of (source_payload p i)) as [rs|] eqn:Er; [|done]. cbn in Hst.
  destruct (trace_of_same c count data (sr_source u) (Z.of_nat i) rs Hcount Hsame) as (Ec & Et & Ei).
  pose proof (starts_in_range _ _ _ _ _ _ _ Hst) as Hrange. rewrite <- Ei in Hrange. rewrite <- Ec in Hfuel.
  assert (settings_ok c (count (sr_source u))) as Hok' by by rewrite Ec.
  pose proof (source_index i Hi) as Hix.
  destruct (source_acks _ c count _ _ _ _ _ _ rs _ _ _ _ _ Hcount Hok' Hix Hfuel Er Hrange Hran) as (news' & Hn & HF).
  rewrite Hnews in Hn. apply app_inv_head in Hn as <-.
  destruct (proj1 (Forall_forall _ _) HF _ Hin) as (T1 & b & z & T2 & w1 & ET & [= Eid Ep] & _).
  rewrite Et in ET. fold (run_trace c count data (Z.of_nat i) rs) in ET.
  destruct (run_trace_cut c count Hcount data Hok Hinterval _ _ _ _ Hix Hst _ _ _ _ ET) as (_ & _ & Hz & _ & _).
  pose proof (ranges_ok c count Hcount data (Z.of_nat i) Hok Hix) as (Hb & Hb2 & _).
  destruct (src_count_ok count data Hcount) as (Hc0 & _). pose proof Hst as [_ Hp0 _].
  pose proof (decode_encodePosition z ltac:(unfold_ints; lia)) as Hdec.
  assert (next i = z) as Hz' by (unfold next; by rewrite Ep, Hdec).
  pose proof (run_trace_next c count Hcount data Hok Hinterval _ _ _ _ Hix Hst _ _ _ _ ET) as Hnext.
  rewrite Hz'. split; [|by exists T1, b, T2]. cbn [source_payload fmap option_fmap option_map].
  split; unfold resume_of; cbn; rewrite Ep, Hdec; [done|]. cbn. by rewrite Eid.
Qed.

Context (Hgave : gave a pt).

Lemma sources_step i :
  (i < sources)%nat -> source_at (Some pt) i (next i) /\
  exists T1 b T2, run_trace c count data (Z.of_nat i) (resume p i) = T1 ++ SBarrier b (next i) :: T2 /\
    CheckpointID b = pt_id pt.
Proof.
  intros Hi. rewrite <- (at_source_count _ _ _ Ha) in Hi. apply lookup_lt_is_Some_2 in Hi as [u Hu].
  by apply (source_step i u Hu), (gv_source _ _ Hgave).
Qed.

(** The part of a source's stream before that checkpoint. *)
Lemma stream_cut j i n :
  (i < sources)%nat -> pt_id pt = id_of p + 1 + Z.of_nat n ->
  let l := upto (Datatypes.S n) (stream p j i) in
  records l = share q j (src_range (src_at data) (pos i) (next i)) /\ (NewEndOfStreamElement ∉ l) /\
  pos i <= next i /\
  forall w r, w ∈ marks l -> r ∈ rest i (next i) -> w < EventTime r.
Proof.
  intros Hi Hn. destruct (sources_step i Hi) as (_ & T1 & b & T2 & ET & Hb). destruct (Hat i Hi) as [_ Hst].
  pose proof (source_index i Hi) as Hix.
  destruct (source_stream_cut c count Hcount data Hok Hinterval _ _ _ _ Hix Hst Hlag H64 q j _ _ _ _ n ET) as (? & ? & ?); [lia|].
  destruct (run_trace_cut c count Hcount data Hok Hinterval _ _ _ _ Hix Hst _ _ _ _ ET) as (_ & _ & ? & _).
  split_and!; [done|done|lia|done].
Qed.

Lemma rest_sub i x y : x <= y <= start_of c count data (Z.of_nat i + 1) -> forall r, r ∈ rest i y -> r ∈ rest i x.
Proof.
  intros Hxy r Hr. unfold range_from in *. fold (start_of c count data (Z.of_nat i + 1)) in *.
  rewrite (src_range_split _ x y) by lia. set_solver.
Qed.

Lemma step_bounds i :
  (i < sources)%nat -> begin i <= pos i <= next i /\ next i <= start_of c count data (Z.of_nat i + 1).
Proof.
  intros Hi. destruct (Hat i Hi) as [_ [_ Hp _]]. destruct (sources_step i Hi) as ([_ [_ Hn _]] & T1 & b & T2 & ET & _).
  pose proof (source_index i Hi) as Hix. destruct (Hat i Hi) as [_ Hst].
  destruct (run_trace_cut c count Hcount data Hok Hinterval _ _ _ _ Hix Hst _ _ _ _ ET) as (_ & _ & ? & _). lia.
Qed.

(** An operator's subtask. [l] is what it has sent for the checkpoint in this
    attempt. *)
Lemma operator_step j u R :
  at_operators a !! j = Some u -> operator_at pos p j R ->
  exists l b, operator_at next (Some pt) j (R ++ emitted l) /\ Forall proper l /\
    let n := Z.to_nat (pt_id pt - id_of p - 1) in
    (settled (Datatypes.S n) (upto (Datatypes.S n) (log_at (or_sent u) 0)) ->
     upto (Datatypes.S n) (log_at (or_sent u) 0) = (sent <$> l) ++ [NewBarrierElement b]).
Proof.
  intros Hu (V & L & m & HV & HL & -> & Hm & Ht & H64V & Hrec & Hbound).
  assert (j < q)%nat as Hj by (rewrite <- (at_operator_count _ _ _ Ha); by eapply lookup_lt_Some).
  destruct (at_operator _ _ _ Ha j u Hu) as [[Hpart Hmerged Hgate] Hempty Hfresh Hfits Hran].
  destruct (gv_operator _ _ Hgave j u Hu) as (news & Hnews & Hin).
  destruct (subtask_acks op _ _ _ _ m _ _ _ _ _ _ _ Hempty Hm Hran) as (news' & Hn' & HF).
  rewrite Hnews in Hn'. apply app_inv_head in Hn' as <-.
  destruct (proj1 (Forall_forall _ _) HF _ Hin) as (pre & b & post & l & st & w1 & Estream & Hb & Hpre & Hl & _ & Hsnap).
  cbn in Hb, Hsnap.
  assert (Forall2 prefix (or_inputs u) (streams p j)) as Hinputs.
  { eapply Forall2_trans; [|exact Hpart|by eapply logs_part]. intros x y z. apply (transitivity (R := prefix)). }
  destruct (gate_stage (streams p j) _ _ _ _ _ Hinputs (streams_ended p j) (streams_ne p j) Hmerged Hgate pre b post Estream)
    as (Hrecs & (l0 & Hl0 & Hbar) & Hall).
  destruct (streams_barrier p pos Hat j l0 (nb pre) b Hl0 Hbar) as [Hid _].
  assert (Z.to_nat (pt_id pt - id_of p - 1) = nb pre) as -> by lia.
  destruct (ref_run_barrier op pre b post m l st Hpre Hl) as [_ Hcuts].
  specialize (Hfits m Hm). rewrite Estream in Hfits. destruct (Hcuts Hfits) as [Hst _].
  assert (forall i, (i < sources)%nat -> let k := upto (Datatypes.S (nb pre)) (stream p j i) in
    records k = share q j (src_range (src_at data) (pos i) (next i)) /\ (NewEndOfStreamElement ∉ k) /\ pos i <= next i /\
    forall w r, w ∈ marks k -> r ∈ rest i (next i) -> w < EventTime r) as Hcut.
  { intros i Hi. apply stream_cut; [done|lia]. }
  assert (records pre ≡ₚ concat ((fun i => share q j (src_range (src_at data) (pos i) (next i))) <$> seq 0 sources)) as Hpre_recs.
  { rewrite Hrecs, <- list_fmap_compose. apply Permutation_refl'. f_equal. apply list_fmap_ext.
    intros k i [-> Hi]%lookup_seq. unfold compose. by apply Hcut. }
  assert (timely (pre ++ NewBarrierElement b :: post)) as Htpre.
  { rewrite <- Estream. eapply (gate_stage_timely (streams p j)); [done|apply streams_ended|apply streams_ne|done|done|].
    by eapply streams_timely. }
  exists l, b. split_and!.
  - exists (V ++ pre), (L ++ l), st. split_and!.
    + rewrite elem_of_app. tauto.
    + rewrite (ref_run_app _ _ _ _ _ _ HV HL), Hl. done.
    + by rewrite emitted_app.
    + split; [done|]. by apply Hsnap.
    + apply timely_app; [done|by eapply timely_prefix|]. intros w r Hw Hr.
      rewrite Hpre_recs in Hr. apply list_elem_of_In, in_concat in Hr as (rs & Hrs & Hr).
      apply list_elem_of_In, list_elem_of_fmap in Hrs as (i & -> & Hi%elem_of_seq).
      apply list_elem_of_In, list_elem_of_filter in Hr as [_ Hr]. apply (Hbound i w r); [lia|done|].
      pose proof (step_bounds i ltac:(lia)). unfold range_from. fold (start_of c count data (Z.of_nat i + 1)).
      rewrite (src_range_split _ (pos i) (next i)) by lia. set_solver.
    + intros w. rewrite marks_app, elem_of_app. intros [Hw|Hw]; [by apply H64V|].
      eapply (gate_stage_marks (streams p j)); [done|apply streams_ended|apply streams_ne|done|done|].
      rewrite Estream, marks_app. set_solver.
    + rewrite records_app, Hrec, Hpre_recs, <- concat_app_perm. apply Permutation_refl'. f_equal. apply list_fmap_ext.
      intros k i [-> Hi]%lookup_seq. pose proof (step_bounds (0 + k) ltac:(lia)).
      rewrite <- share_app, <- src_range_split by lia. done.
    + intros i w r Hi. rewrite marks_app, elem_of_app. intros [Hw|Hw] Hr.
      * apply (Hbound i w r Hi Hw). pose proof (step_bounds i Hi). apply (rest_sub i _ (next i)); [lia|done].
      * destruct (Hcut i Hi) as (_ & Hopen & _ & Hmarks).
        destruct (proj1 (Forall_lookup _ _) Hall i (stream p j i)) as [_ [?|Hle]]; [|done|].
        { apply list_lookup_fmap_Some. exists i. split; [done|]. by apply lookup_seq. }
        destruct (Hle w Hw) as (w' & Hw' & ?). specialize (Hmarks w' r Hw' Hr). lia.
  - by apply (ref_run_shape op pre m l st Hpre Hl).
  - intros Hset. by eapply (operator_stage op); [exact Hempty|exact Hm|exact Hfresh|exact Hran|exact Estream|..].
Qed.
End Step.

(** ** The sink *)

Context (Hq : (0 < q)%nat).

Section Sink.
Context (p : option point) (pos : nat -> Z) (Hat : forall i, (i < sources)%nat -> source_at p i (pos i)).
Context (Rs : list (list Record_)) (HRs : length Rs = q) (Hops : forall j R, Rs !! j = Some R -> operator_at pos p j R).
Context (s : fsys) (a : attempt) (Ha : attempted p s a).

Lemma operator_index j u : at_operators a !! j = Some u -> (j < q)%nat.
Proof. intros Hu. rewrite <- (at_operator_count _ _ _ Ha). by eapply lookup_lt_Some. Qed.

Lemma operator_found j u : at_operators a !! j = Some u -> exists R, Rs !! j = Some R /\ operator_at pos p j R.
Proof.
  intros Hu%operator_index. rewrite <- HRs in Hu. apply lookup_lt_is_Some_2 in Hu as [R HR]. eauto.
Qed.

(** What the operators send, and what reaches the sink. *)
Lemma operator_inputs j u :
  at_operators a !! j = Some u -> Forall2 prefix (or_inputs u) (streams p j).
Proof.
  intros Hu. destruct (at_operator _ _ _ Ha j u Hu) as [[Hpart _ _] _ _ _ _].
  eapply Forall2_trans; [|exact Hpart|by eapply (logs_part p pos Hat s a j Ha), operator_index].
  intros x y z. apply (transitivity (R := prefix)).
Qed.

Definition well_numbered (l : list StreamElement) : Prop :=
  forall n b, barriers l !! n = Some b ->
    CheckpointID b = id_of p + 1 + Z.of_nat n /\ CheckpointID b <= budget c (count data).

Lemma operator_log_ok j u :
  at_operators a !! j = Some u -> well_ended (log_at (or_sent u) 0) /\ well_numbered (log_at (or_sent u) 0).
Proof.
  intros Hu. pose proof (operator_inputs j u Hu) as Hinputs.
  destruct (at_operator _ _ _ Ha j u Hu) as [[_ Hmerged Hgate] Hempty Hfresh _ Hran].
  destruct (operator_found j u Hu) as (R & _ & V & L & m & _ & _ & _ & Hm & _).
  pose proof (gate_stage_ended (streams p j) _ _ _ _ _ Hinputs (streams_ended p j) (streams_ne p j) Hmerged Hgate) as Hended.
  destruct (operator_stage_log op _ _ _ _ m _ _ _ _ _ _ _ Hempty Hm Hfresh Hended Hran) as [Hw Hb]. split; [done|].
  intros n b Hn. destruct Hb as [k Hk]. assert (barriers (or_stream u) !! n = Some b) as Hn'.
  { rewrite Hk. by apply lookup_app_l_Some. }
  apply barrier_split in Hn' as (pre & post & Es & <-).
  destruct (gate_stage (streams p j) _ _ _ _ _ Hinputs (streams_ended p j) (streams_ne p j) Hmerged Hgate pre b post Es)
    as (_ & (l & Hl & Hbl) & _).
  by eapply (streams_barrier p pos Hat).
Qed.

Lemma operator_logs_ended : Forall well_ended (operator_logs a).
Proof.
  apply Forall_lookup. intros j l Hl. apply list_lookup_fmap_Some in Hl as (u & -> & Hu). by apply (operator_log_ok j u).
Qed.

Lemma operator_logs_ne : operator_logs a <> [].
Proof.
  unfold operator_logs. pose proof (at_operator_count _ _ _ Ha). by destruct (at_operators a); [cbn in *; lia|].
Qed.

Lemma sink_numbered : well_numbered (sk_stream (at_sink a)).
Proof.
  intros n b (pre & post & Es & <-)%barrier_split. destruct (sk_gated _ _ _ (at_sank _ _ _ Ha)) as [Hpart Hmerged Hgate].
  destruct (gate_stage _ _ _ _ _ _ Hpart operator_logs_ended operator_logs_ne Hmerged Hgate pre b post Es)
    as (_ & (l & Hl & Hb) & _).
  apply list_elem_of_lookup in Hl as [j Hj]. apply list_lookup_fmap_Some in Hj as (u & -> & Hu).
  by apply (operator_log_ok j u Hu).
Qed.

Lemma sink_delivered : delivered (id_of p) (sk_stream (at_sink a)).
Proof.
  pose proof sink_numbered as Hn. split.
  - apply numbered_from. intros n b Hb. by apply Hn.
  - apply (sk_fits _ _ _ (at_sank _ _ _ Ha)).
  - pose proof (snapshots_nb (sk_stream (at_sink a))) as Hs. unfold nb in Hs.
    destruct (decide (length (barriers (sk_stream (at_sink a))) = 0%nat)) as [E|E].
    + destruct (Hat 0%nat sources_some) as [_ [_ _ Hid]]. lia.
    + destruct (lookup_lt_is_Some_2 (barriers (sk_stream (at_sink a))) (length (barriers (sk_stream (at_sink a))) - 1))
        as [b Hb]; [lia|]. apply Hn in Hb as [? ?]. lia.
Qed.

Abbreviation history := (sink_history (X := X) (XE := XE) (GE := GE) rt sink_vertex 0).

(** An attempt after which the job is where it was. *)
Lemma job_stays out :
  history s (id_of p) (sink_payload p) out -> latest a (id_of p) ->
  history (sk_files (at_sink a)) (id_of p) (sink_payload p) out.
Proof.
  intros Hh Hl. eapply history_again; [exact Hh|apply sink_delivered|exact (sk_ran _ _ _ (at_sank _ _ _ Ha))|exact Hl].
Qed.

(** One after which it is at another checkpoint. *)
Lemma job_moves out pt :
  history s (id_of p) (sink_payload p) out -> out ≡ₚ concat Rs -> gave a pt -> latest a (pt_id pt) ->
  job_at (Some pt) (sk_files (at_sink a)).
Proof.
  intros Hh Hout Hgave Hl.
  destruct (choose_list (fun j u l => exists R, Rs !! j = Some R /\ operator_at (next pt) (Some pt) j (R ++ emitted l) /\
    Forall proper l /\ exists b, let n := Z.to_nat (pt_id pt - id_of p - 1) in
    (settled (Datatypes.S n) (upto (Datatypes.S n) (log_at (or_sent u) 0)) ->
     upto (Datatypes.S n) (log_at (or_sent u) 0) = (sent <$> l) ++ [NewBarrierElement b])) (at_operators a)) as (ls & Hls & Hstep).
  { intros j u Hu. destruct (operator_found j u Hu) as (R & HR & Hop).
    destruct (operator_step p pos Hat s a Ha pt Hgave j u R Hu Hop) as (l & b & ? & ? & ?). exists l, R. eauto. }
  pose proof (at_operator_count _ _ _ Ha) as Hcnt.
  destruct (gv_sink _ _ Hgave) as (news & Hnews & Hin).
  pose proof (sk_ran _ _ _ (at_sank _ _ _ Ha)) as Hran.
  pose proof (history_acked rt sink_vertex 0 ltac:(unfold_ints; lia) _ _ _ _ _ _ _ _ _ _ _ _ _ _ _ _ Hh sink_delivered Hran Hnews Hin) as Hid.
  pose proof sink_delivered as [Hnum _ _].
  destruct (before_barrier_split _ _ _ Hnum Hid) as (b & post & Es & _ & Hnb).
  exists (next pt), (zip_with app Rs (emitted <$> ls)), (out ++ records (before_barrier (pt_id pt) (sk_stream (at_sink a)))).
  split_and!.
  - intros i Hi. by apply (sources_step p pos Hat s a Ha pt Hgave).
  - rewrite length_zip_with, length_fmap. lia.
  - intros j R HR. apply lookup_zip_with_Some in HR as (R0 & k & -> & HR0 & Hk).
    apply list_lookup_fmap_Some in Hk as (l & -> & Hl').
    assert (exists u, at_operators a !! j = Some u) as [u Hu].
    { apply lookup_lt_is_Some_2. rewrite <- Hls. by eapply lookup_lt_Some. }
    destruct (Hstep j u l Hu Hl') as (R1 & HR1 & Hop & _). rewrite HR0 in HR1. injection HR1 as ->. exact Hop.
  - eapply history_moved; [exact Hh|apply sink_delivered|exact Hran|exact Hnews|exact Hin|exact Hl].
  - rewrite concat_zip_perm by (rewrite length_fmap; lia). apply Permutation_app; [done|].
    destruct (sk_gated _ _ _ (at_sank _ _ _ Ha)) as [Hpart Hmerged Hgate].
    destruct (gate_stage _ _ _ _ _ _ Hpart operator_logs_ended operator_logs_ne Hmerged Hgate _ b post Es)
      as (Hrec & _ & Hall).
    rewrite Hrec, Hnb in *. apply Permutation_refl'. f_equal. apply list_eq_same_length with (n := q).
    + unfold operator_logs. rewrite !length_fmap. lia.
    + unfold operator_logs. rewrite !length_fmap. lia.
    + intros j x y _ Hx Hy.
      apply list_lookup_fmap_Some in Hx as (x' & -> & Hx). apply list_lookup_fmap_Some in Hy as (l & -> & Hl').
      destruct (proj1 (Forall_lookup _ _) Hall _ _ Hx) as [Hset _].
      apply list_lookup_fmap_Some in Hx as (u & -> & Hu).
      destruct (Hstep j u l Hu Hl') as (R1 & _ & _ & Hprop & b' & Hcut). cbn in Hcut. rewrite Hcut by done.
      by rewrite records_app, app_nil_r, records_sent.
Qed.
End Sink.

(** Wherever a job is resumed, it is at that checkpoint. *)
Lemma job_start_at s : names s = ∅ -> job_at None s.
Proof.
  intros Hs. exists (fun i => begin i), (replicate q []), []. split_and!.
  - intros i Hi. split; [done|]. pose proof (source_index i Hi) as Hix.
    destruct (budget_ok c count Hcount data Hok) as [Hb _].
    pose proof (ranges_ok c count Hcount data (Z.of_nat i) Hok Hix) as (Hlo & Hhi & _). split; [by left|lia|]. change (id_of None) with 0. lia.
  - apply length_replicate.
  - intros j R [-> Hj]%lookup_replicate. exists [], [], ∅. split_and!; [apply not_elem_of_nil|done|done|done|by intros [] ? ?| | |].
    + by intros w ?%elem_of_nil.
    + apply Permutation_refl'. symmetry. apply concat_nil_Forall, Forall_fmap, Forall_true. intros i.
      unfold compose. by rewrite src_range_nil.
    + by intros i w r _ ?%elem_of_nil.
  - by apply history_start.
  - apply Permutation_refl'. symmetry. by apply concat_nil_Forall, Forall_replicate.
Qed.

Lemma job_history_at p s : job_history p s -> job_at p s.
Proof.
  induction 1 as [s Hs|p s a Hh IH Ha Hl|p s a pt Hh IH Ha Hg Hl].
  - by apply job_start_at.
  - destruct IH as (pos & Rs & out & Hat & HRs & Hops & Hsink & Hout). exists pos, Rs, out. split_and!; [done..| |done].
    by apply (job_stays p pos Hat Rs HRs Hops s a Ha).
  - destruct IH as (pos & Rs & out & Hat & HRs & Hops & Hsink & Hout).
    by apply (job_moves p pos Hat Rs HRs Hops s a Ha out pt).
Qed.
End Attempt.
End Job.
