(* ===== verification/JobOutput.v ===== *)
(** What a job commits: the records of every source, aggregated once, whatever
    happened on the way. *)
From S2P Require Import Prelude Core State Serialize Operators WindowStore Window WindowRun Oracle WindowOracle.
From S2P Require Import Gate GateSpec Writer Streams Stages SourceTask SourceTaskSpec Subtask SourceSubtask.
From S2P Require Import OperatorTask OperatorTaskSpec OperatorRecovery JobStages Transactional ExactlyOnce SubtaskSink Job.

(** * Aggregates of records that are split by key *)

(** An aggregation in which the order of the records is of no account, and every
    aggregate is of records with one key. *)
Record Combining {op w V} (I : Windowed op w V) : Prop := {
  cb_key rec u : u ∈ wd_updates I rec -> u.1.1 = Key rec;
  cb_swap r1 r2 u v o : u ∈ wd_updates I r1 -> v ∈ wd_updates I r2 -> u.1 = v.1 ->
    u.2 (Some (v.2 o)) = v.2 (Some (u.2 o));
}.

Section Updates.
Context {V : Type}.
Implicit Types (m : gmap (bytes * Z) V) (l k : list (update V)) (u v : update V).

Definition swaps u v : Prop := u.1 = v.1 -> forall o, u.2 (Some (v.2 o)) = v.2 (Some (u.2 o)).

Lemma apply_swap m u v : swaps u v -> apply_update (apply_update m u) v = apply_update (apply_update m v) u.
Proof.
  intros Hs. unfold apply_update. destruct (decide (u.1 = v.1)) as [E|E].
  - specialize (Hs E). rewrite <- E, !lookup_insert_eq, !insert_insert_eq. by rewrite Hs.
  - by rewrite !lookup_insert_ne, insert_insert_ne by done.
Qed.

Lemma apply_permuted m l k :
  l ≡ₚ k -> (forall u v, u ∈ l -> v ∈ l -> swaps u v) -> foldl apply_update m l = foldl apply_update m k.
Proof.
  intros Hp. revert m. induction Hp as [|u l k Hp IH|u v l|l k z Hp1 IH1 Hp2 IH2]; intros m Hs; [done|..]; cbn.
  - apply IH. intros a b Ha Hb. apply Hs; set_solver.
  - f_equal. apply apply_swap, Hs; set_solver.
  - rewrite IH1 by done. apply IH2. intros a b. rewrite <- Hp1. apply Hs.
Qed.

Definition changes (p : bytes * Z) u : Prop := u.1 = p.
#[export] Instance changes_dec p u : Decision (changes p u).
Proof. unfold changes. apply _. Defined.

(** An aggregate is of the changes to it. *)
Lemma apply_lookup m l p :
  foldl apply_update m l !! p = foldl (fun o u => Some (u.2 o)) (m !! p) (filter (changes p) l).
Proof.
  revert m. induction l as [|u l IH]; intros m; [done|]. cbn [foldl]. rewrite IH, filter_cons. unfold apply_update, changes at 2.
  case_decide as Hd; [by rewrite <- Hd, lookup_insert_eq|by rewrite lookup_insert_ne].
Qed.
End Updates.

(** Things told apart by a number below [n]. *)
Lemma split_by {A} (f : A -> nat) n (l : list A) :
  (forall x, x ∈ l -> (f x < n)%nat) -> l ≡ₚ concat ((fun j => filter (fun x => f x = j) l) <$> seq 0 n).
Proof.
  induction l as [|x l IH]; intros Hf.
  - apply Permutation_refl'. symmetry. by apply concat_nil_Forall, Forall_fmap, Forall_true.
  - specialize (IH ltac:(intros y Hy; apply Hf; set_solver)). specialize (Hf x ltac:(set_solver)).
    assert (forall a b, (a <= f x < a + b)%nat ->
      concat ((fun j => filter (fun y => f y = j) (x :: l)) <$> seq a b) ≡ₚ
      x :: concat ((fun j => filter (fun y => f y = j) l) <$> seq a b)) as Hins.
    { clear IH. intros a b. revert a. induction b as [|b IHb]; intros a Hab; [lia|]. cbn [seq fmap list_fmap concat].
      rewrite filter_cons. case_decide as Hd.
      - cbn [app]. apply Permutation_skip, Permutation_app_head, Permutation_refl'. f_equal.
        apply list_fmap_ext. intros i j [-> ?]%lookup_seq. rewrite filter_cons, decide_False by lia. done.
      - rewrite IHb by lia. symmetry. apply Permutation_middle. }
    rewrite Hins by lia. by apply Permutation_skip.
Qed.

Lemma map_to_list_filter_perm `{Countable K} {V} (P : K * V -> Prop) `{!forall x, Decision (P x)} (m : gmap K V) :
  map_to_list (filter P m) ≡ₚ filter P (map_to_list m).
Proof.
  apply NoDup_Permutation; [apply NoDup_map_to_list|apply NoDup_filter, NoDup_map_to_list|].
  intros [k v]. rewrite list_elem_of_filter, !elem_of_map_to_list, map_lookup_filter_Some. tauto.
Qed.

Section Shares.
Context {op : Operator} {w : WindowCount} {V : Type} (I : Windowed op w V) (Hc : Combining I).

Lemma total_updates recs m : total I recs m = foldl apply_update m (recs ≫= wd_updates I).
Proof. revert m. induction recs as [|r recs IH]; intros m; [done|]. cbn. by rewrite foldl_app, <- IH. Qed.

Lemma updates_swap recs u v : u ∈ recs ≫= wd_updates I -> v ∈ recs ≫= wd_updates I -> swaps u v.
Proof.
  intros (r1 & Hu & _)%list_elem_of_bind (r2 & Hv & _)%list_elem_of_bind E o. by eapply (cb_swap I Hc).
Qed.

Lemma total_permuted recs recs' : recs ≡ₚ recs' -> total I recs ∅ = total I recs' ∅.
Proof.
  intros Hp. rewrite !total_updates. apply apply_permuted; [by apply bind_Permutation|].
  intros u v. by apply updates_swap with (recs := recs).
Qed.

(** What the records with a share of the keys come to. *)
Lemma total_share n j recs :
  total I (share n j recs) ∅ = filter (fun kv => partition kv.1.1 n = j) (total I recs ∅).
Proof.
  apply map_eq. intros p. rewrite !total_updates, map_lookup_filter, !apply_lookup, lookup_empty.
  assert (filter (changes p) (share n j recs ≫= wd_updates I) =
    if decide (partition p.1 n = j) then filter (changes p) (recs ≫= wd_updates I) else []) as ->.
  { unfold share. induction recs as [|r recs IH]; [by case_decide|]. rewrite filter_cons, bind_cons, filter_app.
    assert (filter (changes p) (wd_updates I r) = if decide (p.1 = Key r) then filter (changes p) (wd_updates I r) else []) as Ek.
    { destruct (decide (p.1 = Key r)) as [|Hd]; [done|]. apply elem_of_nil_inv. intros u [<- Hu]%list_elem_of_filter.
      by apply Hd, (cb_key I Hc). }
    destruct (decide (p.1 = Key r)) as [E|E].
    - rewrite <- E. revert IH. destruct (decide (partition p.1 n = j)) as [Ej|Ej]; intros IH.
      + by rewrite bind_cons, filter_app, IH.
      + exact IH.
    - rewrite Ek. cbn [app]. destruct (decide (partition (Key r) n = j)); [|exact IH].
      by rewrite bind_cons, filter_app, IH, Ek. }
  case_decide as Hd; destruct (foldl _ _ (filter _ _)) as [v|]; cbn; [by rewrite option_guard_True|done|by rewrite option_guard_False|done].
Qed.

(** Splitting records by key loses nothing. *)
Lemma total_shares n recs :
  (0 < n)%nat -> concat ((fun j => map_to_list (total I (share n j recs) ∅)) <$> seq 0 n) ≡ₚ map_to_list (total I recs ∅).
Proof.
  intros Hn. rewrite (split_by (fun kv => partition kv.1.1 n) n (map_to_list (total I recs ∅))).
  - assert (forall l, concat ((fun j => map_to_list (total I (share n j recs) ∅)) <$> l) ≡ₚ
      concat ((fun j => filter (fun kv => partition kv.1.1 n = j) (map_to_list (total I recs ∅))) <$> l)) as ->; [|done].
    intros l. induction l as [|j l IH]; [done|]. cbn. rewrite IH, total_share. by rewrite map_to_list_filter_perm.
  - intros x _. by apply partition_lt.
Qed.
End Shares.

(** * The output of a job *)

Lemma concat_ranges (at_ : Z -> option Record_) (b : nat -> Z) n :
  (forall i, (i < n)%nat -> b i <= b (Datatypes.S i)) -> b 0%nat <= b n /\
  concat ((fun i => src_range at_ (b i) (b (Datatypes.S i))) <$> seq 0 n) = src_range at_ (b 0%nat) (b n).
Proof.
  induction n as [|n IH]; intros Hb; [split; [lia|by rewrite src_range_nil]|].
  destruct (IH ltac:(intros i Hi; apply Hb; lia)) as [Hle E]. specialize (Hb n ltac:(lia)). split; [lia|].
  rewrite seq_S, fmap_app, concat_app, E. cbn. rewrite app_nil_r, <- src_range_split by lia. done.
Qed.

Lemma concat_shares n j {A} (f : A -> list Record_) l :
  concat ((fun i => share n j (f i)) <$> l) = share n j (concat (f <$> l)).
Proof. induction l as [|x l IH]; [done|]. rewrite !fmap_cons. cbn [concat]. by rewrite IH, share_app. Qed.

Section Output.
Context {S SE : Type} `{SourceLaws S SE} {KS KE : Type} `{KeyedStateLaws KS KE}.
Context {X XE : Type} `{CheckpointsLaws X XE} {C CE : Type} `{OutputLaws C CE}.
Context {DE OE GE NE : Type}.
Context (c : settings) (count : S -> Z) (data : S) (q : nat) (op : Operator) (rt sink_vertex : bytes).
Context (Hcount : src_count = Some count) (Hok : settings_ok c (count data)) (Hinterval : 0 < st_barrierInterval c).
Context (Hlag : disordered (st_lag c) (src_range (src_at data) 0 (count data))).
Context (H64 : Forall (fun r => is_i64 (EventTime r)) (src_range (src_at data) 0 (count data))).
Context (Hbudget : budget c (count data) < max_int64 - 1).
Context `{!OperatorLaws op} (Hq : (0 < q)%nat).

Definition every_record : list Record_ := src_range (src_at data) 0 (count data).

Abbreviation begin i := (start_of c count data (Z.of_nat i)).
Abbreviation rest i pos := (range_from c count data (Z.of_nat i) pos).
Abbreviation resume p i := (match resume_of (source_payload p i) with Ok r => r | Err _ => None end).
Abbreviation stream p j := (fun i => source_stream c count data (Z.of_nat i) (resume p i) ≫= routed q j).
Abbreviation streams p j := (stream p j <$> seq 0 (sources c)).

(** The ranges of the source's subtasks make up the source. *)
Lemma ranges_whole : concat ((fun i => rest i (begin i)) <$> seq 0 (sources c)) = every_record.
Proof.
  pose proof Hok as [HP _ _ _].
  destruct (concat_ranges (src_at data) (fun i => begin i) (sources c)) as [_ E].
  { intros i Hi. pose proof (ranges_ok c count Hcount data (Z.of_nat i) Hok (source_index c i Hi)) as (Hlo & _).
    replace (Z.of_nat (Datatypes.S i)) with (Z.of_nat i + 1) by lia. lia. }
  transitivity (concat ((fun i => src_range (src_at data) (begin i) (begin (Datatypes.S i))) <$> seq 0 (sources c))).
  - f_equal. apply list_fmap_ext. intros k i _. unfold range_from. fold (start_of c count data (Z.of_nat i + 1)).
    by replace (Z.of_nat (Datatypes.S i)) with (Z.of_nat i + 1) by lia.
  - rewrite E. unfold every_record, start_of, range_start, sources. f_equal.
    rewrite Z2Nat.id, Z.mul_comm, Z.div_mul by lia. done.
Qed.

Section Final.
Context (p : option point) (pos : nat -> Z) (Hat : forall i, (i < sources c)%nat -> source_at c count data p i (pos i)).
Context (s : fsys) (a : attempt (S := S) (SE := SE) (KS := KS) (KE := KE) (X := X) (XE := XE) (C := C) (CE := CE)
  (DE := DE) (OE := OE) (GE := GE) (NE := NE)).
Context (Ha : attempted c count data q op rt sink_vertex p s a) (Hcm : completed a).

Lemma source_logs_whole j : (j < q)%nat -> source_logs a j = streams p j.
Proof.
  intros Hj. apply list_eq_same_length with (n := sources c).
  - by rewrite length_fmap, length_seq.
  - unfold source_logs. rewrite length_fmap. apply (at_source_count _ _ _ _ _ _ _ _ _ _ Ha).
  - intros i x y Hi Hx Hy. apply list_lookup_fmap_Some in Hx as (u & -> & Hu).
    apply list_lookup_fmap_Some in Hy as (i' & -> & Hi'). apply lookup_seq in Hi' as [-> _]. cbn [Nat.add].
    pose proof (at_source _ _ _ _ _ _ _ _ _ _ Ha i u Hu) as Hran.
    apply (source_log c count data q Hcount Hok p pos Hat i u j Hi Hj Hran). by apply (cm_source _ Hcm i).
Qed.

(** A subtask of the operator, over the whole job: a stream with all of its share
    of the records, and all that it sends for it. *)
Record whole (j : nat) (R L : list Record_) (l : list emission) : Prop := {
  wh_stream : exists W K st, NewEndOfStreamElement ∉ W /\ timely W /\ (forall w, w ∈ marks W -> is_i64 w) /\
    max_int64 ∈ marks W /\ records W ≡ₚ share q j every_record /\
    ref_run op (W ++ [NewEndOfStreamElement]) ∅ = Some (K, st) /\ L = emitted K;
  wh_sent : L = R ++ emitted l;
  wh_proper : Forall proper l;
  wh_ends : NewEndOfStreamElement ∈ sent <$> l;
}.

Lemma records_before_mark es : last (marks es) = Some max_int64 -> max_int64 ∈ marks es.
Proof. intros [k ->]%last_Some. set_solver. Qed.

Lemma operator_whole j u R :
  at_operators a !! j = Some u -> operator_at c count data q op pos p j R ->
  exists L l, whole j R L l /\ log_at (or_sent u) 0 = sent <$> l.
Proof.
  intros Hu (V & L & m & HV & HL & -> & Hm & Ht & H64V & Hrec & Hbound).
  assert (j < q)%nat as Hj by (by eapply operator_index).
  destruct (at_operator _ _ _ _ _ _ _ _ _ _ Ha j u Hu) as [[_ Hmerged Hgate] Hempty Hfresh _ Hran].
  destruct (cm_operator _ Hcm j u Hu) as (Ein & Eerr & Eres). rewrite Eres in Hran.
  rewrite Ein, source_logs_whole in Hmerged, Hgate by done.
  pose proof (streams_ended c count data q p j) as Hended. pose proof (streams_ne c count data q Hok p j) as Hne.
  destruct (run_gate_complete _ _ _ _ _ Hne Hmerged Hended Hgate Eerr) as (o & Es & Ho & Hrecs & Hlast & _).
  { apply Forall_fmap, Forall_true. intros i. apply source_stream_eos. }
  assert (timely (or_stream u)) as Hto.
  { eapply run_gate_marks; [exact Hne|exact Hmerged|exact Hended|exact Hgate|].
    by apply (streams_timely c count data q Hcount Hok Hinterval Hlag H64 p pos Hat). }
  assert (forall w, w ∈ marks (or_stream u) -> is_i64 w) as H64o.
  { intros w Hw. pose proof (run_gate_marks_i64 _ _ _ _ _ Hne Hmerged Hended Hgate w Hw). unfold_ints. lia. }
  rewrite Es in *. rewrite marks_app, app_nil_r in Hlast, H64o. rewrite records_app, app_nil_r in Hrecs.
  destruct (operator_stage_whole op _ _ _ _ m _ _ _ _ _ _ Hempty Hm Hfresh Hran) as (l & st & Hl & Hlog).
  assert (records o ≡ₚ concat ((fun i => share q j (rest i (pos i))) <$> seq 0 (sources c))) as Hro.
  { rewrite Hrecs, <- list_fmap_compose. apply Permutation_refl'. f_equal. apply list_fmap_ext.
    intros k i [-> Hi]%lookup_seq. destruct (Hat (0 + k)%nat Hi) as [_ Hst].
    exact (source_stream_records c count data _ _ _ _ Hst q j). }
  exists (emitted (L ++ l)), l. split; [|done].
  destruct (ref_run_eos op o m l st Ho Hl) as (l1 & st1 & recs & Hl1 & _ & El).
  destruct (ref_run_shape op o m l1 st1 Ho Hl1) as (_ & _ & Hp1). split.
  - exists (V ++ o), (L ++ l), st. split_and!; [set_solver| | | | | |done].
    + apply timely_app; [done|by eapply timely_prefix|]. intros w r Hw Hr. rewrite Hro in Hr.
      apply list_elem_of_In, in_concat in Hr as (rs & Hrs & Hr).
      apply list_elem_of_In, list_elem_of_fmap in Hrs as (i & -> & Hi%elem_of_seq).
      apply list_elem_of_In, list_elem_of_filter in Hr as [_ Hr]. apply (Hbound i w r); [lia|done|done].
    + intros w. rewrite marks_app, elem_of_app. intros [Hw|Hw]; [by apply H64V|by apply H64o].
    + rewrite marks_app, elem_of_app. right. by apply records_before_mark.
    + rewrite records_app, Hrec, Hro, <- concat_app_perm, <- ranges_whole, <- concat_shares. apply Permutation_refl'. f_equal.
      apply list_fmap_ext. intros k i [-> Hi]%lookup_seq. destruct (Hat (0 + k)%nat Hi) as [_ [_ Hp _]].
      rewrite <- share_app. unfold range_from. fold (start_of c count data (Z.of_nat (0 + k) + 1)).
      by rewrite <- src_range_split by lia.
    + rewrite <- app_assoc, (ref_run_app _ _ _ _ _ _ HV HL), Hl. done.
  - apply emitted_app.
  - rewrite El. apply Forall_app. split; [done|]. apply Forall_app. split; [by apply Forall_fmap, Forall_true|by repeat constructor].
  - rewrite El, !fmap_app. set_solver.
Qed.
End Final.

Abbreviation attempt := (attempt (S := S) (SE := SE) (KS := KS) (KE := KE) (X := X) (XE := XE) (C := C) (CE := CE)
  (DE := DE) (OE := OE) (GE := GE) (NE := NE)).

Abbreviation history := (job_history (S := S) (SE := SE) (KS := KS) (KE := KE) (X := X) (XE := XE) (C := C) (CE := CE)
  (DE := DE) (OE := OE) (GE := GE) (NE := NE) c count data q op rt sink_vertex).

Lemma job_output p s (a : attempt) t'' s'' m :
  history p s -> attempted c count data q op rt sink_vertex p s a -> completed a ->
  commit_final (sk_sink (at_sink a), sk_files (at_sink a)) = (Ok tt, (t'', s'')) -> (base.size (names s'') < m)%nat ->
  exists committed s3 Ls, ReadCommitted rt (undisturbed m s'') = (Ok committed, s3) /\ length Ls = q /\
    (forall j L, Ls !! j = Some L -> exists R l, whole j R L l) /\ committed ≡ₚ concat Ls.
Proof.
  intros Hh Ha Hcm Hcommit Hm.
  destruct (job_history_at c count data q op rt sink_vertex Hcount Hok Hinterval Hlag H64 Hbudget Hq p s Hh)
    as (pos & Rs & out & Hat & HRs & Hops & Hsink & Hout).
  pose proof (at_operator_count _ _ _ _ _ _ _ _ _ _ Ha) as Hcnt.
  destruct (choose_list (fun j u (Ll : list Record_ * list emission) => exists R, Rs !! j = Some R /\ whole j R Ll.1 Ll.2 /\
    log_at (or_sent u) 0 = sent <$> Ll.2) (at_operators a)) as (ks & Hks & Hwhole).
  { intros j u Hu. assert (j < length Rs)%nat as [R HR]%lookup_lt_is_Some_2.
    { rewrite HRs, <- Hcnt. by eapply lookup_lt_Some. }
    destruct (operator_whole p pos Hat s a Ha Hcm j u R Hu (Hops j R HR)) as (L & l & HL & Hlog). by exists (L, l), R. }
  assert (operator_logs a = (fun Ll : list Record_ * list emission => sent <$> Ll.2) <$> ks) as Elogs.
  { apply list_eq_same_length with (n := q); unfold operator_logs; rewrite ?length_fmap; [lia|lia|].
    intros j x y _ Hx Hy. apply list_lookup_fmap_Some in Hx as (u & -> & Hu). apply list_lookup_fmap_Some in Hy as (Ll & -> & HLl).
    by destruct (Hwhole j u Ll Hu HLl) as (R & _ & _ & ->). }
  assert (forall j Ll, ks !! j = Some Ll -> exists R, Rs !! j = Some R /\ whole j R Ll.1 Ll.2) as Hks'.
  { intros j Ll HLl. assert (j < length (at_operators a))%nat as [u Hu]%lookup_lt_is_Some_2.
    { rewrite <- Hks. by eapply lookup_lt_Some. }
    destruct (Hwhole j u Ll Hu HLl) as (R & ? & ? & _). by exists R. }
  destruct (at_sank _ _ _ _ _ _ _ _ _ _ Ha) as [[_ Hmerged Hgate] Hfits Hran].
  destruct (cm_sink _ Hcm) as (Ein & Eerr & Eres). rewrite Eres in Hran. rewrite Ein in Hmerged, Hgate.
  pose proof (operator_logs_ended c count data q op rt sink_vertex Hcount Hok Hinterval p pos Hat Rs HRs Hops s a Ha) as Hended.
  pose proof (operator_logs_ne c count data q op rt sink_vertex Hq p Rs HRs s a Ha) as Hne.
  destruct (run_gate_complete _ _ _ _ _ Hne Hmerged Hended Hgate Eerr) as (o & Es & Ho & Hrecs & _ & _).
  { rewrite Elogs. apply Forall_fmap, Forall_lookup. intros j Ll HLl. by destruct (Hks' j Ll HLl) as (R & _ & []). }
  pose proof (sink_delivered c count data q op rt sink_vertex Hcount Hok Hinterval Hbudget Hq p pos Hat Rs HRs Hops s a Ha) as Hdel.
  destruct (sink_runs_commit rt sink_vertex 0 s (id_of p) (sink_payload p) out _ _ _ _ _ _ _ _ t'' s'' m
    ltac:(unfold_ints; lia) Hsink Hdel Hran Hcommit Hm) as (committed & s3 & Hread & Hperm).
  exists committed, s3, (ks.*1). split_and!; [done|rewrite length_fmap; lia| |].
  - intros j L HL. apply list_lookup_fmap_Some in HL as (Ll & -> & HLl).
    destruct (Hks' j Ll HLl) as (R & _ & HW). by exists R, Ll.2.
  - rewrite Hperm, Es, before_end_app by done. rewrite Es, records_app, app_nil_r in Hrecs. rewrite Hout, Hrecs, Elogs.
    rewrite <- list_fmap_compose, <- concat_zip_perm by (rewrite length_fmap; lia).
    apply Permutation_refl'. f_equal. apply list_eq_same_length with (n := q).
    + rewrite length_fmap. lia.
    + rewrite length_zip_with, length_fmap. lia.
    + intros j x y _ Hx Hy. apply lookup_zip_with_Some in Hx as (R & k & -> & HR & Hk).
      apply list_lookup_fmap_Some in Hk as (Ll & -> & HLl). apply list_lookup_fmap_Some in Hy as (Ll' & -> & HLl').
      rewrite HLl in HLl'. injection HLl' as <-. destruct (Hks' j Ll HLl) as (R' & HR' & [_ -> Hprop _]).
      rewrite HR in HR'. injection HR' as <-. unfold compose. by rewrite records_sent.
Qed.

(** For an operator that aggregates by window. *)
Lemma whole_rows {wc V} (I : Windowed op wc V) j R L l :
  Forall (wd_valid I) every_record -> Forall (fun r => time_ok wc (EventTime r)) every_record -> Combining I ->
  whole j R L l -> L ≡ₚ wd_row I <$> map_to_list (total I (share q j every_record) ∅).
Proof.
  intros Hv Ht Hc [(W & K & st & HW & Htime & Hm64 & Hmax & Hrec & HK & ->) _ _ _].
  assert (forall r, r ∈ records W -> wd_valid I r /\ time_ok wc (EventTime r)) as HWr.
  { intros r Hr. rewrite Hrec in Hr. apply list_elem_of_filter in Hr as [_ Hr].
    split; [exact (proj1 (Forall_forall _ _) Hv r Hr)|exact (proj1 (Forall_forall _ _) Ht r Hr)]. }
  pose proof (size_i64 wc (wd_wf I)) as Hsize. pose proof (wd_wf I) as Hwf.
  destruct (windowed_stream I W HW) as (l0 & st0 & Hl0 & Hrows).
  { apply Forall_forall. intros r Hr. by apply HWr. }
  { apply timely_in_time; [done| |done]. intros r Hr. destruct (HWr r Hr) as [_ Hok']. split; [|done].
    destruct Hwf as [Hs _ _ _]. unfold time_ok in Hok'. lia. }
  destruct (ref_run_eos op W ∅ K st HW HK) as (l1 & st1 & recs & Hl1 & Hend & ->).
  rewrite Hl0 in Hl1. injection Hl1 as <- <-.
  assert (recs = []) as ->.
  { unfold ref_call in Hend. rewrite (wd_end I) in Hend. by injection Hend as Hnil%(f_equal length) _; destruct recs. }
  rewrite emitted_app, app_nil_r, (Hrows Hmax). by rewrite (total_permuted I Hc _ _ Hrec).
Qed.

Lemma windowed_job_output {wc V} (I : Windowed op wc V) p s (a : attempt) t'' s'' m :
  Forall (wd_valid I) every_record -> Forall (fun r => time_ok wc (EventTime r)) every_record -> Combining I ->
  history p s -> attempted c count data q op rt sink_vertex p s a -> completed a ->
  commit_final (sk_sink (at_sink a), sk_files (at_sink a)) = (Ok tt, (t'', s'')) -> (base.size (names s'') < m)%nat ->
  exists committed s3, ReadCommitted rt (undisturbed m s'') = (Ok committed, s3) /\
    committed ≡ₚ wd_row I <$> map_to_list (total I every_record ∅).
Proof.
  intros Hv Ht Hc Hh Ha Hcm Hcommit Hm.
  destruct (job_output p s a t'' s'' m Hh Ha Hcm Hcommit Hm) as (committed & s3 & Ls & Hread & Hlen & HLs & Hperm).
  exists committed, s3. split; [done|]. rewrite Hperm, <- (total_shares I Hc q every_record Hq).
  assert (Forall2 (fun L j => L ≡ₚ wd_row I <$> map_to_list (total I (share q j every_record) ∅)) Ls (seq 0 q)) as HF.
  { apply Forall2_same_length_lookup. split; [by rewrite length_seq|]. intros i L j HL [-> _]%lookup_seq.
    destruct (HLs i L HL) as (R & l & HW). by apply (whole_rows I i R L l). }
  clear -HF. induction HF as [|L j Ls js HL _ IH]; [done|]. cbn. by rewrite fmap_app, HL, IH.
Qed.
End Output.
