(* ===== verification/JobSample.v ===== *)
(** A small job run over its coordinator: an attempt in which a source, an
    operator and the sink die at different places past the first checkpoint, and
    the one that resumes from it and completes. *)
From S2P Require Import Prelude Core State Serialize Operators WindowStore Window WindowRun Oracle WindowOracle.
From S2P Require Import Gate GateSpec Writer Streams Stages SourceTask SourceTaskSpec CheckpointFormat Coordinator Subtask SourceSubtask.
From S2P Require Import StorageSpec CoordinatorLive.
From S2P Require Import OperatorTask OperatorTaskSpec OperatorRecovery JobStages Transactional ExactlyOnce SubtaskSink Job JobOutput.
From S2P Require Storage CoordinatorSpec.

(** * The job *)

Definition list_count (s : list_source) : Z := Z.of_nat (length (ls_records s)).
Definition fuel_of (s : list_source) : nat := Datatypes.S (length (ls_records s)).
Definition out_dir : bytes := str "/out".

#[local] Instance job_store : CheckpointStore Storage.disk (Storage.storage_error Storage.io_error) := disk_store (str "/ck").
Definition member : Type := handle (S := Storage.disk).
Definition member_error : Type := coordinator_error (Storage.storage_error Storage.io_error).
#[local] Instance member_Checkpoints : Checkpoints member member_error := handle_Checkpoints in_order.
#[local] Instance member_CheckpointsLaws : CheckpointsLaws member member_error := handle_CheckpointsLaws in_order.

Definition job_meta : Metadata :=
  MkMeta [MkVertex (str "source") 2 0; MkVertex (str "count") 2 0; MkVertex (str "sink") 1 0] 7.
Definition join (vertex : bytes) (i : nat) (others : list (list call)) : member :=
  (MkKey vertex (Z.of_nat i), MkShared (Some (NewCoordinator job_meta, CoordinatorSpec.fresh_disk (repeat true 200))) others []).

(** Die before element [n] of a subtask. *)
Definition die (n : Z) : faults :=
  NewFaults (Some {| BeforeElement _ _ i := i =? n; AfterBarrierForwarded _ _ _ := false;
                     DuringAlignment _ _ _ _ := false |}) (NewSubtaskID (str "job") 0).

(** * Its runs *)

Local Abbreviation source_run := (source_run (S := list_source) (SE := Empty_set) (X := member) (XE := member_error)
  (C := Channel) (CE := chan_error) (DE := Empty_set) (OE := Empty_set)).
Local Abbreviation operator_run := (operator_run (KS := Memory) (KE := Empty_set) (X := member) (XE := member_error)
  (C := Channel) (CE := chan_error) (GE := Empty_set) (NE := Empty_set)).
Local Abbreviation sink_run := (sink_run (X := member) (XE := member_error) (GE := Empty_set)).
Local Abbreviation attempt := (attempt (S := list_source) (SE := Empty_set) (KS := Memory) (KE := Empty_set) (X := member)
  (XE := member_error) (C := Channel) (CE := chan_error) (DE := Empty_set) (OE := Empty_set) (GE := Empty_set)
  (NE := Empty_set)).

Definition source_out : Writer Channel := MkWriter [[NewChannel 32; NewChannel 32]] 1.
Definition operator_out : Writer Channel := MkWriter [[NewChannel 64]] 1.

Section Builders.
Context (c : settings) (data : list_source) (op : Operator).

Definition source_result (p : option point) (i : nat) (fs : faults) :=
  runSourceSubtask (DE := Empty_set) (OE := Empty_set) fs c (fun _ => None) (fuel_of data) (Z.of_nat i) (Ok data)
    (fun _ => None) (source_payload p i) source_out (join (str "source") i []).
Definition source_of (p : option point) (i : nat) (fs : faults) : source_run :=
  let out := default (Ok tt, (source_out, join [] 0 [])) (source_result p i fs) in
  SourceRun fs (fun _ => None) (fuel_of data) data (fun _ => None) source_out (join (str "source") i []) out.1 out.2.1 out.2.2.

(** One input after the other. *)
Definition in_turn (inputs : list (list StreamElement)) : list tagged :=
  concat (imap (fun i l => Tagged i <$> l) inputs).

Definition gate_of (inputs : list (list StreamElement)) (fs : faults) : list StreamElement * Gate :=
  default ([], NewGate 0 fs) (run_gate (NewGate (length inputs) fs) (in_turn inputs)).

(** A subtask of the operator that got to read [n] elements of each source. *)
Definition operator_of (p : option point) (sources : list source_run) (j : nat) (n : nat) (fs : faults) : operator_run :=
  let inputs := take n <$> ((fun u => log_at (sr_sent u) j) <$> sources) in
  let g := gate_of inputs no_faults in
  let out := runOperatorSubtask (GE := Empty_set) (NE := Empty_set) op fs (Ok NewMemory) None (operator_payload p j) (Ok tt) g.1
    operator_out (join (str "count") j []) in
  OperatorRun inputs (in_turn inputs) no_faults g.1 g.2 fs NewMemory None (Ok tt) operator_out (join (str "count") j [])
    out.1 out.2.1 out.2.2.

Definition sink_of (p : option point) (s : fsys) (operators : list operator_run) (n : nat) (others : list (list call))
    (fs : faults) : sink_run :=
  let inputs := take n <$> ((fun u => log_at (or_sent u) 0) <$> operators) in
  let g := gate_of inputs no_faults in
  let out := runSinkSubtask (T := Transactional * fsys) (GE := Empty_set) fs (str "sink", 0) (sink_payload p) (Ok tt) g.1
    ((NewTransactional out_dir, with_outcomes (repeat Good 300) s), join (str "sink") 0 others) in
  SinkRun inputs (in_turn inputs) no_faults g.1 g.2 fs (Ok tt) (repeat Good 300) (join (str "sink") 0 others)
    out.1 out.2.1.1 out.2.1.2 out.2.2.

(** * They are attempts *)

Lemma source_of_ran p i fs :
  is_Some (source_result p i fs) -> source_ran c list_count data 2 p i (source_of p i fs).
Proof.
  intros [[r [w x]] E]. unfold source_of. rewrite E. cbn. split; cbn.
  - done.
  - unfold list_count, fuel_of. lia.
  - exists [NewChannel 32; NewChannel 32]. by repeat constructor.
  - exact E.
Qed.

Lemma in_turn_forwarded inputs : forwarded inputs (in_turn inputs).
Proof.
  unfold in_turn. assert (forall done inputs, Forall (fun l : list StreamElement => l = []) done ->
    forwarded (done ++ inputs) (concat (imap (fun i l => Tagged (length done + i) <$> l) inputs))) as Hgen.
  { clear inputs. intros done inputs. revert done. induction inputs as [|l inputs IH]; intros done Hd.
    - constructor. by rewrite app_nil_r.
    - rewrite imap_cons. cbn [concat]. rewrite Nat.add_0_r. induction l as [|e l IHl].
      + cbn [fmap list_fmap app]. rewrite (imap_ext _ (fun i l => Tagged (length (done ++ [[]]) + i) <$> l)).
        * change ([] :: inputs) with ([[]] ++ inputs). rewrite app_assoc. apply IH.
          apply Forall_app. split; [done|by repeat constructor].
        * intros i k Hk. unfold compose. rewrite length_app. cbn. by replace (length done + Datatypes.S i)%nat with (length done + 1 + i)%nat by lia.
      + cbn [fmap list_fmap app]. apply (forwarded_step _ (length done) e l).
        * by rewrite lookup_app_r, Nat.sub_diag by done.
        * by rewrite insert_app_r_alt, Nat.sub_diag by done. }
  by apply (Hgen [] inputs).
Qed.

Lemma take_prefix_all (logs : list (list StreamElement)) n : Forall2 prefix (take n <$> logs) logs.
Proof.
  induction logs as [|l logs IH]; constructor; [|done]. exists (drop n l). by rewrite take_drop.
Qed.

Lemma gate_of_gated logs n :
  is_Some (run_gate (NewGate (length (take n <$> logs)) no_faults) (in_turn (take n <$> logs))) ->
  gated logs (take n <$> logs) (in_turn (take n <$> logs)) no_faults
    (gate_of (take n <$> logs) no_faults).1 (gate_of (take n <$> logs) no_faults).2.
Proof.
  intros [[outs g] E]. split; [apply take_prefix_all|apply in_turn_forwarded|]. unfold gate_of. by rewrite E.
Qed.

(** The state a payload holds. *)
Definition held (payload : option bytes) : gmap bytes bytes :=
  match payload with Some b => entries (ReadFrom (NewMemory, b)).2.1 | None => ∅ end.

Lemma starts_at_held payload m : starts_at payload m -> m = held payload.
Proof.
  destruct payload as [b|]; [|done]. intros [Hf ->]. cbn.
  pose proof (ReadFrom_snapshot m [] NewMemory Hf eq_refl eq_refl) as Hr. rewrite app_nil_r in Hr.
  destruct (ReadFrom (NewMemory, snapshot_bytes m)) as [res [s' r']]. by destruct (Hr eq_refl) as (_ & _ & <-).
Qed.

Lemma operator_of_ran p (a : attempt) j n fs :
  is_Some (run_gate (NewGate (length (take n <$> source_logs a j)) no_faults) (in_turn (take n <$> source_logs a j))) ->
  Forall fits (ref_cuts op (or_stream (operator_of p (at_sources a) j n fs)) (held (operator_payload p j))) ->
  operator_ran op p a j (operator_of p (at_sources a) j n fs).
Proof.
  intros Hg Hf. split.
  - by apply gate_of_gated.
  - by split.
  - exists [NewChannel 64]. by repeat constructor.
  - by intros m ->%starts_at_held.
  - cbn -[runOperatorSubtask]. by destruct (runOperatorSubtask _ _ _ _ _ _ _ _ _) as [r [w x]].
Qed.

Lemma sink_of_ran p s (a : attempt) n others fs :
  at_sink a = sink_of p s (at_operators a) n others fs ->
  is_Some (run_gate (NewGate (length (take n <$> operator_logs a)) no_faults) (in_turn (take n <$> operator_logs a))) ->
  Forall op_ok (stream_ops (sk_stream (at_sink a))) -> sink_ran out_dir (str "sink") p s a.
Proof.
  intros E Hg Hf. split; [|done|]; rewrite E.
  - by apply gate_of_gated.
  - cbn -[runSinkSubtask]. by destruct (runSinkSubtask _ _ _ _ _ _) as [r [[t s'] x]].
Qed.

(** * Two attempts

    In the first the second source, the second operator and the sink die past
    the first checkpoint; the second is resumed from it. *)

(** What a subtask gave for the first checkpoint. *)
Definition gift (h : member) : bytes := default [] (snd <$> head (acks h.2)).

Definition others_acks (sources : list source_run) (operators : list operator_run) : list (list call) :=
  [imap (fun i u => CAck in_order 1 (MkKey (str "source") (Z.of_nat i)) (gift (sr_left u))) sources ++
   imap (fun j u => CAck in_order 1 (MkKey (str "count") (Z.of_nat j)) (gift (or_left u))) operators].

(** The runs of both, and the checkpoint between them. *)
Record sample := MkSample {
  first_sources : list source_run;
  first_operators : list operator_run;
  first_sink : sink_run;
  first_point : point;
  second_sources : list source_run;
  second_operators : list operator_run;
  second_sink : sink_run;
}.

Definition sources_1 : list source_run := [source_of None 0 no_faults; source_of None 1 (die 3)].
Definition operators_1 (ss : list source_run) : list operator_run :=
  [operator_of None ss 0 20 no_faults; operator_of None ss 1 20 (die 2)].
Definition sink_1 (ss : list source_run) (os : list operator_run) : sink_run :=
  sink_of None empty_fs os 5 (others_acks ss os) (die 1).
Definition point_1 (ss : list source_run) (os : list operator_run) (k : sink_run) : point :=
  let from_sources := gift ∘ sr_left <$> ss in
  let from_operators := gift ∘ or_left <$> os in
  MkPoint 1 (fun i => default [] (from_sources !! i)) (fun j => default [] (from_operators !! j)) (gift (sk_left k)).
Definition sources_2 (pt : point) : list source_run := [source_of (Some pt) 0 no_faults; source_of (Some pt) 1 no_faults].
Definition operators_2 (pt : point) (ss : list source_run) : list operator_run :=
  [operator_of (Some pt) ss 0 30 no_faults; operator_of (Some pt) ss 1 30 no_faults].
Definition sink_2 (pt : point) (k : sink_run) (os : list operator_run) : sink_run :=
  sink_of (Some pt) (sk_files k) os 40 [] no_faults.

Definition first_attempt (x : sample) : attempt := MkAttempt (first_sources x) (first_operators x) (first_sink x).
Definition second_attempt (x : sample) : attempt := MkAttempt (second_sources x) (second_operators x) (second_sink x).
Definition job_commit (x : sample) := commit_final (sk_sink (second_sink x), sk_files (second_sink x)).

Record made (x : sample) : Prop := {
  md_sources1 : first_sources x = sources_1;
  md_operators1 : first_operators x = operators_1 (first_sources x);
  md_sink1 : first_sink x = sink_1 (first_sources x) (first_operators x);
  md_point : first_point x = point_1 (first_sources x) (first_operators x) (first_sink x);
  md_sources2 : second_sources x = sources_2 (first_point x);
  md_operators2 : second_operators x = operators_2 (first_point x) (second_sources x);
  md_sink2 : second_sink x = sink_2 (first_point x) (first_sink x) (second_operators x);
}.

Lemma two_lookup {A} (x y u : A) i : [x; y] !! i = Some u -> i = 0%nat /\ u = x \/ i = 1%nat /\ u = y.
Proof. destruct i as [|[|i]]; cbn; [intros [= <-]; by left|intros [= <-]; by right|done]. Qed.

(** What there is to evaluate of an attempt. *)
Definition runs_of (p : option point) (a : attempt) (sources : list (nat * faults)) (operators : list (nat * nat * faults))
    (n : nat) : Prop :=
  Forall (fun x => is_Some (source_result p x.1 x.2)) sources /\
  Forall (fun x =>
    let inputs := take x.1.2 <$> source_logs a x.1.1 in
    is_Some (run_gate (NewGate (length inputs) no_faults) (in_turn inputs)) /\
    Forall fits (ref_cuts op (or_stream (operator_of p (at_sources a) x.1.1 x.1.2 x.2)) (held (operator_payload p x.1.1))))
    operators /\
  is_Some (run_gate (NewGate (length (take n <$> operator_logs a)) no_faults) (in_turn (take n <$> operator_logs a))) /\
  Forall op_ok (stream_ops (sk_stream (at_sink a))).
#[export] Instance runs_of_dec p a sources operators n : Decision (runs_of p a sources operators n).
Proof. unfold runs_of. apply _. Defined.

Definition at_peace (g : Gate) : bool := match err g with None => true | Some _ => false end.

Record works (x : sample) : Prop := {
  wk_parallelism : st_parallelism c = 2;
  wk_first : runs_of None (first_attempt x) [(0%nat, no_faults); (1%nat, die 3)]
    [(0%nat, 20%nat, no_faults); (1%nat, 20%nat, die 2)] 5;
  wk_gave : Forall (fun h : member => (1, gift h) ∈ acks h.2)
    ((sr_left <$> first_sources x) ++ (or_left <$> first_operators x) ++ [sk_left (first_sink x)]);
  wk_latest : complete_up_to 1 (sk_left (first_sink x)).2 = true;
  wk_second : runs_of (Some (first_point x)) (second_attempt x) [(0%nat, no_faults); (1%nat, no_faults)]
    [(0%nat, 30%nat, no_faults); (1%nat, 30%nat, no_faults)] 40;
  wk_sources : Forall (fun u => is_ok (sr_result u) = true) (second_sources x);
  wk_operators : Forall (fun u => at_peace (or_gate u) && is_ok (or_result u) = true) (second_operators x);
  wk_read : Forall (fun l => (length l <= 30)%nat) (source_logs (second_attempt x) 0 ++ source_logs (second_attempt x) 1) /\
    Forall (fun l => (length l <= 40)%nat) (operator_logs (second_attempt x));
  wk_sink : at_peace (sk_gate (second_sink x)) && is_ok (sk_result (second_sink x)) = true;
  wk_commit : is_ok (job_commit x).1 = true;
}.

Lemma is_ok_tt {E} (r : result E unit) : is_ok r = true -> r = Ok tt.
Proof. by destruct r as [[]|]. Qed.

Lemma at_peace_err g : at_peace g = true -> err g = None.
Proof. unfold at_peace. by destruct (err g). Qed.

Lemma take_all n (l : list (list StreamElement)) : Forall (fun k => (length k <= n)%nat) l -> take n <$> l = l.
Proof. induction 1 as [|k l Hk _ IH]; [done|]. cbn. by rewrite IH, take_ge. Qed.

Context (x : sample) (Hmade : made x) (Hworks : works x).

Lemma first_attempted : attempted c list_count data 2 op out_dir (str "sink") None empty_fs (first_attempt x).
Proof.
  destruct (wk_first x Hworks) as (Hs & Ho & Hg & Hf). rewrite !Forall_cons in Hs. rewrite !Forall_cons in Ho.
  destruct Hs as (Hs0 & Hs1 & _), Ho as ((Hg0 & Hf0) & (Hg1 & Hf1) & _).
  split; cbn [at_sources at_operators first_attempt].
  - unfold sources. by rewrite (wk_parallelism x Hworks), (md_sources1 x Hmade).
  - by rewrite (md_operators1 x Hmade).
  - rewrite (md_sources1 x Hmade). intros i u [[-> ->]|[-> ->]]%two_lookup; by apply source_of_ran.
  - rewrite (md_operators1 x Hmade). intros j u [[-> ->]|[-> ->]]%two_lookup; by apply (operator_of_ran None (first_attempt x)).
  - apply (sink_of_ran None empty_fs (first_attempt x) 5 (others_acks (first_sources x) (first_operators x)) (die 1)); try done.
    exact (md_sink1 x Hmade).
Qed.

Lemma second_attempted :
  attempted c list_count data 2 op out_dir (str "sink") (Some (first_point x)) (sk_files (first_sink x)) (second_attempt x).
Proof.
  destruct (wk_second x Hworks) as (Hs & Ho & Hg & Hf). rewrite !Forall_cons in Hs. rewrite !Forall_cons in Ho.
  destruct Hs as (Hs0 & Hs1 & _), Ho as ((Hg0 & Hf0) & (Hg1 & Hf1) & _).
  split; cbn [at_sources at_operators second_attempt].
  - unfold sources. by rewrite (wk_parallelism x Hworks), (md_sources2 x Hmade).
  - by rewrite (md_operators2 x Hmade).
  - rewrite (md_sources2 x Hmade). intros i u [[-> ->]|[-> ->]]%two_lookup; by apply source_of_ran.
  - rewrite (md_operators2 x Hmade). intros j u [[-> ->]|[-> ->]]%two_lookup;
      by apply (operator_of_ran (Some (first_point x)) (second_attempt x)).
  - apply (sink_of_ran (Some (first_point x)) (sk_files (first_sink x)) (second_attempt x) 40 [] no_faults); try done.
    exact (md_sink2 x Hmade).
Qed.

Lemma first_gave : gave (first_attempt x) (first_point x).
Proof.
  pose proof (wk_gave x Hworks) as Hg. rewrite !Forall_app, !Forall_fmap in Hg. destruct Hg as (Hs & Ho & Hk).
  apply Forall_cons in Hk as [Hk _]. rewrite (md_point x Hmade).
  split; cbn [at_sources at_operators first_attempt pt_id pt_source pt_operator pt_sink point_1].
  - intros i u Hu. eexists. split; [|rewrite list_lookup_fmap, Hu; exact (proj1 (Forall_lookup _ _) Hs i u Hu)].
    assert (cp_acked (sr_job u) = []) as ->; [|done].
    rewrite (md_sources1 x Hmade) in Hu. by apply two_lookup in Hu as [[-> ->]|[-> ->]].
  - intros j u Hu. eexists. split; [|rewrite list_lookup_fmap, Hu; exact (proj1 (Forall_lookup _ _) Ho j u Hu)].
    assert (cp_acked (or_job u) = []) as ->; [|done].
    rewrite (md_operators1 x Hmade) in Hu. by apply two_lookup in Hu as [[-> ->]|[-> ->]].
  - eexists. split; [|exact Hk]. cbn [at_sink first_attempt]. by rewrite (md_sink1 x Hmade) at 2.
Qed.

(** The coordinator has completed the first checkpoint at most. *)
Lemma first_latest : latest (first_attempt x) (pt_id (first_point x)).
Proof. rewrite (md_point x Hmade). intros i Hi. exact (complete_up_to_spec 1 _ (wk_latest x Hworks) i Hi). Qed.

Lemma sample_history :
  job_history (S := list_source) (SE := Empty_set) (KS := Memory) (KE := Empty_set) (X := member) (XE := member_error)
    (C := Channel) (CE := chan_error) (DE := Empty_set) (OE := Empty_set) (GE := Empty_set) (NE := Empty_set)
    c list_count data 2 op out_dir (str "sink") (Some (first_point x)) (sk_files (first_sink x)).
Proof.
  apply (job_moved _ _ _ _ _ _ _ None empty_fs (first_attempt x) (first_point x));
    [by apply job_start|apply first_attempted|apply first_gave|apply first_latest].
Qed.

Lemma second_completed : completed (second_attempt x).
Proof.
  destruct (wk_read x Hworks) as [[Hr0 Hr1]%Forall_app Hr]. destruct (proj1 (andb_true_iff _ _) (wk_sink x Hworks)) as [Hp Hk].
  split; cbn [at_sources at_operators at_sink second_attempt].
  - intros i u Hu. apply is_ok_tt. exact (proj1 (Forall_lookup _ _) (wk_sources x Hworks) i u Hu).
  - intros j u Hu. destruct (proj1 (andb_true_iff _ _) (proj1 (Forall_lookup _ _) (wk_operators x Hworks) j u Hu)) as [Hp' Hk'].
    split_and!; [|by apply at_peace_err|by apply is_ok_tt].
    rewrite (md_operators2 x Hmade) in Hu. apply two_lookup in Hu as [[-> ->]|[-> ->]]; by apply take_all.
  - split_and!; [|by apply at_peace_err|by apply is_ok_tt]. rewrite (md_sink2 x Hmade). by apply take_all.
Qed.

Lemma job_commit_ok :
  commit_final (sk_sink (at_sink (second_attempt x)), sk_files (at_sink (second_attempt x))) =
    (Ok tt, ((job_commit x).2.1, (job_commit x).2.2)).
Proof.
  change (job_commit x = (Ok tt, ((job_commit x).2.1, (job_commit x).2.2))).
  pose proof (wk_commit x Hworks) as Hc. by destruct (job_commit x) as [[[]|] [t s]].
Qed.
End Builders.

(** Tests that evaluate. *)
Ltac by_computing := refine (bool_decide_eq_true_1 _ _); vm_compute; reflexivity.

(** * A job that counts *)

Definition job_settings : settings := MkSettings 2 1 10 2.
Definition job_source : list_source :=
  ListSource [NewRecord (str "a") [] 5; NewRecord (str "b") [] 25; NewRecord (str "c") [] 22; NewRecord (str "a") [] 31;
    NewRecord (str "b") [] 30; NewRecord (str "a") [] 41; NewRecord (str "b") [] 44; NewRecord (str "c") [] 60] 0 eq_refl.
Definition job_window : WindowCount := NewWindowCount 20 10 0.
Definition job_operator : Operator := WindowCount_Operator job_window.

Definition count_sources_1 := sources_1 job_settings job_source.
Definition count_operators_1 := operators_1 job_operator count_sources_1.
Definition count_sink_1 := sink_1 count_sources_1 count_operators_1.
Definition count_point := point_1 count_sources_1 count_operators_1 count_sink_1.
Definition count_sources_2 := sources_2 job_settings job_source count_point.
Definition count_operators_2 := operators_2 job_operator count_point count_sources_2.
Definition count_sink_2 := sink_2 count_point count_sink_1 count_operators_2.
Definition count_sample : sample :=
  MkSample count_sources_1 count_operators_1 count_sink_1 count_point count_sources_2 count_operators_2 count_sink_2.
#[global] Strategy expand [count_sources_1 count_operators_1 count_sink_1 count_point count_sources_2 count_operators_2
  count_sink_2 count_sample].

Lemma count_made : made job_settings job_source job_operator count_sample.
Proof. by split. Qed.

Lemma count_works : works job_settings job_source job_operator count_sample.
Proof. split; by_computing. Qed.

(** It is a fault that ends each part of the first attempt. *)
Example first_attempt_dies :
  is_ok <$> (sr_result <$> count_sources_1) = [true; false] /\
  is_ok <$> (or_result <$> count_operators_1) = [true; false] /\ is_ok (sk_result count_sink_1) = false.
Proof. split_and!; vm_compute; reflexivity. Qed.
