(* ===== verification/JobQueries.v ===== *)
(** Two jobs end to end: counts over sliding windows, and the highest bids of
    q7. *)
From S2P Require Import Prelude Core State Serialize Operators WindowStore Window WindowRun Oracle WindowOracle.
From S2P Require Import Nexmark NexmarkSpec Transform MaxBid NexmarkOracle MaxBidOracle.
From S2P Require Import Gate GateSpec Writer Streams Stages SourceTask SourceTaskSpec Subtask SourceSubtask.
From S2P Require Import OperatorTask OperatorTaskSpec OperatorRecovery JobStages Transactional ExactlyOnce SubtaskSink Job JobOutput JobSample.

(** * The two aggregations combine *)

Lemma count_combining w (Hw : spec_wf w) : Combining (count_windowed w Hw).
Proof.
  split; cbn [wd_updates count_windowed]; unfold count_updates.
  - by intros rec u (s & -> & _)%list_elem_of_fmap.
  - by intros r1 r2 u v o (s & -> & _)%list_elem_of_fmap (s' & -> & _)%list_elem_of_fmap _.
Qed.

#[export] Instance WinningBid_eq_dec : EqDecision WinningBid.
Proof. solve_decision. Defined.

Lemma keep_better_swap c d o : keep_better c (Some (keep_better d o)) = keep_better d (Some (keep_better c o)).
Proof.
  assert (c <> d -> betterBid c d = negb (betterBid d c)) as Ht by apply betterBid_total.
  destruct (decide (c = d)) as [->|Hne]; [done|]. specialize (Ht Hne). unfold keep_better.
  destruct o as [x|]; [|rewrite Ht; by destruct (betterBid d c)].
  pose proof (betterBid_trans c d x) as H1. pose proof (betterBid_trans d c x) as H2.
  destruct (betterBid c x) eqn:Ec, (betterBid d x) eqn:Ed, (betterBid d c) eqn:Edc; cbn [negb] in *; rewrite ?Ht, ?Ec, ?Ed, ?Edc;
    cbn [negb] in *; first [done|by specialize (H1 Ht eq_refl)|by specialize (H2 eq_refl eq_refl)].
Qed.

Lemma max_combining m (Hw : spec_wf (tumbling m)) : Combining (max_windowed m Hw).
Proof.
  split; cbn [wd_updates max_windowed]; unfold max_updates.
  - intros rec u. destruct (bidOf rec) as [[bid|]|]; [|by intros ?%elem_of_nil..]. by intros ->%list_elem_of_singleton.
  - intros r1 r2 u v o. destruct (bidOf r1) as [[b1|]|]; [|by intros ?%elem_of_nil..].
    destruct (bidOf r2) as [[b2|]|]; [|by intros ? ?%elem_of_nil..].
    intros ->%list_elem_of_singleton ->%list_elem_of_singleton _. apply keep_better_swap.
Qed.

(** * The jobs *)

(** A job within its bounds: settings under which nothing overflows, barriers
    that are numbered below the largest number, records no more disordered than
    the sources allow for and with times a window can hold. *)
Record job_ok {S SE} `{SourceLaws S SE} (c : settings) (count : S -> Z) (data : S) (q : nat) (w : WindowCount) : Prop := {
  jo_settings : settings_ok c (count data);
  jo_interval : 0 < st_barrierInterval c;
  jo_budget : budget c (count data) < max_int64 - 1;
  jo_lag : disordered (st_lag c) (every_record count data);
  jo_times : Forall (fun r => time_ok w (EventTime r)) (every_record count data);
  jo_operators : (0 < q)%nat;
}.

Lemma times_i64 w l : spec_wf w -> Forall (fun r => time_ok w (EventTime r)) l -> Forall (fun r => is_i64 (EventTime r)) l.
Proof.
  intros [Hs _ _ _] Ht. eapply Forall_impl; [exact Ht|]. intros r. unfold time_ok. cbn beta. unfold_ints. lia.
Qed.

Section Jobs.
Context {S SE : Type} `{SourceLaws S SE} {KS KE : Type} `{KeyedStateLaws KS KE}.
Context {X XE : Type} `{CheckpointsLaws X XE} {C CE : Type} `{OutputLaws C CE} {DE OE GE NE : Type}.

Abbreviation attempt := (attempt (S := S) (SE := SE) (KS := KS) (KE := KE) (X := X) (XE := XE) (C := C) (CE := CE)
  (DE := DE) (OE := OE) (GE := GE) (NE := NE)).

Lemma windowed_job_commits {w V} op `{!OperatorLaws op} (I : Windowed op w V) c count (data : S) q rt v p s (a : attempt) t'' s'' m :
  src_count = Some count -> job_ok c count data q w -> Forall (wd_valid I) (every_record count data) -> Combining I ->
  job_history (S := S) (SE := SE) (KS := KS) (KE := KE) (X := X) (XE := XE) (C := C) (CE := CE)
    (DE := DE) (OE := OE) (GE := GE) (NE := NE) c count data q op rt v p s ->
  attempted c count data q op rt v p s a -> completed a ->
  commit_final (sk_sink (at_sink a), sk_files (at_sink a)) = (Ok tt, (t'', s'')) -> (base.size (names s'') < m)%nat ->
  exists committed s3, ReadCommitted rt (undisturbed m s'') = (Ok committed, s3) /\
    committed ≡ₚ wd_row I <$> map_to_list (total I (every_record count data) ∅).
Proof.
  intros Hcount [Hok Hint Hb Hlag Ht Hq] Hv Hc. apply (windowed_job_output c count data q op rt v); try done.
  by eapply times_i64, Ht; apply (wd_wf I).
Qed.
End Jobs.

(** C1. A counting job is exactly-once. Sources that share the records of a source,
    any number of subtasks that count by key and sliding window, and a
    transactional sink are run and killed any number of times, wherever each
    subtask then is, and are resumed each time from the last checkpoint that all
    of them acknowledged. Once an attempt completes and its final epoch is
    committed, the committed output is, up to order, one record per row of the
    counts that the oracle computes by brute force from all the records of the
    source. *)
Theorem job_exactly_once {S SE} `{SourceLaws S SE} {KS KE} `{KeyedStateLaws KS KE} {X XE} `{CheckpointsLaws X XE}
    {C CE} `{OutputLaws C CE} {DE OE GE NE} w c count (data : S) q rt v p s
    (a : attempt (S := S) (SE := SE) (KS := KS) (KE := KE) (X := X) (XE := XE) (C := C) (CE := CE)
      (DE := DE) (OE := OE) (GE := GE) (NE := NE)) t'' s'' m :
  src_count = Some count -> spec_wf w -> job_ok c count data q w ->
  job_history (KS := KS) (KE := KE) (X := X) (XE := XE) (C := C) (CE := CE) (DE := DE) (OE := OE) (GE := GE) (NE := NE)
    c count data q (WindowCount_Operator w) rt v p s ->
  attempted c count data q (WindowCount_Operator w) rt v p s a -> completed a ->
  commit_final (sk_sink (at_sink a), sk_files (at_sink a)) = (Ok tt, (t'', s'')) -> (base.size (names s'') < m)%nat ->
  exists committed s3 counts, ReadCommitted rt (undisturbed m s'') = (Ok committed, s3) /\
    countRecords (every_record count data) (oracle_spec w) = Ok counts /\
    committed ≡ₚ count_row w <$> map_to_list counts.
Proof.
  intros Hcount Hw Hok Hh Ha Hcm Hcommit Hm. pose proof Hok as [_ _ _ _ Ht _].
  destruct (windowed_job_commits (WindowCount_Operator w) (count_windowed w Hw) c count data q rt v p s a t'' s'' m)
    as (committed & s3 & Hread & Hperm); [done|done|by apply Forall_true|apply count_combining|done..|].
  eexists committed, s3, _. split; [done|]. split; [by apply countRecords_total|exact Hperm].
Qed.

#[local] Existing Instances member_Checkpoints member_CheckpointsLaws.

Lemma count_job_ok : job_ok job_settings list_count job_source 2 job_window.
Proof.
  split.
  - split; by_computing.
  - by_computing.
  - by_computing.
  - apply disorderedb_sound. vm_compute. reflexivity.
  - by_computing.
  - lia.
Defined.

Lemma job_exactly_once_witness :
  exists committed s3 counts, ReadCommitted out_dir (undisturbed 10 (job_commit count_sample).2.2) = (Ok committed, s3) /\
    countRecords (every_record list_count job_source) (oracle_spec job_window) = Ok counts /\
    committed ≡ₚ count_row job_window <$> map_to_list counts.
Proof.
  apply (job_exactly_once job_window job_settings list_count job_source 2 out_dir (str "sink")
    (Some (first_point count_sample)) (sk_files (first_sink count_sample)) (second_attempt count_sample)
    (job_commit count_sample).2.1 (job_commit count_sample).2.2 10).
  - reflexivity.
  - split; cbn; [unfold max_int64; lia..|by exists 2|unfold max_int64; lia].
  - exact count_job_ok.
  - exact (sample_history job_settings job_source job_operator count_sample count_made count_works).
  - exact (second_attempted job_settings job_source job_operator count_sample count_made count_works).
  - exact (second_completed job_settings job_source job_operator count_sample count_made count_works).
  - exact (job_commit_ok job_settings job_source job_operator count_sample count_works).
  - by_computing.
Defined.

(** C2. A q7 job is exactly-once. The same for sources of bids, auctions and
    persons and subtasks that find the highest bids: whatever was killed, and
    wherever, the committed output is, up to order, one record per row of the
    oracle's table of the best bid of each auction and window, over all the
    bids of the source. *)
Theorem max_bid_job_exactly_once {S SE} `{SourceLaws S SE} {KS KE} `{KeyedStateLaws KS KE} {X XE} `{CheckpointsLaws X XE}
    {C CE} `{OutputLaws C CE} {DE OE GE NE} mb c count (data : S) q rt v p s
    (a : attempt (S := S) (SE := SE) (KS := KS) (KE := KE) (X := X) (XE := XE) (C := C) (CE := CE)
      (DE := DE) (OE := OE) (GE := GE) (NE := NE)) t'' s'' m :
  src_count = Some count -> spec_wf (tumbling mb) -> job_ok c count data q (tumbling mb) ->
  Forall bid_valid (every_record count data) ->
  job_history (KS := KS) (KE := KE) (X := X) (XE := XE) (C := C) (CE := CE) (DE := DE) (OE := OE) (GE := GE) (NE := NE)
    c count data q (MaxBid_Operator mb) rt v p s ->
  attempted c count data q (MaxBid_Operator mb) rt v p s a -> completed a ->
  commit_final (sk_sink (at_sink a), sk_files (at_sink a)) = (Ok tt, (t'', s'')) -> (base.size (names s'') < m)%nat ->
  exists committed s3 best, ReadCommitted rt (undisturbed m s'') = (Ok committed, s3) /\
    q7Records (every_record count data) (mb_size mb) = Ok best /\
    committed ≡ₚ q7_row (tumbling mb) <$> map_to_list best.
Proof.
  intros Hcount Hw Hok Hv Hh Ha Hcm Hcommit Hm. pose proof Hok as [_ _ _ _ Ht _].
  destruct (windowed_job_commits (MaxBid_Operator mb) (max_windowed mb Hw) c count data q rt v p s a t'' s'' m)
    as (committed & s3 & Hread & Hperm); [done|done|done|apply max_combining|done..|].
  destruct (q7_total mb Hw _ Hv Ht) as (best & Hb & Hsame). exists committed, s3, best. split; [done|]. split; [done|].
  rewrite Hperm. exact (same_items_rows max_bid _ _ (max_row (tumbling mb)) Hsame).
Qed.

(** Two auctions over five windows; some bids tie. *)
Definition bid_record (auction bidder price t : Z) : Record_ :=
  NewRecord (NexmarkKey auction) (EncodeBid (MkBid auction bidder price t)) t.
Definition bid_source : list_source :=
  ListSource [bid_record 7 1 50 5; bid_record 8 2 90 25; bid_record 7 3 60 22; bid_record 8 4 90 28;
    bid_record 7 1 90 30; bid_record 7 5 20 41; bid_record 8 6 35 44; bid_record 8 2 35 47] 0 eq_refl.
Definition bid_windows : MaxBid.MaxBid := MaxBid.MkMaxBid 10 0.
Definition bid_operator : Operator := MaxBid_Operator bid_windows.

Definition bid_sources_1 := sources_1 job_settings bid_source.
Definition bid_operators_1 := operators_1 bid_operator bid_sources_1.
Definition bid_sink_1 := sink_1 bid_sources_1 bid_operators_1.
Definition bid_point := point_1 bid_sources_1 bid_operators_1 bid_sink_1.
Definition bid_sources_2 := sources_2 job_settings bid_source bid_point.
Definition bid_operators_2 := operators_2 bid_operator bid_point bid_sources_2.
Definition bid_sink_2 := sink_2 bid_point bid_sink_1 bid_operators_2.
Definition bid_sample : sample :=
  MkSample bid_sources_1 bid_operators_1 bid_sink_1 bid_point bid_sources_2 bid_operators_2 bid_sink_2.
#[local] Strategy expand [bid_sources_1 bid_operators_1 bid_sink_1 bid_point bid_sources_2 bid_operators_2 bid_sink_2 bid_sample].

Lemma bid_made : made job_settings bid_source bid_operator bid_sample.
Proof. by split. Qed.

Lemma bid_works : works job_settings bid_source bid_operator bid_sample.
Proof. split; by_computing. Qed.

Lemma bid_job_ok : job_ok job_settings list_count bid_source 2 (tumbling bid_windows).
Proof.
  split.
  - split; by_computing.
  - by_computing.
  - by_computing.
  - apply disorderedb_sound. vm_compute. reflexivity.
  - by_computing.
  - lia.
Defined.

Lemma max_bid_job_exactly_once_witness :
  exists committed s3 best, ReadCommitted out_dir (undisturbed 10 (job_commit bid_sample).2.2) = (Ok committed, s3) /\
    q7Records (every_record list_count bid_source) 10 = Ok best /\
    committed ≡ₚ q7_row (tumbling bid_windows) <$> map_to_list best.
Proof.
  apply (max_bid_job_exactly_once bid_windows job_settings list_count bid_source 2 out_dir (str "sink")
    (Some (first_point bid_sample)) (sk_files (first_sink bid_sample)) (second_attempt bid_sample)
    (job_commit bid_sample).2.1 (job_commit bid_sample).2.2 10).
  - reflexivity.
  - split; cbn; [unfold max_int64; lia..|by exists 1|unfold max_int64; lia].
  - exact bid_job_ok.
  - by_computing.
  - exact (sample_history job_settings bid_source bid_operator bid_sample bid_made bid_works).
  - exact (second_attempted job_settings bid_source bid_operator bid_sample bid_made bid_works).
  - exact (second_completed job_settings bid_source bid_operator bid_sample bid_made bid_works).
  - exact (job_commit_ok job_settings bid_source bid_operator bid_sample bid_works).
  - by_computing.
Defined.
