(* ===== verification/Graph.v ===== *)
(** The job graph ([pkg/graph/graph.go]): vertices and edges under construction,
    their validation, and the topological order the runtime executes. *)
From S2P Require Import Prelude.

Definition maxParallelism : Z := 256.

(** [VertexKind], a [uint8] of which three values have a name. *)
Inductive VertexKind := VertexSource | VertexOperator | VertexSink | VertexOther (k : Z).

#[export] Instance VertexKind_eq_dec : EqDecision VertexKind.
Proof. solve_decision. Defined.

Definition VertexKind_String (k : VertexKind) : bytes :=
  match k with
  | VertexSource => str "source"
  | VertexOperator => str "operator"
  | VertexSink => str "sink"
  | VertexOther _ => str "unknown"
  end.

(** [Src], [Op] and [Snk] are the constructors a vertex holds. *)
Record Vertex (Src Op Snk : Type) := MkVertex {
  ID : bytes;
  Kind : VertexKind;
  Parallelism : Z;
  NewSource : option Src;
  NewOperator : option Op;
  NewSink : option Snk;
  WatermarkIntervalElements : Z;
  MaxOutOfOrderness : Z;
  BarrierIntervalElements : Z;
}.
Arguments MkVertex {Src Op Snk}.
Arguments ID {Src Op Snk}.
Arguments Kind {Src Op Snk}.
Arguments Parallelism {Src Op Snk}.
Arguments NewSource {Src Op Snk}.
Arguments NewOperator {Src Op Snk}.
Arguments NewSink {Src Op Snk}.
Arguments WatermarkIntervalElements {Src Op Snk}.
Arguments MaxOutOfOrderness {Src Op Snk}.
Arguments BarrierIntervalElements {Src Op Snk}.

Inductive graph_error :=
| errEmptyID
| errDuplicateID (id : bytes)
| errUnknownVertex (id : bytes)
| errDuplicateEdge (fromID toID : bytes)
| errUnknownKind (k : Z)
| errMissingFactory (k : VertexKind)
| errExtraFactory (k : VertexKind)
| errParallelismTooLow (p : Z)
| errParallelismTooHigh (p : Z)
| errSourceHasInbound
| errSinkHasOutbound
| errOperatorNoInput
| errOperatorNoOutput
| errDisconnected
| errNoSource
| errNoSink
| errCycle (left : list bytes)
| errNegativeOutOfOrderness (m : Z)
| errWatermarkOnNonSource (k : VertexKind) (w : Z)
| errBarrierOnNonSource (k : VertexKind) (b : Z)
| errWatermarkIntervalUnset (w : Z)
| errBarrierIntervalUnset (b : Z)
| AtVertex (id : bytes) (e : graph_error).

Section Graph.
Context {Src Op Snk : Type}.
Abbreviation Vertex := (Vertex Src Op Snk).

Record Graph := MkGraph {
  byID : gmap bytes Vertex;
  out : gmap bytes (list bytes);
  in_ : gmap bytes (list bytes);
}.

Definition New : Graph := MkGraph ∅ ∅ ∅.

(** [g.out[id]] and [g.in[id]]: nil where there is no entry. *)
Definition outs (g : Graph) (id : bytes) : list bytes := default [] (out g !! id).
Definition ins (g : Graph) (id : bytes) : list bytes := default [] (in_ g !! id).

Definition AddVertex (v : Vertex) : M graph_error Graph unit := fun g =>
  if bool_decide (ID v = []) then (Err errEmptyID, g)
  else
    match byID g !! ID v with
    | Some _ => (Err (errDuplicateID (ID v)), g)
    | None => (Ok tt, MkGraph (<[ID v := v]> (byID g)) (out g) (in_ g))
    end.

Definition Connect (fromID toID : bytes) : M graph_error Graph unit := fun g =>
  match byID g !! fromID, byID g !! toID with
  | None, _ => (Err (errUnknownVertex fromID), g)
  | _, None => (Err (errUnknownVertex toID), g)
  | Some _, Some _ =>
      if bool_decide (toID ∈ outs g fromID) then (Err (errDuplicateEdge fromID toID), g)
      else (Ok tt, MkGraph (byID g) (<[fromID := outs g fromID ++ [toID]]> (out g))
                           (<[toID := ins g toID ++ [fromID]]> (in_ g)))
  end.

Definition Downstream (g : Graph) (id : bytes) : list bytes := merge_sort bytes_le (outs g id).

Definition sortedIDs (g : Graph) : list bytes := sorted_keys (byID g).

Definition is_set {A} (o : option A) : Z := match o with Some _ => 1 | None => 0 end.

Definition checkFactories (v : Vertex) : result graph_error unit :=
  let check (matching : Z) :=
    if matching =? 0 then Err (errMissingFactory (Kind v))
    else if negb (is_set (NewSource v) + is_set (NewOperator v) + is_set (NewSink v) =? 1)
    then Err (errExtraFactory (Kind v))
    else Ok tt in
  match Kind v with
  | VertexSource => check (is_set (NewSource v))
  | VertexOperator => check (is_set (NewOperator v))
  | VertexSink => check (is_set (NewSink v))
  | VertexOther k => Err (errUnknownKind k)
  end.

Definition checkSourceSettings (v : Vertex) : result graph_error unit :=
  if MaxOutOfOrderness v <? 0 then Err (errNegativeOutOfOrderness (MaxOutOfOrderness v))
  else if negb (bool_decide (Kind v = VertexSource)) then
    if negb (WatermarkIntervalElements v =? 0)
    then Err (errWatermarkOnNonSource (Kind v) (WatermarkIntervalElements v))
    else if negb (MaxOutOfOrderness v =? 0)
    then Err (errWatermarkOnNonSource (Kind v) (MaxOutOfOrderness v))
    else if negb (BarrierIntervalElements v =? 0)
    then Err (errBarrierOnNonSource (Kind v) (BarrierIntervalElements v))
    else Ok tt
  else if WatermarkIntervalElements v <? 1
  then Err (errWatermarkIntervalUnset (WatermarkIntervalElements v))
  else if BarrierIntervalElements v <? 1
  then Err (errBarrierIntervalUnset (BarrierIntervalElements v))
  else Ok tt.

Definition is_nil {A} (l : list A) : bool := match l with [] => true | _ => false end.

(** The edges a vertex of its kind must and must not have. *)
Definition checkEdges (g : Graph) (id : bytes) (v : Vertex) : result graph_error unit :=
  match Kind v with
  | VertexSource => if negb (is_nil (ins g id)) then Err errSourceHasInbound else Ok tt
  | VertexSink => if negb (is_nil (outs g id)) then Err errSinkHasOutbound else Ok tt
  | VertexOperator =>
      if is_nil (ins g id) then Err errOperatorNoInput
      else if is_nil (outs g id) then Err errOperatorNoOutput else Ok tt
  | VertexOther _ => Ok tt
  end.

(** The body of the loop of [Validate]. *)
Definition checkVertex (g : Graph) (id : bytes) (v : Vertex) : result graph_error unit :=
  wrap_err (AtVertex id) (
    if Parallelism v <? 1 then Err (errParallelismTooLow (Parallelism v))
    else if maxParallelism <? Parallelism v then Err (errParallelismTooHigh (Parallelism v))
    else
      _ ← checkFactories v;
      _ ← checkSourceSettings v;
      _ ← checkEdges g id v;
      if is_nil (ins g id) && is_nil (outs g id) then Err errDisconnected else Ok tt).

(** The loop: how many sources and sinks there are, or the first problem. *)
Fixpoint validate_all (g : Graph) (ids : list bytes) (sources sinks : Z) : result graph_error (Z * Z) :=
  match ids with
  | [] => Ok (sources, sinks)
  | id :: ids =>
      match byID g !! id with
      | None => validate_all g ids sources sinks
      | Some v =>
          _ ← checkVertex g id v;
          validate_all g ids
            (sources + (if bool_decide (Kind v = VertexSource) then 1 else 0))
            (sinks + (if bool_decide (Kind v = VertexSink) then 1 else 0))
      end
  end.

(** ** Kahn's algorithm *)

Definition indegree (indeg : gmap bytes Z) (id : bytes) : Z := default 0 (indeg !! id).

(** [indeg[to]--], and [to] is ready when that leaves nothing. *)
Definition relax (st : gmap bytes Z * list bytes) (to : bytes) : gmap bytes Z * list bytes :=
  let d := indegree st.1 to - 1 in
  (<[to := d]> st.1, if d =? 0 then st.2 ++ [to] else st.2).

Fixpoint kahn_loop (fuel : nat) (g : Graph) (indeg : gmap bytes Z) (ready order : list bytes)
    : gmap bytes Z * list bytes :=
  match fuel with
  | O => (indeg, order)
  | S fuel =>
      match merge_sort bytes_le ready with
      | [] => (indeg, order)
      | id :: ready =>
          let '(indeg, ready) := foldl relax (indeg, ready) (Downstream g id) in
          kahn_loop fuel g indeg ready (order ++ [id])
      end
  end.

Definition initial_indeg (g : Graph) : gmap bytes Z :=
  list_to_map ((fun id => (id, Z.of_nat (length (ins g id)))) <$> sortedIDs g).

Definition initial_ready (g : Graph) : list bytes :=
  filter (fun id => length (ins g id) = 0%nat) (sortedIDs g).

(** One turn per vertex, and one to find nothing ready. *)
Definition kahn (g : Graph) : result graph_error (list Vertex) :=
  let '(indeg, order) :=
    kahn_loop (S (size (byID g))) g (initial_indeg g) (initial_ready g) [] in
  if negb (length order =? size (byID g))%nat
  then Err (errCycle (filter (fun id => 0 < indegree indeg id) (sortedIDs g)))
  else Ok (omap (fun id => byID g !! id) order).

Definition Validate (g : Graph) : result graph_error unit :=
  '(sources, sinks) ← validate_all g (sortedIDs g) 0 0;
  if sources =? 0 then Err errNoSource
  else if sinks =? 0 then Err errNoSink
  else _ ← kahn g; Ok tt.

Definition TopoOrder (g : Graph) : result graph_error (list Vertex) :=
  _ ← Validate g; kahn g.

End Graph.
Arguments Graph : clear implicits.
