(* ===== verification/GraphSpec.v ===== *)
(** What the job graph promises ([pkg/graph/graph.go]): a graph built by adding
    vertices and edges is accepted exactly when it can be executed, the order
    returned is topological, and it is a function of the graph alone. *)
From S2P Require Import Prelude Graph.
From Stdlib Require Import Setoid Morphisms.

Section Spec.
Context {Src Op Snk : Type}.
Abbreviation Graph := (Graph Src Op Snk).
Implicit Types (g : Graph) (id u v : bytes).

(** ** Graphs under construction *)

Inductive built : Graph -> Prop :=
| built_new : built New
| built_add w g r g' : built g -> AddVertex w g = (r, g') -> built g'
| built_connect fromID toID g r g' : built g -> Connect fromID toID g = (r, g') -> built g'.

Definition edge g u v : Prop := v ∈ outs g u.

Record consistent g : Prop := {
  c_from u v : edge g u v -> is_Some (byID g !! u);
  c_to u v : edge g u v -> is_Some (byID g !! v);
  c_sym u v : edge g u v <-> u ∈ ins g v;
  c_outs u : NoDup (outs g u);
  c_ins v : NoDup (ins g v);
  c_id id w : byID g !! id = Some w -> ID w = id;
}.

Lemma outs_insert g id (l : list bytes) u (b : gmap bytes (Vertex Src Op Snk)) i :
  outs (MkGraph b (<[id := l]> (out g)) i) u = if decide (u = id) then l else outs g u.
Proof.
  unfold outs. cbn. case_decide; subst; [by rewrite lookup_insert_eq|by rewrite lookup_insert_ne].
Qed.

Lemma ins_insert g id (l : list bytes) u (b : gmap bytes (Vertex Src Op Snk)) o :
  ins (MkGraph b o (<[id := l]> (in_ g))) u = if decide (u = id) then l else ins g u.
Proof.
  unfold ins. cbn. case_decide; subst; [by rewrite lookup_insert_eq|by rewrite lookup_insert_ne].
Qed.

Lemma NoDup_snoc {A} (l : list A) x : NoDup l -> x ∉ l -> NoDup (l ++ [x]).
Proof. intros Hl Hx. apply NoDup_app. split; [done|]. split; [set_solver|apply NoDup_singleton]. Qed.

Lemma consistent_connect g a b g' :
  consistent g -> Connect a b g = (Ok tt, g') -> consistent g'.
Proof.
  intros [C1 C2 C3 C4 C5 C6]. unfold Connect.
  destruct (byID g !! a) as [va|] eqn:Ea; [|done]. destruct (byID g !! b) as [vb|] eqn:Eb; [|done].
  case_bool_decide as Hab; [done|]. intros [= <-].
  assert (forall u v, edge (MkGraph (byID g) (<[a := outs g a ++ [b]]> (out g)) (<[b := ins g b ++ [a]]> (in_ g))) u v <->
    edge g u v \/ (u = a /\ v = b)) as He.
  { intros u v. unfold edge. rewrite outs_insert. case_decide as Hu; [subst|naive_solver].
    rewrite elem_of_app, list_elem_of_singleton. naive_solver. }
  split.
  - intros u v [?|[-> ->]]%He; [by eapply C1|cbn; by rewrite Ea].
  - intros u v [?|[-> ->]]%He; [by eapply C2|cbn; by rewrite Eb].
  - intros u v. rewrite He, ins_insert. case_decide as Hv.
    + subst. rewrite elem_of_app, list_elem_of_singleton, <- C3. naive_solver.
    + rewrite <- C3. naive_solver.
  - intros u. rewrite outs_insert. case_decide; [|done]. apply NoDup_snoc; [done|exact Hab].
  - intros v. rewrite ins_insert. case_decide; [|done]. apply NoDup_snoc; [done|]. by rewrite <- C3.
  - done.
Qed.

Lemma consistent_New : consistent New.
Proof.
  split.
  - intros u v Hin. by destruct (not_elem_of_nil v).
  - intros u v Hin. by destruct (not_elem_of_nil v).
  - split; intros Hin; [by destruct (not_elem_of_nil v)|by destruct (not_elem_of_nil u)].
  - intros u. unfold outs. cbn. rewrite lookup_empty. constructor.
  - intros u. unfold ins. cbn. rewrite lookup_empty. constructor.
  - intros id v. cbn. by rewrite lookup_empty.
Qed.

Lemma consistent_add g (w : Vertex Src Op Snk) g' :
  consistent g -> AddVertex w g = (Ok tt, g') -> consistent g'.
Proof.
  intros [C1 C2 C3 C4 C5 C6]. unfold AddVertex. case_bool_decide; [done|].
  destruct (byID g !! ID w) eqn:Ew; [done|]. intros [= <-]. split; try done.
  - intros x y Hxy. cbn. rewrite lookup_insert_is_Some'. right. by eapply C1.
  - intros x y Hxy. cbn. rewrite lookup_insert_is_Some'. right. by eapply C2.
  - intros id w'. cbn. rewrite lookup_insert_Some. intros [[<- <-]|[_ Hw]]; [done|by apply C6].
Qed.

(** A call that fails leaves the graph as it was. *)
Lemma AddVertex_err (w : Vertex Src Op Snk) e g g' : AddVertex w g = (Err e, g') -> g' = g.
Proof. unfold AddVertex. case_bool_decide; [by intros [= _ <-]|]. by destruct (byID g !! ID w); [intros [= _ <-]|]. Qed.

Lemma Connect_err (a b : bytes) e g g' : Connect a b g = (Err e, g') -> g' = g.
Proof.
  unfold Connect. destruct (byID g !! a), (byID g !! b); try by intros [= _ <-].
  by case_bool_decide; intros [= _ <-].
Qed.

Lemma built_consistent g : built g -> consistent g.
Proof.
  induction 1 as [|w g [[]|e] g' _ IH E|a b g [[]|e] g' _ IH E].
  - apply consistent_New.
  - by eapply consistent_add.
  - by rewrite (AddVertex_err _ _ _ _ E).
  - by eapply consistent_connect.
  - by rewrite (Connect_err _ _ _ _ _ E).
Qed.

(** The invariant of a graph under construction: both ends of an edge are
    vertices of the graph, the two directions of the adjacency agree, no edge
    is there twice, and a vertex is kept under its own ID. The empty graph has
    it, adding a vertex and an edge keep it, and a call that reports an error
    has changed nothing. *)
Theorem graph_operations_preserve g :
  consistent New /\
  (consistent g ->
   (forall w, consistent (AddVertex w g).2 /\ ((AddVertex w g).1 = Ok tt \/ (AddVertex w g).2 = g)) /\
   (forall a b : bytes, consistent (Connect a b g).2 /\ ((Connect a b g).1 = Ok tt \/ (Connect a b g).2 = g))).
Proof.
  split; [apply consistent_New|]. intros Hg. split.
  - intros w. destruct (AddVertex w g) as [[[]|e] g'] eqn:E; cbn.
    + split; [by eapply consistent_add|by left].
    + rewrite (AddVertex_err _ _ _ _ E). by split; [|right].
  - intros a b. destruct (Connect a b g) as [[[]|e] g'] eqn:E; cbn.
    + split; [by eapply consistent_connect|by left].
    + rewrite (Connect_err _ _ _ _ _ E). by split; [|right].
Qed.

(** ** Kahn's algorithm *)

Section Kahn.
Context (g : Graph) (Hg : consistent g).

Definition present v : Prop := is_Some (byID g !! v).

(** How many edges into [v] come from outside [P]. *)
Definition pending (P : list bytes) v : nat := length (filter (fun u => u ∉ P) (ins g v)).

(** [P] has been taken, in that order, and [ready] may be taken next. *)
Record kahn_inv (P ready : list bytes) (indeg : gmap bytes Z) : Prop := {
  ki_nodup : NoDup (P ++ ready);
  ki_present v : v ∈ P ++ ready -> present v;
  ki_indeg v : present v -> indegree indeg v = Z.of_nat (pending P v);
  ki_ready v : present v -> v ∉ P -> v ∈ ready <-> pending P v = 0%nat;
  ki_order l1 v l2 : P = l1 ++ v :: l2 -> forall u, edge g u v -> u ∈ l1;
}.

Lemma relax_all tos indeg ready :
  NoDup tos ->
  (forall v, indegree (foldl relax (indeg, ready) tos).1 v = indegree indeg v - (if decide (v ∈ tos) then 1 else 0)) /\
  (foldl relax (indeg, ready) tos).2 = ready ++ filter (fun v => indegree indeg v = 1) tos.
Proof.
  revert indeg ready. induction tos as [|t tos IH]; intros indeg ready Hnd.
  { split; [|by rewrite app_nil_r]. intros v. rewrite decide_False; [cbn; lia|]. by intros ?%elem_of_nil. }
  apply NoDup_cons in Hnd as [Ht Hnd]. cbn [foldl relax].
  set (d := indegree indeg t - 1). destruct (IH (<[t := d]> indeg) (if d =? 0 then ready ++ [t] else ready) Hnd) as [H1 H2].
  assert (forall v, indegree (<[t := d]> indeg) v = if decide (v = t) then d else indegree indeg v) as Hi.
  { intros v. unfold indegree. case_decide; subst; [by rewrite lookup_insert_eq|by rewrite lookup_insert_ne]. }
  unfold relax at 2 4. cbn [fst snd]. fold d. split.
  - intros v. rewrite H1, Hi. destruct (decide (v = t)) as [->|Hne].
    + rewrite decide_False by done. rewrite decide_True by by left. unfold d. lia.
    + destruct (decide (v ∈ tos)); [by rewrite decide_True by by right|].
      rewrite decide_False; [done|]. by intros [?|?]%elem_of_cons.
  - rewrite H2. rewrite filter_cons.
    assert (filter (fun v => indegree (<[t := d]> indeg) v = 1) tos = filter (fun v => indegree indeg v = 1) tos) as ->.
    { clear -Hi Ht. induction tos as [|x tos IH]; [done|]. apply not_elem_of_cons in Ht as [Hx Ht].
      assert (indegree (<[t := d]> indeg) x = indegree indeg x) as Hx' by (rewrite Hi; by rewrite decide_False by congruence).
      rewrite !filter_cons, IH by done. by rewrite Hx'. }
    unfold d. destruct (Z.eqb_spec (indegree indeg t - 1) 0).
    + rewrite decide_True by lia. by rewrite <- app_assoc.
    + by rewrite decide_False by lia.
Qed.

Lemma elem_of_Downstream u v : v ∈ Downstream g u <-> u ∈ ins g v.
Proof. unfold Downstream. rewrite merge_sort_Permutation. apply (c_sym g Hg). Qed.

Lemma NoDup_Downstream u : NoDup (Downstream g u).
Proof. unfold Downstream. rewrite merge_sort_Permutation. apply (c_outs g Hg). Qed.

(** Taking [id] leaves one pending edge fewer where there was one from it. *)
Lemma pending_step P id v :
  id ∉ P -> Z.of_nat (pending (P ++ [id]) v) = Z.of_nat (pending P v) - (if decide (id ∈ ins g v) then 1 else 0).
Proof.
  intros Hid. unfold pending. pose proof (c_ins g Hg v) as Hnd. induction (ins g v) as [|u l IH].
  { rewrite decide_False by by intros ?%elem_of_nil. cbn. lia. }
  apply NoDup_cons in Hnd as [Hu Hnd]. specialize (IH Hnd). rewrite !filter_cons. revert IH.
  assert (u ∈ P ++ [id] <-> u ∈ P \/ u = id) as H1 by by rewrite elem_of_app, list_elem_of_singleton.
  pose proof (elem_of_cons l id u) as H2.
  destruct (decide (u = id)) as [->|Hne]; repeat case_decide; cbn [length]; try lia; exfalso; naive_solver.
Qed.

Lemma pending_zero P v : pending P v = 0%nat <-> forall u, edge g u v -> u ∈ P.
Proof.
  unfold pending. rewrite length_zero_iff_nil. split.
  - intros Hn u Hu. destruct (decide (u ∈ P)) as [?|Hout]; [done|].
    assert (u ∈ filter (fun x => x ∉ P) (ins g v)) as Hin.
    { apply list_elem_of_filter. split; [done|]. by apply (c_sym g Hg). }
    rewrite Hn in Hin. by destruct (not_elem_of_nil u).
  - intros Hall. apply filter_none. intros u Hu Hout.
    apply Hout, Hall. by apply (c_sym g Hg).
Qed.

Lemma kahn_inv_perm P ready ready' indeg :
  ready ≡ₚ ready' -> kahn_inv P ready indeg -> kahn_inv P ready' indeg.
Proof.
  intros Hp [K1 K2 K3 K4 K5]. split; [by rewrite <- Hp|by setoid_rewrite <- Hp|done| |done].
  by setoid_rewrite <- Hp.
Qed.

Lemma kahn_step P id ready indeg :
  kahn_inv P (id :: ready) indeg ->
  let '(indeg', ready') := foldl relax (indeg, ready) (Downstream g id) in
  kahn_inv (P ++ [id]) ready' indeg'.
Proof.
  intros [K1 K2 K3 K4 K5].
  destruct (relax_all (Downstream g id) indeg ready (NoDup_Downstream id)) as [R1 R2].
  destruct (foldl relax _ _) as [indeg' ready'] eqn:Ef. cbn in R1, R2. subst ready'.
  assert (id ∉ P /\ id ∉ ready /\ NoDup P /\ NoDup ready /\ (forall x, x ∈ P -> x ∉ ready)) as (Hid & Hidr & HP & Hr & Hd).
  { apply NoDup_app in K1 as (H1 & H2 & H3). apply NoDup_cons in H3 as [H3 H4].
    split_and!; try done; [|intros x Hx Hx'; by eapply H2; [|right]]. intros Hx. by eapply H2; [|left]. }
  assert (present id) as Hpid by (apply K2; set_solver).
  assert (forall u, edge g u id -> u ∈ P) as Hpre.
  { apply pending_zero, K4; [done..|left]. }
  assert (forall v, v ∈ P -> forall u, edge g u v -> u ∈ P) as Hclosed.
  { intros v Hv u Hu. apply list_elem_of_split in Hv as (l1 & l2 & E). rewrite E. apply elem_of_app. left. by eapply K5. }
  assert (forall v, v ∈ Downstream g id -> v ∉ P /\ v <> id /\ v ∉ ready /\ present v) as Hto.
  { intros v Hv. rewrite elem_of_Downstream in Hv. assert (edge g id v) as He by by apply (c_sym g Hg).
    assert (v ∉ P) by (intros Hv'; by apply Hid, (Hclosed v)).
    assert (v <> id) by (intros ->; by apply Hid, Hpre).
    assert (present v) by by eapply (c_to g Hg). split_and!; try done.
    intros Hv'. apply Hid. eapply pending_zero; [|exact He]. apply K4; [done..|by right]. }
  split.
  - rewrite <- app_assoc. apply NoDup_app. split; [done|]. split.
    + intros x Hx [->|[Hx'|[_ Hx']%list_elem_of_filter]%elem_of_app]%elem_of_cons; [done|by eapply Hd|by apply Hto in Hx' as [? _]].
    + apply NoDup_cons. split.
      * intros [?|[_ Hx]%list_elem_of_filter]%elem_of_app; [done|]. by apply Hto in Hx as (_ & ? & _).
      * apply NoDup_app. split_and!; [done| |apply NoDup_filter, NoDup_Downstream].
        intros x Hx [_ Hx']%list_elem_of_filter. by apply Hto in Hx' as (_ & _ & ? & _).
  - intros v Hv. rewrite <- app_assoc in Hv.
    apply elem_of_app in Hv as [Hv|[Hv|[Hv|[_ Hv]%list_elem_of_filter]%elem_of_app]%elem_of_cons]; [| | |by apply Hto]; apply K2; set_solver.
  - intros v Hv. rewrite R1, K3, pending_step by done.
    by rewrite (decide_ext _ _ _ _ (elem_of_Downstream id v)).
  - intros v Hv [HvP Hne]%not_elem_of_app. pose proof (pending_step P id v Hid) as Hps.
    rewrite elem_of_app, list_elem_of_filter, K3, elem_of_Downstream by done.
    destruct (decide (id ∈ ins g v)) as [Hin|Hout].
    + assert (v ∉ ready) by (apply Hto; by rewrite elem_of_Downstream). naive_solver lia.
    + specialize (K4 v Hv HvP). rewrite elem_of_cons in K4.
      assert (v <> id) by (intros ->; by apply Hne; left). assert (pending (P ++ [id]) v = pending P v) as -> by lia.
      naive_solver.
  - intros l1 v l2 E u Hu. destruct l2 as [|x l2 _] using rev_ind.
    + apply app_inj_tail in E as [-> ->]. by apply Hpre.
    + rewrite app_comm_cons, app_assoc in E. apply app_inj_tail in E as [E ->]. by eapply K5.
Qed.

Lemma kahn_inv_length P ready indeg : kahn_inv P ready indeg -> (length P + length ready <= size (byID g))%nat.
Proof.
  intros K. rewrite <- length_app, <- length_map_to_list, <- (length_fmap fst).
  apply submseteq_length, NoDup_submseteq; [apply (ki_nodup _ _ _ K)|].
  intros v [w Hw]%(ki_present _ _ _ K). apply list_elem_of_fmap. exists (v, w). split; [done|]. by apply elem_of_map_to_list.
Qed.

(** One turn per vertex is enough: the loop ends with nothing ready. *)
Lemma kahn_loop_spec fuel P ready indeg :
  kahn_inv P ready indeg -> (size (byID g) < fuel + length P)%nat ->
  exists P' indeg', kahn_loop fuel g indeg ready P = (indeg', P') /\ kahn_inv P' [] indeg'.
Proof.
  revert P ready indeg. induction fuel as [|fuel IH]; intros P ready indeg K Hf.
  { pose proof (kahn_inv_length _ _ _ K). lia. }
  cbn [kahn_loop]. apply (kahn_inv_perm _ _ (merge_sort bytes_le ready)) in K; [|symmetry; apply merge_sort_Permutation].
  destruct (merge_sort bytes_le ready) as [|id rest]; [by eexists _, _|].
  pose proof (kahn_step _ _ _ _ K) as K'. destruct (foldl relax _ _) as [indeg' ready'].
  apply IH; [done|]. rewrite length_app. cbn. lia.
Qed.

Lemma initial_inv : kahn_inv [] (initial_ready g) (initial_indeg g).
Proof.
  unfold initial_ready, initial_indeg, sortedIDs. assert (forall v, pending [] v = length (ins g v)) as Hp.
  { intros v. unfold pending. rewrite filter_all; [done|]. intros u _. apply not_elem_of_nil. }
  split.
  - cbn. apply NoDup_filter, NoDup_sorted_keys.
  - intros v. cbn. intros [_ Hv]%list_elem_of_filter. by apply elem_of_sorted_keys in Hv.
  - intros v Hv. rewrite Hp. unfold indegree.
    rewrite (elem_of_list_to_map_1 _ v (Z.of_nat (length (ins g v)))); [done| |].
    + rewrite <- list_fmap_compose. unfold compose. cbn. rewrite list_fmap_id. apply NoDup_sorted_keys.
    + apply list_elem_of_fmap. exists v. split; [done|]. by apply elem_of_sorted_keys.
  - intros v Hv _. rewrite Hp, list_elem_of_filter, elem_of_sorted_keys. naive_solver.
  - intros [] ? ? E; done.
Qed.

(** What [kahn] computes: every vertex in an order that respects the edges, or
    a set of vertices each of which waits for another of the set. *)
Lemma kahn_spec :
  (exists P, kahn g = Ok (omap (fun id => byID g !! id) P) /\ P ≡ₚ sortedIDs g /\
    (forall l1 v l2, P = l1 ++ v :: l2 -> forall u, edge g u v -> u ∈ l1)) \/
  (exists left, kahn g = Err (errCycle left) /\ left <> [] /\
    forall v, v ∈ left -> present v /\ exists u, u ∈ left /\ edge g u v).
Proof.
  unfold kahn. destruct (kahn_loop_spec (S (size (byID g))) _ _ _ initial_inv) as (P & indeg & -> & K); [cbn; lia|].
  pose proof (kahn_inv_length _ _ _ K) as Hlen. destruct K as [K1 K2 K3 K4 K5]. rewrite app_nil_r in K1, K2.
  assert (P ⊆ sortedIDs g) as Hsub by (intros v Hv; by apply elem_of_sorted_keys, K2).
  assert (length (sortedIDs g) = size (byID g)) as Hs.
  { unfold sortedIDs. rewrite sorted_keys_perm, length_fmap. apply length_map_to_list. }
  destruct (Nat.eqb_spec (length P) (size (byID g))) as [E|E]; cbn [negb]; [left|right].
  - exists P. split_and!; [done| |done]. apply submseteq_length_Permutation; [by apply NoDup_submseteq|lia].
  - assert (forall v, v ∈ filter (fun id => 0 < indegree indeg id) (sortedIDs g) <-> present v /\ v ∉ P) as Hleft.
    { intros v. rewrite list_elem_of_filter. unfold sortedIDs. rewrite elem_of_sorted_keys.
      split; intros [H1 H2]; [split; [exact H2|]|split; [|exact H1]].
      - intros Hv. rewrite K3 in H1 by done.
        assert (pending P v = 0%nat) as Hz; [|lia]. apply pending_zero. intros u Hu.
        apply list_elem_of_split in Hv as (l1 & l2 & ->). apply elem_of_app. left. by eapply K5.
      - rewrite K3 by done. assert (pending P v <> 0%nat); [|lia]. intros Hz%K4; [by destruct (not_elem_of_nil v)|done..]. }
    exists (filter (fun id => 0 < indegree indeg id) (sortedIDs g)). split_and!; [done| |].
    + intros Hnil. apply E. rewrite <- Hs. apply Nat.le_antisymm; [lia|].
      apply submseteq_length, NoDup_submseteq; [apply NoDup_sorted_keys|]. intros v Hv.
      destruct (decide (v ∈ P)) as [?|Hout]; [done|]. destruct (not_elem_of_nil v). rewrite <- Hnil.
      apply Hleft. split; [by apply elem_of_sorted_keys in Hv|done].
    + intros v [Hp HvP]%Hleft. split; [done|].
      assert (pending P v <> 0%nat) as Hnz by (intros Hz%K4; [by destruct (not_elem_of_nil v)|done..]).
      unfold pending in Hnz. destruct (filter (fun u => u ∉ P) (ins g v)) as [|u l] eqn:Ef; [done|].
      assert (u ∈ filter (fun u => u ∉ P) (ins g v)) as [HuP Hu]%list_elem_of_filter by (rewrite Ef; by left).
      assert (edge g u v) as He by by apply (c_sym g Hg).
      exists u. split; [|done]. apply Hleft. split; [by eapply (c_from g Hg)|done].
Qed.
End Kahn.

(** ** What a valid vertex is *)

Definition has_factory {A} (o : option A) : Prop := is_Some o.

(** Exactly the factory of its kind is set. *)
Definition factories_match (w : Vertex Src Op Snk) : Prop :=
  match Kind w with
  | VertexSource => has_factory (NewSource w) /\ NewOperator w = None /\ NewSink w = None
  | VertexOperator => NewSource w = None /\ has_factory (NewOperator w) /\ NewSink w = None
  | VertexSink => NewSource w = None /\ NewOperator w = None /\ has_factory (NewSink w)
  | VertexOther _ => False
  end.

(** Only a source generates watermarks and barriers, and it does both. *)
Definition settings_fit (w : Vertex Src Op Snk) : Prop :=
  match Kind w with
  | VertexSource => 0 <= MaxOutOfOrderness w /\ 1 <= WatermarkIntervalElements w /\ 1 <= BarrierIntervalElements w
  | _ => MaxOutOfOrderness w = 0 /\ WatermarkIntervalElements w = 0 /\ BarrierIntervalElements w = 0
  end.

(** A source only feeds, a sink only consumes, an operator does both. *)
Definition edges_fit (g : Graph) id (w : Vertex Src Op Snk) : Prop :=
  match Kind w with
  | VertexSource => ins g id = [] /\ outs g id <> []
  | VertexOperator => ins g id <> [] /\ outs g id <> []
  | VertexSink => ins g id <> [] /\ outs g id = []
  | VertexOther _ => False
  end.

Record vertex_valid (g : Graph) id (w : Vertex Src Op Snk) : Prop := {
  vv_parallelism : 1 <= Parallelism w <= maxParallelism;
  vv_factories : factories_match w;
  vv_settings : settings_fit w;
  vv_edges : edges_fit g id w;
}.

Lemma checkFactories_ok (w : Vertex Src Op Snk) : is_ok (checkFactories w) = true <-> factories_match w.
Proof.
  unfold checkFactories, factories_match, has_factory.
  destruct w as [id k p [s|] [o|] [n|] ? ? ?], k; cbn; rewrite ?is_Some_alt; naive_solver.
Qed.

Lemma checkSourceSettings_ok (w : Vertex Src Op Snk) : is_ok (checkSourceSettings w) = true <-> settings_fit w.
Proof.
  unfold checkSourceSettings, settings_fit.
  destruct (Kind w); cbn [negb bool_decide decide_rel VertexKind_eq_dec];
    destruct (Z.ltb_spec (MaxOutOfOrderness w) 0);
    rewrite ?bool_decide_true by done; rewrite ?bool_decide_false by done; cbn [negb];
    destruct (Z.eqb_spec (WatermarkIntervalElements w) 0), (Z.eqb_spec (MaxOutOfOrderness w) 0),
      (Z.eqb_spec (BarrierIntervalElements w) 0), (Z.ltb_spec (WatermarkIntervalElements w) 1),
      (Z.ltb_spec (BarrierIntervalElements w) 1); cbn [negb is_ok]; split; intros; try done; try lia.
Qed.

Lemma checkVertex_ok g id (w : Vertex Src Op Snk) : is_ok (checkVertex g id w) = true <-> vertex_valid g id w.
Proof.
  unfold checkVertex. destruct (Z.ltb_spec (Parallelism w) 1) as [?|Hp1].
  { cbn. split; [done|]. intros [? _ _ _]. lia. }
  destruct (Z.ltb_spec maxParallelism (Parallelism w)) as [?|Hp2].
  { cbn. split; [done|]. intros [? _ _ _]. lia. }
  pose proof (checkFactories_ok w) as HF. destruct (checkFactories w) as [[]|e]; cbn.
  2: { split; [done|]. intros [_ Hf%HF _ _]. done. }
  pose proof (checkSourceSettings_ok w) as HS. destruct (checkSourceSettings w) as [[]|e]; cbn.
  2: { split; [done|]. intros [_ _ Hs%HS _]. done. }
  assert (factories_match w) as Hf by by apply HF. assert (settings_fit w) as Hs by by apply HS.
  transitivity (edges_fit g id w); [|split; [by intros; split|by intros []]].
  unfold checkEdges, edges_fit, factories_match in *.
  destruct (Kind w); [| | |done]; destruct (ins g id), (outs g id); cbn; naive_solver.
Qed.

Definition has_kind (g : Graph) (k : VertexKind) (ids : list bytes) : Prop :=
  exists id w, id ∈ ids /\ byID g !! id = Some w /\ Kind w = k.

Lemma validate_all_ok g ids a b :
  is_ok (validate_all g ids a b) = true <-> forall id w, id ∈ ids -> byID g !! id = Some w -> vertex_valid g id w.
Proof.
  revert a b. induction ids as [|id ids IH]; intros a b; cbn.
  { split; [intros _ ? ? Hin; by destruct (not_elem_of_nil id)|done]. }
  setoid_rewrite elem_of_cons. destruct (byID g !! id) as [w|] eqn:E; [|rewrite IH; naive_solver].
  pose proof (checkVertex_ok g id w) as Hc. destruct (checkVertex g id w) as [[]|e]; cbn.
  - rewrite IH. cbn in Hc. naive_solver.
  - split; [done|]. intros Hv. apply Hc. eapply Hv; [by left|done].
Qed.

Lemma validate_all_counts g ids a b a' b' :
  validate_all g ids a b = Ok (a', b') ->
  a <= a' /\ (a < a' <-> has_kind g VertexSource ids) /\ b <= b' /\ (b < b' <-> has_kind g VertexSink ids).
Proof.
  unfold has_kind. revert a b. induction ids as [|id ids IH]; intros a b; cbn.
  { intros [= -> ->]. assert (forall id : bytes, id ∉ []) as Hnil by (intros id; apply not_elem_of_nil).
    split_and!; try lia; (split; [lia|naive_solver]). }
  setoid_rewrite elem_of_cons. destruct (byID g !! id) as [w|] eqn:E.
  2: { intros (?&?&?&?)%IH. naive_solver. }
  destruct (checkVertex g id w) as [[]|e]; cbn; [|done].
  intros (H1&H2&H3&H4)%IH. repeat case_bool_decide; try congruence;
    split_and!; try lia; (split; [intros ?|intros (id' & w' & [->|Hin] & Hw & Hk)]; naive_solver lia).
Qed.

Lemma is_ok_spec {A} (r : result graph_error A) : is_ok r = true <-> exists a, r = Ok a.
Proof. destruct r; cbn; naive_solver. Qed.

(** An acyclic graph: the vertices can be ranked so that edges go up. *)
Definition acyclic (g : Graph) : Prop := exists rank : bytes -> nat, forall u v, edge g u v -> (rank u < rank v)%nat.

Lemma order_acyclic g P :
  consistent g -> P ≡ₚ sortedIDs g ->
  (forall l1 v l2, P = l1 ++ v :: l2 -> forall u, edge g u v -> u ∈ l1) -> acyclic g.
Proof.
  intros Hg Hp Ho.
  exists (fun v => match list_find (fun x => x = v) P with Some (i, _) => i | None => 0%nat end).
  intros u v He. assert (v ∈ P) as Hv.
  { rewrite Hp. apply elem_of_sorted_keys. by eapply (c_to g Hg). }
  assert (NoDup P) as Hnd by (rewrite Hp; apply NoDup_sorted_keys).
  apply list_elem_of_split in Hv as (l1 & l2 & ->). pose proof (Ho _ _ _ eq_refl _ He) as Hu.
  apply list_elem_of_split in Hu as (k1 & k2 & ->).
  assert (forall (a b : list bytes) (x : bytes), NoDup (a ++ x :: b) -> list_find (fun y => y = x) (a ++ x :: b) = Some (length a, x)) as Hf.
  { intros a b x [_ [Hx _]]%NoDup_app. apply list_find_Some. split_and!; [|done|].
    - by rewrite lookup_app_r, Nat.sub_diag by done.
    - intros j y Hj Hlt ->. rewrite lookup_app_l in Hj by done. apply (Hx x); [by eapply list_elem_of_lookup_2|by left]. }
  rewrite Hf by done. rewrite <- app_assoc in Hnd |- *. cbn in Hnd |- *. rewrite Hf by done.
  rewrite length_app. cbn. lia.
Qed.

Lemma no_cycle_left g (left : list bytes) :
  acyclic g -> left <> [] -> ~ (forall v, v ∈ left -> exists u, u ∈ left /\ edge g u v).
Proof.
  intros [rank Hr] Hne Hl. destruct left as [|x left0]; [done|]. set (left := x :: left0) in *.
  assert (forall n v, v ∈ left -> (rank v < n)%nat -> False) as Hno.
  { induction n as [|n IH]; intros v Hv Hlt; [lia|]. destruct (Hl v Hv) as (u & Hu & He).
    apply (IH u Hu). specialize (Hr _ _ He). lia. }
  apply (Hno (S (rank x)) x); [by left|lia].
Qed.

Lemma kahn_ok g : consistent g -> is_ok (kahn g) = true <-> acyclic g.
Proof.
  intros Hg. destruct (kahn_spec g Hg) as [(P & -> & Hp & Ho)|(left & -> & Hne & Hl)]; cbn.
  - split; [|done]. intros _. by eapply order_acyclic.
  - split; [done|]. intros Ha. destruct (no_cycle_left g left Ha Hne). intros v Hv. by destruct (Hl v Hv).
Qed.

(** The graphs the runtime can execute. *)
Record executable (g : Graph) : Prop := {
  ex_vertices id w : byID g !! id = Some w -> vertex_valid g id w;
  ex_source : exists id w, byID g !! id = Some w /\ Kind w = VertexSource;
  ex_sink : exists id w, byID g !! id = Some w /\ Kind w = VertexSink;
  ex_acyclic : acyclic g;
}.

Lemma has_kind_sorted g k : has_kind g k (sortedIDs g) <-> exists id w, byID g !! id = Some w /\ Kind w = k.
Proof.
  unfold has_kind, sortedIDs. setoid_rewrite elem_of_sorted_keys. naive_solver.
Qed.

Lemma Validate_ok g : consistent g -> is_ok (Validate g) = true <-> executable g.
Proof.
  intros Hg. unfold Validate. pose proof (validate_all_ok g (sortedIDs g) 0 0) as Hv.
  assert (forall id w, byID g !! id = Some w -> id ∈ sortedIDs g) as Hin.
  { intros id w Hid. by apply elem_of_sorted_keys. }
  destruct (validate_all g (sortedIDs g) 0 0) as [[a b]|e] eqn:E; cbn.
  2: { split; [done|]. intros [Hx _ _ _]. apply Hv. naive_solver. }
  apply validate_all_counts in E as (H1 & H2 & H3 & H4). rewrite has_kind_sorted in H2, H4.
  destruct (Z.eqb_spec a 0) as [->|Ha].
  { cbn. split; [done|]. intros [_ Hs _ _]. apply H2 in Hs. lia. }
  destruct (Z.eqb_spec b 0) as [->|Hb].
  { cbn. split; [done|]. intros [_ _ Hs _]. apply H4 in Hs. lia. }
  pose proof (kahn_ok g Hg) as Hk. destruct (kahn g); cbn in *.
  - split; [|done]. intros _. split; [naive_solver|apply H2; lia|apply H4; lia|by apply Hk].
  - split; [done|]. intros [_ _ _ Hac]. by apply Hk.
Qed.

(** C19. A graph built by adding vertices and connecting them, whatever calls
    failed on the way, is accepted exactly when the runtime can execute it:
    every vertex has a parallelism from 1 to 256, the one factory, the
    settings and the edges of its kind, there is a source and a sink, and the
    edges have no cycle. [TopoOrder] gives an order on the same graphs. *)
Theorem validate_accepts_executable g :
  built g ->
  (Validate g = Ok tt <-> executable g) /\ ((exists order, TopoOrder g = Ok order) <-> executable g).
Proof.
  intros Hg%built_consistent. pose proof (Validate_ok g Hg) as Hv. unfold TopoOrder.
  destruct (Validate g) as [[]|e] eqn:E; cbn in *.
  - split; [naive_solver|]. rewrite <- is_ok_spec, kahn_ok by done. split; [by intros; apply Hv|by intros [_ _ _ ?]].
  - split; split; [done|intros Hx%Hv; done|by intros []|intros Hx%Hv; done].
Qed.

Lemma TopoOrder_executable g order : built g -> TopoOrder g = Ok order -> executable g.
Proof.
  intros Hg%built_consistent. unfold TopoOrder. destruct (Validate g) as [[]|] eqn:E; [|done]. intros _.
  apply Validate_ok; [done|by rewrite E].
Qed.

(** What [TopoOrder] returns, by the identifiers in its order. *)
Lemma TopoOrder_spec g order :
  built g -> TopoOrder g = Ok order ->
  (ID <$> order) ≡ₚ sortedIDs g /\ (forall w, w ∈ order -> byID g !! ID w = Some w) /\
  (forall Q v R, ID <$> order = Q ++ v :: R -> forall u, edge g u v -> u ∈ Q).
Proof.
  intros Hg%built_consistent. unfold TopoOrder. destruct (Validate g); cbn; [|done].
  destruct (kahn_spec g Hg) as [(P & -> & Hp & Ho)|(left & -> & _)]; [|done]. intros [= <-].
  assert (forall Q : list bytes, Q ⊆ P -> ID <$> omap (fun id => byID g !! id) Q = Q) as Hmap.
  { intros Q HQ. induction Q as [|v Q IH]; [done|].
    assert (v ∈ P) as Hv by (apply HQ; by left). rewrite Hp in Hv. apply elem_of_sorted_keys in Hv as [w Hw].
    cbn. rewrite Hw. cbn. rewrite (c_id g Hg _ _ Hw). f_equal. apply IH. set_solver. }
  rewrite Hmap by done. split_and!; [done| |].
  - intros w Hw. apply list_elem_of_omap in Hw as (v & _ & Hv). by rewrite (c_id g Hg _ _ Hv).
  - intros Q v R E u Hu. by eapply Ho.
Qed.

(** C32. The order [TopoOrder] returns holds every vertex of the graph once, as
    it was added, and the source of each edge before its target. *)
Theorem topo_order_topological g order :
  built g -> TopoOrder g = Ok order ->
  (ID <$> order) ≡ₚ sortedIDs g /\
  (forall w, w ∈ order -> byID g !! ID w = Some w) /\
  (forall l1 w l2, order = l1 ++ w :: l2 -> forall u, edge g u (ID w) -> u ∈ ID <$> l1).
Proof.
  intros Hg E. destruct (TopoOrder_spec g order Hg E) as (Hp & Hw & Ho). split_and!; [done..|].
  intros l1 w l2 -> u Hu. apply (Ho _ (ID w) (ID <$> l2)); [by rewrite fmap_app|done].
Qed.

(** A cycle is reported with the vertices that cannot start: at least one,
    and each of them fed by another of them. *)
Theorem cycle_reported g left :
  built g -> Validate g = Err (errCycle left) ->
  left <> [] /\ (forall v, v ∈ left -> is_Some (byID g !! v) /\ exists u, u ∈ left /\ edge g u v) /\ ~ acyclic g.
Proof.
  intros Hg%built_consistent E. assert (kahn g = Err (errCycle left)) as Ek.
  { unfold Validate in E. destruct (validate_all g _ 0 0) as [[a b]|e] eqn:Ev; cbn in E.
    - destruct (a =? 0); [done|]. destruct (b =? 0); [done|]. destruct (kahn g); cbn in E; [done|]. by injection E as ->.
    - exfalso. injection E as ->. revert Ev. generalize 0 at 1, 0 at 1. induction (sortedIDs g) as [|id ids IH]; intros a b; cbn; [done|].
      destruct (byID g !! id) as [w|]; [|apply IH]. unfold checkVertex.
      destruct (wrap_err _ _) as [[]|e] eqn:Ew; cbn; [apply IH|]. intros [= ->].
      unfold wrap_err in Ew. by repeat case_match. }
  destruct (kahn_spec g Hg) as [(P & Ek' & _)|(left' & Ek' & Hne & Hl)]; rewrite Ek in Ek'; [done|].
  injection Ek' as <-. split_and!; [done..|]. intros Ha. destruct (no_cycle_left g left Ha Hne). intros v Hv. by destruct (Hl v Hv).
Qed.

(** ** Graphs that differ only in the order their edges were added *)

Definition same_graph (g g' : Graph) : Prop :=
  byID g = byID g' /\ (forall u, outs g u ≡ₚ outs g' u) /\ (forall u, ins g u ≡ₚ ins g' u).

#[export] Instance same_graph_equiv : Equivalence same_graph.
Proof.
  split; unfold same_graph.
  - intros g. split_and!; done.
  - intros g g' (?&?&?). split_and!; intros; symmetry; naive_solver.
  - intros g g' g'' (E1&E2&E3) (E1'&E2'&E3'). split_and!; [congruence|intros u; by rewrite E2|intros u; by rewrite E3].
Qed.

Lemma merge_sort_perm (l k : list bytes) : l ≡ₚ k -> merge_sort bytes_le l = merge_sort bytes_le k.
Proof.
  intros Hp. apply (StronglySorted_unique bytes_le); [apply (StronglySorted_merge_sort bytes_le)..|].
  by rewrite !merge_sort_Permutation.
Qed.

Lemma is_nil_perm {A} (l k : list A) : l ≡ₚ k -> is_nil l = is_nil k.
Proof. intros Hp. destruct l, k; try done; [by apply Permutation_nil_cons in Hp|by symmetry in Hp; apply Permutation_nil_cons in Hp]. Qed.

Lemma connect_same (a b : bytes) g g' :
  Connect a b g = (Ok tt, g') ->
  byID g' = byID g /\
  (forall u, outs g' u = outs g u ++ if decide (u = a) then [b] else []) /\
  (forall u, ins g' u = ins g u ++ if decide (u = b) then [a] else []).
Proof.
  unfold Connect. destruct (byID g !! a); [|done]. destruct (byID g !! b); [|done].
  case_bool_decide; [done|]. intros [= <-]. split; [done|]. split; intros u.
  - rewrite outs_insert. case_decide; [by subst|by rewrite app_nil_r].
  - rewrite ins_insert. case_decide; [by subst|by rewrite app_nil_r].
Qed.

(** Two edges that can both be added give the same graph in either order. *)
Lemma connect_swap (a b c d : bytes) g g1 g2 h1 h2 :
  Connect a b g = (Ok tt, g1) -> Connect c d g1 = (Ok tt, g2) ->
  Connect c d g = (Ok tt, h1) -> Connect a b h1 = (Ok tt, h2) -> same_graph g2 h2.
Proof.
  intros (E1&O1&I1)%connect_same (E2&O2&I2)%connect_same (E3&O3&I3)%connect_same (E4&O4&I4)%connect_same.
  split; [congruence|]. split; intros u.
  - rewrite O2, O1, O4, O3, <- !app_assoc. apply Permutation_app_head, Permutation_app_comm.
  - rewrite I2, I1, I4, I3, <- !app_assoc. apply Permutation_app_head, Permutation_app_comm.
Qed.

Lemma ok_first {Er St} (p : result Er unit * St) : p.1 = Ok tt -> p = (Ok tt, p.2).
Proof. destruct p. cbn. by intros ->. Qed.

#[export] Instance Downstream_proper : Proper (same_graph ==> eq ==> eq) Downstream.
Proof. intros g g' (_ & H & _) u ? <-. by apply merge_sort_perm. Qed.

#[export] Instance checkVertex_proper : Proper (same_graph ==> eq ==> eq ==> eq) checkVertex.
Proof.
  intros g g' (_ & Ho & Hi) id ? <- w ? <-. unfold checkVertex, checkEdges.
  by rewrite (is_nil_perm _ _ (Ho id)), (is_nil_perm _ _ (Hi id)).
Qed.

Lemma validate_all_same g g' ids a b : same_graph g g' -> validate_all g ids a b = validate_all g' ids a b.
Proof.
  intros Hs. revert a b. induction ids as [|id ids IH]; intros a b; [done|]. cbn.
  destruct Hs as (E & Hs). rewrite E. destruct (byID g' !! id) as [w|]; [|apply IH].
  rewrite (checkVertex_proper g g' (conj E Hs) id _ eq_refl w _ eq_refl).
  destruct (checkVertex g' id w); cbn; [apply IH|done].
Qed.

Lemma kahn_loop_same g g' fuel indeg ready order :
  same_graph g g' -> kahn_loop fuel g indeg ready order = kahn_loop fuel g' indeg ready order.
Proof.
  intros Hs. revert indeg ready order. induction fuel as [|fuel IH]; intros indeg ready order; [done|]. cbn.
  destruct (merge_sort bytes_le ready) as [|id rest]; [done|]. rewrite Hs.
  destruct (foldl relax _ _). apply IH.
Qed.

#[export] Instance kahn_proper : Proper (same_graph ==> eq) kahn.
Proof.
  intros g g' Hs. pose proof Hs as (E & _ & Hi). unfold kahn, initial_indeg, initial_ready, sortedIDs.
  rewrite E. rewrite (kahn_loop_same _ _ _ _ _ _ Hs).
  rewrite (list_fmap_ext _ (fun id => (id, Z.of_nat (length (ins g' id)))) (sorted_keys (byID g')));
    [|intros i x _; by rewrite (Hi x)].
  by rewrite (list_filter_iff (fun id => length (ins g id) = 0%nat) (fun id => length (ins g' id) = 0%nat))
    by (intros x; by rewrite (Hi x)).
Qed.

#[export] Instance Validate_proper : Proper (same_graph ==> eq) Validate.
Proof.
  intros g g' Hs. unfold Validate. rewrite (kahn_proper _ _ Hs), (validate_all_same _ _ _ _ _ Hs).
  destruct Hs as [E _]. unfold sortedIDs. by rewrite E.
Qed.

(** The answer of [Validate], the error included, and the order of
    [TopoOrder] are functions of the graph alone: the order in which its
    edges were added has no effect on them. *)
Theorem order_of_graph_alone g g' :
  same_graph g g' -> Validate g = Validate g' /\ TopoOrder g = TopoOrder g'.
Proof.
  intros Hs. unfold TopoOrder. rewrite (Validate_proper _ _ Hs), (kahn_proper _ _ Hs). by split.
Qed.
End Spec.

(** ** A concrete job: two sources into a join, and a sink *)

Definition demo_vertex (id : bytes) (k : VertexKind) : Vertex unit unit unit :=
  let only (b : bool) : option unit := if b then Some tt else None in
  let s := bool_decide (k = VertexSource) in
  MkVertex id k 2 (only s) (only (bool_decide (k = VertexOperator))) (only (bool_decide (k = VertexSink)))
    (if s then 10 else 0) 0 (if s then 100 else 0).

Definition demo_vertices : list (Vertex unit unit unit) :=
  [demo_vertex (str "sink") VertexSink; demo_vertex (str "join") VertexOperator;
   demo_vertex (str "right") VertexSource; demo_vertex (str "left") VertexSource].

Definition demo_edges : list (bytes * bytes) :=
  [(str "right", str "join"); (str "left", str "join"); (str "join", str "sink")].

Definition build (vs : list (Vertex unit unit unit)) (es : list (bytes * bytes)) : Graph unit unit unit :=
  (for_each (fun e => Connect e.1 e.2) es (for_each AddVertex vs New).2).2.

Lemma built_for_each {A Src Op Snk} (f : A -> M graph_error (Graph Src Op Snk) unit) (l : list A) g :
  (forall x g r g', built g -> f x g = (r, g') -> built g') -> built g -> built (for_each f l g).2.
Proof.
  intros Hf. revert g. induction l as [|x l IH]; intros g Hg; [done|].
  rewrite for_each_cons. destruct (f x g) as [[[]|e] g'] eqn:E; cbn; [apply IH|]; by eapply Hf.
Qed.

Lemma built_build vs es : built (build vs es).
Proof.
  apply built_for_each; [by intros [a b] g r g' Hg E; eapply built_connect|].
  apply built_for_each; [by intros v g r g' Hg E; eapply built_add|constructor].
Qed.

Definition demo_order : list (Vertex unit unit unit) :=
  [demo_vertex (str "left") VertexSource; demo_vertex (str "right") VertexSource;
   demo_vertex (str "join") VertexOperator; demo_vertex (str "sink") VertexSink].

Lemma topo_order_topological_witness :
  TopoOrder (build demo_vertices demo_edges) = Ok demo_order /\
  forall (l1 : list (Vertex unit unit unit)) w l2, demo_order = l1 ++ w :: l2 ->
    forall u, edge (build demo_vertices demo_edges) u (ID w) -> u ∈ map ID l1.
Proof.
  assert (TopoOrder (build demo_vertices demo_edges) = Ok demo_order) as E by (vm_compute; reflexivity).
  split; [exact E|]. exact (proj2 (proj2 (topo_order_topological _ _ (built_build _ _) E))).
Defined.

Lemma validate_accepts_executable_witness :
  Validate (build demo_vertices demo_edges) = Ok tt /\ executable (build demo_vertices demo_edges).
Proof.
  assert (Validate (build demo_vertices demo_edges) = Ok tt) as E by (vm_compute; reflexivity).
  split; [exact E|]. exact (proj1 (proj1 (validate_accepts_executable _ (built_build _ _))) E).
Defined.

(** Two operators that feed each other. *)
Definition cyclic_vertices : list (Vertex unit unit unit) :=
  [demo_vertex (str "src") VertexSource; demo_vertex (str "a") VertexOperator;
   demo_vertex (str "b") VertexOperator; demo_vertex (str "sink") VertexSink].

Definition cyclic_edges : list (bytes * bytes) :=
  [(str "src", str "a"); (str "a", str "b"); (str "b", str "a"); (str "b", str "sink")].

Lemma cycle_reported_witness :
  Validate (build cyclic_vertices cyclic_edges) = Err (errCycle [str "a"; str "b"; str "sink"]) /\
  ~ acyclic (build cyclic_vertices cyclic_edges).
Proof.
  assert (Validate (build cyclic_vertices cyclic_edges) = Err (errCycle [str "a"; str "b"; str "sink"])) as E
    by (vm_compute; reflexivity).
  split; [exact E|]. exact (proj2 (proj2 (cycle_reported _ _ (built_build _ _) E))).
Defined.

(** The same two edges, added in either order. *)
Definition half_built : Graph unit unit unit := build demo_vertices [(str "join", str "sink")].

Definition then_connect (a b c d : bytes) (g : Graph unit unit unit) : Graph unit unit unit :=
  (Connect c d (Connect a b g).2).2.

Lemma order_of_graph_alone_witness :
  TopoOrder (then_connect (str "left") (str "join") (str "right") (str "join") half_built) =
  TopoOrder (then_connect (str "right") (str "join") (str "left") (str "join") half_built).
Proof.
  refine (proj2 (order_of_graph_alone _ _ (connect_swap _ _ _ _ _ _ _ _ _ _ _ _ _)));
    apply ok_first; vm_compute; reflexivity.
Defined.

Lemma graph_operations_preserve_witness :
  consistent (Connect (str "left") (str "nowhere") half_built).2 /\
  (Connect (str "left") (str "nowhere") half_built).1 = Err (errUnknownVertex (str "nowhere")).
Proof.
  split; [|vm_compute; reflexivity].
  exact (proj1 (proj2 (proj2 (graph_operations_preserve half_built)
    (built_consistent _ (built_build _ _))) (str "left") (str "nowhere"))).
Defined.
