(* ===== verification/GraphLine.v ===== *)
(** Job graphs that are a straight line ([pkg/graph/graph.go], as
    [cmd/bench/workload.go] builds them): which of them [Validate] accepts. *)
From S2P Require Import Prelude Graph GraphSpec.

(** What follows and what precedes in a list. *)
Fixpoint next_of (ids : list bytes) (x : bytes) : list bytes :=
  match ids with
  | a :: (b :: _) as t => if bool_decide (a = x) then [b] else next_of t x
  | _ => []
  end.

Fixpoint prev_of (ids : list bytes) (x : bytes) : list bytes :=
  match ids with
  | a :: (b :: _) as t => if bool_decide (b = x) then [a] else prev_of t x
  | _ => []
  end.

(** Each to the one after it. *)
Definition line (ids : list bytes) : list (bytes * bytes) := zip ids (tail ids).

Lemma next_of_split ids x y : y ∈ next_of ids x -> exists l1 l2, ids = l1 ++ x :: y :: l2.
Proof.
  induction ids as [|a [|b t] IH]; [by intros ?%elem_of_nil..|]. cbn [next_of]. case_bool_decide as E.
  - subst. intros ->%list_elem_of_singleton. by exists [], t.
  - intros (l1 & l2 & ->)%IH. by exists (a :: l1), l2.
Qed.

Lemma next_of_none ids x : x ∉ ids -> next_of ids x = [].
Proof.
  induction ids as [|a [|b t] IH]; [done..|]. intros [Ha Ht]%not_elem_of_cons. cbn [next_of].
  rewrite bool_decide_false by congruence. by apply IH.
Qed.

Lemma prev_of_none ids x : x ∉ tail ids -> prev_of ids x = [].
Proof.
  induction ids as [|a [|b t] IH]; [done..|]. intros [Hb Ht]%not_elem_of_cons. cbn [prev_of].
  rewrite bool_decide_false by congruence. by apply IH.
Qed.

Lemma next_of_last l z : NoDup (l ++ [z]) -> next_of (l ++ [z]) z = [].
Proof.
  induction l as [|a l IH]; [done|]. intros [Ha Hl]%NoDup_cons. specialize (IH Hl). cbn [app].
  destruct (l ++ [z]) as [|b t] eqn:E; [by destruct l|]. cbn [next_of].
  rewrite bool_decide_false; [done|]. intros ->. apply Ha. set_solver.
Qed.

Lemma next_of_inner l z x : x ∈ l -> next_of (l ++ [z]) x <> [].
Proof.
  induction l as [|a l IH]; [by intros ?%elem_of_nil|]. intros Hx. cbn [app].
  destruct (l ++ [z]) as [|b t] eqn:E; [by destruct l|]. cbn [next_of]. case_bool_decide as Ea; [done|].
  apply IH. by apply elem_of_cons in Hx as [->|Hx].
Qed.

Lemma prev_of_inner a l x : x ∈ l -> prev_of (a :: l) x <> [].
Proof.
  revert a. induction l as [|b l IH]; intros a; [by intros ?%elem_of_nil|]. intros Hx. cbn [prev_of].
  case_bool_decide as Eb; [done|]. apply IH. by apply elem_of_cons in Hx as [->|Hx].
Qed.

Section Line.
Context {Src Op Snk : Type}.
Abbreviation Vertex := (Vertex Src Op Snk).
Abbreviation Graph := (Graph Src Op Snk).

Definition build_line (vertices : list Vertex) : M graph_error Graph unit :=
  _ ← for_each AddVertex vertices;
  for_each (fun e => Connect e.1 e.2) (line (ID <$> vertices)).

Definition by_ids (vs : list Vertex) (m : gmap bytes Vertex) : gmap bytes Vertex :=
  foldl (fun m v => <[ID v := v]> m) m vs.

Lemma add_all vs g :
  NoDup (ID <$> vs) -> Forall (fun v => ID v <> [] /\ byID g !! ID v = None) vs ->
  for_each AddVertex vs g = (Ok tt, MkGraph (by_ids vs (byID g)) (out g) (in_ g)).
Proof.
  revert g. induction vs as [|v vs IH]; intros g; [by destruct g|].
  rewrite fmap_cons. intros [Hv Hn]%NoDup_cons [[He Hg] Hvs]%Forall_cons. rewrite for_each_cons. unfold AddVertex at 1.
  rewrite bool_decide_false by done. rewrite Hg, IH; [done|done|]. cbn [byID].
  apply Forall_forall. intros w Hw. destruct (proj1 (Forall_forall _ _) Hvs w Hw) as [? ?]. split; [done|].
  rewrite lookup_insert_ne; [done|]. intros E. apply Hv. rewrite E. by apply list_elem_of_fmap_2.
Qed.

Lemma by_ids_lookup vs m id v :
  NoDup (ID <$> vs) -> by_ids vs m !! id = Some v -> (v ∈ vs /\ ID v = id) \/ m !! id = Some v.
Proof.
  revert m. induction vs as [|w vs IH]; intros m; [by right|]. rewrite fmap_cons. intros [Hw Hn]%NoDup_cons Hl.
  destruct (IH _ Hn Hl) as [[Hv He]|Hm]; [left; split; [by right|done]|].
  destruct (decide (ID w = id)) as [<-|Hne].
  - rewrite lookup_insert_eq in Hm. injection Hm as ->. left. split; [by left|done].
  - rewrite lookup_insert_ne in Hm by done. by right.
Qed.

Lemma by_ids_found vs m v : NoDup (ID <$> vs) -> v ∈ vs -> by_ids vs m !! ID v = Some v.
Proof.
  revert m. induction vs as [|w vs IH]; intros m; [by intros _ ?%elem_of_nil|]. rewrite fmap_cons.
  intros [Hw Hn]%NoDup_cons [->|Hv]%elem_of_cons; [|by apply IH]. cbn.
  clear IH Hn. revert m. induction vs as [|u vs IH2] using rev_ind; intros m; cbn; [by rewrite lookup_insert_eq|].
  rewrite fmap_app in Hw. unfold by_ids. rewrite foldl_snoc, lookup_insert_ne; [|set_solver]. apply IH2. set_solver.
Qed.

Lemma connect_all ids (g : Graph) :
  NoDup ids -> Forall (fun x => is_Some (byID g !! x) /\ outs g x = []) ids -> Forall (fun x => ins g x = []) (tail ids) ->
  exists g', for_each (fun e => Connect e.1 e.2) (line ids) g = (Ok tt, g') /\ byID g' = byID g /\
    (forall x, outs g' x = if bool_decide (x ∈ ids) then next_of ids x else outs g x) /\
    (forall x, ins g' x = if bool_decide (x ∈ tail ids) then prev_of ids x else ins g x).
Proof.
  revert g. induction ids as [|a [|b t] IH]; intros g Hn Ho Hi.
  - exists g. split_and!; [done|done|intros x..]; by rewrite bool_decide_false by set_solver.
  - exists g. split_and!; [done|done|intros x; case_bool_decide as E; [|done]|intros x; by rewrite bool_decide_false by set_solver].
    apply list_elem_of_singleton in E as ->. by apply Forall_cons in Ho as [[_ ?] _].
  - apply NoDup_cons in Hn as [Ha Hn]. apply Forall_cons in Ho as [[[va Hva] Hoa] Ho].
    pose proof Ho as [[[vb Hvb] Hob] Hot]%Forall_cons. apply Forall_cons in Hi as [Hib Hi].
    assert (Connect a b g = (Ok tt, MkGraph (byID g) (<[a := [b]]> (out g)) (<[b := [a]]> (in_ g)))) as Ec.
    { unfold Connect. rewrite Hva, Hvb, Hoa, Hib. by rewrite bool_decide_false by apply not_elem_of_nil. }
    set (g1 := MkGraph (byID g) (<[a := [b]]> (out g)) (<[b := [a]]> (in_ g))) in Ec.
    assert (forall x, outs g1 x = if bool_decide (x = a) then [b] else outs g x) as Ho1.
    { intros x. unfold outs. cbn. case_bool_decide as E; [subst; by rewrite lookup_insert_eq|by rewrite lookup_insert_ne]. }
    assert (forall x, ins g1 x = if bool_decide (x = b) then [a] else ins g x) as Hi1.
    { intros x. unfold ins. cbn. case_bool_decide as E; [subst; by rewrite lookup_insert_eq|by rewrite lookup_insert_ne]. }
    apply NoDup_cons in Hn as [Hb Hn].
    destruct (IH g1) as (g' & E & Hby & Hout & Hin).
    + by apply NoDup_cons.
    + apply Forall_forall. intros x Hx. destruct (proj1 (Forall_forall _ _) Ho x Hx) as [? Hx0]. split; [done|]. rewrite Ho1, bool_decide_false; [done|].
      intros ->. by apply Ha.
    + apply Forall_forall. intros x Hx. pose proof (proj1 (Forall_forall _ _) Hi x Hx) as Hx0. cbn in Hx. rewrite Hi1, bool_decide_false; [done|]. by intros ->.
    + exists g'. split_and!.
      * change (line (a :: b :: t)) with ((a, b) :: line (b :: t)). rewrite for_each_cons. cbn [fst snd]. by rewrite Ec.
      * exact Hby.
      * intros x. rewrite Hout, Ho1. cbn [next_of]. destruct (decide (x = a)) as [->|Hx].
        -- rewrite (bool_decide_false (a ∈ b :: t)), !bool_decide_true; first [done|by left].
        -- rewrite (bool_decide_false (x = a)), (bool_decide_false (a = x)) by congruence.
           repeat case_bool_decide; try done; set_solver.
      * intros x. rewrite Hin, Hi1. cbn [prev_of tail]. destruct (decide (x = b)) as [->|Hx].
        -- rewrite (bool_decide_false (b ∈ t)), !bool_decide_true; first [done|by left].
        -- rewrite (bool_decide_false (x = b)), (bool_decide_false (b = x)) by congruence.
           repeat case_bool_decide; try done; set_solver.
Qed.

(** A line of a source, operators and a sink is what the runtime can execute
    exactly when its vertices are in range. *)
Record line_vertex (v : Vertex) : Prop := {
  lv_factories : factories_match v;
  lv_settings : settings_fit v;
}.

Lemma build_line_ok source chain sink :
  let vs := source :: chain ++ [sink] in
  NoDup (ID <$> vs) -> Forall (fun v => ID v <> []) vs -> Forall line_vertex vs ->
  Kind source = VertexSource -> Forall (fun v => Kind v = VertexOperator) chain -> Kind sink = VertexSink ->
  exists g, build_line vs New = (Ok tt, g) /\ built g /\ (forall id v, byID g !! id = Some v <-> v ∈ vs /\ ID v = id) /\
    (Validate g = Ok tt <-> Forall (fun v => 1 <= Parallelism v <= maxParallelism) vs).
Proof.
  intros vs Hn Hid Hok Hsource Hchain Hsink. set (ids := ID <$> vs).
  assert (forall v, v ∈ vs -> by_ids vs ∅ !! ID v = Some v) as Hfound by (intros v Hv; by apply by_ids_found).
  destruct (connect_all ids (MkGraph (by_ids vs ∅) ∅ ∅) Hn) as (g & Ec & Hby & Hout & Hin).
  { apply Forall_forall. intros x (v & -> & Hv)%list_elem_of_fmap. split; [|done]. eexists. by apply Hfound. }
  { by apply Forall_true. }
  assert (build_line vs New = (Ok tt, g)) as Eb.
  { unfold build_line, mbind, M_bind. rewrite (add_all vs New Hn); [exact Ec|].
    eapply Forall_impl; [exact Hid|]. by intros v Hv. }
  assert (forall id v, byID g !! id = Some v <-> v ∈ vs /\ ID v = id) as Hverts.
  { intros id v. rewrite Hby. cbn [byID]. split; [|by intros [Hv <-]; apply Hfound].
    intros Hl. by destruct (by_ids_lookup vs ∅ id v Hn Hl) as [?|?%lookup_empty_Some]. }
  assert (built g) as Hg.
  { assert (g = (build_line vs New).2) as -> by by rewrite Eb. unfold build_line, mbind, M_bind.
    pose proof (built_for_each AddVertex vs New) as H1. destruct (for_each AddVertex vs New) as [[[]|e] g1]; cbn in *.
    - apply built_for_each; [by intros [a b] g2 r g3 H2 E; eapply built_connect|].
      apply H1; [by intros v g2 r g3 H2 E; eapply built_add|constructor].
    - apply H1; [by intros v g2 r g3 H2 E; eapply built_add|constructor]. }
  exists g. split; [done|]. split; [done|]. split; [done|].
  assert (Validate g = Ok tt <-> executable g) as ->.
  { rewrite <- (Validate_ok g (built_consistent g Hg)). by destruct (Validate g) as [[]|]. }
  assert (ids = ID source :: (ID <$> chain) ++ [ID sink]) as Eids by (unfold ids, vs; by rewrite fmap_cons, fmap_app).
  split.
  - intros [Hv _ _ _]. apply Forall_forall. intros v Hin'. apply (vv_parallelism g (ID v) v), Hv. by apply Hverts.
  - intros Hpar. split.
    + intros id v [Hv <-]%Hverts. pose proof (proj1 (Forall_forall _ _) Hok v Hv) as [Hf Hs].
      split; [exact (proj1 (Forall_forall _ _) Hpar v Hv)|done|done|].
      assert (outs g (ID v) = next_of ids (ID v)) as Eo.
      { rewrite Hout, bool_decide_true; [done|]. by apply list_elem_of_fmap_2. }
      unfold edges_fit. rewrite Eo.
      apply elem_of_cons in Hv as [->|Hv]; [|apply elem_of_app in Hv as [Hv|Hv]; [|apply list_elem_of_singleton in Hv as ->]].
      * rewrite Hsource, Hin. pose proof Hn as Hn'. fold ids in Hn'. rewrite Eids in Hn' |- *. apply NoDup_cons in Hn' as [Hs0 _].
        cbn [tail]. rewrite bool_decide_false by done. split; [done|]. apply (next_of_inner (ID source :: (ID <$> chain))). by left.
      * rewrite (proj1 (Forall_forall _ _) Hchain v Hv), Hin, Eids. cbn [tail].
        assert (ID v ∈ ID <$> chain) as Hc by by apply list_elem_of_fmap_2.
        rewrite bool_decide_true by set_solver. split; [apply prev_of_inner; set_solver|].
        apply (next_of_inner (ID source :: (ID <$> chain))). by right.
      * rewrite Hsink, Hin, Eids. cbn [tail]. rewrite bool_decide_true by set_solver.
        split; [apply prev_of_inner; set_solver|]. pose proof Hn as Hn'. fold ids in Hn'. rewrite Eids in Hn'.
        by apply (next_of_last (ID source :: (ID <$> chain))).
    + exists (ID source), source. split; [|done]. apply Hverts. split; [by left|done].
    + exists (ID sink), sink. split; [|done]. apply Hverts. split; [|done]. unfold vs. set_solver.
    + exists (fun x => match list_find (fun y => y = x) ids with Some (i, _) => i | None => 0%nat end).
      intros u v He. unfold edge in He. rewrite Hout in He.
      destruct (decide (u ∈ ids)) as [Hu|Hu]; [rewrite bool_decide_true in He by done|rewrite bool_decide_false in He by done; by apply elem_of_nil in He].
      apply next_of_split in He as (l1 & l2 & E). pose proof Hn as Hn'. fold ids in Hn'. rewrite E in Hn' |- *.
      assert (forall (l : list bytes) (x : bytes) k, NoDup (l ++ x :: k) -> list_find (fun y => y = x) (l ++ x :: k) = Some (length l, x)) as Hf.
      { intros l x k Hl. apply list_find_Some. split_and!; [by rewrite lookup_app_r, Nat.sub_diag by done|done|].
        intros j y Hj Hlt ->. rewrite lookup_app_l in Hj by done. apply NoDup_app in Hl as (_ & Hl & _).
        apply (Hl x); [by eapply list_elem_of_lookup_2|by left]. }
      rewrite (Hf l1 u (v :: l2) Hn').
      change (l1 ++ u :: v :: l2) with (l1 ++ [u] ++ v :: l2) in Hn' |- *. rewrite app_assoc in Hn' |- *.
      rewrite (Hf (l1 ++ [u]) v l2 Hn'), length_app. cbn. lia.
Qed.
End Line.
