(* ===== verification/Executor.v ===== *)
(** The executor ([pkg/runtime/executor.go]): the channels between subtasks, the
    shape of the job that checkpoints record, the checkpoint a run resumes from,
    and the end of a run. *)
From S2P Require Import Prelude State Strconv Gate Writer Graph GraphSpec CheckpointFormat Storage StorageSpec.
From S2P Require Import Coordinator CoordinatorSpec Subtask.

#[export] Instance subtaskID_eq_dec : EqDecision subtaskID.
Proof. solve_decision. Defined.

#[export] Program Instance subtaskID_countable : Countable subtaskID :=
  inj_countable' (fun k => (vertexID k, index k)) (fun '(v, i) => NewSubtaskID v i) _.
Next Obligation. by intros []. Qed.

#[export] Instance VertexMeta_eq_dec : EqDecision VertexMeta.
Proof. solve_decision. Defined.

Definition checkpointKey (id : subtaskID) : SubtaskKey := MkKey (vertexID id) (index id).

(** [range n] of an [int]. *)
Definition range_int (n : Z) : list Z := seqZ 0 n.

Section Executor.
Context {Src Op Snk : Type}.
Abbreviation Vertex := (Vertex Src Op Snk).
Abbreviation Graph := (Graph Src Op Snk).

(** * Wiring

    The channels made so far, in the order they are made; a channel is the
    position it was made at. *)
Record wiring := MkWiring {
  chans : list Channel;
  inputs : gmap subtaskID (list nat);
  outputs : gmap subtaskID (list (list nat));
}.

Definition inputs_of (w : wiring) (id : subtaskID) : list nat := default [] (inputs w !! id).
Definition outputs_of (w : wiring) (id : subtaskID) : list (list nat) := default [] (outputs w !! id).

(** One channel, to a consumer. *)
Definition wire_channel (consumer : subtaskID) (w : wiring) : nat * wiring :=
  let ch := length (chans w) in
  (ch, MkWiring (chans w ++ [NewChannel DefaultCapacity])
         (<[consumer := inputs_of w consumer ++ [ch]]> (inputs w)) (outputs w)).

(** One group: a producer's channels to the subtasks of one vertex. *)
Definition wire_group (toID : bytes) (parallelism : Z) (w : wiring) (producer : subtaskID) : wiring :=
  let '(group, w) :=
    foldl (fun '(group, w) j =>
      let '(ch, w) := wire_channel (NewSubtaskID toID j) w in (group ++ [ch], w))
      ([], w) (range_int parallelism) in
  MkWiring (chans w) (inputs w) (<[producer := outputs_of w producer ++ [group]]> (outputs w)).

(** [byID] of a vertex the order does not hold is the zero vertex. *)
Definition parallelism_of (byID : gmap bytes Vertex) (id : bytes) : Z :=
  match byID !! id with Some v => Graph.Parallelism v | None => 0 end.

Definition wire (g : Graph) (order : list Vertex) : wiring :=
  let byID := list_to_map (reverse ((fun v => (Graph.ID v, v)) <$> order)) in
  foldl (fun w from =>
    foldl (fun w toID =>
      foldl (fun w i => wire_group toID (parallelism_of byID toID) w (NewSubtaskID (Graph.ID from) i))
        w (range_int (Graph.Parallelism from)))
      w (Downstream g (Graph.ID from)))
    (MkWiring [] ∅ ∅) order.

(** * The shape of the job *)

Definition meta_le (a b : VertexMeta) : Prop := bytes_le (CheckpointFormat.ID a) (CheckpointFormat.ID b).
#[export] Instance meta_le_dec : RelDecision meta_le.
Proof. intros a b. unfold meta_le. apply _. Defined.

(** [count] is what a made source says of its length, if it can. *)
Definition vertexMeta (count : Src -> option Z) (v : Vertex) : VertexMeta :=
  CheckpointFormat.MkVertex (Graph.ID v) (Graph.Parallelism v)
    (if bool_decide (Kind v = VertexSource) then
       match NewSource v with
       | Some src => default 0 (count src)
       | None => 0
       end
     else 0).

Definition buildMetadata (count : Src -> option Z) (order : list Vertex) (seed : Z) : Metadata :=
  MkMeta (merge_sort meta_le (vertexMeta count <$> order)) seed.

(** * The checkpoint a run resumes from *)

Inductive restore_error :=
| errNoRestorePoint
| ErrLoad (e : storage_error Empty_set)
| ErrShape (id : Z) (e : format_error).

(** No root: the run starts afresh. *)
Definition loadRestorePoint (root : bytes) (im : image) (meta : Metadata)
    : result restore_error (gmap SubtaskKey bytes * Z) :=
  if bool_decide (root = []) then Ok (∅, 0)
  else
    match Latest root im with
    | None => Err errNoRestorePoint
    | Some id =>
        match Load root id im with
        | Err e => Err (ErrLoad e)
        | Ok (recorded, payloads) =>
            match CheckAgainst recorded meta with
            | Err e => Err (ErrShape id e)
            | Ok _ => Ok (payloads, id)
            end
        end
    end.

(** What a subtask is given to restore: nothing, or its payload and the
    checkpoint. *)
Definition restore_for (restored : gmap SubtaskKey bytes * Z) (id : subtaskID) : option (bytes * Z) :=
  match restored.1 !! checkpointKey id with
  | Some payload => Some (payload, restored.2)
  | None => None
  end.
End Executor.

(** * The end of a run

    [W] is what the sinks share. *)
Section Finish.
Context {W TE : Type}.

(** [commitFinalEpochs]: of each sink opened, its [CommitFinalEpoch] if it has
    one; the first to fail ends it. *)
Definition commitFinalEpochs (opened : list (option (M TE W unit))) : M TE W unit :=
  for_each (fun f => match f with Some commit => commit | None => mret tt end) opened.

(** [errs] is what the subtasks reported, the first first. *)
Definition finish_run {RE} (errs : list RE) (opened : list (option (M TE W unit))) : M (RE + TE) W unit := fun w =>
  match errs with
  | e :: _ => (Err (inl e), w)
  | [] => let '(res, w) := commitFinalEpochs opened w in (wrap_err inr res, w)
  end.
End Finish.

(** * A run *)

Record Options := MkOptions {
  CheckpointRoot : bytes;
  RestoreFrom : bytes;
  opt_Seed : Z;
}.

Inductive run_error (RE TE : Type) :=
| RunGraph (e : graph_error)
| RunRestore (e : restore_error)
| RunTask (e : RE)
| RunFinal (e : TE).
Arguments RunGraph {RE TE}.
Arguments RunRestore {RE TE}.
Arguments RunTask {RE TE}.
Arguments RunFinal {RE TE}.

Section Run.
Context {Src Op Snk W RE TE : Type} (count : Src -> option Z).

(** What the subtasks do between the start of the first and the return of the
    last: given the metadata of the coordinator if there is one, the channels
    and what each restores, the errors they report and the sinks they open. *)
Definition execution : Type :=
  option Metadata -> wiring -> (subtaskID -> option (bytes * Z)) -> W -> (list RE * list (option (M TE W unit))) * W.

Definition run_tasks (execute : execution) (opts : Options) (meta : Metadata) (w : wiring)
    (restored : gmap SubtaskKey bytes * Z) : M (run_error RE TE) W unit := fun world =>
  let coordinator := if bool_decide (CheckpointRoot opts = []) then None else Some meta in
  let '((errs, opened), world) := execute coordinator w (restore_for restored) world in
  let '(res, world) := finish_run errs opened world in
  (wrap_err (fun e => match e with inl e => RunTask e | inr e => RunFinal e end) res, world).

Definition RunWithOptions (g : Graph Src Op Snk) (opts : Options) (im : image) (execute : execution)
    : M (run_error RE TE) W unit := fun world =>
  match TopoOrder g with
  | Err e => (Err (RunGraph e), world)
  | Ok order =>
      let meta := buildMetadata count order (opt_Seed opts) in
      match loadRestorePoint (RestoreFrom opts) im meta with
      | Err e => (Err (RunRestore e), world)
      | Ok restored => run_tasks execute opts meta (wire g order) restored world
      end
  end.

(** [Run]: no checkpoints and no restore. *)
Definition Run (g : Graph Src Op Snk) (im : image) (execute : execution) : M (run_error RE TE) W unit :=
  RunWithOptions g (MkOptions [] [] 0) im execute.
End Run.

(** * Wiring *)

Lemma foldl_bind {A B C} (f : A -> C -> A) (h : B -> list C) (l : list B) a :
  foldl f a (l ≫= h) = foldl (fun a x => foldl f a (h x)) a l.
Proof.
  revert a. induction l as [|x l IH]; intros a; [done|]. cbn. rewrite foldl_app. apply IH.
Qed.

(** The positions of [c] among the second components. *)
Definition positions {A B} `{EqDecision B} (c : B) (l : list (A * B)) : list nat :=
  omap (fun '(k, e) => if decide (e.2 = c) then Some k else None) (imap pair l).

Lemma positions_snoc {A B} `{EqDecision B} (c : B) (l : list (A * B)) e :
  positions c (l ++ [e]) = positions c l ++ (if decide (e.2 = c) then [length l] else []).
Proof.
  unfold positions. rewrite imap_app, omap_app. f_equal. cbn. rewrite Nat.add_0_r. by case_decide.
Qed.

Lemma elem_of_positions {A B} `{EqDecision B} (c : B) (l : list (A * B)) k :
  k ∈ positions c l <-> exists a, l !! k = Some (a, c).
Proof.
  unfold positions. rewrite list_elem_of_omap. split.
  - intros ([k' [a b]] & Hin & E). apply list_elem_of_lookup in Hin as [i Hi].
    rewrite list_lookup_imap in Hi. destruct (l !! i) eqn:El; [|done]. injection Hi as <- ->.
    cbn in E. case_decide; [|done]. injection E as <-. subst. eauto.
  - intros [a Ha]. exists (k, (a, c)). split; [|cbn; by rewrite decide_True].
    apply list_elem_of_lookup. exists k. by rewrite list_lookup_imap, Ha.
Qed.

Lemma Forall2_both {A B} (P R : A -> B -> Prop) (Q : A -> Prop) l k :
  Forall2 P l k -> Forall Q l -> (forall x y, P x y -> Q x -> R x y) -> Forall2 R l k.
Proof. intros HP HQ HR. induction HP; inversion HQ; subst; constructor; auto. Qed.

Section Wiring.
Context {Src Op Snk : Type}.
Abbreviation Vertex := (Vertex Src Op Snk).
Abbreviation Graph := (Graph Src Op Snk).

(** The groups in the order they are made: an upstream vertex, a downstream one
    and the index of the producer. *)
Definition group_list (g : Graph) (order : list Vertex) : list (bytes * bytes * Z) :=
  order ≫= fun from => Downstream g (Graph.ID from) ≫= fun toID =>
    (fun i => (Graph.ID from, toID, i)) <$> range_int (Graph.Parallelism from).

(** The channels of a group, by their ends. *)
Definition ends_of (par : bytes -> Z) (t : bytes * bytes * Z) : list (subtaskID * subtaskID) :=
  (fun j => (NewSubtaskID t.1.1 t.2, NewSubtaskID t.1.2 j)) <$> range_int (par t.1.2).

Definition ends_list (par : bytes -> Z) (l : list (bytes * bytes * Z)) : list (subtaskID * subtaskID) := l ≫= ends_of par.

Definition channel_ends (g : Graph) (order : list Vertex) : list (subtaskID * subtaskID) :=
  ends_list (parallelism_of (list_to_map (reverse ((fun v => (Graph.ID v, v)) <$> order)))) (group_list g order).

Lemma wire_groups (g : Graph) order :
  wire g order =
  foldl (fun w t => wire_group t.1.2
      (parallelism_of (list_to_map (M := gmap bytes Vertex) (reverse ((fun v => (Graph.ID v, v)) <$> order))) t.1.2)
      w (NewSubtaskID t.1.1 t.2))
    (MkWiring [] ∅ ∅) (group_list g order).
Proof.
  unfold wire, group_list. set (par := parallelism_of _). clearbody par.
  generalize (MkWiring [] ∅ ∅). intros w. rewrite foldl_bind. revert w.
  rename order into l. induction l as [|from l IH]; intros w; [done|]. cbn [foldl].
  rewrite IH. f_equal. rewrite foldl_bind. revert w.
  induction (Downstream g (Graph.ID from)) as [|v vs IHv]; intros w; [done|]. cbn [foldl].
  rewrite IHv. f_equal. by rewrite foldl_fmap.
Qed.

(** A producer's group to a downstream vertex. *)
Definition group_ok (par : bytes -> Z) (ends : list (subtaskID * subtaskID)) (p : subtaskID) (v : bytes) (group : list nat) : Prop :=
  length group = Z.to_nat (par v) /\
  forall j k, group !! j = Some k -> ends !! k = Some (p, NewSubtaskID v (Z.of_nat j)).

Definition groups_from (p : subtaskID) (done : list (bytes * bytes * Z)) : list bytes :=
  omap (fun t => if decide (NewSubtaskID t.1.1 t.2 = p) then Some t.1.2 else None) done.

Record wired (par : bytes -> Z) (done : list (bytes * bytes * Z)) (w : wiring) : Prop := {
  wd_chans : chans w = replicate (length (ends_list par done)) (NewChannel DefaultCapacity);
  wd_inputs (c : subtaskID) : inputs_of w c = positions (A := subtaskID) c (ends_list par done);
  wd_outputs (p : subtaskID) : Forall2 (group_ok par (ends_list par done) p) (groups_from p done) (outputs_of w p);
}.

(** The channels of one group. *)
Lemma wire_channels p toID js group w ends :
  chans w = replicate (length ends) (NewChannel DefaultCapacity) ->
  (forall c, inputs_of w c = positions (A := subtaskID) c ends) ->
  exists w', foldl (fun '(group, w) j =>
      let '(ch, w) := wire_channel (NewSubtaskID toID j) w in (group ++ [ch], w)) (group, w) js =
      (group ++ seq (length ends) (length js), w') /\
    let ends' := ends ++ ((fun j => (p, NewSubtaskID toID j)) <$> js) in
    chans w' = replicate (length ends') (NewChannel DefaultCapacity) /\
    (forall c, inputs_of w' c = positions (A := subtaskID) c ends') /\ outputs w' = outputs w.
Proof.
  revert group w ends. induction js as [|j js IH]; intros group w ends Hc Hi.
  { exists w. cbn. rewrite !app_nil_r. by split_and!. }
  cbn [foldl]. set (w1 := (wire_channel (NewSubtaskID toID j) w).2).
  change (let '(ch, w0) := wire_channel (NewSubtaskID toID j) w in (group ++ [ch], w0))
    with (group ++ [length (chans w)], w1).
  destruct (IH (group ++ [length (chans w)]) w1 (ends ++ [(p, NewSubtaskID toID j)])) as (w' & E & Hc' & Hi' & Ho').
  - subst w1. cbn. rewrite Hc, length_app, replicate_add. done.
  - intros c. rewrite positions_snoc. subst w1. unfold inputs_of at 1. cbn [wire_channel inputs snd].
    case_decide as Hd.
    + subst c. rewrite lookup_insert_eq. cbn. by rewrite Hi, Hc, length_replicate.
    + rewrite lookup_insert_ne by done. rewrite app_nil_r. apply Hi.
  - exists w'. rewrite <- !app_assoc in Hc'. split_and!; [|done|intros c; by rewrite Hi', <- app_assoc|done].
    rewrite E, Hc, length_replicate, length_app, <- app_assoc. cbn. do 4 f_equal. lia.
Qed.

Lemma groups_from_app p l k : groups_from p (l ++ k) = groups_from p l ++ groups_from p k.
Proof. apply omap_app. Qed.

Lemma groups_from_snoc p done t :
  groups_from p (done ++ [t]) =
    groups_from p done ++ (if decide (NewSubtaskID t.1.1 t.2 = p) then [t.1.2] else []).
Proof. rewrite groups_from_app. f_equal. cbn. by case_decide. Qed.

Lemma group_ok_more par ends more p v group : group_ok par ends p v group -> group_ok par (ends ++ more) p v group.
Proof. intros [Hl Hg]. split; [done|]. intros j k Hj. by apply lookup_app_l_Some, Hg. Qed.

Lemma wired_group par done w t :
  wired par done w -> wired par (done ++ [t]) (wire_group t.1.2 (par t.1.2) w (NewSubtaskID t.1.1 t.2)).
Proof.
  intros [Hc Hi Ho]. unfold wire_group. set (p := NewSubtaskID t.1.1 t.2).
  destruct (wire_channels p t.1.2 (range_int (par t.1.2)) [] w _ Hc Hi) as (w' & -> & Hc' & Hi' & Ho').
  assert (ends_list par (done ++ [t]) = ends_list par done ++
    ((fun j => (p, NewSubtaskID t.1.2 j)) <$> range_int (par t.1.2))) as Ee.
  { unfold ends_list. rewrite bind_app. cbn. by rewrite app_nil_r. }
  split; rewrite Ee; [done|done|]. intros q. rewrite groups_from_snoc. fold p.
  assert (Forall2 (group_ok par ((ends_list par done) ++ ((fun j => (p, NewSubtaskID t.1.2 j)) <$> range_int (par t.1.2))) q)
    (groups_from q done) (outputs_of w q)) as Hq.
  { eapply Forall2_impl; [apply Ho|]. intros. by apply group_ok_more. }
  unfold outputs_of in *. cbn [outputs]. case_decide as Hd.
  - subst q. rewrite lookup_insert_eq. rewrite Ho'. cbn. apply Forall2_app; [done|]. constructor; [|done].
    unfold range_int. split; [by rewrite length_seq, length_seqZ|]. intros j k [-> Hj]%lookup_seq.
    rewrite lookup_app_r by lia. rewrite length_seqZ in Hj. rewrite list_lookup_fmap, lookup_seqZ_lt by lia.
    cbn. do 3 f_equal. lia.
  - rewrite lookup_insert_ne by done. by rewrite Ho', app_nil_r.
Qed.

Lemma wire_wired (g : Graph) order :
  let par := parallelism_of (list_to_map (M := gmap bytes Vertex) (reverse ((fun v => (Graph.ID v, v)) <$> order))) in
  wired par (group_list g order) (wire g order).
Proof.
  intros par. rewrite wire_groups. fold par. induction (group_list g order) as [|t done IH] using rev_ind.
  - split; [done|done|]. intros p. constructor.
  - rewrite foldl_snoc. by apply wired_group.
Qed.

Lemma positions_sorted {A B} `{EqDecision B} (c : B) (l : list (A * B)) : StronglySorted lt (positions c l).
Proof.
  induction l as [|e l IH] using rev_ind; [constructor|]. rewrite positions_snoc. case_decide; [|by rewrite app_nil_r].
  apply StronglySorted_app_2; [|done|by repeat constructor].
  intros k k' (a & Ha)%elem_of_positions ->%list_elem_of_singleton. by eapply lookup_lt_Some.
Qed.

(** ** Over a graph that is executed *)

Section Order.
Context (g : Graph) (order : list Vertex) (Hg : built g) (Ho : TopoOrder g = Ok order).

Abbreviation par := (parallelism_of (list_to_map (M := gmap bytes Vertex) (reverse ((fun v => (Graph.ID v, v)) <$> order)))).

Lemma order_ids : NoDup (Graph.ID <$> order) /\
  forall id v, byID g !! id = Some v <-> v ∈ order /\ Graph.ID v = id.
Proof.
  destruct (TopoOrder_spec g order Hg Ho) as (Hp & Hv & _). split; [rewrite Hp; apply NoDup_sorted_keys|].
  intros id v. split; [|intros [Hin <-]; by apply Hv]. intros E.
  assert (id ∈ Graph.ID <$> order) as (w & -> & Hw)%list_elem_of_fmap.
  { rewrite Hp. apply elem_of_sorted_keys. eauto. }
  rewrite (Hv w Hw) in E. by injection E as ->.
Qed.

Lemma par_spec id v : byID g !! id = Some v -> par id = Graph.Parallelism v.
Proof.
  intros [Hin <-]%(proj2 order_ids). unfold parallelism_of.
  rewrite (elem_of_list_to_map_1 _ (Graph.ID v) v); [done|..].
  - rewrite reverse_Permutation, <- list_fmap_compose. apply order_ids.
  - apply elem_of_reverse, list_elem_of_fmap. by exists v.
Qed.

Lemma in_Downstream u v : v ∈ Downstream g u <-> edge g u v.
Proof. unfold Downstream. by rewrite merge_sort_Permutation. Qed.

Lemma elem_of_group_list u v i :
  (u, v, i) ∈ group_list g order <->
  exists x, byID g !! u = Some x /\ edge g u v /\ 0 <= i < Graph.Parallelism x.
Proof.
  unfold group_list. rewrite list_elem_of_bind. split.
  - intros (x & (to & (j & [= -> -> ->] & Hj)%list_elem_of_fmap & Hto)%list_elem_of_bind & Hx).
    exists x. split; [by apply order_ids|]. split; [by apply in_Downstream|].
    unfold range_int in Hj. rewrite elem_of_seqZ in Hj. lia.
  - intros (x & [Hx <-]%(proj2 order_ids) & He & Hi). exists x. split; [|done].
    apply list_elem_of_bind. exists v. split; [|by apply in_Downstream].
    apply list_elem_of_fmap. exists i. split; [done|]. unfold range_int. rewrite elem_of_seqZ. lia.
Qed.

Lemma NoDup_range n : NoDup (range_int n).
Proof. apply NoDup_seqZ. Qed.

Lemma NoDup_group_list : NoDup (group_list g order).
Proof.
  unfold group_list. destruct order_ids as [Hnd _]. apply NoDup_fmap_1 in Hnd as Hnd'.
  apply NoDup_bind; [|intros from _; apply NoDup_bind|done].
  - intros x y [[u v] i] Hx Hy (? & (? & [= -> -> ->] & _)%list_elem_of_fmap & _)%list_elem_of_bind
      (? & (? & [= Eu _ _] & _)%list_elem_of_fmap & _)%list_elem_of_bind.
    assert (byID g !! Graph.ID x = Some x) as E1 by by apply order_ids.
    assert (byID g !! Graph.ID x = Some y) as E2 by by apply order_ids. congruence.
  - intros v v' [[a b] i] _ _ (? & [= -> -> ->] & _)%list_elem_of_fmap (? & [= ->] & _)%list_elem_of_fmap. done.
  - intros v _. apply NoDup_fmap_2, NoDup_range. by intros ?? [= ->].
  - by apply NoDup_Downstream, built_consistent.
Qed.

Lemma elem_of_channel_ends p c :
  (p, c) ∈ channel_ends g order <->
  exists u v, byID g !! vertexID p = Some u /\ byID g !! vertexID c = Some v /\
    edge g (vertexID p) (vertexID c) /\
    0 <= index p < Graph.Parallelism u /\ 0 <= index c < Graph.Parallelism v.
Proof.
  unfold channel_ends, ends_list. rewrite list_elem_of_bind. split.
  - intros ([[u v] i] & (j & [= -> ->] & Hj)%list_elem_of_fmap & (x & Hx & He & Hi)%elem_of_group_list). cbn in *.
    destruct (c_to g (built_consistent g Hg) _ _ He) as [y Hy]. rewrite (par_spec _ _ Hy) in Hj.
    unfold range_int in Hj. rewrite elem_of_seqZ in Hj. exists x, y. split_and!; done || lia.
  - intros (u & v & Hu & Hv & He & Hi & Hj). destruct p as [p i], c as [c j]. cbn in *.
    exists (p, c, i). split; [|apply elem_of_group_list; eauto].
    apply list_elem_of_fmap. exists j. split; [done|]. cbn. rewrite (par_spec _ _ Hv). unfold range_int.
    rewrite elem_of_seqZ. lia.
Qed.

Lemma NoDup_channel_ends : NoDup (channel_ends g order).
Proof.
  apply NoDup_bind; [| |apply NoDup_group_list].
  - intros [[u v] i] [[u' v'] i'] [p c] _ _ (? & [= -> ->] & _)%list_elem_of_fmap (? & [= -> -> ->] & _)%list_elem_of_fmap. done.
  - intros t _. apply NoDup_fmap_2, NoDup_range. by intros ?? [= ->].
Qed.

(** The groups of a producer among those of one vertex. *)
Lemma groups_of_edge id i u v ks :
  NoDup ks -> groups_from (NewSubtaskID id i) ((fun k => (u, v, k)) <$> ks) =
    if decide (u = id /\ i ∈ ks) then [v] else [].
Proof.
  unfold groups_from. induction ks as [|k ks IH]; intros Hnd.
  { rewrite decide_False; [done|]. by intros [_ ?%elem_of_nil]. }
  apply NoDup_cons in Hnd as [Hk Hnd]. cbn. specialize (IH Hnd). cbn in IH. rewrite IH.
  destruct (decide (NewSubtaskID u k = NewSubtaskID id i)) as [[= -> ->]|Hne].
  - rewrite decide_False by tauto. rewrite decide_True; [done|]. split; [done|by left].
  - assert (~ (u = id /\ i = k)) by (intros [-> ->]; done).
    destruct (decide (u = id /\ i ∈ ks)); [rewrite decide_True|rewrite decide_False]; rewrite ?elem_of_cons; tauto.
Qed.

Lemma groups_of_vertex id i (x : Vertex) vs :
  groups_from (NewSubtaskID id i) (vs ≫= fun v => (fun k => (Graph.ID x, v, k)) <$> range_int (Graph.Parallelism x)) =
    if decide (Graph.ID x = id /\ i ∈ range_int (Graph.Parallelism x)) then vs else [].
Proof.
  induction vs as [|v vs IH]; [by case_decide|]. cbn [mbind list_bind].
  rewrite groups_from_app, IH, (groups_of_edge id i (Graph.ID x) v) by apply NoDup_range. by case_decide.
Qed.

(** A producer has a group for each vertex downstream of it. *)
Lemma groups_from_downstream p u :
  byID g !! vertexID p = Some u -> 0 <= index p < Graph.Parallelism u ->
  groups_from p (group_list g order) = Downstream g (vertexID p).
Proof.
  destruct p as [id i]. cbn. intros Hu Hi. destruct (proj1 (proj2 order_ids id u) Hu) as [Hin Eu].
  assert (i ∈ range_int (Graph.Parallelism u)) as Hr by (unfold range_int; rewrite elem_of_seqZ; lia).
  apply list_elem_of_split in Hin as (l1 & l2 & E).
  pose proof (proj1 order_ids) as Hnd. rewrite E, fmap_app, fmap_cons, Eu in Hnd.
  apply NoDup_app in Hnd as (_ & H1 & [H2 _]%NoDup_cons).
  assert (forall l : list Vertex, id ∉ Graph.ID <$> l -> groups_from (NewSubtaskID id i) (group_list g l) = []) as Hnone.
  { intros l. induction l as [|x l IH]; intros Hx; [done|]. rewrite fmap_cons, not_elem_of_cons in Hx.
    unfold group_list in *. cbn [mbind list_bind]. rewrite groups_from_app, IH by tauto.
    rewrite groups_of_vertex, decide_False by naive_solver. done. }
  rewrite E. unfold group_list in *. rewrite bind_app. cbn [mbind list_bind]. rewrite !groups_from_app.
  rewrite (Hnone l1), (Hnone l2); [|done|intros Hx; by apply (H1 id Hx); left].
  rewrite groups_of_vertex, Eu, decide_True by done. by rewrite app_nil_r.
Qed.

End Order.

Lemma wire_outputs (g : Graph) order p u :
  built g -> TopoOrder g = Ok order -> byID g !! vertexID p = Some u -> 0 <= index p < Graph.Parallelism u ->
  Forall2 (fun v group => exists x, byID g !! v = Some x /\ length group = Z.to_nat (Graph.Parallelism x) /\
      forall j k, group !! j = Some k -> channel_ends g order !! k = Some (p, NewSubtaskID v (Z.of_nat j)))
    (Downstream g (vertexID p)) (outputs_of (wire g order) p).
Proof.
  intros Hg Ho Hu Hr. rewrite <- (groups_from_downstream g order Hg Ho p u Hu Hr).
  eapply Forall2_both; [apply (wire_wired g order)| |].
  - apply Forall_forall. intros v Hv. rewrite (groups_from_downstream g order Hg Ho p u Hu Hr) in Hv.
    apply in_Downstream in Hv. exact (c_to g (built_consistent g Hg) _ _ Hv).
  - intros v group [Hl Hgr] [x Hx]. exists x. rewrite (par_spec g order Hg Ho _ _ Hx) in Hl. done.
Qed.

(** C29. The channels of a job: [ends] gives each channel's producer and
    consumer. There is exactly one between two subtasks whose vertices an edge
    joins, and no other; a subtask's inputs are the channels it consumes, and
    its outputs have one group per vertex downstream of it, in that order, whose
    [j]-th channel leads to subtask [j]. *)
Theorem wire_connects (g : Graph) order :
  built g -> TopoOrder g = Ok order ->
  let w := wire g order in
  exists ends, NoDup ends /\ chans w = replicate (length ends) (NewChannel DefaultCapacity) /\
    (forall p c, (p, c) ∈ ends <-> exists u v, byID g !! vertexID p = Some u /\ byID g !! vertexID c = Some v /\
       edge g (vertexID p) (vertexID c) /\
       0 <= index p < Graph.Parallelism u /\ 0 <= index c < Graph.Parallelism v) /\
    (forall c, StronglySorted lt (inputs_of w c) /\
       forall k, k ∈ inputs_of w c <-> exists p, ends !! k = Some (p, c)) /\
    (forall p u, byID g !! vertexID p = Some u -> 0 <= index p < Graph.Parallelism u ->
       Forall2 (fun v group => exists x, byID g !! v = Some x /\ length group = Z.to_nat (Graph.Parallelism x) /\
           forall j k, group !! j = Some k -> ends !! k = Some (p, NewSubtaskID v (Z.of_nat j)))
         (Downstream g (vertexID p)) (outputs_of w p)).
Proof.
  intros Hg Ho w. destruct (wire_wired g order) as [Hc Hi Hout]. fold w in Hc, Hi, Hout.
  exists (channel_ends g order). split_and!.
  - by apply NoDup_channel_ends.
  - exact Hc.
  - intros p c. by apply elem_of_channel_ends.
  - intros c. rewrite Hi. split; [apply positions_sorted|]. intros k. apply elem_of_positions.
  - intros p u Hu Hr. by apply wire_outputs with u.
Qed.
End Wiring.

(** * The shape of the job *)

(** One vertex, compared. *)
Lemma check_vertices_ok i got want :
  length got = length want -> is_ok (check_vertices i got want) = bool_decide (got = want).
Proof.
  revert i want. induction got as [|[a b c] got IH]; intros i [|[a' b' c'] want] Hl; try done.
  cbn. destruct (bool_decide_reflect (a = a')) as [->|Ha]; cbn; [|rewrite bool_decide_false; congruence].
  destruct (Z.eqb_spec b b') as [->|Hb]; cbn; [|rewrite bool_decide_false; congruence].
  destruct (Z.eqb_spec c c') as [->|Hc]; cbn; [|rewrite bool_decide_false; congruence].
  rewrite IH by by injection Hl. apply bool_decide_ext. split; [by intros ->|congruence].
Qed.

Lemma CheckAgainst_ok m want : is_ok (CheckAgainst m want) = bool_decide (Vertices m = Vertices want).
Proof.
  unfold CheckAgainst. destruct (Nat.eqb_spec (length (Vertices m)) (length (Vertices want))) as [Hl|Hl]; cbn.
  - by apply check_vertices_ok.
  - rewrite bool_decide_false; [done|]. congruence.
Qed.

#[export] Instance meta_le_trans : Transitive meta_le.
Proof. intros a b c. unfold meta_le. apply transitivity. Qed.
#[export] Instance meta_le_total : Total meta_le.
Proof. intros a b. unfold meta_le. apply total. apply _. Qed.

Section Metadata.
Context {Src Op Snk : Type} (count : Src -> option Z).
Abbreviation Vertex := (Vertex Src Op Snk).

(** The metadata is a function of the vertices, whatever their order. *)
Lemma buildMetadata_perm (l k : list Vertex) seed :
  NoDup (Graph.ID <$> l) -> l ≡ₚ k -> buildMetadata count l seed = buildMetadata count k seed.
Proof.
  intros Hnd Hp. unfold buildMetadata. f_equal.
  apply (StronglySorted_unique_strong meta_le); [|apply (StronglySorted_merge_sort meta_le)..|by rewrite !merge_sort_Permutation, Hp].
  intros a b. rewrite !merge_sort_Permutation, !list_elem_of_fmap.
  intros (x & -> & Hx) (y & -> & Hy) Hab Hba. cbn in *.
  assert (Graph.ID x = Graph.ID y) as E by (by apply (anti_symm bytes_le)).
  f_equal. rewrite <- Hp in Hy. apply list_elem_of_lookup in Hx as [i Hi], Hy as [j Hj].
  assert (i = j) as ->; [|congruence].
  apply (NoDup_lookup _ i j (Graph.ID x) Hnd);
    rewrite list_lookup_fmap; [by rewrite Hi|rewrite Hj; cbn; by rewrite E].
Qed.

Lemma elem_of_Subtasks_build (order : list Vertex) seed id :
  checkpointKey id ∈ Subtasks (buildMetadata count order seed) <->
  exists v, v ∈ order /\ Graph.ID v = vertexID id /\ 0 <= index id < Graph.Parallelism v.
Proof.
  unfold Subtasks. rewrite list_elem_of_bind. cbn [buildMetadata Vertices]. split.
  - intros (m & (i & [= -> ->] & Hi)%list_elem_of_fmap & Hm).
    rewrite merge_sort_Permutation, list_elem_of_fmap in Hm. destruct Hm as (v & -> & Hv).
    rewrite elem_of_seqZ in Hi. exists v. split_and!; [done|done|lia|cbn in Hi; lia].
  - intros (v & Hv & E & Hi). exists (vertexMeta count v). split.
    + apply list_elem_of_fmap. exists (index id). rewrite elem_of_seqZ. cbn. unfold checkpointKey.
      rewrite E. split; [done|lia].
    + rewrite merge_sort_Permutation. by apply list_elem_of_fmap_2.
Qed.
End Metadata.

(** * The restore point *)

(** The names [Latest] is shown under the root are those of checkpoint
    directories, and every directory with a marker is among them. *)
Record listing_ok (root : bytes) (im : image) : Prop := {
  lo_names entries e : im_list im root = Some entries -> e ∈ entries -> e.2 = true -> has_prefix dirPrefix e.1 = true ->
    exists id, is_i64 id /\ e.1 = dirPrefix ++ FormatInt id;
  lo_marked id : is_i64 id -> is_Some (im_files im !! marker_path root id) ->
    exists entries, im_list im root = Some entries /\ (dirPrefix ++ FormatInt id, true) ∈ entries;
}.

(** The best among the entries seen. *)
Definition best_of (root : bytes) (im : image) (seen : list (bytes * bool)) (best : option Z) : Prop :=
  (forall id, best = Some id -> is_i64 id /\ is_Some (im_files im !! marker_path root id)) /\
  (forall id, is_i64 id -> (dirPrefix ++ FormatInt id, true) ∈ seen -> is_Some (im_files im !! marker_path root id) ->
    exists b, best = Some b /\ id <= b).

Lemma has_prefix_app p s : has_prefix p (p ++ s) = true.
Proof. unfold has_prefix. apply bool_decide_true. by rewrite take_app_length. Qed.

Lemma Latest_best root im entries :
  listing_ok root im -> im_list im root = Some entries -> best_of root im entries (Latest root im).
Proof.
  intros [Hn _] E. unfold Latest. rewrite E.
  assert (forall e, e ∈ entries -> e.2 = true -> has_prefix dirPrefix e.1 = true ->
    exists id, is_i64 id /\ e.1 = dirPrefix ++ FormatInt id) as Hnames by eauto. clear Hn E.
  induction entries as [|e seen IH] using rev_ind.
  { split; [done|]. by intros ? _ ?%elem_of_nil. }
  destruct IH as [Hb Hs]; [intros e' He'; apply Hnames; set_solver|]. rewrite foldl_snoc.
  set (best := foldl _ _ seen) in *. clearbody best.
  destruct (negb e.2 || negb (has_prefix dirPrefix e.1)) eqn:Eg.
  { split; [done|]. intros id Hi [Hin|Hin%list_elem_of_singleton]%elem_of_app; [by apply Hs|].
    subst e. cbn [fst snd] in Eg. by rewrite has_prefix_app in Eg. }
  apply orb_false_iff in Eg as [E1%negb_false_iff E2%negb_false_iff].
  destruct (Hnames e) as (n & Hni & En); [set_solver|done|done|].
  rewrite En, drop_app_length, ParseInt_FormatInt by done.
  fold (dir root n) (marker_path root n).
  assert (forall id, is_i64 id -> (dirPrefix ++ FormatInt id, true) ∈ [e] -> id = n) as Hone.
  { intros id Hi Hin%list_elem_of_singleton. subst e. cbn [fst] in En. apply app_inv_head in En.
    by apply FormatInt_inj. }
  destruct (im_files im !! marker_path root n) as [x|] eqn:Ex; cycle 1.
  { split; [done|]. intros id Hi [Hin|Hin]%elem_of_app Hm; [by apply Hs|]. rewrite (Hone id Hi Hin), Ex in Hm.
    by destruct Hm. }
  destruct best as [b|].
  - destruct (Hb b eq_refl) as [Hbi Hbm]. destruct (Z.ltb_spec b n).
    + split; [intros id [= <-]; rewrite Ex; eauto|]. intros id Hi [Hin|Hin]%elem_of_app Hm.
      * destruct (Hs id Hi Hin Hm) as (b' & [= <-] & ?). exists n. split; [done|lia].
      * rewrite (Hone id Hi Hin). by exists n.
    + split; [done|]. intros id Hi [Hin|Hin]%elem_of_app Hm; [by apply Hs|]. rewrite (Hone id Hi Hin). by exists b.
  - split; [intros id [= <-]; rewrite Ex; eauto|]. intros id Hi [Hin|Hin]%elem_of_app Hm.
    + by destruct (Hs id Hi Hin Hm) as (b' & ? & _).
    + rewrite (Hone id Hi Hin). by exists n.
Qed.

(** The highest marker there is. *)
Definition latest_marker (root : bytes) (im : image) (id : Z) : Prop :=
  is_i64 id /\ is_Some (im_files im !! marker_path root id) /\
  forall id', is_i64 id' -> is_Some (im_files im !! marker_path root id') -> id' <= id.

Lemma Latest_spec root im :
  listing_ok root im ->
  match Latest root im with
  | Some id => latest_marker root im id
  | None => forall id, is_i64 id -> im_files im !! marker_path root id = None
  end.
Proof.
  intros Hl. destruct (im_list im root) as [entries|] eqn:E.
  - destruct (Latest_best root im entries Hl E) as [Hb Hs].
    assert (forall id, is_i64 id -> is_Some (im_files im !! marker_path root id) -> exists b, Latest root im = Some b /\ id <= b) as Hall.
    { intros id Hi Hm. destruct (lo_marked _ _ Hl id Hi Hm) as (es & Ees & Hin). rewrite E in Ees. injection Ees as <-. by apply Hs. }
    destruct (Latest root im) as [id|].
    + destruct (Hb id eq_refl) as [Hi Hm]. split_and!; [apply Hi..|done|].
      intros id' Hi' Hm'. destruct (Hall id' Hi' Hm') as (b & [= <-] & ?). done.
    + intros id Hi. apply eq_None_not_Some. intros Hm. by destruct (Hall id Hi Hm) as (? & ? & _).
  - unfold Latest. rewrite E. intros id Hi. apply eq_None_not_Some. intros Hm.
    destruct (lo_marked _ _ Hl id Hi Hm) as (es & Ees & _). congruence.
Qed.

(** C9. What a run resumes from: after any history of a job's coordinator, with
    whatever failures, and a crash, a run that restores from its root starts
    nothing if there is no marker, and nothing if the shapes of the jobs differ;
    otherwise it starts with, for every subtask of the job, a payload that
    subtask gave for the latest marked checkpoint. *)
Theorem run_resumes {Src Op Snk W RE TE} (count : Src -> option Z) (g g' : Graph Src Op Snk) order order' root seed d0 calls xs c d im
    opts (execute : execution (W := W) (RE := RE) (TE := TE)) world :
  built g -> TopoOrder g = Ok order -> TopoOrder g' = Ok order' ->
  let meta := buildMetadata count order seed in
  let meta' := buildMetadata count order' (opt_Seed opts) in
  meta_ok meta -> unmarked root d0 -> Forall well_called calls -> payloads_fit calls ->
  run_calls (H := disk_store root) calls (NewCoordinator meta, d0) = (xs, (c, d)) ->
  crash_image d (im_files im) -> listing_ok root im -> root <> [] -> RestoreFrom opts = root ->
  ((forall id, is_i64 id -> im_files im !! marker_path root id = None) /\
   RunWithOptions count g' opts im execute world = (Err (RunRestore errNoRestorePoint), world)) \/
  exists id, latest_marker root im id /\
    if bool_decide (Vertices meta = Vertices meta') then
      exists ps, RunWithOptions count g' opts im execute world =
          run_tasks execute opts meta' (wire g' order') (ps, id) world /\
        forall task v, byID g !! vertexID task = Some v -> 0 <= index task < Graph.Parallelism v ->
          exists p, restore_for (ps, id) task = Some (p, id) /\ gave calls id (checkpointKey task) p
    else exists e, RunWithOptions count g' opts im execute world = (Err (RunRestore (ErrShape id e)), world).
Proof.
  intros Hg Ho Ho' meta meta' Hm [Hs Hnm] Hw Hfit Er Hc Hl Hroot Hopt.
  unfold RunWithOptions. rewrite Ho', Hopt. fold meta'. unfold loadRestorePoint. rewrite bool_decide_false by done.
  pose proof (Latest_spec root im Hl) as Hbest. destruct (Latest root im) as [id|]; [right|by left].
  exists id. split; [done|]. destruct Hbest as (Hi & [x Hx] & _).
  pose proof (Inv_run meta (meta_ok_index meta Hm) calls d0 xs c d Hs Hnm Hw Er) as HI.
  destruct (usable_recovers root meta Hm calls c d im id HI Hi Hfit) as (ps & -> & Hps & _); [|exact Hc|eauto|].
  { left. destruct (ci_found _ _ Hc _ _ Hx) as (i & _ & Hin & _). by exists i. }
  pose proof (CheckAgainst_ok meta meta') as Hck.
  destruct (CheckAgainst meta meta') as [[]|e]; rewrite <- Hck; cbn [is_ok]; [|by exists e].
  exists ps. split; [done|]. intros task v Hv Hr.
  destruct (Hps (checkpointKey task)) as (p & Hp & Hgave).
  { apply elem_of_Subtasks_build. exists v. destruct (proj1 (proj2 (order_ids g order Hg Ho) _ _) Hv) as [? ?]. done. }
  exists p. split; [|done]. unfold restore_for. cbn. by rewrite Hp.
Qed.

(** ** A job *)

Definition demo_graph : Graph unit unit unit := build demo_vertices demo_edges.

Lemma demo_graph_order : TopoOrder demo_graph = Ok demo_order.
Proof. vm_compute. reflexivity. Defined.

Lemma wire_connects_witness :
  exists ends, NoDup ends /\ chans (wire demo_graph demo_order) = replicate (length ends) (NewChannel DefaultCapacity) /\
    (forall p c, (p, c) ∈ ends <-> exists u v, byID demo_graph !! vertexID p = Some u /\ byID demo_graph !! vertexID c = Some v /\
       edge demo_graph (vertexID p) (vertexID c) /\
       0 <= index p < Graph.Parallelism u /\ 0 <= index c < Graph.Parallelism v) /\
    (forall c, StronglySorted lt (inputs_of (wire demo_graph demo_order) c) /\
       forall k, k ∈ inputs_of (wire demo_graph demo_order) c <-> exists p, ends !! k = Some (p, c)) /\
    (forall p u, byID demo_graph !! vertexID p = Some u -> 0 <= index p < Graph.Parallelism u ->
       Forall2 (fun v group => exists x, byID demo_graph !! v = Some x /\ length group = Z.to_nat (Graph.Parallelism x) /\
           forall j k, group !! j = Some k -> ends !! k = Some (p, NewSubtaskID v (Z.of_nat j)))
         (Downstream demo_graph (vertexID p)) (outputs_of (wire demo_graph demo_order) p)).
Proof. apply (wire_connects demo_graph demo_order); [apply built_build|apply demo_graph_order]. Defined.

(** Both subtasks of a source feed both of the join. *)
Example demo_inputs :
  inputs_of (wire demo_graph demo_order) (NewSubtaskID (str "join") 1) = [1%nat; 3%nat; 5%nat; 7%nat] /\
  outputs_of (wire demo_graph demo_order) (NewSubtaskID (str "right") 0) = [[4%nat; 5%nat]].
Proof. split; vm_compute; reflexivity. Qed.

(** Every subtask of the job acknowledges checkpoint 3. *)
Definition demo_job : Metadata := buildMetadata (fun _ => Some 40) demo_order 7.
Definition all_ack : list call := (fun k => CAck in_order 3 k (str "p")) <$> Subtasks demo_job.
Definition all_acked := run_calls (H := disk_store (str "/ck")) all_ack (NewCoordinator demo_job, fresh_disk (repeat true 80)).

Definition after_crash : image :=
  MkImage (current_files all_acked.2.2)
    (fun d => if bool_decide (d = str "/ck") then Some [(dirPrefix ++ FormatInt 3, true)] else None).

Lemma after_crash_only id : is_i64 id -> is_Some (im_files after_crash !! marker_path (str "/ck") id) -> id = 3.
Proof.
  intros Hi [x Hx].
  assert (map_Forall (fun p (_ : bytes) => completeName `suffix_of` p -> p = marker_path (str "/ck") 3)
    (im_files after_crash)) as Hall.
  { refine (bool_decide_eq_true_1 _ _). vm_compute. reflexivity. }
  specialize (Hall _ _ Hx). cbn beta in Hall.
  assert (marker_path (str "/ck") id = marker_path (str "/ck") 3) as E.
  { apply Hall. exists (dir (str "/ck") id ++ [slash]). unfold marker_path, Join. by rewrite <- app_assoc. }
  apply path_inj in E as [-> _]; [done|done|by unfold_ints; lia|apply plain_complete..].
Qed.

Definition no_execution : execution (W := unit) (RE := unit) (TE := unit) := fun _ _ _ w => (([], []), w).

Lemma run_resumes_witness :
  ((forall id, is_i64 id -> im_files after_crash !! marker_path (str "/ck") id = None) /\
   RunWithOptions (fun _ => Some 40) demo_graph (MkOptions [] (str "/ck") 8) after_crash no_execution tt
     = (Err (RunRestore errNoRestorePoint), tt)) \/
  exists id, latest_marker (str "/ck") after_crash id /\
    if bool_decide (Vertices demo_job = Vertices (buildMetadata (fun _ : unit => Some 40) demo_order 8)) then
      exists ps, RunWithOptions (fun _ => Some 40) demo_graph (MkOptions [] (str "/ck") 8) after_crash no_execution tt =
          run_tasks no_execution (MkOptions [] (str "/ck") 8) (buildMetadata (fun _ : unit => Some 40) demo_order 8)
            (wire demo_graph demo_order) (ps, id) tt /\
        forall task v, byID demo_graph !! vertexID task = Some v -> 0 <= index task < Graph.Parallelism v ->
          exists p, restore_for (ps, id) task = Some (p, id) /\ gave all_ack id (checkpointKey task) p
    else exists e, RunWithOptions (fun _ => Some 40) demo_graph (MkOptions [] (str "/ck") 8) after_crash no_execution tt
      = (Err (RunRestore (ErrShape id e)), tt).
Proof.
  apply (run_resumes (fun _ => Some 40) demo_graph demo_graph demo_order demo_order (str "/ck") 7 (fresh_disk (repeat true 80))
    all_ack all_acked.1 all_acked.2.1 all_acked.2.2 after_crash (MkOptions [] (str "/ck") 8) no_execution tt).
  - apply built_build.
  - exact demo_graph_order.
  - exact demo_graph_order.
  - split_and!; [|cbn; unfold_ints; lia|vm_compute; reflexivity].
    refine (bool_decide_eq_true_1 _ _). vm_compute. reflexivity.
  - apply fresh_disk_unmarked.
  - apply Forall_fmap, Forall_true. intros k. cbn. unfold_ints. split; [lia|done].
  - apply payloads_fit_all. apply Forall_fmap, Forall_true. intros k. cbn [payload_of]. refine (proj1 (Z.leb_le _ _) _). vm_compute. reflexivity.
  - apply eta3.
  - apply crash_image_current. refine (bool_decide_eq_true_1 _ _). vm_compute. reflexivity.
  - split.
    + intros entries e. cbn. rewrite bool_decide_true by done. intros [= <-] ->%list_elem_of_singleton _ _.
      exists 3. split; [unfold_ints; lia|done].
    + intros id Hi ->%after_crash_only; [|done]. eexists. split; [cbn; by rewrite bool_decide_true|by left].
  - done.
  - done.
Defined.
