(* ===== verification/RunErrors.v ===== *)
(** The goroutines of a run ([pkg/runtime/executor.go]): one for each subtask,
    which sends the error it returns to a buffered channel and then cancels the
    others. What the subtasks compute is in the files of the subtasks; here each
    returns when it will, with an error of its own or with the context's. *)
From stdpp Require Import relations.
From S2P Require Import Prelude Gate Graph Executor.

(** * The goroutines *)

(** What is sent for a subtask that fails: a cause, or the error of a context
    that has been cancelled. *)
Inductive failure (E : Type) :=
| Own (e : E)
| ContextError.
Arguments Own {E}.
Arguments ContextError {E}.

Inductive goroutine (E : Type) :=
| Running
| Reporting (e : failure E)
| Cancelling (e : failure E)
| Returned (r : option (failure E)).
Arguments Running {E}.
Arguments Reporting {E}.
Arguments Cancelling {E}.
Arguments Returned {E}.

Record run_state (E : Type) := MkRunState {
  goroutines : list (goroutine E);
  errs : list (failure E);
  cancelled : bool;
}.
Arguments MkRunState {E}.
Arguments goroutines {E}.
Arguments errs {E}.
Arguments cancelled {E}.

Section Launch.
Context {Src Op Snk : Type}.
Implicit Types order : list (Vertex Src Op Snk).

(** [subtasks], the capacity of the channel, and the goroutines started. *)
Definition subtasks order : Z := foldl (fun n v => n + Parallelism v) 0 order.

Definition launched order : list subtaskID :=
  order ≫= fun v => NewSubtaskID (ID v) <$> range_int (Parallelism v).

Definition start {E} order : run_state E := MkRunState (replicate (length (launched order)) Running) [] false.

Lemma launched_subtasks order : Forall (fun v => 0 <= Parallelism v) order -> Z.of_nat (length (launched order)) = subtasks order.
Proof.
  unfold subtasks. assert (forall n, Forall (fun v => 0 <= Parallelism v) order ->
    n + Z.of_nat (length (launched order)) = foldl (fun n v => n + Parallelism v) n order) as H; [|intros Hp; by apply (H 0)].
  induction order as [|v order IH]; intros n Hp; [cbn; lia|]. apply Forall_cons in Hp as [Hv Hp]. cbn [foldl]. rewrite <- IH by done.
  unfold launched. rewrite bind_cons, length_app, length_fmap. unfold range_int. rewrite length_seqZ. lia.
Qed.
End Launch.

Section Steps.
Context {E : Type} (capacity : Z) (parent : Prop).

Definition set_goroutine (i : nat) (g : goroutine E) (s : run_state E) : run_state E :=
  MkRunState (<[i := g]> (goroutines s)) (errs s) (cancelled s).

(** One step of one goroutine: the subtask returns; a send that the buffer has
    room for; the cancellation. [parent] says whether the caller may cancel. *)
Inductive goroutine_step : run_state E -> run_state E -> Prop :=
| step_return i s :
    goroutines s !! i = Some Running -> goroutine_step s (set_goroutine i (Returned None) s)
| step_fail i e s :
    goroutines s !! i = Some Running -> (e = ContextError -> cancelled s = true) -> goroutine_step s (set_goroutine i (Reporting e) s)
| step_report i e s :
    goroutines s !! i = Some (Reporting e) -> Z.of_nat (length (errs s)) < capacity ->
    goroutine_step s (MkRunState (<[i := Cancelling e]> (goroutines s)) (errs s ++ [e]) (cancelled s))
| step_cancel i e s :
    goroutines s !! i = Some (Cancelling e) ->
    goroutine_step s (MkRunState (<[i := Returned (Some e)]> (goroutines s)) (errs s) true)
| step_parent s :
    parent -> goroutine_step s (MkRunState (goroutines s) (errs s) true).

(** [wg.Wait] has returned. *)
Definition all_returned (s : run_state E) : Prop := Forall (fun g => exists r, g = Returned r) (goroutines s).

(** What a goroutine has sent. *)
Definition sent (g : goroutine E) : option (failure E) :=
  match g with Cancelling e | Returned (Some e) => Some e | _ => None end.

Lemma omap_insert (l : list (goroutine E)) i x y :
  l !! i = Some x ->
  omap sent (<[i := y]> l) ≡ₚ option_list (sent y) ++ omap sent (delete i l) /\
  omap sent l ≡ₚ option_list (sent x) ++ omap sent (delete i l).
Proof.
  revert i. induction l as [|z l IH]; intros [|i] Hi; try done.
  - injection Hi as ->. cbn. split; [by destruct (sent y)|by destruct (sent x)].
  - destruct (IH i Hi) as [H1 H2]. cbn. destruct (sent z); cbn; [|done]. rewrite H1, H2.
    split; apply Permutation_middle.
Qed.

Record run_inv (n : nat) (s : run_state E) : Prop := {
  in_length : length (goroutines s) = n;
  in_sent : errs s ≡ₚ omap sent (goroutines s);
  in_cancelled : cancelled s = true -> errs s <> [] \/ parent;
  in_reporting i : ~ parent -> errs s = [] -> goroutines s !! i <> Some (Reporting ContextError);
  in_first rest : ~ parent -> errs s <> ContextError :: rest;
}.

Lemma run_inv_set n s i x y :
  goroutines s !! i = Some x -> sent x = sent y -> (y = Reporting ContextError -> cancelled s = true) ->
  run_inv n s -> run_inv n (set_goroutine i y s).
Proof.
  intros Hx Hs Hy [Hl Hp Hc Hr Hf]. split; cbn; [by rewrite length_insert| |done| |done].
  - destruct (omap_insert _ i x y Hx) as [-> H2]. by rewrite <- Hs, Hp, H2.
  - intros j Hn He Hj. destruct (decide (i = j)) as [<-|Hne].
    + rewrite list_lookup_insert_eq in Hj by (by eapply lookup_lt_Some). injection Hj as Hj.
      by destruct (Hc (Hy Hj)).
    + rewrite list_lookup_insert_ne in Hj by done. by eapply Hr.
Qed.

Lemma run_inv_step n s s' : goroutine_step s s' -> run_inv n s -> run_inv n s'.
Proof.
  intros Hstep Hinv. destruct Hstep as [i s Hi|i e s Hi He|i e s Hi Hcap|i e s Hi|s Hpar].
  - by eapply run_inv_set.
  - eapply run_inv_set; [done|done| |done]. intros [= ->]. by apply He.
  - destruct Hinv as [Hl Hp Hc Hr Hf]. split; cbn; [by rewrite length_insert| |intros _; left; by destruct (errs s)| |].
    + destruct (omap_insert _ i _ (Cancelling e) Hi) as [-> H2]. rewrite Hp, H2. cbn. symmetry. apply Permutation_cons_append.
    + by destruct (errs s).
    + intros rest Hn. destruct (errs s) as [|x l] eqn:Ex; cbn.
      * intros [= -> _]. by apply (Hr i Hn).
      * intros [= -> _]. by apply (Hf l Hn).
  - pose proof (run_inv_set n s i _ (Returned (Some e)) Hi eq_refl ltac:(done) Hinv) as [Hl Hp Hc Hr Hf].
    split; cbn in *; [done|done| |done|done]. intros _. left. intros E0. rewrite E0 in Hp.
    apply Permutation_nil_l in Hp. destruct (omap_insert _ i _ (Returned (Some e)) Hi) as [H1 _]. rewrite <- Hp in H1.
    by apply Permutation_nil_l in H1.
  - destruct Hinv as [Hl Hp Hc Hr Hf]. split; cbn; [done|done|by right|done|done].
Qed.

(** A goroutine about to send has not sent yet, so there is room. *)
Lemma run_inv_room n s i e :
  run_inv n s -> goroutines s !! i = Some (Reporting e) -> (length (errs s) < n)%nat.
Proof.
  intros [Hl Hp _ _ _] Hi. rewrite Hp, (proj2 (omap_insert _ i _ Running Hi)). cbn.
  assert (length (omap sent (delete i (goroutines s))) <= length (delete i (goroutines s)))%nat as Hle.
  { generalize (delete i (goroutines s)). intros l. induction l as [|x l IH]; [done|]. cbn. destruct (sent x); cbn; lia. }
  assert (i < length (goroutines s))%nat by (by eapply lookup_lt_Some). rewrite length_delete in Hle by done. lia.
Qed.
End Steps.

(** C30. A run reports a cause. However the goroutines of a job are scheduled, one
    that has failed always finds room in the channel, so none that has a step
    left is blocked on reporting; when all have returned the channel holds what
    they returned; and unless the caller cancelled, the first error in it, which
    the run reports without committing anything, is one a subtask failed with of
    its own, never the context's error, and there is none when no subtask failed. *)
Theorem run_reports_cause {Src Op Snk E : Type} (order : list (Vertex Src Op Snk)) (parent : Prop) (s : run_state E) :
  Forall (fun v => 0 <= Parallelism v) order -> rtc (goroutine_step (subtasks order) parent) (start order) s ->
  (forall i e, goroutines s !! i = Some (Reporting e) -> exists s', goroutine_step (subtasks order) parent s s' /\ goroutines s' !! i = Some (Cancelling e)) /\
  (all_returned s -> errs s ≡ₚ omap sent (goroutines s)) /\
  (~ parent -> all_returned s ->
    match errs s with
    | [] => Forall (fun g => g = Returned None) (goroutines s)
    | e :: _ => exists c, e = Own c /\ Returned (Some e) ∈ goroutines s /\
        forall W TE (opened : list (option (M TE W unit))) w, finish_run (errs s) opened w = (Err (inl e), w)
    end).
Proof.
  intros Hp Hrun. assert (run_inv parent (length (launched order)) s) as Hinv.
  { assert (forall a b : run_state E, rtc (goroutine_step (subtasks order) parent) a b -> run_inv parent (length (launched order)) a ->
      run_inv parent (length (launched order)) b) as Hr.
    { induction 1 as [|a b c Hab _ IH]; [done|]. intros Ha. by eapply IH, run_inv_step. }
    apply (Hr _ _ Hrun). split; cbn; [by rewrite length_replicate| |done| |done].
    - rewrite omap_none; [done|]. apply Forall_forall. by intros g [-> _]%elem_of_replicate.
    - intros i _ _ [E0 _]%lookup_replicate. done. }
  split; [|split; [intros _; apply Hinv|]].
  - intros i e Hi. pose proof (run_inv_room parent _ s i e Hinv Hi) as Hroom. eexists. split.
    + eapply step_report; [exact Hi|]. rewrite <- launched_subtasks by done. lia.
    + cbn. apply list_lookup_insert_eq. by eapply lookup_lt_Some.
  - intros Hn Hret. pose proof (in_sent _ _ _ Hinv) as Hs. pose proof (fun rest => in_first _ _ _ Hinv rest Hn) as Hf.
    unfold all_returned in Hret. rewrite Forall_forall in Hret. destruct (errs s) as [|e l].
    + apply Forall_forall. intros g Hg. destruct (Hret g Hg) as [[e|] ->]; [|done]. exfalso.
      assert (e ∈ omap sent (goroutines s)) as Hin by (apply list_elem_of_omap; by exists (Returned (Some e))).
      rewrite <- Hs in Hin. by apply elem_of_nil in Hin.
    + destruct e as [c|]; [|by destruct (Hf l)]. exists c. split; [done|].
      assert (Own c ∈ omap sent (goroutines s)) as Hin by (rewrite <- Hs; apply elem_of_cons; auto).
      apply list_elem_of_omap in Hin as (g & Hg & Eg).
      destruct (Hret g Hg) as [[e|] ->]; [|done]. injection Eg as ->. by split.
Qed.

(** Two subtasks: one fails, and the other with the context it cancels. *)
Definition sample_order : list (Vertex unit unit unit) :=
  [MkVertex (str "source") VertexSource 1 (Some tt) None None 1 0 1; MkVertex (str "sink") VertexSink 1 None None (Some tt) 0 0 0].
Definition sample_end : run_state Z :=
  MkRunState [Returned (Some (Own 7)); Returned (Some ContextError)] [Own 7; ContextError] true.

Lemma sample_runs : rtc (goroutine_step (E := Z) (subtasks sample_order) False) (start sample_order) sample_end.
Proof.
  eapply rtc_l; [by apply (step_fail _ _ 0 (Own 7))|]. cbn.
  eapply rtc_l; [by apply (step_report _ _ 0 (Own 7))|]. cbn.
  eapply rtc_l; [by apply (step_cancel _ _ 0 (Own 7))|]. cbn.
  eapply rtc_l; [by apply (step_fail _ _ 1 ContextError)|]. cbn.
  eapply rtc_l; [by apply (step_report _ _ 1 ContextError)|]. cbn.
  eapply rtc_l; [by apply (step_cancel _ _ 1 ContextError)|]. apply rtc_refl.
Qed.

Lemma run_reports_cause_witness :
  (forall i e, goroutines sample_end !! i = Some (Reporting e) ->
    exists s', goroutine_step (subtasks sample_order) False sample_end s' /\ goroutines s' !! i = Some (Cancelling e)) /\
  (all_returned sample_end -> errs sample_end ≡ₚ omap sent (goroutines sample_end)) /\
  (~ False -> all_returned sample_end -> exists c, Own 7 = Own c /\ Returned (Some (Own 7)) ∈ goroutines sample_end /\
    forall W TE (opened : list (option (M TE W unit))) w, finish_run (errs sample_end) opened w = (Err (inl (Own 7)), w)).
Proof.
  apply (run_reports_cause sample_order False sample_end).
  - repeat constructor; cbn; lia.
  - exact sample_runs.
Defined.
