(* ===== verification/RunSubtask.v ===== *)
(** One subtask, from its vertex to the end of its outputs ([runSubtask],
    [pkg/runtime/subtask.go]): the loop of its kind of vertex, and the outputs
    closed when that ends. *)
From S2P Require Import Prelude Core State Gate Writer SourceTask SourceTaskSpec Graph Operators Subtask SourceSubtask OperatorTask CheckpointFormat Executor.

(** * Running a subtask *)

(** [subtaskConfig]: the payload to restore if there is one, the checkpoint it
    is from, how operator subtasks make their state ([nil] is in memory) and the
    fault injector. The coordinator is part of the job a subtask acts on. *)
Record subtaskConfig (K NE : Type) := MkConfig {
  cfg_restore : option bytes;
  cfg_newState : option (result NE K);
  cfg_restoredCheckpoint : Z;
  cfg_injector : option FaultInjector;
}.
Arguments MkConfig {K NE}.
Arguments cfg_restore {K NE}.
Arguments cfg_newState {K NE}.
Arguments cfg_restoredCheckpoint {K NE}.
Arguments cfg_injector {K NE}.

(** What the executor configures a subtask with: [restored] are the payloads of
    the checkpoint resumed from, and its number. *)
Definition config_of {K NE} (newState : option (result NE K)) (inj : option FaultInjector)
    (restored : gmap SubtaskKey bytes * Z) (id : subtaskID) : subtaskConfig K NE :=
  MkConfig (restored.1 !! checkpointKey id) newState restored.2 inj.

Inductive subtask_error (SourceE OperatorE SinkE : Type) :=
| OnSource (e : SourceE)
| OnOperator (e : OperatorE)
| OnSink (e : SinkE)
| UnknownKind (k : Z).
Arguments OnSource {SourceE OperatorE SinkE}.
Arguments OnOperator {SourceE OperatorE SinkE}.
Arguments OnSink {SourceE OperatorE SinkE}.
Arguments UnknownKind {SourceE OperatorE SinkE}.

(** What a source subtask restores. *)
Definition source_restore {K NE} (cfg : subtaskConfig K NE) : option (bytes * Z) :=
  (fun payload => (payload, cfg_restoredCheckpoint cfg)) <$> cfg_restore cfg.

Lemma config_restores {K NE} newState inj restored id :
  source_restore (config_of (K := K) (NE := NE) newState inj restored id) = restore_for restored id.
Proof. unfold restore_for, source_restore. cbn. by destruct (restored.1 !! checkpointKey id). Qed.

Section RunSubtask.
Context {S SE : Type} `{Source S SE} {K KE : Type} `{KeyedState K KE} {T TE : Type} `{Sink T TE}.
Context {X XE : Type} `{Checkpoints X XE} {C CE : Type} `{Output C CE} {DE OE GE NE : Type}.

(** A vertex holds the source it makes, opened, or the error of that; the
    operator; the sink. *)
Abbreviation Vertex := (Vertex (result OE S) Operator T).
Abbreviation error := (subtask_error (source_task_error SE XE CE DE OE) (op_task_error KE XE CE GE NE) (sink_task_error TE XE GE)).

(** What a subtask meets while it runs: when its context is done, what its
    source and its state return from [Close], and what its gate delivers and
    reports at the end. *)
Record surroundings := MkSurroundings {
  su_fuel : nat;
  su_ctxErr : src_env C X -> option DE;
  su_closeSource : S -> option OE;
  su_closeState : option (K -> option NE);
  su_delivered : list StreamElement;
  su_closed : result GE unit;
}.

(** [memory] is [state.NewMemory()]. *)
Definition makeState (memory : K) (cfg : subtaskConfig K NE) : result NE K :=
  match cfg_newState cfg with None => Ok memory | Some made => made end.

Definition settings_of (v : Vertex) : settings :=
  MkSettings (Graph.Parallelism v) (WatermarkIntervalElements v) (MaxOutOfOrderness v) (BarrierIntervalElements v).

(** The sink [reportSink] is given: one that has been opened. *)
Definition reported (res : result (sink_task_error TE XE GE) unit) (t : T) : option T :=
  match res with Err (SinkOpen _) => None | _ => Some t end.

(** The loop of the vertex's kind. [None] where the code would call a factory
    that is nil, and where the fuel of a source is used up. *)
Definition run_kind (memory : K) (env : surroundings) (v : Vertex) (id : subtaskID) (cfg : subtaskConfig K NE) (w : Writer C) (x : X)
    : option (result error unit * (Writer C * X * option T)) :=
  let fs := NewFaults (cfg_injector cfg) id in
  match Kind v with
  | VertexSource =>
      src ← NewSource v;
      '(res, (w, x)) ← runSourceSubtask fs (settings_of v) (su_ctxErr env) (su_fuel env) (index id) src (su_closeSource env)
        (source_restore cfg) w x;
      Some (wrap_err OnSource res, (w, x, None))
  | VertexOperator =>
      op ← NewOperator v;
      let '(res, (w, x)) := runOperatorSubtask op fs (makeState memory cfg) (su_closeState env) (cfg_restore cfg)
        (su_closed env) (su_delivered env) w x in
      Some (wrap_err OnOperator res, (w, x, None))
  | VertexSink =>
      t ← NewSink v;
      let '(res, (t, x)) := runSinkSubtask fs (vertexID id, index id) (cfg_restore cfg) (su_closed env) (su_delivered env) (t, x) in
      Some (wrap_err OnSink res, (w, x, reported res t))
  | VertexOther k => Some (Err (UnknownKind k), (w, x, None))
  end.

(** The outputs are closed on every path. A group without outputs panics. *)
Definition runSubtask (memory : K) (env : surroundings) (v : Vertex) (i : Z) (gs : list (list C)) (cfg : subtaskConfig K NE) (x : X)
    : option (result error unit * (Writer C * X * option T)) :=
  w ← NewWriter gs;
  '(res, (w, x, t)) ← run_kind memory env v (NewSubtaskID (Graph.ID v) i) cfg w x;
  Some (res, (CloseAll w, x, t)).
End RunSubtask.
