(* ===== verification/RunSubtaskSpec.v ===== *)
(** What [runSubtask] promises: it returns, whatever fails on the way its outputs
    are closed once and hold what they held and what was sent, and so when the
    subtasks of a job have returned every channel of the job is closed, which is
    what the executor relies on before it waits for the gates. *)
From S2P Require Import Prelude Core State Serialize Gate Writer SourceTask SourceTaskSpec Graph GraphSpec Operators Subtask.
From S2P Require Import SourceSubtask OperatorTask Executor RunSubtask.

(** * What a subtask does to its writer

    A property of the writer that its two operations keep is kept by every
    subtask, whatever fails, for any source, operator and coordinator. *)

Record writer_invariant {C CE} `{Output C CE} (P : Writer C -> Prop) : Prop := {
  wi_emit rec w : P w -> P (EmitRecord rec w).2;
  wi_broadcast e w : P w -> P (Broadcast e w).2;
}.

Section SourceLoop.
Context {S SE : Type} `{Source S SE} {Env EE DE : Type} (ctxErr : Env -> option DE).
Context (emitRecord : Record_ -> M EE Env unit) (emitWatermark : Z -> M EE Env unit) (emitBarrier : Barrier -> Z -> M EE Env unit).
Context (P : Env -> Prop).
Context (Hrec : forall rec, maintains P (emitRecord rec)) (Hmark : forall t, maintains P (emitWatermark t)).
Context (Hbar : forall b p, maintains P (emitBarrier b p)).

Abbreviation Q := (fun st : S * Env => P st.2).

Lemma keeps_on_env {A} (m : M EE Env A) : maintains P m -> maintains Q (on_env (SE := SE) (CE := DE) m).
Proof. intros Hm [s env] Hs. cbn. specialize (Hm env Hs). by destruct (m env). Qed.

Lemma keeps_on_source {A} (f : S -> result SE A * S) : maintains Q (on_source (EE := EE) (CE := DE) f).
Proof. intros [s env] Hs. cbn. by destruct (f s). Qed.

Lemma keeps_on_record wm br rec : maintains Q (on_record (CE := DE) emitRecord emitWatermark emitBarrier wm br rec).
Proof.
  apply maintains_bind; [by apply keeps_on_env|intros _]. apply maintains_bind.
  - unfold emit_mark. destruct (wm_onRecord _ _).1; [by apply keeps_on_env|apply maintains_ret].
  - intros _. apply maintains_bind; [|intros _; apply maintains_ret]. intros [s env] Hs. unfold emit_barrier.
    destruct (br_onRecord br).1; [|done]. by apply keeps_on_env.
Qed.

Lemma keeps_source_start parallelism i interval resume :
  maintains Q (source_start (S := S) (SE := SE) (EE := EE) (CE := DE) parallelism i interval resume).
Proof.
  apply maintains_bind.
  - intros [s env] Hs. unfold seekToRange. destruct src_count as [count|]; [|by destruct (1 <? parallelism)].
    destruct (sourceRange _ _ _). refine (maintains_bind Q _ _ _ _ (s, env) Hs); [apply keeps_on_source|intros _; apply maintains_ret].
  - intros [[[start end_] bounded] count]. apply maintains_bind; [|intros br; apply maintains_ret].
    destruct resume as [r|]; [|apply maintains_ret]. unfold apply_resume. repeat case_match; try apply maintains_fail.
    apply maintains_bind; [apply keeps_on_source|intros _; apply maintains_ret].
Qed.

Lemma keeps_source_turn end_ bounded wm br (st : S * Env) :
  P st.2 -> P (source_turn ctxErr emitRecord emitWatermark emitBarrier end_ bounded wm br st).2.2.
Proof.
  intros Hs. unfold source_turn. destruct (ctxErr st.2); [done|]. destruct (bounded && _); [done|].
  pose proof (keeps_on_source src_next st Hs) as H1. destruct (on_source src_next st) as [[[rec|]|e] st1]; [|done|done].
  pose proof (keeps_on_record wm br rec st1 H1) as H2. by destruct (on_record _ _ _ _ _ _ st1) as [[]].
Qed.

Lemma sourceLoop_keeps fuel parallelism i wm interval resume (st st' : S * Env) r :
  sourceLoop ctxErr emitRecord emitWatermark emitBarrier fuel parallelism i wm interval resume st = Some (r, st') ->
  P st.2 -> P st'.2.
Proof.
  unfold sourceLoop. intros E Hs. pose proof (keeps_source_start parallelism i interval resume st Hs) as H1.
  destruct (source_start _ _ _ _ st) as [[[[end_ bounded] br]|e] st1]; [|by injection E as _ <-]. clear Hs. cbn in H1.
  revert wm br st1 H1 E. induction fuel as [|fuel IH]; intros wm br st1 H1 E; [done|]. cbn [source_loop] in E.
  pose proof (keeps_source_turn end_ bounded wm br st1 H1) as H2.
  destruct (source_turn _ _ _ _ _ _ _ _ st1) as [[[[wm2 br2]|]|e] st2];
    [by eapply IH|by injection E as _ <-|by injection E as _ <-].
Qed.
End SourceLoop.

Section Keeps.
Context {S SE : Type} `{Source S SE} {K KE : Type} `{KeyedState K KE}.
Context {X XE : Type} `{Checkpoints X XE} {C CE : Type} `{Output C CE} {DE OE GE NE : Type}.
Context (P : Writer C -> Prop) (HP : writer_invariant P).

(** ** A source *)

Abbreviation PE := (fun v : src_env C X => P (e_writer v)).

Lemma keeps_on_writer (m : Writer C -> result (write_error CE) unit * Writer C) :
  (forall w, P w -> P (m w).2) -> maintains PE (on_writer (X := X) (XE := XE) m).
Proof. intros Hm v Hv. unfold on_writer. specialize (Hm _ Hv). by destruct (m (e_writer v)). Qed.

Lemma keeps_emitRecord fs rec : maintains PE (emitRecord (X := X) (XE := XE) fs rec).
Proof.
  intros v Hv. refine (maintains_bind PE _ _ _ _ v Hv); [apply maintains_lift|intros _]. apply maintains_bind; [by intros ?|intros _].
  apply keeps_on_writer, HP.
Qed.

Lemma keeps_emitWatermark t : maintains PE (emitWatermark (X := X) (XE := XE) t).
Proof. apply keeps_on_writer, HP. Qed.

Lemma keeps_emitBarrier fs b p : maintains PE (emitBarrier (X := X) (XE := XE) fs b p).
Proof.
  intros v Hv. refine (maintains_bind PE _ _ _ _ v Hv).
  - destruct (cp_enabled _); [|apply maintains_ret]. intros v1 Hv1. unfold on_job. by destruct (cp_snapshot _ _ _).
  - intros _. apply maintains_bind; [apply keeps_on_writer, HP|intros _; apply maintains_lift].
Qed.

Lemma keeps_source_end p : maintains PE (source_end (SE := SE) (X := X) (XE := XE) (DE := DE) (OE := OE) p).
Proof.
  intros v Hv. unfold source_end.
  destruct (if cp_enabled (e_job v) then _ else _) as [[|] x]; [|done].
  pose proof (wi_broadcast _ HP NewEndOfStreamElement _ Hv) as Hb. by destruct (Broadcast _ _).
Qed.

Lemma source_keeps fs c ctxErr fuel i (src : result OE S) close restored (w w' : Writer C) (x x' : X) r :
  runSourceSubtask (DE := DE) fs c ctxErr fuel i src close restored w x = Some (r, (w', x')) -> P w -> P w'.
Proof.
  unfold runSourceSubtask. intros E Hw. destruct src as [src|]; [|by injection E as _ <- _].
  destruct (resume_of restored) as [resume|]; [|by injection E as _ <- _].
  destruct (sourceLoop _ _ _ _ _ _ _ _ _ _ _) as [[r1 [s1 v]]|] eqn:El; [|done].
  assert (PE v) as Hv.
  { exact (sourceLoop_keeps _ _ _ _ PE (keeps_emitRecord fs) keeps_emitWatermark (keeps_emitBarrier fs) _ _ _ _ _ _ _ _ _ El Hw). }
  destruct r1; [|by injection E as _ <- _].
  pose proof (keeps_source_end (src_position s1) v Hv) as He. destruct (source_end _ v) as [r2 v2]. by injection E as _ <- _.
Qed.

(** ** An operator *)

Section Operator.
Context (op : Operator) (fs : faults).

Abbreviation task := (op_task K X C CE).
Abbreviation PT := (fun t : task => P (oc_writer (t_ctx t))).

Lemma emit_keeps (c : opContext C CE) recs : P (oc_writer c) -> P (oc_writer (foldl Emit c recs)).
Proof.
  revert c. induction recs as [|rec recs IH]; intros c Hc; [done|]. cbn [foldl]. apply IH. unfold Emit.
  destruct (oc_err c); [done|]. pose proof (wi_emit _ HP rec _ Hc) as He. by destruct (EmitRecord _ _).
Qed.

Lemma keeps_process wrap m : maintains PT (process (XE := XE) (GE := GE) (NE := NE) wrap m).
Proof.
  apply maintains_bind.
  - intros t Ht. unfold operator_call. destruct (m (t_op t)). by apply emit_keeps.
  - intros _ t Ht. unfold takeErr. by repeat case_match.
Qed.

Lemma keeps_broadcast e : maintains PT (broadcast (SE := KE) (XE := XE) (GE := GE) (NE := NE) e).
Proof.
  intros t Ht. unfold broadcast. pose proof (wi_broadcast _ HP e _ Ht) as Hb. by destruct (Broadcast _ _).
Qed.

Lemma keeps_snapshot id : maintains PT (snapshotOperatorState (XE := XE) (GE := GE) (NE := NE) id).
Proof. intros t Ht. unfold snapshotOperatorState. by repeat case_match. Qed.

Lemma keeps_operator_loop closed es n : maintains PT (operator_loop (XE := XE) (GE := GE) (NE := NE) op fs closed es n).
Proof.
  revert n. induction es as [|e es IH]; intros n; cbn [operator_loop]; [apply maintains_lift|].
  destruct e; repeat first [apply IH|apply keeps_process|apply keeps_broadcast|apply keeps_snapshot|apply maintains_lift
    |apply maintains_bind; [|intros _]|by intros t].
Qed.

Lemma operator_keeps (newState : result NE K) closeState restored closed es (w w' : Writer C) (x x' : X) r :
  runOperatorSubtask (GE := GE) (NE := NE) op fs newState closeState restored closed es w x = (r, (w', x')) -> P w -> P w'.
Proof.
  unfold runOperatorSubtask. intros E Hw. destruct newState as [s|]; [|by injection E as _ <- _].
  set (t0 := MkTask (MkOp s 0 0 []) (newOpContext w) x) in *.
  assert (PT (restored_loop (NE := NE) op fs restored closed es t0).2) as Hl.
  { refine (maintains_bind PT _ _ _ _ t0 Hw); [|intros _; apply keeps_operator_loop].
    destruct restored; [|apply maintains_ret]. intros t Ht. unfold restore_state. by destruct (ReadFrom _) as [? []]. }
  destruct (o_Open op true); [destruct (restored_loop _ _ _ _ _ t0)|]; repeat case_match; by injection E as _ <- _.
Qed.
End Operator.
End Keeps.

(** ** Sends that relate what an output was to what it is *)

Section Related.
Context {C CE : Type} `{Output C CE} (R : C -> C -> Prop) `{!PreOrder R}.
Context (Hsend : forall e c c', out_send e c = Ok c' -> R c c').

Lemma same_related (group : list C) : Forall2 R group group.
Proof. by apply Forall_Forall2_diag, Forall_forall. Qed.

Lemma send_nth_related e i group group' : send_nth e i group = Ok group' -> Forall2 R group group'.
Proof.
  unfold send_nth. destruct (group !! i) as [c|] eqn:Ei; [|intros [= <-]; apply same_related].
  destruct (out_send e c) as [c'|] eqn:Es; [|done]. intros [= <-].
  rewrite <- (list_insert_id group i c Ei) at 1. apply Forall2_insert; [apply same_related|by eapply Hsend].
Qed.

Lemma send_all_related e group :
  match send_all e group with (Ok l, _) => Forall2 R group l | (Err _, l) => Forall2 R group l end.
Proof.
  induction group as [|c group IH]; [constructor|]. cbn [send_all]. destruct (out_send e c) as [c'|] eqn:Es.
  - apply Hsend in Es. destruct (send_all e group) as [[l|] l']; by constructor.
  - constructor; [done|apply same_related].
Qed.

Lemma each_group_related (f : list C -> result (write_error CE) (list C) * list C) gs :
  (forall group, match f group with (Ok l, _) => Forall2 R group l | (Err _, l) => Forall2 R group l end) ->
  Forall2 (Forall2 R) gs (each_group f gs).2.
Proof.
  intros Hf. induction gs as [|group gs IH]; [constructor|]. cbn [each_group]. specialize (Hf group).
  destruct (f group) as [[l|] l'].
  - destruct (each_group f gs). by constructor.
  - constructor; [done|]. apply Forall_Forall2_diag, Forall_forall. intros. apply same_related.
Qed.

Lemma related_invariant gs : writer_invariant (fun w => Forall2 (Forall2 R) gs (groups w)).
Proof.
  assert (Transitive (Forall2 (Forall2 R))) as Htrans by apply _. split.
  - intros rec w Hw. unfold EmitRecord. destruct (groups w) eqn:Eg; [by rewrite <- Eg in Hw|].
    destruct (Key rec) eqn:Ek; [cbn; by rewrite Eg|]. rewrite <- Ek, <- Eg in *.
    destruct (each_group _ _) as [res gs'] eqn:Ee. cbn. change gs' with (res, gs').2. rewrite <- Ee.
    etrans; [exact Hw|]. apply each_group_related. intros group.
    destruct (send_nth _ _ group) eqn:Es; [by eapply send_nth_related|apply same_related].
  - intros e w Hw. unfold Broadcast. destruct (each_group _ _) as [res gs'] eqn:Ee. cbn.
    change gs' with (res, gs').2. rewrite <- Ee. etrans; [exact Hw|]. apply each_group_related, send_all_related.
Qed.
End Related.

(** * What runSubtask promises *)

Section Promises.
Context {S SE : Type} `{Source S SE} {K KE : Type} `{KeyedState K KE} {T TE : Type} `{Sink T TE}.
Context {X XE : Type} `{Checkpoints X XE} {DE OE GE NE : Type}.

Abbreviation run := (runSubtask (S := S) (SE := SE) (K := K) (KE := KE) (T := T) (TE := TE) (X := X) (XE := XE) (C := Channel)
  (CE := chan_error) (DE := DE) (OE := OE) (GE := GE) (NE := NE)).

(** What a channel is after its producer: what it was, more, and closed. *)
Definition closed_once (c c' : Channel) : Prop := closes c' = Datatypes.S (closes c) /\ elements c `prefix_of` elements c'.

Definition sent_more (c c' : Channel) : Prop := closes c' = closes c /\ elements c `prefix_of` elements c'.

#[local] Instance sent_more_preorder : PreOrder sent_more.
Proof. split; [by split|]. intros a b c [Ea Pa] [Eb Pb]. split; [by rewrite Eb|by etrans]. Qed.

Lemma sent_more_send e c c' : Channel_Send e c = Ok c' -> sent_more c c'.
Proof.
  unfold Channel_Send. destruct (ctx_done c); [done|]. intros [= <-]. split; [done|]. cbn. by apply prefix_app_r.
Qed.

Lemma runSubtask_closes memory env v i gs cfg x r w' x' t' :
  run memory env v i gs cfg x = Some (r, (w', x', t')) -> Forall2 (Forall2 closed_once) gs (groups w').
Proof.
  unfold runSubtask. intros E. destruct (NewWriter gs) as [w|] eqn:Ew; [|done]. cbn in E.
  destruct (run_kind _ _ _ _ _ _ _) as [[r1 [[w1 x1] t1]]|] eqn:Ek; [|done]. injection E as -> <- -> ->.
  set (P := fun w : Writer Channel => Forall2 (Forall2 sent_more) gs (groups w)).
  assert (writer_invariant P) as HP by (apply related_invariant; [apply _|apply sent_more_send]).
  assert (P w) as Hw.
  { unfold NewWriter in Ew. destruct (existsb _ gs); [done|]. injection Ew as <-. cbn. apply Forall_Forall2_diag, Forall_forall.
    intros group _. by apply same_related, _. }
  assert (P w1) as Hw1.
  { unfold run_kind in Ek. destruct (Kind v).
    - destruct (NewSource v); [|done]. cbn in Ek. destruct (runSourceSubtask _ _ _ _ _ _ _ _ _ _) as [[r2 [w2 x2]]|] eqn:Er; [|done].
      injection Ek as _ <- _ _. by eapply source_keeps.
    - destruct (NewOperator v); [|done]. cbn in Ek. destruct (runOperatorSubtask _ _ _ _ _ _ _ _ _) as [r2 [w2 x2]] eqn:Er.
      injection Ek as _ <- _ _. by eapply operator_keeps.
    - destruct (NewSink v); [|done]. cbn in Ek. destruct (runSinkSubtask _ _ _ _ _ _) as [r2 [t2 x2]].
      by injection Ek as _ <- _ _.
    - by injection Ek as _ <- _ _. }
  unfold CloseAll. cbn. apply Forall2_fmap_r. eapply Forall2_impl; [exact Hw1|]. intros group group' Hg.
  apply Forall2_fmap_r. eapply Forall2_impl; [exact Hg|]. intros c c' [Hc Hp]. split; [cbn; by rewrite Hc|done].
Qed.

(** ** It returns *)

(** A source that can be split ends: its loop takes a turn for each record left
    and one more. *)
Lemma source_start_place {Env EE CE} `{!SourceLaws S SE} (c : settings) count (s s1 : S) (env env1 : Env) i resume r :
  src_count = Some count -> settings_ok c (count s) -> 0 <= i < st_parallelism c ->
  source_start (EE := EE) (CE := CE) (st_parallelism c) i (st_barrierInterval c) resume (s, env) = (Ok r, (s1, env1)) ->
  src_at s1 = src_at s.
Proof.
  intros Hcount [HP Hprod _ _] Hi. destruct (src_count_ok count s Hcount) as (Hc & _).
  pose proof (range_bounds (count s) (st_parallelism c) i ltac:(lia) HP Hi) as (Hb & _).
  unfold source_start, seekToRange, mbind, M_bind. rewrite Hcount, sourceRange_exact by lia. unfold on_source at 1.
  destruct (src_seek_ok s (i * count s / st_parallelism c)) as (E1 & E2 & _); [lia|].
  destruct (src_seek _ s) as [r1 s2]. cbn [fst snd] in *. subst r1. cbn [wrap_err mret M_ret].
  destruct resume as [[pos injected]|]; [|by intros [= _ <- _]]. unfold apply_resume. cbn [andb position].
  destruct (_ || _); [done|]. destruct (Z.ltb_spec pos 0); [done|]. unfold mbind, M_bind, on_source.
  destruct (src_seek_ok s2 pos) as (E3 & E4 & _); [lia|]. destruct (src_seek _ s2) as [r1 s3]. cbn [fst snd] in *. subst r1.
  cbn. intros [= _ <- _]. by rewrite E4.
Qed.

Lemma source_loop_returns {Env EE DE'} `{!SourceLaws S SE} (ctxErr : Env -> option DE') rec mark (bar : Barrier -> Z -> M EE Env unit)
    fuel end_ bounded wm br (st : S * Env) n :
  (forall k, is_Some (src_at st.1 k) <-> 0 <= k < n) -> (0 < fuel)%nat -> n - src_position st.1 < Z.of_nat fuel \/ src_position st.1 < 0 ->
  is_Some (source_loop (SE := SE) ctxErr rec mark bar fuel end_ bounded wm br st).
Proof.
  revert wm br st. induction fuel as [|fuel IH]; intros wm br [s env] Hat Hf Hn; [lia|]. cbn [source_loop fst snd] in *.
  unfold source_turn. cbn [fst snd]. destruct (ctxErr env); [done|]. destruct (bounded && _); [done|].
  destruct (src_next_ok s) as (E1 & E2 & E3). unfold on_source. destruct (src_next s) as [r1 s2]. cbn [fst snd] in *. subst r1.
  destruct (src_at s (src_position s)) as [rec1|] eqn:Er; [|done]. cbn [wrap_err].
  assert (0 <= src_position s < n) as Hpos by (apply Hat; eauto).
  rewrite on_record_emits. destruct (for_each _ _ env) as [[|] env']; [|done]. apply IH; cbn [fst]; [by rewrite E2|lia|lia].
Qed.

(** What a source vertex needs to end: its source can be split, nothing
    overflows, and there is a turn for each record and one more. *)
Definition source_ready (fuel : nat) (v : Vertex (result OE S) Operator T) : Prop :=
  forall src, NewSource v = Some (Ok src) -> exists count, src_count = Some count /\
    settings_ok (settings_of v) (count src) /\ (Z.to_nat (count src) < fuel)%nat.

Lemma source_returns `{!SourceLaws S SE} fs ctxErr fuel (v : Vertex (result OE S) Operator T) i src close restored (w : Writer Channel) (x : X) :
  source_ready fuel v -> NewSource v = Some src -> 0 <= i < Graph.Parallelism v ->
  is_Some (runSourceSubtask (DE := DE) fs (settings_of v) ctxErr fuel i src close restored w x).
Proof.
  intros Hready Hsrc Hi. unfold runSourceSubtask. destruct src as [src|]; [|done].
  destruct (Hready src Hsrc) as (count & Hcount & Hok & Hf). destruct (src_count_ok count src Hcount) as (Hc & Hat & _).
  destruct (resume_of restored) as [resume|]; [|done]. unfold sourceLoop.
  destruct (source_start _ _ _ _ _) as [[[[end_ bounded] br]|] [s1 v1]] eqn:Es; [|done].
  apply (source_start_place (settings_of v) count) in Es; [|done|done|done].
  destruct (source_loop_returns ctxErr (emitRecord (C := Channel) (XE := XE) fs) emitWatermark (emitBarrier fs) fuel end_ bounded
    (newWatermarkGenerator (st_wmInterval (settings_of v)) (st_lag (settings_of v))) br (s1, v1) (count src)) as [[r1 [s2 v2]] ->];
    [cbn; by rewrite Es|lia|cbn; lia|].
  destruct r1; [|done]. by destruct (source_end _ _).
Qed.

(** A valid vertex whose groups are not empty. *)
Lemma runSubtask_returns `{!SourceLaws S SE} memory env v i gs cfg x :
  factories_match v -> source_ready (su_fuel env) v -> 0 <= i < Graph.Parallelism v -> Forall (fun group => group <> []) gs ->
  exists r w' x' t', run memory env v i gs cfg x = Some (r, (w', x', t')) /\ forall k, r <> Err (UnknownKind k).
Proof.
  intros Hv Hready Hi Hgs. unfold runSubtask.
  assert (exists w, NewWriter gs = Some w) as [w ->].
  { unfold NewWriter. destruct (existsb _ gs) eqn:Ee; [|eauto]. apply existsb_exists in Ee as (group & Hin & Hl).
    rewrite Forall_forall in Hgs. destruct (Hgs group); [by apply list_elem_of_In|]. by destruct group. }
  cbn [mbind option_bind]. unfold run_kind. unfold factories_match, has_factory in Hv. destruct (Kind v); [| | |done].
  - destruct Hv as ([src Esrc] & _). rewrite Esrc. cbn [mbind option_bind].
    destruct (source_returns (NewFaults (cfg_injector cfg) (NewSubtaskID (Graph.ID v) i)) (su_ctxErr env) (su_fuel env) v i src (su_closeSource env)
      (source_restore cfg) w x Hready Esrc Hi) as [[r [w1 x1]] E].
    cbn [index]. rewrite E. cbn. eexists _, _, _, _. split; [done|]. by destruct r.
  - destruct Hv as (_ & [op ->] & _). cbn. destruct (runOperatorSubtask _ _ _ _ _ _ _ _ _) as [r [w1 x1]]. cbn.
    eexists _, _, _, _. split; [done|]. by destruct r.
  - destruct Hv as (_ & _ & [t ->]). cbn. destruct (runSinkSubtask _ _ _ _ _ _) as [r [t1 x1]]. cbn.
    eexists _, _, _, _. split; [done|]. by destruct r.
Qed.

(** * The channels of a job *)

Abbreviation Graph := (Graph (result OE S) Operator T).
Abbreviation vertex := (Vertex (result OE S) Operator T).

(** The outputs a subtask is given, and the channel at a place among them. *)
Definition channels_of (w : wiring) (id : subtaskID) : list (list Channel) :=
  fmap (M := list) (fun k => default (NewChannel DefaultCapacity) (chans w !! k)) <$> outputs_of w id.

Definition at_place {A} (gs : list (list A)) (place : nat * nat) : option A := gs !! place.1 ≫= fun group => group !! place.2.

(** A place among the outputs of a subtask leads where the wiring says. *)
Lemma place_ends (g : Graph) (order : list vertex) v i place k :
  built g -> TopoOrder g = Ok order -> v ∈ order -> 0 <= i < Graph.Parallelism v ->
  at_place (outputs_of (wire g order) (NewSubtaskID (Graph.ID v) i)) place = Some k ->
  exists toID, Downstream g (Graph.ID v) !! place.1 = Some toID /\
    channel_ends g order !! k = Some (NewSubtaskID (Graph.ID v) i, NewSubtaskID toID (Z.of_nat place.2)).
Proof.
  destruct place as [a b]. intros Hg Ho Hv Hi Hat. unfold at_place in Hat. cbn [fst snd] in *.
  destruct (outputs_of _ _ !! a) as [group|] eqn:Ea; [|done]. cbn in Hat.
  assert (byID g !! Graph.ID v = Some v) as Hb by (by apply (proj2 (order_ids g order Hg Ho))).
  pose proof (wire_outputs g order (NewSubtaskID (Graph.ID v) i) v Hg Ho Hb Hi) as Hw.
  eapply Forall2_lookup_r in Hw as (toID & Ht & y & _ & _ & Hends); [|exact Ea]. exists toID. split; [done|by apply Hends].
Qed.

(** The ends of a channel give its place. *)
Lemma ends_place (g : Graph) (order : list vertex) p c k :
  built g -> TopoOrder g = Ok order -> channel_ends g order !! k = Some (p, c) ->
  exists v a, v ∈ order /\ Graph.ID v = vertexID p /\ 0 <= index p < Graph.Parallelism v /\ 0 <= index c /\
    Downstream g (vertexID p) !! a = Some (vertexID c) /\ at_place (outputs_of (wire g order) p) (a, Z.to_nat (index c)) = Some k.
Proof.
  intros Hg Ho Epc. pose proof (list_elem_of_lookup_2 _ _ _ Epc) as Hin.
  apply (elem_of_channel_ends g order Hg Ho) in Hin as (u & v & Hu & Hv & He & Hi & Hj).
  pose proof (proj1 (proj2 (order_ids g order Hg Ho) _ _) Hu) as [Hu' Eu].
  pose proof (wire_outputs g order p u Hg Ho Hu Hi) as Hw.
  pose proof (proj2 (in_Downstream g _ _) He) as Hd. apply list_elem_of_lookup in Hd as [a Ha].
  eapply Forall2_lookup_l in Hw as (group & Eg & y & Hy & Hl & Hends); [|exact Ha].
  rewrite Hv in Hy. injection Hy as <-. destruct (lookup_lt_is_Some_2 group (Z.to_nat (index c))) as [k' Hk']; [lia|].
  pose proof (Hends _ _ Hk') as Ek'. replace (NewSubtaskID (vertexID c) (Z.of_nat (Z.to_nat (index c)))) with c in Ek'
    by (rewrite Z2Nat.id by lia; by destruct c).
  assert (k' = k) as -> by (eapply NoDup_lookup; [by apply (NoDup_channel_ends g order)|exact Ek'|exact Epc]).
  exists u, a. split_and!; [done|done|lia|lia|lia|done|]. unfold at_place. cbn [fst snd]. by rewrite Eg.
Qed.

(** A channel has one producer, and one place among its outputs. *)
Lemma produced_once (g : Graph) (order : list vertex) k :
  built g -> TopoOrder g = Ok order -> (k < length (chans (wire g order)))%nat ->
  exists v i place, v ∈ order /\ 0 <= i < Graph.Parallelism v /\
    at_place (outputs_of (wire g order) (NewSubtaskID (Graph.ID v) i)) place = Some k /\
    forall v' i' place', v' ∈ order -> 0 <= i' < Graph.Parallelism v' ->
      at_place (outputs_of (wire g order) (NewSubtaskID (Graph.ID v') i')) place' = Some k ->
      NewSubtaskID (Graph.ID v') i' = NewSubtaskID (Graph.ID v) i /\ place' = place.
Proof.
  intros Hg Ho Hk. rewrite (wd_chans _ _ _ (wire_wired g order)), length_replicate in Hk.
  destruct (lookup_lt_is_Some_2 (channel_ends g order) k Hk) as [[p c] Epc].
  destruct (ends_place g order p c k Hg Ho Epc) as (u & a & Hu & Eu & Hi & Hj & Ha & Hat).
  assert (NewSubtaskID (Graph.ID u) (index p) = p) as Ep by (rewrite Eu; by destruct p).
  exists u, (index p), (a, Z.to_nat (index c)). rewrite Ep. split; [done|]. split; [done|]. split; [done|].
  intros v' i' [a' b'] Hv' Hi' Hat'. destruct (place_ends g order v' i' (a', b') k Hg Ho Hv' Hi' Hat') as (toID & Ht & Hends).
  cbn [fst snd] in *. rewrite Epc in Hends. injection Hends as Hp Hto. split; [done|].
  assert (Graph.ID v' = vertexID p) as Eid by by rewrite Hp. assert (toID = vertexID c) as Eto by by rewrite Hto.
  rewrite Eid, Eto in Ht. apply (f_equal index) in Hto. cbn in Hto. f_equal; [|lia].
  apply (NoDup_lookup (Downstream g (vertexID p)) a' a (vertexID c)); [by apply NoDup_Downstream, built_consistent|exact Ht|exact Ha].
Qed.

(** Where a channel is, so is what its producer left of it. *)
Lemma left_at_place (w : wiring) id gs place k :
  Forall2 (Forall2 closed_once) (channels_of w id) gs -> at_place (outputs_of w id) place = Some k -> (k < length (chans w))%nat ->
  exists c c', chans w !! k = Some c /\ at_place gs place = Some c' /\ closed_once c c'.
Proof.
  unfold at_place, channels_of. intros HF Hat Hk. destruct (outputs_of w id !! place.1) as [group|] eqn:Eg; [|done]. cbn in Hat.
  destruct (lookup_lt_is_Some_2 _ _ Hk) as [c Ec].
  eapply Forall2_lookup_l in HF as (group' & -> & HF); [|rewrite list_lookup_fmap, Eg; reflexivity].
  eapply Forall2_lookup_l in HF as (c' & Ec' & Hc); [|rewrite list_lookup_fmap, Hat; cbn; rewrite Ec; reflexivity].
  exists c, c'. by split_and!.
Qed.

Lemma groups_not_empty (g : Graph) (order : list vertex) v i :
  built g -> TopoOrder g = Ok order -> v ∈ order -> 0 <= i < Graph.Parallelism v ->
  Forall (fun group => group <> []) (channels_of (wire g order) (NewSubtaskID (Graph.ID v) i)).
Proof.
  intros Hg Ho Hv Hi. apply Forall_fmap, Forall_forall. intros group Hgr.
  assert (byID g !! Graph.ID v = Some v) as Hb by (by apply (proj2 (order_ids g order Hg Ho))).
  pose proof (wire_outputs g order (NewSubtaskID (Graph.ID v) i) v Hg Ho Hb Hi) as Hw.
  apply list_elem_of_lookup in Hgr as [a Ha]. eapply Forall2_lookup_r in Hw as (toID & _ & y & Hy & Hl & _); [|exact Ha].
  destruct (ex_vertices g (TopoOrder_executable g order Hg Ho) _ _ Hy) as [Hp _ _ _].
  intros E%fmap_nil_inv. subst group. cbn in Hl. lia.
Qed.
End Promises.

(** C31. The channels of a job are closed. In a job whose graph is accepted every
    subtask returns, whatever faults, sends, sources, operators and coordinators
    do, if its source can be split and has a turn for each record, and none is of
    an unknown kind. When all have returned, by success or by error, each channel
    of the job is at one place among the outputs of one subtask, which has closed
    it, and closed it once: so every input of every gate has been closed and no
    gate waits for an input that will not come. *)
Theorem run_closes_channels {S SE} `{SourceLaws S SE} {K KE} `{KeyedState K KE} {T TE} `{Sink T TE} {X XE} `{Checkpoints X XE}
    {DE OE GE NE : Type} (memory : K) (g : Graph (result OE S) Operator T) (order : list (Vertex (result OE S) Operator T))
    (env : subtaskID -> surroundings (S := S) (K := K) (X := X) (C := Channel) (DE := DE) (OE := OE) (GE := GE) (NE := NE))
    (cfg : subtaskID -> subtaskConfig K NE) :
  built g -> TopoOrder g = Ok order ->
  let w := wire g order in
  let task v i x := let id := NewSubtaskID (Graph.ID v) i in runSubtask memory (env id) v i (channels_of w id) (cfg id) (x : X) in
  (forall v i x, v ∈ order -> 0 <= i < Graph.Parallelism v -> source_ready (su_fuel (env (NewSubtaskID (Graph.ID v) i))) v ->
     exists r w' x' t', task v i x = Some (r, (w', x', t')) /\ forall k, r <> Err (UnknownKind k)) /\
  (forall left : subtaskID -> Writer Channel,
     (forall v i, v ∈ order -> 0 <= i < Graph.Parallelism v ->
        exists x r x' t', task v i x = Some (r, (left (NewSubtaskID (Graph.ID v) i), x', t'))) ->
     forall k, (k < length (chans w))%nat ->
       exists v i place c, v ∈ order /\ 0 <= i < Graph.Parallelism v /\
         at_place (outputs_of w (NewSubtaskID (Graph.ID v) i)) place = Some k /\
         at_place (groups (left (NewSubtaskID (Graph.ID v) i))) place = Some c /\ closes c = 1%nat /\
         forall v' i' place', v' ∈ order -> 0 <= i' < Graph.Parallelism v' ->
           at_place (outputs_of w (NewSubtaskID (Graph.ID v') i')) place' = Some k ->
           NewSubtaskID (Graph.ID v') i' = NewSubtaskID (Graph.ID v) i /\ place' = place).
Proof.
  intros Hg Ho w task. split.
  - intros v i x Hv Hi Hready. apply runSubtask_returns; [|done|done|by apply groups_not_empty].
    apply (ex_vertices g (TopoOrder_executable g order Hg Ho) (Graph.ID v)).
    by apply (proj2 (order_ids g order Hg Ho)).
  - intros left Hleft k Hk. destruct (produced_once g order k Hg Ho Hk) as (v & i & place & Hv & Hi & Hat & Hone).
    destruct (Hleft v i Hv Hi) as (x & r & x' & t' & E). apply runSubtask_closes in E.
    destruct (left_at_place w _ _ place k E Hat Hk) as (c & c' & Ec & Hc' & [Hclosed _]).
    exists v, i, place, c'. split; [done|]. split; [done|]. split; [done|]. split; [done|]. split; [|done].
    rewrite Hclosed. unfold w in Ec. rewrite (wd_chans _ _ _ (wire_wired g order)) in Ec. by apply lookup_replicate in Ec as [-> _].
Qed.

(** ** A job that dies

    Two source subtasks over [sample_source] and a sink; the second source
    subtask is aborted at its second record. *)
Definition dying_source : Vertex (result Empty_set list_source) Operator Collect :=
  MkVertex (str "in") VertexSource 2 (Some (Ok sample_source)) None None 1 3 1.
Definition dying_sink : Vertex (result Empty_set list_source) Operator Collect :=
  MkVertex (str "out") VertexSink 1 None None (Some NewCollect) 0 0 0.

Definition dying_graph : Graph (result Empty_set list_source) Operator Collect :=
  (Connect (str "in") (str "out") (AddVertex dying_sink (AddVertex dying_source New).2).2).2.

Lemma dying_built : built dying_graph.
Proof.
  eapply built_connect; [|apply surjective_pairing]. eapply built_add; [|apply surjective_pairing].
  eapply built_add; [|apply surjective_pairing]. constructor.
Qed.

Lemma dying_order : TopoOrder dying_graph = Ok [dying_source; dying_sink].
Proof. vm_compute. reflexivity. Qed.

Definition dying_env (id : subtaskID) :
    surroundings (S := list_source) (K := Memory) (X := ledger) (C := Channel) (DE := Empty_set) (OE := Empty_set) (GE := Empty_set) (NE := Empty_set) :=
  MkSurroundings 6 (fun _ => None) (fun _ => None) None [] (Ok tt).

Definition dying_cfg : subtaskID -> subtaskConfig Memory Empty_set :=
  config_of None (Some {| BeforeElement _ i n := (i =? 1) && (n =? 1); AfterBarrierForwarded _ _ _ := false;
                          DuringAlignment _ _ _ _ := false |}) (∅, 0).

Definition dying_task (v : Vertex (result Empty_set list_source) Operator Collect) (i : Z) :=
  let id := NewSubtaskID (Graph.ID v) i in
  runSubtask NewMemory (dying_env id) v i (channels_of (wire dying_graph [dying_source; dying_sink]) id) (dying_cfg id) ([] : ledger).

Definition dying_left (id : subtaskID) : Writer Channel :=
  match byID dying_graph !! vertexID id ≫= fun v => dying_task v (index id) with
  | Some (_, (w, _, _)) => w
  | None => MkWriter [] 0
  end.

(** What the two source subtasks return. *)
Example dying_results : (fun i => fst <$> dying_task dying_source i) <$> [0; 1] =
  [Some (Ok tt); Some (Err (OnSource (SourceLoop (ErrEmit (EmitFault (FaultAfterElements 1))))))].
Proof. vm_compute. reflexivity. Qed.

Lemma dying_ready v i : v ∈ [dying_source; dying_sink] -> source_ready (su_fuel (dying_env (NewSubtaskID (Graph.ID v) i))) v.
Proof.
  intros Hv src. rewrite !elem_of_cons in Hv. destruct Hv as [->|[->|?%elem_of_nil]]; [|done..].
  intros [= <-]. exists (fun s => Z.of_nat (length (ls_records s))). split; [done|]. split; [apply sample_settings_ok|cbn; lia].
Qed.

Lemma dying_found v i : v ∈ [dying_source; dying_sink] ->
  dying_left (NewSubtaskID (Graph.ID v) i) = match dying_task v i with Some (_, (w, _, _)) => w | None => MkWriter [] 0 end.
Proof.
  intros Hv. unfold dying_left. cbn [vertexID index]. replace (byID dying_graph !! Graph.ID v) with (Some v); [reflexivity|].
  rewrite !elem_of_cons in Hv. destruct Hv as [->|[->|?%elem_of_nil]]; [vm_compute; reflexivity..|done].
Qed.

Lemma run_closes_channels_witness :
  length (chans (wire dying_graph [dying_source; dying_sink])) = 2%nat /\
  forall k, (k < 2)%nat -> exists v i place c, v ∈ [dying_source; dying_sink] /\ 0 <= i < Graph.Parallelism v /\
    at_place (outputs_of (wire dying_graph [dying_source; dying_sink]) (NewSubtaskID (Graph.ID v) i)) place = Some k /\
    at_place (groups (dying_left (NewSubtaskID (Graph.ID v) i))) place = Some c /\ closes c = 1%nat.
Proof.
  pose proof (run_closes_channels NewMemory dying_graph [dying_source; dying_sink] dying_env dying_cfg dying_built dying_order) as [Hret Hclosed].
  split; [vm_compute; reflexivity|]. intros k Hk. destruct (Hclosed dying_left) with (k := k) as (v & i & place & c & Hv & Hi & Hat & Hc & H1 & _).
  - intros v i Hv Hi. destruct (Hret v i [] Hv Hi (dying_ready v i Hv)) as (r & w' & x' & t' & E & _).
    exists [], r, x', t'. rewrite (dying_found v i Hv). unfold dying_task. cbn zeta in E. by rewrite E.
  - exact Hk.
  - exists v, i, place, c. split; [exact Hv|]. split; [exact Hi|]. split; [exact Hat|]. split; [exact Hc|exact H1].
Defined.
