(* ===== verification/BenchWorkload.v ===== *)
(** The benchmark's workloads ([cmd/bench/workload.go]): a configuration and its
    check, the job graph it names, and the flags a sweep is read from. *)
From S2P Require Import Prelude Core Strconv GoStrings Graph GraphSpec GraphLine Operators Transform.
From S2P Require Generator Nexmark Window MaxBid HotItems.

(** * Queries *)

Definition queryIdentity : bytes := str "identity".
Definition queryQ0 : bytes := str "q0".
Definition queryQ1 : bytes := str "q1".
Definition queryQ2 : bytes := str "q2".
Definition queryQ5 : bytes := str "q5".
Definition queryQ7 : bytes := str "q7".

Definition queries : list bytes := [queryIdentity; queryQ0; queryQ1; queryQ2; queryQ5; queryQ7].
Definition windowedQueries : list bytes := [queryQ5; queryQ7].

(** * Configurations *)

Record Config := MkConfig {
  Query : bytes;
  Parallelism : Z;
  Records : Z;
  Seed : Z;
  Keys : Z;
  AuctionCardinality : Z;
  WindowMillis : Z;
  SlideMillis : Z;
}.

#[export] Instance Config_eq_dec : EqDecision Config.
Proof. solve_decision. Defined.

Definition is_windowed (c : Config) : bool := bool_decide (Query c ∈ windowedQueries).
Definition is_query (c : Config) (q : bytes) : bool := bool_decide (Query c = q).

Definition label (c : Config) : bytes :=
  Query c ++ str " p=" ++ FormatInt (Parallelism c) ++ str " records=" ++ FormatInt (Records c) ++
  if is_query c queryIdentity then str " keys=" ++ FormatInt (Keys c)
  else
    str " auctions=" ++ FormatInt (AuctionCardinality c) ++
    if is_windowed c then
      str " window=" ++ FormatInt (WindowMillis c) ++
      (if is_query c queryQ5 then str " slide=" ++ FormatInt (SlideMillis c) else [])
    else [].

(** [runtime.NumCPU()] is an argument. *)
Definition oversubscribed (numCPU : Z) (c : Config) : bool := numCPU <? Parallelism c.

(** What [check] and [buildGraph] report; the first string of most is the
    label. *)
Inductive bench_error :=
| errQuery (query : bytes)
| errParallelism (label : bytes) (p : Z)
| errRecords (label : bytes) (n : Z)
| errKeys (label : bytes) (n : Z)
| errAuctions (label : bytes) (n : Z)
| errWindow (label : bytes) (n : Z)
| errSlide (label : bytes) (slide window : Z)
| errBarrierInterval (label : bytes) (n : Z)
| errGraph (e : graph_error).

Definition check (c : Config) : result bench_error unit :=
  if negb (bool_decide (Query c ∈ queries)) then Err (errQuery (Query c))
  else if Parallelism c <? 1 then Err (errParallelism (label c) (Parallelism c))
  else if Records c <? 1 then Err (errRecords (label c) (Records c))
  else if is_query c queryIdentity && (Keys c <? 1) then Err (errKeys (label c) (Keys c))
  else if negb (is_query c queryIdentity) && (AuctionCardinality c <? 1) then Err (errAuctions (label c) (AuctionCardinality c))
  else if is_windowed c && (WindowMillis c <? 1) then Err (errWindow (label c) (WindowMillis c))
  else if is_query c queryQ5 && ((SlideMillis c <? 1) || (WindowMillis c <? SlideMillis c))
  then Err (errSlide (label c) (SlideMillis c) (WindowMillis c))
  else Ok tt.

(** * The graph *)

Definition benchEventTimeStep : Z := 1.
Definition benchMaxLag : Z := 500.
Definition benchPersonCardinality : Z := 1000.
Definition benchPriceRange : Z := 1000.
Definition benchCategoryCount : Z := 4.
Definition benchAuctionDuration : Z := 5000.
Definition benchWatermarkInterval : Z := 10000.
Definition benchLateness : Z := 0.
Definition benchThroughputBarrierInterval : Z := 100000.

(** Days from 1970 to the first of January of a later year. *)
Definition new_year (y : Z) : Z :=
  365 * (y - 1970) + (y - 1969) / 4 - (y - 1901) / 100 + (y - 1601) / 400.
Definition benchBaseEventTime : Z := new_year 2024 * 86400 * 1000.

Definition nexmarkConfig (c : Config) : Nexmark.NexmarkConfig :=
  Nexmark.MkNexmarkConfig (Seed c) (Records c) (AuctionCardinality c) benchPersonCardinality benchPriceRange
    benchCategoryCount benchAuctionDuration benchBaseEventTime benchEventTimeStep benchMaxLag.

(** The configuration in [sourceVertex]. *)
Definition generatorConfig (c : Config) : Generator.GeneratorConfig :=
  Generator.MkGeneratorConfig (Seed c) (Records c) (Keys c) benchBaseEventTime 1 500 16 1000.

Inductive bench_source :=
| FromGenerator (g : Generator.Generator)
| FromNexmark (n : Nexmark.Nexmark).

(** A factory of operators makes one, or panics. *)
Definition factory : Type := option Operator.

Section Build.
Context {Snk : Type}.
Abbreviation Vertex := (Vertex bench_source factory Snk).
Abbreviation Graph := (Graph bench_source factory Snk).

Definition sourceVertex (c : Config) (barrierInterval : Z) : Vertex :=
  if is_query c queryIdentity then
    let cfg := generatorConfig c in
    MkVertex (str "source") VertexSource (Parallelism c) (Some (FromGenerator (Generator.NewGenerator cfg))) None None
      benchWatermarkInterval (Generator.MaxLag cfg) barrierInterval
  else
    let cfg := nexmarkConfig c in
    MkVertex (str "source") VertexSource (Parallelism c) (Some (FromNexmark (Nexmark.NewNexmark cfg))) None None
      benchWatermarkInterval (Nexmark.MaxLag cfg) barrierInterval.

Definition operator_vertex (c : Config) (id : bytes) (newOperator : factory) : Vertex :=
  MkVertex id VertexOperator (Parallelism c) None (Some newOperator) None 0 0 0.

(** [None] where the code panics: the query is not one of [queries]. *)
Definition operatorChain (c : Config) : option (list Vertex) :=
  let vertex := operator_vertex c in
  if is_query c queryIdentity then
    Some [vertex (str "identity") (Some (Map_Operator (NewMap (fun rec => Ok (Some rec)))))]
  else if is_query c queryQ0 then Some [vertex (str "q0") (Some (Map_Operator NewQ0))]
  else if is_query c queryQ1 then Some [vertex (str "q1") (Some (Map_Operator (NewQ1 Q1Factor)))]
  else if is_query c queryQ2 then Some [vertex (str "q2") (Map_Operator <$> NewQ2 Q2Divisor)]
  else if is_query c queryQ7 then
    Some [vertex (str "q7") (MaxBid.MaxBid_Operator <$> MaxBid.NewQ7 (WindowMillis c) benchLateness)]
  else if is_query c queryQ5 then
    Some [vertex (str "bids") (Some (Map_Operator NewBidsOnly));
          vertex (str "count")
            (Window.WindowCount_Operator <$> Window.NewSlidingCount (WindowMillis c) (SlideMillis c) benchLateness);
          vertex (str "rekey") (Map_Operator <$> NewQ5Rekey (WindowMillis c));
          vertex (str "hot") (HotItems.HotItems_Operator <$> HotItems.NewQ5HotItems (WindowMillis c) benchLateness)]
  else None.

Definition buildGraphWithSink (c : Config) (barrierInterval : Z) (newSink : Snk) : option (result bench_error Graph) :=
  match check c with
  | Err e => Some (Err e)
  | Ok _ =>
      if barrierInterval <? 1 then Some (Err (errBarrierInterval (label c) barrierInterval))
      else
        chain ← operatorChain c;
        let vertices := sourceVertex c barrierInterval :: chain ++
          [MkVertex (str "sink") VertexSink (Parallelism c) None None (Some newSink) 0 0 0] in
        Some match build_line vertices New with
             | (Ok _, g) => Ok g
             | (Err e, _) => Err (errGraph e)
             end
  end.
End Build.

(** Into [Discard], which keeps nothing. *)
Definition buildGraph (c : Config) (barrierInterval : Z) : option (result bench_error (Graph bench_source factory unit)) :=
  buildGraphWithSink c barrierInterval tt.

Definition timerVertices (query : bytes) : list bytes :=
  if bool_decide (query = queryQ5) then [str "count"; str "hot"]
  else if bool_decide (query = queryQ7) then [str "q7"]
  else [].

(** * Flags *)

Inductive flag_error :=
| errNotANumber (what field : bytes)
| errLevel (p : Z)
| errNoLevels
| errNone (what : bytes)
| errNoSuchQuery (field : bytes)
| errNoQuery.

Definition comma : byte := Byte.x2c.

(** The fields of a comma-separated flag; [item] reads one of them, in order, and
    empty fields are passed over. *)
Fixpoint read_fields {A} (item : bytes -> result flag_error A) (fields : list bytes) : result flag_error (list A) :=
  match fields with
  | [] => Ok []
  | field :: fields =>
      match TrimSpace field with
      | [] => read_fields item fields
      | field =>
          a ← item field;
          rest ← read_fields item fields;
          mret (a :: rest)
      end
  end.

Definition parse_list {A} (item : bytes -> result flag_error A) (none : flag_error) (s : bytes) : result flag_error (list A) :=
  l ← read_fields item (Split comma s);
  match l with [] => Err none | _ => Ok l end.

Definition parse_level (field : bytes) : result flag_error Z :=
  match ParseInt field with
  | None => Err (errNotANumber (str "parallelism") field)
  | Some p => if p <? 1 then Err (errLevel p) else Ok p
  end.

Definition parseLevels (s : bytes) : result flag_error (list Z) := parse_list parse_level errNoLevels s.

Definition parse_int64 (what field : bytes) : result flag_error Z :=
  match ParseInt field with
  | None => Err (errNotANumber what field)
  | Some n => Ok n
  end.

Definition parseInt64s (s what : bytes) : result flag_error (list Z) := parse_list (parse_int64 what) (errNone what) s.

Definition parse_query (field : bytes) : result flag_error bytes :=
  if negb (bool_decide (field ∈ queries)) then Err (errNoSuchQuery field) else Ok field.

Definition parseQueries (s : bytes) : result flag_error (list bytes) :=
  if bool_decide (TrimSpace s = str "all") then Ok queries
  else parse_list parse_query errNoQuery s.

(** * What starts *)

(** The factories of a vertex make what they are for: an operator's constructor
    does not panic, and a source opens. *)
Definition opens (s : bench_source) : Prop :=
  match s with
  | FromGenerator g => Generator.Open g = Ok tt
  | FromNexmark n => Nexmark.Open n = Ok tt
  end.

Definition starts {Snk} (v : Vertex bench_source factory Snk) : Prop :=
  match NewSource v with Some s => opens s | None => True end /\
  match NewOperator v with Some f => is_Some f | None => True end.
