(* ===== verification/BenchSpec.v ===== *)
(** What the benchmark's workloads promise: [check] against what the job really
    needs, and the sweep against the flags. *)
From S2P Require Import Prelude Core Strconv GoStrings Graph GraphSpec GraphLine Operators Transform BenchWorkload.
From S2P Require Generator Nexmark Window MaxBid HotItems.

(** * Configurations *)

(** What [check] lets through. *)
Record checked (c : Config) : Prop := {
  ck_query : Query c ∈ queries;
  ck_parallelism : 1 <= Parallelism c;
  ck_records : 1 <= Records c;
  ck_keys : Query c = queryIdentity -> 1 <= Keys c;
  ck_auctions : Query c <> queryIdentity -> 1 <= AuctionCardinality c;
  ck_window : Query c ∈ windowedQueries -> 1 <= WindowMillis c;
  ck_slide : Query c = queryQ5 -> 1 <= SlideMillis c <= WindowMillis c;
}.

Lemma check_ok c : check c = Ok tt <-> checked c.
Proof.
  unfold check, is_query, is_windowed.
  destruct (bool_decide_reflect (Query c ∈ queries)) as [Hq|Hq]; cbn [negb]; [|split; [done|by intros []]].
  destruct (Z.ltb_spec (Parallelism c) 1); [split; [done|intros []; lia]|].
  destruct (Z.ltb_spec (Records c) 1); [split; [done|intros []; lia]|].
  destruct (bool_decide_reflect (Query c = queryIdentity)) as [Hi|Hi], (Z.ltb_spec (Keys c) 1);
    destruct (Z.ltb_spec (AuctionCardinality c) 1);
    destruct (bool_decide_reflect (Query c ∈ windowedQueries)) as [Hw|Hw], (Z.ltb_spec (WindowMillis c) 1);
    destruct (bool_decide_reflect (Query c = queryQ5)) as [H5|H5], (Z.ltb_spec (SlideMillis c) 1), (Z.ltb_spec (WindowMillis c) (SlideMillis c));
    cbn [andb orb negb]; (split; [first [done|intros _; split; naive_solver lia]|intros []; first [done|exfalso; naive_solver lia]]).
Qed.

(** * The job of a configuration *)

(** The operators of a query, by name. *)
Definition op_of {Snk} (c : Config) (p : bytes * factory) : Vertex bench_source factory Snk := operator_vertex c p.1 p.2.

Record chain_good (c : Config) (l : list (bytes * factory)) : Prop := {
  cg_names : NoDup (str "source" :: l.*1 ++ [str "sink"]);
  cg_nonempty : Forall (fun id => id <> []) l.*1;
  cg_starts : Forall is_Some l.*2 <-> (Query c = queryQ5 -> (SlideMillis c | WindowMillis c));
}.

Lemma NewSlidingCount_some w s : 1 <= s <= w -> is_Some (Window.NewSlidingCount w s benchLateness) <-> (s | w).
Proof.
  intros H. unfold Window.NewSlidingCount. rewrite (proj2 (Z.leb_gt w 0)), (proj2 (Z.leb_gt s 0)) by lia. cbn.
  rewrite <- Z.rem_divide by lia. destruct (Z.eqb_spec (Z.rem w s) 0); cbn; rewrite is_Some_alt; naive_solver.
Qed.

Lemma query_total (q : bytes) : q ∈ queries -> q = queryIdentity \/ q = queryQ0 \/ q = queryQ1 \/ q = queryQ2 \/ q = queryQ7 \/ q = queryQ5.
Proof. unfold queries. set_solver. Qed.

Lemma operatorChain_ok {Snk} c : checked c ->
  exists l, operatorChain (Snk := Snk) c = Some (op_of c <$> l) /\ chain_good c l.
Proof.
  intros Hc. unfold operatorChain, is_query.
  assert (forall q, Query c = q -> q ∈ windowedQueries -> 0 < WindowMillis c) as Hw.
  { intros q <- H. pose proof (ck_window c Hc H). lia. }
  assert (forall l : list (bytes * factory),
    NoDup (str "source" :: l.*1 ++ [str "sink"]) -> Forall (fun id => id <> []) l.*1 ->
    Forall is_Some l.*2 -> Query c <> queryQ5 -> chain_good c l) as Hplain.
  { intros l H1 H2 H3 H4. by split. }
  pose proof (query_total (Query c) (ck_query c Hc)) as Hq.
  destruct Hq as [Hq|[Hq|[Hq|[Hq|[Hq|Hq]]]]]; rewrite Hq; cbn [bool_decide decide_rel];
    repeat match goal with |- context [bool_decide (?a = ?b)] =>
      let r := eval vm_compute in (bool_decide (a = b)) in change (bool_decide (a = b)) with r end; cbn [negb].
  - eexists [(_, _)]. split; [done|]. apply Hplain; [by apply (bool_decide_unpack _)|by repeat constructor..|by rewrite Hq].
  - eexists [(_, _)]. split; [done|]. apply Hplain; [by apply (bool_decide_unpack _)|by repeat constructor..|by rewrite Hq].
  - eexists [(_, _)]. split; [done|]. apply Hplain; [by apply (bool_decide_unpack _)|by repeat constructor..|by rewrite Hq].
  - eexists [(_, _)]. split; [done|]. apply Hplain; [by apply (bool_decide_unpack _)|by repeat constructor..|by rewrite Hq].
  - eexists [(_, _)]. split; [done|]. apply Hplain; [by apply (bool_decide_unpack _)|by repeat constructor| |by rewrite Hq].
    unfold MaxBid.NewQ7. rewrite (proj2 (Z.leb_gt _ _)) by (eapply Hw; [exact Hq|by apply (bool_decide_unpack _)]).
    by repeat constructor.
  - assert (0 < WindowMillis c) as Hpos by (eapply Hw; [exact Hq|by apply (bool_decide_unpack _)]).
    eexists [(_, _); (_, _); (_, _); (_, _)]. split; [done|].
    split; [by apply (bool_decide_unpack _)|by repeat constructor|].
    rewrite !fmap_cons, fmap_nil, !Forall_cons. cbn [snd].
    unfold NewQ5Rekey, HotItems.NewQ5HotItems. rewrite (proj2 (Z.leb_gt (WindowMillis c) 0)) by done.
    rewrite <- (NewSlidingCount_some _ _ (ck_slide c Hc Hq)).
    destruct (Window.NewSlidingCount (WindowMillis c) (SlideMillis c) benchLateness) as [w|].
    + split; [by intros|]. intros _. split_and!; [by eexists..|by constructor].
    + split; [by intros (_ & [? [=]] & _)|]. intros H. by destruct (H Hq).
Qed.

Lemma source_starts {Snk} c b : checked c -> starts (sourceVertex (Snk := Snk) c b).
Proof.
  intros Hc. unfold starts, sourceVertex, is_query. case_bool_decide as Hq; cbn; (split; [|done]).
  - apply Generator.Open_ok. cbn. pose proof (ck_keys c Hc Hq). pose proof (ck_records c Hc). lia.
  - apply Nexmark.nexmark_Open_ok. pose proof (ck_auctions c Hc Hq). pose proof (ck_records c Hc).
    split; cbn; try done; lia.
Qed.

Definition sink_vertex {Snk} (c : Config) (newSink : Snk) : Vertex bench_source factory Snk :=
  MkVertex (str "sink") VertexSink (Parallelism c) None None (Some newSink) 0 0 0.

Lemma bench_line {Snk} c b (snk : Snk) l : checked c -> 1 <= b -> chain_good c l ->
  let vs := sourceVertex c b :: (op_of c <$> l) ++ [sink_vertex c snk] in
  NoDup (ID <$> vs) /\ Forall (fun v => ID v <> []) vs /\ Forall line_vertex vs.
Proof.
  intros Hc Hb [Hn He _] vs.
  assert (ID (sourceVertex (Snk := Snk) c b) = str "source") as Hs by (unfold sourceVertex; by destruct (is_query _ _)).
  assert (ID <$> vs = str "source" :: l.*1 ++ [str "sink"]) as E.
  { unfold vs. rewrite fmap_cons, fmap_app, Hs, <- list_fmap_compose. done. }
  split; [by rewrite E|]. split.
  - assert (Forall (fun id => id <> []) (ID <$> vs)) as H; [|exact (proj1 (Forall_fmap _ _ _) H)].
    rewrite E. constructor; [done|]. apply Forall_app. split; [done|by repeat constructor].
  - unfold vs. constructor.
    + unfold sourceVertex. destruct (is_query _ _); (split; [by repeat split; try eexists|split_and!; [done|done|exact Hb]]).
    + apply Forall_app. split; [|by repeat constructor; eexists].
      apply Forall_fmap, Forall_true. intros [id f]. split; [by repeat split; try eexists|done].
Qed.

(** C37. A configuration that [check] accepts builds a graph; the graph is one
    the runtime executes exactly when the parallelism is within the limit of
    [Validate], and every factory in it works exactly when a slide of q5 divides
    its window. So [check] does not report every configuration that cannot be
    measured. *)
Theorem bench_job_executable {Snk} c b (snk : Snk) : check c = Ok tt -> 1 <= b ->
  exists g, buildGraphWithSink c b snk = Some (Ok g) /\
    (Validate g = Ok tt <-> Parallelism c <= maxParallelism) /\
    ((forall id v, byID g !! id = Some v -> starts v) <-> (Query c = queryQ5 -> (SlideMillis c | WindowMillis c))).
Proof.
  intros Hck Hb. pose proof (proj1 (check_ok c) Hck) as Hc.
  destruct (operatorChain_ok (Snk := Snk) c Hc) as (l & El & Hl).
  destruct (bench_line c b snk l Hc Hb Hl) as (Hn & Hid & Hv).
  destruct (build_line_ok _ _ _ Hn Hid Hv) as (g & Eg & _ & Hby & Hval).
  { unfold sourceVertex. by destruct (is_query _ _). }
  { apply Forall_fmap, Forall_true. by intros [id f]. }
  { done. }
  exists g. unfold buildGraphWithSink. rewrite Hck, (proj2 (Z.ltb_ge _ _)), El by done. cbn [mbind option_bind].
  change (MkVertex (str "sink") _ _ _ _ _ _ _ _) with (sink_vertex c snk). rewrite Eg. split; [done|].
  assert (Graph.Parallelism (sourceVertex (Snk := Snk) c b) = Parallelism c) as Hsp by (unfold sourceVertex; by destruct (is_query _ _)).
  split.
  - rewrite Hval. rewrite Forall_cons, Forall_app, Forall_fmap, Hsp, Forall_singleton. cbn.
    pose proof (ck_parallelism c Hc). split; [by intros ([? ?] & _)|]. intros Hp. split; [done|]. split; [|done]. by apply Forall_true.
  - rewrite <- (cg_starts c l Hl).
    assert ((forall id v, byID g !! id = Some v -> starts v) <-> Forall starts (sourceVertex c b :: (op_of c <$> l) ++ [sink_vertex c snk])) as ->.
    { rewrite Forall_forall. split.
      - intros H v Hin. apply (H (ID v)). by apply Hby.
      - intros H id v [Hin _]%Hby. by apply H. }
    rewrite Forall_cons, Forall_app, Forall_fmap, Forall_singleton, Forall_fmap.
    assert (forall p : bytes * factory, starts (op_of (Snk := Snk) c p) <-> is_Some p.2) as Ho by (intros [id f]; unfold starts; cbn; tauto).
    split.
    + intros (_ & H & _). eapply Forall_impl; [exact H|]. intros p. apply Ho.
    + intros H. split; [by apply source_starts|]. split; [|done]. eapply Forall_impl; [exact H|]. intros p. apply Ho.
Qed.

(** Accepted, and its operator cannot be made: 300 does not divide 1000. *)
Definition unmeasurable : Config := MkConfig queryQ5 300 1000 1 0 100 1000 300.

Lemma bench_job_executable_witness :
  exists g, buildGraphWithSink unmeasurable 8 tt = Some (Ok g) /\
    (Validate g = Ok tt <-> 300 <= maxParallelism) /\
    ((forall id v, byID g !! id = Some v -> starts v) <-> (queryQ5 = queryQ5 -> (300 | 1000))).
Proof.
  apply (bench_job_executable unmeasurable 8 tt); [vm_compute; reflexivity|lia].
Defined.
