(* ===== verification/BenchFingerprint.v ===== *)
(** The machine a benchmark ran on ([cmd/bench/fingerprint.go]): what identifies
    it, when two runs are comparable, and how it is read from the files the
    kernel shows. The files and the runtime are arguments. *)
From S2P Require Import Prelude Strconv GoStrings Float64.

(** * Fingerprints *)

Record Fingerprint := MkFingerprint {
  CPUModel : bytes;
  NumCPU : Z;
  MemoryBytes : Z;
  DiskRotational : bytes;
  GoVersion : bytes;
  GOMAXPROCS : Z;
}.

#[export] Instance Fingerprint_eq_dec : EqDecision Fingerprint.
Proof. solve_decision. Defined.

Definition diskRotational : bytes := str "yes".
Definition diskSolidState : bytes := str "no".
Definition diskUnknown : bytes := str "unknown".

Definition zero_fingerprint : Fingerprint := MkFingerprint [] 0 0 [] [] 0.

Definition Fingerprint_String (f : Fingerprint) : bytes :=
  if bool_decide (f = zero_fingerprint) then str "an unattributed run: no machine was recorded"
  else
    let model := match CPUModel f with [] => str "unknown cpu" | m => m end in
    model ++ str ", " ++ FormatInt (NumCPU f) ++ str " cpus, " ++
    FormatFixed false 1 (fdiv (of_int64 (MemoryBytes f)) (of_int64 (2 ^ 30))) ++ str " GiB, disk rotational=" ++
    DiskRotational f ++ str ", " ++ GoVersion f ++ str ", gomaxprocs=" ++ FormatInt (GOMAXPROCS f).

Definition Matches (f other : Fingerprint) : bool :=
  let memory := sub64 (MemoryBytes f) (MemoryBytes other) in
  let memory := if memory <? 0 then i64 (- memory) else memory in
  bool_decide (CPUModel f = CPUModel other) &&
  (NumCPU f =? NumCPU other) &&
  (memory <? 2 ^ 30) &&
  bool_decide (DiskRotational f = DiskRotational other) &&
  bool_decide (GoVersion f = GoVersion other) &&
  (GOMAXPROCS f =? GOMAXPROCS other).

(** * The kernel's files *)

Definition newline : byte := Byte.x0a.
Definition colon : byte := Byte.x3a.

Definition cpu_keys : list bytes := [str "model name"; str "Model"; str "cpu model"].

Fixpoint cpu_lines (lines : list bytes) : bytes :=
  match lines with
  | [] => []
  | line :: lines =>
      match Cut colon line with
      | None => cpu_lines lines
      | Some (key, value) =>
          if bool_decide (TrimSpace key ∈ cpu_keys) then TrimSpace value else cpu_lines lines
      end
  end.

Definition parseCPUModel (cpuinfo : bytes) : bytes := cpu_lines (Split newline cpuinfo).

Fixpoint mem_lines (lines : list bytes) : Z :=
  match lines with
  | [] => 0
  | line :: lines =>
      match Cut colon line with
      | None => mem_lines lines
      | Some (key, value) =>
          if negb (bool_decide (TrimSpace key = str "MemTotal")) then mem_lines lines
          else
            match Fields value with
            | [] => 0
            | field :: fields =>
                match ParseInt field with
                | None => 0
                | Some n =>
                    match fields with
                    | unit :: _ => if bool_decide (unit = str "kB") then mul64 n 1024 else n
                    | [] => n
                    end
                end
            end
      end
  end.

Definition parseMemTotal (meminfo : bytes) : Z := mem_lines (Split newline meminfo).

(** * The device under a path *)

Definition backslash : byte := Byte.x5c.

(** [strconv.ParseUint(s, 8, 8)] of three bytes. *)
Definition octal_digit (b : byte) : option Z :=
  let d := byte_to_Z b - 48 in
  if (0 <=? d) && (d <? 8) then Some d else None.

Definition parse_octal (a b c : byte) : option byte :=
  x ← octal_digit a;
  y ← octal_digit b;
  z ← octal_digit c;
  let n := 64 * x + 8 * y + z in
  if n <? 256 then Some (byte_of_Z n) else None.

(** The loop; a string without a backslash is its own result. *)
Fixpoint unescapeMountPoint (s : bytes) : bytes :=
  match s with
  | [] => []
  | x :: t =>
      match t with
      | a :: b :: c :: rest =>
          if bool_decide (x = backslash) then
            match parse_octal a b c with
            | Some y => y :: unescapeMountPoint rest
            | None => x :: unescapeMountPoint t
            end
          else x :: unescapeMountPoint t
      | _ => x :: unescapeMountPoint t
      end
  end.

Definition underMount (path mount : bytes) : bool :=
  bool_decide (mount = [slash]) || bool_decide (path = mount) || HasPrefix path (mount ++ [slash]).

(** One line, from the best mount so far and its length. *)
Definition mount_step (path : bytes) (acc : bytes * Z) (line : bytes) : bytes * Z :=
  match Fields line with
  | _ :: _ :: dev :: _ :: point :: _ =>
      let mount := unescapeMountPoint point in
      if negb (underMount path mount) || (Z.of_nat (length mount) <=? acc.2) then acc
      else (dev, Z.of_nat (length mount))
  | _ => acc
  end.

Definition deviceForPath (mountinfo path : bytes) : bytes * bool :=
  let '(best, bestLen) := foldl (mount_step path) ([], -1) (Split newline mountinfo) in
  (best, 0 <=? bestLen).

(** * The machine *)

(** What the operating system and the Go runtime answer. *)
Record machine := MkMachine {
  os_ReadFile : bytes -> option bytes;
  os_Abs : bytes -> option bytes;
  os_EvalSymlinks : bytes -> option bytes;
  rt_NumCPU : Z;
  rt_Version : bytes;
  rt_GOMAXPROCS : Z;
}.

(** [filepath.Dir] of a clean path. *)
Fixpoint up_to_slash (s : bytes) : option bytes :=
  match s with
  | [] => None
  | b :: s => if bool_decide (b = slash) then Some s else up_to_slash s
  end.
Definition Dir (path : bytes) : bytes :=
  match up_to_slash (rev path) with
  | None => str "."
  | Some [] => [slash]
  | Some d => rev d
  end.

(** [filepath.Join(dir, "queue", "rotational")] of a clean [dir]. *)
Definition rotational_file (dir : bytes) : bytes :=
  (if bool_decide (dir = [slash]) then dir else dir ++ [slash]) ++ str "queue/rotational".

Section Machine.
Context (m : machine).

Fixpoint rotational_dirs (dirs : list bytes) : bytes :=
  match dirs with
  | [] => diskUnknown
  | dir :: dirs =>
      match os_ReadFile m (rotational_file dir) with
      | None => rotational_dirs dirs
      | Some data =>
          if bool_decide (TrimSpace data = str "1") then diskRotational
          else if bool_decide (TrimSpace data = str "0") then diskSolidState
          else rotational_dirs dirs
      end
  end.

Definition readRotational (sysDir : bytes) : bytes :=
  match os_EvalSymlinks m sysDir with
  | None => diskUnknown
  | Some resolved => rotational_dirs [resolved; Dir resolved]
  end.

Definition diskRotationalFor (dir : bytes) : bytes :=
  match os_Abs m dir with
  | None => diskUnknown
  | Some abs =>
      match os_ReadFile m (str "/proc/self/mountinfo") with
      | None => diskUnknown
      | Some data =>
          let '(dev, ok) := deviceForPath data abs in
          if negb ok then diskUnknown else readRotational (str "/sys/dev/block/" ++ dev)
      end
  end.

Definition cpuModel : bytes :=
  match os_ReadFile m (str "/proc/cpuinfo") with None => [] | Some data => parseCPUModel data end.

Definition totalMemoryBytes : Z :=
  match os_ReadFile m (str "/proc/meminfo") with None => 0 | Some data => parseMemTotal data end.

Definition machineFingerprint (dir : bytes) : Fingerprint :=
  MkFingerprint cpuModel (rt_NumCPU m) totalMemoryBytes (diskRotationalFor dir) (rt_Version m) (rt_GOMAXPROCS m).
End Machine.
