(* ===== verification/BenchFingerprintSpec.v ===== *)
(** What the reading of the machine promises: when two fingerprints agree, the
    escapes of mount points, and which mount a path is found on. *)
From S2P Require Import Prelude Strconv GoStrings BenchFingerprint.

(** * Agreement *)

Definition same_machine (f g : Fingerprint) : Prop :=
  CPUModel f = CPUModel g /\ NumCPU f = NumCPU g /\ DiskRotational f = DiskRotational g /\
  GoVersion f = GoVersion g /\ GOMAXPROCS f = GOMAXPROCS g.

(** The distance the comparison computes, which wraps. *)
Definition distance (a b : Z) : Z := let m := sub64 a b in if m <? 0 then i64 (- m) else m.

Lemma Matches_same f g : Matches f g = true <-> same_machine f g /\ distance (MemoryBytes f) (MemoryBytes g) < 2 ^ 30.
Proof.
  unfold Matches, same_machine. fold (distance (MemoryBytes f) (MemoryBytes g)).
  rewrite !andb_true_iff, !bool_decide_eq_true, !Z.eqb_eq, Z.ltb_lt. tauto.
Qed.

Lemma distance_sym a b : distance a b = distance b a.
Proof.
  unfold distance, sub64, i64.
  pose proof (Z.mod_pos_bound (a - b + 2 ^ 63) (2 ^ 64) ltac:(lia)). pose proof (Z.mod_pos_bound (b - a + 2 ^ 63) (2 ^ 64) ltac:(lia)).
  assert (exists k, (a - b + 2 ^ 63) mod 2 ^ 64 - 2 ^ 63 = a - b + k * 2 ^ 64) as [k Hk].
  { exists (- ((a - b + 2 ^ 63) / 2 ^ 64)). rewrite Z.mod_eq by lia. lia. }
  assert (exists j, (b - a + 2 ^ 63) mod 2 ^ 64 - 2 ^ 63 = b - a + j * 2 ^ 64) as [j Hj].
  { exists (- ((b - a + 2 ^ 63) / 2 ^ 64)). rewrite Z.mod_eq by lia. lia. }
  rewrite Hk in *. rewrite Hj in *.
  destruct (Z.ltb_spec (a - b + k * 2 ^ 64) 0), (Z.ltb_spec (b - a + j * 2 ^ 64) 0).
  all: repeat match goal with |- context [?x mod 2 ^ 64] => pose proof (Z.mod_pos_bound x (2 ^ 64) ltac:(lia)); pose proof (Z.mod_eq x (2 ^ 64) ltac:(lia)); generalize dependent (x mod 2 ^ 64); intros end.
  all: nia.
Qed.

Lemma distance_memory a b : 0 <= a <= max_int64 -> 0 <= b <= max_int64 -> distance a b = Z.abs (a - b).
Proof.
  unfold_ints. intros Ha Hb. unfold distance, sub64, i64. rewrite !Z.mod_small by lia.
  destruct (Z.ltb_spec (a - b + 2 ^ 63 - 2 ^ 63) 0); lia.
Qed.

(** A machine matches itself, the comparison does not depend on which run is the
    baseline, and two matching machines agree in everything but up to a gibibyte
    of memory. *)
Theorem fingerprint_matches f g :
  Matches f f = true /\ Matches f g = Matches g f /\
  (0 <= MemoryBytes f <= max_int64 -> 0 <= MemoryBytes g <= max_int64 ->
   (Matches f g = true <-> same_machine f g /\ Z.abs (MemoryBytes f - MemoryBytes g) < 2 ^ 30)).
Proof.
  split_and!.
  - apply Matches_same. split; [by repeat split|]. unfold distance, sub64. by rewrite Z.sub_diag.
  - apply eq_bool_prop_intro. rewrite !Is_true_true, !Matches_same, distance_sym. unfold same_machine. intuition congruence.
  - intros Hf Hg. by rewrite Matches_same, distance_memory.
Qed.

(** * Mount points *)

(** What the kernel writes for a byte of a mount point. *)
Definition octal3 (b : byte) : bytes :=
  let z := byte_to_Z b in [digit (z / 64); digit (z / 8 mod 8); digit (z mod 8)].
Definition escaped : list byte := [Byte.x20; Byte.x09; Byte.x0a; backslash].
Definition escape_byte (b : byte) : bytes := if bool_decide (b ∈ escaped) then backslash :: octal3 b else [b].
Definition escape (s : bytes) : bytes := s ≫= escape_byte.

Lemma unescape_octal b t : unescapeMountPoint (backslash :: octal3 b ++ t) = b :: unescapeMountPoint t.
Proof.
  cbn [octal3 app unescapeMountPoint]. rewrite bool_decide_true by done.
  assert (parse_octal (digit (byte_to_Z b / 64)) (digit (byte_to_Z b / 8 mod 8)) (digit (byte_to_Z b mod 8)) = Some b) as ->; [|done].
  by destruct b.
Qed.

Lemma unescape_plain b t : b <> backslash -> unescapeMountPoint (b :: t) = b :: unescapeMountPoint t.
Proof. intros Hb. destruct t as [|x [|y [|z t]]]; try done. cbn [unescapeMountPoint]. by rewrite bool_decide_false. Qed.

Lemma unescape_escape_app s t : unescapeMountPoint (escape s ++ t) = s ++ unescapeMountPoint t.
Proof.
  induction s as [|b s IH]; [done|]. change (escape (b :: s)) with (escape_byte b ++ escape s). rewrite <- app_assoc.
  unfold escape_byte. case_bool_decide as Hb.
  - rewrite <- app_comm_cons, unescape_octal, IH. done.
  - cbn [app]. rewrite unescape_plain, IH by set_solver. done.
Qed.

Lemma unescape_escape s : unescapeMountPoint (escape s) = s.
Proof. rewrite <- (app_nil_r (escape s)), unescape_escape_app. apply app_nil_r. Qed.

(** * The mount of a path *)

(** The device and the mount point of a line. *)
Definition mount_of (line : bytes) : option (bytes * bytes) :=
  match Fields line with
  | _ :: _ :: dev :: _ :: point :: _ => Some (dev, unescapeMountPoint point)
  | _ => None
  end.

(** The step over what the lines say. *)
Definition choose (path : bytes) (acc : bytes * Z) (m : bytes * bytes) : bytes * Z :=
  if negb (underMount path m.2) || (Z.of_nat (length m.2) <=? acc.2) then acc else (m.1, Z.of_nat (length m.2)).

Lemma mount_steps path lines acc :
  foldl (mount_step path) acc lines = foldl (choose path) acc (omap mount_of lines).
Proof.
  revert acc. induction lines as [|line lines IH]; intros acc; [done|]. cbn [foldl]. rewrite IH.
  change (omap mount_of (line :: lines)) with
    (match mount_of line with Some m => m :: omap mount_of lines | None => omap mount_of lines end).
  assert (mount_step path acc line = match mount_of line with Some m => choose path acc m | None => acc end) as ->.
  { unfold mount_step, mount_of. by destruct (Fields line) as [|? [|? [|? [|? [|? ?]]]]]. }
  by destruct (mount_of line).
Qed.

(** The first of the deepest mounts over a path. *)
Definition deepest (path : bytes) (ms : list (bytes * bytes)) (dev : bytes) (p : bytes) : Prop :=
  exists l1 l2, ms = l1 ++ (dev, p) :: l2 /\ underMount path p = true /\
    (forall m, m ∈ l1 -> underMount path m.2 = true -> (length m.2 < length p)%nat) /\
    (forall m, m ∈ l2 -> underMount path m.2 = true -> (length m.2 <= length p)%nat).

Lemma choose_best path ms best len : -1 <= len ->
  let r := foldl (choose path) (best, len) ms in
  (r = (best, len) /\ (forall m, m ∈ ms -> underMount path m.2 = true -> Z.of_nat (length m.2) <= len)) \/
  (exists p, deepest path ms r.1 p /\ r.2 = Z.of_nat (length p) /\ len < r.2).
Proof.
  revert best len. induction ms as [|[d p] ms IH]; intros best len Hlen; cbn [foldl].
  - left. split; [done|]. by intros m ?%elem_of_nil.
  - assert (choose path (best, len) (d, p) =
      if negb (underMount path p) || (Z.of_nat (length p) <=? len) then (best, len) else (d, Z.of_nat (length p))) as -> by done.
    destruct (underMount path p) eqn:Hu; cbn [negb orb].
    + destruct (Z.leb_spec (Z.of_nat (length p)) len) as [Hle|Hlt].
      * destruct (IH best len Hlen) as [[E Hall]|(q & (l1 & l2 & E & Hq & H1 & H2) & Hr & Hgt)].
        -- left. split; [done|]. intros m [->|Hm]%elem_of_cons; [done|by apply Hall].
        -- right. exists q. split; [|done]. exists ((d, p) :: l1), l2. split_and!; [exact (f_equal (cons (d, p)) E)|done| |done].
           intros m [->|Hm]%elem_of_cons Hum; [cbn; lia|by apply H1].
      * right. destruct (IH d (Z.of_nat (length p)) ltac:(lia)) as [[E Hall]|(q & (l1 & l2 & E & Hq & H1 & H2) & Hr & Hgt)].
        -- exists p. rewrite E. split_and!; [|done|cbn; lia]. exists [], ms. split_and!; [done|done|by intros ? ?%elem_of_nil|].
           intros m Hm Hum. specialize (Hall m Hm Hum). lia.
        -- exists q. split_and!; [|done|lia]. exists ((d, p) :: l1), l2. split_and!; [exact (f_equal (cons (d, p)) E)|done| |done].
           intros m [->|Hm]%elem_of_cons Hum; [cbn; lia|by apply H1].
    + destruct (IH best len Hlen) as [[E Hall]|(q & (l1 & l2 & E & Hq & H1 & H2) & Hr & Hgt)].
      * left. split; [done|]. intros m [->|Hm]%elem_of_cons; [cbn; congruence|by apply Hall].
      * right. exists q. split; [|done]. exists ((d, p) :: l1), l2. split_and!; [exact (f_equal (cons (d, p)) E)|done| |done].
        intros m [->|Hm]%elem_of_cons Hum; [cbn in Hum; congruence|by apply H1].
Qed.

(** A line of the kernel's table, and the table. *)
Record mount_entry := MkEntry {
  en_id : bytes;
  en_parent : bytes;
  en_device : bytes;
  en_root : bytes;
  en_point : bytes;
  en_rest : list bytes;
}.

Definition entry_words (e : mount_entry) : list bytes :=
  en_id e :: en_parent e :: en_device e :: en_root e :: escape (en_point e) :: en_rest e.
Definition entry_text (e : mount_entry) : bytes := join space (entry_words e) ++ [newline].
Definition entry_mount (e : mount_entry) : bytes * bytes := (en_device e, en_point e).

Lemma Split_lines es : Forall (fun e => Forall word (entry_words e)) es ->
  Split newline (es ≫= entry_text) = ((fun e => join space (entry_words e)) <$> es) ++ [[]].
Proof.
  induction 1 as [|e es He Hes IH]; [done|].
  change ((e :: es) ≫= entry_text) with (entry_text e ++ (es ≫= entry_text)). unfold entry_text at 1. rewrite <- app_assoc.
  cbn [app]. rewrite Split_app by (by apply join_words_no). by rewrite IH.
Qed.

Lemma mounts_read es : Forall (fun e => Forall word (entry_words e)) es ->
  omap mount_of (((fun e => join space (entry_words e)) <$> es) ++ [[]]) = entry_mount <$> es.
Proof.
  induction 1 as [|e es He Hes IH]; [done|]. rewrite fmap_cons. cbn [app].
  change (omap mount_of (join space (entry_words e) :: ?l)) with
    (match mount_of (join space (entry_words e)) with Some m => m :: omap mount_of l | None => omap mount_of l end).
  assert (mount_of (join space (entry_words e)) = Some (entry_mount e)) as ->.
  { unfold mount_of. rewrite (Fields_join _ He). cbn. by rewrite unescape_escape. }
  by rewrite fmap_cons, IH.
Qed.

(** Whatever bytes the mount points hold that the kernel escapes, the device
    found for a path is the one of the first of the deepest mounts the path is
    under, and there is none exactly when it is under no mount. *)
Theorem device_of_deepest_mount es path : Forall (fun e => Forall word (entry_words e)) es ->
  let r := deviceForPath (es ≫= entry_text) path in
  match r.2 with
  | true => exists p, deepest path (entry_mount <$> es) r.1 p
  | false => r.1 = [] /\ forall e, e ∈ es -> underMount path (en_point e) = false
  end.
Proof.
  intros Hes. unfold deviceForPath. rewrite (Split_lines es Hes), mount_steps, (mounts_read es Hes).
  pose proof (choose_best path (entry_mount <$> es) [] (-1) ltac:(lia)) as H. cbv zeta in H.
  destruct (foldl (choose path) ([], -1) (entry_mount <$> es)) as [d n]. cbn [fst snd] in *.
  destruct H as [[[= -> ->] Hall]|(p & Hp & -> & Hn)].
  - cbn. split; [done|]. intros e He. destruct (underMount path (en_point e)) eqn:Hu; [|done].
    specialize (Hall (entry_mount e) (list_elem_of_fmap_2 _ _ _ He) Hu). lia.
  - rewrite (proj2 (Z.leb_le 0 _)) by lia. by exists p.
Qed.

(** A working directory under [/mnt/my disk]. *)
Definition sample_entries : list mount_entry :=
  [MkEntry (str "22") (str "1") (str "8:1") (str "/") (str "/") [str "rw"; str "-"; str "ext4"];
   MkEntry (str "40") (str "22") (str "8:17") (str "/") (str "/mnt/my disk") [str "rw"; str "-"; str "ext4"];
   MkEntry (str "41") (str "22") (str "0:30") (str "/") (str "/mnt/my") [str "rw"]].

Lemma device_of_deepest_mount_witness :
  exists p, deepest (str "/mnt/my disk/run") (entry_mount <$> sample_entries) (str "8:17") p.
Proof.
  pose proof (device_of_deepest_mount sample_entries (str "/mnt/my disk/run")
    ltac:(refine (bool_decide_eq_true_1 _ _); vm_compute; reflexivity)) as H.
  assert (deviceForPath (sample_entries ≫= entry_text) (str "/mnt/my disk/run") = (str "8:17", true)) as E by (vm_compute; reflexivity).
  rewrite E in H. exact H.
Defined.

(** The kernel does not escape other white space, and [strings.Fields] cuts a
    mount point at it: the path is then found on the root's device. *)
Example unicode_space_splits :
  let point := str "/mnt/my" ++ [Byte.xc2; Byte.xa0] ++ str "disk" in
  let es := [MkEntry (str "22") (str "1") (str "8:1") (str "/") (str "/") [str "rw"];
             MkEntry (str "40") (str "22") (str "8:17") (str "/") point [str "rw"]] in
  deviceForPath (es ≫= entry_text) (point ++ str "/run") = (str "8:1", true).
Proof. by vm_compute. Qed.
