(* ===== verification/BenchMain.v ===== *)
(** The benchmark's command ([cmd/bench/main.go]) and its check against a
    baseline ([cmd/bench/fingerprint.go]): the sweep, the modes, the report, and
    what is printed and reported of it. The measurements are arguments. *)
From S2P Require Import Prelude Strconv GoStrings Float64 BenchWorkload BenchFingerprint.

(** * Sweeps *)

Record sweepOptions := MkSweepOptions {
  so_mode : bytes;
  so_records : Z;
  so_parallelism : bytes;
  so_query : bytes;
  so_seed : Z;
  so_keys : Z;
  so_auctions : bytes;
  so_window : Z;
  so_slide : Z;
  so_checkpoints : Z;
  so_stateDir : bytes;
  so_jsonPath : bytes;
  so_baseline : bytes;
  so_threshold : float64;
}.

Inductive sweep_error :=
| SweepFlag (e : flag_error)
| SweepConfig (e : bench_error).

Definition config_of (opts : sweepOptions) (name : bytes) (a p : Z) : Config :=
  MkConfig name p (so_records opts) (so_seed opts) (so_keys opts) a (so_window opts) (so_slide opts).

(** The three loops, over what is appended to. *)
Definition sweep_step (configs : list Config) (cfg : Config) : result sweep_error (list Config) :=
  match check cfg with
  | Err e => Err (SweepConfig e)
  | Ok _ => Ok (configs ++ [cfg])
  end.

Fixpoint fold_result {E A B} (f : A -> B -> result E A) (l : list B) (a : A) : result E A :=
  match l with
  | [] => Ok a
  | b :: l => a ← f a b; fold_result f l a
  end.

Definition sweep (opts : sweepOptions) : result sweep_error (list Config) :=
  names ← wrap_err SweepFlag (parseQueries (so_query opts));
  levels ← wrap_err SweepFlag (parseLevels (so_parallelism opts));
  auctions ← wrap_err SweepFlag (parseInt64s (so_auctions opts) (str "auctions"));
  fold_result (fun configs name =>
    fold_result (fun configs a =>
      fold_result (fun configs p => sweep_step configs (config_of opts name a p)) levels configs)
      auctions configs)
    names [].

(** The flags' defaults. *)
Definition default_options : sweepOptions :=
  MkSweepOptions (str "throughput") 2000000 (str "1,2,4,8,16") queryIdentity 1 10000 (str "10000") 5000 1250 8 [] [] []
    (of_int64 15).

Example default_sweep :
  sweep default_options = Ok ((fun p => MkConfig queryIdentity p 2000000 1 10000 10000 5000 1250) <$> [1; 2; 4; 8; 16]).
Proof. by vm_compute. Qed.

(** * Reports *)

Record Result := MkResult {
  res_Config : Config;
  ElapsedMillis : Z;
  RecordsPerSec : float64;
  Oversubscribed : bool;
}.

Record Report := MkReport {
  rep_Fingerprint : Fingerprint;
  Note : bytes;
  Results : list Result;
}.

(** The first result that satisfies [p]. *)
Fixpoint first_result (p : Result -> bool) (l : list Result) : option Result :=
  match l with
  | [] => None
  | res :: l => if p res then Some res else first_result p l
  end.

Definition baselineFor (want : Report) (got : Result) : option Result :=
  first_result (fun res => bool_decide (res_Config res = res_Config got)) (Results want).

Definition baseOf (r : Report) (query : bytes) : option Result :=
  first_result (fun res => bool_decide (Query (res_Config res) = query) && (Parallelism (res_Config res) =? 1)) (Results r).

(** * One measurement *)

(** [time.Duration]: its seconds and its milliseconds. *)
Definition Seconds (d : Z) : float64 :=
  fadd (of_int64 (Z.quot d 1000000000)) (fdiv (of_int64 (Z.rem d 1000000000)) (of_int64 1000000000)).
Definition Milliseconds (d : Z) : Z := Z.quot d 1000000.

(** What a run fails with: the job's error, or the graph's. *)
Inductive measure_error {E : Type} :=
| MeasureGraph (e : bench_error)
| MeasureRun (label : bytes) (e : E).
Arguments measure_error : clear implicits.

Section Measure.
Context {E : Type} (numCPU : Z).
(** Running a graph: how long it took, and its error. *)
Context (timeRun : Graph.Graph bench_source factory unit -> Z * option E).

(** [None] where building the graph panics. *)
Definition measure (cfg : Config) : option (result (measure_error E) Result) :=
  g ← buildGraph cfg benchThroughputBarrierInterval;
  Some match g with
       | Err e => Err (MeasureGraph e)
       | Ok g =>
           match timeRun g with
           | (_, Some e) => Err (MeasureRun (label cfg) e)
           | (elapsed, None) =>
               Ok (MkResult cfg (Milliseconds elapsed) (fdiv (of_int64 (Records cfg)) (Seconds elapsed)) (oversubscribed numCPU cfg))
           end
       end.
End Measure.

Definition oversubscribedNote (res : Result) : bytes := if Oversubscribed res then str " OVERSUBSCRIBED" else [].

(** The lines of the scaling table. *)
Definition printScaling (r : Report) : list bytes :=
  (str "scaling (" ++ Fingerprint_String (rep_Fingerprint r) ++ str "):") ::
  (queries ≫= fun name =>
    match baseOf r name with
    | None => []
    | Some base =>
        Results r ≫= fun res =>
          if negb (bool_decide (Query (res_Config res) = name)) then []
          else [str "  " ++ label (res_Config res) ++ str ": " ++ FormatFixed false 0 (RecordsPerSec res) ++ str " rec/s, " ++
                FormatFixed false 2 (fdiv (RecordsPerSec res) (RecordsPerSec base)) ++ str "x" ++ oversubscribedNote res]
    end).

(** * The check against a baseline *)

(** How much slower a result is than another, in percent; negative is slower. *)
Definition change (res base : Result) : float64 :=
  fmul (fdiv (fsub (RecordsPerSec res) (RecordsPerSec base)) (RecordsPerSec base)) (of_int64 100).

(** What one result adds to the regressions, the count and the output. *)
Record comparison := MkComparison {
  regressions : list bytes;
  compared : Z;
  printed : list bytes;
}.

Definition compare_step (want : Report) (threshold : float64) (c : comparison) (res : Result) : comparison :=
  match baselineFor want res with
  | None => c
  | Some base =>
      let change := change res base in
      let line := label (res_Config res) ++ str ": " ++ FormatFixed false 0 (RecordsPerSec res) ++
        str " rec/s against baseline " ++ FormatFixed false 0 (RecordsPerSec base) ++ str " (" ++
        FormatFixed true 1 change ++ str "%)" in
      MkComparison
        (if flt change (fneg threshold)
         then regressions c ++ [label (res_Config res) ++ str " is " ++ FormatFixed false 1 (fneg change) ++ str "% slower"]
         else regressions c)
        (compared c + 1) (printed c ++ [line])
  end.

Definition skipped_lines (want got : Report) : list bytes :=
  [str "bench-check SKIPPED: the baseline was measured on a different machine.";
   str "  baseline: " ++ Fingerprint_String (rep_Fingerprint want);
   str "  this run: " ++ Fingerprint_String (rep_Fingerprint got);
   str "Nothing was compared. Published numbers come from one machine on purpose; see docs/BENCHMARKS.md."] ++
  match Note want with [] => [] | note => [str "The baseline says: " ++ note] end.

Definition nothing_compared (want : Report) : bytes :=
  str "bench-check compared nothing: the baseline holds " ++ FormatInt (Z.of_nat (length (Results want))) ++
  str " results and none matches a configuration this run measured".

(** The lines printed, and the error. *)
Definition compareReports (want got : Report) (threshold : float64) : list bytes * option bytes :=
  if negb (Matches (rep_Fingerprint want) (rep_Fingerprint got)) then (skipped_lines want got, None)
  else
    let c := foldl (compare_step want threshold) (MkComparison [] 0 []) (Results got) in
    match regressions c with
    | _ :: _ =>
        (printed c, Some (str "regression worse than " ++ FormatFixed false 0 threshold ++ str "%: " ++ join (str "; ") (regressions c)))
    | [] => (printed c ++ (if compared c =? 0 then [nothing_compared want] else []), None)
    end.

(** * Files *)

(** [filepath.Ext]: from the last dot of the last element of the path, if it has
    one. *)
Fixpoint ext_loop (r acc : bytes) : bytes :=
  match r with
  | [] => []
  | b :: r =>
      if bool_decide (b = slash) then []
      else if bool_decide (b = Byte.x2e) then b :: acc
      else ext_loop r (b :: acc)
  end.
Definition Ext (path : bytes) : bytes := ext_loop (rev path) [].

Definition suffixedJSONPath (path suffix : bytes) : bytes :=
  TrimSuffix path (Ext path) ++ str "." ++ suffix ++ Ext path.
Definition stateJSONPath (path : bytes) : bytes := suffixedJSONPath path (str "state").

(** * Modes *)

Definition modeThroughput : bytes := str "throughput".
Definition modeState : bytes := str "state".
Definition modeRecovery : bytes := str "recovery".
Definition modeAll : bytes := str "all".
