(* ===== verification/BenchMainSpec.v ===== *)
(** What the benchmark's command promises: the sweep is the product of its
    flags, the check against a baseline fails exactly on a regression, and the
    reports of one invocation do not overwrite each other. *)
From S2P Require Import Prelude Strconv GoStrings Float64 BenchWorkload BenchSpec BenchFingerprint BenchFingerprintSpec BenchMain.

(** * Folds that may fail *)

Lemma fold_result_app {E A B} (f : A -> B -> result E A) l k a :
  fold_result f (l ++ k) a = a' ← fold_result f l a; fold_result f k a'.
Proof. revert a. induction l as [|b l IH]; intros a; [done|]. cbn. destruct (f a b) as [a'|e]; [apply IH|done]. Qed.

Lemma fold_result_bind {E A B C} (f : A -> B -> result E A) (g : C -> list B) l a :
  fold_result (fun a c => fold_result f (g c) a) l a = fold_result f (l ≫= g) a.
Proof.
  revert a. induction l as [|c l IH]; intros a; [done|]. change ((c :: l) ≫= g) with (g c ++ (l ≫= g)). rewrite fold_result_app.
  cbn. destruct (fold_result f (g c) a) as [a'|e]; [apply IH|done].
Qed.

Lemma fold_result_ext {E A B} (f g : A -> B -> result E A) l a : (forall a b, f a b = g a b) -> fold_result f l a = fold_result g l a.
Proof. intros H. revert a. induction l as [|b l IH]; intros a; [done|]. cbn. rewrite H. destruct (g a b); [apply IH|done]. Qed.

Lemma fold_result_fmap {E A B C} (f : A -> B -> result E A) (g : C -> B) l a :
  fold_result (fun a c => f a (g c)) l a = fold_result f (g <$> l) a.
Proof. revert a. induction l as [|c l IH]; intros a; [done|]. cbn. destruct (f a (g c)) as [a'|e]; [apply IH|done]. Qed.

(** * The sweep *)

(** The configurations of the flags, in the order they run. *)
Definition product (opts : sweepOptions) (names : list bytes) (auctions levels : list Z) : list Config :=
  names ≫= fun name => auctions ≫= fun a => config_of opts name a <$> levels.

(** The error of the first configuration that [check] refuses. *)
Fixpoint first_refusal (l : list Config) : option bench_error :=
  match l with
  | [] => None
  | c :: l => match check c with Err e => Some e | Ok _ => first_refusal l end
  end.

Lemma sweep_steps l acc :
  fold_result sweep_step l acc = match first_refusal l with Some e => Err (SweepConfig e) | None => Ok (acc ++ l) end.
Proof.
  revert acc. induction l as [|c l IH]; intros acc; cbn; [by rewrite app_nil_r|].
  assert (sweep_step acc c = match check c with Err e => Err (SweepConfig e) | Ok _ => Ok (acc ++ [c]) end) as -> by done.
  destruct (check c) as [u|e]; cbn; [|done]. rewrite IH. destruct (first_refusal l); [done|]. by rewrite <- app_assoc.
Qed.

Lemma first_refusal_None l : first_refusal l = None <-> Forall checked l.
Proof.
  induction l as [|c l IH]; [done|]. cbn. rewrite Forall_cons, <- check_ok, <- IH. by destruct (check c) as [[]|e]; naive_solver.
Qed.

Lemma sweep_eq opts names levels auctions :
  parseQueries (so_query opts) = Ok names -> parseLevels (so_parallelism opts) = Ok levels ->
  parseInt64s (so_auctions opts) (str "auctions") = Ok auctions ->
  sweep opts = match first_refusal (product opts names auctions levels) with
               | Some e => Err (SweepConfig e)
               | None => Ok (product opts names auctions levels)
               end.
Proof.
  intros H1 H2 H3. transitivity (fold_result sweep_step (product opts names auctions levels) []); [|apply sweep_steps].
  unfold sweep, product. rewrite H1, H2, H3. cbn [wrap_err mbind result_bind].
  rewrite <- fold_result_bind. apply fold_result_ext. intros a name.
  rewrite <- fold_result_bind. apply fold_result_ext. intros b auction. apply (fold_result_fmap sweep_step).
Qed.

(** * The flags *)

(** Fields that come through the separators unchanged. *)
Definition field (s : bytes) : Prop := word s /\ comma ∉ s.

Lemma field_FormatInt z : field (FormatInt z).
Proof. split; [apply FormatInt_word|]. by apply FormatInt_no_byte. Qed.

Lemma read_fields_ok {A} (item : bytes -> result flag_error A) (show : A -> bytes) l :
  Forall (fun a => field (show a) /\ item (show a) = Ok a) l -> read_fields item (show <$> l) = Ok l.
Proof.
  induction 1 as [|a l [[Hw Hc] Ha] Hl IH]; [done|]. cbn. rewrite (TrimSpace_word _ Hw). destruct Hw as [Hne _].
  destruct (show a) eqn:E; [done|]. by rewrite Ha, IH.
Qed.

Lemma parse_list_ok {A} (item : bytes -> result flag_error A) (show : A -> bytes) none l :
  l <> [] -> Forall (fun a => field (show a) /\ item (show a) = Ok a) l ->
  parse_list item none (join [comma] (show <$> l)) = Ok l.
Proof.
  intros Hne Hl. unfold parse_list. rewrite Split_join.
  - rewrite (read_fields_ok _ _ _ Hl). by destruct l.
  - by destruct l.
  - apply Forall_fmap. eapply Forall_impl; [exact Hl|]. by intros a [[_ Hc] _].
Qed.

Lemma parseLevels_ok ls : ls <> [] -> Forall (fun p => 1 <= p <= max_int64) ls ->
  parseLevels (join [comma] (FormatInt <$> ls)) = Ok ls.
Proof.
  intros Hne Hl. apply parse_list_ok; [done|]. eapply Forall_impl; [exact Hl|]. intros p Hp. cbv beta in Hp. split; [apply field_FormatInt|].
  unfold parse_level. rewrite ParseInt_FormatInt by (unfold_ints; lia). by rewrite (proj2 (Z.ltb_ge p 1)) by lia.
Qed.

Lemma parseInt64s_ok what ns : ns <> [] -> Forall is_i64 ns ->
  parseInt64s (join [comma] (FormatInt <$> ns)) what = Ok ns.
Proof.
  intros Hne Hl. apply parse_list_ok; [done|]. eapply Forall_impl; [exact Hl|]. intros p Hp. split; [apply field_FormatInt|].
  unfold parse_int64. by rewrite ParseInt_FormatInt.
Qed.

Lemma query_field q : q ∈ queries -> field q.
Proof.
  intros Hq. assert (Forall field queries) as H; [|by apply (proj1 (Forall_forall _ _) H)].
  repeat constructor; try done; by apply (bool_decide_unpack _).
Qed.

Lemma join_word names : names <> [] -> Forall word names -> word (join [comma] names).
Proof.
  intros Hne Hn. induction Hn as [|q names Hq Hn IH]; [done|]. destruct names as [|q' names]; [done|].
  change (join [comma] (q :: q' :: names)) with (q ++ comma :: join [comma] (q' :: names)).
  destruct Hq as [Hne' Hq], (IH ltac:(done)) as [_ IH']. split; [by destruct q|]. apply Forall_app. split; [done|]. by constructor.
Qed.

Lemma joined_not_all names : names <> [] -> Forall (fun q => q ∈ queries) names -> TrimSpace (join [comma] names) <> str "all".
Proof.
  intros Hne Hn. rewrite TrimSpace_word.
  - destruct names as [|q [|q' names]]; [done| |].
    + cbn. intros ->. apply Forall_singleton in Hn. revert Hn. by apply (bool_decide_unpack _).
    + intros E. assert (comma ∈ str "all") as H; [|revert H; by apply (bool_decide_unpack _)].
      rewrite <- E. change (join [comma] (q :: q' :: names)) with (q ++ comma :: join [comma] (q' :: names)). set_solver.
  - apply join_word; [done|]. eapply Forall_impl; [exact Hn|]. by intros q [? _]%query_field.
Qed.

Lemma parseQueries_ok names : names <> [] -> Forall (fun q => q ∈ queries) names -> parseQueries (join [comma] names) = Ok names.
Proof.
  intros Hne Hn. unfold parseQueries. rewrite bool_decide_false by (by apply joined_not_all).
  rewrite <- (list_fmap_id names) at 1. apply parse_list_ok; [done|].
  eapply Forall_impl; [exact Hn|]. intros q Hq. split; [by apply query_field|]. unfold parse_query. by rewrite bool_decide_true.
Qed.

(** The sweep of flags that list queries, auction spaces and levels runs exactly
    their product, the levels innermost, and none of it when one of the
    configurations is not one to measure. *)
Theorem sweep_product opts names auctions levels :
  names <> [] -> Forall (fun q => q ∈ queries) names -> auctions <> [] -> Forall is_i64 auctions ->
  levels <> [] -> Forall (fun p => 1 <= p <= max_int64) levels ->
  so_query opts = join [comma] names -> so_auctions opts = join [comma] (FormatInt <$> auctions) ->
  so_parallelism opts = join [comma] (FormatInt <$> levels) ->
  let configs := names ≫= fun name => auctions ≫= fun a => config_of opts name a <$> levels in
  (Forall checked configs -> sweep opts = Ok configs) /\
  (~ Forall checked configs -> exists c e, c ∈ configs /\ check c = Err e /\ sweep opts = Err (SweepConfig e)).
Proof.
  intros Hn Hnames Ha Hauctions Hl Hlevels Eq Ea Ep configs.
  assert (sweep opts = match first_refusal configs with Some e => Err (SweepConfig e) | None => Ok configs end) as ->.
  { apply sweep_eq; rewrite ?Eq, ?Ea, ?Ep; [by apply parseQueries_ok|by apply parseLevels_ok|by apply parseInt64s_ok]. }
  clearbody configs. rewrite <- first_refusal_None. split; [by intros ->|].
  induction configs as [|c l IH]; [done|]. cbn. destruct (check c) as [u|e] eqn:Ec.
  - intros H. destruct (IH H) as (c' & e & Hin & He & Hs). exists c', e. split_and!; [by right|done|by destruct (first_refusal l)].
  - intros _. exists c, e. split_and!; [by left|done|done].
Qed.

Definition sample_options : sweepOptions :=
  MkSweepOptions modeAll 2000000 (str "1,16") (str "identity,q5") 1 10000 (str "100,10000") 5000 1250 8 [] [] [] (of_int64 15).

Lemma sweep_product_witness :
  length [queryIdentity; queryQ5] = 2%nat /\
  sweep sample_options = Ok ([queryIdentity; queryQ5] ≫= fun name => [100; 10000] ≫= fun a => config_of sample_options name a <$> [1; 16]).
Proof.
  split; [reflexivity|].
  refine (proj1 (sweep_product sample_options [queryIdentity; queryQ5] [100; 10000] [1; 16] _ _ _ _ _ _ _ _ _) _).
  - discriminate.
  - refine (bool_decide_eq_true_1 _ _); vm_compute; reflexivity.
  - discriminate.
  - repeat constructor; discriminate.
  - discriminate.
  - repeat constructor; discriminate.
  - vm_compute; reflexivity.
  - vm_compute; reflexivity.
  - vm_compute; reflexivity.
  - repeat constructor; try (apply (bool_decide_unpack _); vm_compute; exact I); try discriminate; intros; first [discriminate|split; discriminate].
Defined.

(** * The check against a baseline *)

Definition regressed (want : Report) (threshold : float64) (res : Result) : bool :=
  match baselineFor want res with Some base => flt (change res base) (fneg threshold) | None => false end.

Definition covered (want : Report) (res : Result) : bool := bool_decide (is_Some (baselineFor want res)).

Definition how_many (p : Result -> bool) (l : list Result) : nat := length (filter (fun res => p res = true) l).

Lemma how_many_cons p res l : how_many p (res :: l) = ((if p res then 1 else 0) + how_many p l)%nat.
Proof. unfold how_many. rewrite filter_cons. by destruct (p res). Qed.

Lemma how_many_pos p l : (0 < how_many p l)%nat <-> exists res, res ∈ l /\ p res = true.
Proof.
  induction l as [|res l IH]; [split; [cbn; lia|by intros (? & ?%elem_of_nil & _)]|].
  rewrite how_many_cons. setoid_rewrite elem_of_cons. destruct (p res) eqn:E; [split; [by exists res; split; [left|]|lia]|].
  cbn. rewrite IH. split; [naive_solver|]. intros (res' & [->|Hin] & H); [congruence|by exists res'].
Qed.

Lemma how_many_le p q l : (forall res, p res = true -> q res = true) -> (how_many p l <= how_many q l)%nat.
Proof.
  intros H. induction l as [|res l IH]; [done|]. rewrite !how_many_cons.
  destruct (p res) eqn:E; [rewrite (H res E); lia|destruct (q res); lia].
Qed.

Lemma compare_step_counts want threshold c res :
  length (regressions (compare_step want threshold c res)) = ((if regressed want threshold res then 1 else 0) + length (regressions c))%nat /\
  compared (compare_step want threshold c res) = compared c + (if covered want res then 1 else 0) /\
  length (printed (compare_step want threshold c res)) = ((if covered want res then 1 else 0) + length (printed c))%nat.
Proof.
  unfold compare_step, regressed, covered. destruct (baselineFor want res) as [base|].
  - rewrite bool_decide_true by by eexists. cbn [regressions compared printed]. rewrite length_app.
    destruct (flt _ _); rewrite ?length_app; cbn [length]; split_and!; lia.
  - rewrite bool_decide_false by by intros [? [=]]. split_and!; lia.
Qed.

Lemma compare_steps want threshold l c :
  let r := foldl (compare_step want threshold) c l in
  length (regressions r) = (length (regressions c) + how_many (regressed want threshold) l)%nat /\
  compared r = compared c + Z.of_nat (how_many (covered want) l) /\
  length (printed r) = (length (printed c) + how_many (covered want) l)%nat.
Proof.
  revert c. induction l as [|res l IH]; intros c; cbn [foldl]; [cbn; split_and!; lia|].
  destruct (IH (compare_step want threshold c res)) as (H1 & H2 & H3). cbv zeta. rewrite H1, H2, H3, !how_many_cons.
  destruct (compare_step_counts want threshold c res) as (E1 & E2 & E3). rewrite E1, E2, E3.
  destruct (regressed want threshold res), (covered want res); split_and!; lia.
Qed.

(** A baseline of another machine is skipped, whatever it holds; one of this
    machine fails the check exactly when it has a result for a configuration that
    this run measured below the threshold, and a line is printed for every
    configuration it covers, or one that says there was none. *)
Theorem bench_check_outcomes want got threshold :
  let r := compareReports want got threshold in
  (Matches (rep_Fingerprint want) (rep_Fingerprint got) = false -> r = (skipped_lines want got, None)) /\
  (Matches (rep_Fingerprint want) (rep_Fingerprint got) = true ->
   (r.2 <> None <-> exists res base, res ∈ Results got /\ baselineFor want res = Some base /\
                      flt (change res base) (fneg threshold) = true) /\
   length r.1 = Nat.max 1 (how_many (covered want) (Results got))).
Proof.
  cbv zeta. unfold compareReports. destruct (Matches _ _); cbn [negb]; (split; [done|]); [|done]. intros _.
  destruct (compare_steps want threshold (Results got) (MkComparison [] 0 [])) as (H1 & H2 & H3).
  set (c := foldl _ _ _) in *. cbn [regressions compared printed length] in *.
  assert (how_many (regressed want threshold) (Results got) <= how_many (covered want) (Results got))%nat as Hle.
  { apply how_many_le. intros res. unfold regressed, covered. destruct (baselineFor want res); [|done].
    intros _. by apply bool_decide_true; eexists. }
  assert ((exists res base, res ∈ Results got /\ baselineFor want res = Some base /\ flt (change res base) (fneg threshold) = true) <->
          (0 < length (regressions c))%nat) as ->.
  { rewrite H1. cbn. rewrite how_many_pos. unfold regressed. split.
    - intros (res & base & Hin & Hb & Hf). exists res. by rewrite Hb.
    - intros (res & Hin & Hr). destruct (baselineFor want res) as [base|] eqn:Hb; [|done]. by exists res, base. }
  destruct (regressions c) as [|l ls]; cbn [fst snd length] in *.
  - split; [split; [done|lia]|]. rewrite length_app, H3. destruct (Z.eqb_spec (compared c) 0); cbn [length]; lia.
  - split; [split; [lia|done]|]. rewrite H3. lia.
Qed.

(** * A report against itself *)

Lemma first_result_nodup l res : NoDup (res_Config <$> l) -> res ∈ l ->
  first_result (fun r => bool_decide (res_Config r = res_Config res)) l = Some res.
Proof.
  induction l as [|r l IH]; [by intros _ ?%elem_of_nil|]. rewrite fmap_cons. intros [Hr Hn]%NoDup_cons [->|Hin]%elem_of_cons; cbn.
  - by rewrite bool_decide_true.
  - rewrite bool_decide_false; [by apply IH|]. intros E. apply Hr. rewrite E. by apply list_elem_of_fmap_2.
Qed.

(** No report of different configurations fails the check against itself, with
    any threshold that is not negative: no rate, finite or not, is slower than
    itself. *)
Theorem bench_check_accepts_itself r threshold :
  NoDup (res_Config <$> Results r) -> flt threshold zero = false -> (compareReports r r threshold).2 = None.
Proof.
  intros Hn Ht. unfold compareReports.
  destruct (Matches _ _); cbn [negb]; [|done].
  destruct (compare_steps r threshold (Results r) (MkComparison [] 0 [])) as (H1 & _ & _). cbn [regressions length] in H1.
  assert (~ (0 < how_many (regressed r threshold) (Results r))%nat) as E.
  { intros (res & Hin & H)%how_many_pos. unfold regressed, baselineFor in H.
    rewrite (first_result_nodup _ _ Hn Hin) in H. unfold change in H. rewrite flt_nothing in H; [done| |done].
    apply fmul_nothing, fdiv_nothing, fsub_self. }
  destruct (regressions _); [done|]. cbn in H1. lia.
Qed.

(** * The reports' files *)

Lemma ext_loop_suffix r acc : exists stem, rev r ++ acc = stem ++ ext_loop r acc.
Proof.
  revert acc. induction r as [|b r IH]; intros acc; [by exists acc; rewrite app_nil_r|]. cbn [ext_loop rev]. rewrite <- app_assoc. cbn [app].
  case_bool_decide; [by eexists; rewrite app_nil_r|]. case_bool_decide; [by eexists|apply IH].
Qed.

Lemma Ext_suffix path : exists stem, path = stem ++ Ext path.
Proof. destruct (ext_loop_suffix (rev path) []) as [stem E]. exists stem. by rewrite rev_involutive, app_nil_r in E. Qed.

Lemma suffixedJSONPath_length path suffix : length (suffixedJSONPath path suffix) = S (length path + length suffix).
Proof.
  unfold suffixedJSONPath. destruct (Ext_suffix path) as [stem E]. set (e := Ext path) in *. clearbody e. subst path.
  rewrite TrimSuffix_app, !length_app. change (length (str ".")) with 1%nat. lia.
Qed.

Lemma report_paths_differ path :
  stateJSONPath path <> path /\ suffixedJSONPath path (str "recovery") <> path /\
  stateJSONPath path <> suffixedJSONPath path (str "recovery").
Proof.
  assert (forall a b : bytes, length a <> length b -> a <> b) as H by (intros a b; congruence).
  unfold stateJSONPath. split_and!; apply H; rewrite !suffixedJSONPath_length; change (length (str "state")) with 5%nat; change (length (str "recovery")) with 8%nat; lia.
Qed.

Example report_paths :
  stateJSONPath (str "out/bench.json") = str "out/bench.state.json" /\
  suffixedJSONPath (str "bench") (str "recovery") = str "bench.recovery".
Proof. by vm_compute. Qed.
