(* ===== verification/CountingState.v ===== *)
(** The keyed state that counts its entries ([cmd/bench/state.go]): a decorator
    of the in-process map that is itself a lawful keyed state, and the meter the
    decorators of one run share, first as one subtask sees it, then under every
    interleaving of several. *)
From S2P Require Import Prelude State StateProps.

(** * The meter *)

Record stateMeter := MkMeter {
  current : Z;
  peak : Z;
}.

Definition NewMeter : stateMeter := MkMeter 0 0.

(** Uninterrupted, the first compare-and-swap succeeds. *)
Definition inc (m : stateMeter) : stateMeter :=
  let n := current m + 1 in
  MkMeter n (if n <=? peak m then peak m else n).

Definition dec (m : stateMeter) : stateMeter := MkMeter (current m - 1) (peak m).

(** * The decorator *)

Record countingState := MkCounting {
  inner : Memory;
  meter : stateMeter;
}.

Definition newState (m : stateMeter) : countingState := MkCounting NewMemory m.

Definition Counting_Get (key : bytes) (c : countingState) : option bytes := Memory_Get key (inner c).

Definition Counting_Put (key value : bytes) (c : countingState) : countingState :=
  let existed := bool_decide (is_Some (Memory_Get key (inner c))) in
  MkCounting (Memory_Put key value (inner c)) (if existed then meter c else inc (meter c)).

Definition Counting_Delete (key : bytes) (c : countingState) : countingState :=
  let existed := bool_decide (is_Some (Memory_Get key (inner c))) in
  MkCounting (Memory_Delete key (inner c)) (if existed then dec (meter c) else meter c).

(** The callback works on the decorator while the inner state iterates. *)
Definition on_inner {A} (fn : bytes -> bytes -> A -> countingState -> bool * (A * countingState))
    (k v : bytes) (a : A * stateMeter) (m : Memory) : bool * ((A * stateMeter) * Memory) :=
  let '(go, (a, c)) := fn k v a.1 (MkCounting m a.2) in (go, ((a, meter c), inner c)).

Definition Counting_Iterate {A} (fn : bytes -> bytes -> A -> countingState -> bool * (A * countingState))
    (a : A) (c : countingState) : A * countingState :=
  let '((a, m), s) := Memory_Iterate (on_inner fn) (a, meter c) (inner c) in (a, MkCounting s m).

#[export] Instance Counting_KeyedState : KeyedState countingState Empty_set := {|
  ks_get k c := (Counting_Get k c, c);
  ks_put := Counting_Put;
  ks_delete := Counting_Delete;
  ks_iterate := @Counting_Iterate;
  ks_err c := Memory_Err (inner c);
|}.

(** * One subtask *)

Definition Counting_Len (c : countingState) : Z := Memory_Len (inner c).

(** The count is the number of entries, and no count was ever above the peak. *)
Record counted (c : countingState) : Prop := {
  counted_current : current (meter c) = Counting_Len c;
  counted_peak : current (meter c) <= peak (meter c);
}.

Lemma Memory_Put_Len k v m :
  Memory_Len (Memory_Put k v m) = if bool_decide (is_Some (Memory_Get k m)) then Memory_Len m else Memory_Len m + 1.
Proof.
  unfold Memory_Len, Memory_Put, Memory_Get. cbn. case_bool_decide as Hk.
  - destruct Hk as [w Hw]. by rewrite map_size_insert_Some by eauto.
  - rewrite map_size_insert_None by (by apply eq_None_not_Some). lia.
Qed.

Lemma Memory_Delete_Len k m :
  Memory_Len (Memory_Delete k m) = if bool_decide (is_Some (Memory_Get k m)) then Memory_Len m - 1 else Memory_Len m.
Proof.
  unfold Memory_Len, Memory_Delete, Memory_Get. cbn. case_bool_decide as Hk.
  - destruct Hk as [w Hw]. rewrite <- (insert_delete_id _ _ _ Hw) at 2.
    rewrite map_size_insert_None by apply lookup_delete_eq. lia.
  - by rewrite delete_id by (by apply eq_None_not_Some).
Qed.

(** What a step does to a counted state: its peak becomes the larger of what it
    was and what the state now holds. *)
Definition counts (c c' : countingState) : Prop :=
  counted c -> counted c' /\ peak (meter c') = Z.max (peak (meter c)) (Counting_Len c').

Lemma counted_iff c : counted c <-> current (meter c) = Memory_Len (inner c) /\ current (meter c) <= peak (meter c).
Proof. split; [by intros []|by intros []; split]. Qed.

Lemma counts_put k v c : counts c (Counting_Put k v c).
Proof.
  unfold counts, Counting_Put, Counting_Len, inc. rewrite !counted_iff. intros [Hc Hp]. cbn [inner meter].
  pose proof (Memory_Put_Len k v (inner c)) as Hl. revert Hl. destruct (bool_decide _); intros Hl; cbn [current peak]; [lia|].
  destruct (Z.leb_spec (current (meter c) + 1) (peak (meter c))); lia.
Qed.

Lemma counts_delete k c : counts c (Counting_Delete k c).
Proof.
  unfold counts, Counting_Delete, Counting_Len, dec. rewrite !counted_iff. intros [Hc Hp]. cbn [inner meter].
  pose proof (Memory_Delete_Len k (inner c)) as Hl. revert Hl. destruct (bool_decide _); intros Hl; cbn [current peak]; lia.
Qed.

Lemma counts_refl c : counts c c.
Proof. unfold counts, Counting_Len. rewrite !counted_iff. lia. Qed.

(** Several steps that do not insert. *)
Definition shrinks (c c' : countingState) : Prop := counts c c' /\ peak (meter c') = peak (meter c).

Lemma shrinks_trans c d e : shrinks c d -> shrinks d e -> shrinks c e.
Proof.
  intros [H1 P1] [H2 P2]. split; [|congruence]. intros Hc. destruct (H1 Hc) as [Hd E1]. destruct (H2 Hd) as [He E2].
  split; [done|]. rewrite E2, P1. lia.
Qed.

Lemma shrinks_delete k c : shrinks c (Counting_Delete k c).
Proof. split; [apply counts_delete|]. unfold Counting_Delete, dec. by destruct (bool_decide _). Qed.

Lemma shrinks_refl c : shrinks c c.
Proof. split; [apply counts_refl|done]. Qed.

Lemma counting_eta c : MkCounting (inner c) (meter c) = c.
Proof. by destruct c. Qed.

Lemma Counting_visit_scan {A} (fn : bytes -> bytes -> A -> countingState -> bool * (A * countingState))
    (f : bytes -> bytes -> A -> visit A) (m0 : gmap bytes bytes) keys a (c : countingState) :
  (forall k v a c, fn k v a c = contract_cb f k v a c) ->
  NoDup keys -> (forall k, k ∈ keys -> entries (inner c) !! k = m0 !! k) ->
  let l := omap (fun k => (fun v => (k, v)) <$> m0 !! k) keys in
  let out := scan f l a (entries (inner c)) in
  let r := Memory_visit (on_inner fn) keys (a, meter c) (inner c) in
  r.1.1 = out.1 /\ entries r.2 = out.2 /\ shrinks c (MkCounting r.2 r.1.2).
Proof.
  intros Hfn. revert a c. induction keys as [|k keys IH]; intros a c Hnd Hm.
  { cbn. rewrite counting_eta. split_and!; [done..|apply shrinks_refl]. }
  apply NoDup_cons in Hnd as [Hk Hnd]. cbn [omap list_omap Memory_visit]. rewrite (Hm k) by (by left).
  destruct (m0 !! k) as [v|] eqn:Hv; cbn [fmap option_fmap option_map].
  - cbn [scan]. set (r := f k v a). set (c2 := if v_delete r then ks_delete k c else c).
    assert (on_inner fn k v (a, meter c) (inner c) = (v_go r, ((v_acc r, meter c2), inner c2))) as ->.
    { unfold on_inner. cbn [fst snd]. by rewrite counting_eta, Hfn. }
    assert (shrinks c c2) as Hs by (unfold c2; destruct (v_delete r); [apply shrinks_delete|apply shrinks_refl]).
    assert (entries (inner c2) = if v_delete r then delete k (entries (inner c)) else entries (inner c)) as Hd
      by (unfold c2; by destruct (v_delete r)).
    destruct (v_go r); [|cbn [fst snd]; rewrite <- Hd, counting_eta; by split_and!].
    rewrite <- Hd. destruct (IH (v_acc r) c2 Hnd) as (H1 & H2 & H3).
    { intros k' Hk'. rewrite Hd. destruct (v_delete r); [|apply Hm; by right].
      rewrite lookup_delete_ne by (intros ->; done). apply Hm. by right. }
    split_and!; [exact H1|exact H2|]. by eapply shrinks_trans.
  - apply IH; [done|]. intros k' Hk'. apply Hm. by right.
Qed.

Lemma Counting_Iterate_scan {A} (fn : bytes -> bytes -> A -> countingState -> bool * (A * countingState)) f a c :
  (forall k v a c, fn k v a c = contract_cb f k v a c) ->
  let out := scan f (sorted_entries (entries (inner c))) a (entries (inner c)) in
  let r := Counting_Iterate fn a c in
  r.1 = out.1 /\ entries (inner r.2) = out.2 /\ shrinks c r.2.
Proof.
  intros Hfn. pose proof (Counting_visit_scan fn f (entries (inner c)) (sorted_keys (entries (inner c))) a c Hfn
    (NoDup_sorted_keys _) ltac:(done)) as H. cbv zeta in *. unfold Counting_Iterate, Memory_Iterate.
  destruct (Memory_visit _ _ _ _) as [[b m] s]. exact H.
Qed.

(** The decorator is a keyed state like the one it wraps, so that what holds of
    the operators over a keyed state holds of the measured run. *)
#[export] Program Instance Counting_KeyedStateLaws : KeyedStateLaws countingState Empty_set := {|
  ks_view c := entries (inner c);
|}.
Next Obligation. done. Qed.
Next Obligation. done. Qed.
Next Obligation. done. Qed.
Next Obligation. intros A fn f a s Hfn _. destruct (Counting_Iterate_scan fn f a s Hfn) as (H1 & H2 & _). by split. Qed.
Next Obligation. done. Qed.
Next Obligation. done. Qed.
Next Obligation. done. Qed.
Next Obligation. done. Qed.

Lemma counts_op o c : counts c (run_op o c).2.
Proof.
  destruct o as [k|k v|k|f]; cbn [run_op]; [apply counts_refl|apply counts_put|apply counts_delete|].
  destruct (Counting_Iterate_scan (contract_cb f) f [] c ltac:(done)) as (_ & _ & [H _]).
  change (ks_iterate (contract_cb f) [] c) with (Counting_Iterate (contract_cb f) [] c).
  by destruct (Counting_Iterate (contract_cb f) [] c).
Qed.

(** The states a client goes through. *)
Fixpoint states {S E} `{KeyedState S E} (l : list state_op) (s : S) : list S :=
  match l with
  | [] => []
  | o :: l => (run_op o s).2 :: states l (run_op o s).2
  end.

Lemma run_op_inner o (c : countingState) :
  (run_op o c).1 = (run_op o (inner c)).1 /\ inner (run_op o c).2 = (run_op o (inner c)).2.
Proof.
  destruct (run_op_map o c ltac:(done)) as [E1 E2]. destruct (run_op_map o (inner c) ltac:(done)) as [F1 F2].
  rewrite E1, F1. split; [done|].
  change (entries (inner (run_op o c).2) = (map_op o (entries (inner c))).2) in E2.
  change (entries (run_op o (inner c)).2 = (map_op o (entries (inner c))).2) in F2.
  destruct (inner (run_op o c).2), (run_op o (inner c)).2. cbn in *. congruence.
Qed.

Lemma counting_run l c : counted c ->
  (run_ops l c).1 = (run_ops l (inner c)).1 /\ inner (run_ops l c).2 = (run_ops l (inner c)).2 /\
  counted (run_ops l c).2 /\
  peak (meter (run_ops l c).2) = Z.max (peak (meter c)) (foldr Z.max 0 (Memory_Len <$> states l (inner c))).
Proof.
  revert c. induction l as [|o l IH]; intros c Hc.
  { cbn. split_and!; [done..|]. pose proof (counted_current c Hc). pose proof (counted_peak c Hc).
    unfold Counting_Len, Memory_Len in *. lia. }
  destruct (counts_op o c Hc) as [Hc' Hp]. destruct (run_op_inner o c) as [E1 E2].
  destruct (IH _ Hc') as (H1 & H2 & H3 & H4). unfold Counting_Len in Hp.
  cbn [run_ops states]. rewrite fmap_cons. cbn [foldr]. rewrite E2 in *.
  destruct (run_op o c) as [x c1], (run_op o (inner c)) as [y m1]. cbn [fst snd] in *.
  destruct (run_ops l c1) as [xs c2], (run_ops l m1) as [ys m2]. cbn [fst snd] in *.
  split_and!; [congruence|done|done|]. rewrite H4, Hp. lia.
Qed.

(** With one subtask the meter is exact: whatever the client reads, writes,
    deletes and scans, the state behaves as the in-process map, the count is its
    number of entries and the peak the largest number it held between two
    operations. *)
Theorem counting_state_exact l :
  let c := (run_ops l (newState NewMeter)).2 in
  (run_ops l (newState NewMeter)).1 = (run_ops l NewMemory).1 /\
  entries (inner c) = entries (run_ops l NewMemory).2 /\
  current (meter c) = Counting_Len c /\
  peak (meter c) = foldr Z.max 0 (Memory_Len <$> states l NewMemory).
Proof.
  destruct (counting_run l (newState NewMeter)) as (H1 & H2 & [H3 _] & H4); [by split|].
  cbv zeta. rewrite H4, H2. split_and!; [exact H1|done|exact H3|]. cbn [newState inner meter NewMeter peak].
  apply Z.max_r. generalize (states l NewMemory). intros k. induction k; cbn; lia.
Qed.
