(* ===== verification/MeterRace.v ===== *)
(** The meter under the subtasks of one run ([cmd/bench/state.go]): each puts and
    deletes in a state of its own, and the atomic operations on the shared
    counters interleave. *)
From S2P Require Import Prelude Sums State CountingState.

(** * The steps *)

(** Where a subtask is: [Inserted] and [Deleted] are between the inner state and
    the meter, [Added] has the count its [Add] returned and is about to load the
    peak, [Loaded] is about to compare and swap. *)
Inductive pc :=
| Idle
| Inserted
| Added (n : Z)
| Loaded (n p : Z)
| Deleted.

Record subtask := MkSubtask {
  st_state : Memory;
  st_pc : pc;
}.

Record shared := MkShared {
  sh_meter : stateMeter;
  sh_subtasks : list subtask;
}.

Inductive action :=
| APut (k v : bytes)
| ADelete (k : bytes)
| ANext.

Definition has_key (k : bytes) (m : Memory) : bool := bool_decide (is_Some (Memory_Get k m)).

(** One atomic step of a subtask: what it leaves of the meter and of itself. A
    subtask starts an operation only when it has finished the last one. *)
Definition subtask_step (a : action) (m : stateMeter) (t : subtask) : option (stateMeter * subtask) :=
  match st_pc t, a with
  | Idle, APut k v => Some (m, MkSubtask (Memory_Put k v (st_state t)) (if has_key k (st_state t) then Idle else Inserted))
  | Idle, ADelete k => Some (m, MkSubtask (Memory_Delete k (st_state t)) (if has_key k (st_state t) then Deleted else Idle))
  | Inserted, ANext => let n := current m + 1 in Some (MkMeter n (peak m), MkSubtask (st_state t) (Added n))
  | Added n, ANext =>
      Some (m, MkSubtask (st_state t) (if n <=? peak m then Idle else Loaded n (peak m)))
  | Loaded n p, ANext =>
      if peak m =? p then Some (MkMeter (current m) n, MkSubtask (st_state t) Idle)
      else Some (m, MkSubtask (st_state t) (Added n))
  | Deleted, ANext => Some (dec m, MkSubtask (st_state t) Idle)
  | _, _ => None
  end.

Definition step (e : nat * action) (s : shared) : option shared :=
  t ← sh_subtasks s !! e.1;
  '(m, t) ← subtask_step e.2 (sh_meter s) t;
  Some (MkShared m (<[e.1 := t]> (sh_subtasks s))).

(** The entries the subtasks hold between them. *)
Definition entries_held (s : shared) : Z := sum (fun t => Memory_Len (st_state t)) (sh_subtasks s).

(** A run, with the most entries ever held and the highest count ever. *)
Record run := MkRun {
  r_shared : shared;
  r_held : Z;
  r_high : Z;
}.

Definition run_step (e : nat * action) (r : run) : option run :=
  s ← step e (r_shared r);
  Some (MkRun s (Z.max (r_held r) (entries_held s)) (Z.max (r_high r) (current (sh_meter s)))).

Fixpoint schedule (l : list (nat * action)) (r : run) : option run :=
  match l with
  | [] => Some r
  | e :: l => r ← run_step e r; schedule l r
  end.

Definition start (subtasks : nat) : run :=
  MkRun (MkShared NewMeter (replicate subtasks (MkSubtask NewMemory Idle))) 0 0.

Definition idle (s : shared) : Prop := forall t, t ∈ sh_subtasks s -> st_pc t = Idle.

(** * The invariant *)

Definition inserting (t : subtask) : Z := match st_pc t with Inserted => 1 | _ => 0 end.
Definition deleting (t : subtask) : Z := match st_pc t with Deleted => 1 | _ => 0 end.

Lemma inserting_range t : 0 <= inserting t <= 1.
Proof. unfold inserting. destruct (st_pc t); lia. Qed.
Lemma deleting_range t : 0 <= deleting t <= 1.
Proof. unfold deleting. destruct (st_pc t); lia. Qed.
#[export] Hint Resolve inserting_range deleting_range : core.

(** A count on its way to the peak. *)
Definition carries (t : subtask) (n : Z) : Prop :=
  match st_pc t with Added m | Loaded m _ => m = n | _ => False end.

Record meter_inv (r : run) : Prop := {
  mi_count : entries_held (r_shared r) =
    current (sh_meter (r_shared r)) + sum inserting (sh_subtasks (r_shared r)) - sum deleting (sh_subtasks (r_shared r));
  mi_current : current (sh_meter (r_shared r)) <= r_high r;
  mi_entries : entries_held (r_shared r) <= r_held r;
  mi_carried : forall t n, t ∈ sh_subtasks (r_shared r) -> carries t n -> n <= r_high r;
  mi_loaded : forall t n p, t ∈ sh_subtasks (r_shared r) -> st_pc t = Loaded n p -> p < n;
  mi_peak : peak (sh_meter (r_shared r)) <= r_high r;
  mi_high : peak (sh_meter (r_shared r)) = r_high r \/ exists t, t ∈ sh_subtasks (r_shared r) /\ carries t (r_high r);
  mi_over : r_high r <= r_held r + Z.of_nat (length (sh_subtasks (r_shared r))) - 1;
  mi_under : r_held r <= r_high r + Z.of_nat (length (sh_subtasks (r_shared r))) - 1 \/
    (sum inserting (sh_subtasks (r_shared r)) = Z.of_nat (length (sh_subtasks (r_shared r))) /\ r_held r = entries_held (r_shared r));
}.

Lemma meter_inv_start n : (0 < n)%nat -> meter_inv (start n).
Proof.
  intros Hn.
  assert (forall f, (forall t, t = MkSubtask NewMemory Idle -> f t = 0) -> sum f (replicate n (MkSubtask NewMemory Idle)) = 0) as Hz.
  { intros f Hf. apply sum_zero. intros t [-> _]%elem_of_replicate. by apply Hf. }
  split; cbn -[NewMemory]; unfold entries_held; cbn -[NewMemory]; rewrite ?length_replicate, ?Hz; try done; try lia; try (by intros t ->);
    try (by intros t m [-> _]%elem_of_replicate); by intros t m p [-> _]%elem_of_replicate.
Qed.

(** What a subtask's step does to the numbers of the invariant. *)
Lemma subtask_step_cases a m t m' t' : subtask_step a m t = Some (m', t') ->
  let d := Memory_Len (st_state t') - Memory_Len (st_state t) in
  (* an operation, counted later if it inserted or deleted *)
  (m' = m /\ st_pc t = Idle /\ (forall n, ~ carries t' n) /\ d = inserting t' - deleting t') \/
  (* the count *)
  (d = 0 /\ st_pc t = Inserted /\ st_pc t' = Added (current m') /\ current m' = current m + 1 /\ peak m' = peak m) \/
  (d = 0 /\ st_pc t = Deleted /\ st_pc t' = Idle /\ m' = dec m) \/
  (* the peak *)
  (d = 0 /\ exists n, st_pc t = Added n /\ m' = m /\
     ((n <= peak m /\ st_pc t' = Idle) \/ (peak m < n /\ st_pc t' = Loaded n (peak m)))) \/
  (d = 0 /\ exists n p, st_pc t = Loaded n p /\
     ((peak m = p /\ st_pc t' = Idle /\ m' = MkMeter (current m) n) \/ (m' = m /\ st_pc t' = Added n))).
Proof.
  unfold subtask_step. destruct t as [s [| |n|n p|]], a; cbn [st_pc st_state]; try done.
  - intros [= <- <-]. left. cbn [st_pc st_state]. rewrite Memory_Put_Len. unfold has_key, inserting, deleting, carries.
    split_and!; [done..| |]; cbn; destruct (bool_decide _); cbn; (done || lia).
  - intros [= <- <-]. left. cbn [st_pc st_state]. rewrite Memory_Delete_Len. unfold has_key, inserting, deleting, carries.
    split_and!; [done..| |]; cbn; destruct (bool_decide _); cbn; (done || lia).
  - intros [= <- <-]. right. left. cbn. split_and!; (done || lia).
  - intros [= <- <-]. do 3 right. left. cbn. split; [lia|]. exists n. split_and!; [done..|].
    destruct (Z.leb_spec n (peak m)); [by left|by right].
  - destruct (Z.eqb_spec (peak m) p); intros [= <- <-]; do 4 right; cbn; (split; [lia|]); exists n, p; (split; [done|]); [by left|by right].
  - intros [= <- <-]. right. right. left. cbn. split_and!; (done || lia).
Qed.

Lemma inserting_pc t q : st_pc t = q -> inserting t = match q with Inserted => 1 | _ => 0 end.
Proof. by intros <-. Qed.
Lemma deleting_pc t q : st_pc t = q -> deleting t = match q with Deleted => 1 | _ => 0 end.
Proof. by intros <-. Qed.

(** The numbers of the invariant after a step, from those before it. *)
Lemma step_numbers a m t m' t' E I D I' D' T held high :
  subtask_step a m t = Some (m', t') ->
  I' = I - inserting t + inserting t' -> D' = D - deleting t + deleting t' ->
  0 <= I' <= T -> 0 <= D' <= T -> 0 <= D ->
  (inserting t = 0 -> I <= T - 1) -> (deleting t' = 0 -> D' <= T - 1) ->
  E = current m + I - D -> current m <= high -> E <= held -> high <= held + T - 1 ->
  held <= high + T - 1 \/ (I = T /\ held = E) ->
  let E' := E - Memory_Len (st_state t) + Memory_Len (st_state t') in
  let held' := Z.max held E' in
  let high' := Z.max high (current m') in
  E' = current m' + I' - D' /\ high' <= held' + T - 1 /\
  (held' <= high' + T - 1 \/ (I' = T /\ held' = E')).
Proof.
  intros Hs HI HD HI' HD' HD0 HnI HnD HE Hcur Hheld Hover Hunder E' held' high'.
  pose proof (subtask_step_cases _ _ _ _ _ Hs) as Hc. cbv zeta in Hc.
  destruct Hc as [(-> & Hpc & _ & Hd)|[(Hd & Hpc & Hpc' & Hm & _)|[(Hd & Hpc & Hpc' & ->)|[(Hd & n & Hpc & -> & Hpc')|(Hd & n & p & Hpc & Hpc')]]]];
    rewrite (inserting_pc _ _ Hpc), (deleting_pc _ _ Hpc) in *.
  - assert (held <= high + T - 1) by lia. split_and!; lia.
  - rewrite (inserting_pc _ _ Hpc'), (deleting_pc _ _ Hpc') in *. split_and!; lia.
  - rewrite (inserting_pc _ _ Hpc'), (deleting_pc _ _ Hpc') in *. unfold dec in *. cbn [current] in *. split_and!; lia.
  - destruct Hpc' as [[_ Hpc']|[_ Hpc']]; rewrite (inserting_pc _ _ Hpc'), (deleting_pc _ _ Hpc') in *; split_and!; lia.
  - destruct Hpc' as [(_ & Hpc' & ->)|[-> Hpc']]; rewrite (inserting_pc _ _ Hpc'), (deleting_pc _ _ Hpc') in *; cbn [current] in *; split_and!; lia.
Qed.

(** The counts on their way to the peak: what the subtask that moved carries
    after the step, and that the highest count is not dropped. *)
Lemma step_own a m t m' t' high :
  subtask_step a m t = Some (m', t') -> current m <= high -> peak m <= high ->
  (forall n, carries t n -> n <= high) -> (forall n p, st_pc t = Loaded n p -> p < n) ->
  let high' := Z.max high (current m') in
  (forall n, carries t' n -> n <= high') /\ (forall n p, st_pc t' = Loaded n p -> p < n) /\ peak m' <= high' /\
  (high' = high \/ carries t' high') /\ (peak m = high \/ carries t high -> peak m' = high' \/ carries t' high').
Proof.
  intros Hs Hcur Hpeak Hcar Hload high'. unfold carries in *.
  pose proof (subtask_step_cases _ _ _ _ _ Hs) as Hc. unfold carries in Hc.
  destruct Hc as [(-> & Hpc & Hno & _)|[(_ & Hpc & Hpc' & Hm & Hp)|[(_ & Hpc & Hpc' & ->)|[(_ & n & Hpc & -> & Hpc')|(_ & n & p & Hpc & Hpc')]]]];
    rewrite Hpc in *.
  - replace high' with high by lia. split_and!; [|intros n p E; exfalso; apply (Hno n); by rewrite E|lia|by left|intros [?|[]]; by left].
    intros n Hn. by destruct (Hno n).
  - rewrite Hpc'. split_and!; [intros; lia|done|lia| |]; destruct (Z.le_gt_cases (current m') high); first [left; lia|right; lia|intros [?|[]]; first [left; lia|right; lia]].
  - rewrite Hpc'. replace high' with high by (cbn in *; lia). split_and!; [done|done|done|by left|by intros [?|[]]; left].
  - specialize (Hcar n eq_refl). replace high' with high by lia.
    destruct Hpc' as [[Hle Hpc']|[Hlt Hpc']]; rewrite Hpc'; split_and!; try done; try (intros; congruence || (by left) || lia).
    all: first [by intros [?|?]; left; lia|by intros ? ? [= <- <-]|by left|intros [?|?]; first [by left|by right]].
  - specialize (Hcar n eq_refl). specialize (Hload n p eq_refl).
    destruct Hpc' as [(Hp & Hpc' & ->)|[-> Hpc']]; rewrite Hpc'; cbn [current peak] in *; replace high' with high by lia; split_and!; try done; try lia.
    all: first [by left|intros [?|?]; first [left; lia|right; lia]|intros; congruence].
Qed.

Lemma step_carriers a m t m' t' (ts : list subtask) i high :
  subtask_step a m t = Some (m', t') -> ts !! i = Some t -> current m <= high -> peak m <= high ->
  (forall t n, t ∈ ts -> carries t n -> n <= high) ->
  (forall t n p, t ∈ ts -> st_pc t = Loaded n p -> p < n) ->
  peak m = high \/ (exists t, t ∈ ts /\ carries t high) ->
  let ts' := <[i := t']> ts in
  let high' := Z.max high (current m') in
  (forall t n, t ∈ ts' -> carries t n -> n <= high') /\
  (forall t n p, t ∈ ts' -> st_pc t = Loaded n p -> p < n) /\
  peak m' <= high' /\ (peak m' = high' \/ exists t, t ∈ ts' /\ carries t high').
Proof.
  intros Hs Ht Hcur Hpeak Hcar Hload Hhigh ts' high'. pose proof (list_elem_of_lookup_2 _ _ _ Ht) as Hin.
  destruct (step_own _ _ _ _ _ high Hs Hcur Hpeak (fun n => Hcar t n Hin) (fun n p => Hload t n p Hin)) as (H1 & H2 & H3 & H4 & H5).
  fold high' in H1, H3, H4, H5.
  split_and!; [|intros u n p [->|Hu]%in_insert; [apply H2|by apply Hload]|done|].
  - intros u n [->|Hu]%in_insert Hc; [by apply H1|]. specialize (Hcar u n Hu Hc). lia.
  - assert (t' ∈ ts') as Hnew by by eapply insert_new.
    assert (carries t' high' -> exists u, u ∈ ts' /\ carries u high') as Hw by (intros Hc; by exists t').
    destruct Hhigh as [Hp|(u & Hu & Hc)]; [destruct (H5 (or_introl Hp)); tauto|].
    destruct (insert_old ts i t t' u Ht Hu) as [->|Hu']; [destruct (H5 (or_intror Hc)); tauto|].
    right. destruct H4 as [E|Hc']; [exists u; by rewrite E|by exists t'].
Qed.

Lemma meter_inv_step e r r' : run_step e r = Some r' -> meter_inv r -> meter_inv r'.
Proof.
  destruct r as [[m ts] held high], e as [i a]. unfold run_step, step. cbn.
  destruct (ts !! i) as [t|] eqn:Ht; [|done]. cbn. destruct (subtask_step a m t) as [[m' t']|] eqn:Es; [|done]. cbn.
  intros [= <-] [Hcount Hcur Hent Hcar Hload Hpeak Hhigh Hover Hunder]. unfold entries_held in *. cbn in *.
  pose proof (list_elem_of_lookup_2 _ _ _ Ht) as Hin. pose proof (insert_new ts i t t' Ht) as Hnew.
  destruct (step_carriers _ _ _ _ _ ts i high Es Ht Hcur Hpeak Hcar Hload Hhigh) as (C1 & C2 & C3 & C4).
  destruct (step_numbers a m t m' t' (sum (fun t => Memory_Len (st_state t)) ts) (sum inserting ts) (sum deleting ts) _ _
    (Z.of_nat (length ts)) held high Es (sum_insert inserting ts i t t' Ht) (sum_insert deleting ts i t t' Ht))
    as (N1 & N2 & N3); try done.
  - rewrite <- (length_insert ts i t'). by apply sum_bounds.
  - rewrite <- (length_insert ts i t'). by apply sum_bounds.
  - by apply sum_bounds.
  - intros H. by apply (sum_not_full inserting ts t).
  - intros H. rewrite <- (length_insert ts i t'). by apply (sum_not_full deleting _ t').
  - split; cbn; unfold entries_held; cbn; rewrite ?length_insert, ?(sum_insert (fun t => Memory_Len (st_state t)) _ _ _ t' Ht);
      first [done|lia].
Qed.

Lemma meter_inv_schedule l r r' : schedule l r = Some r' -> meter_inv r -> meter_inv r'.
Proof.
  revert r. induction l as [|e l IH]; intros r; cbn; [by intros [= ->]|].
  destruct (run_step e r) as [r1|] eqn:E; [|done]. cbn. intros Hl Hr. apply (IH r1 Hl). by eapply meter_inv_step.
Qed.

Lemma length_schedule l r r' : schedule l r = Some r' ->
  length (sh_subtasks (r_shared r')) = length (sh_subtasks (r_shared r)).
Proof.
  revert r. induction l as [|e l IH]; intros r; cbn; [by intros [= ->]|].
  destruct (run_step e r) as [r1|] eqn:E; [|done]. cbn. intros ->%IH. revert E. unfold run_step, step.
  destruct (sh_subtasks (r_shared r) !! e.1) as [t|]; [|done]. cbn. destruct (subtask_step _ _ _) as [[m t']|]; [|done].
  intros [= <-]. cbn. by rewrite length_insert.
Qed.

(** C39. When the subtasks of a run have finished, whatever their operations were and
    however their atomic steps interleaved, the count is the number of entries
    they hold, the peak is the highest the count has been, and that is the largest
    number of entries they held at one instant up to the number of subtasks less
    one; with one subtask it is exact. *)
Theorem meter_peak_bound n l r : (0 < n)%nat -> schedule l (start n) = Some r -> idle (r_shared r) ->
  current (sh_meter (r_shared r)) = entries_held (r_shared r) /\
  peak (sh_meter (r_shared r)) = r_high r /\
  Z.abs (peak (sh_meter (r_shared r)) - r_held r) <= Z.of_nat n - 1.
Proof.
  intros Hn Hs Hi. pose proof (meter_inv_schedule _ _ _ Hs (meter_inv_start n Hn)) as [Hcount _ _ _ _ Hpeak Hhigh Hover Hunder].
  assert (length (sh_subtasks (r_shared r)) = n) as El by (rewrite (length_schedule _ _ _ Hs); apply length_replicate).
  rewrite El in *.
  assert (sum inserting (sh_subtasks (r_shared r)) = 0) as E1 by (apply sum_zero; intros t Ht; unfold inserting; by rewrite (Hi t Ht)).
  assert (sum deleting (sh_subtasks (r_shared r)) = 0) as E2 by (apply sum_zero; intros t Ht; unfold deleting; by rewrite (Hi t Ht)).
  rewrite E1, E2 in *.
  assert (peak (sh_meter (r_shared r)) = r_high r) as Ep.
  { destruct Hhigh as [?|(t & Ht & Hc)]; [done|]. unfold carries in Hc. by rewrite (Hi t Ht) in Hc. }
  split_and!; [lia|done|]. rewrite Ep. destruct Hunder as [?|[? ?]]; lia.
Qed.

(** Two subtasks, of which the second inserts and has not yet counted it when the
    first deletes: they held two entries at one instant, and the peak says one. *)
Definition understated : list (nat * action) :=
  [(0%nat, APut (str "a") []); (0%nat, ANext); (0%nat, ANext); (0%nat, ANext);
   (1%nat, APut (str "b") []); (0%nat, ADelete (str "a")); (0%nat, ANext); (1%nat, ANext); (1%nat, ANext)].

(** The first deletes and has not yet counted it when the second inserts: they
    never held two, and the peak says two. *)
Definition overstated : list (nat * action) :=
  [(0%nat, APut (str "a") []); (0%nat, ANext); (0%nat, ANext); (0%nat, ANext);
   (0%nat, ADelete (str "a")); (1%nat, APut (str "b") []); (1%nat, ANext); (1%nat, ANext); (1%nat, ANext); (0%nat, ANext)].

Definition outcome (l : list (nat * action)) : option (Z * Z) :=
  (fun r => (peak (sh_meter (r_shared r)), r_held r)) <$> schedule l (start 2).

Example peak_understates : outcome understated = Some (1, 2).
Proof. by vm_compute. Qed.

Example peak_overstates : outcome overstated = Some (2, 1).
Proof. by vm_compute. Qed.

Definition sample_run : run := default (start 2) (schedule understated (start 2)).

Lemma meter_peak_bound_witness :
  peak (sh_meter (r_shared sample_run)) = 1 /\ r_held sample_run = 2 /\
  current (sh_meter (r_shared sample_run)) = entries_held (r_shared sample_run) /\
  peak (sh_meter (r_shared sample_run)) = r_high sample_run /\
  Z.abs (peak (sh_meter (r_shared sample_run)) - r_held sample_run) <= Z.of_nat 2 - 1.
Proof.
  split; [vm_compute; reflexivity|]. split; [vm_compute; reflexivity|].
  apply (meter_peak_bound 2 understated sample_run).
  - lia.
  - vm_compute. reflexivity.
  - assert (Forall (fun t => st_pc t = Idle) (sh_subtasks (r_shared sample_run))) as H.
    { assert (map st_pc (sh_subtasks (r_shared sample_run)) = [Idle; Idle]) as E by (vm_compute; reflexivity).
      destruct (sh_subtasks (r_shared sample_run)) as [|t1 [|t2 [|? ?]]]; try discriminate E. injection E as E1 E2. by repeat constructor. }
    intros t Ht. exact (proj1 (Forall_forall _ _) H t Ht).
Defined.
