(* ===== verification/BenchState.v ===== *)
(** The state-size harness ([cmd/bench/state.go]): where the barriers of a run
    go, which subtasks hold keyed state, and what the checkpoints a run left on
    the disk weigh. The run itself is an argument. *)
From S2P Require Import Prelude Strconv GoStrings Float64 State Serialize CheckpointFormat Storage Graph Executor.
From S2P Require Import BenchWorkload.

(** * Barriers *)

(** A parallelism or a number of checkpoints of 0 is a division by zero in the
    source; the callers have refused both. *)
Definition barrierIntervalFor (cfg : Config) (checkpointsPerSubtask : Z) : Z :=
  let perSubtask := Z.quot (Records cfg) (BenchWorkload.Parallelism cfg) in
  let interval := Z.quot perSubtask checkpointsPerSubtask in
  if interval <? 1 then 1 else interval.

(** * Subtasks with keyed state *)

Definition operatorSubtasks {Src Op Snk} (g : Graph Src Op Snk) : result graph_error (gset SubtaskKey) :=
  order ← TopoOrder g;
  mret (foldl (fun keys v =>
    if negb (bool_decide (Kind v = VertexOperator)) then keys
    else foldl (fun keys i => {[MkKey (Graph.ID v) i]} ∪ keys) keys (range_int (Graph.Parallelism v))) ∅ order).

(** * Checkpoints on the disk *)

Record SubtaskState := MkSubtaskState {
  ss_VertexID : bytes;
  ss_Index : Z;
  ss_Bytes : Z;
  ss_Entries : Z;
}.

Record checkpointSize := MkSize {
  cs_id : Z;
  cs_stateBytes : Z;
  cs_diskBytes : Z;
  cs_entries : Z;
  cs_perSubtask : list SubtaskState;
}.

Definition entriesIn (payload : bytes) : result (ser_error Empty_set Empty_set) Z :=
  match ReadFrom (NewMemory, payload) with
  | (Ok _, (dst, _)) => Ok (Memory_Len dst)
  | (Err e, _) => Err e
  end.

(** The regular files under a directory. *)
Definition dirBytes (im : image) (dir : bytes) : Z :=
  map_fold (fun path data total => if HasPrefix path (dir ++ [slash]) then total + Z.of_nat (length data) else total) 0 (im_files im).

Inductive scan_error :=
| ScanPayload (checkpoint : Z) (key : SubtaskKey) (e : ser_error Empty_set Empty_set).

(** The rows of a checkpoint are sorted by vertex and index, the checkpoints by
    number. *)
Definition row_le (a b : SubtaskState) : Prop :=
  if bool_decide (ss_VertexID a = ss_VertexID b) then ss_Index a <= ss_Index b else bytes_le (ss_VertexID a) (ss_VertexID b).
Definition size_le (a b : checkpointSize) : Prop := cs_id a <= cs_id b.

#[export] Instance row_le_dec : RelDecision row_le.
Proof. intros a b. unfold row_le. case_bool_decide; apply _. Defined.
#[export] Instance size_le_dec : RelDecision size_le.
Proof. intros a b. unfold size_le. apply _. Defined.

Section Scan.
(** The order in which Go visits the payloads of a checkpoint. *)
Context (visit_order : gmap SubtaskKey bytes -> list (SubtaskKey * bytes)).

Fixpoint measure_payloads (id : Z) (operators : gset SubtaskKey) (l : list (SubtaskKey * bytes)) (size : checkpointSize)
    : result scan_error checkpointSize :=
  match l with
  | [] => Ok size
  | (key, payload) :: l =>
      if negb (bool_decide (key ∈ operators)) then measure_payloads id operators l size
      else
        match entriesIn payload with
        | Err e => Err (ScanPayload id key e)
        | Ok n =>
            let len := Z.of_nat (length payload) in
            measure_payloads id operators l
              (MkSize (cs_id size) (cs_stateBytes size + len) (cs_diskBytes size) (cs_entries size + n)
                 (cs_perSubtask size ++ [MkSubtaskState (VertexID key) (Index key) len n]))
        end
  end.

Definition sort_rows (size : checkpointSize) : checkpointSize :=
  MkSize (cs_id size) (cs_stateBytes size) (cs_diskBytes size) (cs_entries size) (merge_sort row_le (cs_perSubtask size)).

(** One entry of the root: nothing, or a complete checkpoint. *)
Definition scan_entry (root : bytes) (im : image) (operators : gset SubtaskKey) (e : bytes * bool)
    : result scan_error (option checkpointSize) :=
  if negb e.2 || negb (HasPrefix e.1 dirPrefix) then Ok None
  else
    match ParseInt (drop (length dirPrefix) e.1) with
    | None => Ok None
    | Some id =>
        match Load root id im with
        | Err _ => Ok None
        | Ok (_, payloads) =>
            size ← measure_payloads id operators (visit_order payloads) (MkSize id 0 (dirBytes im (Join root e.1)) 0 []);
            mret (Some (sort_rows size))
        end
    end.

Fixpoint scan_entries (root : bytes) (im : image) (operators : gset SubtaskKey) (l : list (bytes * bool))
    : result scan_error (list checkpointSize) :=
  match l with
  | [] => Ok []
  | e :: l =>
      size ← scan_entry root im operators e;
      sizes ← scan_entries root im operators l;
      mret match size with Some s => s :: sizes | None => sizes end
  end.

Definition scanCheckpoints (root : bytes) (im : image) (operators : gset SubtaskKey) : result scan_error (list checkpointSize) :=
  match im_list im root with
  | None => Ok []
  | Some entries => merge_sort size_le <$> scan_entries root im operators entries
  end.
End Scan.

(** * The measurement *)

Record StateResult := MkStateResult {
  sr_Config : Config;
  PeakEntries : Z;
  CheckpointID : Z;
  Checkpoints : Z;
  StateBytes : Z;
  DiskBytes : Z;
  Entries : Z;
  BytesPerEntry : float64;
  PerSubtask : list SubtaskState;
  ProjectedPeakBytes : option Z;
  sr_Oversubscribed : bool;
}.

(** The largest, and of equal ones the first. *)
Definition largest_of (first : checkpointSize) (rest : list checkpointSize) : checkpointSize :=
  foldl (fun largest s => if cs_stateBytes largest <? cs_stateBytes s then s else largest) first rest.

(** The result; the projection is [None] where the conversion is the machine's. *)
Definition state_result (cfg : Config) (numCPU peak : Z) (sizes : list checkpointSize) : StateResult :=
  let count := Z.of_nat (length sizes) in
  match sizes with
  | [] => MkStateResult cfg peak 0 count 0 0 0 zero [] (Some 0) (oversubscribed numCPU cfg)
  | s :: rest =>
      let largest := largest_of s rest in
      let '(perEntry, projected) :=
        if 0 <? cs_entries largest then
          let b := fdiv (of_int64 (cs_stateBytes largest)) (of_int64 (cs_entries largest)) in
          (b, to_int64 (fmul b (of_int64 peak)))
        else (zero, Some 0) in
      MkStateResult cfg peak (cs_id largest) count (cs_stateBytes largest) (cs_diskBytes largest) (cs_entries largest)
        perEntry (cs_perSubtask largest) projected (oversubscribed numCPU cfg)
  end.

Inductive state_error {E : Type} :=
| StateCheckpoints (n : Z)
| StateGraph (e : bench_error)
| StateOrder (e : graph_error)
| StateRun (label : bytes) (e : E)
| StateScan (label : bytes) (e : scan_error).
Arguments state_error : clear implicits.

Section Measure.
Context {E : Type} (numCPU : Z) (visit_order : gmap SubtaskKey bytes -> list (SubtaskKey * bytes)).
(** Running a graph with its checkpoints under a root and its states metered: what
    is on the disk then and the meter's peak, or the run's error. *)
Context (runMetered : Graph bench_source factory unit -> bytes -> Z -> result E (image * Z)).

(** [None] where building the graph panics. *)
Definition measureState (cfg : Config) (checkpointsPerSubtask : Z) (root : bytes) : option (result (state_error E) StateResult) :=
  if checkpointsPerSubtask <? 1 then Some (Err (StateCheckpoints checkpointsPerSubtask))
  else
    g ← buildGraph cfg (barrierIntervalFor cfg checkpointsPerSubtask);
    Some (g ← wrap_err StateGraph g;
          operators ← wrap_err StateOrder (operatorSubtasks g);
          '(im, peak) ← wrap_err (StateRun (label cfg)) (runMetered g root (BenchWorkload.Seed cfg));
          sizes ← wrap_err (StateScan (label cfg)) (scanCheckpoints visit_order root im operators);
          mret (state_result cfg numCPU peak sizes)).
End Measure.

(** * Printing *)

Definition humanBytes (n : Z) : bytes :=
  let unit (shift : Z) (name : bytes) := FormatFixed false 2 (fdiv (of_int64 n) (of_int64 (2 ^ shift))) ++ name in
  if 2 ^ 30 <=? n then unit 30 (str " GiB")
  else if 2 ^ 20 <=? n then unit 20 (str " MiB")
  else if 2 ^ 10 <=? n then unit 10 (str " KiB")
  else FormatInt n ++ str " B".

Example human_bytes :
  humanBytes 1023 = str "1023 B" /\ humanBytes 1536 = str "1.50 KiB" /\ humanBytes (5 * 2 ^ 30) = str "5.00 GiB".
Proof. by vm_compute. Qed.
