(* ===== verification/BenchStateSpec.v ===== *)
(** What the state-size harness promises: how many checkpoints a source subtask
    takes, which subtasks are read as keyed state, and that what is reported of a
    checkpoint is what its states hold, whatever order Go visits them in. *)
From S2P Require Import Prelude Sums Strconv GoStrings Float64 State Serialize CheckpointFormat Storage Graph GraphSpec Executor SourceTask.
From S2P Require Import BenchWorkload BenchState.

(** * Barriers *)

(** The barriers every source subtask injects under the interval of the harness:
    at least as many as were asked for and fewer than twice as many, where its
    range has that many elements, and otherwise one after each element. *)
Theorem checkpoints_per_subtask cfg k :
  1 <= k -> 1 <= BenchWorkload.Parallelism cfg -> 1 <= Records cfg ->
  let perSubtask := Z.quot (Records cfg) (BenchWorkload.Parallelism cfg) in
  let budget := maxBarriers (Records cfg) (BenchWorkload.Parallelism cfg) (barrierIntervalFor cfg k) true in
  if k <=? perSubtask then k <= budget < 2 * k else budget = perSubtask.
Proof.
  intros Hk Hp Hr per budget. unfold budget, maxBarriers, barrierIntervalFor. cbn [negb]. fold per.
  assert (0 <= per) as Hper by (apply Z.quot_pos; lia).
  destruct (Z.leb_spec k per) as [Hle|Hlt].
  - assert (1 <= Z.quot per k) as H1 by (rewrite Z.quot_div_nonneg by lia; apply Z.div_le_lower_bound; lia).
    rewrite (proj2 (Z.ltb_ge (Z.quot per k) 1)) by done. rewrite (proj2 (Z.leb_gt _ 0)) by lia.
    rewrite !Z.quot_div_nonneg in * by (try apply Z.quot_pos; lia).
    pose proof (Z.div_mod per k ltac:(lia)) as E. pose proof (Z.mod_pos_bound per k ltac:(lia)).
    set (i := per / k) in *. split; [apply Z.div_le_lower_bound; nia|apply Z.div_lt_upper_bound; nia].
  - rewrite (Z.quot_small per k) by lia. cbn. by rewrite Z.quot_1_r.
Qed.

Lemma checkpoints_per_subtask_witness :
  let cfg := MkConfig queryQ7 4 800000 1 0 10000 5000 1250 in
  8 <= maxBarriers 800000 4 (barrierIntervalFor cfg 8) true < 16.
Proof.
  intros cfg. pose proof (checkpoints_per_subtask cfg 8 ltac:(lia) ltac:(cbn; lia) ltac:(cbn; lia)) as H.
  exact H.
Defined.

(** * Subtasks with keyed state *)

Lemma keys_of_vertex (v : bytes) l (keys : gset SubtaskKey) k :
  k ∈ foldl (fun keys i => {[MkKey v i]} ∪ keys) keys l <-> k ∈ keys \/ (VertexID k = v /\ Index k ∈ l).
Proof.
  revert keys. induction l as [|i l IH]; intros keys; cbn; [set_solver|]. rewrite IH. destruct k as [w j]. cbn. set_solver.
Qed.

Lemma operatorSubtasks_spec {Src Op Snk} (g : Graph Src Op Snk) keys : built g -> operatorSubtasks g = Ok keys ->
  forall k, k ∈ keys <-> exists v, byID g !! VertexID k = Some v /\ Kind v = VertexOperator /\ 0 <= Index k < Graph.Parallelism v.
Proof.
  intros Hg. unfold operatorSubtasks. destruct (TopoOrder g) as [order|e] eqn:Eo; [|done]. intros [= <-] k.
  assert (forall l (keys : gset SubtaskKey),
    k ∈ foldl (fun keys (v : Vertex Src Op Snk) => if negb (bool_decide (Kind v = VertexOperator)) then keys
      else foldl (fun keys i => {[MkKey (Graph.ID v) i]} ∪ keys) keys (range_int (Graph.Parallelism v))) keys l <->
    k ∈ keys \/ exists v : Vertex Src Op Snk, v ∈ l /\ Kind v = VertexOperator /\ VertexID k = Graph.ID v /\ 0 <= Index k < Graph.Parallelism v) as H.
  { induction l as [|v l IH]; intros ks; cbn [foldl]; [split; [by left|intros [?|(? & ?%elem_of_nil & _)]; done]|].
    rewrite IH. case_bool_decide as Hv; cbn [negb].
    - rewrite keys_of_vertex. unfold range_int. rewrite elem_of_seqZ. setoid_rewrite elem_of_cons. naive_solver lia.
    - setoid_rewrite elem_of_cons. naive_solver. }
  rewrite H. pose proof (proj2 (order_ids g order Hg Eo)) as Hids. split.
  - intros [?%elem_of_empty|(v & Hv & Hk & Hid & Hi)]; [done|]. exists v. split; [|done]. by apply Hids.
  - intros (v & [Hv Hid]%Hids & Hk & Hi). right. by exists v.
Qed.

(** * What is measured *)

(** A snapshot decodes to as many entries as it was written from. *)
Lemma entriesIn_snapshot m : fits m -> entriesIn (snapshot_bytes m) = Ok (Z.of_nat (size m)).
Proof.
  intros Hm. unfold entriesIn. pose proof (ReadFrom_snapshot m [] NewMemory Hm eq_refl eq_refl) as H. rewrite app_nil_r in H.
  destruct (ReadFrom (NewMemory, snapshot_bytes m)) as [res [s r]]. destruct (H eq_refl) as (-> & _ & Hv).
  unfold Memory_Len. change (entries s) with (ks_view s). by rewrite Hv.
Qed.

Definition is_operator (operators : gset SubtaskKey) (kp : SubtaskKey * bytes) : Prop := kp.1 ∈ operators.
#[export] Instance is_operator_dec operators kp : Decision (is_operator operators kp).
Proof. unfold is_operator. apply _. Defined.

(** The row of one payload; [entries] of a payload that does not decode is not
    used. *)
Definition entries_of (payload : bytes) : Z := match entriesIn payload with Ok n => n | Err _ => 0 end.
Definition row_of (kp : SubtaskKey * bytes) : SubtaskState :=
  MkSubtaskState (VertexID kp.1) (Index kp.1) (Z.of_nat (length kp.2)) (entries_of kp.2).
Definition decodes (kp : SubtaskKey * bytes) : Prop := exists n, entriesIn kp.2 = Ok n.

Lemma measure_payloads_ok id operators l size :
  Forall decodes (filter (is_operator operators) l) ->
  measure_payloads id operators l size =
  Ok (MkSize (cs_id size)
        (cs_stateBytes size + sum (fun kp => Z.of_nat (length kp.2)) (filter (is_operator operators) l))
        (cs_diskBytes size)
        (cs_entries size + sum (fun kp => entries_of kp.2) (filter (is_operator operators) l))
        (cs_perSubtask size ++ (row_of <$> filter (is_operator operators) l))).
Proof.
  revert size. induction l as [|[key payload] l IH]; intros size; cbn [measure_payloads].
  - intros _. cbn. rewrite app_nil_r, !Z.add_0_r. by destruct size.
  - destruct (decide (key ∈ operators)) as [Hk|Hk].
    + rewrite !filter_cons_True by done. rewrite bool_decide_true by done. cbn [negb].
      intros [[n Hn] Hl]%Forall_cons. cbn in Hn. rewrite Hn, IH by done.
      cbn [cs_id cs_stateBytes cs_diskBytes cs_entries cs_perSubtask]. rewrite fmap_cons, <- app_assoc. cbn [sum fst snd].
      assert (entries_of payload = n) as E by (unfold entries_of; by rewrite Hn).
      assert (row_of (key, payload) = MkSubtaskState (VertexID key) (Index key) (Z.of_nat (length payload)) n) as -> by (unfold row_of; cbn; by rewrite E).
      rewrite E. f_equal. f_equal; lia.
    + rewrite !filter_cons_False by done. rewrite bool_decide_false by done. cbn [negb]. apply IH.
Qed.

(** Rows are totally ordered, and two rows of one checkpoint that are below each
    other are of the same subtask. *)
#[export] Instance row_le_total : Total row_le.
Proof.
  intros a b. unfold row_le. destruct (decide (ss_VertexID a = ss_VertexID b)) as [E|E].
  - rewrite !bool_decide_true by done. lia.
  - rewrite !bool_decide_false by congruence. apply (total bytes_le).
Qed.

#[export] Instance row_le_trans : Transitive row_le.
Proof.
  intros a b c. unfold row_le.
  destruct (decide (ss_VertexID a = ss_VertexID b)) as [E1|E1]; [rewrite (bool_decide_true _ E1)|rewrite (bool_decide_false _ E1)];
    (destruct (decide (ss_VertexID b = ss_VertexID c)) as [E2|E2]; [rewrite (bool_decide_true _ E2)|rewrite (bool_decide_false _ E2)]); intros H1 H2.
  - rewrite bool_decide_true by congruence. lia.
  - rewrite bool_decide_false by congruence. by rewrite E1.
  - rewrite bool_decide_false by congruence. by rewrite <- E2.
  - rewrite bool_decide_false; [by transitivity (ss_VertexID b)|]. intros E. apply E1. rewrite E in H1 |- *. by apply (anti_symm bytes_le).
Qed.

(** The number of the checkpoint an entry of the root may be. *)
Definition candidate (e : bytes * bool) : option Z :=
  if negb e.2 || negb (HasPrefix e.1 dirPrefix) then None else ParseInt (drop (length dirPrefix) e.1).

(** What is reported of the states of a checkpoint. *)
Definition state_row (km : SubtaskKey * gmap bytes bytes) : SubtaskState :=
  MkSubtaskState (VertexID km.1) (Index km.1) (Z.of_nat (length (snapshot_bytes km.2))) (Z.of_nat (size km.2)).

Record sized (states : gmap SubtaskKey (gmap bytes bytes)) (id : Z) (s : checkpointSize) : Prop := {
  sz_id : cs_id s = id;
  sz_bytes : cs_stateBytes s = sum (fun km => Z.of_nat (length (snapshot_bytes km.2))) (map_to_list states);
  sz_entries : cs_entries s = sum (fun km => Z.of_nat (size km.2)) (map_to_list states);
  sz_rows : cs_perSubtask s ≡ₚ state_row <$> map_to_list states;
  sz_sorted : StronglySorted row_le (cs_perSubtask s);
}.

(** The payloads of the operators are the snapshots of their states. *)
Record holds_states (operators : gset SubtaskKey) (payloads : gmap SubtaskKey bytes) (states : gmap SubtaskKey (gmap bytes bytes)) : Prop := {
  hs_operators : dom states ⊆ operators;
  hs_fits : map_Forall (fun _ m => fits m) states;
  hs_payloads : forall k, k ∈ operators -> payloads !! k = snapshot_bytes <$> states !! k;
}.

Definition snapshot_of (km : SubtaskKey * gmap bytes bytes) : SubtaskKey * bytes := (km.1, snapshot_bytes km.2).

Lemma holds_states_perm operators payloads states l :
  holds_states operators payloads states -> l ≡ₚ map_to_list payloads ->
  filter (is_operator operators) l ≡ₚ snapshot_of <$> map_to_list states.
Proof.
  intros [Hd _ Hp] Hl. rewrite Hl. apply NoDup_Permutation.
  - apply NoDup_filter, NoDup_map_to_list.
  - apply NoDup_fmap_2_strong; [|apply NoDup_map_to_list]. intros [k m] [k' m'] H1%elem_of_map_to_list H2%elem_of_map_to_list [= -> _]. congruence.
  - intros [k p]. rewrite list_elem_of_filter, elem_of_map_to_list, list_elem_of_fmap. unfold is_operator. cbn. split.
    + intros [Hk Hkp]. rewrite (Hp k Hk) in Hkp. destruct (states !! k) as [m|] eqn:E; [|done]. injection Hkp as <-.
      exists (k, m). split; [done|by apply elem_of_map_to_list].
    + intros ([k' m] & [= -> ->] & Hm%elem_of_map_to_list). assert (k' ∈ operators) as Hk by (apply Hd, elem_of_dom; eauto).
      split; [done|]. by rewrite (Hp k' Hk), Hm.
Qed.

(** Measuring one complete checkpoint. *)
Lemma scan_entry_ok visit root im operators e id meta payloads states :
  (forall ps, visit ps ≡ₚ map_to_list ps) -> candidate e = Some id -> Load root id im = Ok (meta, payloads) ->
  holds_states operators payloads states ->
  exists s, scan_entry visit root im operators e = Ok (Some s) /\ sized states id s.
Proof.
  intros Hv Hc Hl Hs. unfold scan_entry. unfold candidate in Hc. destruct (negb e.2 || _); [done|]. rewrite Hc, Hl.
  pose proof (holds_states_perm _ _ _ _ Hs (Hv payloads)) as Hp.
  assert (forall km, km ∈ map_to_list states -> fits km.2) as Hfit.
  { intros [k m] Hm%elem_of_map_to_list. exact (hs_fits _ _ _ Hs k m Hm). }
  rewrite measure_payloads_ok.
  2:{ rewrite Hp. apply Forall_fmap, Forall_forall. intros km Hm. exists (Z.of_nat (size km.2)). by apply entriesIn_snapshot, Hfit. }
  eexists. split; [done|]. unfold sort_rows. cbn [cs_id cs_stateBytes cs_diskBytes cs_entries cs_perSubtask app].
  split; cbn [cs_id cs_stateBytes cs_diskBytes cs_entries cs_perSubtask].
  - done.
  - rewrite (sum_perm _ _ _ Hp), sum_fmap. done.
  - rewrite (sum_perm _ _ _ Hp), sum_fmap. apply sum_ext. intros km Hm. cbn. unfold entries_of. by rewrite entriesIn_snapshot by by apply Hfit.
  - rewrite merge_sort_Permutation, Hp, <- list_fmap_compose. apply Permutation_refl'. apply list_fmap_ext.
    intros i km Hm%list_elem_of_lookup_2. unfold compose, row_of, state_row, entries_of. cbn. by rewrite entriesIn_snapshot by by apply Hfit.
  - apply (StronglySorted_merge_sort row_le).
Qed.

Lemma scan_entry_none visit root im operators e :
  match candidate e with
  | Some id => match Load root id im with Ok _ => False | Err _ => True end
  | None => True
  end -> scan_entry visit root im operators e = Ok None.
Proof.
  unfold candidate, scan_entry. destruct (negb e.2 || _); [done|]. destruct (ParseInt _) as [id|]; [|done]. by destruct (Load root id im).
Qed.

(** The number of the complete checkpoint an entry of the root is. *)
Definition complete_id (root : bytes) (im : image) (e : bytes * bool) : option Z :=
  id ← candidate e; if is_ok (Load root id im) then Some id else None.

#[export] Instance size_le_trans : Transitive size_le.
Proof. intros a b c. unfold size_le. lia. Qed.
#[export] Instance size_le_total : Total size_le.
Proof. intros a b. unfold size_le. lia. Qed.

(** What is on the disk is measured exactly: when the payloads of every complete
    checkpoint are the snapshots of its operators' states, the scan reports one
    size for each complete checkpoint and for nothing else, in the order of their
    numbers, with the bytes and the entries of those states and a sorted row for
    each subtask, whatever order Go visits the payloads in. *)
Theorem scan_measures_states (visit : gmap SubtaskKey bytes -> list (SubtaskKey * bytes)) (root : bytes) (im : image)
    (operators : gset SubtaskKey) (l : list (bytes * bool)) (states : Z -> gmap SubtaskKey (gmap bytes bytes)) :
  (forall ps, visit ps ≡ₚ map_to_list ps) -> im_list im root = Some l ->
  (forall e id meta payloads, e ∈ l -> candidate e = Some id -> Load root id im = Ok (meta, payloads) ->
     holds_states operators payloads (states id)) ->
  exists sizes, scanCheckpoints visit root im operators = Ok sizes /\ StronglySorted size_le sizes /\
    (exists found, Permutation sizes found /\
       Forall2 (fun id s => sized (states id) id s) (omap (complete_id root im) l) found).
Proof.
  intros Hv Hl Hs. unfold scanCheckpoints. rewrite Hl. clear Hl.
  assert (exists found, scan_entries visit root im operators l = Ok found /\
    Forall2 (fun id s => sized (states id) id s)
      (omap (complete_id root im) l) found) as (found & -> & Hf).
  { induction l as [|e l IH]; [exists []; by split|].
    destruct IH as (found & Ef & Hf); [intros e' id meta ps He'; apply Hs; by right|].
    cbn [scan_entries].
    change (omap (complete_id root im) (e :: l)) with
      (match complete_id root im e with Some y => y :: omap (complete_id root im) l | None => omap (complete_id root im) l end).
    assert (complete_id root im e = id ← candidate e; if is_ok (Load root id im) then Some id else None) as -> by done.
    destruct (candidate e) as [id|] eqn:Ec; [destruct (Load root id im) as [[meta ps]|err] eqn:El|].
    - destruct (scan_entry_ok visit root im operators e id meta ps (states id) Hv Ec El) as (s & Es & Hsz).
      { by eapply Hs; [left| |]. }
      exists (s :: found). rewrite Es, Ef. split; [done|]. cbn. rewrite El. cbn. by constructor.
    - exists found. rewrite scan_entry_none by (by rewrite Ec, El). rewrite Ef. split; [done|]. cbn. by rewrite El.
    - exists found. rewrite scan_entry_none by (by rewrite Ec). by rewrite Ef. }
  exists (merge_sort size_le found). split; [done|]. split; [apply (StronglySorted_merge_sort size_le)|].
  exists found. split; [apply merge_sort_Permutation|done].
Qed.

(** The checkpoint reported is a largest one. *)
Lemma largest_of_max s rest :
  let m := largest_of s rest in
  m ∈ s :: rest /\ forall t, t ∈ s :: rest -> cs_stateBytes t <= cs_stateBytes m.
Proof.
  unfold largest_of. revert s. induction rest as [|t rest IH]; intros s; cbn [foldl].
  - split; [by left|]. by intros t ->%list_elem_of_singleton.
  - destruct (Z.ltb_spec (cs_stateBytes s) (cs_stateBytes t)) as [Hlt|Hle].
    + destruct (IH t) as [Hin Hmax]. split; [by right|]. intros u [->|Hu]%elem_of_cons; [|by apply Hmax].
      specialize (Hmax t ltac:(by left)). lia.
    + destruct (IH s) as [Hin Hmax]. split; [apply elem_of_cons in Hin as [->|Hin]; [by left|by right; right]|].
      intros u [->|[->|Hu]%elem_of_cons]%elem_of_cons; [by apply Hmax; left| |by apply Hmax; right].
      specialize (Hmax s ltac:(by left)). lia.
Qed.

(** * A root with one complete checkpoint *)

Definition sample_key : SubtaskKey := MkKey (str "q7") 0.
Definition sample_meta : Metadata := MkMeta [CheckpointFormat.MkVertex (str "q7") 1 0; CheckpointFormat.MkVertex (str "source") 1 800] 7.
Definition sample_state : gmap bytes bytes := {[str "a" := str "1"; str "b" := str "22"]}.
Definition sample_root : bytes := str "/ck".
Definition sample_payload (k : SubtaskKey) : bytes := if decide (k = sample_key) then snapshot_bytes sample_state else str "offset".

Definition sample_image : image :=
  let d := Storage.dir sample_root 3 in
  MkImage (list_to_map ([(Join d completeName, []); (Join d metadataName, encodeMetadata sample_meta)] ++
             ((fun k => (Join d (fileName k), encodeSubtaskState 3 k (sample_payload k))) <$> Subtasks sample_meta)))
    (fun p => if decide (p = sample_root) then Some [(str "chk-3", true); (str "chk-4", true); (str "chk-x", true); (str "note", false)] else None).

Definition sample_states (id : Z) : gmap SubtaskKey (gmap bytes bytes) := if decide (id = 3) then {[sample_key := sample_state]} else ∅.

Definition sample_payloads : gmap SubtaskKey bytes :=
  match Load sample_root 3 sample_image with Ok (_, payloads) => payloads | Err _ => ∅ end.

Lemma scan_measures_states_witness :
  exists sizes, scanCheckpoints map_to_list sample_root sample_image {[sample_key]} = Ok sizes /\ StronglySorted size_le sizes /\
    (exists found, Permutation sizes found /\
       Forall2 (fun id s => sized (sample_states id) id s)
         (omap (complete_id sample_root sample_image) [(str "chk-3", true); (str "chk-4", true); (str "chk-x", true); (str "note", false)]) found).
Proof.
  apply (scan_measures_states map_to_list sample_root sample_image {[sample_key]}).
  - intros ps. reflexivity.
  - vm_compute. reflexivity.
  - intros e id meta payloads He Hc Hl.
    assert (is_ok (Load sample_root 4 sample_image) = false) as E4 by (vm_compute; reflexivity).
    assert (id = 3) as ->.
    { repeat (apply elem_of_cons in He as [->|He]); [..|by apply elem_of_nil in He];
        vm_compute in Hc; try discriminate Hc; injection Hc as <-; [reflexivity|rewrite Hl in E4; discriminate E4]. }
    assert (payloads = sample_payloads) as -> by (unfold sample_payloads; rewrite Hl; reflexivity). clear Hl.
    split.
    + refine (bool_decide_eq_true_1 _ _). vm_compute. reflexivity.
    + change (sample_states 3) with ({[sample_key := sample_state]} : gmap SubtaskKey (gmap bytes bytes)). apply map_Forall_singleton.
      refine (bool_decide_eq_true_1 _ _). vm_compute. reflexivity.
    + intros k ->%elem_of_singleton. vm_compute. reflexivity.
Defined.

Example sample_scan :
  match scanCheckpoints map_to_list sample_root sample_image {[sample_key]} with
  | Ok l => map (fun s => (cs_id s, cs_stateBytes s, cs_entries s, cs_perSubtask s)) l
  | Err _ => []
  end = [(3, 29, 2, [MkSubtaskState (str "q7") 0 29 2])].
Proof. vm_compute. reflexivity. Qed.
