(* ===== verification/BenchRecovery.v ===== *)
(** The recovery harness ([cmd/bench/recovery.go]): the clock that notices the
    first record a restored job writes, the sink that tells it, and the
    measurement around two runs. What the subtasks of a run do is an argument, as
    it is of a run. *)
From S2P Require Import Prelude Sums Core Strconv GoStrings State CheckpointFormat Storage Graph GraphSpec GraphLine Subtask Executor.
From S2P Require Import BenchWorkload BenchFingerprint BenchState BenchStateSpec.

(** * The clock *)

(** Nanoseconds; 0 is not set. *)
Record firstRecordClock := MkClock {
  begin : Z;
  first : Z;
}.

Definition NewClock : firstRecordClock := MkClock 0 0.

Definition clock_start (t : Z) (c : firstRecordClock) : firstRecordClock := MkClock t (first c).

(** [CompareAndSwap(0, t)]. *)
Definition observe (t : Z) (c : firstRecordClock) : firstRecordClock :=
  if first c =? 0 then MkClock (begin c) t else c.

Definition resume (c : firstRecordClock) : option Z :=
  if first c =? 0 then None else Some (sub64 (first c) (begin c)).

(** * The sink *)

(** A subtask's sink, with the clock the sinks share and the time of day. *)
Record timing := MkTiming {
  seen : bool;
  clock : firstRecordClock;
  now : Z;
}.

Definition timing_Write (rec : Record_) : M Empty_set timing unit := fun s =>
  (Ok tt, if seen s then s else MkTiming true (observe (now s) (clock s)) (now s)).

#[export] Instance timing_Sink : Sink timing Empty_set := {|
  snk_Open _ := mret tt;
  snk_Write := timing_Write;
  snk_Snapshot := mret [];
  snk_Notify _ := mret tt;
  snk_Close := mret tt;
  snk_Restore := None;
  snk_CommitFinalEpoch := None;
|}.

(** Writes by the subtasks of a vertex, in the order of their compare-and-swaps,
    each with the time it had read: which subtasks have seen a record, and the
    shared clock. *)
Definition shared_write (acc : gset Z * firstRecordClock) (w : Z * Z * Record_) : gset Z * firstRecordClock :=
  let '(i, t, rec) := w in
  let s := (timing_Write rec (MkTiming (bool_decide (i ∈ acc.1)) acc.2 t)).2 in
  (if seen s then {[i]} ∪ acc.1 else acc.1, clock s).

(** What the clock shows is the time of the first of all the writes, whichever
    subtask it was of and whatever came after, and nothing without one. *)
Lemma clock_first_write start writes :
  Forall (fun w : Z * Z * Record_ => w.1.2 <> 0) writes ->
  resume (foldl shared_write (∅, clock_start start NewClock) writes).2 =
  match writes with [] => None | w :: _ => Some (sub64 w.1.2 start) end.
Proof.
  assert (forall l (acc : gset Z * firstRecordClock), first acc.2 <> 0 ->
    (foldl shared_write acc l).2 = acc.2) as Hkeep.
  { induction l as [|[[i t] rec] l IH]; intros acc Hacc; [done|]. cbn [foldl].
    assert ((shared_write acc (i, t, rec)).2 = acc.2) as E.
    { unfold shared_write, timing_Write. cbn. case_bool_decide; cbn; [done|]. unfold observe. by rewrite (proj2 (Z.eqb_neq _ 0)). }
    rewrite IH; [done|by rewrite E]. }
  intros Ht. destruct writes as [|[[i t] rec] l]; [done|]. apply Forall_cons in Ht as [Ht _]. cbn in Ht. cbn [foldl].
  rewrite Hkeep; unfold shared_write, timing_Write; cbn; [|done]. unfold resume. cbn. by rewrite (proj2 (Z.eqb_neq _ 0)).
Qed.

(** * Publishing *)

Definition provisionalOn (f : Fingerprint) : bool := negb (bool_decide (DiskRotational f = diskSolidState)).

(** [os.TempDir()] is an argument. *)
Definition checkpointParent (tempDir stateDir : bytes) : bytes := match stateDir with [] => tempDir | _ => stateDir end.

(** * The measurement *)

Record RecoveryResult := MkRecoveryResult {
  rr_Config : Config;
  rr_CheckpointID : Z;
  SnapshotBytes : Z;
  SnapshotEntries : Z;
  rr_DiskBytes : Z;
  ResumeMillis : Z;
  RunMillis : Z;
  rr_Oversubscribed : bool;
}.

Inductive recovery_error {RE TE : Type} :=
| RecCheckpoints (n : Z)
| RecGraph (e : bench_error)
| RecFirstRun (label : bytes) (e : run_error RE TE)
| RecOrder (e : graph_error)
| RecNoCheckpoint (label : bytes)
| RecScan (label : bytes) (e : scan_error)
| RecSecondRun (label : bytes) (e : run_error RE TE)
| RecNoRecord (label : bytes).
Arguments recovery_error : clear implicits.

(** The loop over the sizes: the fields of the last one with the number. *)
Definition pick_size (id : Z) (sizes : list checkpointSize) : Z * Z * Z * Z :=
  foldl (fun acc s => if cs_id s =? id then (cs_id s, cs_stateBytes s, cs_entries s, cs_diskBytes s) else acc) (0, 0, 0, 0) sizes.

Section Measure.
Context {W RE TE : Type} (numCPU : Z).
Context (visit_order : gmap SubtaskKey bytes -> list (SubtaskKey * bytes)) (count : bench_source -> option Z).
(** The world holds the disk, the time and the clock of the second run. *)
Context (disk_of : W -> image) (time_of : W -> Z) (clock_of : W -> firstRecordClock) (set_clock : firstRecordClock -> W -> W).
(** What the subtasks of the two runs do; [NewSink] of the second is the timing
    sink's. *)
Context (execute1 : execution (W := W) (RE := RE) (TE := TE)) (execute2 : execution (W := W) (RE := RE) (TE := TE)).

(** The second run, from the checkpoints under the root: the time it took, its
    error and the clock after it. *)
Definition restored_run (cfg : Config) (g : Graph bench_source factory unit) (root : bytes) (w : W)
    : result (run_error RE TE) unit * Z * W :=
  let start := time_of w in
  let w := set_clock (clock_start start NewClock) w in
  let '(res, w) := RunWithOptions count g (MkOptions [] root (Seed cfg)) (disk_of w) execute2 w in
  (res, sub64 (time_of w) start, w).

Definition second_part (cfg : Config) (interval : Z) (root : bytes) (w : W) (id : Z) (sizes : list checkpointSize)
    : option (result (recovery_error RE TE) RecoveryResult) :=
  let '(cid, bytes, entries, disk) := pick_size id sizes in
  second ← buildGraphWithSink cfg interval tt;
  Some match second with
       | Err e => Err (RecGraph e)
       | Ok second =>
           let '(res, elapsed, w) := restored_run cfg second root w in
           match res with
           | Err e => Err (RecSecondRun (label cfg) e)
           | Ok _ =>
               match resume (clock_of w) with
               | None => Err (RecNoRecord (label cfg))
               | Some d =>
                   Ok (MkRecoveryResult cfg cid bytes entries disk (Z.quot d 1000000) (Z.quot elapsed 1000000) (oversubscribed numCPU cfg))
               end
           end
       end.

(** [None] where building a graph panics. *)
Definition measureRecovery (cfg : Config) (checkpointsPerSubtask : Z) (root : bytes) (w : W)
    : option (result (recovery_error RE TE) RecoveryResult) :=
  if checkpointsPerSubtask <? 1 then Some (Err (RecCheckpoints checkpointsPerSubtask))
  else
    let interval := barrierIntervalFor cfg checkpointsPerSubtask in
    g ← buildGraph cfg interval;
    match g with
    | Err e => Some (Err (RecGraph e))
    | Ok g =>
        let '(res, w) := RunWithOptions count g (MkOptions root [] (Seed cfg)) (disk_of w) execute1 w in
        match res with
        | Err e => Some (Err (RecFirstRun (label cfg) e))
        | Ok _ =>
            match operatorSubtasks g with
            | Err e => Some (Err (RecOrder e))
            | Ok operators =>
                match Latest root (disk_of w) with
                | None => Some (Err (RecNoCheckpoint (label cfg)))
                | Some id =>
                    match scanCheckpoints visit_order root (disk_of w) operators with
                    | Err e => Some (Err (RecScan (label cfg) e))
                    | Ok sizes => second_part cfg interval root w id sizes
                    end
                end
            end
        end
    end.
End Measure.
