(* ===== verification/BenchRecoverySpec.v ===== *)
(** What the recovery harness promises: the snapshot it reports is the one the
    second run restored from. *)
From S2P Require Import Prelude Sums Strconv GoStrings State Serialize CheckpointFormat Storage Graph GraphSpec Executor.
From S2P Require Import BenchWorkload BenchState BenchStateSpec BenchRecovery.

(** * The scan and the latest checkpoint *)

Lemma has_prefix_HasPrefix p s : has_prefix p s = HasPrefix s p.
Proof.
  apply eq_bool_prop_intro. rewrite !Is_true_true, HasPrefix_spec. unfold has_prefix. rewrite bool_decide_eq_true. split.
  - intros E. exists (drop (length p) s). rewrite <- E at 1. by rewrite take_drop.
  - intros [r ->]. by rewrite take_app_length.
Qed.

Lemma Latest_candidate root im id : Latest root im = Some id ->
  exists l e, im_list im root = Some l /\ e ∈ l /\ candidate e = Some id.
Proof.
  unfold Latest. destruct (im_list im root) as [l|]; [|done].
  match goal with |- foldl ?f None l = _ -> _ => set (step := f) end.
  assert (forall best, foldl step best l = Some id -> best = Some id \/ exists e, e ∈ l /\ candidate e = Some id) as H.
  2:{ intros E. destruct (H None E) as [?|(e & He & Hc)]; [done|]. by exists l, e. }
  induction l as [|e l IH]; intros best; cbn [foldl]; [by left|]. intros E. apply IH in E as [E|(e' & He' & Hc)].
  - unfold step in E. unfold candidate. rewrite has_prefix_HasPrefix in E.
    destruct (negb e.2 || negb (HasPrefix e.1 dirPrefix)) eqn:Eg; [by left|].
    destruct (ParseInt (drop (length dirPrefix) e.1)) as [n|] eqn:En; [|by left].
    destruct (im_files im !! _); [|by left].
    assert (Some n = Some id \/ best = Some id) as [Hn|]; [|right|by left].
    { destruct best as [b|]; [destruct (b <? n)|]; auto. }
    exists e. split; [by left|]. by rewrite Eg, En.
  - right. exists e'. split; [by right|done].
Qed.

Lemma measure_payloads_id id operators l size size' :
  measure_payloads id operators l size = Ok size' -> cs_id size' = cs_id size.
Proof.
  revert size. induction l as [|[key payload] l IH]; intros size; cbn [measure_payloads]; [by intros [= <-]|].
  destruct (negb _); [apply IH|]. destruct (entriesIn payload); [|done]. by intros ->%IH.
Qed.

Lemma scan_entry_some visit root im operators e o id meta payloads :
  scan_entry visit root im operators e = Ok o -> candidate e = Some id -> Load root id im = Ok (meta, payloads) ->
  exists s, o = Some s /\ cs_id s = id.
Proof.
  unfold scan_entry, candidate. destruct (negb e.2 || _); [done|]. intros H Hc Hl. rewrite Hc, Hl in H.
  destruct (measure_payloads _ _ _ _) as [size|] eqn:Em; [|done]. injection H as <-. eexists. split; [done|].
  by apply measure_payloads_id in Em.
Qed.

Lemma scan_entries_in visit root im operators l found e id meta payloads :
  scan_entries visit root im operators l = Ok found -> e ∈ l -> candidate e = Some id -> Load root id im = Ok (meta, payloads) ->
  exists s, s ∈ found /\ cs_id s = id.
Proof.
  intros Hf He Hc Hl. revert found Hf. induction l as [|e' l IH]; intros found; [by apply elem_of_nil in He|]. cbn [scan_entries].
  destruct (scan_entry visit root im operators e') as [o|] eqn:Eo; [|done].
  destruct (scan_entries visit root im operators l) as [rest|] eqn:Er; [|done]. intros [= <-].
  apply elem_of_cons in He as [->|He].
  - destruct (scan_entry_some _ _ _ _ _ _ _ _ _ Eo Hc Hl) as (s & -> & Hs). exists s. split; [by left|done].
  - destruct (IH He rest eq_refl) as (s & Hin & Hs). exists s. split; [destruct o; [by right|done]|done].
Qed.

(** A checkpoint the next run can restore from is among those measured. *)
Lemma scan_latest visit root im operators sizes id meta payloads :
  scanCheckpoints visit root im operators = Ok sizes -> Latest root im = Some id -> Load root id im = Ok (meta, payloads) ->
  exists s, s ∈ sizes /\ cs_id s = id.
Proof.
  intros Hs Hl Hload. destruct (Latest_candidate _ _ _ Hl) as (l & e & El & He & Hc). unfold scanCheckpoints in Hs. rewrite El in Hs.
  destruct (scan_entries visit root im operators l) as [found|] eqn:Ef; [|done]. injection Hs as <-.
  destruct (scan_entries_in _ _ _ _ _ _ _ _ _ _ Ef He Hc Hload) as (s & Hin & Hid). exists s. split; [|done].
  by rewrite merge_sort_Permutation.
Qed.

Lemma pick_size_in id sizes s : s ∈ sizes -> cs_id s = id ->
  exists t, t ∈ sizes /\ cs_id t = id /\ pick_size id sizes = (id, cs_stateBytes t, cs_entries t, cs_diskBytes t).
Proof.
  unfold pick_size. revert s. induction sizes as [|t sizes IH] using rev_ind; intros s Hin Hid; [by apply elem_of_nil in Hin|].
  rewrite foldl_snoc. destruct (Z.eqb_spec (cs_id t) id) as [E|E].
  - exists t. split; [set_solver|]. split; [done|]. by rewrite E.
  - apply elem_of_app in Hin as [Hin| ->%list_elem_of_singleton]; [|done].
    destruct (IH s Hin Hid) as (u & Hu & Hidu & Eu). exists u. split; [set_solver|done].
Qed.

(** * The measurement *)

Section Measure.
Context {W RE TE : Type} (numCPU : Z).
Context (visit : gmap SubtaskKey bytes -> list (SubtaskKey * bytes)) (count : bench_source -> option Z).
Context (disk_of : W -> image) (time_of : W -> Z) (clock_of : W -> firstRecordClock) (set_clock : firstRecordClock -> W -> W).
Context (execute1 : execution (W := W) (RE := RE) (TE := TE)) (execute2 : execution (W := W) (RE := RE) (TE := TE)).
(** Setting the clock does not touch the disk. *)
Context (Hclock : forall c w, disk_of (set_clock c w) = disk_of w).

Abbreviation measure := (measureRecovery numCPU visit count disk_of time_of clock_of set_clock execute1 execute2).

(** The checkpoint a successful run restored from. *)
Lemma restored_from (g : Graph bench_source factory unit) root seed (w : W) w' : root <> [] ->
  RunWithOptions count g (MkOptions [] root seed) (disk_of w) execute2 w = (Ok tt, w') ->
  exists id meta payloads, Latest root (disk_of w) = Some id /\ Load root id (disk_of w) = Ok (meta, payloads).
Proof.
  intros Hr. unfold RunWithOptions. destruct (TopoOrder g) as [order|e]; [|done]. unfold loadRestorePoint. cbn [RestoreFrom].
  rewrite bool_decide_false by done. destruct (Latest root (disk_of w)) as [id|]; [|done].
  destruct (Load root id (disk_of w)) as [[meta payloads]|e] eqn:El; [|done]. intros _. by exists id, meta, payloads.
Qed.

(** What the second part reports: the fields picked, of a run that restored. *)
Lemma second_part_ok cfg interval root w id sizes res : root <> [] ->
  second_part numCPU count disk_of time_of clock_of set_clock execute2 cfg interval root w id sizes = Some (Ok res) ->
  (rr_CheckpointID res, SnapshotBytes res, SnapshotEntries res, rr_DiskBytes res) = pick_size id sizes /\
  exists id' meta payloads, Latest root (disk_of w) = Some id' /\ Load root id' (disk_of w) = Ok (meta, payloads).
Proof.
  intros Hr. unfold second_part. destruct (pick_size id sizes) as [[[cid bs] es] d].
  destruct (buildGraphWithSink cfg interval tt) as [[g|e]|]; cbn [mbind option_bind]; [|done..].
  unfold restored_run. set (w0 := set_clock _ w).
  destruct (RunWithOptions count g (MkOptions [] root (Seed cfg)) (disk_of w0) execute2 w0) as [r w'] eqn:Er.
  destruct r as [[]|e]; [|done]. destruct (resume (clock_of w')) as [dur|]; [|done]. intros [= <-]. split; [done|].
  destruct (restored_from _ _ _ _ _ Hr Er) as (id' & meta & payloads & Hl & Hload). unfold w0 in *. rewrite Hclock in *.
  by exists id', meta, payloads.
Qed.

(** C38. A measurement that succeeds reports the checkpoint the second run restored
    from, the highest the first run completed; if the payloads of the checkpoints
    are the snapshots of the operators' states, it reports the bytes and the
    entries of the states it held. *)
Theorem recovery_measures_restored cfg k root w res : root <> [] -> (forall ps, visit ps ≡ₚ map_to_list ps) ->
  measure cfg k root w = Some (Ok res) ->
  exists g operators w1 id meta payloads,
    buildGraph cfg (barrierIntervalFor cfg k) = Some (Ok g) /\ operatorSubtasks g = Ok operators /\
    RunWithOptions count g (MkOptions root [] (Seed cfg)) (disk_of w) execute1 w = (Ok tt, w1) /\
    Latest root (disk_of w1) = Some id /\ Load root id (disk_of w1) = Ok (meta, payloads) /\ rr_CheckpointID res = id /\
    (forall (states : Z -> gmap SubtaskKey (gmap bytes bytes)) l, im_list (disk_of w1) root = Some l ->
       (forall e id meta payloads, e ∈ l -> candidate e = Some id -> Load root id (disk_of w1) = Ok (meta, payloads) ->
          holds_states operators payloads (states id)) ->
       SnapshotBytes res = sum (fun km => Z.of_nat (length (snapshot_bytes km.2))) (map_to_list (states id)) /\
       SnapshotEntries res = sum (fun km => Z.of_nat (size km.2)) (map_to_list (states id))).
Proof.
  intros Hr Hv. unfold measureRecovery. destruct (k <? 1); [done|].
  destruct (buildGraph cfg (barrierIntervalFor cfg k)) as [[g|e]|]; cbn [mbind option_bind]; [|done..].
  destruct (RunWithOptions count g _ (disk_of w) execute1 w) as [[[]|e] w1] eqn:E1; [|done].
  destruct (operatorSubtasks g) as [operators|e] eqn:Eo; [|done].
  destruct (Latest root (disk_of w1)) as [id|] eqn:El; [|done].
  destruct (scanCheckpoints visit root (disk_of w1) operators) as [sizes|e] eqn:Es; [|done].
  intros (Hp & id' & meta & payloads & Hl & Hload)%second_part_ok; [|done].
  rewrite El in Hl. injection Hl as <-.
  destruct (scan_latest _ _ _ _ _ _ _ _ Es El Hload) as (s & Hin & Hid).
  destruct (pick_size_in id sizes s Hin Hid) as (t & Ht & Hidt & Ep). rewrite Ep in Hp. injection Hp as Hc Hb He Hd.
  exists g, operators, w1, id, meta, payloads. split_and!; try done.
  intros states l Hlist Hstates.
  destruct (scan_measures_states visit root (disk_of w1) operators l states Hv Hlist Hstates) as (sizes' & Es' & _ & found & Hperm & Hf).
  rewrite Es in Es'. injection Es' as <-. rewrite Hperm in Ht. apply list_elem_of_lookup in Ht as [i Hi].
  destruct (Forall2_lookup_r _ _ _ _ _ Hf Hi) as (id2 & _ & Hsz). assert (id2 = id) as -> by (rewrite <- Hidt; symmetry; apply (sz_id _ _ _ Hsz)).
  rewrite Hb, He. split; [apply (sz_bytes _ _ _ Hsz)|apply (sz_entries _ _ _ Hsz)].
Qed.
End Measure.

(** * A measurement *)

Record sample_world := MkWorld { sw_disk : image; sw_time : Z; sw_clock : firstRecordClock }.

Definition sample_config : Config := MkConfig queryQ7 1 800 7 0 100 50 25.
Definition sample_count (s : bench_source) : option Z := Some 800.

(** The shape of its job. *)
Definition sample_job : Metadata :=
  match buildGraph sample_config 100 with
  | Some (Ok g) => match TopoOrder g with Ok order => buildMetadata sample_count order 7 | Err _ => MkMeta [] 0 end
  | _ => MkMeta [] 0
  end.

(** What the first run leaves: checkpoint 3, complete, and a directory of a
    fourth. *)
Definition sample_left : image :=
  let d := Storage.dir sample_root 3 in
  MkImage (list_to_map ([(Join d completeName, []); (Join d metadataName, encodeMetadata sample_job)] ++
             ((fun k => (Join d (fileName k), encodeSubtaskState 3 k (sample_payload k))) <$> Subtasks sample_job)))
    (fun p => if decide (p = sample_root) then Some [(str "chk-3", true); (str "chk-4", true)] else None).

Definition sample_execute1 : execution (W := sample_world) (RE := unit) (TE := unit) :=
  fun _ _ _ w => (([], []), MkWorld sample_left (sw_time w + 5000000) (sw_clock w)).
Definition sample_execute2 : execution (W := sample_world) (RE := unit) (TE := unit) :=
  fun _ _ _ w => (([], []), MkWorld (sw_disk w) (sw_time w + 9000000) (observe (sw_time w + 2000000) (sw_clock w))).

Definition sample_measure : option (result (recovery_error unit unit) RecoveryResult) :=
  measureRecovery 4 map_to_list sample_count sw_disk sw_time sw_clock
    (fun c w => MkWorld (sw_disk w) (sw_time w) c) sample_execute1 sample_execute2
    sample_config 8 sample_root (MkWorld (MkImage ∅ (fun _ => None)) 1000 NewClock).

Definition sample_recovery : RecoveryResult := MkRecoveryResult sample_config 3 29 2 225 2 9 false.

Example sample_measured : sample_measure = Some (Ok sample_recovery).
Proof. vm_compute. reflexivity. Qed.

Lemma recovery_measures_restored_witness :
  sample_measure = Some (Ok sample_recovery) /\
  exists g operators w1 id meta payloads,
    buildGraph sample_config (barrierIntervalFor sample_config 8) = Some (Ok g) /\ operatorSubtasks g = Ok operators /\
    RunWithOptions sample_count g (MkOptions sample_root [] 7) (MkImage ∅ (fun _ => None)) sample_execute1
      (MkWorld (MkImage ∅ (fun _ => None)) 1000 NewClock) = (Ok tt, w1) /\
    Latest sample_root (sw_disk w1) = Some id /\ Load sample_root id (sw_disk w1) = Ok (meta, payloads) /\ 3 = id /\
    (forall (states : Z -> gmap SubtaskKey (gmap bytes bytes)) l, im_list (sw_disk w1) sample_root = Some l ->
       (forall e id meta payloads, e ∈ l -> candidate e = Some id -> Load sample_root id (sw_disk w1) = Ok (meta, payloads) ->
          holds_states operators payloads (states id)) ->
       29 = sum (fun km => Z.of_nat (length (snapshot_bytes km.2))) (map_to_list (states id)) /\
       2 = sum (fun km => Z.of_nat (size km.2)) (map_to_list (states id))).
Proof.
  assert (sample_measure = Some (Ok sample_recovery)) as E by (vm_compute; reflexivity).
  split; [exact E|].
  exact (recovery_measures_restored 4 map_to_list sample_count sw_disk sw_time sw_clock
    (fun c w => MkWorld (sw_disk w) (sw_time w) c) sample_execute1 sample_execute2 (fun c w => eq_refl)
    sample_config 8 sample_root (MkWorld (MkImage ∅ (fun _ => None)) 1000 NewClock) sample_recovery
    ltac:(discriminate) (fun ps => reflexivity _) E).
Defined.
