(* ===== verification/BenchCommand.v ===== *)
(** The benchmark's three modes put together ([cmd/bench/main.go] and the sweeps
    of [state.go] and [recovery.go]): what each measures of a sweep, what is
    printed, which directories are made and removed and which files are written.
    The measurements of one configuration are arguments. The command removes the
    directories it makes, and the reports of one invocation go to different
    files. *)
From S2P Require Import Prelude Strconv GoStrings Float64 BenchWorkload BenchSpec BenchFingerprint BenchMain BenchMainSpec.
From S2P Require Import BenchState BenchRecovery.

(** * Reports and what is observed *)

Record StateReport := MkStateReport {
  st_Fingerprint : Fingerprint;
  st_Provisional : bool;
  st_Results : list StateResult;
}.

Record RecoveryReport := MkRecoveryReport {
  rc_Fingerprint : Fingerprint;
  rc_Provisional : bool;
  Measures : bytes;
  rc_Results : list RecoveryResult;
}.

Definition measuresRecovery : bytes :=
  str "from the call that restores from a checkpoint to the first record written to a sink; includes reading the checkpoint, restoring every subtask's keyed state, seeking every source to its resume offset and running to the first output; excludes Go process startup and flag parsing".

Inductive document :=
| DocThroughput (r : Report)
| DocState (r : StateReport)
| DocRecovery (r : RecoveryReport).

Inductive event :=
| Line (l : bytes)
| Made (root : bytes)
| Removed (root : bytes)
| Wrote (path : bytes) (d : document).

Section Command.
Context {W E : Type}.

(** The world, and what has been observed of it. *)
Record cmd := MkCmd {
  events : list event;
  world : W;
}.

Inductive command_error :=
| CmdSweep (e : sweep_error)
| CmdMode (mode : bytes)
| CmdRegression (e : bytes)
| CmdFailed (e : E).

Abbreviation CM := (M command_error cmd).

Definition emit (e : event) : CM unit := modify (fun c => MkCmd (events c ++ [e]) (world c)).
Definition print (l : bytes) : CM unit := emit (Line l).

(** Something done in the world, that may fail. *)
Definition in_world {A} (f : W -> result E A * W) : CM A := fun c =>
  let '(r, w) := f (world c) in (wrap_err CmdFailed r, MkCmd (events c) w).

(** What the operating system and the machine do: the working directory, the
    fingerprint of a directory's machine, directories made under one and removed,
    reports written, and the three measurements. *)
Context (getwd : W -> result E bytes * W) (fingerprint : bytes -> Fingerprint).
Context (mkdirTemp : bytes -> bytes -> W -> result E bytes * W) (removeAll : bytes -> W -> result E unit * W).
Context (writeJSON : bytes -> document -> W -> result E unit * W).
Context (readBaseline : bytes -> W -> result E Report * W).
Context (measureOf : Config -> W -> result E Result * W).
Context (measureStateOf : Config -> Z -> bytes -> W -> result E StateResult * W).
Context (measureRecoveryOf : Config -> Z -> bytes -> W -> result E RecoveryResult * W).
Context (tempDir : bytes).

Definition write_report (path : bytes) (d : document) : CM unit :=
  match path with
  | [] => mret tt
  | _ => _ ← in_world (writeJSON path d); emit (Wrote path d)
  end.

Definition sweep_configs (opts : sweepOptions) : CM (list Config) := lift (wrap_err CmdSweep (sweep opts)).

(** [for _, cfg := range configs], collecting results. *)
Fixpoint collect {A} (f : Config -> CM (option A)) (l : list Config) : CM (list A) :=
  match l with
  | [] => mret []
  | cfg :: l =>
      r ← f cfg;
      rest ← collect f l;
      mret (match r with Some a => a :: rest | None => rest end)
  end.

(** ** Throughput *)

Definition result_line (res : Result) : bytes :=
  label (res_Config res) ++ str " elapsed=" ++ FormatInt (ElapsedMillis res) ++ str "ms rate=" ++
  FormatFixed false 0 (RecordsPerSec res) ++ str " rec/s" ++ oversubscribedNote res.

(** [compareBaseline]. *)
Definition compareBaseline (path : bytes) (got : Report) (threshold : float64) : CM unit :=
  want ← in_world (readBaseline path);
  let '(lines, err) := compareReports want got threshold in
  _ ← for_each print lines;
  match err with Some e => fail (CmdRegression e) | None => mret tt end.

Definition runThroughput (opts : sweepOptions) : CM unit :=
  configs ← sweep_configs opts;
  dir ← in_world getwd;
  let f := fingerprint dir in
  results ← collect (fun cfg =>
    res ← in_world (measureOf cfg);
    _ ← print (result_line res);
    mret (Some res)) configs;
  let report := MkReport f [] results in
  _ ← for_each print (printScaling report);
  _ ← write_report (so_jsonPath opts) (DocThroughput report);
  match so_baseline opts with
  | [] => mret tt
  | path => compareBaseline path report (so_threshold opts)
  end.

(** ** State and recovery *)

Definition skipped_line (cfg : Config) : bytes := label cfg ++ str ": skipped, this query holds no keyed state".

(** Measuring one configuration over a directory of its own, which is removed
    whether or not the measurement succeeded. *)
Definition measure_in {A} (parent pattern : bytes) (measure : bytes -> W -> result E A * W) : CM A := fun c =>
  match in_world (mkdirTemp parent pattern) c with
  | (Err e, c) => (Err e, c)
  | (Ok root, c) =>
      let '(_, c) := emit (Made root) c in
      let '(res, c) := in_world (measure root) c in
      let '(rm, c) := in_world (removeAll root) c in
      let '(_, c) := emit (Removed root) c in
      match res, rm with
      | Ok _, Err e => (Err e, c)
      | _, _ => (res, c)
      end
  end.

Definition state_line (res : StateResult) : bytes :=
  label (sr_Config res) ++ str ": peak=" ++ FormatInt (PeakEntries res) ++ str " entries, checkpoint " ++ FormatInt (CheckpointID res) ++
  str " = " ++ humanBytes (StateBytes res) ++ str " over " ++ FormatInt (Entries res) ++ str " entries (" ++
  FormatFixed false 1 (BytesPerEntry res) ++ str " B/entry), disk " ++ humanBytes (DiskBytes res).

Definition provisionalNote (provisional : bool) : bytes := if provisional then str " PROVISIONAL" else [].

Definition recovery_line (provisional : bool) (res : RecoveryResult) : bytes :=
  label (rr_Config res) ++ str ": snapshot " ++ humanBytes (SnapshotBytes res) ++ str " over " ++ FormatInt (SnapshotEntries res) ++
  str " entries, resumed output in " ++ FormatInt (ResumeMillis res) ++ str "ms (run " ++ FormatInt (RunMillis res) ++ str "ms)" ++
  provisionalNote provisional.

(** One configuration of either sweep: skipped if its query holds no state. *)
Definition sweep_one {A} (parent pattern : bytes) (measure : Config -> bytes -> W -> result E A * W) (line : A -> bytes) (cfg : Config)
    : CM (option A) :=
  match timerVertices (Query cfg) with
  | [] => _ ← print (skipped_line cfg); mret None
  | _ =>
      res ← measure_in parent pattern (measure cfg);
      _ ← print (line res);
      mret (Some res)
  end.

Definition runStateSweep (opts : sweepOptions) : CM StateReport :=
  configs ← sweep_configs opts;
  dir ← in_world getwd;
  results ← collect (sweep_one (so_stateDir opts) (str "tidemark-state-")
    (fun cfg root => measureStateOf cfg (so_checkpoints opts) root) state_line) configs;
  mret (MkStateReport (fingerprint dir) false results).

Definition runRecoverySweep (opts : sweepOptions) : CM RecoveryReport :=
  configs ← sweep_configs opts;
  let f := fingerprint (checkpointParent tempDir (so_stateDir opts)) in
  results ← collect (sweep_one (so_stateDir opts) (str "tidemark-recovery-")
    (fun cfg root => measureRecoveryOf cfg (so_checkpoints opts) root) (recovery_line (provisionalOn f))) configs;
  mret (MkRecoveryReport f (provisionalOn f) measuresRecovery results).

(** ** Tables *)

(** [%5d] and [%-6s] of ASCII. *)
Definition spaces_for (width : nat) (s : bytes) : bytes := replicate (width - length s) Byte.x20.
Definition pad_left (width : nat) (s : bytes) : bytes := spaces_for width s ++ s.
Definition pad_right (width : nat) (s : bytes) : bytes := s ++ spaces_for width s.
Definition row (cells : list bytes) : bytes := join (str " ") cells.
Definition row_of_config (cfg : Config) : list bytes :=
  [pad_right 6 (Query cfg); pad_left 5 (FormatInt (Parallelism cfg)); pad_left 10 (FormatInt (AuctionCardinality cfg))].

Definition printStateTable (r : StateReport) : list bytes :=
  match st_Results r with
  | [] => []
  | results =>
      [[]; str "state size (" ++ Fingerprint_String (st_Fingerprint r) ++ str ")";
       row [pad_right 6 (str "query"); pad_left 5 (str "p"); pad_left 10 (str "auctions"); pad_left 12 (str "peak entries");
            pad_left 14 (str "chk entries"); pad_left 12 (str "chk state"); pad_left 10 (str "B/entry"); pad_left 12 (str "peak proj.")]] ++
      ((fun res => row (row_of_config (sr_Config res) ++
         [pad_left 12 (FormatInt (PeakEntries res)); pad_left 14 (FormatInt (Entries res)); pad_left 12 (humanBytes (StateBytes res));
          pad_left 10 (FormatFixed false 1 (BytesPerEntry res)); pad_left 12 (default [] (humanBytes <$> ProjectedPeakBytes res))])) <$> results)
  end.

Definition provisional_line (r : RecoveryReport) : list bytes :=
  if rc_Provisional r then
    [str "PROVISIONAL: the device backing these checkpoints reports rotational=" ++ DiskRotational (rc_Fingerprint r) ++
     str ". A restore is dominated by reading the checkpoint back, so these timings do not belong in any results table."]
  else [].

Definition printRecoveryTable (r : RecoveryReport) : list bytes :=
  match rc_Results r with
  | [] => []
  | results =>
      [[]; str "recovery (" ++ Fingerprint_String (rc_Fingerprint r) ++ str ")"] ++ provisional_line r ++
      [str "measures: " ++ Measures r;
       row [pad_right 6 (str "query"); pad_left 5 (str "p"); pad_left 10 (str "auctions"); pad_left 12 (str "snapshot");
            pad_left 14 (str "entries"); pad_left 14 (str "resume (ms)")]] ++
      ((fun res => row (row_of_config (rr_Config res) ++
         [pad_left 12 (humanBytes (SnapshotBytes res)); pad_left 14 (FormatInt (SnapshotEntries res));
          pad_left 14 (FormatInt (ResumeMillis res))])) <$> results)
  end.

(** The path beside the throughput report; none if that has none. *)
Definition beside (path suffix : bytes) : bytes := match path with [] => [] | _ => suffixedJSONPath path suffix end.

Definition runState (opts : sweepOptions) : CM unit :=
  report ← runStateSweep opts;
  _ ← for_each print (printStateTable report);
  write_report (beside (so_jsonPath opts) (str "state")) (DocState report).

Definition runRecovery (opts : sweepOptions) : CM unit :=
  report ← runRecoverySweep opts;
  _ ← for_each print (printRecoveryTable report);
  write_report (beside (so_jsonPath opts) (str "recovery")) (DocRecovery report).

Definition run (opts : sweepOptions) : CM unit :=
  let mode := so_mode opts in
  if bool_decide (mode = modeThroughput) then runThroughput opts
  else if bool_decide (mode = modeState) then runState opts
  else if bool_decide (mode = modeRecovery) then runRecovery opts
  else if bool_decide (mode = modeAll) then
    _ ← runThroughput opts;
    _ ← runState opts;
    runRecovery opts
  else fail (CmdMode mode).
End Command.

Section Command.
Context {W E : Type}.
Abbreviation cmd := (cmd (W := W)).
Abbreviation CM := (M (command_error (E := E)) cmd).

(** * Programs that preserve a property of what is observed *)

Definition preserves {A} (P : list event -> Prop) (m : CM A) : Prop := maintains (fun c => P (events c)) m.

Lemma preserves_ret {A} P (a : A) : preserves P (mret a).
Proof. apply maintains_ret. Qed.

Lemma preserves_bind {A B} P (m : CM A) (f : A -> CM B) : preserves P m -> (forall a, preserves P (f a)) -> preserves P (m ≫= f).
Proof. apply maintains_bind. Qed.

Lemma preserves_lift {A} P (r : result (command_error (E := E)) A) : preserves P (lift r).
Proof. apply maintains_lift. Qed.

Lemma preserves_fail {A} P e : preserves P (fail e : CM A).
Proof. apply maintains_fail. Qed.

Lemma preserves_world {A} P (f : W -> result E A * W) : preserves P (in_world f).
Proof. intros c Hc. unfold in_world. by destruct (f (world c)). Qed.

Lemma preserves_emit P e : (forall l, P l -> P (l ++ [e])) -> preserves P (emit e : CM unit).
Proof. intros H c Hc. cbn. by apply H. Qed.

Lemma preserves_collect {A} P (f : Config -> CM (option A)) l : (forall cfg, preserves P (f cfg)) -> preserves P (collect f l).
Proof.
  intros Hf. induction l as [|cfg l IH]; [apply preserves_ret|]. cbn [collect].
  apply preserves_bind; [done|intros r]. apply preserves_bind; [done|intros rest]. apply preserves_ret.
Qed.

Lemma preserves_for_each {A} P (f : A -> CM unit) l : (forall a, preserves P (f a)) -> preserves P (for_each f l).
Proof. apply maintains_for_each. Qed.
End Command.

#[export] Hint Resolve preserves_ret preserves_lift preserves_fail preserves_world : preserves.

(** * Directories *)

(** The directories made and removed, in order. *)
Definition made (l : list event) : list bytes := l ≫= fun e => match e with Made r => [r] | _ => [] end.
Definition removed (l : list event) : list bytes := l ≫= fun e => match e with Removed r => [r] | _ => [] end.
Definition wrote (l : list event) : list (bytes * document) := l ≫= fun e => match e with Wrote p d => [(p, d)] | _ => [] end.

Definition balanced (l : list event) : Prop := made l = removed l.

Lemma made_snoc l e : made (l ++ [e]) = made l ++ match e with Made r => [r] | _ => [] end.
Proof. unfold made. rewrite bind_app. cbn. by rewrite app_nil_r. Qed.
Lemma removed_snoc l e : removed (l ++ [e]) = removed l ++ match e with Removed r => [r] | _ => [] end.
Proof. unfold removed. rewrite bind_app. cbn. by rewrite app_nil_r. Qed.
Lemma wrote_snoc l e : wrote (l ++ [e]) = wrote l ++ match e with Wrote p d => [(p, d)] | _ => [] end.
Proof. unfold wrote. rewrite bind_app. cbn. by rewrite app_nil_r. Qed.

Section Run.
Context {W E : Type}.
Context (getwd : W -> result E bytes * W) (fingerprint : bytes -> BenchFingerprint.Fingerprint).
Context (mkdirTemp : bytes -> bytes -> W -> result E bytes * W) (removeAll : bytes -> W -> result E unit * W).
Context (writeJSON : bytes -> document -> W -> result E unit * W).
Context (readBaseline : bytes -> W -> result E Report * W).
Context (measureOf : Config -> W -> result E Result * W).
Context (measureStateOf : Config -> Z -> bytes -> W -> result E StateResult * W).
Context (measureRecoveryOf : Config -> Z -> bytes -> W -> result E RecoveryResult * W).
Context (tempDir : bytes).

Abbreviation cmd := (cmd (W := W)).
Abbreviation CM := (M (command_error (E := E)) cmd).
Abbreviation run := (run getwd fingerprint mkdirTemp removeAll writeJSON readBaseline measureOf measureStateOf measureRecoveryOf tempDir).
Abbreviation runThroughput := (runThroughput getwd fingerprint writeJSON readBaseline measureOf).
Abbreviation runState := (runState getwd fingerprint mkdirTemp removeAll writeJSON measureStateOf).
Abbreviation runRecovery := (runRecovery fingerprint mkdirTemp removeAll writeJSON measureRecoveryOf tempDir).

(** Lines of output do not matter to [P]. *)
Definition blind (P : list event -> Prop) : Prop := forall l s, P l -> P (l ++ [Line s]).

Lemma preserves_print P s : blind P -> preserves P (print s : CM unit).
Proof. intros HP. apply preserves_emit. intros l Hl. by apply HP. Qed.

Lemma preserves_lines P l : blind P -> preserves P (for_each print l : CM unit).
Proof. intros HP. apply preserves_for_each. intros s. by apply preserves_print. Qed.

(** A directory made for a measurement is removed before the next step. *)
Lemma preserves_measure_in {A} P parent pattern (measure : bytes -> W -> result E A * W) :
  (forall l r, P l -> P ((l ++ [Made r]) ++ [Removed r])) -> preserves P (measure_in mkdirTemp removeAll parent pattern measure).
Proof.
  intros HP c Hc. unfold measure_in, in_world. destruct (mkdirTemp parent pattern (world c)) as [[root|e] w]; cbn; [|done].
  destruct (measure root w) as [res w1]. cbn. destruct (removeAll root w1) as [rm w2]. cbn.
  destruct res, rm; cbn; by apply HP.
Qed.

Lemma preserves_sweep_one {A} P parent pattern (measure : Config -> bytes -> W -> result E A * W) line cfg :
  blind P -> (forall l r, P l -> P ((l ++ [Made r]) ++ [Removed r])) ->
  preserves P (sweep_one mkdirTemp removeAll parent pattern measure line cfg).
Proof.
  intros Hb HP. unfold sweep_one. destruct (timerVertices (Query cfg)) as [|v vs].
  - apply preserves_bind; [by apply preserves_print|intros _; apply preserves_ret].
  - apply preserves_bind; [by apply preserves_measure_in|intros res].
    apply preserves_bind; [by apply preserves_print|intros _; apply preserves_ret].
Qed.

Lemma preserves_state_sweep P opts : blind P -> (forall l r, P l -> P ((l ++ [Made r]) ++ [Removed r])) ->
  preserves P (runStateSweep getwd fingerprint mkdirTemp removeAll measureStateOf opts).
Proof.
  intros Hb HP. unfold runStateSweep, sweep_configs.
  apply preserves_bind; [auto with preserves|intros configs]. apply preserves_bind; [auto with preserves|intros dir].
  apply preserves_bind; [|auto with preserves]. apply preserves_collect. intros cfg. by apply preserves_sweep_one.
Qed.

Lemma preserves_recovery_sweep P opts : blind P -> (forall l r, P l -> P ((l ++ [Made r]) ++ [Removed r])) ->
  preserves P (runRecoverySweep fingerprint mkdirTemp removeAll measureRecoveryOf tempDir opts).
Proof.
  intros Hb HP. unfold runRecoverySweep, sweep_configs.
  apply preserves_bind; [auto with preserves|intros configs].
  apply preserves_bind; [|auto with preserves]. apply preserves_collect. intros cfg. by apply preserves_sweep_one.
Qed.

Lemma preserves_write P path d : (forall l, P l -> P (l ++ [Wrote path d])) -> preserves P (write_report writeJSON path d).
Proof.
  intros HP. unfold write_report. destruct path; [auto with preserves|].
  apply preserves_bind; [auto with preserves|intros _]. by apply preserves_emit.
Qed.

(** The throughput mode up to its report, and after it. *)
Lemma preserves_compare P path r t : blind P -> preserves P (compareBaseline readBaseline path r t).
Proof.
  intros Hb. unfold compareBaseline. apply preserves_bind; [auto with preserves|intros want].
  destruct (compareReports want r t) as [lines err]. apply preserves_bind; [by apply preserves_lines|intros _].
  destruct err; auto with preserves.
Qed.

Lemma preserves_throughput P opts : blind P -> (forall l d, P l -> P (l ++ [Wrote (so_jsonPath opts) d])) ->
  preserves P (runThroughput opts).
Proof.
  intros Hb HP. unfold runThroughput, sweep_configs.
  apply preserves_bind; [auto with preserves|intros configs]. apply preserves_bind; [auto with preserves|intros dir].
  apply preserves_bind.
  { apply preserves_collect. intros cfg. apply preserves_bind; [auto with preserves|intros res].
    apply preserves_bind; [by apply preserves_print|auto with preserves]. }
  intros results. apply preserves_bind; [by apply preserves_lines|intros _].
  apply preserves_bind; [apply preserves_write; auto|intros _].
  destruct (so_baseline opts); [auto with preserves|by apply preserves_compare].
Qed.

(** Whatever fails, the directories a run makes for its checkpoints are removed,
    each once and in the order they were made. *)
Theorem bench_removes_directories opts c : balanced (events c) -> balanced (events (run opts c).2).
Proof.
  assert (blind balanced) as Hb by (intros l s Hl; unfold balanced; by rewrite made_snoc, removed_snoc, !app_nil_r).
  assert (forall l r, balanced l -> balanced ((l ++ [Made r]) ++ [Removed r])) as Hd.
  { intros l r Hl. unfold balanced. rewrite !made_snoc, !removed_snoc, !app_nil_r. by rewrite Hl. }
  assert (forall l path d, balanced l -> balanced (l ++ [Wrote path d])) as Hw.
  { intros l path d Hl. unfold balanced. by rewrite made_snoc, removed_snoc, !app_nil_r. }
  assert (preserves balanced (runThroughput opts)) as H1 by (apply preserves_throughput; auto).
  assert (preserves balanced (runState opts)) as H2.
  { apply preserves_bind; [by apply preserves_state_sweep|intros r].
    apply preserves_bind; [by apply preserves_lines|intros _; apply preserves_write; auto]. }
  assert (preserves balanced (runRecovery opts)) as H3.
  { apply preserves_bind; [by apply preserves_recovery_sweep|intros r].
    apply preserves_bind; [by apply preserves_lines|intros _; apply preserves_write; auto]. }
  revert c. change (preserves balanced (run opts)). unfold BenchCommand.run.
  repeat case_bool_decide; try done; [|auto with preserves].
  apply preserves_bind; [done|intros _]. by apply preserves_bind.
Qed.

(** * Reports *)

(** A program that, if it returns, has written one report to [path]. *)
Definition writes {A} (path : bytes) (D : document -> Prop) (m : CM A) : Prop := forall c a c', m c = (Ok a, c') ->
  exists d, D d /\ wrote (events c') = wrote (events c) ++ [(path, d)].

Definition quiet {A} (m : CM A) : Prop := forall ws, preserves (fun l => wrote l = ws) m.

Lemma writes_after {A B} path D (m : CM A) (f : A -> CM B) : quiet m -> (forall a, writes path D (f a)) -> writes path D (m ≫= f).
Proof.
  intros Hm Hf c b c'. unfold mbind, M_bind. pose proof (Hm _ c eq_refl) as Hq. destruct (m c) as [[a|e] c1]; [|done].
  intros (d & Hd & E1)%Hf. exists d. split; [done|]. cbn [snd] in Hq. by rewrite E1, Hq.
Qed.

Lemma writes_before {A B} path D (m : CM A) (f : A -> CM B) : writes path D m -> (forall a, quiet (f a)) -> writes path D (m ≫= f).
Proof.
  intros Hm Hf c b c'. unfold mbind, M_bind. destruct (m c) as [[a|e] c1] eqn:E1; [|done]. intros E2.
  destruct (Hm _ _ _ E1) as (d & Hd & Ew). exists d. split; [done|]. rewrite <- Ew.
  pose proof (Hf a _ c1 eq_refl) as Hq. rewrite E2 in Hq. exact Hq.
Qed.

Lemma writes_report path (D : document -> Prop) d : path <> [] -> D d -> writes path D (write_report writeJSON path d).
Proof.
  intros Hp Hd c a c'. unfold write_report. destruct path as [|b path]; [done|]. unfold mbind, M_bind, in_world.
  destruct (writeJSON _ d (world c)) as [[[]|e] w]; cbn; [|done]. intros H0. injection H0 as H0. subst c'. exists d. split; [done|]. exact (wrote_snoc _ (Wrote (b :: path) d)).
Qed.

Lemma blind_wrote ws : blind (fun l => wrote l = ws).
Proof. intros l s Hl. by rewrite wrote_snoc, app_nil_r. Qed.

Lemma directories_wrote ws l r : wrote l = ws -> wrote ((l ++ [Made r]) ++ [Removed r]) = ws.
Proof. intros Hl. by rewrite !wrote_snoc, !app_nil_r. Qed.

Lemma throughput_writes opts : so_jsonPath opts <> [] ->
  writes (so_jsonPath opts) (fun d => exists r, d = DocThroughput r) (runThroughput opts).
Proof.
  intros Hp. unfold runThroughput, sweep_configs. pose proof blind_wrote.
  apply writes_after; [intros ws; auto with preserves|intros configs]. apply writes_after; [intros ws; auto with preserves|intros dir].
  apply writes_after.
  { intros ws. apply preserves_collect. intros cfg. apply preserves_bind; [auto with preserves|intros res].
    apply preserves_bind; [by apply preserves_print|auto with preserves]. }
  intros results. apply writes_after; [intros ws; by apply preserves_lines|intros _].
  apply writes_before; [apply writes_report; eauto|intros _ ws].
  destruct (so_baseline opts); [auto with preserves|by apply preserves_compare].
Qed.

Lemma beside_nonempty path suffix : path <> [] -> beside path suffix = suffixedJSONPath path suffix /\ suffixedJSONPath path suffix <> [].
Proof.
  intros Hp. split; [by destruct path|]. intros E0. apply (f_equal length) in E0. rewrite suffixedJSONPath_length in E0. done.
Qed.

Lemma state_writes opts : so_jsonPath opts <> [] ->
  writes (stateJSONPath (so_jsonPath opts)) (fun d => exists r, d = DocState r) (runState opts).
Proof.
  intros Hp. destruct (beside_nonempty _ (str "state") Hp) as [Eb Hne]. unfold BenchCommand.runState.
  apply writes_after; [|intros r; apply writes_after; [intros ws; apply preserves_lines, blind_wrote|intros _; rewrite Eb; apply writes_report; eauto]].
  intros ws. apply preserves_state_sweep; [apply blind_wrote|apply directories_wrote].
Qed.

Lemma recovery_writes opts : so_jsonPath opts <> [] ->
  writes (suffixedJSONPath (so_jsonPath opts) (str "recovery")) (fun d => exists r, d = DocRecovery r) (runRecovery opts).
Proof.
  intros Hp. destruct (beside_nonempty _ (str "recovery") Hp) as [Eb Hne]. unfold BenchCommand.runRecovery.
  apply writes_after; [|intros r; apply writes_after; [intros ws; apply preserves_lines, blind_wrote|intros _; rewrite Eb; apply writes_report; eauto]].
  intros ws. apply preserves_recovery_sweep; [apply blind_wrote|apply directories_wrote].
Qed.

(** One invocation of every mode that succeeds writes its three reports to three
    different files. *)
Theorem bench_all_reports opts c c' : so_mode opts = modeAll -> so_jsonPath opts <> [] -> run opts c = (Ok tt, c') ->
  exists t s r paths, wrote (events c') = wrote (events c) ++ zip paths [DocThroughput t; DocState s; DocRecovery r] /\
    paths = [so_jsonPath opts; stateJSONPath (so_jsonPath opts); suffixedJSONPath (so_jsonPath opts) (str "recovery")] /\ NoDup paths.
Proof.
  intros Hm Hp. unfold BenchCommand.run. rewrite Hm, !bool_decide_false, bool_decide_true by done. unfold mbind, M_bind.
  destruct (runThroughput opts c) as [[[]|e] c1] eqn:E1; [|done]. destruct (runState opts c1) as [[[]|e] c2] eqn:E2; [|done].
  intros E3. destruct (throughput_writes opts Hp _ _ _ E1) as (? & [t ->] & W1).
  destruct (state_writes opts Hp _ _ _ E2) as (? & [s ->] & W2). destruct (recovery_writes opts Hp _ _ _ E3) as (? & [r ->] & W3).
  exists t, s, r. eexists. split_and!; [|done|].
  - rewrite W3, W2, W1, <- !app_assoc. done.
  - destruct (report_paths_differ (so_jsonPath opts)) as (H1 & H2 & H3).
    repeat constructor; rewrite ?not_elem_of_cons, ?list_elem_of_singleton; set_solver.
Qed.
End Run.
