(* ===== verification/Worker.v ===== *)
(** The worker command ([cmd/worker/main.go]): the identity job over generated
    records, run to its end and counted. The flag library, the clock and what the
    subtasks do while they run are arguments. *)
From S2P Require Import Prelude Core Strconv State Operators Transform Graph GraphSpec GraphLine Storage Coordinator Executor Subtask.
From S2P Require BenchWorkload.
From S2P Require Generator.

(** * The graph *)

(** The configuration of the job: it starts with the year 2024. *)
Definition workerConfig (records seed keys : Z) : Generator.GeneratorConfig :=
  Generator.MkGeneratorConfig seed records keys (BenchWorkload.new_year 2024 * 86400 * 1000) 1 500 16 1000.

Definition identity_map : Map := NewMap (fun rec => Ok (Some rec)).

Section Graph.
Context {Snk : Type}.
Abbreviation Vertex := (Vertex Generator.Generator Operator Snk).
Abbreviation Graph := (Graph Generator.Generator Operator Snk).

Definition identity_vertices (cfg : Generator.GeneratorConfig) (sink : Snk) : list Vertex :=
  [MkVertex (str "source") VertexSource 1 (Some (Generator.NewGenerator cfg)) None None 10000 (Generator.MaxLag cfg) 10000;
   MkVertex (str "identity") VertexOperator 1 None (Some (Map_Operator identity_map)) None 0 0 0;
   MkVertex (str "sink") VertexSink 1 None None (Some sink) 0 0 0].

Definition identityGraph (cfg : Generator.GeneratorConfig) (sink : Snk) : result graph_error Graph :=
  let build : M graph_error Graph unit :=
    _ ← for_each AddVertex (identity_vertices cfg sink);
    for_each (fun e => Connect e.1 e.2) [(str "source", str "identity"); (str "identity", str "sink")] in
  match build New with
  | (Ok _, g) => Ok g
  | (Err e, _) => Err e
  end.

(** The line of vertices, whatever the settings, is built, and is what the
    runtime can execute. *)
Lemma identityGraph_ok cfg sink : 0 <= Generator.MaxLag cfg ->
  exists g, identityGraph cfg sink = Ok g /\ built g /\ Validate g = Ok tt /\
    forall id v, byID g !! id = Some v <-> v ∈ identity_vertices cfg sink /\ ID v = id.
Proof.
  intros Hlag.
  destruct (build_line_ok (MkVertex (str "source") VertexSource 1 (Some (Generator.NewGenerator cfg)) None None 10000 (Generator.MaxLag cfg) 10000)
    [MkVertex (str "identity") VertexOperator 1 None (Some (Map_Operator identity_map)) None 0 0 0]
    (MkVertex (str "sink") VertexSink 1 None None (Some sink) 0 0 0)) as (g & E & Hb & Hby & Hval).
  - refine (bool_decide_eq_true_1 _ _). vm_compute. reflexivity.
  - by repeat constructor.
  - repeat constructor; cbn; try done; by eexists.
  - done.
  - by repeat constructor.
  - done.
  - exists g. unfold identityGraph.
    match goal with |- context [match ?b New with _ => _ end] => change (b New) with (build_line (identity_vertices cfg sink) New) end.
    change (identity_vertices cfg sink) with
      ([MkVertex (str "source") VertexSource 1 (Some (Generator.NewGenerator cfg)) None None 10000 (Generator.MaxLag cfg) 10000] ++
       [MkVertex (str "identity") VertexOperator 1 None (Some (Map_Operator identity_map)) None 0 0 0] ++
       [MkVertex (str "sink") VertexSink 1 None None (Some sink) 0 0 0]). cbn [app] in *. rewrite E.
    split; [done|]. split; [exact Hb|]. split; [|exact Hby]. apply Hval. repeat constructor; cbn; unfold maxParallelism; lia.
Qed.
End Graph.

(** * The run *)

Inductive worker_error (RE TE : Type) :=
| errUnknownJob (job : bytes)
| errIdentityGraph (e : graph_error)
| errRun (e : run_error RE TE)
| errHolds (written records : Z).
Arguments errUnknownJob {RE TE}.
Arguments errIdentityGraph {RE TE}.
Arguments errRun {RE TE}.
Arguments errHolds {RE TE}.

(** [elapsed] is the time of the run as it is printed. *)
Definition worker_line (job : bytes) (records written : Z) (elapsed : bytes) : bytes :=
  str "job=" ++ job ++ str " records=" ++ FormatInt records ++ str " written=" ++ FormatInt written ++
  str " elapsed=" ++ elapsed.

Section Run.
Context {RE TE : Type} (im : image) (execute : execution (W := Collect) (RE := RE) (TE := TE)) (elapsed : bytes).

(** The sinks share the collector, which begins empty. What is printed comes
    with the error. *)
Definition run (job : bytes) (records seed keys : Z) : result (worker_error RE TE) unit * list bytes :=
  if negb (bool_decide (job = str "identity")) then (Err (errUnknownJob job), [])
  else
    match identityGraph (workerConfig records seed keys) tt with
    | Err e => (Err (errIdentityGraph e), [])
    | Ok g =>
        match Run (fun g => Some (Generator.Count (Generator.cfg g))) g im execute NewCollect with
        | (Err e, _) => (Err (errRun e), [])
        | (Ok _, collect) =>
            let written := Z.of_nat (length (Records collect)) in
            (if negb (written =? records) then Err (errHolds written records) else Ok tt,
             [worker_line job records written elapsed])
        end
    end.

(** A run reports the first error of a subtask or of a final commit, never one of
    the graph, which is always one that can be executed; and it succeeds only if
    the collector holds as many records as were asked for. *)
Theorem worker_outcomes job records seed keys :
  match run job records seed keys with
  | (Err (errUnknownJob j), out) => j = job /\ job <> str "identity" /\ out = []
  | (Err (errIdentityGraph _), _) => False
  | (Err (errRun e), out) => job = str "identity" /\ out = [] /\ ((exists x, e = RunTask x) \/ exists x, e = RunFinal x)
  | (Err (errHolds written n), out) =>
      job = str "identity" /\ n = records /\ written <> records /\ out = [worker_line job records written elapsed]
  | (Ok _, out) => job = str "identity" /\ out = [worker_line job records records elapsed]
  end.
Proof.
  unfold run. case_bool_decide as Hj; [|done]. cbn [negb].
  destruct (identityGraph_ok (workerConfig records seed keys) tt) as (g & -> & Hb & Hv & _); [done|].
  assert (exists order, TopoOrder g = Ok order) as [order Ho].
  { unfold TopoOrder. rewrite Hv. cbn [mbind result_bind]. apply is_ok_spec, kahn_ok; [by apply built_consistent|].
    by apply (Validate_ok g (built_consistent g Hb)), is_ok_spec; exists tt. }
  unfold Run, RunWithOptions. rewrite Ho. unfold loadRestorePoint. cbn [RestoreFrom]. rewrite bool_decide_true by done.
  unfold run_tasks. cbn [CheckpointRoot]. rewrite bool_decide_true by done.
  destruct (execute _ _ _ _) as [[errs opened] world]. destruct (finish_run errs opened world) as [[[]|e] c]; cbn [wrap_err].
  - destruct (Z.eqb_spec (Z.of_nat (length (Records c))) records) as [E|E]; cbn [negb]; [by rewrite E|done].
  - destruct e; eauto.
Qed.
End Run.
