(* ===== verification/ChaosSchedule.v ===== *)
(** The fault schedules of the chaos suite ([test/chaos/schedule.go]): a function
    of a seed and a graph, whose every fault names a subtask the job has and a
    position that subtask can reach. [None] is a panic: an index out of range or
    a division by zero. *)
From S2P Require Import Prelude Sums Generator SourceTask SourceTaskSpec Gate Graph GraphSpec Writer Executor.

(** * Draws *)

(** splitmix64 again, as the package writes it out. *)
Definition mix (seed n : Z) : Z :=
  let z := u64 (seed + u64 (u64 (n + 1) * 0x9E3779B97F4A7C15)) in
  let z := u64 (Z.lxor z (Z.shiftr z 30) * 0xBF58476D1CE4E5B9) in
  let z := u64 (Z.lxor z (Z.shiftr z 27) * 0x94D049BB133111EB) in
  Z.lxor z (Z.shiftr z 31).

Record stream := MkStream { st_seed : Z; st_i : Z }.

Definition newStream (seed : Z) : stream := MkStream seed 0.

Definition next (s : stream) : Z * stream := (mix (st_seed s) (st_i s), MkStream (st_seed s) (u64 (st_i s + 1))).

(** Go's [%] at [uint64]. *)
Definition mod_u64 (a n : Z) : option Z := if u64 n =? 0 then None else Some (a mod u64 n).

Definition below (n : Z) (s : stream) : option (Z * stream) :=
  let '(v, s) := next s in
  v ← mod_u64 v n; Some (i64 v, s).

(** * Faults *)

Inductive TriggerKind := TriggerAfterElements | TriggerAfterBarrier | TriggerDuringAlignment.

#[export] Instance TriggerKind_eq_dec : EqDecision TriggerKind.
Proof. solve_decision. Defined.

Definition TriggerKind_String (k : TriggerKind) : bytes :=
  match k with
  | TriggerAfterElements => str "after-elements"
  | TriggerAfterBarrier => str "after-barrier"
  | TriggerDuringAlignment => str "during-alignment"
  end.

Record Fault := MkFault {
  VertexID : bytes;
  Subtask : Z;
  Trigger : TriggerKind;
  N : Z;
  Inputs : Z;
}.

#[export] Instance Fault_eq_dec : EqDecision Fault.
Proof. solve_decision. Defined.

Definition MaxFaultsPerSchedule : Z := 3.

(** * Sites *)

Record site := MkSite {
  s_vertexID : bytes;
  s_parallelism : Z;
  s_inputs : Z;
  s_maxElements : Z;
  s_maxCheckpoint : Z;
}.

Definition triggers (s : site) : list TriggerKind :=
  TriggerAfterElements ::
  (if 0 <? s_maxCheckpoint s
   then TriggerAfterBarrier :: (if 1 <? s_inputs s then [TriggerDuringAlignment] else [])
   else []).

Definition barriersPerSubtask (count parallelism intervalElements : Z) : Z :=
  if (intervalElements <=? 0) || (parallelism <=? 0) then 0
  else Z.quot (Z.quot count parallelism) intervalElements.

Section Sites.
Context {Src Op Snk : Type} (count : Src -> option Z).
Abbreviation Vertex := (Vertex Src Op Snk).
Abbreviation Graph := (Graph Src Op Snk).

(** [count] is what a made source says of its length, if it can. *)
Definition sourceCount (v : Vertex) : Z :=
  match NewSource v with Some src => default 0 (count src) | None => 0 end.

Definition at_key (m : gmap bytes Z) (id : bytes) : Z := default 0 (m !! id).

(** What [sitesOf] has added up: the inputs of a subtask of each vertex, the
    records that reach it, and the highest checkpoint. *)
Record tally := MkTally {
  t_inputs : gmap bytes Z;
  t_elements : gmap bytes Z;
  t_maxCheckpoint : Z;
}.

(** One edge. *)
Definition tally_edge (v : Vertex) (t : tally) (to : bytes) : tally :=
  MkTally (<[to := add64 (at_key (t_inputs t) to) (Parallelism v)]> (t_inputs t))
    (<[to := add64 (at_key (t_elements t) to) (at_key (t_elements t) (ID v))]> (t_elements t))
    (t_maxCheckpoint t).

Definition tally_vertex (g : Graph) (t : tally) (v : Vertex) : tally :=
  let t := if bool_decide (Kind v = VertexSource) then
      let n := sourceCount v in
      MkTally (t_inputs t) (<[ID v := n]> (t_elements t))
        (Z.max (t_maxCheckpoint t) (barriersPerSubtask n (Parallelism v) (BarrierIntervalElements v)))
    else t in
  foldl (tally_edge v) t (Downstream g (ID v)).

Definition tally_all (g : Graph) (order : list Vertex) : tally := foldl (tally_vertex g) (MkTally ∅ ∅ 0) order.

Definition site_of (t : tally) (v : Vertex) : site :=
  MkSite (ID v) (Parallelism v) (at_key (t_inputs t) (ID v)) (Z.quot (at_key (t_elements t) (ID v)) (Parallelism v)) (t_maxCheckpoint t).

(** A graph the runtime refuses panics. *)
Definition sitesOf (g : Graph) : option (list site) :=
  match TopoOrder g with
  | Err _ => None
  | Ok order => Some (site_of (tally_all g order) <$> order)
  end.
End Sites.

(** * Schedules *)

Definition containsFault (faults : list Fault) (f : Fault) : bool := existsb (fun g => bool_decide (g = f)) faults.

(** One fault, or none where the site drawn has nothing to offer; five values of
    the stream are spent either way. *)
Definition drawFault (st : stream) (sites : list site) : option (option Fault * stream) :=
  '(k, st) ← below (Z.of_nat (length sites)) st;
  s ← sites !! Z.to_nat k;
  let kinds := triggers s in
  '(k, st) ← below (Z.of_nat (length kinds)) st;
  kind ← kinds !! Z.to_nat k;
  '(subtask, st) ← below (s_parallelism s) st;
  let '(n, st) := next st in
  let '(ins, st) := next st in
  match kind with
  | TriggerAfterElements =>
      if s_maxElements s <=? 0 then Some (None, st)
      else n ← mod_u64 n (s_maxElements s); Some (Some (MkFault (s_vertexID s) subtask kind (i64 n) 0), st)
  | TriggerAfterBarrier =>
      n ← mod_u64 n (s_maxCheckpoint s); Some (Some (MkFault (s_vertexID s) subtask kind (add64 1 (i64 n)) 0), st)
  | TriggerDuringAlignment =>
      n ← mod_u64 n (s_maxCheckpoint s);
      i ← mod_u64 ins (sub64 (s_inputs s) 1);
      Some (Some (MkFault (s_vertexID s) subtask kind (add64 1 (i64 n)) (add64 1 (i64 i))), st)
  end.

Fixpoint drawFaults (n : nat) (st : stream) (sites : list site) (faults : list Fault) : option (list Fault) :=
  match n with
  | O => Some faults
  | S n =>
      '(f, st) ← drawFault st sites;
      drawFaults n st sites
        (match f with
         | None => faults
         | Some f => if containsFault faults f then faults else faults ++ [f]
         end)
  end.

Definition ScheduleFor {Src Op Snk} (count : Src -> option Z) (seed : Z) (g : Graph Src Op Snk) : option (list Fault) :=
  sites ← sitesOf count g;
  match sites with
  | [] => Some []
  | _ =>
      '(n, st) ← below (MaxFaultsPerSchedule + 1) (newStream (u64 seed));
      drawFaults (Z.to_nat n) st sites []
  end.

(** The two copies of the mixer agree. *)
Lemma mix_sources seed n : ChaosSchedule.mix seed n = Generator.mix seed n.
Proof. unfold ChaosSchedule.mix, Generator.mix, mul_u64, add_u64. reflexivity. Qed.

(** * Draws *)

(** The stream with [k] more values spent. *)
Definition spent (k : Z) (s : stream) : stream := MkStream (st_seed s) (u64 (st_i s + k)).

Lemma spent_spent j k s : spent j (spent k s) = spent (k + j) s.
Proof. unfold spent, u64. cbn. by rewrite Zplus_mod_idemp_l, Z.add_assoc. Qed.

Lemma next_spent s : (next s).2 = spent 1 s.
Proof. done. Qed.

Lemma next_range s : is_u64 (next s).1.
Proof. unfold next. cbn [fst]. rewrite mix_sources. apply Generator.mix_range. Qed.

Lemma mod_u64_ok a n : is_u64 a -> 0 < n <= max_int64 ->
  exists r, mod_u64 a n = Some r /\ 0 <= r < n /\ i64 r = r.
Proof.
  intros Ha Hn. unfold mod_u64. rewrite (u64_id n) by (unfold_ints; lia). destruct (Z.eqb_spec n 0); [lia|].
  exists (a mod n). pose proof (Z.mod_pos_bound a n ltac:(lia)). split; [done|]. split; [done|].
  apply i64_id. unfold_ints. lia.
Qed.

Lemma below_ok n s : 0 < n <= max_int64 -> exists v, below n s = Some (v, spent 1 s) /\ 0 <= v < n.
Proof.
  intros Hn. unfold below. pose proof (next_range s) as Hr. pose proof (next_spent s) as Hs. destruct (next s) as [v s1]. cbn in *. subst s1.
  destruct (mod_u64_ok v n Hr Hn) as (r & -> & Hb & Hi). exists r. cbn. by rewrite Hi.
Qed.

(** * What fits a site *)

Record site_ok (s : site) : Prop := {
  sk_parallelism : 1 <= s_parallelism s <= max_int64;
  sk_inputs : s_inputs s <= max_int64;
  sk_elements : s_maxElements s <= max_int64;
  sk_checkpoint : s_maxCheckpoint s <= max_int64;
}.

Record fits (s : site) (f : Fault) : Prop := {
  ft_vertex : VertexID f = s_vertexID s;
  ft_subtask : 0 <= Subtask f < s_parallelism s;
  ft_position : match Trigger f with
                | TriggerAfterElements => 0 <= N f < s_maxElements s /\ Inputs f = 0
                | TriggerAfterBarrier => 1 <= N f <= s_maxCheckpoint s /\ Inputs f = 0
                | TriggerDuringAlignment => 1 <= N f <= s_maxCheckpoint s /\ 1 <= Inputs f < s_inputs s
                end;
}.

Lemma in_triggers s k : k ∈ triggers s ->
  match k with
  | TriggerAfterElements => True
  | TriggerAfterBarrier => 0 < s_maxCheckpoint s
  | TriggerDuringAlignment => 0 < s_maxCheckpoint s /\ 1 < s_inputs s
  end.
Proof.
  unfold triggers. intros [->|Hk]%elem_of_cons; [done|].
  destruct (Z.ltb_spec 0 (s_maxCheckpoint s)); [|by apply elem_of_nil in Hk].
  apply elem_of_cons in Hk as [->|Hk]; [done|]. destruct (Z.ltb_spec 1 (s_inputs s)); [|by apply elem_of_nil in Hk].
  by apply list_elem_of_singleton in Hk as ->.
Qed.

Lemma triggers_some s : triggers s <> [].
Proof. done. Qed.

Lemma lookup_below {A} (l : list A) s : l <> [] -> Z.of_nat (length l) <= max_int64 ->
  exists k x, below (Z.of_nat (length l)) s = Some (k, spent 1 s) /\ l !! Z.to_nat k = Some x.
Proof.
  intros Hl Hb. destruct l as [|y l]; [done|]. destruct (below_ok (Z.of_nat (length (y :: l))) s) as (k & E & Hk); [cbn in *; lia|].
  destruct (lookup_lt_is_Some_2 (y :: l) (Z.to_nat k)) as [x Hx]; [lia|]. eauto.
Qed.

(** A draw does not panic, spends five values whatever it comes to, and what it
    comes to fits one of the sites. *)
Lemma drawFault_ok st sites :
  sites <> [] -> Z.of_nat (length sites) <= max_int64 -> Forall site_ok sites ->
  exists f, drawFault st sites = Some (f, spent 5 st) /\ forall x, f = Some x -> exists s, s ∈ sites /\ fits s x.
Proof.
  intros Hs Hb Hok. unfold drawFault. destruct (lookup_below sites st Hs Hb) as (k & s & -> & Hk). cbn [mbind option_bind].
  rewrite Hk. cbn [mbind option_bind]. apply list_elem_of_lookup_2 in Hk as Hin.
  destruct (proj1 (Forall_forall _ _) Hok s Hin) as [HP HI HE HC].
  assert (Z.of_nat (length (triggers s)) <= max_int64) as Hl by (unfold triggers; repeat case_match; cbn; unfold_ints; lia).
  destruct (lookup_below (triggers s) (spent 1 st) (triggers_some s) Hl) as (k2 & kind & -> & Hk2). cbn [mbind option_bind].
  rewrite Hk2. cbn [mbind option_bind]. apply list_elem_of_lookup_2, in_triggers in Hk2.
  destruct (below_ok (s_parallelism s) (spent 1 (spent 1 st))) as (subtask & -> & Hsub); [lia|]. cbn [mbind option_bind].
  set (st3 := spent 1 (spent 1 (spent 1 st))). pose proof (next_range st3) as Hn. pose proof (next_spent st3) as Es.
  destruct (next st3) as [n st4]. cbn in Hn, Es. subst st4.
  pose proof (next_range (spent 1 st3)) as Hi. pose proof (next_spent (spent 1 st3)) as Es. destruct (next (spent 1 st3)) as [ins st5].
  cbn in Hi, Es. subst st5. assert (spent 1 (spent 1 st3) = spent 5 st) as -> by (subst st3; by rewrite !spent_spent).
  destruct kind.
  - destruct (Z.leb_spec (s_maxElements s) 0); [by exists None|]. destruct (mod_u64_ok n (s_maxElements s) Hn) as (r & -> & Hr & Ei); [lia|].
    cbn. eexists. split; [done|]. intros x [= <-]. exists s. split; [done|]. split; cbn; [done|done|]. by rewrite Ei.
  - destruct (mod_u64_ok n (s_maxCheckpoint s) Hn) as (r & -> & Hr & Ei); [lia|]. cbn. eexists. split; [done|].
    intros x [= <-]. exists s. split; [done|]. split; cbn; [done|done|]. rewrite Ei, add64_id by (unfold_ints; lia). lia.
  - destruct (mod_u64_ok n (s_maxCheckpoint s) Hn) as (r & -> & Hr & Ei); [lia|]. cbn [mbind option_bind].
    rewrite (sub64_id (s_inputs s) 1) by (unfold_ints; lia).
    destruct (mod_u64_ok ins (s_inputs s - 1) Hi) as (r2 & -> & Hr2 & Ei2); [lia|]. cbn. eexists. split; [done|].
    intros x [= <-]. exists s. split; [done|]. split; cbn; [done|done|]. rewrite Ei, Ei2, !add64_id by (unfold_ints; lia). lia.
Qed.

Lemma containsFault_spec faults f : containsFault faults f = true <-> f ∈ faults.
Proof.
  unfold containsFault. rewrite existsb_exists. split.
  - intros (g & Hg & E%bool_decide_eq_true). subst g. by apply list_elem_of_In.
  - intros Hf. exists f. split; [by apply list_elem_of_In|by apply bool_decide_eq_true].
Qed.

Lemma drawFaults_ok n st sites faults :
  sites <> [] -> Z.of_nat (length sites) <= max_int64 -> Forall site_ok sites ->
  NoDup faults -> Forall (fun f => exists s, s ∈ sites /\ fits s f) faults ->
  exists l, drawFaults n st sites faults = Some l /\ NoDup l /\ Forall (fun f => exists s, s ∈ sites /\ fits s f) l /\
    (length l <= length faults + n)%nat.
Proof.
  intros Hs Hb Hok. revert st faults. induction n as [|n IH]; intros st faults Hnd Hf.
  { exists faults. split_and!; [done|done|done|lia]. }
  cbn [drawFaults]. destruct (drawFault_ok st sites Hs Hb Hok) as (f & -> & Hfits). cbn [mbind option_bind].
  set (faults' := match f with None => _ | Some f => _ end).
  assert (NoDup faults' /\ Forall (fun f => exists s, s ∈ sites /\ fits s f) faults' /\ (length faults' <= length faults + 1)%nat) as (H1 & H2 & H3).
  { subst faults'. destruct f as [f|]; [|split_and!; [done|done|lia]].
    destruct (containsFault faults f) eqn:Ec; [split_and!; [done|done|lia]|].
    split_and!; [|apply Forall_app; split; [done|]; constructor; [by apply Hfits|done]|rewrite length_app; cbn; lia].
    apply NoDup_app. split; [done|]. split; [|apply NoDup_singleton]. intros g Hg ->%list_elem_of_singleton.
    apply containsFault_spec in Hg. congruence. }
  destruct (IH (spent 5 st) faults' H1 H2) as (l & -> & ? & ? & ?). exists l. split_and!; [done|done|done|lia].
Qed.

(** * The sites of a graph *)

Section Sites.
Context {Src Op Snk : Type} (count : Src -> option Z).
Abbreviation Vertex := (Vertex Src Op Snk).
Abbreviation Graph := (Graph Src Op Snk).

Abbreviation n_of := (sourceCount (Op := Op) (Snk := Snk) count).

(** ** What the tallies hold *)

Record tally_ok (t : tally) : Prop := {
  to_inputs id : is_i64 (at_key (t_inputs t) id);
  to_elements id : is_i64 (at_key (t_elements t) id);
  to_checkpoint : 0 <= t_maxCheckpoint t <= max_int64;
}.

Lemma at_key_insert m (id j : bytes) x : at_key (<[id := x]> m) j = if decide (id = j) then x else at_key m j.
Proof. unfold at_key. by rewrite lookup_insert; case_decide. Qed.

Lemma barriers_range n P k : 0 <= n <= max_int64 -> 0 <= barriersPerSubtask n P k <= max_int64.
Proof.
  intros Hn. unfold barriersPerSubtask. destruct (Z.leb_spec k 0); [cbn; unfold_ints; lia|]. destruct (Z.leb_spec P 0); [cbn; unfold_ints; lia|].
  cbn. pose proof (Z.quot_le_upper_bound n P n ltac:(lia)). pose proof (Z.quot_pos n P ltac:(lia) ltac:(lia)).
  assert (Z.quot n P <= n) by (apply Z.quot_le_upper_bound; nia).
  pose proof (Z.quot_pos (Z.quot n P) k ltac:(lia) ltac:(lia)).
  assert (Z.quot (Z.quot n P) k <= Z.quot n P) by (apply Z.quot_le_upper_bound; nia). lia.
Qed.

Lemma tally_edges (v : Vertex) t tos : tally_ok t ->
  tally_ok (foldl (tally_edge v) t tos) /\ t_maxCheckpoint (foldl (tally_edge v) t tos) = t_maxCheckpoint t.
Proof.
  revert t. induction tos as [|to tos IH]; intros t Ht; [done|]. cbn [foldl].
  destruct (IH (tally_edge v t to)) as [H1 H2]; [|by split].
  destruct Ht as [Hi He Hc]. split; cbn; [intros id|intros id|done]; rewrite at_key_insert; case_decide; try done; apply i64_range.
Qed.

(** What a vertex adds to the inputs of each below it. *)
Lemma edges_inputs (v : Vertex) t tos id : NoDup tos ->
  at_key (t_inputs (foldl (tally_edge v) t tos)) id =
    if decide (id ∈ tos) then add64 (at_key (t_inputs t) id) (Parallelism v) else at_key (t_inputs t) id.
Proof.
  revert t. induction tos as [|to tos IH]; intros t Hnd; [by rewrite decide_False by apply not_elem_of_nil|].
  apply NoDup_cons in Hnd as [Hto Hnd]. cbn [foldl]. rewrite IH by done. cbn [tally_edge t_inputs]. rewrite at_key_insert.
  destruct (decide (to = id)) as [->|Hne]; [rewrite decide_False, decide_True by (done || by left); done|].
  destruct (decide (id ∈ tos)); [rewrite decide_True by (by right); done|].
  rewrite decide_False; [done|]. by intros [->|?]%elem_of_cons.
Qed.

(** It leaves the records of every other vertex alone. *)
Lemma edges_elements (v : Vertex) t tos id : id ∉ tos ->
  at_key (t_elements (foldl (tally_edge v) t tos)) id = at_key (t_elements t) id.
Proof.
  revert t. induction tos as [|to tos IH]; intros t Hid; [done|]. apply not_elem_of_cons in Hid as [H1 H2]. cbn [foldl].
  rewrite IH by done. cbn [tally_edge t_elements]. by rewrite at_key_insert, decide_False.
Qed.

Definition is_source (v : Vertex) : bool := bool_decide (Kind v = VertexSource).

Definition budget_of (v : Vertex) : Z := barriersPerSubtask (n_of v) (Parallelism v) (BarrierIntervalElements v).

(** The inputs a subtask of [id] has from each vertex. *)
Definition feeds (g : Graph) (id : bytes) (v : Vertex) : Z :=
  if decide (id ∈ Downstream g (ID v)) then Parallelism v else 0.

Section Tally.
Context (g : Graph) (Hg : consistent g).

Lemma tally_vertex_ok t v : 0 <= n_of v <= max_int64 -> tally_ok t ->
  tally_ok (tally_vertex count g t v) /\
  t_maxCheckpoint (tally_vertex count g t v) = (if is_source v then Z.max (t_maxCheckpoint t) (budget_of v) else t_maxCheckpoint t).
Proof.
  intros Hn Ht. unfold tally_vertex. fold (is_source v). destruct (is_source v); [|by apply tally_edges].
  set (t1 := MkTally _ _ _). destruct (tally_edges v t1 (Downstream g (ID v))) as [H1 H2]; [|by split].
  destruct Ht as [Hi He Hc]. subst t1. split; cbn; [done| |].
  - intros id. rewrite at_key_insert. case_decide; [unfold_ints; lia|done].
  - pose proof (barriers_range (n_of v) (Parallelism v) (BarrierIntervalElements v) Hn). lia.
Qed.

Lemma tally_vertex_inputs t v id :
  at_key (t_inputs (tally_vertex count g t v)) id =
    if decide (id ∈ Downstream g (ID v)) then add64 (at_key (t_inputs t) id) (Parallelism v) else at_key (t_inputs t) id.
Proof.
  unfold tally_vertex. rewrite edges_inputs by (by apply NoDup_Downstream). by case_bool_decide.
Qed.

Lemma tally_vertex_elements t v (s : Vertex) : is_source s = true -> (forall u, ~ edge g u (ID s)) -> (ID v = ID s -> v = s) ->
  at_key (t_elements (tally_vertex count g t v)) (ID s) =
    if decide (ID v = ID s) then n_of s else at_key (t_elements t) (ID s).
Proof.
  intros Hs Hin Hid. unfold tally_vertex. rewrite edges_elements.
  2:{ unfold Downstream. rewrite merge_sort_Permutation. apply Hin. }
  fold (is_source v). case_decide as Hv.
  - apply Hid in Hv as ->. rewrite Hs. cbn. by rewrite at_key_insert, decide_True.
  - destruct (is_source v); [|done]. cbn. by rewrite at_key_insert, decide_False.
Qed.

(** ** Over the whole order *)

Lemma tally_all_ok order : Forall (fun v => 0 <= n_of v <= max_int64) order ->
  tally_ok (tally_all count g order) /\
  (0 < t_maxCheckpoint (tally_all count g order) ->
     exists v, v ∈ order /\ is_source v = true /\ t_maxCheckpoint (tally_all count g order) = budget_of v).
Proof.
  unfold tally_all. induction order as [|v order IH] using rev_ind; intros Hn.
  { split; [|cbn; lia]. split; cbn; [intros id..|unfold_ints; lia]; unfold at_key; rewrite lookup_empty; cbn; unfold_ints; lia. }
  apply Forall_app in Hn as [Hn Hv]. apply Forall_cons in Hv as [Hv _]. destruct (IH Hn) as [Ht Hm]. rewrite foldl_snoc.
  destruct (tally_vertex_ok _ v Hv Ht) as [Ht' Hm']. split; [done|]. rewrite Hm'. intros Hpos.
  destruct (is_source v) eqn:Es.
  - destruct (Z.max_spec (t_maxCheckpoint (foldl (tally_vertex count g) (MkTally ∅ ∅ 0) order)) (budget_of v)) as [[_ E]|[_ E]].
    + exists v. split_and!; [set_solver|done|done].
    + rewrite E in Hpos |- *. destruct (Hm Hpos) as (u & Hu & ? & ?). exists u. split_and!; [set_solver|done|done].
  - destruct (Hm Hpos) as (u & Hu & ? & ?). exists u. split_and!; [set_solver|done|done].
Qed.

Lemma tally_all_elements order s : NoDup (ID <$> order) -> s ∈ order -> is_source s = true -> (forall u, ~ edge g u (ID s)) ->
  at_key (t_elements (tally_all count g order)) (ID s) = n_of s.
Proof.
  unfold tally_all. induction order as [|v order IH] using rev_ind; intros Hnd Hin Hs Hno; [by apply elem_of_nil in Hin|].
  rewrite fmap_app in Hnd. apply NoDup_app in Hnd as (Hnd & Hdis & _). rewrite foldl_snoc.
  assert (ID v = ID s -> v = s) as Hid.
  { intros E. apply elem_of_app in Hin as [Hin|Hin%list_elem_of_singleton]; [|done]. exfalso. apply (Hdis (ID s)); [by apply list_elem_of_fmap_2|].
    cbn. rewrite E. by left. }
  rewrite tally_vertex_elements by done. case_decide as Hv; [done|]. apply IH; [done| |done|done].
  apply elem_of_app in Hin as [Hin|Hin%list_elem_of_singleton]; [done|]. by subst v.
Qed.

Lemma tally_all_inputs order id : Forall (fun v : Vertex => 0 <= Parallelism v) order -> sum Parallelism order <= max_int64 ->
  at_key (t_inputs (tally_all count g order)) id = sum (feeds g id) order.
Proof.
  unfold tally_all. intros Hp Hb. assert (forall order, Forall (fun v : Vertex => 0 <= Parallelism v) order ->
    0 <= sum (feeds g id) order <= sum Parallelism order) as Hle.
  { clear. induction order as [|v order IH]; intros Hp; [cbn; lia|]. apply Forall_cons in Hp as [Hv Hp]. specialize (IH Hp).
    assert (0 <= feeds g id v <= Parallelism v) by (unfold feeds; case_decide; lia). cbn. lia. }
  induction order as [|v order IH] using rev_ind; [done|]. apply Forall_app in Hp as [Hp Hv]. apply Forall_cons in Hv as [Hv _].
  rewrite sum_app in *. cbn in *. specialize (Hle order Hp). rewrite foldl_snoc, tally_vertex_inputs, IH by (done || lia).
  assert (feeds g id v = if decide (id ∈ Downstream g (ID v)) then Parallelism v else 0) as -> by done.
  case_decide; [|lia]. rewrite add64_id; [lia|]. unfold_ints. lia.
Qed.
End Tally.

(** ** The inputs the executor wires *)

Lemma positions_length {A B} `{EqDecision B} (c : B) (l : list (A * B)) :
  Z.of_nat (length (positions c l)) = sum (fun e => if decide (e.2 = c) then 1 else 0) l.
Proof.
  induction l as [|e l IH] using rev_ind; [done|]. rewrite positions_snoc, length_app, sum_app, Nat2Z.inj_add, IH. cbn. by case_decide.
Qed.

Lemma sum_bind {A B} (f : B -> Z) (h : A -> list B) (l : list A) : sum f (l ≫= h) = sum (fun x => sum f (h x)) l.
Proof. induction l as [|x l IH]; [done|]. cbn. by rewrite sum_app, IH. Qed.

Lemma sum_const {A} (k : Z) (l : list A) : sum (fun _ => k) l = k * Z.of_nat (length l).
Proof. induction l as [|x l IH]; [cbn; lia|]. cbn [sum length]. rewrite IH. lia. Qed.

Lemma sum_one {A} `{EqDecision A} (x : A) (k : Z) (l : list A) : NoDup l ->
  sum (fun y => if decide (y = x) then k else 0) l = if decide (x ∈ l) then k else 0.
Proof.
  induction l as [|y l IH]; intros Hnd; [by rewrite decide_False by apply not_elem_of_nil|]. apply NoDup_cons in Hnd as [Hy Hnd].
  cbn. rewrite IH by done. destruct (decide (y = x)) as [->|Hne].
  - rewrite decide_False, decide_True by (done || by left). lia.
  - destruct (decide (x ∈ l)); [rewrite decide_True by (by right); lia|]. rewrite decide_False; [lia|].
    by intros [->|?]%elem_of_cons.
Qed.

Lemma inputs_wired (g : Graph) order c v :
  built g -> TopoOrder g = Ok order -> byID g !! vertexID c = Some v -> 0 <= index c < Parallelism v ->
  Forall (fun v : Vertex => 0 <= Parallelism v) order ->
  Z.of_nat (length (inputs_of (wire g order) c)) = sum (feeds g (vertexID c)) order.
Proof.
  intros Hg Ho Hv Hc Hp. rewrite (wd_inputs _ _ _ (wire_wired g order)), positions_length. unfold ends_list, group_list.
  rewrite !sum_bind. apply sum_ext. intros from Hfrom. rewrite sum_bind. unfold feeds.
  rewrite <- (sum_one (vertexID c)) by (apply NoDup_Downstream; by apply built_consistent).
  apply sum_ext. intros to _. rewrite sum_fmap.
  rewrite (sum_ext _ (fun _ => if decide (to = vertexID c) then 1 else 0)).
  { rewrite sum_const. unfold range_int. rewrite length_seqZ. rewrite Forall_forall in Hp. specialize (Hp from Hfrom). case_decide; lia. }
  intros i _. unfold ends_of. cbn [fst snd]. rewrite sum_fmap. cbn [snd]. case_decide as Hto.
  - subst to. rewrite (par_spec g order Hg Ho _ _ Hv). rewrite (sum_ext _ (fun j => if decide (j = index c) then 1 else 0)).
    + rewrite sum_one by apply NoDup_range. rewrite decide_True; [done|]. unfold range_int. rewrite elem_of_seqZ. lia.
    + intros j _. destruct c as [cv ci]. cbn. destruct (decide (j = ci)) as [->|Hne]; [by rewrite decide_True|].
      rewrite decide_False; [done|]. congruence.
  - apply sum_zero. intros j _. rewrite decide_False; [done|]. by intros <-.
Qed.
End Sites.

(** * Schedules *)

Section Schedules.
Context {Src Op Snk : Type} (count : Src -> option Z).
Abbreviation Vertex := (Vertex Src Op Snk).
Abbreviation Graph := (Graph Src Op Snk).

(** No source is longer than can be split, and the job has fewer subtasks than
    an [int] counts. *)
Record in_bounds (order : list Vertex) : Prop := {
  ib_counts v : v ∈ order -> 0 <= sourceCount count v /\ Parallelism v * sourceCount count v <= max_int64;
  ib_subtasks : sum Parallelism order <= max_int64;
}.

(** Checkpoint [id] is one that every subtask of some source injects. *)
Definition injected (order : list Vertex) (id : Z) : Prop :=
  exists u, u ∈ order /\ Kind u = VertexSource /\
    1 <= id <= maxBarriers (sourceCount count u) (Parallelism u) (BarrierIntervalElements u) true.

(** A fault at a position its subtask can reach. *)
Record can_land (g : Graph) (order : list Vertex) (f : Fault) (v : Vertex) : Prop := {
  cl_vertex : v ∈ order /\ ID v = VertexID f;
  cl_subtask : 0 <= Subtask f < Parallelism v;
  cl_position :
    match Trigger f with
    | TriggerAfterElements => Inputs f = 0 /\ 0 <= N f /\
        (Kind v = VertexSource -> let '(start, end_) := sourceRange (sourceCount count v) (Parallelism v) (Subtask f) in N f < end_ - start)
    | TriggerAfterBarrier => Inputs f = 0 /\ injected order (N f)
    | TriggerDuringAlignment => injected order (N f) /\
        1 <= Inputs f < Z.of_nat (length (inputs_of (wire g order) (NewSubtaskID (VertexID f) (Subtask f))))
    end;
}.

Lemma budget_maxBarriers (v : Vertex) : 0 < Parallelism v ->
  budget_of count v = maxBarriers (sourceCount count v) (Parallelism v) (BarrierIntervalElements v) true.
Proof.
  intros HP. unfold budget_of, barriersPerSubtask, maxBarriers. cbn [negb]. rewrite (proj2 (Z.leb_gt (Parallelism v) 0)) by lia. by rewrite orb_false_r.
Qed.

Lemma range_holds n P i : 0 <= n -> 0 <= i < P -> P * n <= max_int64 ->
  let '(start, end_) := sourceRange n P i in Z.quot n P <= end_ - start.
Proof.
  intros Hn Hi Hb. rewrite sourceRange_exact by lia. pose proof (range_bounds n P i ltac:(lia) ltac:(lia) Hi) as (_ & _ & Hl).
  rewrite Z.quot_div_nonneg by lia. lia.
Qed.

Lemma sum_length (order : list Vertex) : Forall (fun v => 1 <= Parallelism v) order -> Z.of_nat (length order) <= sum Parallelism order.
Proof.
  induction order as [|v order IH]; intros Hp; [cbn; lia|]. apply Forall_cons in Hp as [Hv Hp]. specialize (IH Hp). cbn. lia.
Qed.

Section Lands.
Context (g : Graph) (order : list Vertex) (Hg : built g) (Ho : TopoOrder g = Ok order) (Hb : in_bounds order).

Lemma order_valid v : v ∈ order -> vertex_valid g (ID v) v.
Proof.
  intros Hv. apply (ex_vertices g (TopoOrder_executable g order Hg Ho)). by apply (proj2 (order_ids g order Hg Ho)).
Qed.

Lemma order_parallel : Forall (fun v => 1 <= Parallelism v) order.
Proof. apply Forall_forall. intros v Hv. destruct (order_valid v Hv) as [HP _ _ _]. lia. Qed.

Lemma order_counts : Forall (fun v => 0 <= sourceCount count v <= max_int64) order.
Proof.
  apply Forall_forall. intros v Hv. destruct (ib_counts order Hb v Hv). pose proof order_parallel as Hp.
  rewrite Forall_forall in Hp. specialize (Hp v Hv). cbn in Hp. split; [done|nia].
Qed.

Lemma no_inbound v : v ∈ order -> Kind v = VertexSource -> forall u, ~ edge g u (ID v).
Proof.
  intros Hv Hs u He%(c_sym g (built_consistent g Hg)). destruct (order_valid v Hv) as [_ _ _ Hedges].
  unfold edges_fit in Hedges. rewrite Hs in Hedges. destruct Hedges as [E _]. rewrite E in He. by apply elem_of_nil in He.
Qed.

Lemma sites_ok : Forall site_ok (site_of (tally_all count g order) <$> order).
Proof.
  apply Forall_fmap, Forall_forall. intros v Hv. destruct (tally_all_ok count g (built_consistent g Hg) order order_counts) as [[Hi He Hc] _].
  destruct (order_valid v Hv) as [HP _ _ _]. specialize (Hi (ID v)). specialize (He (ID v)). unfold maxParallelism in HP.
  split; cbn; [unfold max_int64; lia|apply Hi| |apply Hc].
  destruct He as [H1 H2]. apply Z.quot_le_upper_bound; [lia|]. unfold_ints. nia.
Qed.

(** What fits a site can land. *)
Lemma fits_lands v f : v ∈ order -> fits (site_of (tally_all count g order) v) f -> can_land g order f v.
Proof.
  intros Hv [Hid Hsub Hpos]. destruct (tally_all_ok count g (built_consistent g Hg) order order_counts) as [Ht Hm].
  pose proof order_parallel as Hp. pose proof (proj1 (order_ids g order Hg Ho)) as Hnd. cbn in *.
  assert (forall id, 1 <= id <= t_maxCheckpoint (tally_all count g order) -> injected order id) as Hinj.
  { intros id Hid'. destruct Hm as (u & Hu & Hs%bool_decide_eq_true & Em); [lia|]. exists u. split; [done|]. split; [done|].
    rewrite <- budget_maxBarriers, <- Em; [done|]. rewrite Forall_forall in Hp. specialize (Hp u Hu). cbn in Hp. lia. }
  split; [done|done|]. destruct (Trigger f).
  - destruct Hpos as [Hn Hi]. split; [done|]. split; [lia|]. intros Hs.
    rewrite (tally_all_elements count g) in Hn; [|done|done|by apply bool_decide_eq_true|by apply no_inbound].
    destruct (ib_counts order Hb v Hv) as [Hc Hprod].
    pose proof (range_holds (sourceCount count v) (Parallelism v) (Subtask f) Hc Hsub Hprod) as Hr.
    destruct (sourceRange _ _ _). lia.
  - destruct Hpos as [Hn Hi]. split; [done|by apply Hinj].
  - destruct Hpos as [Hn Hi]. split; [by apply Hinj|].
    assert (Forall (fun v : Vertex => 0 <= Parallelism v) order) as Hp0 by (eapply Forall_impl; [exact Hp|]; cbn; lia).
    rewrite (inputs_wired g order _ v Hg Ho); [| |done|done]; cbn.
    + rewrite Hid. rewrite (tally_all_inputs count g (built_consistent g Hg)) in Hi; [done|done|by apply Hb].
    + rewrite Hid. by apply (proj2 (order_ids g order Hg Ho)).
Qed.
End Lands.

(** Every seed has a schedule on a graph the runtime accepts: at most three
    faults, no two the same, each at a position its subtask can reach. A fault
    after elements lies inside the range of the source subtask it is aimed at,
    the checkpoint of the others is one that every subtask of some source
    injects, and one during an alignment leaves an input that has not delivered
    among those the executor wires. *)
Theorem schedule_lands (g : Graph) (order : list Vertex) seed :
  built g -> TopoOrder g = Ok order -> in_bounds order ->
  exists faults, ScheduleFor count seed g = Some faults /\
    Z.of_nat (length faults) <= MaxFaultsPerSchedule /\ NoDup faults /\
    Forall (fun f => exists v, can_land g order f v) faults.
Proof.
  intros Hg Ho Hb. unfold ScheduleFor, sitesOf. rewrite Ho. cbn [mbind option_bind].
  pose proof (sites_ok g order Hg Ho Hb) as Hok. set (sites := site_of _ <$> order) in *.
  assert (sites <> [] -> exists faults, ('(n, st) ← below (MaxFaultsPerSchedule + 1) (newStream (u64 seed)); drawFaults (Z.to_nat n) st sites []) = Some faults /\
    Z.of_nat (length faults) <= MaxFaultsPerSchedule /\ NoDup faults /\ Forall (fun f => exists v, can_land g order f v) faults) as Hgo.
  { intros Hs. destruct (below_ok (MaxFaultsPerSchedule + 1) (newStream (u64 seed))) as (n & -> & Hn); [unfold MaxFaultsPerSchedule, max_int64; lia|].
    cbn [mbind option_bind].
    destruct (drawFaults_ok (Z.to_nat n) (spent 1 (newStream (u64 seed))) sites [] Hs) as (l & -> & Hnd & Hf & Hl);
      [subst sites; rewrite length_fmap; pose proof (sum_length order (order_parallel g order Hg Ho)); pose proof (ib_subtasks order Hb); lia
      |done|constructor|constructor|].
    exists l. split; [done|]. unfold MaxFaultsPerSchedule in *. split; [cbn in Hl; lia|]. split; [done|].
    eapply Forall_impl; [exact Hf|]. intros f (s & (v & -> & Hv)%list_elem_of_fmap & Hfit). exists v. by apply fits_lands. }
  destruct sites; [|by apply Hgo]. exists []. split; [done|]. split; [done|]. split; constructor.
Qed.
End Schedules.

(** * The suite's job ([jobGraph], [test/chaos/run.go])

    Two generators of different lengths, a window and a sink. *)
Definition jobParallelism : Z := 2.
Definition keyCardinality : Z := 64.
Definition watermarkInterval : Z := 100.
Definition sourceACount : Z := 4000.
Definition sourceBCount : Z := 16000.
Definition barrierIntervalA : Z := 250.
Definition barrierIntervalB : Z := 1000.

Definition sourceAConfig : GeneratorConfig :=
  {| Seed := 0x5A; Count := sourceACount; KeyCardinality := keyCardinality; BaseEventTime := 1700000000000; EventTimeStep := 10;
     MaxLag := 200; ValueSize := 8; AmountRange := 1000 |}.
Definition sourceBConfig : GeneratorConfig :=
  {| Seed := 0x5B; Count := sourceBCount; KeyCardinality := keyCardinality; BaseEventTime := 1700000000000 + 7000; EventTimeStep := 10;
     MaxLag := 200; ValueSize := 8; AmountRange := 1000 |}.

Section JobGraph.
Context {Op Snk : Type} (newOperator : Op) (newSink : Snk).

Definition sourceVertex (id : bytes) (cfg : GeneratorConfig) (barrierInterval : Z) : Vertex GeneratorConfig Op Snk :=
  MkVertex id VertexSource jobParallelism (Some cfg) None None watermarkInterval (MaxLag cfg) barrierInterval.

Definition job_vertices : list (Vertex GeneratorConfig Op Snk) :=
  [sourceVertex (str "srcA") sourceAConfig barrierIntervalA;
   sourceVertex (str "srcB") sourceBConfig barrierIntervalB;
   MkVertex (str "window") VertexOperator jobParallelism None (Some newOperator) None 0 0 0;
   MkVertex (str "out") VertexSink jobParallelism None None (Some newSink) 0 0 0].

Definition job_edges : list (bytes * bytes) :=
  [(str "srcA", str "window"); (str "srcB", str "window"); (str "window", str "out")].

Definition made : result graph_error unit * Graph GeneratorConfig Op Snk :=
  (_ ← for_each AddVertex job_vertices; for_each (fun e => Connect e.1 e.2) job_edges) New.

(** An error would panic. *)
Definition jobGraph : result graph_error (Graph GeneratorConfig Op Snk) :=
  match made with
  | (Ok _, g) => Ok g
  | (Err e, _) => Err e
  end.

Lemma made_built : built made.2.
Proof.
  unfold made, mbind, M_bind.
  pose proof (built_for_each AddVertex job_vertices New (fun x g r g' => built_add x g r g') built_new) as H1.
  destruct (for_each AddVertex job_vertices New) as [[[]|] g1]; [|done].
  exact (built_for_each (fun e => Connect e.1 e.2) job_edges g1 (fun e g r g' => built_connect e.1 e.2 g r g') H1).
Qed.

(** It is a graph every seed has a schedule on. *)
Lemma suite_schedules seed : exists g order faults,
  jobGraph = Ok g /\ TopoOrder g = Ok order /\ ScheduleFor (fun cfg => Some (Count cfg)) seed g = Some faults /\
  Z.of_nat (length faults) <= MaxFaultsPerSchedule /\ NoDup faults /\
  Forall (fun f => exists v, can_land (fun cfg => Some (Count cfg)) g order f v) faults.
Proof.
  assert (is_ok (made).1 = true) as Hok by (vm_compute; reflexivity).
  assert (TopoOrder made.2 = Ok job_vertices) as Ho by (vm_compute; reflexivity).
  assert (exists g, jobGraph = Ok g /\ built g /\ TopoOrder g = Ok job_vertices) as (g & Eg & Hg & Ho').
  { unfold jobGraph. pose proof made_built as Hb. clear seed. destruct made as [[u|] g']; cbn [fst snd] in *.
    - exists g'. split; [reflexivity|]. split; [exact Hb|exact Ho].
    - discriminate Hok. }
  destruct (schedule_lands (fun cfg => Some (Count cfg)) g job_vertices seed Hg Ho') as (faults & E & Hl & Hnd & Hf).
  - clear. split; [|refine (bool_decide_eq_true_1 _ _); vm_compute; reflexivity]. intros v Hv.
    repeat (apply elem_of_cons in Hv as [->|Hv]; [refine (bool_decide_eq_true_1 _ _); vm_compute; reflexivity|]). by apply elem_of_nil in Hv.
  - exists g, job_vertices, faults. by split_and!.
Qed.
End JobGraph.
