(* ===== verification/ChaosInjector.v ===== *)
(** The injector of the chaos suite and the census of what became of its faults
    ([test/chaos/run.go], [test/chaos/census.go]). A fault is one abort: whatever
    the runtime asks, in whatever order and over however many attempts, it is
    answered with each fault at most once, where it is aimed; and what the census
    counts adds up. The calls are those on the state the injector's mutex
    guards. *)
From S2P Require Import Prelude ChaosSchedule.

(** * The injector *)

Definition siteKey : Type := bytes * Z.
Definition alignKey : Type := siteKey * Z.

Record injector := MkInjector {
  faults : list Fault;
  byElement : gmap siteKey (list nat);
  byBarrier : gmap siteKey (list nat);
  byAlignment : gmap siteKey (list nat);
  fired : list bool;
  windows : gmap alignKey Z;
}.

Definition site_key (f : Fault) : siteKey := (VertexID f, Subtask f).

(** [m[key] = append(m[key], n)] *)
Definition add_index (key : siteKey) (n : nat) (m : gmap siteKey (list nat)) : gmap siteKey (list nat) :=
  <[key := default [] (m !! key) ++ [n]]> m.

Definition index_fault (i : injector) (nf : nat * Fault) : injector :=
  let '(n, f) := nf in
  match Trigger f with
  | TriggerAfterElements =>
      MkInjector (faults i) (add_index (site_key f) n (byElement i)) (byBarrier i) (byAlignment i) (fired i) (windows i)
  | TriggerAfterBarrier =>
      MkInjector (faults i) (byElement i) (add_index (site_key f) n (byBarrier i)) (byAlignment i) (fired i) (windows i)
  | TriggerDuringAlignment =>
      MkInjector (faults i) (byElement i) (byBarrier i) (add_index (site_key f) n (byAlignment i)) (fired i) (windows i)
  end.

Definition newInjector (fs : list Fault) : injector :=
  foldl index_fault (MkInjector fs ∅ ∅ ∅ (replicate (length fs) false) ∅) (imap pair fs).

(** The first candidate that has not fired and matches; a candidate out of range
    would panic, and [newInjector] makes none. *)
Fixpoint find_fault (candidates : list nat) (matches : Fault -> bool) (i : injector) : option nat :=
  match candidates with
  | [] => None
  | n :: candidates =>
      match fired i !! n, faults i !! n with
      | Some false, Some f => if matches f then Some n else find_fault candidates matches i
      | _, _ => find_fault candidates matches i
      end
  end.

Definition fire (candidates : list nat) (matches : Fault -> bool) (i : injector) : bool * injector :=
  match find_fault candidates matches i with
  | Some n => (true, MkInjector (faults i) (byElement i) (byBarrier i) (byAlignment i) (<[n := true]> (fired i)) (windows i))
  | None => (false, i)
  end.

Definition candidates_at (m : gmap siteKey (list nat)) (key : siteKey) : list nat := default [] (m !! key).

Definition BeforeElement (vertexID : bytes) (subtask n : Z) (i : injector) : bool * injector :=
  fire (candidates_at (byElement i) (vertexID, subtask)) (fun f => N f =? n) i.

Definition AfterBarrierForwarded (vertexID : bytes) (subtask checkpointID : Z) (i : injector) : bool * injector :=
  fire (candidates_at (byBarrier i) (vertexID, subtask)) (fun f => N f =? checkpointID) i.

Definition observeWindow (k : alignKey) (delivered : Z) (i : injector) : injector :=
  if default 0 (windows i !! k) <? delivered
  then MkInjector (faults i) (byElement i) (byBarrier i) (byAlignment i) (fired i) (<[k := delivered]> (windows i))
  else i.

Definition DuringAlignment (vertexID : bytes) (subtask checkpointID delivered : Z) (i : injector) : bool * injector :=
  let i := observeWindow ((vertexID, subtask), checkpointID) delivered i in
  fire (candidates_at (byAlignment i) (vertexID, subtask)) (fun f => (N f =? checkpointID) && (Inputs f =? delivered)) i.

(** ** What became of the faults *)

Inductive AlignmentOutcome := AlignmentNotApplicable | AlignmentInsideWindow | AlignmentCompletedFirst | AlignmentNeverOpened.

Definition AlignmentOutcome_String (o : AlignmentOutcome) : bytes :=
  match o with
  | AlignmentNotApplicable => str "n/a"
  | AlignmentInsideWindow => str "inside-window"
  | AlignmentCompletedFirst => str "alignment-completed-first"
  | AlignmentNeverOpened => str "alignment-never-opened"
  end.

Record FaultOutcome := MkOutcome { oc_Fault : Fault; oc_Fired : bool; oc_Alignment : AlignmentOutcome }.

Definition classifyAlignment (f : Fault) (has_fired : bool) (i : injector) : AlignmentOutcome :=
  if has_fired then AlignmentInsideWindow
  else match windows i !! ((site_key f), N f) with
       | Some _ => AlignmentCompletedFirst
       | None => AlignmentNeverOpened
       end.

Definition outcomes (i : injector) : list FaultOutcome :=
  imap (fun n f =>
    let has_fired := default false (fired i !! n) in
    MkOutcome f has_fired
      (if bool_decide (Trigger f = TriggerDuringAlignment) then classifyAlignment f has_fired i else AlignmentNotApplicable))
    (faults i).

(** * The census *)

Record Recovery := MkRecovery { FromCheckpoint : bool; rc_CheckpointID : Z; PendingWindows : Z }.

(** Of a [Result], what the census counts. *)
Record Result := MkResult { r_Faults : list Fault; r_Outcomes : list FaultOutcome; r_Recoveries : list Recovery }.

(** An array over the trigger kinds. *)
Definition per_kind : Type := Z * Z * Z.

Definition at_kind (k : TriggerKind) (a : per_kind) : Z :=
  match k with TriggerAfterElements => a.1.1 | TriggerAfterBarrier => a.1.2 | TriggerDuringAlignment => a.2 end.

Definition bump (k : TriggerKind) (a : per_kind) : per_kind :=
  match k with
  | TriggerAfterElements => (a.1.1 + 1, a.1.2, a.2)
  | TriggerAfterBarrier => (a.1.1, a.1.2 + 1, a.2)
  | TriggerDuringAlignment => (a.1.1, a.1.2, a.2 + 1)
  end.

(** [sum], over the trigger kinds. *)
Definition sum_kinds (a : per_kind) : Z := a.1.1 + a.1.2 + a.2.

Record Census := MkCensus {
  Schedules : Z;
  SchedulesWithFaults : Z;
  SchedulesThatAborted : Z;
  FaultsScheduled : per_kind;
  FaultsFired : per_kind;
  Resumes : Z;
  ResumesFromCheckpoint : Z;
  RestartsFromZero : Z;
  SchedulesWithPendingWindow : Z;
  PendingWindowsTotal : Z;
  PendingWindowsMax : Z;
  cs_InsideWindow : Z;
  cs_CompletedFirst : Z;
  cs_NeverOpened : Z;
}.

Definition empty_census : Census := MkCensus 0 0 0 (0, 0, 0) (0, 0, 0) 0 0 0 0 0 0 0 0 0.

(** One outcome, and whether any fault of the schedule has fired so far. *)
Definition add_outcome (ca : Census * bool) (o : FaultOutcome) : Census * bool :=
  let '(c, aborted) := ca in
  let k := Trigger (oc_Fault o) in
  let one (a : AlignmentOutcome) := match oc_Alignment o, a with
    | AlignmentInsideWindow, AlignmentInsideWindow | AlignmentCompletedFirst, AlignmentCompletedFirst
    | AlignmentNeverOpened, AlignmentNeverOpened => 1
    | _, _ => 0
    end in
  (MkCensus (Schedules c) (SchedulesWithFaults c) (SchedulesThatAborted c)
     (bump k (FaultsScheduled c)) (if oc_Fired o then bump k (FaultsFired c) else FaultsFired c)
     (Resumes c) (ResumesFromCheckpoint c) (RestartsFromZero c)
     (SchedulesWithPendingWindow c) (PendingWindowsTotal c) (PendingWindowsMax c)
     (cs_InsideWindow c + one AlignmentInsideWindow) (cs_CompletedFirst c + one AlignmentCompletedFirst)
     (cs_NeverOpened c + one AlignmentNeverOpened),
   aborted || oc_Fired o).

Definition add_recovery (cp : Census * Z) (r : Recovery) : Census * Z :=
  let '(c, pending) := cp in
  (MkCensus (Schedules c) (SchedulesWithFaults c) (SchedulesThatAborted c) (FaultsScheduled c) (FaultsFired c)
     (Resumes c + 1) (ResumesFromCheckpoint c + if FromCheckpoint r then 1 else 0) (RestartsFromZero c + if FromCheckpoint r then 0 else 1)
     (SchedulesWithPendingWindow c) (PendingWindowsTotal c + PendingWindows r) (Z.max (PendingWindowsMax c) (PendingWindows r))
     (cs_InsideWindow c) (cs_CompletedFirst c) (cs_NeverOpened c),
   pending + PendingWindows r).

Definition Census_Add (r : Result) (c : Census) : Census :=
  let c := MkCensus (Schedules c + 1) (SchedulesWithFaults c + if (0 <? length (r_Faults r))%nat then 1 else 0)
    (SchedulesThatAborted c) (FaultsScheduled c) (FaultsFired c) (Resumes c) (ResumesFromCheckpoint c) (RestartsFromZero c)
    (SchedulesWithPendingWindow c) (PendingWindowsTotal c) (PendingWindowsMax c) (cs_InsideWindow c) (cs_CompletedFirst c) (cs_NeverOpened c) in
  let '(c, aborted) := foldl add_outcome (c, false) (r_Outcomes r) in
  let c := MkCensus (Schedules c) (SchedulesWithFaults c) (SchedulesThatAborted c + if (aborted : bool) then 1 else 0)
    (FaultsScheduled c) (FaultsFired c) (Resumes c) (ResumesFromCheckpoint c) (RestartsFromZero c)
    (SchedulesWithPendingWindow c) (PendingWindowsTotal c) (PendingWindowsMax c) (cs_InsideWindow c) (cs_CompletedFirst c) (cs_NeverOpened c) in
  let '(c, pending) := foldl add_recovery (c, 0) (r_Recoveries r) in
  MkCensus (Schedules c) (SchedulesWithFaults c) (SchedulesThatAborted c) (FaultsScheduled c) (FaultsFired c)
    (Resumes c) (ResumesFromCheckpoint c) (RestartsFromZero c) (SchedulesWithPendingWindow c + if 0 <? pending then 1 else 0)
    (PendingWindowsTotal c) (PendingWindowsMax c) (cs_InsideWindow c) (cs_CompletedFirst c) (cs_NeverOpened c).

Definition faultsScheduled (c : Census) : Z := sum_kinds (FaultsScheduled c).
Definition faultsFired (c : Census) : Z := sum_kinds (FaultsFired c).
Definition alignmentScheduled (c : Census) : Z := at_kind TriggerDuringAlignment (FaultsScheduled c).

(** * The runtime asks *)

Inductive consult :=
| AskElement (vertexID : bytes) (subtask n : Z)
| AskBarrier (vertexID : bytes) (subtask checkpointID : Z)
| AskAlignment (vertexID : bytes) (subtask checkpointID delivered : Z).

Definition ask (c : consult) : injector -> bool * injector :=
  match c with
  | AskElement v s n => BeforeElement v s n
  | AskBarrier v s id => AfterBarrierForwarded v s id
  | AskAlignment v s id d => DuringAlignment v s id d
  end.

(** The answers to a sequence of calls, and the injector they leave. *)
Fixpoint ask_all (cs : list consult) (i : injector) : list bool * injector :=
  match cs with
  | [] => ([], i)
  | c :: cs => let '(b, i) := ask c i in let '(bs, i) := ask_all cs i in (b :: bs, i)
  end.

(** The fault is aimed at the position the call is made at. *)
Definition aimed (c : consult) (f : Fault) : Prop :=
  match c with
  | AskElement v s n => Trigger f = TriggerAfterElements /\ site_key f = (v, s) /\ N f = n
  | AskBarrier v s id => Trigger f = TriggerAfterBarrier /\ site_key f = (v, s) /\ N f = id
  | AskAlignment v s id d => Trigger f = TriggerDuringAlignment /\ site_key f = (v, s) /\ N f = id /\ Inputs f = d
  end.

Definition indexes (fs : list Fault) (k : TriggerKind) (m : gmap siteKey (list nat)) : Prop :=
  forall key n, n ∈ candidates_at m key <-> exists f, fs !! n = Some f /\ Trigger f = k /\ site_key f = key.

Record indexed (i : injector) : Prop := {
  ix_element : indexes (faults i) TriggerAfterElements (byElement i);
  ix_barrier : indexes (faults i) TriggerAfterBarrier (byBarrier i);
  ix_alignment : indexes (faults i) TriggerDuringAlignment (byAlignment i);
  ix_length : length (fired i) = length (faults i);
}.

(** ** What newInjector builds *)

Lemma in_add_index key n m key' n' :
  n' ∈ candidates_at (add_index key n m) key' <-> n' ∈ candidates_at m key' \/ (key' = key /\ n' = n).
Proof.
  unfold candidates_at, add_index. rewrite lookup_insert. case_decide as Hk.
  - subst key'. cbn. rewrite elem_of_app, list_elem_of_singleton. tauto.
  - split; [tauto|]. intros [?|[-> _]]; [done|by destruct Hk].
Qed.

(** Indexing the faults so far. *)
Definition indexes_of (k : TriggerKind) (done : list (nat * Fault)) (m : gmap siteKey (list nat)) : Prop :=
  forall key n, n ∈ candidates_at m key <-> exists f, (n, f) ∈ done /\ Trigger f = k /\ site_key f = key.

Lemma indexes_of_snoc k done m n f :
  indexes_of k done m -> indexes_of k (done ++ [(n, f)]) (if decide (Trigger f = k) then add_index (site_key f) n m else m).
Proof.
  intros Hm key n'. case_decide as Hk.
  - rewrite in_add_index, (Hm key n'). split.
    + intros [(g & Hg & ? & ?)|[-> ->]]; [exists g|exists f]; set_solver.
    + intros (g & [Hg|[= -> ->]%list_elem_of_singleton]%elem_of_app & ? & ?); [left; eauto|by right].
  - rewrite (Hm key n'). split.
    + intros (g & Hg & ? & ?). exists g. set_solver.
    + intros (g & [Hg|[= -> ->]%list_elem_of_singleton]%elem_of_app & ? & ?); [eauto|done].
Qed.

Lemma index_all fs done :
  let i := foldl index_fault (MkInjector fs ∅ ∅ ∅ (replicate (length fs) false) ∅) done in
  indexes_of TriggerAfterElements done (byElement i) /\ indexes_of TriggerAfterBarrier done (byBarrier i) /\
  indexes_of TriggerDuringAlignment done (byAlignment i) /\ faults i = fs /\ fired i = replicate (length fs) false /\ windows i = ∅.
Proof.
  induction done as [|[n f] done IH] using rev_ind.
  { assert (forall k, indexes_of k [] ∅) as H0.
    { intros k key n. unfold candidates_at. rewrite lookup_empty. cbn. split; [by intros ?%elem_of_nil|by intros (? & ?%elem_of_nil & _)]. }
    by split_and!. }
  cbn zeta in *. rewrite foldl_snoc. set (i := foldl _ _ done) in *. destruct IH as (H1 & H2 & H3 & H4 & H5 & H6).
  pose proof (indexes_of_snoc _ _ _ n f H1) as G1. pose proof (indexes_of_snoc _ _ _ n f H2) as G2. pose proof (indexes_of_snoc _ _ _ n f H3) as G3.
  cbn [index_fault]. destruct (Trigger f) eqn:Et;
    repeat case_decide; first [done|by split_and!].
Qed.

Lemma newInjector_indexed fs : indexed (newInjector fs) /\ faults (newInjector fs) = fs /\
  fired (newInjector fs) = replicate (length fs) false /\ windows (newInjector fs) = ∅.
Proof.
  destruct (index_all fs (imap pair fs)) as (H1 & H2 & H3 & H4 & H5 & H6). fold (newInjector fs) in *.
  assert (forall k m, indexes_of k (imap pair fs) m -> indexes fs k m) as Hall.
  { intros k m Hm key n. rewrite (Hm key n). split.
    - intros (f & Hf & ? & ?). exists f. split; [|done]. apply list_elem_of_lookup in Hf as [j Hj]. rewrite list_lookup_imap in Hj.
      destruct (fs !! j) eqn:Ej; [|done]. by injection Hj as <- <-.
    - intros (f & Hf & ? & ?). exists f. split; [|done]. apply list_elem_of_lookup. exists n. by rewrite list_lookup_imap, Hf. }
  split_and!; [|done|done|done]. split; rewrite ?H4; [by apply Hall..|]. by rewrite H5, length_replicate.
Qed.

(** ** One call *)

Lemma find_fault_some candidates matches i n : find_fault candidates matches i = Some n ->
  n ∈ candidates /\ fired i !! n = Some false /\ exists f, faults i !! n = Some f /\ matches f = true.
Proof.
  induction candidates as [|m candidates IH]; [done|]. cbn [find_fault]. intros E.
  destruct (fired i !! m) as [[|]|] eqn:Ef; [apply IH in E; set_solver| |apply IH in E; set_solver].
  destruct (faults i !! m) as [f|] eqn:Em; [|apply IH in E; set_solver].
  destruct (matches f) eqn:Emf; [|apply IH in E; set_solver]. injection E as <-. split; [by left|]. eauto.
Qed.

Lemma find_fault_none candidates matches i : find_fault candidates matches i = None ->
  forall n f, n ∈ candidates -> faults i !! n = Some f -> matches f = true -> fired i !! n <> Some false.
Proof.
  induction candidates as [|m candidates IH]; [by intros _ ?? ?%elem_of_nil|]. cbn [find_fault]. intros E n f Hn Hf Hm Hfi.
  apply elem_of_cons in Hn as [->|Hn].
  - rewrite Hfi, Hf, Hm in E. done.
  - revert Hfi. eapply IH; [|done|done|done]. repeat case_match; done.
Qed.

(** What a call does: it answers with a fault aimed at it that has not fired, if
    there is one. *)
Lemma ask_spec c i b i' : indexed i -> ask c i = (b, i') ->
  indexed i' /\ faults i' = faults i /\
  if b then exists n f, faults i !! n = Some f /\ fired i !! n = Some false /\ aimed c f /\ fired i' = <[n := true]> (fired i)
  else fired i' = fired i /\ forall n f, faults i !! n = Some f -> aimed c f -> fired i !! n = Some true.
Proof.
  assert (forall k m matches i (P : Fault -> Prop) key, indexed i -> indexes (faults i) k m ->
    (forall f, P f <-> Trigger f = k /\ site_key f = key /\ matches f = true) ->
    forall b i', fire (candidates_at m key) matches i = (b, i') ->
    indexed i' /\ faults i' = faults i /\
    if b then exists n f, faults i !! n = Some f /\ fired i !! n = Some false /\ P f /\ fired i' = <[n := true]> (fired i)
    else fired i' = fired i /\ forall n f, faults i !! n = Some f -> P f -> fired i !! n = Some true) as Hfire.
  { clear. intros k m matches i P key Hi Hm HP b i' E. unfold fire in E. destruct (find_fault _ _ _) as [n|] eqn:Ef; injection E as <- <-.
    - apply find_fault_some in Ef as (Hn & Hfi & f & Hf & Hmf). apply Hm in Hn as (f' & Hf' & ? & ?). rewrite Hf in Hf'. injection Hf' as <-.
      split; [destruct Hi; split; cbn; [done|done|done|by rewrite length_insert]|]. split; [done|]. exists n, f. split_and!; [done|done|by apply HP|done].
    - split; [done|]. split; [done|]. split; [done|]. intros n f Hf Hpf. apply HP in Hpf as (Hk & Hkey & Hmf).
      assert (n ∈ candidates_at m key) as Hn by (apply Hm; eauto).
      pose proof (find_fault_none _ _ _ Ef n f Hn Hf Hmf) as Hfi.
      destruct (lookup_lt_is_Some_2 (fired i) n) as [x Hx]; [rewrite (ix_length i Hi); by eapply lookup_lt_Some|].
      rewrite Hx in *. by destruct x. }
  intros Hi E. destruct c as [v s n|v s id|v s id d]; cbn [ask] in E.
  - eapply Hfire; [exact Hi|exact (ix_element i Hi)| |exact E]. intros f. cbn. rewrite Z.eqb_eq. tauto.
  - eapply Hfire; [exact Hi|exact (ix_barrier i Hi)| |exact E]. intros f. cbn. rewrite Z.eqb_eq. tauto.
  - unfold DuringAlignment in E. set (i0 := observeWindow _ _ _) in *.
    assert (indexed i0 /\ faults i0 = faults i /\ fired i0 = fired i) as (Hi0 & Ef & Efi).
    { subst i0. unfold observeWindow. destruct (_ <? _); [|done]. by destruct Hi. }
    rewrite <- Ef, <- Efi. eapply Hfire; [exact Hi0|exact (ix_alignment i0 Hi0)| |exact E].
    intros f. cbn. rewrite andb_true_iff, !Z.eqb_eq. tauto.
Qed.

(** ** Any sequence of calls *)

(** The calls answered with an abort. *)
Definition aborting (cs : list consult) (answers : list bool) : list consult :=
  omap (fun cb : consult * bool => if cb.2 then Some cb.1 else None) (zip cs answers).

Lemma ask_all_spec cs i answers i' : indexed i -> ask_all cs i = (answers, i') ->
  indexed i' /\ faults i' = faults i /\ exists log,
    Forall2 (fun c n => exists f, faults i !! n = Some f /\ aimed c f) (aborting cs answers) log /\
    NoDup log /\ (forall n, n ∈ log -> fired i !! n = Some false) /\
    (forall n, fired i' !! n = Some true <-> fired i !! n = Some true \/ n ∈ log).
Proof.
  revert i answers. induction cs as [|c cs IH]; intros i answers Hi E.
  { injection E as <- <-. split; [done|]. split; [done|]. exists []. split_and!; [constructor|constructor|by intros ? ?%elem_of_nil|set_solver]. }
  cbn [ask_all] in E. destruct (ask c i) as [b i1] eqn:Ec. destruct (ask_all cs i1) as [bs i2] eqn:Es. injection E as <- <-.
  destruct (ask_spec c i b i1 Hi Ec) as (Hi1 & Ef1 & Hb). destruct (IH i1 bs Hi1 Es) as (Hi2 & Ef2 & log & HF & Hnd & Hno & Hfi).
  split; [done|]. split; [by rewrite Ef2|]. destruct b; cbn.
  - destruct Hb as (n & f & Hf & Hn & Ha & E1). assert (n < length (fired i))%nat as Hlt by by eapply lookup_lt_Some.
    assert (n ∉ log) as Hnl. { intros Hin. apply Hno in Hin. rewrite E1, list_lookup_insert_eq in Hin by done. done. }
    exists (n :: log). split; [constructor; [eauto|by rewrite <- Ef1]|]. split; [by constructor|]. split.
    + intros m [->|Hm]%elem_of_cons; [done|]. apply Hno in Hm. rewrite E1 in Hm. destruct (decide (m = n)) as [->|?]; [done|].
      by rewrite list_lookup_insert_ne in Hm.
    + intros m. rewrite Hfi, E1. destruct (decide (m = n)) as [->|Hne].
      * rewrite list_lookup_insert_eq by done. set_solver.
      * rewrite list_lookup_insert_ne by done. set_solver.
  - destruct Hb as [E1 _]. exists log. rewrite <- Ef1. rewrite E1 in Hno, Hfi. by split_and!.
Qed.

(** Each abort is one fault's, aimed where the call is made, and no two are the
    same fault's: so a job under a schedule is aborted no more often than the
    schedule has faults, over all its attempts. The faults marked as fired are
    those. *)
Theorem faults_fire_once fs cs answers i :
  ask_all cs (newInjector fs) = (answers, i) ->
  exists log, NoDup log /\
    Forall2 (fun c n => exists f, fs !! n = Some f /\ aimed c f) (aborting cs answers) log /\
    (forall n, fired i !! n = Some true <-> n ∈ log) /\
    (length (aborting cs answers) <= length fs)%nat.
Proof.
  intros E. destruct (newInjector_indexed fs) as (Hi & Ef & Efi & _).
  destruct (ask_all_spec cs _ answers i Hi E) as (_ & _ & log & HF & Hnd & Hno & Hfi). rewrite Ef in HF.
  exists log. split; [done|]. split; [done|]. split.
  - intros n. rewrite Hfi, Efi. split; [|by right]. intros [[? _]%lookup_replicate|?]; done.
  - rewrite (Forall2_length _ _ _ HF). rewrite <- (length_seq (length fs) 0). apply submseteq_length, NoDup_submseteq; [done|].
    intros n Hn. apply Hno in Hn. rewrite Efi in Hn. apply lookup_replicate in Hn as [_ Hlt]. rewrite elem_of_seq. lia.
Qed.

(** What is left to fire fires as soon as it is asked for. *)
Theorem fault_fires fs cs answers i c n f :
  ask_all cs (newInjector fs) = (answers, i) -> fs !! n = Some f -> aimed c f -> fired i !! n <> Some true -> (ask c i).1 = true.
Proof.
  intros E Hf Ha Hn. destruct (newInjector_indexed fs) as (Hi & Ef & _ & _).
  destruct (ask_all_spec cs _ answers i Hi E) as (Hi' & Ef' & _). destruct (ask c i) as [b i'] eqn:Ec.
  destruct (ask_spec c i b i' Hi' Ec) as (_ & _ & Hb). destruct b; [done|]. destruct Hb as [_ Hb]. exfalso. apply Hn.
  eapply Hb; [|exact Ha]. by rewrite Ef', Ef.
Qed.

(** * The census adds up *)

(** An outcome the injector reports. *)
Definition outcome_ok (o : FaultOutcome) : Prop :=
  if decide (Trigger (oc_Fault o) = TriggerDuringAlignment)
  then oc_Alignment o <> AlignmentNotApplicable /\ (oc_Alignment o = AlignmentInsideWindow <-> oc_Fired o = true)
  else oc_Alignment o = AlignmentNotApplicable.

Lemma outcomes_ok i : Forall outcome_ok (outcomes i) /\ oc_Fault <$> outcomes i = faults i.
Proof.
  unfold outcomes. split.
  - apply Forall_forall. intros o Ho. apply list_elem_of_lookup in Ho as [n Hn]. rewrite list_lookup_imap in Hn.
    destruct (faults i !! n) as [f|]; [|done]. injection Hn as <-. unfold outcome_ok. cbn. case_bool_decide; case_decide; try done.
    unfold classifyAlignment. destruct (default false _); [done|]. by destruct (windows i !! _).
  - apply list_eq. intros n. rewrite list_lookup_fmap, list_lookup_imap. by destruct (faults i !! n).
Qed.

Record census_ok (c : Census) : Prop := {
  cn_faults : 0 <= SchedulesThatAborted c <= SchedulesWithFaults c /\ SchedulesWithFaults c <= Schedules c;
  cn_fired k : 0 <= at_kind k (FaultsFired c) <= at_kind k (FaultsScheduled c);
  cn_alignment : cs_InsideWindow c + cs_CompletedFirst c + cs_NeverOpened c = alignmentScheduled c;
  cn_inside : cs_InsideWindow c = at_kind TriggerDuringAlignment (FaultsFired c);
  cn_resumes : ResumesFromCheckpoint c + RestartsFromZero c = Resumes c;
  cn_pending : 0 <= PendingWindowsMax c <= PendingWindowsTotal c;
  cn_schedules : 0 <= SchedulesWithPendingWindow c <= Schedules c;
}.

(** What the outcomes of one schedule change. *)
Record counting (c : Census) : Prop := {
  cg_fired k : 0 <= at_kind k (FaultsFired c) <= at_kind k (FaultsScheduled c);
  cg_alignment : cs_InsideWindow c + cs_CompletedFirst c + cs_NeverOpened c = alignmentScheduled c;
  cg_inside : cs_InsideWindow c = at_kind TriggerDuringAlignment (FaultsFired c);
}.

(** The counts that outcomes leave alone, and those that recoveries leave alone. *)
Definition not_outcomes (c : Census) :=
  (Schedules c, SchedulesWithFaults c, SchedulesThatAborted c, Resumes c, ResumesFromCheckpoint c, RestartsFromZero c,
   SchedulesWithPendingWindow c, PendingWindowsTotal c, PendingWindowsMax c).

Definition not_recoveries (c : Census) :=
  (Schedules c, SchedulesWithFaults c, SchedulesThatAborted c, FaultsScheduled c, FaultsFired c, SchedulesWithPendingWindow c,
   cs_InsideWindow c, cs_CompletedFirst c, cs_NeverOpened c).

Lemma at_bump k j a : at_kind k (bump j a) = at_kind k a + if decide (k = j) then 1 else 0.
Proof. destruct k, j; case_decide; first [done|cbn; lia]. Qed.

Lemma add_outcomes os c b : Forall outcome_ok os -> counting c ->
  counting (foldl add_outcome (c, b) os).1 /\ not_outcomes (foldl add_outcome (c, b) os).1 = not_outcomes c /\
  (foldl add_outcome (c, b) os).2 = b || existsb oc_Fired os.
Proof.
  revert c b. induction os as [|o os IH]; intros c b Ho Hc; [by rewrite orb_false_r|]. apply Forall_cons in Ho as [Ho Hos].
  cbn [foldl existsb]. destruct (add_outcome (c, b) o) as [c1 b1] eqn:E. cbn [add_outcome] in E. injection E as E1 E2.
  assert (counting c1) as Hc1.
  { destruct Hc as [Hf Ha Hin]. unfold outcome_ok in Ho. subst c1.
    split; unfold alignmentScheduled in *; cbn [FaultsScheduled FaultsFired cs_InsideWindow cs_CompletedFirst cs_NeverOpened].
    - intros k. specialize (Hf k). destruct (oc_Fired o); rewrite !at_bump; destruct (decide (k = _)); lia.
    - rewrite at_bump. destruct (decide (Trigger (oc_Fault o) = TriggerDuringAlignment)) as [Hd|Hd].
      + rewrite decide_True by done. destruct Ho as [Hna _]. destruct (oc_Alignment o); [done|lia..].
      + rewrite decide_False, Ho by done. lia.
    - destruct (decide (Trigger (oc_Fault o) = TriggerDuringAlignment)) as [Hd|Hd].
      + destruct Ho as [_ Hins]. destruct (oc_Fired o).
        * rewrite at_bump, decide_True, (proj2 Hins) by congruence. lia.
        * destruct (oc_Alignment o); [lia| |lia..]. by specialize (proj1 Hins eq_refl).
      + rewrite Ho. destruct (oc_Fired o); [rewrite at_bump, decide_False by congruence|]; lia. }
  destruct (IH c1 b1 Hos Hc1) as (H1 & H2 & H3). split; [done|]. split; [rewrite H2; by subst c1|]. rewrite H3, <- E2. by rewrite orb_assoc.
Qed.

(** What the recoveries of one schedule change. *)
Record recovering (c : Census) : Prop := {
  rg_resumes : ResumesFromCheckpoint c + RestartsFromZero c = Resumes c;
  rg_pending : 0 <= PendingWindowsMax c <= PendingWindowsTotal c;
}.

Lemma add_recoveries rs c p : Forall (fun r => 0 <= PendingWindows r) rs -> recovering c ->
  recovering (foldl add_recovery (c, p) rs).1 /\ not_recoveries (foldl add_recovery (c, p) rs).1 = not_recoveries c.
Proof.
  revert c p. induction rs as [|r rs IH]; intros c p Hr Hc; [done|]. apply Forall_cons in Hr as [Hr Hrs].
  cbn [foldl]. destruct (add_recovery (c, p) r) as [c1 p1] eqn:E. injection E as E1 E2.
  destruct (IH c1 p1 Hrs) as [H1 H2].
  - subst c1. destruct Hc as [Hc1 Hc2]. split; cbn; [destruct (FromCheckpoint r); lia|lia].
  - split; [done|]. rewrite H2. by subst c1.
Qed.

(** A result as a run makes it: the outcomes are its faults', in order. *)
Record result_ok (r : Result) : Prop := {
  rk_outcomes : Forall outcome_ok (r_Outcomes r);
  rk_faults : oc_Fault <$> r_Outcomes r = r_Faults r;
  rk_pending : Forall (fun rec => 0 <= PendingWindows rec) (r_Recoveries r);
}.

Lemma Census_Add_ok r c : result_ok r -> census_ok c -> census_ok (Census_Add r c) /\ Schedules (Census_Add r c) = Schedules c + 1.
Proof.
  intros [Ho Hf Hp] [Cf Ck Ca Ci Cr Cp Cs]. unfold Census_Add.
  set (some := (0 <? length (r_Faults r))%nat). set (c1 := MkCensus (Schedules c + 1) _ _ _ _ _ _ _ _ _ _ _ _ _).
  destruct (add_outcomes (r_Outcomes r) c1 false Ho) as ([H1 H2 H3] & Hn & Hb); [by split|].
  assert (existsb oc_Fired (r_Outcomes r) = true -> some = true) as Hsome.
  { subst some. rewrite <- Hf, length_fmap. by destruct (r_Outcomes r). }
  clearbody some.
  destruct (foldl add_outcome (c1, false) (r_Outcomes r)) as [c2 aborted]. cbn [fst snd orb] in *. rewrite <- Hb in Hsome. unfold not_outcomes in Hn.
  injection Hn as N1 N2 N3 N4 N5 N6 N7 N8 N9. set (c3 := MkCensus _ _ _ _ _ _ _ _ _ _ _ _ _ _).
  destruct (add_recoveries (r_Recoveries r) c3 0 Hp) as ([R1 R2] & Hr).
  { subst c3. split; cbn; [rewrite N4, N5, N6; apply Cr|rewrite N8, N9; apply Cp]. }
  destruct (foldl add_recovery (c3, 0) (r_Recoveries r)) as [c4 pending]. cbn [fst] in *. unfold not_recoveries in Hr.
  injection Hr as M1 M2 M3 M4 M5 M6 M7 M8 M9. unfold alignmentScheduled in *. split.
  - split; cbn [Schedules SchedulesWithFaults SchedulesThatAborted FaultsScheduled FaultsFired Resumes ResumesFromCheckpoint RestartsFromZero
      SchedulesWithPendingWindow PendingWindowsTotal PendingWindowsMax cs_InsideWindow cs_CompletedFirst cs_NeverOpened].
    + rewrite M1, M2, M3. subst c3. cbn. rewrite N1, N2, N3. subst c1. cbn.
      destruct aborted; [rewrite Hsome by done|destruct some]; lia.
    + rewrite M4, M5. apply H1.
    + unfold alignmentScheduled. cbn [FaultsScheduled]. rewrite M4, M7, M8, M9. apply H2.
    + rewrite M5, M7. apply H3.
    + apply R1.
    + apply R2.
    + rewrite M1, M6. subst c3. cbn. rewrite N1, N7. subst c1. cbn. destruct (0 <? pending); lia.
  - cbn. rewrite M1. subst c3. cbn. by rewrite N1.
Qed.

(** A census of a suite adds up: it has one entry for each schedule, no more
    schedules aborted than had faults, no kind fired more often than it was
    scheduled, every alignment fault is in one of its three classes and those
    that fired are those that landed inside a window, and every resume is from a
    checkpoint or from zero. *)
Theorem census_adds_up rs : Forall result_ok rs ->
  census_ok (foldl (fun c r => Census_Add r c) empty_census rs) /\
  Schedules (foldl (fun c r => Census_Add r c) empty_census rs) = Z.of_nat (length rs).
Proof.
  induction rs as [|r rs IH] using rev_ind; intros Hr.
  { split; [|done]. split; first [done|intros []; cbn; lia|cbn; lia]. }
  apply Forall_app in Hr as [Hr Hone]. apply Forall_cons in Hone as [Hone _]. destruct (IH Hr) as [Hc Hn]. rewrite foldl_snoc.
  destruct (Census_Add_ok r _ Hone Hc) as [Hc' Hn']. split; [done|]. rewrite Hn', Hn, length_app. cbn. lia.
Qed.

(** The result of a schedule run under its injector. *)
Lemma injector_result_ok i recoveries : Forall (fun r => 0 <= PendingWindows r) recoveries ->
  result_ok (MkResult (faults i) (outcomes i) recoveries).
Proof. intros Hr. destruct (outcomes_ok i) as [H1 H2]. by split. Qed.
